(* ===== verification/_CoqProject ===== *)
-Q . S2P
Prelude.v
Bytes.v
Json.v
JsonCodec.v
Packet.v
JsonParser.v
JsonParserFacts.v
JsonParserSpec.v
MsgpackParser.v
Polling.v
Url.v
Reconnection.v
AckScheduler.v
Socket.v
SocketSystem.v
SocketFacts.v
SocketAcks.v
SocketOrder.v
SocketSpec.v
TransportConfig.v
Engineio.v
Heartbeat.v
HeartbeatSpec.v
HeartbeatSafety.v
HeartbeatJoin.v
HeartbeatDemo.v
Transport.v
SessionTransport.v
Websocket.v
WebsocketSpec.v
WebsocketWrites.v
WebsocketThread.v
WebsocketThreadSpec.v
WebsocketDemo.v
WebsocketClose.v
WebsocketCloseDemo.v
SessionDemo.v
HttpRequest.v
PollingCommon.v
PollingTransport.v
PollingContract.v
PollingWrites.v
PollingSleep.v
PollingDemo.v
PollingStrand.v
PollingStrandSpec.v
PollingStrandWrites.v
Reconnect.v
ClientLocks.v
ClientLocksSpec.v
ClientLocksDemo.v
Client.v
ClientSpec.v
ClientCode.v
SocketCode.v
Carrier.v
CarrierDemo.v
Requests.v
Facade.v
Listeners.v
