(* ===== verification/Prelude.v ===== *)
(** * sioxx: a verification development of the C++ Socket.IO client

    sioxx connects an application to a Socket.IO server.  A [client] owns one
    Engine.IO session at a time and a socket per namespace.  An emitted event
    becomes a packet (socket.cpp), the parser turns the packet into frames
    (json_parser.cpp, msgpack_parser.cpp), the session frames them as Engine.IO
    messages (engineio_client.cpp) and a transport carries these.  In the other
    direction the session hands frames to the client, which decodes them and
    routes each packet to the socket of its namespace (client.cpp); the socket
    calls listeners and acknowledgement callbacks.

    ** Files and the code they model

    - Prelude.v: exceptions as values ([outcome]), byte strings, transition
      systems, shared lemmas.  Bytes.v: the [std::string] operations in use.
    - Json.v: the value type of the JSON library, and its codecs as the class
      [JsonLib] with the laws [JsonLaws]; the library is not part of the
      repository.  JsonCodec.v: an instance, so that the laws are seen to be
      satisfiable and examples evaluate.
    - Packet.v (packet.hpp, parser.hpp): the packet, its type tag, and the parser
      interface as the classes [ParserBase] and [ParserLaws].
    - JsonParser.v, JsonParserFacts.v, JsonParserSpec.v (json_parser.cpp): the
      text protocol.  MsgpackParser.v (msgpack_parser.cpp).  Both discharge
      [ParserLaws]; the client is verified against it.
    - AckScheduler.v (ack_scheduler.hpp): the deadline worker.
    - Socket.v (socket.cpp): each method as its critical sections and a list of
      [action]s it still has to do.  SocketSystem.v: the threads, user code and
      the worker interleave these actions.  SocketFacts.v, SocketAcks.v and
      SocketOrder.v: invariants of that system.  SocketSpec.v: the properties.
    - Engineio.v (engineio_client.cpp): handlers as functions on the session
      with the calls they make; the heartbeat one turn of its loop at a time.
      Heartbeat.v: the heartbeat thread, the callers of the session and its
      transport one atomic step at a time; HeartbeatSpec.v relates it to
      Engineio.v, HeartbeatSafety.v and HeartbeatJoin.v hold its invariants and
      the progress of the threads that join it, HeartbeatDemo.v runs.
      SessionTransport.v, SessionDemo.v: the session composed with any [Transport].
    - Polling.v (the payload format of http_polling_transport.cpp, and Base64 of
      proxy.cpp), Url.v (url_parse.cpp, engineio_url.cpp, proxy.cpp),
      Reconnection.v (reconnection.cpp).
    - HttpRequest.v (http_polling_transport.cpp): one HTTP request, as the blocking
      function and as the chain of completion handlers.
    - Transport.v (transport.hpp): the interface of the transports, as the class
      [Transport] of the systems whose handler calls keep an automaton, the
      contract.  Its three implementations:
      + Websocket.v (websocket_transport.cpp), a strand with its completion handlers
        and posted functions; WebsocketSpec.v (contract), WebsocketWrites.v (write
        order, shutdown, deadline), WebsocketDemo.v (runs).  WebsocketThread.v adds
        the thread of the transport, [sync_close] and the destructor, with
        WebsocketThreadSpec.v (invariant), WebsocketClose.v (termination, silence
        afterwards, contract) and WebsocketCloseDemo.v;
      + PollingTransport.v (http_polling_transport.cpp with its own threads): program
        counters for the poll thread, the writer, the closing thread and the callers
        of [close] and [sync_close]; PollingContract.v, PollingWrites.v (write order),
        PollingSleep.v (condition variable, joining), PollingDemo.v (hangs, runs);
      + PollingStrand.v (the same file on an external context): a strand with the
        stack of handlers in progress; PollingStrandSpec.v, PollingStrandWrites.v.
      PollingCommon.v holds what the last two share.
    - TransportConfig.v (transport_config.hpp): what the client hands to a transport.
      Requests.v (both transports): the strand of Websocket.v run against the network
      of HttpRequest.v, the calls each transport makes on Beast and OpenSSL to open
      a connection and the requests it sends there.
    - Reconnect.v (client.cpp): the reconnect thread, its mutex and condition
      variable as a small-step system.
    - Client.v (client.cpp, client_impl.hpp): methods as programs of a monad
      over the members; what runs during a call is a parameter.  ClientSpec.v:
      its properties.  Carrier.v, CarrierDemo.v: two clients over any transport
      that keeps the order of its writes, the class [Carrier].  Facade.v
      (client.hpp, client.cpp): the public class, its options and its destructor.
      Listeners.v (client.cpp, client_impl.hpp): the life-cycle listeners.
    - ClientLocks.v (client.cpp, socket.cpp): which mutexes each method holds, and
      threads that run the methods; ClientLocksSpec.v: the lock order and what follows
      from it; ClientLocksDemo.v: runs, and listeners that hang.  ClientCode.v relates
      the methods of Client.v to that code, SocketCode.v the steps of SocketSystem.v.

    Names are those of the source where Rocq allows it; a comment gives the
    C++ expression otherwise.

    ** What is shown

    - Socket, under every interleaving: buffered packets are sent in order and no
      direct emission overtakes them; a timed callback runs at most once and not
      against its deadline; shutdown silences callbacks; a reply is sent once; a
      CONNECT flushes the buffer; an exception in the flush loop blocks later
      emissions for good.
    - Parsers: round trips of packets and of whole conversations, decoding is
      safe on every input, exact number parsing, recovery after an interrupted
      binary packet.
    - Client: packets sent by one client cause exactly the calls they ask for at
      the other, in order, through parser and session of both ends and any of the
      transports; the options of the client reach the requests of the transport;
      each session is released exactly once or by the destructor; its mutexes
      are taken in one order, so that each request for one can be granted, unless a
      listener that runs with a mutex held calls the client again; a disconnect
      listener that does so hangs for good; shutdown runs
      to its end whatever is thrown; a replaced session stays silent; the number
      of reconnection attempts is bounded between two calls of [connect].
    - The models with data and the code over mutexes agree.  Each run of a method of
      Client.v, exceptions included, is a run of its code with the same calls and
      outcome, and tells which mutex is held at each call.  Each
      step of SocketSystem.v is a sequence of steps of threads with the code
      of socket.cpp, until the counter of ids overflows: what is proved of all runs of
      that code, the lock order above all, holds of the sockets and the client.
    - Reconnect thread: a second close notification during the delay deadlocks, as
      does one while a listener on that thread stops it; there is no other deadlock,
      calls made on the reconnect thread itself included.
    - Session: framing round trip, all outcomes of the handshake, when the
      heartbeat reports a silent server.  Its thread is never assigned while it can
      be joined, no request to stop it is lost, and a caller that joins it comes
      back.  Over any transport that keeps the contract its owner is given the
      messages of the transport, in order, and none before it has opened.
    - Transports: each of the three refines the contract; messages are written in
      the order of [send], one at a time; shutdown is final; the polling on a strand
      never stops by itself.  [sync_close] of the managed long-polling transport is
      blocked only by a lost notification or by a handler that calls [close], and
      both are shown to block it for good; that of the websocket transport comes
      to its end from every reachable state, and nothing is delivered after it.  The
      blocking and the asynchronous request make the same calls; run against any network,
      the handlers of the WebSocket make those of a polling request up to the upgrade, except to
      a plain server behind a proxy; the options of the client decide proxy, verification
      and headers of all of them; proxy credentials stay out of TLS requests.
    - URLs, proxies, polling bodies, Base64, deadlines and delays: round trips
      and bounds.

    ** Conventions

    An exception is [Throw]; where the members assigned before it matter, the
    state is returned beside it.  A dereferenced null or an index out of range is
    [Throw undefined_behaviour], and shown not to happen where it does not.  A
    machine integer is a [Z] with its bound or wrap-around written out.  Structural recursion
    needs no fuel; decimal printing uses the binary logarithm of the number as
    fuel and the example codec the length of its input, both proved enough.
    Functions that can round take the rounding as a parameter ([Reconnection.v]).

    ** What is not modelled

    Boost.Asio, Beast and OpenSSL are the environment of the transports: which
    operation ends next, and how, is arbitrary.  Spurious wake-ups are steps of
    their own in PollingTransport.v.  Not modelled: construction of
    objects apart from the initial values and [client]; failure of allocation or of starting a
    thread; NaN; the verification of certificates, which OpenSSL does.  The JSON
    library is a parameter, and so are the fields [prepare_payload] of Beast adjusts.  The transports, Engineio.v and Client.v take every
    handler to be set: an output or an event such as [OnOpen] means that the handler
    is called if one is.

    ** Left open

    The mutexes of a session and of its transport are not in the lock order of the
    client: in ClientLocks.v a call of the session is a call that may call back. *)

From stdpp Require Export base option list list_numbers gmap strings sorting.
From stdpp Require Export fin_maps fin_sets.
From Stdlib Require Export ZArith Lia.
From Stdlib Require Ascii.
Export Stdlib.Strings.Ascii (ascii(..)).
Export (notations) Stdlib.Strings.Ascii.
From stdpp Require Import options.

(** ** Exceptions

    C++ code that throws is modelled by [outcome]: [Ok] is a normal return and
    [Throw] an exception that propagates.  The standard exception classes the
    sources raise, and the exception classes of the JSON library they let
    through, are told apart because the handlers report [what()]. *)
Inductive exn : Type :=
  | invalid_argument (what : list ascii)
  | runtime_error (what : list ascii)
  | logic_error (what : list ascii)
  | length_error (what : list ascii)
  | json_exception (what : list ascii)
  | undefined_behaviour
  | user_exception (code : Z).

Inductive outcome (A : Type) : Type :=
  | Ok (a : A)
  | Throw (e : exn).
Arguments Ok {_} _.
Arguments Throw {_} _.

#[export] Instance outcome_ret : MRet outcome := fun A a => Ok a.
#[export] Instance outcome_bind : MBind outcome := fun A B f m =>
  match m with Ok a => f a | Throw e => Throw e end.
#[export] Instance outcome_fmap : FMap outcome := fun A B f m =>
  match m with Ok a => Ok (f a) | Throw e => Throw e end.

#[export] Instance exn_eq_dec : EqDecision exn.
Proof. solve_decision. Defined.
#[export] Instance outcome_eq_dec {A} `{EqDecision A} : EqDecision (outcome A).
Proof. solve_decision. Defined.

(** [throw_none e o] is the value of [o], or the exception [e]. *)
Definition throw_none {A} (e : exn) (o : option A) : outcome A :=
  match o with Some a => Ok a | None => Throw e end.

Definition is_ok {A} (m : outcome A) : bool :=
  match m with Ok _ => true | Throw _ => false end.

Lemma outcome_bind_ok {A B} (m : outcome A) (f : A -> outcome B) b :
  m ≫= f = Ok b <-> exists a, m = Ok a /\ f a = Ok b.
Proof. destruct m; naive_solver. Qed.

Lemma throw_none_ok {A} e (o : option A) a : throw_none e o = Ok a <-> o = Some a.
Proof. destruct o; naive_solver. Qed.

(** ** Byte strings

    [std::string] is a sequence of 8-bit characters: a list of [ascii].  String
    literals stand for the list of their bytes. *)
Abbreviation bstr := (list ascii).

Definition bs (s : string) : bstr := String.list_ascii_of_string s.
Coercion bs : string >-> list.

(** [dq s] writes the double quotes of JSON text as single quotes in literals. *)
Definition dq (s : string) : bstr :=
  (fun c => if decide (c = "'"%char) then "034"%char else c) <$> bs s.

(** ** Automation *)

(** Split the conjunctions and existentials of the hypotheses, substitute. *)
Ltac inv_hyps :=
  repeat match goal with
  | H : _ /\ _ |- _ => destruct H
  | H : exists _, _ |- _ => destruct H
  | H : Ok _ = Ok _ |- _ => injection H as H
  | H : Some _ = Some _ |- _ => injection H as H
  | H : (_, _) = (_, _) |- _ => injection H as H
  | H : Ok _ = Throw _ |- _ => discriminate H
  | H : Throw _ = Ok _ |- _ => discriminate H
  | H : Some _ = None |- _ => discriminate H
  | H : None = Some _ |- _ => discriminate H
  end; subst.

(** Case analysis on the boolean and option tests a hypothesis or goal is stuck on. *)
Ltac split_match H :=
  match type of H with
  | context [match ?x with _ => _ end] => destruct x eqn:?
  end.

Create HintDb sioxx.
Create Rewrite HintDb sioxx_len.

#[export] Hint Rewrite @length_app @length_cons @length_nil @length_take @length_drop
  @length_replicate @length_fmap : sioxx_len.
#[export] Hint Resolve Forall_nil_2 : sioxx.

(** ** Generic list lemmas *)

Lemma drop_app_exact {A} (l k : list A) n : n = length l -> drop n (l ++ k) = k.
Proof. intros ->. apply drop_app_length. Qed.

Lemma take_app_exact {A} (l k : list A) n : n = length l -> take n (l ++ k) = l.
Proof. intros ->. apply take_app_length. Qed.

Lemma lookup_app_exact {A} (l k : list A) x n : n = length l -> (l ++ x :: k) !! n = Some x.
Proof. intros ->. rewrite lookup_app_r by lia. by rewrite Nat.sub_diag. Qed.

Lemma elem_of_lookup_lt {A} (l : list A) i x : l !! i = Some x -> i < length l.
Proof. apply lookup_lt_Some. Qed.
#[export] Hint Resolve drop_app_exact take_app_exact lookup_app_exact : sioxx.

Lemma filter_all {A} (P : A -> Prop) `{!forall x, Decision (P x)} (l : list A) :
  Forall P l -> filter P l = l.
Proof. induction 1; [done|]. rewrite filter_cons_True by done. by f_equal. Qed.

(** ** Transition systems *)

(** A property of the initial state that every step preserves holds of every
    reachable state. *)
Lemma invariant_rtc {S} (step : S -> S -> Prop) (I : S -> Prop) s0 :
  I s0 -> (forall s s', step s s' -> I s -> I s') -> forall s, rtc step s0 s -> I s.
Proof. intros H0 Hstep s Hr. revert H0. induction Hr; eauto. Qed.

(** The same with the reachability of the state at hand. *)
Lemma invariant_rtc_strong {S} (step : S -> S -> Prop) (I : S -> Prop) s0 :
  I s0 -> (forall s s', rtc step s0 s -> step s s' -> I s -> I s') -> forall s, rtc step s0 s -> I s.
Proof. intros H0 Hstep. apply rtc_ind_r; [done|]. eauto. Qed.
