(* ===== verification/Bytes.v ===== *)
(** * Byte strings: the [std::string] operations the sources use

    Searching ([find], [rfind], [find_first_of]), slicing ([substr]), the
    character classes of the C locale ([isdigit], [isalnum]) and decimal
    printing ([std::to_string]), with the lemmas that let the components reason
    about a string as a concatenation.  Positions are [nat]; [npos] is [None]. *)

From S2P Require Export Prelude.
From stdpp Require Import options.
#[local] Set Default Proof Using "Type*".
Local Open Scope Z_scope.

(** ** Characters as numbers *)

Definition code (c : ascii) : Z := Z.of_N (Stdlib.Strings.Ascii.N_of_ascii c).
(** [static_cast<char>] of an integer: the low eight bits. *)
Definition char_of (z : Z) : ascii := Stdlib.Strings.Ascii.ascii_of_N (Z.to_N (z mod 256)).

(** Lower case, in the C locale. *)
Definition to_lower (c : ascii) : ascii :=
  if (65 <=? code c) && (code c <=? 90) then char_of (code c + 32) else c.

Lemma code_range c : 0 <= code c < 256.
Proof. unfold code. pose proof (Stdlib.Strings.Ascii.N_ascii_bounded c). lia. Qed.

Lemma char_of_code c : char_of (code c) = c.
Proof.
  unfold char_of. rewrite Z.mod_small by apply code_range. unfold code.
  rewrite N2Z.id. apply Stdlib.Strings.Ascii.ascii_N_embedding.
Qed.

Lemma code_char_of z : 0 <= z < 256 -> code (char_of z) = z.
Proof.
  intros Hz. unfold char_of, code. rewrite Z.mod_small by done.
  rewrite Stdlib.Strings.Ascii.N_ascii_embedding by lia. lia.
Qed.

Lemma code_inj c d : code c = code d -> c = d.
Proof. intros H. rewrite <-(char_of_code c), <-(char_of_code d). by rewrite H. Qed.

(** A decidable property of characters, checked on all 256 of them. *)
Lemma char_table (P : ascii -> bool) :
  forallb (fun i => P (char_of (Z.of_nat i))) (seq 0 256) = true -> forall c, P c = true.
Proof.
  intros H c. rewrite forallb_forall in H. specialize (H (Z.to_nat (code c))).
  pose proof (code_range c). rewrite Z2Nat.id, char_of_code in H by lia.
  apply H, in_seq. lia.
Qed.

(** [std::isdigit] and [std::isalnum] in the C locale. *)
Definition isdigit (c : ascii) : bool := (48 <=? code c) && (code c <=? 57).
Definition isalpha (c : ascii) : bool :=
  ((65 <=? code c) && (code c <=? 90)) || ((97 <=? code c) && (code c <=? 122)).
Definition isalnum (c : ascii) : bool := isdigit c || isalpha c.

(** [c - '0'] *)
Definition digit_val (c : ascii) : Z := code c - 48.

Lemma isdigit_val c : isdigit c = true -> 0 <= digit_val c <= 9.
Proof. unfold isdigit, digit_val. lia. Qed.

(** ** Searching *)

(** First index of [c] in [s]. *)
Fixpoint find_c (c : ascii) (s : bstr) : option nat :=
  match s with
  | [] => None
  | x :: s' => if decide (x = c) then Some 0%nat else S <$> find_c c s'
  end.

(** [s.find(c, pos)] *)
Definition find_char (s : bstr) (c : ascii) (pos : nat) : option nat :=
  (fun k => (pos + k)%nat) <$> find_c c (drop pos s).

(** [s.rfind(c)] *)
Fixpoint rfind_char (s : bstr) (c : ascii) : option nat :=
  match s with
  | [] => None
  | x :: s' =>
      match rfind_char s' c with
      | Some k => Some (S k)
      | None => if decide (x = c) then Some 0%nat else None
      end
  end.

Fixpoint is_prefix (p s : bstr) : bool :=
  match p, s with
  | [], _ => true
  | x :: p', y :: s' => if decide (x = y) then is_prefix p' s' else false
  | _ :: _, [] => false
  end.

(** [s.find(p)] *)
Fixpoint find_str (s p : bstr) : option nat :=
  if is_prefix p s then Some 0%nat
  else match s with [] => None | _ :: s' => S <$> find_str s' p end.

Fixpoint find_set (s set : bstr) : option nat :=
  match s with
  | [] => None
  | x :: s' => if bool_decide (x ∈ set) then Some 0%nat else S <$> find_set s' set
  end.

(** [s.find_first_of(set, pos)] *)
Definition find_first_of (s set : bstr) (pos : nat) : option nat :=
  (fun k => (pos + k)%nat) <$> find_set (drop pos s) set.

(** [s.substr(pos, n)] for [pos <= s.size()], which holds at every call. *)
Definition substr (s : bstr) (pos n : nat) : bstr := take n (drop pos s).

(** *** Lemmas *)

Lemma find_c_None c s : find_c c s = None <-> c ∉ s.
Proof.
  induction s as [|x s IH]; simpl; [split; [intros _; apply not_elem_of_nil|done]|].
  rewrite not_elem_of_cons. case_decide as Hx.
  - split; [done|]. naive_solver.
  - destruct (find_c c s); simpl; naive_solver.
Qed.

Lemma find_c_app_notin c l k : c ∉ l -> find_c c (l ++ k) = (fun n => (length l + n)%nat) <$> find_c c k.
Proof.
  induction l as [|x l IH]; simpl.
  - intros _. by destruct (find_c c k).
  - intros [Hx Hl]%not_elem_of_cons. rewrite decide_False by congruence.
    rewrite IH by done. by destruct (find_c c k).
Qed.

Lemma find_c_first c l k : c ∉ l -> find_c c (l ++ c :: k) = Some (length l).
Proof.
  intros Hl. rewrite find_c_app_notin by done. simpl. rewrite decide_True by done.
  simpl. by rewrite Nat.add_0_r.
Qed.

(** The position a search finds splits the string at the first occurrence. *)
Lemma find_c_Some c s n : find_c c s = Some n <-> exists l k, s = l ++ c :: k /\ length l = n /\ c ∉ l.
Proof.
  split.
  - revert n. induction s as [|x s IH]; simpl; [done|]. intros n. case_decide as Hx.
    + intros [= <-]. subst x. exists [], s. split_and!; [done..|]. apply not_elem_of_nil.
    + destruct (find_c c s) as [m|] eqn:E; simpl; [|done]. intros [= <-].
      destruct (IH m eq_refl) as (l & k & -> & <- & Hl). exists (x :: l), k.
      split_and!; [done..|]. apply not_elem_of_cons. naive_solver.
  - intros (l & k & -> & <- & Hl). by apply find_c_first.
Qed.

Lemma find_char_app (pre l k : bstr) c i :
  i = length pre -> c ∉ l -> find_char (pre ++ l ++ c :: k) c i = Some (length pre + length l)%nat.
Proof.
  intros -> Hl. unfold find_char. rewrite drop_app_length. by rewrite find_c_first.
Qed.

Lemma rfind_char_None s c : rfind_char s c = None <-> c ∉ s.
Proof.
  induction s as [|x s IH]; simpl; [split; [intros _; apply not_elem_of_nil|done]|].
  rewrite not_elem_of_cons. destruct (rfind_char s c).
  - naive_solver.
  - case_decide; naive_solver.
Qed.

Lemma rfind_char_last l k c : c ∉ k -> rfind_char (l ++ c :: k) c = Some (length l).
Proof.
  intros Hk. induction l as [|x l IH]; simpl.
  - apply rfind_char_None in Hk. rewrite Hk. by rewrite decide_True.
  - by rewrite IH.
Qed.

Lemma is_prefix_spec p s : is_prefix p s = true <-> exists k, s = p ++ k.
Proof.
  revert s. induction p as [|x p IH]; intros s; simpl; [naive_solver|].
  destruct s as [|y s]; [naive_solver|]. case_decide; [rewrite IH; naive_solver|naive_solver].
Qed.

Lemma is_prefix_app p k : is_prefix p (p ++ k) = true.
Proof. apply is_prefix_spec. by exists k. Qed.

(** A pattern whose first character does not occur in [l] is first found after [l]. *)
Lemma find_str_app l c p k :
  c ∉ l -> find_str (l ++ (c :: p) ++ k) (c :: p) = Some (length l).
Proof.
  induction l as [|x l IH]; intros Hl.
  - assert (is_prefix (c :: p) (c :: p ++ k) = true) as E by apply (is_prefix_app (c :: p)).
    cbn [app find_str]. by rewrite E.
  - apply not_elem_of_cons in Hl as [Hx Hl]. cbn [app find_str is_prefix].
    rewrite decide_False by congruence. change (c :: p ++ k) with ((c :: p) ++ k).
    by rewrite IH.
Qed.

Lemma find_str_Some s p n : find_str s p = Some n -> exists l k, s = l ++ p ++ k /\ length l = n.
Proof.
  revert n. induction s as [|x s IH]; intros n; cbn [find_str].
  - destruct (is_prefix p []) eqn:E; [|done]. intros [= <-].
    apply is_prefix_spec in E as [k E]. by exists [], k.
  - destruct (is_prefix p (x :: s)) eqn:E.
    + intros [= <-]. apply is_prefix_spec in E as [k E]. by exists [], k.
    + destruct (find_str s p) as [m|] eqn:Em; [|done]. intros [= <-].
      destruct (IH m eq_refl) as (l & k & -> & <-). by exists (x :: l), k.
Qed.

Lemma find_set_None s set : find_set s set = None <-> (forall c, c ∈ s -> c ∉ set).
Proof.
  induction s as [|x s IH]; simpl.
  - split; [|done]. intros _ c []%elem_of_nil.
  - case_bool_decide as Hx.
    + split; [done|]. intros H. exfalso. by apply (H x); [left|].
    + destruct (find_set s set); simpl; split; try done.
      * intros H. exfalso. assert (Some n = None) as [=]. apply IH. intros c Hc. apply H. by right.
      * intros _ c [->|Hc]%elem_of_cons; [done|]. by apply IH.
Qed.

(** ** Decimal numbers *)

Definition digit_char (d : Z) : ascii := char_of (48 + d).

Lemma code_digit_char d : 0 <= d <= 9 -> code (digit_char d) = 48 + d.
Proof. intros. unfold digit_char. apply code_char_of. lia. Qed.

Lemma isdigit_digit_char d : 0 <= d <= 9 -> isdigit (digit_char d) = true.
Proof. intros. unfold isdigit. rewrite code_digit_char by lia. lia. Qed.

Lemma digit_val_char d : 0 <= d <= 9 -> digit_val (digit_char d) = d.
Proof. intros. unfold digit_val. rewrite code_digit_char by lia. lia. Qed.

(** Decimal digits of [n], most significant first, before [acc]; the fuel is
    the number of bits of [n], which is more than its number of digits. *)
Fixpoint dec_digits (fuel : nat) (n : Z) (acc : bstr) : bstr :=
  let acc' := digit_char (n mod 10) :: acc in
  if n <? 10 then acc'
  else match fuel with
       | O => acc'
       | S f => dec_digits f (n / 10) acc'
       end.

(** [std::to_string] of an integer. *)
Definition to_string (z : Z) : bstr :=
  if z <? 0 then "-"%char :: dec_digits (Z.to_nat (Z.log2 (- z))) (- z) []
  else dec_digits (Z.to_nat (Z.log2 z)) z [].

(** The number a digit string denotes. *)
Definition dec_value (s : bstr) : Z := fold_left (fun r c => r * 10 + digit_val c) s 0.

Definition all_digits (s : bstr) : Prop := Forall (fun c => isdigit c = true) s.

#[export] Instance all_digits_dec s : Decision (all_digits s).
Proof. unfold all_digits. apply _. Defined.

Lemma dec_value_snoc s c : dec_value (s ++ [c]) = dec_value s * 10 + digit_val c.
Proof. unfold dec_value. by rewrite fold_left_app. Qed.

Lemma dec_value_nonneg s : all_digits s -> 0 <= dec_value s.
Proof.
  induction s as [|c s IH] using rev_ind; [done|].
  intros [Hs Hc]%Forall_app. rewrite dec_value_snoc.
  rewrite Forall_singleton in Hc. specialize (IH Hs). apply isdigit_val in Hc. lia.
Qed.

Lemma dec_digits_spec fuel n acc :
  0 <= n < 10 * 2 ^ Z.of_nat fuel ->
  exists ds, dec_digits fuel n acc = ds ++ acc /\ ds <> [] /\ all_digits ds /\ dec_value ds = n.
Proof.
  revert n acc. induction fuel as [|f IH]; intros n acc Hn; cbn [dec_digits].
  - assert (n <? 10 = true) as -> by lia. exists [digit_char (n mod 10)].
    rewrite Z.mod_small by lia. unfold dec_value; simpl.
    split_and!; [done..| |rewrite digit_val_char; lia].
    apply Forall_singleton, isdigit_digit_char. lia.
  - destruct (Z.ltb_spec n 10).
    + exists [digit_char (n mod 10)]. rewrite Z.mod_small by lia. unfold dec_value; simpl.
      split_and!; [done..| |rewrite digit_val_char; lia].
      apply Forall_singleton, isdigit_digit_char. lia.
    + rewrite Nat2Z.inj_succ, Z.pow_succ_r in Hn by lia.
      destruct (IH (n / 10) (digit_char (n mod 10) :: acc)) as (ds & -> & Hne & Hd & Hv).
      { split; [apply Z.div_pos; lia|]. apply Z.div_lt_upper_bound; lia. }
      assert (0 <= n mod 10 < 10) by (apply Z.mod_pos_bound; lia).
      exists (ds ++ [digit_char (n mod 10)]). split_and!.
      * by rewrite <-app_assoc.
      * by destruct ds.
      * apply Forall_app; split; [done|]. apply Forall_singleton, isdigit_digit_char. lia.
      * rewrite dec_value_snoc, digit_val_char, Hv by lia.
        pose proof (Z.div_mod n 10). lia.
Qed.

Lemma log2_fuel n : 0 <= n -> 0 <= n < 10 * 2 ^ Z.of_nat (Z.to_nat (Z.log2 n)).
Proof.
  intros Hn. rewrite Z2Nat.id by apply Z.log2_nonneg. split; [done|].
  destruct (decide (n = 0)) as [->|]; [done|].
  pose proof (Z.log2_spec n ltac:(lia)) as [_ H]. rewrite Z.pow_succ_r in H by apply Z.log2_nonneg.
  lia.
Qed.

(** A non-negative number prints as digits that denote it. *)
Lemma to_string_digits n :
  0 <= n -> to_string n <> [] /\ all_digits (to_string n) /\ dec_value (to_string n) = n.
Proof.
  intros Hn. unfold to_string. assert (n <? 0 = false) as -> by lia.
  destruct (dec_digits_spec _ n [] (log2_fuel n Hn)) as (ds & -> & ?).
  by rewrite app_nil_r.
Qed.

Lemma to_string_neg n :
  n < 0 -> exists ds, to_string n = "-"%char :: ds /\ ds <> [] /\ all_digits ds /\ dec_value ds = - n.
Proof.
  intros Hn. unfold to_string. assert (n <? 0 = true) as -> by lia.
  destruct (dec_digits_spec _ (- n) [] (log2_fuel (- n) ltac:(lia))) as (ds & -> & ?).
  exists ds. by rewrite app_nil_r.
Qed.

Lemma not_digit_notin c s : isdigit c = false -> all_digits s -> c ∉ s.
Proof.
  intros Hc Hs Hin. unfold all_digits in Hs. rewrite Forall_forall in Hs.
  specialize (Hs c Hin). congruence.
Qed.

(** *** The span of digits at the front of a string *)

Fixpoint span_digits (s : bstr) : nat :=
  match s with
  | c :: s' => if isdigit c then S (span_digits s') else 0%nat
  | [] => 0%nat
  end.

Definition starts_with_digit (s : bstr) : bool :=
  match s with c :: _ => isdigit c | [] => false end.

Lemma span_digits_app ds k :
  all_digits ds -> starts_with_digit k = false -> span_digits (ds ++ k) = length ds.
Proof.
  intros Hds Hk. induction Hds as [|c ds Hc Hds IH]; simpl.
  - destruct k as [|c k]; [done|]. simpl in *. by rewrite Hk.
  - rewrite Hc. by rewrite IH.
Qed.

Lemma span_digits_none k : starts_with_digit k = false -> span_digits k = 0%nat.
Proof. apply (span_digits_app []). constructor. Qed.

(** ** Ordering

    [std::map<std::string, T>] is kept in the order of [std::less], which
    compares bytes as unsigned characters. *)
Fixpoint bstr_ltb (a b : bstr) : bool :=
  match a, b with
  | _, [] => false
  | [], _ :: _ => true
  | x :: a', y :: b' => if decide (x = y) then bstr_ltb a' b' else code x <? code y
  end.

(** The keys of a [std::map] in its order: [sockets_[nsp] = sock] for a new key. *)
Fixpoint insert_nsp (nsp : bstr) (l : list bstr) : list bstr :=
  match l with
  | [] => [nsp]
  | n :: l' => if bstr_ltb nsp n then nsp :: l else n :: insert_nsp nsp l'
  end.

Lemma bstr_ltb_irrefl a : bstr_ltb a a = false.
Proof. induction a; simpl; [done|]. by rewrite decide_True. Qed.

Lemma bstr_ltb_trans a b c : bstr_ltb a b = true -> bstr_ltb b c = true -> bstr_ltb a c = true.
Proof.
  revert b c. induction a as [|x a IH]; intros [|y b] [|z c]; cbn [bstr_ltb]; try discriminate;
    [reflexivity|].
  destruct (decide (x = y)) as [<-|Hxy].
  - destruct (decide (x = z)); [apply IH|auto].
  - destruct (decide (y = z)) as [<-|Hyz].
    + rewrite decide_False by exact Hxy. auto.
    + rewrite !Z.ltb_lt. intros H1 H2. rewrite decide_False by (intros ->; lia).
      apply Z.ltb_lt. lia.
Qed.

Lemma bstr_ltb_total a b : a <> b -> bstr_ltb a b = true \/ bstr_ltb b a = true.
Proof.
  revert b. induction a as [|x a IH]; intros [|y b] Hne; cbn [bstr_ltb];
    [congruence|left; reflexivity|right; reflexivity|].
  destruct (decide (x = y)) as [<-|Hxy].
  - rewrite decide_True by reflexivity. apply IH. congruence.
  - rewrite decide_False by congruence.
    assert (code x <> code y) by (intros ?%code_inj; congruence). lia.
Qed.
