(* ===== verification/Json.v ===== *)
(** * JSON values

    [sioxx::json] is an alias of [nlohmann::json] (include/sioxx/message.hpp),
    a library that is not part of the repository.  Its value type is a tagged
    union, modelled here as an inductive type with the observers the sources
    call; its text and MessagePack codecs and its numeric conversion are the
    operations of the class [JsonLib], parameters of every definition that uses
    them.  [JsonLaws] states the documented behaviour the sources rely on. *)

From S2P Require Export Prelude.
From S2P Require Export Bytes.
From stdpp Require Import options.
#[local] Set Default Proof Using "Type*".
Local Open Scope Z_scope.

(** ** The value type

    Signed and unsigned integers are distinct alternatives, as in the library.
    A double is kept as its 64-bit pattern: nothing in the sources computes with
    it.  An object is the list of its members in key order, the order in which
    the library iterates; a binary value has an optional subtype. *)
Inductive json : Type :=
  | JNull
  | JBool (b : bool)
  | JInt (z : Z)
  | JUint (z : Z)
  | JFloat (bits : Z)
  | JString (s : bstr)
  | JArray (l : list json)
  | JObject (m : list (bstr * json))
  | JBinary (bytes : bstr) (subtype : option Z).

(** Induction that gives the property for every element and every member. *)
Section json_ind.
Context (P : json -> Prop).
Context (Hnull : P JNull) (Hbool : forall b, P (JBool b)) (Hint : forall z, P (JInt z))
  (Huint : forall z, P (JUint z)) (Hfloat : forall b, P (JFloat b)) (Hstr : forall s, P (JString s))
  (Harr : forall l, Forall P l -> P (JArray l))
  (Hobj : forall m, Forall (fun kv => P kv.2) m -> P (JObject m))
  (Hbin : forall b t, P (JBinary b t)).

Fixpoint json_ind_nested (j : json) : P j :=
  match j with
  | JNull => Hnull
  | JBool b => Hbool b
  | JInt z => Hint z
  | JUint z => Huint z
  | JFloat b => Hfloat b
  | JString s => Hstr s
  | JArray l => Harr l ((fix go l : Forall P l :=
      match l with
      | [] => Forall_nil_2 P
      | x :: l' => Forall_cons_2 P x l' (json_ind_nested x) (go l')
      end) l)
  | JObject m => Hobj m ((fix go m : Forall (fun kv => P kv.2) m :=
      match m with
      | [] => Forall_nil_2 _
      | kv :: m' => Forall_cons_2 _ kv m' (json_ind_nested kv.2) (go m')
      end) m)
  | JBinary b t => Hbin b t
  end.
End json_ind.

#[export] Instance json_eq_dec : EqDecision json.
Proof.
  refine (fix go j1 j2 := let _ : EqDecision _ := @go in
    match j1, j2 with
    | JNull, JNull => left eq_refl
    | JBool b1, JBool b2 => cast_if (decide (b1 = b2))
    | JInt z1, JInt z2 => cast_if (decide (z1 = z2))
    | JUint z1, JUint z2 => cast_if (decide (z1 = z2))
    | JFloat b1, JFloat b2 => cast_if (decide (b1 = b2))
    | JString s1, JString s2 => cast_if (decide (s1 = s2))
    | JArray l1, JArray l2 => cast_if (decide (l1 = l2))
    | JObject m1, JObject m2 => cast_if (decide (m1 = m2))
    | JBinary b1 t1, JBinary b2 t2 => cast_if_and (decide (b1 = b2)) (decide (t1 = t2))
    | _, _ => right _
    end); abstract congruence.
Defined.

(** ** Observers *)

Definition is_null (j : json) : bool := match j with JNull => true | _ => false end.
Definition is_array (j : json) : bool := match j with JArray _ => true | _ => false end.
Definition is_object (j : json) : bool := match j with JObject _ => true | _ => false end.
Definition is_binary (j : json) : bool := match j with JBinary _ _ => true | _ => false end.

(** The member of an object under a key. *)
Fixpoint obj_lookup (k : bstr) (m : list (bstr * json)) : option json :=
  match m with
  | [] => None
  | (k', v) :: m' => if decide (k' = k) then Some v else obj_lookup k m'
  end.

(** [value[key]] when [value.contains(key)]: [None] is a key that is absent, or
    a value that is no object. *)
Definition member (j : json) (k : bstr) : option json :=
  match j with JObject m => obj_lookup k m | _ => None end.

(** [obj[key] = v] on an object: members stay in key order. *)
Fixpoint obj_insert (k : bstr) (v : json) (m : list (bstr * json)) : list (bstr * json) :=
  match m with
  | [] => [(k, v)]
  | (k', v') :: m' =>
      if decide (k' = k) then (k, v) :: m'
      else if bstr_ltb k k' then (k, v) :: m
      else (k', v') :: obj_insert k v m'
  end.

Lemma obj_lookup_insert k v m : obj_lookup k (obj_insert k v m) = Some v.
Proof.
  induction m as [|[k' v'] m IH]; simpl; [by rewrite decide_True|].
  repeat (case_decide || case_match); simpl; rewrite ?decide_True by done; try done.
  by rewrite decide_False.
Qed.

Lemma obj_lookup_insert_ne k k' v m : k <> k' -> obj_lookup k (obj_insert k' v m) = obj_lookup k m.
Proof.
  intros Hne. induction m as [|[k2 v2] m IH]; simpl; [by rewrite decide_False|].
  destruct (decide (k2 = k')) as [->|]; simpl.
  - by rewrite !decide_False by done.
  - case_match; simpl; [by rewrite decide_False|]. by rewrite IH.
Qed.

(** ** Recursive predicates and maps *)

(** Every node of the tree satisfies [P]. *)
Fixpoint json_all (P : json -> bool) (j : json) : bool :=
  P j && match j with
         | JArray l => forallb (json_all P) l
         | JObject m => forallb (fun kv => json_all P kv.2) m
         | _ => true
         end.

(** Apply [f] to every node that is neither an array nor an object. *)
Fixpoint json_map (f : json -> json) (j : json) : json :=
  match j with
  | JArray l => JArray (List.map (json_map f) l)
  | JObject m => JObject (List.map (fun kv => (kv.1, json_map f kv.2)) m)
  | _ => f j
  end.

Definition no_binary (j : json) : bool := json_all (fun n => negb (is_binary n)) j.

(** Members strictly ordered by key. *)
Fixpoint keys_sorted (ks : list bstr) : bool :=
  match ks with
  | k :: (k' :: _) as ks' => bstr_ltb k k' && keys_sorted ks'
  | _ => true
  end.

Definition max_container : Z := 2 ^ 32.
Definition fits {A} (l : list A) : bool := Z.of_nat (length l) <? max_container.
(** The exponent of a finite double is not all ones. *)
Definition finite_bits (b : Z) : bool :=
  (0 <=? b) && (b <? 2 ^ 64) && negb (Z.land (Z.shiftr b 52) 2047 =? 2047).

Definition node_ok (j : json) : bool :=
  match j with
  | JNull | JBool _ => true
  | JInt z => (- 2 ^ 63 <=? z) && (z <? 2 ^ 63)
  | JUint z => (0 <=? z) && (z <? 2 ^ 64)
  | JFloat b => finite_bits b
  | JString s => fits s
  | JArray l => fits l
  | JObject m => fits m && forallb (fun kv => fits kv.1) m && keys_sorted (List.map fst m)
  | JBinary b t => fits b && match t with Some z => (0 <=? z) && (z <? 256) | None => true end
  end.

(** The values a JSON document can hold: integers at their width, finite
    doubles, members in key order, sizes below the codecs' 32-bit limit. *)
Definition json_ok (j : json) : bool := json_all node_ok j.

(** A non-negative signed integer is read back as an unsigned one. *)
Definition norm_leaf (j : json) : json :=
  match j with JInt z => if 0 <=? z then JUint z else JInt z | _ => j end.
Definition num_norm (j : json) : json := json_map norm_leaf j.

(** The text protocol transmits the bytes of a binary value, not its subtype. *)
Definition strip_leaf (j : json) : json :=
  match j with JBinary b _ => JBinary b None | _ => norm_leaf j end.
Definition wire_norm (j : json) : json := json_map strip_leaf j.

(** ** The library's operations and the behaviour relied on *)

Class JsonLib : Type := {
  (** [value.dump()]; [None] is the type_error thrown on invalid UTF-8. *)
  dump : json -> option bstr;
  (** [json::parse(text, nullptr, false)]; [None] is a discarded value. *)
  parse : bstr -> option json;
  (** [json::to_msgpack(value)] *)
  to_msgpack : json -> bstr;
  (** [json::from_msgpack(bytes)]; [None] is the parse_error thrown. *)
  from_msgpack : bstr -> option json;
  (** [value.get<int>()]; [None] is the type_error thrown. *)
  get_int : json -> option Z;
}.

Class JsonLaws `(L : JsonLib) : Prop := {
  dump_array_head l s : dump (JArray l) = Some s -> exists s', s = "["%char :: s';
  dump_object_head m s : dump (JObject m) = Some s -> exists s', s = "{"%char :: s';
  parse_dump j s : json_ok j = true -> no_binary j = true -> dump j = Some s ->
    parse s = Some (num_norm j);
  from_to_msgpack j : json_ok j = true -> from_msgpack (to_msgpack j) = Some (num_norm j);
  get_int_int z : - 2 ^ 31 <= z < 2 ^ 31 -> get_int (JInt z) = Some z;
  get_int_uint z : 0 <= z < 2 ^ 31 -> get_int (JUint z) = Some z;
}.

(** [value.get<std::string>()] *)
Definition get_string (j : json) : option bstr := match j with JString s => Some s | _ => None end.

Definition type_error : exn := json_exception "type_error".
Definition parse_error : exn := json_exception "parse_error".

(** [obj.value(key, default)] for a conversion [get]: the default when the key
    is absent, an exception on a value that is no object or of another type. *)
Definition value_or {A} (get : json -> option A) (j : json) (k : bstr) (default : A) : outcome A :=
  match j with
  | JObject m => match obj_lookup k m with
                 | Some v => throw_none type_error (get v)
                 | None => Ok default
                 end
  | _ => Throw type_error
  end.

(** ** message.hpp *)

(** [arr.push_back(value)] on an array. *)
Definition push_back (arr value : json) : json :=
  match arr with JArray l => JArray (l ++ [value]) | _ => arr end.

(** [make_args(args...)] *)
Definition make_args (args : list json) : json := fold_left push_back args (JArray []).

(** [binary_message(bytes)] *)
Definition binary_message (bytes : bstr) : json := JBinary bytes None.

Lemma fold_push_back args acc : fold_left push_back args (JArray acc) = JArray (acc ++ args).
Proof.
  revert acc. induction args as [|a args IH]; intros acc; simpl; [by rewrite app_nil_r|].
  rewrite IH. by rewrite <-app_assoc.
Qed.

Lemma make_args_elements args : make_args args = JArray args.
Proof. apply (fold_push_back args []). Qed.

(** ** Lemmas on the recursive predicates *)

Lemma json_all_node P j : json_all P j = true -> P j = true.
Proof. destruct j; simpl; by intros [? ?]%andb_prop. Qed.

Lemma json_all_array P l : json_all P (JArray l) = true -> Forall (fun j => json_all P j = true) l.
Proof. simpl. intros [_ H]%andb_prop. rewrite forallb_forall in H. apply List.Forall_forall, H. Qed.

Lemma json_all_object P m :
  json_all P (JObject m) = true -> Forall (fun kv => json_all P kv.2 = true) m.
Proof. simpl. intros [_ H]%andb_prop. rewrite forallb_forall in H. apply List.Forall_forall, H. Qed.

Lemma map_ext_Forall {A B} (f g : A -> B) l : Forall (fun x => f x = g x) l -> List.map f l = List.map g l.
Proof. induction 1; simpl; congruence. Qed.

(** Two leaf maps that agree on the nodes satisfying [P] agree on the tree. *)
Lemma json_map_ext f g P j :
  (forall n, P n = true -> is_array n = false -> is_object n = false -> f n = g n) ->
  json_all P j = true -> json_map f j = json_map g j.
Proof.
  intros Hf. induction j as [| | | | | |l IH|m IH|] using json_ind_nested; intros HP;
    try (by apply Hf; [apply json_all_node in HP|..]).
  - apply json_all_array in HP. simpl. f_equal. apply map_ext_Forall.
    eapply Forall_impl; [apply Forall_and; split; [exact IH|exact HP]|]. simpl. naive_solver.
  - apply json_all_object in HP. simpl. f_equal. apply map_ext_Forall.
    eapply Forall_impl; [apply Forall_and; split; [exact IH|exact HP]|].
    intros [k v]; simpl. intros [H1 H2]. f_equal. auto.
Qed.

Lemma wire_norm_no_binary j : no_binary j = true -> wire_norm j = num_norm j.
Proof. apply json_map_ext. intros []; done. Qed.

Lemma is_null_wire_norm j : is_null (wire_norm j) = is_null j.
Proof. destruct j; try done. cbn. by case_match. Qed.
