(* ===== verification/JsonCodec.v ===== *)
(** * A concrete codec for the JSON interface

    An instance of [JsonLib] with a proof of [JsonLaws], used to evaluate the
    model on concrete inputs and to show that the laws can be met.  It prints
    JSON text, except that a double is written as its bit pattern after a hash
    and a binary value as a string after an asterisk; the same text serves as
    the binary format.  Printing for the text protocol fails on bytes outside
    ASCII, as the library does on invalid UTF-8. *)

From S2P Require Export Json.
From stdpp Require Import options.
#[local] Set Default Proof Using "Type*".
Local Open Scope Z_scope.

Module Codec.

(** ** Printing *)

Definition quote_char : ascii := "034"%char.
Definition slash_char : ascii := "092"%char.

Fixpoint escape (s : bstr) : bstr :=
match s with
| [] => []
| c :: s' => if decide (c = quote_char \/ c = slash_char) then slash_char :: c :: escape s' else c :: escape s'
end.

Definition quote (s : bstr) : bstr := quote_char :: escape s ++ [quote_char].

Fixpoint commas (l : list bstr) : bstr :=
match l with
| [] => []
| [x] => x
| x :: l' => x ++ "," ++ commas l'
end.

Fixpoint print (j : json) : bstr :=
match j with
| JNull => "null"
| JBool true => "true"
| JBool false => "false"
| JInt z => to_string z
| JUint z => to_string z
| JFloat b => "#" ++ to_string b ++ ";"
| JString s => quote s
| JArray l => "[" ++ commas (List.map print l) ++ "]"
| JObject m => "{" ++ commas (List.map (fun kv => quote kv.1 ++ ":" ++ print kv.2) m) ++ "}"
| JBinary b t => "*" ++ (match t with Some z => to_string z | None => [] end) ++ ";" ++ quote b
end.

Definition node_ascii (j : json) : bool :=
let ok s := forallb (fun c => code c <? 128) s in
match j with JString s => ok s | JObject m => forallb (fun kv => ok kv.1) m | _ => true end.

(** ** Parsing *)

Fixpoint parse_str (s : bstr) : option (bstr * bstr) :=
match s with
| [] => None
| c :: s' =>
    if decide (c = quote_char) then Some ([], s')
    else if decide (c = slash_char) then
      match s' with
      | [] => None
      | d :: s'' => '(t, r) ← parse_str s''; Some (d :: t, r)
      end
    else '(t, r) ← parse_str s'; Some (c :: t, r)
end.

Definition expect (c : ascii) (s : bstr) : option bstr :=
match s with d :: s' => if decide (d = c) then Some s' else None | [] => None end.

Definition parse_quoted (s : bstr) : option (bstr * bstr) := r ← expect quote_char s; parse_str r.

Definition parse_num (s : bstr) : option (Z * bstr) :=
let n := span_digits s in
if decide (n = 0%nat) then None else Some (dec_value (take n s), drop n s).

Definition parse_float (s : bstr) : option (json * bstr) :=
'(v, r) ← parse_num s; r' ← expect ";" r; Some (JFloat v, r').

Definition parse_binary (s : bstr) : option (json * bstr) :=
match parse_num s with
| Some (v, r) => r1 ← expect ";" r; '(b, r2) ← parse_quoted r1; Some (JBinary b (Some v), r2)
| None => r1 ← expect ";" s; '(b, r2) ← parse_quoted r1; Some (JBinary b None, r2)
end.

Fixpoint parse_value (fuel : nat) (s : bstr) : option (json * bstr) :=
match fuel, s with
| S f, c :: r =>
    if decide (c = "n"%char) then Some (JNull, drop 3 r)
    else if decide (c = "t"%char) then Some (JBool true, drop 3 r)
    else if decide (c = "f"%char) then Some (JBool false, drop 4 r)
    else if decide (c = quote_char) then '(t, r') ← parse_str r; Some (JString t, r')
    else if decide (c = "-"%char) then '(v, r') ← parse_num r; Some (JInt (- v), r')
    else if decide (c = "#"%char) then parse_float r
    else if decide (c = "*"%char) then parse_binary r
    else if decide (c = "["%char) then
      match expect "]" r with
      | Some r' => Some (JArray [], r')
      | None => '(l, r') ← parse_elements f r; Some (JArray l, r')
      end
    else if decide (c = "{"%char) then
      match expect "}" r with
      | Some r' => Some (JObject [], r')
      | None => '(m, r') ← parse_members f r; Some (JObject m, r')
      end
    else '(v, r') ← parse_num s; Some (JUint v, r')
| _, _ => None
end
with parse_elements (fuel : nat) (s : bstr) : option (list json * bstr) :=
match fuel with
| S f =>
    '(j, r) ← parse_value f s;
    match expect "]" r with
    | Some r' => Some ([j], r')
    | None => r1 ← expect "," r; '(l, r2) ← parse_elements f r1; Some (j :: l, r2)
    end
| O => None
end
with parse_members (fuel : nat) (s : bstr) : option (list (bstr * json) * bstr) :=
match fuel with
| S f =>
    '(k, r0) ← parse_quoted s;
    r1 ← expect ":" r0;
    '(j, r) ← parse_value f r1;
    match expect "}" r with
    | Some r' => Some ([(k, j)], r')
    | None => r2 ← expect "," r; '(m, r3) ← parse_members f r2; Some ((k, j) :: m, r3)
    end
| O => None
end.

Definition parse_all (s : bstr) : option json :=
match parse_value (length s) s with Some (j, []) => Some j | _ => None end.

(** [get<int>()]: the low 32 bits of an integer. *)
Definition to_int (j : json) : option Z :=
match j with
| JInt z | JUint z => Some ((z + 2 ^ 31) mod 2 ^ 32 - 2 ^ 31)
| JBool b => Some (if b then 1 else 0)
| _ => None
end.

#[export] Instance lib : JsonLib := {|
dump j := if json_all node_ascii j then Some (print j) else None;
parse := parse_all;
to_msgpack := print;
from_msgpack := parse_all;
get_int := to_int;
|}.

(** ** Round trips *)

Lemma parse_str_escape s rest : parse_str (escape s ++ quote_char :: rest) = Some (s, rest).
Proof.
induction s as [|c s IH]; [by cbn|]. cbn [escape].
case_decide as Hc.
- cbn [app parse_str]. rewrite decide_False by done. rewrite decide_True by done.
  by rewrite IH.
- cbn [app parse_str]. rewrite decide_False by naive_solver. rewrite decide_False by naive_solver.
  by rewrite IH.
Qed.

Lemma parse_quoted_quote s rest : parse_quoted (quote s ++ rest) = Some (s, rest).
Proof.
unfold parse_quoted, quote. cbn [app expect]. rewrite decide_True by done. cbn [mbind option_bind].
rewrite <-app_assoc. apply parse_str_escape.
Qed.

Lemma parse_num_to_string n rest :
0 <= n -> starts_with_digit rest = false -> parse_num (to_string n ++ rest) = Some (n, rest).
Proof.
intros Hn Hr. destruct (to_string_digits n Hn) as (Hne & Hd & Hv). unfold parse_num.
rewrite span_digits_app by done. rewrite decide_False by (by destruct (to_string n)).
rewrite take_app_length, drop_app_length. by rewrite Hv.
Qed.

Lemma expect_cons c s : expect c (c :: s) = Some s.
Proof. cbn. by rewrite decide_True. Qed.

Lemma to_string_head n : 0 <= n -> exists c s, to_string n = c :: s /\ isdigit c = true.
Proof.
intros Hn. destruct (to_string_digits n Hn) as (Hne & Hd & _).
destruct (to_string n) as [|c s]; [done|]. inversion Hd. eauto.
Qed.

(** A digit is none of the characters that start the other values. *)
Lemma parse_value_digit f c s :
isdigit c = true -> parse_value (S f) (c :: s) = ('(v, r') ← parse_num (c :: s); Some (JUint v, r')).
Proof.
intros Hc. cbn [parse_value].
repeat (rewrite decide_False by (intros ->; vm_compute in Hc; discriminate)). done.
Qed.

(** The head of printed text is no closing bracket. *)
Lemma print_head j : json_ok j = true -> exists c s, print j = c :: s /\ c <> "]"%char /\ c <> "}"%char.
Proof.
intros Hok. apply json_all_node in Hok.
assert (Hdig : forall z, 0 <= z -> exists c s, to_string z = c :: s /\ c <> "]"%char /\ c <> "}"%char).
{ intros z Hz. destruct (to_string_head z Hz) as (c & s & -> & Hc). exists c, s.
  split_and!; [done|..]; intros ->; vm_compute in Hc; discriminate. }
destruct j as [|[]|z|z|b|s|l|m|b t]; try (by eexists _, _).
- destruct (Z.leb_spec 0 z); [by apply Hdig|]. destruct (to_string_neg z) as (ds & E & _); [done|].
  exists "-"%char, ds. split_and!; [exact E|discriminate..].
- apply Hdig. cbn in Hok. lia.
Qed.

(** The parser undoes the printer on [j] in any context that starts with no digit. *)
Definition reads_back (j : json) : Prop :=
forall fuel rest, (length (print j) <= fuel)%nat -> starts_with_digit rest = false ->
parse_value fuel (print j ++ rest) = Some (num_norm j, rest).

Definition member_text (kv : bstr * json) : bstr := quote kv.1 ++ ":" ++ print kv.2.

Lemma commas_cons x y l : commas (x :: y :: l) = x ++ "," ++ commas (y :: l).
Proof. done. Qed.

Lemma quote_length s : (2 <= length (quote s))%nat.
Proof. unfold quote. cbn. rewrite length_app. cbn. lia. Qed.

Lemma parse_elements_print l fuel rest :
l <> [] -> Forall reads_back l -> (length (commas (List.map print l)) + 1 <= fuel)%nat ->
parse_elements fuel (commas (List.map print l) ++ "]"%char :: rest) = Some (List.map num_norm l, rest).
Proof.
intros Hne Hl. revert fuel. induction Hl as [|j l Hj Hl IH]; [done|].
intros [|fuel] Hfuel; [lia|]. destruct l as [|j' l].
- cbn in Hfuel |- *. rewrite Hj by (done || lia). cbn. done.
- cbn [List.map] in *. rewrite commas_cons in *.
  rewrite !length_app in Hfuel. cbn [length bs String.list_ascii_of_string] in Hfuel.
  rewrite <-!app_assoc. cbn [parse_elements]. rewrite Hj by (done || lia). cbn [mbind option_bind].
  cbn [app bs String.list_ascii_of_string expect]. rewrite decide_False by done.
  rewrite decide_True by done. cbn [mbind option_bind]. rewrite IH by (done || lia). done.
Qed.

Lemma parse_members_print m fuel rest :
m <> [] -> Forall (fun kv => reads_back kv.2) m ->
(length (commas (List.map member_text m)) + 1 <= fuel)%nat ->
parse_members fuel (commas (List.map member_text m) ++ "}"%char :: rest)
= Some (List.map (fun kv => (kv.1, num_norm kv.2)) m, rest).
Proof.
intros Hne Hm. revert fuel. induction Hm as [|[k j] m Hj Hm IH]; [done|].
intros [|fuel] Hfuel; [lia|]. pose proof (quote_length k). destruct m as [|kv' m].
- cbn [List.map commas] in *. unfold member_text in *. rewrite !length_app in Hfuel. cbn in Hfuel.
  cbn [parse_members fst snd]. rewrite <-!app_assoc, parse_quoted_quote. cbn [mbind option_bind].
  change (bs ":" ++ ?x) with (":"%char :: x). rewrite expect_cons. cbn [mbind option_bind].
  cbn [snd] in Hj. rewrite Hj by (done || lia). cbn. done.
- cbn [List.map] in *. rewrite commas_cons in *.
  rewrite !length_app in Hfuel. unfold member_text at 1 in Hfuel. rewrite !length_app in Hfuel.
  cbn [length bs String.list_ascii_of_string fst snd] in Hfuel.
  unfold member_text at 1. rewrite <-!app_assoc. cbn [parse_members fst snd].
  rewrite parse_quoted_quote. cbn [mbind option_bind].
  change (bs ":" ++ ?x) with (":"%char :: x). rewrite expect_cons. cbn [mbind option_bind].
  cbn [snd] in Hj. rewrite Hj by (done || lia). cbn [mbind option_bind].
  cbn [app bs String.list_ascii_of_string expect]. rewrite decide_False by done.
  rewrite decide_True by done. cbn [mbind option_bind]. rewrite IH by (done || lia). done.
Qed.

Lemma expect_other c d s : d <> c -> expect c (d :: s) = None.
Proof. intros Hd. cbn. by rewrite decide_False. Qed.

Lemma reads_back_array l : json_ok (JArray l) = true -> Forall reads_back l -> reads_back (JArray l).
Proof.
intros Hok Hl [|fuel] rest Hfuel _; [cbn in Hfuel; lia|].
cbn [print] in *. rewrite !length_app in Hfuel. cbn [length bs String.list_ascii_of_string] in Hfuel.
cbn [app bs String.list_ascii_of_string parse_value].
repeat (rewrite decide_False by done). rewrite decide_True by done.
destruct l as [|j l]; [done|].
rewrite <-app_assoc. cbn [app].
assert (exists c s, commas (List.map print (j :: l)) = c :: s /\ c <> "]"%char) as (c & s & E & Hc).
{ apply json_all_array in Hok. apply Forall_cons in Hok as [Hj _].
  destruct (print_head j Hj) as (c & s & E & Hc & _). cbn [List.map].
  destruct l; cbn [List.map commas]; rewrite E; eauto. }
rewrite E. cbn [app]. rewrite expect_other by done. rewrite app_comm_cons, <-E.
rewrite parse_elements_print by (done || lia). done.
Qed.

Lemma reads_back_object m :
json_ok (JObject m) = true -> Forall (fun kv => reads_back kv.2) m -> reads_back (JObject m).
Proof.
intros Hok Hm [|fuel] rest Hfuel _; [cbn in Hfuel; lia|].
cbn [print] in *. fold member_text in *. rewrite !length_app in Hfuel.
cbn [length bs String.list_ascii_of_string] in Hfuel.
cbn [app bs String.list_ascii_of_string parse_value].
repeat (rewrite decide_False by done). rewrite decide_True by done.
destruct m as [|kv m]; [done|].
rewrite <-app_assoc. cbn [app].
change (fun kv0 : bstr * json => quote kv0.1 ++ ":" ++ print kv0.2) with member_text in *.
assert (exists s, commas (List.map member_text (kv :: m)) = quote_char :: s) as (s & E).
{ destruct m; cbn [List.map commas]; unfold member_text at 1, quote at 1; by eexists. }
rewrite E. cbn [app]. rewrite expect_other by done. rewrite app_comm_cons, <-E.
rewrite parse_members_print by (done || lia). done.
Qed.

Lemma parse_value_print j : json_ok j = true -> reads_back j.
Proof.
induction j as [|[]|z|z|b|s|l IH|m IH|b t] using json_ind_nested; intros Hok;
  try (intros [|fuel] rest Hfuel Hrest; [cbn in Hfuel; lia|done]).
- intros fuel rest Hfuel Hrest. cbn [print num_norm json_map norm_leaf] in *.
  destruct (Z.leb_spec 0 z) as [Hz|Hz].
  + destruct (to_string_head z Hz) as (c & s & E & Hc).
    destruct fuel as [|fuel]; [rewrite E in Hfuel; cbn in Hfuel; lia|].
    rewrite E. cbn [app]. rewrite parse_value_digit by done. rewrite app_comm_cons, <-E.
    by rewrite parse_num_to_string by done.
  + destruct (to_string_neg z Hz) as (ds & E & Hne & Hd & Hv). rewrite E in *.
    destruct fuel as [|fuel]; [cbn in Hfuel; lia|]. cbn [app parse_value].
    repeat (rewrite decide_False by done). rewrite decide_True by done.
    unfold parse_num. rewrite span_digits_app by done. rewrite decide_False by (by destruct ds).
    rewrite take_app_length, drop_app_length, Hv. cbn. by rewrite Z.opp_involutive.
- intros fuel rest Hfuel Hrest. apply json_all_node in Hok. cbn [node_ok print] in *.
  assert (Hz : 0 <= z) by lia. destruct (to_string_head z Hz) as (c & s & E & Hc).
  destruct fuel as [|fuel]; [rewrite E in Hfuel; cbn in Hfuel; lia|].
  rewrite E. cbn [app]. rewrite parse_value_digit by done. rewrite app_comm_cons, <-E.
  by rewrite parse_num_to_string by done.
- intros [|fuel] rest Hfuel Hrest; [cbn in Hfuel; lia|].
  apply json_all_node in Hok. cbn [node_ok] in Hok. unfold finite_bits in Hok.
  cbn [print app bs String.list_ascii_of_string parse_value].
  repeat (rewrite decide_False by done). rewrite decide_True by done. unfold parse_float.
  rewrite <-app_assoc. rewrite parse_num_to_string by (done || lia). done.
- intros [|fuel] rest Hfuel Hrest; [cbn in Hfuel; lia|].
  cbn [print app parse_value quote]. repeat (rewrite decide_False by done). rewrite decide_True by done.
  rewrite <-app_assoc. cbn [app]. by rewrite parse_str_escape.
- apply reads_back_array; [done|]. apply json_all_array in Hok. rewrite Forall_forall in *. eauto.
- apply reads_back_object; [done|]. apply json_all_object in Hok. rewrite Forall_forall in *. eauto.
- intros [|fuel] rest Hfuel Hrest; [cbn in Hfuel; lia|].
  apply json_all_node in Hok. cbn [node_ok] in Hok. apply andb_prop in Hok as [_ Ht].
  cbn [print app bs String.list_ascii_of_string parse_value].
  repeat (rewrite decide_False by done). rewrite decide_True by done. unfold parse_binary.
  destruct t as [z|].
  + rewrite <-app_assoc. rewrite parse_num_to_string by (done || lia). cbn [app].
    rewrite expect_cons. cbn [mbind option_bind]. by rewrite parse_quoted_quote.
  + cbn [app]. unfold parse_num. cbn [span_digits isdigit]. rewrite expect_cons.
    cbn [mbind option_bind]. by rewrite parse_quoted_quote.
Qed.

Lemma parse_all_print j : json_ok j = true -> parse_all (print j) = Some (num_norm j).
Proof.
intros Hok. unfold parse_all. pose proof (parse_value_print j Hok (length (print j)) []) as H.
rewrite app_nil_r in H. by rewrite H.
Qed.

#[export] Instance laws : JsonLaws lib.
Proof.
split.
- intros l s. cbn. case_match; [|done]. intros [= <-]. by eexists.
- intros m s. cbn. case_match; [|done]. intros [= <-]. by eexists.
- intros j s Hok _. cbn. case_match; [|done]. intros [= <-]. by apply parse_all_print.
- intros j Hok. by apply parse_all_print.
- intros z Hz. cbn. f_equal. rewrite Z.mod_small; lia.
- intros z Hz. cbn. f_equal. rewrite Z.mod_small; lia.
Qed.

End Codec.
