(* ===== verification/Packet.v ===== *)
(** * Packets and the parser interface

    include/sioxx/packet.hpp and include/sioxx/parser.hpp: the packet record,
    its type tag and the abstract parser, as a class of operations with the law
    its clients depend on. *)

From S2P Require Export Json.
From stdpp Require Import options.
#[local] Set Default Proof Using "Type*".
Local Open Scope Z_scope.

(** ** [enum class packet_type : int]

    The underlying type is [int]: a value outside the seven enumerators can be
    made by a cast, and then matches no [case] of a [switch]. *)
Inductive packet_type : Type :=
  | pt_connect | pt_disconnect | pt_event | pt_ack | pt_connect_error
  | pt_binary_event | pt_binary_ack
  | pt_unnamed (v : Z).

#[export] Instance packet_type_eq_dec : EqDecision packet_type.
Proof. solve_decision. Defined.

(** [static_cast<int>(type)] *)
Definition int_of_type (t : packet_type) : Z :=
  match t with
  | pt_connect => 0 | pt_disconnect => 1 | pt_event => 2 | pt_ack => 3
  | pt_connect_error => 4 | pt_binary_event => 5 | pt_binary_ack => 6
  | pt_unnamed v => v
  end.

(** [static_cast<packet_type>(v)] *)
Definition type_of_int (v : Z) : packet_type :=
  if decide (v = 0) then pt_connect else if decide (v = 1) then pt_disconnect
  else if decide (v = 2) then pt_event else if decide (v = 3) then pt_ack
  else if decide (v = 4) then pt_connect_error else if decide (v = 5) then pt_binary_event
  else if decide (v = 6) then pt_binary_ack else pt_unnamed v.

(** [pt_unnamed] stands only for values that no enumerator has. *)
Definition type_wf (t : packet_type) : Prop :=
  match t with pt_unnamed v => ~ 0 <= v <= 6 | _ => True end.

Lemma type_of_int_of_type t : type_wf t -> type_of_int (int_of_type t) = t.
Proof.
  destruct t; try done. simpl. intros Hv. unfold type_of_int.
  repeat (rewrite decide_False by lia). done.
Qed.

Lemma int_of_type_of_int v : int_of_type (type_of_int v) = v.
Proof. unfold type_of_int. repeat case_decide; simpl; lia. Qed.

(** ** [struct packet] *)
Record packet : Type := mk_packet {
  p_type : packet_type;
  p_nsp : bstr;
  p_id : Z;
  p_data : json;
  p_attachments : Z;
}.

#[export] Instance packet_eq_dec : EqDecision packet.
Proof. solve_decision. Defined.

(** [packet{}]: the default member initialisers. *)
Definition default_packet : packet := mk_packet pt_event "/" (-1) JNull 0.

Definition int_max : Z := 2 ^ 31 - 1.
Definition int_min : Z := - (2 ^ 31).

(** An encoded frame and whether it is binary, as passed to [frame_writer]. *)
Abbreviation frame := (bstr * bool)%type.

(** ** [class parser_base]

    [encode] is a const method: it returns the frames it writes, in order, or
    throws before the first write.  [decode] updates the parser and, when it
    returns true, the packet it is given a reference to. *)
Class ParserBase (P : Type) : Type := {
  parser_encode : P -> packet -> outcome (list frame);
  parser_decode : P -> bstr -> bool -> packet -> outcome (P * packet * bool);
  parser_name : P -> bstr;
}.

(** Feeding frames to a parser one by one, collecting the packets it completes. *)
Fixpoint decode_frames {P} `{ParserBase P} (parser : P) (frames : list frame) (out : packet)
    : outcome (P * packet * list packet) :=
  match frames with
  | [] => Ok (parser, out, [])
  | (payload, is_binary) :: frames' =>
      '(parser', out', complete) ← parser_decode parser payload is_binary out;
      '(parser'', out'', packets) ← decode_frames parser' frames' out';
      Ok (parser'', out'', if complete : bool then out' :: packets else packets)
  end.

(** What a parser promises: [at_rest] holds of a parser that is not in the
    middle of a packet; the frames of an [encodable] packet, fed to a parser at
    rest, complete exactly one packet, the one [received] describes, and leave
    the parser at rest; the packet [decode] is given a reference to is assigned
    but never read. *)
Class ParserLaws (P : Type) `{ParserBase P} : Type := {
  at_rest : P -> Prop;
  encodable : packet -> Prop;
  received : packet -> packet;
  encode_decode sender receiver p frames out :
    encodable p -> at_rest receiver -> parser_encode sender p = Ok frames ->
    exists receiver' out', decode_frames receiver frames out = Ok (receiver', out', [received p])
                           /\ at_rest receiver';
  decode_out_irrelevant parser payload is_binary out1 out2 parser' p1 complete :
    parser_decode parser payload is_binary out1 = Ok (parser', p1, complete) ->
    exists p2, parser_decode parser payload is_binary out2 = Ok (parser', p2, complete)
               /\ (complete = true -> p2 = p1);
}.

Section parser_stream.
Context {P : Type} `{ParserLaws P}.

Lemma decode_frames_app (parser : P) fs1 fs2 out :
  decode_frames parser (fs1 ++ fs2) out =
  ('(parser1, out1, ps1) ← decode_frames parser fs1 out;
   '(parser2, out2, ps2) ← decode_frames parser1 fs2 out1;
   Ok (parser2, out2, ps1 ++ ps2)).
Proof.
  revert parser out. induction fs1 as [|[payload is_binary] fs1 IH]; intros parser out; simpl.
  - by destruct (decode_frames parser fs2 out) as [[[? ?] ?]|].
  - destruct (parser_decode parser payload is_binary out) as [[[parser' out'] []]|]; simpl; try done.
    all: rewrite IH; destruct (decode_frames parser' fs1 out') as [[[? ?] ?]|]; simpl; try done.
    all: by destruct (decode_frames _ fs2 _) as [[[? ?] ?]|].
Qed.

(** A whole conversation: the frames of a list of packets, each encoded by a
    single writer at a time, decode to the packets in order. *)
Lemma stream_decodes sender receiver (ps : list packet) (fss : list (list frame)) out :
  Forall encodable ps -> at_rest receiver ->
  Forall2 (fun p fs => parser_encode sender p = Ok fs) ps fss ->
  exists receiver' out',
    decode_frames receiver (concat fss) out = Ok (receiver', out', received <$> ps)
    /\ at_rest receiver'.
Proof.
  intros Hps Hrest Henc. revert receiver out Hrest.
  induction Henc as [|p fs ps fss Hp Henc IH]; intros receiver out Hrest.
  - by exists receiver, out.
  - apply Forall_cons in Hps as [Hpe Hps].
    destruct (encode_decode sender receiver p fs out) as (r1 & out1 & E1 & Hr1); [done..|].
    destruct (IH Hps r1 out1 Hr1) as (r2 & out2 & E2 & Hr2).
    exists r2, out2. split; [|done]. simpl. rewrite decode_frames_app, E1. simpl. by rewrite E2.
Qed.
End parser_stream.
