(* ===== verification/JsonParser.v ===== *)
(** * The default Socket.IO text parser

    src/json_parser.hpp and src/json_parser.cpp.  [encode] replaces binary
    values by placeholders and emits them as attachments; [decode] keeps the
    header of a binary packet until every attachment has arrived. *)

From S2P Require Export Packet.
From stdpp Require Import options.
#[local] Set Default Proof Using "Type*".
Local Open Scope Z_scope.

(** ** Binary values and placeholders *)

(** [json{{"_placeholder", true}, {"num", index}}] *)
Definition placeholder (index : nat) : json :=
  JObject [(bs "_placeholder", JBool true); (bs "num", JUint (Z.of_nat index))].

(** Visit the children of a value in order, threading a state. *)
Section visit.
Context {S : Type} (f : json -> S -> json * S).
Fixpoint visit_list (l : list json) (s : S) : list json * S :=
  match l with
  | [] => ([], s)
  | x :: l' => let '(y, s1) := f x s in let '(l'', s2) := visit_list l' s1 in (y :: l'', s2)
  end.
Fixpoint visit_members (m : list (bstr * json)) (s : S) : list (bstr * json) * S :=
  match m with
  | [] => ([], s)
  | (k, x) :: m' =>
      let '(y, s1) := f x s in let '(m'', s2) := visit_members m' s1 in ((k, y) :: m'', s2)
  end.
End visit.

Fixpoint deconstruct_binary (value : json) (attachments : list bstr) : json * list bstr :=
  match value with
  | JBinary binary _ => (placeholder (length attachments), attachments ++ [binary])
  | JArray l => let '(l', atts) := visit_list deconstruct_binary l attachments in (JArray l', atts)
  | JObject m => let '(m', atts) := visit_members deconstruct_binary m attachments in (JObject m', atts)
  | _ => (value, attachments)
  end.

(** The value of an arithmetic expression of type [int]: signed overflow is undefined. *)
Definition int_value (z : Z) : outcome Z :=
  if (int_min <=? z) && (z <=? int_max) then Ok z else Throw undefined_behaviour.

(** The loop of [parse_nonnegative_int] over the characters of the range; [Ok None] is
    the result false. *)
Fixpoint parse_digits (range : bstr) (result : Z) : outcome (option Z) :=
  match range with
  | [] => Ok (Some result)
  | character :: rest =>
      if negb (isdigit character) then Ok None
      else
        let digit := digit_val character in
        room ← int_value (int_max - digit);
        if Z.quot room 10 <? result then Ok None
        else
          product ← int_value (result * 10);
          result ← int_value (product + digit);
          parse_digits rest result
  end.

Definition parse_nonnegative_int (value : bstr) (begin end_ : nat) : outcome (option Z) :=
  if decide (begin = end_) then Ok None
  else parse_digits (substr value begin (end_ - begin)) 0.

Definition is_binary_placeholder (value : json) : bool :=
  match member value "_placeholder" with Some (JBool b) => b | _ => false end.

(** [None] is the result false; the index is a [std::uint64_t]. *)
Definition read_placeholder_index (value : json) : option Z :=
  match member value "num" with
  | Some (JUint n) => Some n
  | Some (JInt signed_index) => if signed_index <? 0 then None else Some (signed_index mod 2 ^ 64)
  | _ => None
  end.

Section fold_children.
Context {S : Type} (f : json -> S -> option S).
Fixpoint fold_list (l : list json) (s : S) : option S :=
  match l with [] => Some s | x :: l' => s' ← f x s; fold_list l' s' end.
Fixpoint fold_members (m : list (bstr * json)) (s : S) : option S :=
  match m with [] => Some s | (_, x) :: m' => s' ← f x s; fold_members m' s' end.
End fold_children.

(** [static_cast<std::uint64_t>(n)] and [static_cast<size_t>(n)] of an [int]. *)
Definition to_uint64 (n : Z) : Z := n mod 2 ^ 64.

(** The set of indices found so far; [None] is the result false. *)
Fixpoint collect_placeholder_indices (value : json) (attachment_count : Z) (indices : gset Z)
    : option (gset Z) :=
  if is_binary_placeholder value then
    index ← read_placeholder_index value;
    if to_uint64 attachment_count <=? index then None
    else if decide (index ∈ indices) then None
    else Some ({[index]} ∪ indices)
  else match value with
       | JArray l => fold_list (fun c => collect_placeholder_indices c attachment_count) l indices
       | JObject m => fold_members (fun c => collect_placeholder_indices c attachment_count) m indices
       | _ => Some indices
       end.

Definition has_valid_placeholders (data : json) (attachment_count : Z) : bool :=
  match collect_placeholder_indices data attachment_count ∅ with
  | Some indices => Z.of_nat (size indices) =? to_uint64 attachment_count
  | None => false
  end.

(** [value["num"].get<size_t>()] of a placeholder.  It is only reached for a
    placeholder whose index was validated, so an integer; [get] would convert a
    boolean or a double too, which is left out. *)
Definition placeholder_num (value : json) : option Z :=
  match member value "num" with
  | Some (JUint n) => Some n
  | Some (JInt n) => Some (n mod 2 ^ 64)
  | _ => None
  end.

Section try_children.
Context (f : json -> option json).
Fixpoint try_list (l : list json) : option (list json) :=
  match l with [] => Some [] | x :: l' => y ← f x; l'' ← try_list l'; Some (y :: l'') end.
Fixpoint try_members (m : list (bstr * json)) : option (list (bstr * json)) :=
  match m with
  | [] => Some []
  | (k, x) :: m' => y ← f x; m'' ← try_members m'; Some ((k, y) :: m'')
  end.
End try_children.

(** [None] is an index with no attachment: an access outside the vector. *)
Fixpoint reconstruct_binary (value : json) (attachments : list bstr) : option json :=
  if is_binary_placeholder value then
    index ← placeholder_num value;
    bytes ← attachments !! Z.to_nat index;
    Some (JBinary bytes None)
  else match value with
       | JArray l => JArray <$> try_list (fun c => reconstruct_binary c attachments) l
       | JObject m => JObject <$> try_members (fun c => reconstruct_binary c attachments) m
       | _ => Some value
       end.

(** ** Encoding *)

Definition has_payload_type (t : packet_type) : bool :=
  match t with pt_event | pt_binary_event | pt_ack | pt_binary_ack => true | _ => false end.

Definition is_binary_type (t : packet_type) : bool :=
  match t with pt_binary_event | pt_binary_ack => true | _ => false end.

(** The type sent: binary exactly when there are attachments. *)
Definition encoded_type (t : packet_type) (no_attachments : bool) : packet_type :=
  if no_attachments then
    match t with pt_binary_event => pt_event | pt_binary_ack => pt_ack | _ => t end
  else
    match t with pt_event => pt_binary_event | pt_ack => pt_binary_ack | _ => t end.

(** The packet after the binary values are taken out, and the attachments. *)
Definition prepare_encoded (p : packet) : packet * list bstr :=
  let '(data, attachments) :=
    if has_payload_type (p_type p) then deconstruct_binary (p_data p) [] else (p_data p, []) in
  (mk_packet (encoded_type (p_type p) (bool_decide (attachments = []))) (p_nsp p) (p_id p) data
     (Z.of_nat (length attachments)), attachments).

Section with_json.
Context `{JsonLib}.

(** The text frame of an encoded packet. *)
Definition encode_header (encoded : packet) : outcome bstr :=
  let out := to_string (int_of_type (p_type encoded)) in
  let out := if is_binary_type (p_type encoded)
             then out ++ to_string (p_attachments encoded) ++ "-" else out in
  let out := if negb (bool_decide (p_nsp encoded = [])) && negb (bool_decide (p_nsp encoded = bs "/"))
             then out ++ p_nsp encoded ++ "," else out in
  let out := if 0 <=? p_id encoded then out ++ to_string (p_id encoded) else out in
  if negb (is_null (p_data encoded))
  then text ← throw_none type_error (dump (p_data encoded)); Ok (out ++ text)
  else Ok out.

Definition json_encode (p : packet) : outcome (list frame) :=
  let '(encoded, attachments) := prepare_encoded p in
  if int_max <? Z.of_nat (length attachments)
  then Throw (length_error "too many Socket.IO binary attachments")
  else
    out ← encode_header encoded;
    Ok ((out, false) :: ((fun a => (a, true)) <$> attachments)).

(** ** Decoding *)

(** Go on with a value that was read; [Ok None] is the result false. *)
Definition if_read {A B} (m : outcome (option A)) (f : A -> outcome (option B)) : outcome (option B) :=
  o ← m; match o with Some a => f a | None => Ok None end.

(** The attachment count of a binary packet, and the position after the dash. *)
Definition decode_attachments (payload : bstr) (type : packet_type) (i : nat) : outcome (option (Z * nat)) :=
  if is_binary_type type then
    match find_char payload "-" i with
    | None => Ok None
    | Some dash =>
        if_read (parse_nonnegative_int payload i dash) (fun attachments =>
        Ok (if decide (attachments = 0) then None else Some (attachments, S dash)))
    end
  else Ok (Some (0, i)).

Definition decode_nsp (payload : bstr) (i : nat) : bstr * nat :=
  if decide (payload !! i = Some "/"%char) then
    match find_char payload "," i with
    | None => (drop i payload, length payload)
    | Some comma => (substr payload i (comma - i), S comma)
    end
  else (bs "/", i).

Definition decode_id (payload : bstr) (i : nat) : outcome (option (Z * nat)) :=
  let stop := (i + span_digits (drop i payload))%nat in
  if decide (i < stop)%nat then if_read (parse_nonnegative_int payload i stop) (fun id => Ok (Some (id, stop)))
  else Ok (Some (-1, stop)).

Definition decode_data (payload : bstr) (i : nat) : option json :=
  if decide (i < length payload)%nat then parse (drop i payload) else Some JNull.

(** The packet a text frame holds; [Ok None] is the result false. *)
Definition decode_text (payload : bstr) : outcome (option packet) :=
  match payload !! 0%nat with
  | None => Ok None
  | Some c =>
      if negb (isdigit c) then Ok None
      else let type := digit_val c in
        if (type <? 0) || (6 <? type) then Ok None
        else
          let ptype := type_of_int type in
          if_read (decode_attachments payload ptype 1) (fun '(attachments, i) =>
          let '(nsp, i) := decode_nsp payload i in
          if_read (decode_id payload i) (fun '(id, i) =>
          Ok (data ← decode_data payload i; Some (mk_packet ptype nsp id data attachments))))
  end.

Record json_parser : Type := mk_json_parser {
  pending_binary_packet : option packet;
  pending_attachments : list bstr;
}.

Definition idle_parser : json_parser := mk_json_parser None [].

(** The part of [decode] after the pending packet is dealt with. *)
Definition decode_frame (self : json_parser) (payload : bstr) (is_binary : bool) (out : packet)
    : outcome (json_parser * packet * bool) :=
  if is_binary then Ok (self, out, false)
  else
    text ← decode_text payload;
    match text with
    | None => Ok (self, out, false)
    | Some decoded =>
        if is_binary_type (p_type decoded) then
          if has_valid_placeholders (p_data decoded) (p_attachments decoded)
          then Ok (mk_json_parser (Some decoded) (pending_attachments self), out, false)
          else Ok (self, out, false)
        else Ok (self, decoded, true)
    end.

Definition json_decode (self : json_parser) (payload : bstr) (is_binary : bool) (out : packet)
    : outcome (json_parser * packet * bool) :=
  match pending_binary_packet self with
  | Some pending =>
      if is_binary then
        let attachments := pending_attachments self ++ [payload] in
        if Z.of_nat (length attachments) <? to_uint64 (p_attachments pending)
        then Ok (mk_json_parser (Some pending) attachments, out, false)
        else match reconstruct_binary (p_data pending) attachments with
             | Some data => Ok (idle_parser, {| pending with p_data := data |}, true)
             | None => Throw undefined_behaviour
             end
      else decode_frame idle_parser payload is_binary out
  | None => decode_frame self payload is_binary out
  end.

#[export] Instance json_parser_base : ParserBase json_parser := {|
  parser_encode := fun _ => json_encode;
  parser_decode := json_decode;
  parser_name := fun _ => bs "json";
|}.
End with_json.
