(* ===== verification/JsonParserFacts.v ===== *)
(** * Correctness of the text parser: helper lemmas and properties

    The number parser against its specification, the inverse of
    [deconstruct_binary], the round trip of a packet through [encode] and
    [decode], and the safety of [decode] on every reachable parser state. *)

From S2P Require Export JsonParser.
From stdpp Require Import options.
#[local] Set Default Proof Using "Type*".
Local Open Scope Z_scope.

(** ** [parse_nonnegative_int] *)

Lemma int_value_ok z : int_min <= z <= int_max -> int_value z = Ok z.
Proof. intros H. unfold int_value. by assert ((int_min <=? z) && (z <=? int_max) = true) as -> by lia. Qed.

(** What the loop computes, and no sum or product of it overflows. *)
Lemma parse_digits_spec s r :
  0 <= r <= int_max ->
  exists o, parse_digits s r = Ok o /\
    forall v, o = Some v <-> all_digits s /\ v = fold_left (fun r c => r * 10 + digit_val c) s r /\ v <= int_max.
Proof.
  revert r. induction s as [|c s IH]; intros r Hr; cbn [parse_digits fold_left].
  - eexists. split; [done|]. intros v. split; [intros [= <-]; split_and!; [constructor|done|lia]|]. by intros (_ & -> & _).
  - destruct (isdigit c) eqn:Hc; cbn [negb].
    2: { eexists. split; [done|]. intros v. split; [done|]. intros (H & _). inversion H. congruence. }
    pose proof (isdigit_val c Hc) as Hd.
    assert (Hmono : forall s r, 0 <= r -> all_digits s ->
              r <= fold_left (fun r c => r * 10 + digit_val c) s r).
    { clear. induction s as [|c s IH]; intros r Hr Hs; simpl; [done|].
      inversion Hs as [|? ? Hc Hs']; subst. apply isdigit_val in Hc.
      etransitivity; [|apply IH; [lia|done]]. lia. }
    rewrite (int_value_ok (int_max - digit_val c)) by (unfold int_min, int_max in *; lia). cbn [mbind outcome_bind].
    rewrite Z.quot_div_nonneg by (unfold int_max; lia).
    pose proof (Z.div_mod (int_max - digit_val c) 10 ltac:(lia)).
    pose proof (Z.mod_pos_bound (int_max - digit_val c) 10 ltac:(lia)).
    destruct (Z.ltb_spec ((int_max - digit_val c) / 10) r) as [Hov|Hov].
    + eexists. split; [done|]. intros v. split; [done|]. intros (Hds & -> & Hle). exfalso.
      inversion Hds as [|? ? _ Hs]; subst.
      pose proof (Hmono s (r * 10 + digit_val c) ltac:(lia) Hs). lia.
    + assert (r * 10 + digit_val c <= int_max) by lia.
      rewrite (int_value_ok (r * 10)) by (unfold int_min; lia). cbn [mbind outcome_bind].
      rewrite (int_value_ok (r * 10 + digit_val c)) by (unfold int_min; lia). cbn [mbind outcome_bind].
      destruct (IH (r * 10 + digit_val c)) as (o & -> & Ho); [lia|]. exists o. split; [done|].
      intros v. rewrite Ho. unfold all_digits. rewrite Forall_cons. naive_solver.
Qed.

Lemma parse_nonnegative_int_spec value begin end_ :
  exists o, parse_nonnegative_int value begin end_ = Ok o /\
    forall v, o = Some v <->
      begin <> end_ /\ all_digits (substr value begin (end_ - begin))
      /\ v = dec_value (substr value begin (end_ - begin)) /\ v <= int_max.
Proof.
  unfold parse_nonnegative_int. case_decide; [eexists; split; [done|naive_solver]|].
  destruct (parse_digits_spec (substr value begin (end_ - begin)) 0) as (o & -> & Ho); [unfold int_max; lia|].
  exists o. split; [done|]. intros v. rewrite Ho. unfold dec_value. naive_solver.
Qed.

(** Decimal printing is undone when the number fits an [int]. *)
Lemma parse_to_string pre n post i :
  i = length pre -> 0 <= n <= int_max ->
  parse_nonnegative_int (pre ++ to_string n ++ post) i (i + length (to_string n)) = Ok (Some n).
Proof.
  intros -> Hn. destruct (to_string_digits n) as (Hne & Hd & Hv); [lia|].
  assert (E : substr (pre ++ to_string n ++ post) (length pre)
            (length pre + length (to_string n) - length pre) = to_string n).
  { unfold substr. rewrite drop_app_length. apply take_app_exact. lia. }
  destruct (parse_nonnegative_int_spec (pre ++ to_string n ++ post) (length pre) (length pre + length (to_string n))) as (o & -> & Ho).
  f_equal. apply Ho. rewrite E. split_and!; [|done..|lia]. destruct (to_string n); [done|simpl; lia].
Qed.

(** ** Placeholders *)

(** A node the receiver would not take for a placeholder. *)
Definition not_placeholder (j : json) : bool := negb (is_binary_placeholder j).

(** *** Members as a list of values under their keys *)

Lemma visit_members_list {S} (f : json -> S -> json * S) m s :
  visit_members f m s =
  let '(l, s') := visit_list f (List.map snd m) s in (zip (List.map fst m) l, s').
Proof.
  revert s. induction m as [|[k x] m IH]; intros s; simpl; [done|].
  destruct (f x s) as [y s1]. rewrite IH. by destruct (visit_list f _ s1).
Qed.

Lemma visit_list_length {S} (f : json -> S -> json * S) l s : length (visit_list f l s).1 = length l.
Proof.
  revert s. induction l as [|x l IH]; intros s; simpl; [done|].
  destruct (f x s) as [y s1]. specialize (IH s1). destruct (visit_list f l s1). simpl in *. lia.
Qed.

Lemma fold_members_list {S} (f : json -> S -> option S) m s :
  fold_members f m s = fold_list f (List.map snd m) s.
Proof. revert s. induction m as [|[k x] m IH]; intros s; simpl; [done|].
  destruct (f x s); simpl; [apply IH|done]. Qed.

Lemma try_members_list f m :
  try_members f m = (fun l => zip (List.map fst m) l) <$> try_list f (List.map snd m).
Proof.
  induction m as [|[k x] m IH]; simpl; [done|]. destruct (f x); simpl; [|done].
  rewrite IH. by destruct (try_list f _).
Qed.

Lemma zip_fst_snd {A B} (m : list (A * B)) : zip (List.map fst m) (List.map snd m) = m.
Proof. induction m as [|[k v] m IH]; simpl; congruence. Qed.

Lemma map_snd_zip {A B} (ks : list A) (l : list B) :
  length ks = length l -> List.map snd (zip ks l) = l /\ List.map fst (zip ks l) = ks.
Proof.
  revert l. induction ks as [|k ks IH]; intros [|x l]; simpl; try done.
  intros [= H]. destruct (IH l H) as [-> ->]. done.
Qed.

Lemma map_zip {A B C} (g : B -> C) (ks : list A) (l : list B) :
  List.map (fun kv => (kv.1, g kv.2)) (zip ks l) = zip ks (List.map g l).
Proof. revert l. induction ks as [|k ks IH]; intros [|x l]; simpl; try done. by rewrite IH. Qed.

Lemma forallb_map {A B} (f : A -> B) (p : B -> bool) l :
  forallb (fun x => p (f x)) l = forallb p (List.map f l).
Proof. induction l; simpl; congruence. Qed.

Lemma obj_lookup_zip (P : json -> json -> Prop) k ks l l' :
  Forall2 P l l' -> length ks = length l ->
  match obj_lookup k (zip ks l), obj_lookup k (zip ks l') with
  | Some v, Some v' => P v v'
  | None, None => True
  | _, _ => False
  end.
Proof.
  intros HP. revert ks. induction HP as [|x y l l' Hxy HP IH]; intros [|k' ks] Hlen; simpl in *; try done.
  case_decide; [done|]. apply IH. lia.
Qed.

(** *** What taking a value apart leaves *)

(** [j'] is what [deconstruct_binary] leaves of [j] when [n] attachments were
    already taken and [new] are added. *)
Record taken_apart (j j' : json) (n : nat) (new : list bstr) : Prop := {
  ta_reconstruct pre tail : length pre = n ->
    reconstruct_binary (num_norm j') (pre ++ new ++ tail) = Some (wire_norm j);
  ta_no_binary : no_binary j' = true;
  ta_ok : Z.of_nat (n + length new) <= int_max -> json_ok j' = true;
  ta_collect count indices :
    Z.of_nat (n + length new) <= count <= int_max ->
    (forall i, i ∈ indices -> 0 <= i < Z.of_nat n) ->
    exists indices', collect_placeholder_indices (num_norm j') count indices = Some indices'
      /\ (forall i, i ∈ indices' -> 0 <= i < Z.of_nat (n + length new))
      /\ size indices' = (size indices + length new)%nat;
  ta_bool b : num_norm j' = JBool b <-> j = JBool b;
  ta_none : new = [] -> num_norm j' = wire_norm j;
}.

Record list_taken_apart (l l' : list json) (n : nat) (new : list bstr) : Prop := {
  lta_reconstruct pre tail : length pre = n ->
    try_list (fun c => reconstruct_binary c (pre ++ new ++ tail)) (List.map num_norm l')
    = Some (List.map wire_norm l);
  lta_no_binary : forallb no_binary l' = true;
  lta_ok : Z.of_nat (n + length new) <= int_max -> forallb json_ok l' = true;
  lta_collect count indices :
    Z.of_nat (n + length new) <= count <= int_max ->
    (forall i, i ∈ indices -> 0 <= i < Z.of_nat n) ->
    exists indices', fold_list (fun c => collect_placeholder_indices c count) (List.map num_norm l') indices
                     = Some indices'
      /\ (forall i, i ∈ indices' -> 0 <= i < Z.of_nat (n + length new))
      /\ size indices' = (size indices + length new)%nat;
  lta_bool : Forall2 (fun j j' => forall b, num_norm j' = JBool b <-> j = JBool b) l l';
  lta_none : new = [] -> List.map num_norm l' = List.map wire_norm l;
}.

Lemma list_taken_apart_nil n : list_taken_apart [] [] n [].
Proof.
  split; simpl; try done.
  intros count indices Hc Hi. exists indices. split_and!; [done| |simpl; lia].
  intros i Hin. specialize (Hi i Hin). lia.
Qed.

Lemma list_taken_apart_cons j j' l l' n new1 new2 :
  taken_apart j j' n new1 -> list_taken_apart l l' (n + length new1) new2 ->
  list_taken_apart (j :: l) (j' :: l') n (new1 ++ new2).
Proof.
  intros [R1 N1 O1 C1 B1 E1] [R2 N2 O2 C2 B2 E2]. split; simpl.
  - intros pre tail Hpre. rewrite <-app_assoc, (R1 pre _ Hpre). simpl.
    rewrite (app_assoc pre), (R2 (pre ++ new1) tail) by (rewrite length_app; lia). done.
  - by rewrite N1, N2.
  - rewrite length_app. intros Hle. rewrite O1 by lia. by rewrite O2 by lia.
  - intros count indices Hc Hi. rewrite length_app in *.
    destruct (C1 count indices) as (i1 & -> & Hi1 & Hs1); [lia|done|]. simpl.
    destruct (C2 count i1) as (i2 & -> & Hi2 & Hs2); [lia|done|].
    exists i2. split_and!; [done| |lia]. intros i Hin. specialize (Hi2 i Hin). lia.
  - by constructor.
  - intros [-> ->]%app_nil. by rewrite E1, E2.
Qed.

Lemma visit_list_taken_apart l :
  Forall (fun j => forall atts, exists j' new,
            deconstruct_binary j atts = (j', atts ++ new) /\ taken_apart j j' (length atts) new) l ->
  forall atts, exists l' new,
    visit_list deconstruct_binary l atts = (l', atts ++ new) /\ list_taken_apart l l' (length atts) new.
Proof.
  induction 1 as [|j l Hj Hl IH]; intros atts; simpl.
  - exists [], []. rewrite app_nil_r. split; [done|apply list_taken_apart_nil].
  - destruct (Hj atts) as (j' & new1 & -> & H1).
    destruct (IH (atts ++ new1)) as (l' & new2 & -> & H2). rewrite length_app in H2.
    exists (j' :: l'), (new1 ++ new2). rewrite app_assoc. split; [done|].
    by apply list_taken_apart_cons.
Qed.

(** A leaf that is no binary value is left alone. *)
Lemma taken_apart_leaf j n :
  is_binary j = false -> is_array j = false -> is_object j = false -> json_ok j = true ->
  taken_apart j j n [].
Proof.
  intros Hb Ha Ho Hok. split.
  - intros pre tail _. destruct j; try discriminate; cbn; try done. by case_match.
  - by destruct j.
  - done.
  - intros count indices Hc Hi. exists indices.
    split_and!; [|intros i Hin; specialize (Hi i Hin); simpl; lia|simpl; lia].
    destruct j; try discriminate; cbn; try done. by case_match.
  - intros b. destruct j; try discriminate; cbn; try done. by case_match.
  - intros _. destruct j; try discriminate; done.
Qed.

Lemma taken_apart_array l l' n new :
  json_ok (JArray l) = true -> length l' = length l ->
  list_taken_apart l l' n new -> taken_apart (JArray l) (JArray l') n new.
Proof.
  intros Hok Hlen [R N O C _ E]. split.
  - intros pre tail Hpre.
    change (JArray <$> try_list (fun c => reconstruct_binary c (pre ++ new ++ tail)) (List.map num_norm l')
            = Some (JArray (List.map wire_norm l))).
    by rewrite (R pre tail Hpre).
  - exact N.
  - intros Hle. unfold json_ok in Hok. apply json_all_node in Hok. cbn in Hok |- *.
    unfold fits in *. rewrite Hlen, Hok. exact (O Hle).
  - exact C.
  - done.
  - intros Hn. change (JArray (List.map num_norm l') = JArray (List.map wire_norm l)). by rewrite E.
Qed.

Lemma not_placeholder_zip ks l l' :
  Forall2 (fun j j' => forall b, num_norm j' = JBool b <-> j = JBool b) l l' ->
  length ks = length l ->
  is_binary_placeholder (JObject (zip ks l)) = false ->
  is_binary_placeholder (JObject (zip ks (List.map num_norm l'))) = false.
Proof.
  intros HB Hlen. unfold is_binary_placeholder, member.
  assert (HP : Forall2 (fun j j' => forall b, j' = JBool b <-> j = JBool b) l (List.map num_norm l')).
  { clear Hlen. induction HB; simpl; by constructor. }
  pose proof (obj_lookup_zip _ (bs "_placeholder") ks l _ HP Hlen) as H.
  destruct (obj_lookup _ (zip ks l)) as [v|], (obj_lookup _ (zip ks (List.map _ l'))) as [v'|]; try done.
  destruct v' as [|b| | | | | | |]; try done. by rewrite (proj1 (H b) eq_refl).
Qed.

Lemma taken_apart_object m l' n new :
  json_ok (JObject m) = true -> not_placeholder (JObject m) = true ->
  length l' = length m ->
  list_taken_apart (List.map snd m) l' n new ->
  taken_apart (JObject m) (JObject (zip (List.map fst m) l')) n new.
Proof.
  intros Hok Hnp Hlen [R N O C B E].
  assert (Hk : length (List.map fst m) = length l') by (rewrite List.length_map; lia).
  destruct (map_snd_zip _ _ Hk) as [Es Ef].
  assert (Hnp' : is_binary_placeholder (JObject (zip (List.map fst m) (List.map num_norm l'))) = false).
  { eapply not_placeholder_zip; [exact B|by rewrite !List.length_map|].
    rewrite zip_fst_snd. by apply negb_true_iff. }
  assert (Ew : JObject (zip (List.map fst m) (List.map wire_norm (List.map snd m))) = wire_norm (JObject m)).
  { rewrite <-map_zip, zip_fst_snd. done. }
  assert (En : num_norm (JObject (zip (List.map fst m) l'))
               = JObject (zip (List.map fst m) (List.map num_norm l'))).
  { unfold num_norm. simpl. by rewrite map_zip. }
  assert (Hk' : length (List.map fst m) = length (List.map num_norm l'))
    by (rewrite !List.length_map; lia).
  destruct (map_snd_zip _ _ Hk') as [Es' Ef'].
  split.
  - intros pre tail Hpre. rewrite En. cbn [reconstruct_binary]. rewrite Hnp'.
    rewrite try_members_list, Es', Ef', (R pre tail Hpre), <-Ew. done.
  - unfold no_binary. simpl. rewrite forallb_map, Es. exact N.
  - intros Hle. unfold json_ok in *. apply json_all_node in Hok. simpl in Hok |- *.
    rewrite (forallb_map snd (json_all node_ok)), Es.
    assert (forallb (json_all node_ok) l' = true) as -> by exact (O Hle). rewrite andb_true_r.
    rewrite !(forallb_map fst fits), Ef in *. revert Hok. unfold fits.
    rewrite length_zip_with, List.length_map, Hlen, Nat.min_id. done.
  - intros count indices Hc Hi. rewrite En. cbn [collect_placeholder_indices]. rewrite Hnp'.
    rewrite fold_members_list, Es'. by apply C.
  - intros b. by rewrite En.
  - intros Hn. by rewrite En, (E Hn), Ew.
Qed.

Lemma reconstruct_placeholder n atts :
  reconstruct_binary (num_norm (placeholder n)) atts = (fun b => JBinary b None) <$> atts !! n.
Proof.
  transitivity ((fun b => JBinary b None) <$> atts !! Z.to_nat (Z.of_nat n)); [|by rewrite Nat2Z.id].
  change (reconstruct_binary (num_norm (placeholder n)) atts)
    with (bytes ← atts !! Z.to_nat (Z.of_nat n); Some (JBinary bytes None)).
  by destruct (atts !! _).
Qed.

Lemma collect_placeholder n count indices :
  collect_placeholder_indices (num_norm (placeholder n)) count indices =
  if to_uint64 count <=? Z.of_nat n then None
  else if decide (Z.of_nat n ∈ indices) then None else Some ({[Z.of_nat n]} ∪ indices).
Proof. reflexivity. Qed.

(** Every value whose own objects are no placeholders is taken apart. *)
Lemma deconstruct_taken_apart j :
  json_ok j = true -> json_all not_placeholder j = true ->
  forall atts, exists j' new,
    deconstruct_binary j atts = (j', atts ++ new) /\ taken_apart j j' (length atts) new.
Proof.
  induction j as [|b|z|z|b|s|l IH|m IH|b t] using json_ind_nested; intros Hok Hnp atts;
    try (eexists _, []; rewrite app_nil_r; split; [reflexivity|by apply taken_apart_leaf]).
  - destruct (visit_list_taken_apart l) with (atts := atts) as (l' & new & E & H).
    { apply json_all_array in Hok, Hnp. rewrite Forall_forall in *. eauto. }
    pose proof (visit_list_length deconstruct_binary l atts) as Hlen. rewrite E in Hlen.
    exists (JArray l'), new. cbn [deconstruct_binary]. rewrite E. split; [done|].
    by apply taken_apart_array.
  - destruct (visit_list_taken_apart (List.map snd m)) with (atts := atts) as (l' & new & E & H).
    { apply json_all_object in Hok, Hnp. rewrite List.Forall_map. rewrite Forall_forall in *. eauto. }
    pose proof (visit_list_length deconstruct_binary (List.map snd m) atts) as Hlen.
    rewrite E, List.length_map in Hlen.
    exists (JObject (zip (List.map fst m) l')), new. cbn [deconstruct_binary].
    rewrite visit_members_list, E. split; [done|].
    apply taken_apart_object; [done| |done|done]. by apply json_all_node in Hnp.
  - exists (placeholder (length atts)), [b]. split; [done|]. split.
    + intros pre tail Hpre. rewrite reconstruct_placeholder.
      change ([b] ++ tail) with (b :: tail). by rewrite lookup_app_exact by done.
    + done.
    + unfold int_max. cbn [length]. intros Hle.
      assert (E : node_ok (JUint (Z.of_nat (length atts))) = true).
      { cbn [node_ok]. apply andb_true_intro. lia. }
      unfold json_ok, placeholder. cbn [json_all forallb snd]. rewrite E. done.
    + intros count indices Hc Hi. cbn [length] in Hc |- *. rewrite collect_placeholder.
      assert (to_uint64 count <=? Z.of_nat (length atts) = false) as ->.
      { unfold to_uint64. rewrite Z.mod_small by (unfold int_max in Hc; lia). lia. }
      rewrite decide_False by (intros Hin; specialize (Hi _ Hin); lia).
      eexists. split_and!; [done| |].
      * intros i Hin. apply elem_of_union in Hin as [->%elem_of_singleton|Hin]; [cbn; lia|].
        specialize (Hi i Hin). cbn. lia.
      * rewrite size_union, size_singleton; [cbn; lia|].
        apply disjoint_singleton_l. intros Hin. specialize (Hi _ Hin). lia.
    + intros b'. cbn. done.
    + done.
Qed.

(** ** The text header *)

(** Namespaces that can be told apart on the wire: empty (the root), or a slash
    and characters other than the comma that ends them. *)
Definition nsp_ok (nsp : bstr) : Prop :=
  nsp = [] \/ exists r, nsp = "/"%char :: r /\ ","%char ∉ r.

Definition nsp_received (nsp : bstr) : bstr := if decide (nsp = []) then "/" else nsp.

Definition id_received (id : Z) : Z := if 0 <=? id then id else -1.

(** Payloads whose text starts with no digit: none, an array or an object. *)
Definition payload_shape (j : json) : Prop := is_null j = true \/ is_array j = true \/ is_object j = true.

Definition type_known (t : packet_type) : Prop := match t with pt_unnamed _ => False | _ => True end.

Definition header_type (t : packet_type) : bstr := to_string (int_of_type t).
Definition header_attachments (t : packet_type) (k : Z) : bstr :=
  if is_binary_type t then to_string k ++ "-" else [].
Definition header_nsp (nsp : bstr) : bstr :=
  if negb (bool_decide (nsp = [])) && negb (bool_decide (nsp = bs "/")) then nsp ++ "," else [].
Definition header_id (id : Z) : bstr := if 0 <=? id then to_string id else [].

Lemma header_type_digit t : type_known t -> exists c, header_type t = [c] /\ isdigit c = true
  /\ digit_val c = int_of_type t.
Proof. destruct t; try done; intros _; eexists; split_and!; vm_compute; reflexivity. Qed.

Lemma decode_attachments_header pre t k rest :
  1 <= k <= int_max ->
  decode_attachments (pre ++ header_attachments t k ++ rest) t (length pre) =
  Ok (Some (if is_binary_type t then k else 0, (length pre + length (header_attachments t k))%nat)).
Proof.
  intros Hk. unfold decode_attachments, header_attachments.
  destruct (is_binary_type t); [|by rewrite Nat.add_0_r].
  destruct (to_string_digits k) as (_ & Hd & _); [lia|].
  rewrite <-app_assoc. change (bs "-" ++ rest) with ("-"%char :: rest).
  rewrite find_char_app; [|done|by apply not_digit_notin].
  rewrite parse_to_string by (done || lia). cbn.
  rewrite decide_False by lia. do 3 f_equal. rewrite length_app. simpl. lia.
Qed.

Lemma decode_nsp_header pre nsp rest :
  nsp_ok nsp -> head rest <> Some "/"%char ->
  decode_nsp (pre ++ header_nsp nsp ++ rest) (length pre) =
  (nsp_received nsp, (length pre + length (header_nsp nsp))%nat).
Proof.
  intros Hnsp Hrest. unfold decode_nsp, header_nsp, nsp_received.
  rewrite lookup_app_r, Nat.sub_diag by lia.
  destruct Hnsp as [->|(r & -> & Hr)].
  - rewrite decide_False by (destruct rest; [done|simpl in *; congruence]).
    by rewrite Nat.add_0_r.
  - rewrite (bool_decide_eq_false_2 (_ = [])) by done.
    rewrite (decide_False (P := _ = [])) by done.
    case_bool_decide as Hroot; simpl.
    + rewrite decide_False by (destruct rest; [done|simpl in *; congruence]).
      by rewrite Nat.add_0_r, Hroot.
    + rewrite <-app_assoc. change ([","%char] ++ rest) with (","%char :: rest).
      change ("/"%char :: r ++ ","%char :: rest) with (("/"%char :: r) ++ ","%char :: rest).
      rewrite (find_char_app pre ("/"%char :: r) rest ","%char (length pre))
        by (done || by apply not_elem_of_cons).
      f_equal; [|rewrite length_app; simpl; lia].
      unfold substr. rewrite drop_app_length. apply (take_app_exact ("/"%char :: r)). simpl. lia.
Qed.

Lemma decode_id_header pre id rest :
  id <= int_max -> starts_with_digit rest = false ->
  decode_id (pre ++ header_id id ++ rest) (length pre) =
  Ok (Some (id_received id, (length pre + length (header_id id))%nat)).
Proof.
  intros Hid Hrest. unfold decode_id, header_id, id_received. rewrite drop_app_length.
  destruct (Z.leb_spec 0 id).
  - destruct (to_string_digits id) as (Hne & Hd & _); [done|].
    rewrite span_digits_app by done. rewrite decide_True by (destruct (to_string id); [done|simpl; lia]).
    rewrite parse_to_string by (done || lia). done.
  - simpl. rewrite span_digits_none by done. rewrite Nat.add_0_r. by rewrite decide_False by lia.
Qed.

(** ** The text frame *)

Section with_laws.
Context `{JsonLaws}.

Lemma encode_header_shape e h :
  encode_header e = Ok h -> exists text,
    h = header_type (p_type e) ++ header_attachments (p_type e) (p_attachments e)
          ++ header_nsp (p_nsp e) ++ header_id (p_id e) ++ text
    /\ if is_null (p_data e) then text = [] else dump (p_data e) = Some text.
Proof.
  unfold encode_header, header_type, header_attachments, header_nsp, header_id.
  destruct (is_binary_type _), (negb _ && negb _), (0 <=? _), (is_null (p_data e)); cbn [negb];
    try (intros [= <-]; exists []; split; [|done]; by rewrite ?app_nil_r, <-?app_assoc, ?app_nil_l).
  all: intros E; apply outcome_bind_ok in E as (text & Ht%throw_none_ok & [= <-]).
  all: exists text; split; [|done]; by rewrite <-?app_assoc, ?app_nil_l.
Qed.

(** The text of a payload starts with a bracket or a brace. *)
Lemma payload_text_head j text :
  payload_shape j -> (if is_null j then text = [] else dump j = Some text) ->
  text = [] \/ exists s, text = "["%char :: s \/ text = "{"%char :: s.
Proof.
  intros Hj. destruct j; simpl; intros Ht; try (by destruct Hj as [?|[?|?]]).
  - by left.
  - right. apply dump_array_head in Ht as [s ->]. eauto.
  - right. apply dump_object_head in Ht as [s ->]. eauto.
Qed.

Lemma decode_data_header pre j text :
  payload_shape j -> json_ok j = true -> no_binary j = true ->
  (if is_null j then text = [] else dump j = Some text) ->
  decode_data (pre ++ text) (length pre) = Some (num_norm j).
Proof.
  intros Hs Hok Hnb Ht. unfold decode_data. rewrite drop_app_length, length_app.
  pose proof (payload_text_head j text Hs Ht) as Hhead.
  destruct (is_null j) eqn:Hn.
  - subst text. rewrite decide_False by (simpl; lia). by destruct j.
  - assert (text <> []) as Hne.
    { intros ->. destruct j as [| | | | | |l|m|]; try (by destruct Hs as [?|[?|?]]).
      - by apply dump_array_head in Ht as [? ?].
      - by apply dump_object_head in Ht as [? ?]. }
    rewrite decide_True by (destruct text; [done|simpl; lia]).
    by apply parse_dump.
Qed.

Lemma decode_text_header e h :
  encode_header e = Ok h -> type_known (p_type e) -> 1 <= p_attachments e <= int_max ->
  nsp_ok (p_nsp e) -> p_id e <= int_max ->
  payload_shape (p_data e) -> json_ok (p_data e) = true -> no_binary (p_data e) = true ->
  decode_text h = Ok (Some (mk_packet (p_type e) (nsp_received (p_nsp e)) (id_received (p_id e))
                             (num_norm (p_data e)) (if is_binary_type (p_type e) then p_attachments e else 0))).
Proof.
  intros E Ht Hk Hnsp Hid Hs Hok Hnb.
  destruct (encode_header_shape _ _ E) as (text & -> & Htext).
  pose proof (payload_text_head _ _ Hs Htext) as Hhead.
  destruct (header_type_digit _ Ht) as (c & -> & Hc & Hv).
  assert (Hrange : 0 <= int_of_type (p_type e) <= 6) by (by destruct (p_type e)).
  set (A := header_attachments _ _). set (N := header_nsp _). set (I := header_id _).
  unfold decode_text. cbn [lookup list_lookup app mbind option_bind]. rewrite Hc, Hv. cbn [negb].
  assert ((int_of_type (p_type e) <? 0) || (6 <? int_of_type (p_type e)) = false) as -> by lia.
  rewrite type_of_int_of_type by (by destruct (p_type e)).
  pose proof (decode_attachments_header [c] (p_type e) (p_attachments e) (N ++ I ++ text) Hk) as EA.
  fold A in EA. simpl in EA. rewrite EA. clear EA. cbn [if_read mbind outcome_bind].
  assert (Hrest : starts_with_digit text = false).
  { by destruct Hhead as [->|[s [->| ->]]]. }
  assert (Hslash : head (I ++ text) <> Some "/"%char).
  { unfold I, header_id. destruct (Z.leb_spec 0 (p_id e)).
    - destruct (to_string_digits (p_id e)) as (Hne & Hd & _); [done|].
      destruct (to_string (p_id e)) as [|d ds]; [done|]. simpl. intros [= ->]. by inversion Hd.
    - by destruct Hhead as [->|[s [->| ->]]]. }
  pose proof (decode_nsp_header (c :: A) (p_nsp e) (I ++ text) Hnsp Hslash) as EN.
  fold N in EN. simpl in EN. rewrite EN. clear EN.
  pose proof (decode_id_header (c :: A ++ N) (p_id e) text Hid Hrest) as EI.
  fold I in EI. simpl in EI. rewrite <-app_assoc, length_app in EI. rewrite EI. clear EI.
  cbn [if_read mbind outcome_bind].
  pose proof (decode_data_header (c :: A ++ N ++ I) (p_data e) text Hs Hok Hnb Htext) as ED.
  simpl in ED. rewrite <-!app_assoc, !length_app, Nat.add_assoc in ED. by rewrite ED.
Qed.

End with_laws.

Section attachments.
Context `{JsonLib}.

(** ** Attachments *)

Lemma decode_attachment_frames pending data rest got out :
  rest <> [] -> Z.of_nat (length got + length rest) = p_attachments pending ->
  p_attachments pending <= int_max ->
  reconstruct_binary (p_data pending) (got ++ rest) = Some data ->
  decode_frames (mk_json_parser (Some pending) got) ((fun a => (a, true)) <$> rest) out
  = Ok (idle_parser, {| pending with p_data := data |}, [{| pending with p_data := data |}]).
Proof.
  revert got. induction rest as [|a rest IH]; intros got Hne Hlen Hmax Hr; [done|].
  cbn [fmap list_fmap decode_frames parser_decode json_parser_base].
  unfold json_decode. cbn [pending_binary_packet pending_attachments].
  assert (to_uint64 (p_attachments pending) = p_attachments pending) as ->.
  { unfold to_uint64. rewrite Z.mod_small; [done|]. unfold int_max in Hmax. lia. }
  rewrite length_app. cbn [length] in *.
  destruct rest as [|a' rest].
  - assert (Z.of_nat (length got + 1) <? p_attachments pending = false) as ->.
    { apply Z.ltb_ge. cbn [length] in Hlen. lia. }
    rewrite Hr. done.
  - assert (Z.of_nat (length got + 1) <? p_attachments pending = true) as ->.
    { apply Z.ltb_lt. cbn [length] in Hlen. lia. }
    cbn [mbind outcome_bind]. rewrite IH; [done|done| |done|].
    + rewrite length_app. cbn [length] in *. lia.
    + rewrite <-app_assoc. exact Hr.
Qed.
End attachments.

(** ** The laws of the parser interface *)

(** Packets the text protocol transmits faithfully. *)
Definition json_encodable (p : packet) : Prop :=
  type_known (p_type p) /\ nsp_ok (p_nsp p) /\ p_id p <= int_max /\
  payload_shape (p_data p) /\ json_ok (p_data p) = true /\
  if has_payload_type (p_type p) then json_all not_placeholder (p_data p) = true
  else no_binary (p_data p) = true.

(** What the peer's parser hands over: the type actually sent, the namespace
    with its default, and the payload with its binary values back in place. *)
Definition json_received (p : packet) : packet :=
  let '(encoded, attachments) := prepare_encoded p in
  mk_packet (p_type encoded) (nsp_received (p_nsp p)) (id_received (p_id p)) (wire_norm (p_data p))
    (Z.of_nat (length attachments)).

Definition parser_at_rest (s : json_parser) : Prop := s = idle_parser.

Lemma is_binary_encoded_type t b :
  is_binary_type (encoded_type t b) = negb b && has_payload_type t.
Proof. by destruct t, b. Qed.

Lemma type_known_encoded t b : type_known t -> type_known (encoded_type t b).
Proof. by destruct t, b. Qed.

Lemma payload_shape_taken_apart j j' atts new :
  payload_shape j -> deconstruct_binary j atts = (j', new) -> payload_shape j'.
Proof.
  unfold payload_shape. intros Hs E. destruct j; try (by destruct Hs as [?|[?|?]]); cbn in E.
  - injection E as <- _. by left.
  - destruct (visit_list _ _ _). injection E as <- _. right; by left.
  - destruct (visit_members _ _ _). injection E as <- _. by do 2 right.
Qed.

(** What [encode] prepares: the payload without binary values and, taken
    together, all that decoding needs to put them back. *)
Lemma prepare_encoded_spec p :
  json_encodable p -> exists data atts,
    prepare_encoded p = (mk_packet (encoded_type (p_type p) (bool_decide (atts = []))) (p_nsp p) (p_id p) data
                           (Z.of_nat (length atts)), atts)
    /\ payload_shape data /\ no_binary data = true
    /\ (Z.of_nat (length atts) <= int_max -> json_ok data = true)
    /\ (atts = [] -> num_norm data = wire_norm (p_data p))
    /\ (atts <> [] -> has_payload_type (p_type p) = true
        /\ (Z.of_nat (length atts) <= int_max ->
            has_valid_placeholders (num_norm data) (Z.of_nat (length atts)) = true)
        /\ reconstruct_binary (num_norm data) atts = Some (wire_norm (p_data p))).
Proof.
  intros (Ht & Hn & Hid & Hs & Hok & Hp). unfold prepare_encoded.
  destruct (has_payload_type (p_type p)) eqn:Hpt.
  - destruct (deconstruct_taken_apart _ Hok Hp []) as (data & atts & E & [R N O C _ En]).
    rewrite E. exists data, atts. split_and!; [done|by eapply payload_shape_taken_apart|done|exact O|done|].
    intros Hne. split_and!; [done| |].
    + intros Hmax. unfold has_valid_placeholders.
      destruct (C (Z.of_nat (length atts)) ∅) as (i & -> & _ & ->);
        [cbn [length]; lia|intros ? []%elem_of_empty|].
      rewrite size_empty. apply Z.eqb_eq. unfold to_uint64. rewrite Z.mod_small; [done|].
      unfold int_max in Hmax. lia.
    + specialize (R [] [] eq_refl). by rewrite app_nil_r in R.
  - exists (p_data p), []. split_and!; try done. intros _. by rewrite wire_norm_no_binary.
Qed.

Section with_laws.
Context `{JsonLaws}.

Lemma json_encode_decode p frames out :
  json_encodable p -> json_encode p = Ok frames ->
  exists out', decode_frames idle_parser frames out = Ok (idle_parser, out', [json_received p]).
Proof.
  intros Hp. destruct (prepare_encoded_spec p Hp) as (data & atts & E & Hs & Hnb & Hok & Hnone & Hsome).
  destruct Hp as (Ht & Hn & Hid & _). unfold json_encode, json_received. rewrite E.
  destruct (Z.ltb_spec int_max (Z.of_nat (length atts))) as [|Hmax]; [done|].
  intros (h & Eh & [= <-])%outcome_bind_ok. cbn [p_type p_nsp p_id p_data p_attachments].
  set (enc := mk_packet _ _ _ _ _) in Eh.
  destruct atts as [|a atts].
  - pose proof (decode_text_header {| enc with p_attachments := 1 |} h) as D.
    rewrite bool_decide_eq_true_2 in * by done.
    assert (Eh1 : encode_header {| enc with p_attachments := 1 |} = Ok h).
    { rewrite <-Eh. unfold encode_header. cbn [p_type]. unfold enc. cbn [p_type].
      by rewrite is_binary_encoded_type. }
    assert (D' := D Eh1 (type_known_encoded _ _ Ht) ltac:(done) Hn Hid Hs (Hok Hmax) Hnb). clear D.
    cbn [enc p_type p_nsp p_id p_data p_attachments] in D'.
    rewrite is_binary_encoded_type in D'. cbn [negb andb] in D'.
    eexists. cbn [decode_frames fmap list_fmap parser_decode json_parser_base]. unfold json_decode, decode_frame.
    cbn [pending_binary_packet idle_parser]. rewrite D'. cbn [mbind outcome_bind p_type].
    rewrite is_binary_encoded_type. cbn. by rewrite Hnone.
  - destruct Hsome as (Hpt & Hvalid & Hrec); [done|].
    rewrite bool_decide_eq_false_2 in * by done.
    pose proof (decode_text_header enc h Eh (type_known_encoded _ _ Ht)) as D.
    cbn [enc p_type p_nsp p_id p_data p_attachments] in D.
    rewrite (bool_decide_eq_false_2 (a :: atts = [])) in D by done.
    rewrite is_binary_encoded_type, Hpt in D. cbn [negb andb] in D.
    specialize (D ltac:(cbn [length] in *; lia) Hn Hid Hs (Hok Hmax) Hnb).
    eexists. cbn [decode_frames parser_decode json_parser_base]. unfold json_decode at 1, decode_frame.
    cbn [pending_binary_packet idle_parser]. rewrite D. cbn [mbind outcome_bind p_type p_data p_attachments].
    rewrite is_binary_encoded_type, Hpt. cbn [negb andb].
    specialize (Hvalid Hmax). cbn [length] in Hvalid |- *. rewrite Hvalid.
    cbn [mbind outcome_bind].
    rewrite (decode_attachment_frames _ (wire_norm (p_data p))); [done..|exact Hmax|].
    exact Hrec.
Qed.

#[export] Program Instance json_parser_laws : ParserLaws json_parser := {|
  at_rest := parser_at_rest;
  encodable := json_encodable;
  received := json_received;
|}.
Next Obligation.
  intros sender receiver p frames out Hp Hr E. rewrite Hr.
  destruct (json_encode_decode p frames out Hp E) as (out' & ->). by exists idle_parser, out'.
Qed.
Next Obligation.
  intros parser payload is_binary out1 out2 parser' p1 complete. cbn [parser_decode json_parser_base].
  unfold json_decode, decode_frame. destruct (decode_text payload) as [text|e]; cbn [mbind outcome_bind]; intros E;
    repeat case_match; simplify_eq; eexists; (split; [reflexivity|]); done.
Qed.
End with_laws.

(** ** Decoding is safe on every input *)

(** Placeholder indices are below the attachment count. *)
Lemma collect_reconstruct j count atts :
  1 <= count <= int_max -> Z.of_nat (length atts) = count ->
  forall indices indices', collect_placeholder_indices j count indices = Some indices' ->
  exists d, reconstruct_binary j atts = Some d.
Proof.
  intros Hc Hlen.
  assert (Hsub : to_uint64 count = count).
  { unfold to_uint64. apply Z.mod_small. unfold int_max in Hc. lia. }
  assert (Hlist : forall l, Forall (fun j => forall indices indices',
              collect_placeholder_indices j count indices = Some indices' ->
              exists d, reconstruct_binary j atts = Some d) l ->
            forall indices indices', fold_list (fun c => collect_placeholder_indices c count) l indices = Some indices' ->
            exists l', try_list (fun c => reconstruct_binary c atts) l = Some l').
  { induction 1 as [|x l Hx Hl IH]; intros i i'; simpl; [by exists []|].
    intros (i1 & H1 & H2)%bind_Some. destruct (Hx _ _ H1) as [d ->]. simpl.
    destruct (IH _ _ H2) as [l' ->]. simpl. eauto. }
  induction j as [| | | | | |l IH|m IH|] using json_ind_nested; intros indices indices' E;
    try (by eexists).
  - cbn in E |- *. destruct (Hlist l IH _ _ E) as [l' E']. rewrite E'. by eexists.
  - cbn [collect_placeholder_indices reconstruct_binary] in E |- *.
    destruct (is_binary_placeholder (JObject m)).
    + apply bind_Some in E as (i & Hi & E). rewrite Hsub in E.
      destruct (Z.leb_spec count i) as [|Hlt]; [done|].
      assert (placeholder_num (JObject m) = Some i) as ->.
      { revert Hi. unfold read_placeholder_index, placeholder_num.
        destruct (member _ _) as [[]|]; try congruence.
        destruct (z <? 0); congruence. }
      cbn [mbind option_bind]. destruct (lookup_lt_is_Some_2 atts (Z.to_nat i)) as [b ->]; [lia|].
      by eexists.
    + rewrite fold_members_list in E. rewrite try_members_list.
      destruct (Hlist (List.map snd m)) with (indices := indices) (indices' := indices') as [l' ->];
        [by rewrite List.Forall_map|done|]. by eexists.
Qed.

(** Packets a client has to deal with: a known type, a namespace that starts
    with a slash, an id that is absent or an [int]. *)
Definition packet_wf (p : packet) : Prop :=
  type_known (p_type p) /\ head (p_nsp p) = Some "/"%char /\ -1 <= p_id p <= int_max
  /\ 0 <= p_attachments p <= int_max.

(** The invariant of the parser's two members. *)
Definition parser_inv (s : json_parser) : Prop :=
  match pending_binary_packet s with
  | None => pending_attachments s = []
  | Some p => packet_wf p /\ 1 <= p_attachments p <= int_max
              /\ Z.of_nat (length (pending_attachments s)) < p_attachments p
              /\ has_valid_placeholders (p_data p) (p_attachments p) = true
  end.

Lemma parse_nonnegative_int_range value b e v :
  parse_nonnegative_int value b e = Ok (Some v) -> 0 <= v <= int_max.
Proof.
  destruct (parse_nonnegative_int_spec value b e) as (o & -> & Ho). intros [= ->].
  destruct (proj1 (Ho v) eq_refl) as (_ & Hd & -> & Hle). pose proof (dec_value_nonneg _ Hd). lia.
Qed.

Lemma if_read_some {A B} (m : outcome (option A)) (f : A -> outcome (option B)) b :
  if_read m f = Ok (Some b) -> exists a, m = Ok (Some a) /\ f a = Ok (Some b).
Proof. unfold if_read. intros ([a|] & -> & E)%outcome_bind_ok; [by exists a|done]. Qed.

Lemma if_read_total {A B} (m : outcome (option A)) (f : A -> outcome (option B)) :
  (exists o, m = Ok o) -> (forall a, exists o, f a = Ok o) -> exists o, if_read m f = Ok o.
Proof. intros ([a|] & ->) Hf; cbn; [apply Hf|by eexists]. Qed.

Lemma parse_nonnegative_int_total value b e : exists o, parse_nonnegative_int value b e = Ok o.
Proof. destruct (parse_nonnegative_int_spec value b e) as (o & ? & _). by exists o. Qed.

Lemma decode_attachments_bounds payload t i k i' :
  decode_attachments payload t i = Ok (Some (k, i')) ->
  if is_binary_type t then 1 <= k <= int_max else k = 0.
Proof.
  unfold decode_attachments. destruct (is_binary_type t); [|by intros [= <- <-]]. destruct (find_char _ _ _); [|done].
  intros (count & E%parse_nonnegative_int_range & E')%if_read_some. case_decide; [done|]. injection E' as <- <-. lia.
Qed.

Lemma decode_attachments_total payload t i : exists o, decode_attachments payload t i = Ok o.
Proof.
  unfold decode_attachments. destruct (is_binary_type t); [|by eexists]. destruct (find_char _ _ _); [|by eexists].
  apply if_read_total; [apply parse_nonnegative_int_total|by eexists].
Qed.

Lemma decode_nsp_head payload i : head (decode_nsp payload i).1 = Some "/"%char.
Proof.
  unfold decode_nsp. case_decide as Hs; [|done].
  assert (Hd : drop i payload = "/"%char :: drop (S i) payload) by (by apply drop_S).
  destruct (find_char payload "," i) as [comma|] eqn:E; cbn [fst]; [|by rewrite Hd].
  unfold substr. rewrite Hd. unfold find_char in E. rewrite Hd in E. simpl in E.
  destruct (find_c _ _) as [k|]; [|done]. simpl in E. injection E as <-.
  by replace (i + S k - i)%nat with (S k) by lia.
Qed.

Lemma decode_id_range payload i id i' : decode_id payload i = Ok (Some (id, i')) -> -1 <= id <= int_max.
Proof.
  unfold decode_id. case_decide.
  - intros (v & E%parse_nonnegative_int_range & [= <- <-])%if_read_some. lia.
  - intros [= <- _]. unfold int_max. lia.
Qed.

Lemma decode_id_total payload i : exists o, decode_id payload i = Ok o.
Proof.
  unfold decode_id. case_decide; [|by eexists]. apply if_read_total; [apply parse_nonnegative_int_total|by eexists].
Qed.

Section with_json.
Context `{JsonLib}.

Lemma decode_text_total payload : exists o, decode_text payload = Ok o.
Proof.
  unfold decode_text. destruct (payload !! 0%nat) as [c|]; [|by eexists]. destruct (negb (isdigit c)); [by eexists|].
  destruct (_ || _); [by eexists|]. apply if_read_total; [apply decode_attachments_total|]. intros [k i].
  destruct (decode_nsp payload i) as [nsp i2]. apply if_read_total; [apply decode_id_total|]. intros []. by eexists.
Qed.

Lemma decode_text_wf payload p :
  decode_text payload = Ok (Some p) ->
  packet_wf p /\ (is_binary_type (p_type p) = true -> 1 <= p_attachments p).
Proof.
  unfold decode_text. destruct (payload !! 0%nat) as [c|]; [|done].
  destruct (negb (isdigit c)); [done|].
  destruct ((digit_val c <? 0) || (6 <? digit_val c)) eqn:Ht; [done|].
  intros ([k i] & Ea & E)%if_read_some.
  pose proof (decode_nsp_head payload i) as Hn. destruct (decode_nsp payload i) as [nsp i2].
  apply if_read_some in E as ([id i3] & Ei & [= E]). apply bind_Some in E as (data & _ & [= <-]).
  apply decode_attachments_bounds in Ea. apply decode_id_range in Ei.
  unfold packet_wf; cbn [p_type p_nsp p_id p_attachments].
  assert (type_known (type_of_int (digit_val c))).
  { apply orb_false_elim in Ht as [H1%Z.ltb_ge H2%Z.ltb_ge].
    unfold type_of_int. repeat (case_decide; [done|]). exfalso. lia. }
  destruct (is_binary_type _); split; try split_and!; try done; unfold int_max in *; lia.
Qed.

Lemma decode_frame_safe payload is_binary out :
  exists s' out' complete,
    decode_frame idle_parser payload is_binary out = Ok (s', out', complete)
    /\ parser_inv s' /\ (complete = true -> packet_wf out').
Proof.
  unfold decode_frame. destruct is_binary; [by do 3 eexists|].
  destruct (decode_text_total payload) as [[p|] E]; rewrite E; cbn [mbind outcome_bind]; [|by do 3 eexists].
  apply decode_text_wf in E as [Hwf Hb].
  destruct (is_binary_type (p_type p)); [|by do 3 eexists].
  destruct (has_valid_placeholders _ _) eqn:V; [|by do 3 eexists].
  do 3 eexists. split; [done|]. split; [|done]. unfold parser_inv. cbn.
  pose proof Hwf as (_ & _ & _ & ?). specialize (Hb eq_refl). split_and!; try done; lia.
Qed.

Lemma json_decode_safe s payload is_binary out :
  parser_inv s ->
  exists s' out' complete, json_decode s payload is_binary out = Ok (s', out', complete)
    /\ parser_inv s' /\ (complete = true -> packet_wf out').
Proof.
  destruct s as [[pending|] atts]; unfold parser_inv, json_decode; cbn.
  - intros (Hwf & Hk & Hlt & Hv). destruct is_binary; [|by apply decode_frame_safe].
    unfold to_uint64. rewrite Z.mod_small by (unfold int_max in Hk; lia).
    destruct (Z.ltb_spec (Z.of_nat (length (atts ++ [payload]))) (p_attachments pending)) as [Hl|Hl].
    + do 3 eexists. split; [done|]. by cbn.
    + unfold has_valid_placeholders in Hv.
      destruct (collect_placeholder_indices _ _ ∅) as [i|] eqn:E; [|done].
      assert (Hlen : Z.of_nat (length (atts ++ [payload])) = p_attachments pending).
      { rewrite length_app in Hl |- *. cbn [length] in *. lia. }
      destruct (collect_reconstruct _ _ _ Hk Hlen _ _ E) as [d ->].
      by do 3 eexists.
  - intros ->. apply decode_frame_safe.
Qed.

(** The attachments still missing complete a pending packet. *)
Lemma pending_completes pending got rest :
  parser_inv (mk_json_parser (Some pending) got) ->
  Z.of_nat (length got + length rest) = p_attachments pending ->
  exists data, reconstruct_binary (p_data pending) (got ++ rest) = Some data.
Proof.
  unfold parser_inv; cbn. intros (_ & Hk & Hlt & Hv) Hlen. unfold has_valid_placeholders in Hv.
  destruct (collect_placeholder_indices _ _ ∅) as [i|] eqn:E; [|done].
  eapply collect_reconstruct; [exact Hk|by rewrite length_app|exact E].
Qed.
End with_json.

(** ** The binary values of a payload, in the order they are sent *)

Fixpoint binaries (j : json) : list bstr :=
  match j with
  | JBinary b _ => [b]
  | JArray l => List.concat (List.map binaries l)
  | JObject m => List.concat (List.map (fun kv => binaries kv.2) m)
  | _ => []
  end.

Lemma deconstruct_binaries j : forall atts, (deconstruct_binary j atts).2 = atts ++ binaries j.
Proof.
  assert (Hlist : forall l, Forall (fun j => forall atts, (deconstruct_binary j atts).2 = atts ++ binaries j) l ->
            forall atts, (visit_list deconstruct_binary l atts).2 = atts ++ List.concat (List.map binaries l)).
  { induction 1 as [|x l Hx Hl IH]; intros atts; simpl; [by rewrite app_nil_r|].
    specialize (Hx atts). destruct (deconstruct_binary x atts) as [x' a1]. simpl in Hx. subst a1.
    specialize (IH (atts ++ binaries x)). destruct (visit_list _ l _). simpl in *. rewrite IH.
    by rewrite <-app_assoc. }
  induction j as [| | | | | |l IH|m IH|] using json_ind_nested; intros atts; simpl;
    rewrite ?app_nil_r; try done.
  - specialize (Hlist l IH atts). by destruct (visit_list _ l atts).
  - rewrite visit_members_list.
    specialize (Hlist (List.map snd m) (proj2 (List.Forall_map _ _ _) IH) atts).
    destruct (visit_list _ _ atts). simpl in *. rewrite Hlist. by rewrite List.map_map.
Qed.
