(* ===== verification/JsonParserSpec.v ===== *)
(** * The text parser: properties

    Round trip of a packet and of a conversation, exact outcome of [encode],
    safety and well-formedness of [decode] on every input, recovery. *)

From S2P Require Export JsonCodec JsonParserFacts.
From stdpp Require Import options.
#[local] Set Default Proof Using "Type*".
Local Open Scope Z_scope.

(** ** Examples on the codec instance *)

Module Examples.
#[local] Existing Instance Codec.lib.

Definition upload : packet :=
  mk_packet pt_event "/chat" 7
    (JArray [JString "upload"; JBinary (bs "abc") (Some 4);
             JObject [(bs "nested", JArray [JBinary (bs "de") None; JInt 3])]]) 0.

Definition upload_frames : list frame :=
  [(dq "52-/chat,7['upload',{'_placeholder':true,'num':0},{'nested':[{'_placeholder':true,'num':1},3]}]", false);
   (bs "abc", true); (bs "de", true)].

Example upload_encodes : json_encode upload = Ok upload_frames.
Proof. vm_compute. reflexivity. Qed.

Example connect_encodes :
  json_encode (mk_packet pt_connect "/private" (-1) (JObject [(bs "tenant", JUint 42)]) 0)
  = Ok [(dq "0/private,{'tenant':42}", false)].
Proof. vm_compute. reflexivity. Qed.

Example event_decodes :
  json_decode idle_parser (dq "2/admin,3['x']") false default_packet
  = Ok (idle_parser, mk_packet pt_event "/admin" 3 (JArray [JString "x"]) 0, true).
Proof. vm_compute. reflexivity. Qed.

Example overflow_rejected :
  json_decode idle_parser (dq "599999999999999999999999-['overflow']") false default_packet
  = Ok (idle_parser, default_packet, false).
Proof. vm_compute. reflexivity. Qed.

Example duplicate_rejected :
  json_decode idle_parser
    (dq "52-['duplicate',{'_placeholder':true,'num':0},{'_placeholder':true,'num':0}]") false default_packet
  = Ok (idle_parser, default_packet, false).
Proof. vm_compute. reflexivity. Qed.

Lemma upload_encodable : json_encodable upload.
Proof.
  split_and!; try done; [right; exists "chat"; split; [done|]|by right; left].
  by apply find_c_None.
Qed.
End Examples.

Section properties.
Context (L : JsonLib) {HL : JsonLaws L}.

(** A packet that [encode] writes is read back by a peer's [decode]: of
    the frames fed in order exactly one completes a packet, the one sent, with
    every binary value restored to its place; the peer is left with nothing pending. *)
Theorem json_roundtrip (p : packet) (frames : list frame) (out : packet) :
  json_encodable p -> json_encode p = Ok frames ->
  exists out', decode_frames idle_parser frames out = Ok (idle_parser, out', [json_received p]).
Proof. apply json_encode_decode. Qed.

(** [C25] A conversation: the frames of any list of packets, each packet's
    frames written without interruption, decode to those packets in order. *)
Theorem json_stream_roundtrip (ps : list packet) (fss : list (list frame)) (out : packet) :
  Forall json_encodable ps -> Forall2 (fun p fs => json_encode p = Ok fs) ps fss ->
  exists out', decode_frames idle_parser (concat fss) out = Ok (idle_parser, out', json_received <$> ps).
Proof.
  intros Hps Hfss.
  pose proof (stream_decodes (P := json_parser)) as H.
  destruct (H idle_parser idle_parser ps fss out Hps eq_refl Hfss) as (r & out' & E & Hr).
  exists out'. by rewrite Hr in E.
Qed.
End properties.

Section safety.
Context (L : JsonLib).

(** [C26] Whatever frames arrive, and whatever the JSON library makes of them,
    a fresh parser never throws and never indexes outside its attachments, and
    every packet it completes is well formed. *)
Theorem json_decode_total (frames : list frame) (out : packet) :
  exists s out' ps,
    decode_frames idle_parser frames out = Ok (s, out', ps) /\ parser_inv s /\ Forall packet_wf ps.
Proof.
  assert (H : forall s out, parser_inv s -> exists s' out' ps,
            decode_frames s frames out = Ok (s', out', ps) /\ parser_inv s' /\ Forall packet_wf ps).
  { induction frames as [|[payload is_binary] frames IH]; intros s o Hs; [by do 3 eexists|].
    destruct (json_decode_safe s payload is_binary o Hs) as (s1 & o1 & c & E1 & Hs1 & Hc).
    destruct (IH s1 o1 Hs1) as (s2 & o2 & ps & E2 & Hs2 & Hps).
    cbn [decode_frames parser_decode json_parser_base]. rewrite E1. cbn [mbind outcome_bind]. rewrite E2.
    destruct c; do 3 eexists; (split; [reflexivity|]); split; try done.
    constructor; [by apply Hc|done]. }
  apply H. done.
Qed.

(** A text frame is decoded as by a fresh parser, whatever was pending:
    an incomplete binary packet never affects the next packet. *)
Theorem json_text_frame_restarts (s : json_parser) (payload : bstr) (out : packet) :
  parser_inv s -> json_decode s payload false out = json_decode idle_parser payload false out.
Proof.
  destruct s as [[p|] atts]; unfold parser_inv, json_decode; cbn; [done|]. by intros ->.
Qed.

(** A pending packet is completed by exactly the attachments it still
    lacks: the frames before the last complete nothing, the last one hands over
    the pending packet, and nothing stays pending. *)
Theorem json_attachments_complete (pending : packet) (got rest : list bstr) (out : packet) :
  parser_inv (mk_json_parser (Some pending) got) ->
  Z.of_nat (length got + length rest) = p_attachments pending ->
  exists data,
    reconstruct_binary (p_data pending) (got ++ rest) = Some data /\
    decode_frames (mk_json_parser (Some pending) got) ((fun a => (a, true)) <$> rest) out
    = Ok (idle_parser, {| pending with p_data := data |}, [{| pending with p_data := data |}]).
Proof.
  intros Hinv Hlen. destruct (pending_completes _ _ _ Hinv Hlen) as [data Hdata].
  exists data. split; [done|]. unfold parser_inv in Hinv; cbn in Hinv. destruct Hinv as (_ & Hk & Hlt & _).
  apply decode_attachment_frames; [|done|lia|done].
  intros ->. cbn in Hlen. lia.
Qed.

(** The outcome of [encode]: the text header followed by the packet's
    binary values in traversal order, unless there are more than INT_MAX of
    them or the payload cannot be printed, when it throws and writes nothing. *)
Theorem json_encode_outcome (p : packet) :
  let '(encoded, attachments) := prepare_encoded p in
  attachments = (if has_payload_type (p_type p) then binaries (p_data p) else []) /\
  json_encode p =
    if int_max <? Z.of_nat (length attachments)
    then Throw (length_error "too many Socket.IO binary attachments")
    else match encode_header encoded with
         | Ok header => Ok ((header, false) :: ((fun a => (a, true)) <$> attachments))
         | Throw e => Throw e
         end.
Proof.
  unfold json_encode. destruct (prepare_encoded p) as [encoded attachments] eqn:E. split.
  - unfold prepare_encoded in E. destruct (has_payload_type (p_type p)).
    + pose proof (deconstruct_binaries (p_data p) []) as H.
      destruct (deconstruct_binary (p_data p) []). injection E as <- <-. by simpl in H.
    + by injection E as <- <-.
  - case_match; [done|]. by destruct (encode_header encoded).
Qed.
End safety.

(** [C27] [parse_nonnegative_int] returns on every range of a string, without an [int] that
    overflows on the way, and it accepts the range exactly when it is a non-empty
    run of digits whose value fits an [int], and then yields that value: the
    overflow test inside the loop is neither too strict, nor too lax, nor too late. *)
Theorem parse_nonnegative_int_exact (value : bstr) (begin end_ : nat) :
  (begin <= end_)%nat -> (end_ <= length value)%nat ->
  exists result, parse_nonnegative_int value begin end_ = Ok result /\
    forall v, result = Some v <->
      begin <> end_ /\ all_digits (substr value begin (end_ - begin))
      /\ v = dec_value (substr value begin (end_ - begin)) /\ v <= int_max.
Proof. intros _ _. apply parse_nonnegative_int_spec. Qed.

(** Taking the binary values out of a payload and putting them back gives
    the payload again, when none of its own objects is a placeholder. *)
Theorem deconstruct_reconstruct (j : json) :
  json_ok j = true -> json_all not_placeholder j = true ->
  let '(j', attachments) := deconstruct_binary j [] in
  no_binary j' = true /\ attachments = binaries j /\
  reconstruct_binary (num_norm j') attachments = Some (wire_norm j).
Proof.
  intros Hok Hnp. pose proof (deconstruct_binaries j []) as Hb.
  destruct (deconstruct_taken_apart j Hok Hnp []) as (j' & new & E & [R N _ _ _ _]).
  rewrite E in *. simpl in Hb. subst new. split_and!; [done..|].
  specialize (R [] [] eq_refl). by rewrite app_nil_r in R.
Qed.

(** ** Witnesses *)

#[local] Existing Instances Codec.lib Codec.laws.

Lemma json_roundtrip_witness :
  exists out', decode_frames idle_parser Examples.upload_frames default_packet
               = Ok (idle_parser, out', [json_received Examples.upload]).
Proof.
  apply (json_roundtrip Codec.lib Examples.upload);
    [apply Examples.upload_encodable|vm_compute; reflexivity].
Defined.

Lemma json_stream_roundtrip_witness :
  exists out', decode_frames idle_parser (concat [Examples.upload_frames; Examples.upload_frames]) default_packet
               = Ok (idle_parser, out', json_received <$> [Examples.upload; Examples.upload]).
Proof.
  apply (json_stream_roundtrip Codec.lib).
  - do 2 (constructor; [apply Examples.upload_encodable|]). constructor.
  - constructor; [vm_compute; reflexivity|]. constructor; [vm_compute; reflexivity|constructor].
Defined.

Lemma json_text_frame_restarts_witness :
  let s := mk_json_parser (Some (mk_packet pt_binary_event "/" (-1)
             (JArray [JString "upload"; placeholder 0]) 1)) [] in
  json_decode s (dq "2['next',42]") false default_packet
  = Ok (idle_parser, mk_packet pt_event "/" (-1) (JArray [JString "next"; JUint 42]) 0, true).
Proof.
  intros s. rewrite (json_text_frame_restarts Codec.lib s); [vm_compute; reflexivity|].
  unfold parser_inv, packet_wf, s; cbn. unfold int_max. split_and!; try done; lia.
Defined.

Lemma json_attachments_complete_witness :
  let pending := mk_packet pt_binary_event "/" (-1) (JArray [placeholder 1; placeholder 0]) 2 in
  exists data,
    reconstruct_binary (p_data pending) ([bs "a"] ++ [bs "b"]) = Some data /\
    decode_frames (mk_json_parser (Some pending) [bs "a"]) ((fun a => (a, true)) <$> [bs "b"]) default_packet
    = Ok (idle_parser, {| pending with p_data := data |}, [{| pending with p_data := data |}]).
Proof.
  intros pending. apply (json_attachments_complete Codec.lib pending [bs "a"] [bs "b"] default_packet).
  - unfold parser_inv, packet_wf, pending; cbn. unfold int_max. split_and!; try done; lia.
  - reflexivity.
Defined.

Lemma parse_nonnegative_int_exact_witness :
  exists result, parse_nonnegative_int (bs "42147483647-x") 1 11 = Ok result /\ result = Some 2147483647.
Proof.
  destruct (parse_nonnegative_int_exact (bs "42147483647-x") 1 11) as (result & E & H); [lia|cbn; lia|].
  exists result. split; [exact E|]. apply (H 2147483647).
  split_and!; [lia| |vm_compute; reflexivity|unfold int_max; lia].
  apply (bool_decide_unpack (all_digits _)). vm_compute. exact I.
Defined.

(** One more is refused, as is a number of eleven digits. *)
Example parse_nonnegative_int_edge :
  parse_nonnegative_int (bs "42147483647-x") 1 11 = Ok (Some 2147483647) /\
  parse_nonnegative_int (bs "42147483648-x") 1 11 = Ok None /\ parse_nonnegative_int (bs "99999999999") 0 11 = Ok None.
Proof. by vm_compute. Qed.

Lemma deconstruct_reconstruct_witness :
  let '(j', attachments) := deconstruct_binary (p_data Examples.upload) [] in
  no_binary j' = true /\ attachments = binaries (p_data Examples.upload) /\
  reconstruct_binary (num_norm j') attachments = Some (wire_norm (p_data Examples.upload)).
Proof. apply (deconstruct_reconstruct (p_data Examples.upload)); vm_compute; reflexivity. Defined.
