(* ===== verification/MsgpackParser.v ===== *)
(** * The MessagePack parser

    src/msgpack_parser.cpp: one binary frame per packet, a map with the members
    type, nsp, and, when present, id and data. *)

From S2P Require Export Packet JsonCodec.
From stdpp Require Import options.
#[local] Set Default Proof Using "Type*".
Local Open Scope Z_scope.

Inductive msgpack_parser : Type := mk_msgpack_parser.

Section with_json.
Context `{JsonLib}.

(** The object [encode] builds. *)
Definition packet_object (p : packet) : json :=
  let obj := obj_insert (bs "type") (JInt (int_of_type (p_type p))) [] in
  let obj := obj_insert (bs "nsp") (JString (p_nsp p)) obj in
  let obj := if 0 <=? p_id p then obj_insert (bs "id") (JInt (p_id p)) obj else obj in
  let obj := if negb (is_null (p_data p)) then obj_insert (bs "data") (p_data p) obj else obj in
  JObject obj.

Definition msgpack_encode (p : packet) : outcome (list frame) :=
  Ok [(to_msgpack (packet_object p), true)].

(** [obj.contains("id") && !obj["id"].is_null() ? obj["id"].get<int>() : -1] *)
Definition object_id (obj : json) : outcome Z :=
  match member obj "id" with
  | Some v => if negb (is_null v) then throw_none type_error (get_int v) else Ok (-1)
  | None => Ok (-1)
  end.

(** [obj.contains("data") ? obj["data"] : json()] *)
Definition object_data (obj : json) : json :=
  match member obj "data" with Some v => v | None => JNull end.

(** The body of the [try] block: the packet as far as it was assigned, and
    whether it ran to its end. *)
Definition assign_fields (obj : json) (out : packet) : packet * bool :=
  match value_or get_int obj "type" 0 with
  | Throw _ => (out, false)
  | Ok t =>
      let out := {| out with p_type := type_of_int t |} in
      match value_or get_string obj "nsp" (bs "/") with
      | Throw _ => (out, false)
      | Ok nsp =>
          let out := {| out with p_nsp := nsp |} in
          match object_id obj with
          | Throw _ => (out, false)
          | Ok id =>
              ({| out with p_id := id; p_data := object_data obj; p_attachments := 0 |}, true)
          end
      end
  end.

Definition msgpack_decode (self : msgpack_parser) (payload : bstr) (is_binary : bool) (out : packet)
    : outcome (msgpack_parser * packet * bool) :=
  if negb is_binary then Ok (self, out, false)
  else match from_msgpack payload with
       | None => Ok (self, out, false)
       | Some obj => let '(out', complete) := assign_fields obj out in Ok (self, out', complete)
       end.

#[export] Instance msgpack_parser_base : ParserBase msgpack_parser := {|
  parser_encode := fun _ => msgpack_encode;
  parser_decode := msgpack_decode;
  parser_name := fun _ => bs "msgpack";
|}.
End with_json.

(** Packets the binary protocol transmits faithfully: any namespace, any type. *)
Definition msgpack_encodable (p : packet) : Prop :=
  type_wf (p_type p) /\ - 2 ^ 31 <= int_of_type (p_type p) < 2 ^ 31 /\ fits (p_nsp p) = true
  /\ p_id p <= int_max /\ json_ok (p_data p) = true.

Definition msgpack_received (p : packet) : packet :=
  mk_packet (p_type p) (p_nsp p) (if 0 <=? p_id p then p_id p else -1) (num_norm (p_data p)) 0.

(** ** Lemmas *)

Lemma packet_object_members p :
  exists m, packet_object p = JObject m /\
    obj_lookup (bs "type") m = Some (JInt (int_of_type (p_type p))) /\
    obj_lookup (bs "nsp") m = Some (JString (p_nsp p)) /\
    obj_lookup (bs "id") m = (if 0 <=? p_id p then Some (JInt (p_id p)) else None) /\
    obj_lookup (bs "data") m = (if is_null (p_data p) then None else Some (p_data p)).
Proof.
  unfold packet_object. eexists. split; [reflexivity|].
  destruct (is_null (p_data p)), (0 <=? p_id p); cbn [negb];
    split_and!; repeat (rewrite obj_lookup_insert || rewrite obj_lookup_insert_ne by done); done.
Qed.

(** The members in the order of their keys. *)
Lemma packet_object_shape p :
  packet_object p = JObject
    ((if is_null (p_data p) then [] else [(bs "data", p_data p)]) ++
     (if 0 <=? p_id p then [(bs "id", JInt (p_id p))] else []) ++
     [(bs "nsp", JString (p_nsp p)); (bs "type", JInt (int_of_type (p_type p)))]).
Proof.
  unfold packet_object. generalize (JInt (int_of_type (p_type p))), (p_nsp p), (p_id p), (p_data p).
  intros t nsp id d. destruct (0 <=? id), (is_null d); reflexivity.
Qed.

Lemma packet_object_ok p : msgpack_encodable p -> json_ok (packet_object p) = true.
Proof.
  intros (_ & Ht & Hn & Hid & Hd). unfold int_max in Hid.
  rewrite packet_object_shape.
  assert (E1 : json_ok (JInt (int_of_type (p_type p))) = true).
  { unfold json_ok, json_all, node_ok. apply andb_true_intro; lia. }
  assert (E2 : (0 <=? p_id p) = true -> json_ok (JInt (p_id p)) = true).
  { unfold json_ok, json_all, node_ok. intros. apply andb_true_intro; lia. }
  assert (E3 : json_ok (JString (p_nsp p)) = true) by (unfold json_ok; cbn [json_all node_ok]; by rewrite Hn).
  revert Hd E1 E2 E3. generalize (JInt (int_of_type (p_type p))), (JString (p_nsp p)), (JInt (p_id p)), (p_data p).
  intros t n i d Hd E1 E2 E3. unfold json_ok in *.
  destruct (is_null d), (0 <=? p_id p); cbn [app json_all forallb snd]; rewrite ?Hd, ?E1, ?E3, ?E2 by done;
    rewrite andb_true_r; reflexivity.
Qed.

Lemma obj_lookup_map k f m :
  obj_lookup k (List.map (fun kv => (kv.1, f kv.2)) m) = f <$> obj_lookup k m.
Proof. induction m as [|[k' v] m IH]; simpl; [done|]. by case_decide. Qed.

Section with_laws.
Context `{JsonLaws}.

Lemma get_int_norm z : - 2 ^ 31 <= z < 2 ^ 31 -> get_int (num_norm (JInt z)) = Some z.
Proof.
  intros Hz. unfold num_norm; cbn. destruct (Z.leb_spec 0 z).
  - apply get_int_uint. lia.
  - by apply get_int_int.
Qed.

Lemma msgpack_encode_decode p out :
  msgpack_encodable p ->
  msgpack_decode mk_msgpack_parser (to_msgpack (packet_object p)) true out
  = Ok (mk_msgpack_parser, msgpack_received p, true).
Proof.
  intros Hp. unfold msgpack_decode; cbn [negb].
  rewrite from_to_msgpack by (by apply packet_object_ok).
  destruct (packet_object_members p) as (m & -> & Et & En & Ei & Ed).
  destruct Hp as (Hw & Ht & Hn & Hid & Hd).
  change (num_norm (JObject m)) with (JObject (List.map (fun kv => (kv.1, num_norm kv.2)) m)).
  unfold assign_fields, value_or, object_id, object_data, member.
  rewrite !obj_lookup_map, Et, En, Ei, Ed. cbn [fmap option_fmap option_map].
  rewrite get_int_norm by done. cbn [throw_none]. rewrite type_of_int_of_type by done.
  change (num_norm (JString (p_nsp p))) with (JString (p_nsp p)). cbn [get_string throw_none].
  unfold msgpack_received. destruct (Z.leb_spec 0 (p_id p)); cbn [fmap option_fmap option_map].
  - assert (is_null (num_norm (JInt (p_id p))) = false) as -> by (unfold num_norm; cbn [json_map norm_leaf]; by destruct (0 <=? p_id p)).
    cbn [negb]. rewrite get_int_norm by (unfold int_max in Hid; lia). cbn.
    destruct (p_data p); done.
  - destruct (p_data p); done.
Qed.

#[export] Program Instance msgpack_parser_laws : ParserLaws msgpack_parser := {|
  at_rest := fun _ => True;
  encodable := msgpack_encodable;
  received := msgpack_received;
|}.
Next Obligation.
  intros sender [] p frames out Hp _ [= <-]. do 2 eexists. split; [|done].
  cbn [decode_frames parser_decode msgpack_parser_base]. by rewrite msgpack_encode_decode.
Qed.
Next Obligation.
  intros [] payload is_binary out1 out2 [] p1 complete. cbn [parser_decode msgpack_parser_base].
  unfold msgpack_decode, assign_fields. intros E.
  repeat case_match; simplify_eq; eexists; (split; [reflexivity|]); done.
Qed.
End with_laws.

(** ** Properties *)

Section properties.
Context (L : JsonLib) {HL : JsonLaws L}.

(** [C28] The single frame of a packet decodes to the packet: type, namespace,
    id and payload, binary values included, whatever the parser held before. *)
Theorem msgpack_roundtrip (p : packet) (frames : list frame) (out : packet) :
  msgpack_encodable p -> msgpack_encode p = Ok frames ->
  decode_frames mk_msgpack_parser frames out = Ok (mk_msgpack_parser, msgpack_received p, [msgpack_received p]).
Proof.
  intros Hp [= <-]. cbn [decode_frames parser_decode msgpack_parser_base]. by rewrite msgpack_encode_decode.
Qed.
End properties.

Section safety.
Context (L : JsonLib).

(** [decode] returns on every frame: no exception of the JSON library
    escapes.  A text frame or bytes that do not parse leave the packet alone; a
    map with a member of the wrong type is refused, and then at most the type
    and the namespace were assigned; an accepted packet has no attachments. *)
Theorem msgpack_decode_total (payload : bstr) (is_binary : bool) (out : packet) :
  exists out' complete,
    msgpack_decode mk_msgpack_parser payload is_binary out = Ok (mk_msgpack_parser, out', complete) /\
    (complete = true -> is_binary = true /\ p_attachments out' = 0) /\
    (complete = false -> p_id out' = p_id out /\ p_data out' = p_data out
                         /\ p_attachments out' = p_attachments out) /\
    (is_binary = false \/ from_msgpack payload = None -> complete = false /\ out' = out).
Proof.
  unfold msgpack_decode. destruct is_binary; cbn [negb]; [|by exists out, false].
  destruct (from_msgpack payload) as [obj|]; [|by exists out, false].
  unfold assign_fields.
  destruct (value_or get_int obj "type" 0) as [t|]; [|do 2 eexists; split; [reflexivity|naive_solver]].
  destruct (value_or get_string obj "nsp" (bs "/")) as [nsp|]; [|do 2 eexists; split; [reflexivity|naive_solver]].
  destruct (object_id obj) as [id|]; do 2 eexists; (split; [reflexivity|naive_solver]).
Qed.
End safety.

#[local] Existing Instances Codec.lib Codec.laws.

Lemma msgpack_roundtrip_witness :
  let p := mk_packet pt_event "chat,room" 5 (JArray [JString "x"; JBinary (bs "raw") (Some 2); JInt 4]) 0 in
  decode_frames mk_msgpack_parser [(to_msgpack (packet_object p), true)] default_packet
  = Ok (mk_msgpack_parser, msgpack_received p, [msgpack_received p]).
Proof.
  intros p. apply (msgpack_roundtrip Codec.lib p); [|reflexivity].
  unfold msgpack_encodable, p; cbn. unfold int_max. split_and!; try done; lia.
Defined.

(** A map whose namespace is no string: refused after the type was assigned. *)
Example msgpack_partial_assignment :
  msgpack_decode mk_msgpack_parser (dq "{'type':1,'nsp':5}") true default_packet
  = Ok (mk_msgpack_parser, {| default_packet with p_type := pt_disconnect |}, false).
Proof. vm_compute. reflexivity. Qed.
