(* ===== verification/Polling.v ===== *)
(** * The long-polling payload format

    Base64 (src/proxy.cpp, src/http_polling_transport.cpp) and the framing of a
    polling body (src/polling_protocol.hpp): the packets of a body are separated
    by the record separator, a binary packet is the letter b and Base64 text. *)

From S2P Require Export Bytes.
From stdpp Require Import options.
#[local] Set Default Proof Using "Type*".
Local Open Scope Z_scope.

(** ** Base64 *)

Definition base64 : bstr := "ABCDEFGHIJKLMNOPQRSTUVWXYZabcdefghijklmnopqrstuvwxyz0123456789+/".

(** [base64[(value >> shift) & 63]]; an index below 64 is in bounds. *)
Definition sextet_char (value shift : Z) : ascii :=
  default "="%char (base64 !! Z.to_nat (Z.land (Z.shiftr value shift) 63)).

(** One turn of the encoding loop: one to three bytes become four characters. *)
Definition encode_group (x : ascii) (y z : option ascii) : bstr :=
  let value := Z.shiftl (code x) 16 in
  let value := match y with Some y => Z.lor value (Z.shiftl (code y) 8) | None => value end in
  let value := match z with Some z => Z.lor value (code z) | None => value end in
  [sextet_char value 18; sextet_char value 12;
   match y with Some _ => sextet_char value 6 | None => "="%char end;
   match z with Some _ => sextet_char value 0 | None => "="%char end].

Fixpoint base64_encode (input : bstr) : bstr :=
  match input with
  | [] => []
  | [x] => encode_group x None None
  | [x; y] => encode_group x (Some y) None
  | x :: y :: z :: rest => encode_group x (Some y) (Some z) ++ base64_encode rest
  end.

Definition base64_value (c : ascii) : Z :=
  if (code "A" <=? code c) && (code c <=? code "Z") then code c - code "A"
  else if (code "a" <=? code c) && (code c <=? code "z") then code c - code "a" + 26
  else if (code "0" <=? code c) && (code c <=? code "9") then code c - code "0" + 52
  else if decide (c = "+"%char) then 62
  else if decide (c = "/"%char) then 63
  else -1.

(** [input[i] == '=' ? 0 : base64_value(input[i])] *)
Definition padded_value (c : ascii) : Z :=
  if decide (c = "="%char) then 0 else base64_value c.

(** One turn of the decoding loop: [None] is the early [return false]. *)
Definition decode_group (c0 c1 c2 c3 : ascii) : option bstr :=
  let a := base64_value c0 in
  let b := base64_value c1 in
  let c := padded_value c2 in
  let d := padded_value c3 in
  if (a <? 0) || (b <? 0) || (c <? 0) || (d <? 0) then None
  else
    let value := Z.lor (Z.lor (Z.lor (Z.shiftl a 18) (Z.shiftl b 12)) (Z.shiftl c 6)) d in
    Some ([char_of (Z.land (Z.shiftr value 16) 255)]
          ++ (if decide (c2 = "="%char) then [] else [char_of (Z.land (Z.shiftr value 8) 255)])
          ++ (if decide (c3 = "="%char) then [] else [char_of (Z.land value 255)])).

Fixpoint decode_groups (input out : bstr) : bstr * bool :=
  match input with
  | c0 :: c1 :: c2 :: c3 :: rest =>
      match decode_group c0 c1 c2 c3 with
      | Some bytes => decode_groups rest (out ++ bytes)
      | None => (out, false)
      end
  | _ => (out, true)
  end.

(** The out-parameter afterwards, and the result. *)
Definition base64_decode (input out : bstr) : bstr * bool :=
  if negb (Z.of_nat (length input) mod 4 =? 0) then (out, false) else decode_groups input [].

(** ** Polling packets *)

Definition record_separator : ascii := "030"%char.

Definition polling_encode_binary (payload : bstr) : bstr := "b"%char :: base64_encode payload.

Definition polling_decode_binary (packet payload : bstr) : bstr * bool :=
  match packet with
  | c :: _ => if decide (c = "b"%char) then base64_decode (drop 1 packet) payload else (payload, false)
  | [] => (payload, false)
  end.

(** The [while] loop from position [begin]; every turn but the last moves past
    a separator, so the fuel is the number of characters left and one more. *)
Fixpoint split_loop (fuel : nat) (payload : bstr) (begin : nat) (packets : list bstr) : list bstr :=
  match fuel with
  | O => packets
  | S f =>
      if (begin <=? length payload)%nat then
        let separator := find_char payload record_separator begin in
        let end_ := default (length payload) separator in
        let packets := if (begin <? end_)%nat then packets ++ [substr payload begin (end_ - begin)] else packets in
        match separator with
        | None => packets
        | Some p => split_loop f payload (S p) packets
        end
      else packets
  end.

Definition polling_split_payload (payload : bstr) : list bstr :=
  split_loop (S (length payload)) payload 0 [].

(** ** Lemmas: bits *)

Lemma testbit_small v k n : 0 <= v < 2 ^ k -> 0 <= k <= n -> Z.testbit v n = false.
Proof.
  intros Hv Hk. destruct (decide (v = 0)) as [->|]; [apply Z.testbit_0_l|].
  apply Z.bits_above_log2; [lia|]. apply Z.log2_lt_pow2; [lia|].
  eapply Z.lt_le_trans; [apply Hv|]. apply Z.pow_le_mono_r; lia.
Qed.

Lemma testbit_mask v k n : 0 <= n -> 0 <= k -> Z.testbit (Z.land v (Z.ones k)) n = Z.testbit v n && (n <? k).
Proof. intros. rewrite Z.land_spec. by rewrite Z.testbit_ones_nonneg. Qed.

Ltac solve_bits :=
  change 63 with (Z.ones 6) in *; change 255 with (Z.ones 8) in *;
  let n := fresh "n" in let Hn := fresh "Hn" in
  apply Z.bits_inj'; intros n Hn;
  repeat first
    [ rewrite Z.lor_spec | rewrite testbit_mask by lia | rewrite Z.shiftl_spec by lia
    | rewrite Z.shiftr_spec by lia ].

(** The four sextets of a 24-bit value. *)
Lemma sextets v :
  0 <= v < 2 ^ 24 ->
  Z.lor (Z.lor (Z.lor (Z.shiftl (Z.land (Z.shiftr v 18) 63) 18) (Z.shiftl (Z.land (Z.shiftr v 12) 63) 12))
               (Z.shiftl (Z.land (Z.shiftr v 6) 63) 6)) (Z.land (Z.shiftr v 0) 63) = v.
Proof.
  intros Hv. rewrite Z.shiftr_0_r.
  change 63 with (Z.ones 6). apply Z.bits_inj'. intros n Hn.
  rewrite !Z.lor_spec, !Z.shiftl_spec by lia.
  rewrite (testbit_mask _ 6 n) by lia.
  assert (forall k, 0 <= k -> Z.testbit (Z.land (Z.shiftr v k) (Z.ones 6)) (n - k)
                    = Z.testbit v n && (k <=? n) && (n <? k + 6)) as E.
  { intros k Hk. destruct (Z.leb_spec k n).
    - rewrite testbit_mask, Z.shiftr_spec by lia. replace (n - k + k) with n by lia.
      destruct (Z.testbit v n); simpl; [|done].
      destruct (Z.ltb_spec (n - k) 6), (Z.ltb_spec n (k + 6)); try done; lia.
    - rewrite Z.testbit_neg_r by lia. by rewrite andb_false_r. }
  rewrite !E by lia. destruct (Z.testbit v n) eqn:Ev; simpl; [|done].
  assert (n < 24) by (destruct (Z.lt_ge_cases n 24); [done|]; rewrite (testbit_small v 24) in Ev by lia; done).
  destruct (Z.leb_spec 18 n), (Z.ltb_spec n (18 + 6)), (Z.leb_spec 12 n), (Z.ltb_spec n (12 + 6)),
    (Z.leb_spec 6 n), (Z.ltb_spec n (6 + 6)), (Z.ltb_spec n 6); simpl; try done; lia.
Qed.

Lemma lor_bound a b k : 0 <= k -> 0 <= a < 2 ^ k -> 0 <= b < 2 ^ k -> 0 <= Z.lor a b < 2 ^ k.
Proof.
  intros Hk Ha Hb. split; [apply Z.lor_nonneg; lia|].
  destruct (decide (Z.lor a b = 0)) as [->|Hne]; [lia|].
  assert (0 <= Z.lor a b) by (apply Z.lor_nonneg; lia).
  apply Z.log2_lt_pow2; [lia|]. rewrite Z.log2_lor by lia.
  assert (forall c, 0 <= c < 2 ^ k -> c = 0 \/ Z.log2 c < k) as E.
  { intros c Hc. destruct (decide (c = 0)); [by left|]. right. apply Z.log2_lt_pow2; lia. }
  pose proof (Z.log2_nonneg a). pose proof (Z.log2_nonneg b).
  destruct (E a Ha) as [Ha0|], (E b Hb) as [Hb0|]; [by rewrite Ha0, Hb0 in Hne|..].
  - rewrite Ha0. change (Z.log2 0) with 0. lia.
  - rewrite Hb0. change (Z.log2 0) with 0. lia.
  - lia.
Qed.

(** The 24-bit value of three bytes. *)
Definition group_value (x y z : Z) : Z := Z.lor (Z.lor (Z.shiftl x 16) (Z.shiftl y 8)) z.

Lemma group_value_bound x y z :
  0 <= x < 256 -> 0 <= y < 256 -> 0 <= z < 256 -> 0 <= group_value x y z < 2 ^ 24.
Proof.
  intros. unfold group_value. rewrite !Z.shiftl_mul_pow2 by lia. repeat apply (lor_bound _ _ 24); cbn; lia.
Qed.

Lemma group_byte x y z k :
  0 <= x < 256 -> 0 <= y < 256 -> 0 <= z < 256 -> k = 0 \/ k = 8 \/ k = 16 ->
  Z.land (Z.shiftr (group_value x y z) k) 255 = if decide (k = 0) then z else if decide (k = 8) then y else x.
Proof.
  intros Hx Hy Hz Hk. unfold group_value. change 255 with (Z.ones 8).
  apply Z.bits_inj'. intros n Hn. rewrite testbit_mask, Z.shiftr_spec by lia.
  rewrite !Z.lor_spec, !Z.shiftl_spec by lia.
  assert (forall v m, 0 <= v < 256 -> 8 <= m -> Z.testbit v m = false) as Hs.
  { intros. apply (testbit_small v 8); lia. }
  destruct (Z.ltb_spec n 8); [rewrite andb_true_r|rewrite andb_false_r; repeat case_decide; symmetry; auto].
  destruct Hk as [->|[->| ->]].
  - rewrite decide_True by done. rewrite !Z.add_0_r.
    rewrite (Z.testbit_neg_r x), (Z.testbit_neg_r y) by lia. done.
  - rewrite decide_False, decide_True by done.
    rewrite (Z.testbit_neg_r x), (Hs z) by lia. by replace (n + 8 - 8) with n by lia; rewrite orb_false_r.
  - rewrite !decide_False by done. rewrite (Hs z), (Hs y) by lia.
    by replace (n + 16 - 16) with n by lia; rewrite !orb_false_r.
Qed.

(** ** Lemmas: one group *)

(** The alphabet and its inverse, checked on the 64 sextets. *)
Lemma base64_value_table n :
  0 <= n < 64 ->
  base64_value (default "="%char (base64 !! Z.to_nat n)) = n /\
  default "="%char (base64 !! Z.to_nat n) <> "="%char /\
  default "="%char (base64 !! Z.to_nat n) ∈ base64.
Proof.
  intros Hn.
  assert (forallb (fun i => let c := default "="%char (base64 !! i) in
            (base64_value c =? Z.of_nat i) && bool_decide (c <> "="%char) && bool_decide (c ∈ base64))
            (seq 0 64) = true) as E by (vm_compute; reflexivity).
  rewrite forallb_forall in E. specialize (E (Z.to_nat n)).
  rewrite Z2Nat.id in E by lia.
  assert (In (Z.to_nat n) (seq 0 64)) as Hin by (apply in_seq; lia).
  specialize (E Hin). apply andb_prop in E as [[E1 E2]%andb_prop E3].
  apply Z.eqb_eq in E1. by apply bool_decide_eq_true in E2, E3.
Qed.

Lemma sextet_range v : 0 <= Z.land v 63 < 64.
Proof. change 63 with (Z.ones 6). rewrite Z.land_ones by lia. apply Z.mod_pos_bound. lia. Qed.

Lemma base64_value_sextet v k : base64_value (sextet_char v k) = Z.land (Z.shiftr v k) 63.
Proof. apply base64_value_table, sextet_range. Qed.

Lemma sextet_char_alphabet v k : sextet_char v k <> "="%char /\ sextet_char v k ∈ base64.
Proof. apply base64_value_table, sextet_range. Qed.

Lemma padded_value_sextet v k : padded_value (sextet_char v k) = Z.land (Z.shiftr v k) 63.
Proof.
  unfold padded_value. rewrite decide_False by apply sextet_char_alphabet. apply base64_value_sextet.
Qed.

Lemma decode_group_sextets v c2 c3 :
  0 <= v < 2 ^ 24 ->
  padded_value c2 = Z.land (Z.shiftr v 6) 63 -> padded_value c3 = Z.land (Z.shiftr v 0) 63 ->
  decode_group (sextet_char v 18) (sextet_char v 12) c2 c3
  = Some ([char_of (Z.land (Z.shiftr v 16) 255)]
          ++ (if decide (c2 = "="%char) then [] else [char_of (Z.land (Z.shiftr v 8) 255)])
          ++ (if decide (c3 = "="%char) then [] else [char_of (Z.land (Z.shiftr v 0) 255)])).
Proof.
  intros Hv E2 E3. unfold decode_group. rewrite !base64_value_sextet, E2, E3.
  rewrite !(proj2 (Z.ltb_ge _ _)) by apply sextet_range. cbn [orb].
  rewrite (sextets v) by done. by rewrite Z.shiftr_0_r.
Qed.

(** Absent bytes leave the sextets they would have filled at zero. *)
Lemma group_sextet_zero x y :
  Z.land (Z.shiftr (group_value x 0 0) 6) 63 = 0 /\ Z.land (Z.shiftr (group_value x y 0) 0) 63 = 0.
Proof.
  unfold group_value. change 63 with (Z.ones 6). rewrite Z.shiftl_0_l, !Z.lor_0_r.
  split; apply Z.bits_inj'; intros n Hn; rewrite testbit_mask, Z.shiftr_spec by lia;
    rewrite ?Z.lor_spec, !Z.shiftl_spec, Z.bits_0 by lia;
    (destruct (Z.ltb_spec n 6); [rewrite andb_true_r|apply andb_false_r]);
    rewrite !Z.testbit_neg_r by lia; done.
Qed.

Lemma decode_encode_group x y z rest out :
  (z <> None -> y <> None) ->
  decode_groups (encode_group x y z ++ rest) out
  = decode_groups rest (out ++ [x] ++ option_list y ++ option_list z).
Proof.
  intros Hyz.
  assert (forall o, 0 <= default 0 (code <$> o) < 256) as Hc.
  { intros [c|]; simpl; [apply code_range|lia]. }
  pose proof (code_range x) as Hx. pose proof (Hc y) as Hy. pose proof (Hc z) as Hz.
  set (v := group_value (code x) (default 0 (code <$> y)) (default 0 (code <$> z))).
  assert (0 <= v < 2 ^ 24) as Hv by (by apply group_value_bound).
  assert (encode_group x y z =
    [sextet_char v 18; sextet_char v 12; match y with Some _ => sextet_char v 6 | None => "="%char end;
     match z with Some _ => sextet_char v 0 | None => "="%char end]) as ->.
  { unfold encode_group, v, group_value.
    destruct y as [y|], z as [z|]; cbn [default fmap option_fmap option_map from_option id];
      rewrite ?Z.shiftl_0_l, ?Z.lor_0_r; naive_solver. }
  cbn [app decode_groups]. rewrite (decode_group_sextets v); [|done| |].
  - unfold v. rewrite !group_byte by tauto. cbn [decide]. f_equal. f_equal.
    destruct y as [y|], z as [z|]; cbn [default fmap option_fmap option_map from_option id];
      rewrite ?(decide_False (P := sextet_char _ _ = _)) by apply sextet_char_alphabet;
      rewrite ?(decide_True (P := "="%char = "="%char)) by done; simpl; rewrite ?char_of_code; naive_solver.
  - destruct y; [apply padded_value_sextet|]. unfold v. destruct z; [by destruct Hyz|].
    symmetry. apply (group_sextet_zero _ 0).
  - destruct z; [apply padded_value_sextet|]. symmetry. apply group_sextet_zero.
Qed.

Lemma base64_encode_step x y z rest :
  base64_encode (x :: y :: z :: rest) = encode_group x (Some y) (Some z) ++ base64_encode rest.
Proof. reflexivity. Qed.

(** Induction over groups of three bytes. *)
Lemma group_ind (P : bstr -> Prop) :
  P [] -> (forall x, P [x]) -> (forall x y, P [x; y]) ->
  (forall x y z rest, P rest -> P (x :: y :: z :: rest)) -> forall s, P s.
Proof.
  intros H0 H1 H2 H3 s. induction s as [s IH] using (induction_ltof1 _ (@length ascii)).
  destruct s as [|x [|y [|z rest]]]; auto. apply H3, IH. unfold ltof. simpl. lia.
Qed.

Lemma decode_groups_encode s out : decode_groups (base64_encode s) out = (out ++ s, true).
Proof.
  revert out. induction s as [|x|x y|x y z rest IH] using group_ind; intros out.
  - simpl. by rewrite app_nil_r.
  - rewrite <-(app_nil_r (base64_encode _)). by apply (decode_encode_group x None None []).
  - rewrite <-(app_nil_r (base64_encode _)). by apply (decode_encode_group x (Some y) None []).
  - rewrite base64_encode_step, decode_encode_group by done. rewrite IH, <-app_assoc. done.
Qed.

Lemma base64_encode_length s :
  Z.of_nat (length (base64_encode s)) = (Z.of_nat (length s) + 2) / 3 * 4.
Proof.
  induction s as [|x|x y|x y z rest IH] using group_ind; [reflexivity..|].
  rewrite base64_encode_step, length_app, Nat2Z.inj_add, IH. cbn [length].
  rewrite !Nat2Z.inj_succ. change (Z.of_nat (length (encode_group x (Some y) (Some z)))) with 4.
  replace (Z.succ (Z.succ (Z.succ (Z.of_nat (length rest)))) + 2)
    with (Z.of_nat (length rest) + 2 + 1 * 3) by lia.
  rewrite Z.div_add by lia. lia.
Qed.

Lemma base64_encode_chars s : Forall (fun c => c ∈ base64 \/ c = "="%char) (base64_encode s).
Proof.
  assert (forall x y z, Forall (fun c => c ∈ base64 \/ c = "="%char) (encode_group x y z)) as Hg.
  { intros x y z. unfold encode_group. repeat apply Forall_cons_2; [..|constructor];
      destruct y, z; try (left; apply sextet_char_alphabet); by right. }
  induction s as [|x|x y|x y z rest IH] using group_ind; [constructor|apply Hg..|].
  rewrite base64_encode_step. apply Forall_app; split; [apply Hg|done].
Qed.

(** ** Splitting: the reference function and the loop *)

(** All the pieces between separators, the empty ones too. *)
Fixpoint split_on (c : ascii) (s : bstr) : list bstr :=
  match s with
  | [] => [[]]
  | x :: s' =>
      if decide (x = c) then [] :: split_on c s'
      else match split_on c s' with
           | w :: ws => (x :: w) :: ws
           | [] => [[x]]
           end
  end.

Definition nonempty (s : bstr) : Prop := s <> [].
#[export] Instance nonempty_dec s : Decision (nonempty s).
Proof. unfold nonempty. apply _. Defined.

(** A body of packets, as a server joins them. *)
Fixpoint join_packets (packets : list bstr) : bstr :=
  match packets with
  | [] => []
  | [p] => p
  | p :: packets' => p ++ record_separator :: join_packets packets'
  end.

(** A packet of a polling body becomes a message: see [deliver]. *)
Definition packet_message (packet : bstr) : option (bstr * bool) :=
  match packet with
  | [] => None
  | c :: _ =>
      if decide (c = "b"%char) then
        match polling_decode_binary packet [] with
        | (decoded, true) => Some (decoded, true)
        | (_, false) => None
        end
      else Some (packet, false)
  end.

Definition encode_message (message : bstr * bool) : bstr :=
  if message.2 then polling_encode_binary message.1 else message.1.

(** Text packets start with their Engine.IO type, a digit. *)
Definition message_ok (message : bstr * bool) : Prop :=
  message.2 = false -> starts_with_digit message.1 = true /\ record_separator ∉ message.1.

Lemma split_on_notin c s : c ∉ s -> split_on c s = [s].
Proof.
  induction s as [|x s IH]; simpl; [done|]. intros [Hx Hs]%not_elem_of_cons.
  rewrite decide_False by congruence. by rewrite IH.
Qed.

Lemma split_on_app c l k : c ∉ l -> split_on c (l ++ c :: k) = l :: split_on c k.
Proof.
  induction l as [|x l IH]; simpl; [by rewrite decide_True|]. intros [Hx Hl]%not_elem_of_cons.
  rewrite decide_False by congruence. by rewrite IH.
Qed.

Lemma filter_nonempty_cons l ls :
  filter nonempty (l :: ls) = (if (0 <? length l)%nat then [l] else []) ++ filter nonempty ls.
Proof. rewrite filter_cons. unfold nonempty. by destruct l. Qed.

Lemma split_loop_spec fuel payload begin packets :
  (begin <= length payload)%nat -> (length payload - begin < fuel)%nat ->
  split_loop fuel payload begin packets
  = packets ++ filter nonempty (split_on record_separator (drop begin payload)).
Proof.
  revert begin packets. induction fuel as [|f IH]; intros begin packets Hb Hf; [lia|].
  cbn [split_loop]. rewrite (proj2 (Nat.leb_le _ _)) by done. unfold find_char, substr.
  assert (length (drop begin payload) = length payload - begin)%nat as Hlen by apply length_drop.
  destruct (find_c record_separator (drop begin payload)) as [n|] eqn:E;
    cbn [fmap option_fmap option_map default from_option].
  - apply find_c_Some in E as (l & k & E & <- & Hl). rewrite E in Hlen |- *.
    rewrite length_app in Hlen. cbn [length] in Hlen.
    rewrite IH by lia. rewrite split_on_app by done. rewrite filter_nonempty_cons.
    replace (drop (S (begin + length l)) payload) with k.
    2:{ replace (S (begin + length l)) with (begin + S (length l))%nat by lia.
        rewrite <-drop_drop, E. rewrite cons_middle, app_assoc.
        symmetry. apply drop_app_exact. rewrite length_app. cbn [length]. lia. }
    unfold id. replace (begin + length l - begin)%nat with (length l) by lia. rewrite take_app_length.
    destruct (Nat.ltb_spec begin (begin + length l)), (Nat.ltb_spec 0 (length l)); try lia;
      by rewrite <-?app_assoc.
  - apply find_c_None in E. rewrite split_on_notin by done. rewrite filter_nonempty_cons.
    rewrite Hlen, take_ge by (rewrite Hlen; lia). unfold id.
    destruct (Nat.ltb_spec begin (length payload)), (Nat.ltb_spec 0 (length payload - begin)); try lia;
      rewrite ?app_nil_r; done.
Qed.

Lemma split_payload_reference payload :
  polling_split_payload payload = filter nonempty (split_on record_separator payload).
Proof. unfold polling_split_payload. by rewrite split_loop_spec by lia. Qed.

Lemma split_on_join packets :
  packets <> [] -> Forall (fun p => record_separator ∉ p) packets ->
  split_on record_separator (join_packets packets) = packets.
Proof.
  intros Hne H. induction H as [|p ps Hp Hps IH]; [done|].
  destruct ps as [|p' ps]; [by apply split_on_notin|].
  cbn [join_packets]. rewrite split_on_app by done. change (p :: split_on record_separator (join_packets (p' :: ps)) = p :: p' :: ps). by rewrite IH.
Qed.

Lemma base64_no_separator s : record_separator ∉ base64_encode s.
Proof.
  intros Hin. pose proof (base64_encode_chars s) as H. rewrite Forall_forall in H.
  destruct (H _ Hin) as [Hc|Hc]; [|done]. revert Hc. apply (bool_decide_unpack (_ ∉ _)). vm_compute. done.
Qed.

Lemma base64_decode_encode s out : base64_decode (base64_encode s) out = (s, true).
Proof.
  unfold base64_decode. rewrite base64_encode_length, Z.mod_mul by lia. cbn [Z.eqb negb].
  apply decode_groups_encode.
Qed.

(** ** Properties *)

(** Base64: decoding what was encoded gives the bytes back whatever the
    out-parameter held, the text has four characters per started group of three
    bytes, all from the alphabet or the padding character. *)
Theorem base64_roundtrip (s out : bstr) :
  base64_decode (base64_encode s) out = (s, true) /\
  Z.of_nat (length (base64_encode s)) = (Z.of_nat (length s) + 2) / 3 * 4 /\
  Forall (fun c => c ∈ base64 \/ c = "="%char) (base64_encode s).
Proof.
  split_and!; [apply base64_decode_encode|apply base64_encode_length|apply base64_encode_chars].
Qed.

(** The splitting loop ends within its fuel and computes the reference:
    all pieces between separators, without the empty ones. *)
Theorem polling_split_payload_spec (payload : bstr) :
  polling_split_payload payload = filter nonempty (split_on record_separator payload) /\
  (forall packets, Forall (fun p => nonempty p /\ record_separator ∉ p) packets ->
     polling_split_payload (join_packets packets) = packets).
Proof.
  split; [apply split_payload_reference|]. intros packets H.
  apply Forall_and in H as [Hne Hsep]. rewrite split_payload_reference.
  destruct packets as [|p ps]; [reflexivity|].
  rewrite split_on_join by done. by apply filter_all.
Qed.

(** A polling body of text and binary messages gives back these messages,
    in order: binary content of any bytes, text that starts with its type digit
    and is free of the separator. *)
Theorem polling_body_roundtrip (messages : list (bstr * bool)) :
  Forall message_ok messages ->
  omap packet_message (polling_split_payload (join_packets (encode_message <$> messages))) = messages.
Proof.
  intros H. rewrite split_payload_reference.
  assert (Forall (fun p => record_separator ∉ p) (encode_message <$> messages)) as Hsep.
  { apply Forall_fmap. eapply Forall_impl; [exact H|]. intros [m []] Hm; cbn.
    - apply not_elem_of_cons. split; [done|apply base64_no_separator].
    - by apply Hm. }
  assert (Forall nonempty (encode_message <$> messages)) as Hne.
  { apply Forall_fmap. eapply Forall_impl; [exact H|]. intros [m []] Hm; cbn; [done|].
    destruct (Hm eq_refl) as [Hd _]. intros E. cbn in Hd. by rewrite E in Hd. }
  destruct messages as [|m0 ms0]; [reflexivity|]. rewrite split_on_join by done.
  rewrite filter_all by done. clear Hsep Hne.
  induction H as [|[m b] ms Hm Hms IH]; [done|]. rewrite fmap_cons. cbn [omap list_omap].
  assert (packet_message (encode_message (m, b)) = Some (m, b)) as ->; [|by rewrite IH].
  destruct b; cbn [encode_message fst snd].
  - unfold packet_message, polling_encode_binary, polling_decode_binary.
    rewrite !decide_True by done. change (drop 1 ("b"%char :: base64_encode m)) with (base64_encode m).
    by rewrite base64_decode_encode.
  - destruct (Hm eq_refl) as [Hd _]. destruct m as [|c m]; [done|]. cbn in Hd |- *.
    rewrite decide_False; [done|]. by intros ->.
Qed.

Lemma polling_body_roundtrip_witness :
  let messages := [(bs "40", false); (["000"; "255"; "030"]%char, true); (bs "2[1]", false)] in
  omap packet_message (polling_split_payload (join_packets (encode_message <$> messages))) = messages.
Proof.
  intros messages. apply (polling_body_roundtrip messages).
  repeat apply Forall_cons_2; [..|constructor]; intros Hb; try discriminate Hb;
    (split; [reflexivity|apply (bool_decide_unpack (_ ∉ _)); vm_compute; exact I]).
Defined.

(** The unit tests of the repository (tests/test_engineio_client.cpp), evaluated. *)
Module Examples.
Example rejects_malformed :
  (fun packet => (polling_decode_binary (bs packet) []).2)
    <$> ["4hello"; "b???"; "b!!!!"; "b!AAA"; "bA!AA"; "bAA!A"; "bAAA!"]%string
  = [false; false; false; false; false; false; false].
Proof. vm_compute. reflexivity. Qed.

Example ignores_empty_packets :
  polling_split_payload (record_separator :: "2"%char :: [record_separator]) = [bs "2"].
Proof. vm_compute. reflexivity. Qed.

(** Padding is not checked: it is accepted in front of a last character and in
    the middle of the text. *)
Example lenient_padding :
  base64_decode (bs "AA=A") [] = (["000"; "000"]%char, true) /\
  base64_decode (bs "Zg==Zg==") [] = (bs "ff", true).
Proof. vm_compute. split; reflexivity. Qed.

(** A group that is refused leaves the groups before it in the out-parameter. *)
Example partial_output : base64_decode (bs "Zm9v!AAA") [] = (bs "foo", false).
Proof. vm_compute. reflexivity. Qed.
End Examples.
