(* ===== verification/Url.v ===== *)
(** * URLs: parsing, the Engine.IO endpoint and the proxy

    src/url_parse.cpp, src/engineio_url.cpp and src/proxy.cpp, with the
    round trips that connect them: what [build_engineio_url] composes,
    [parse_ws_url] takes apart, and a server reads the query back. *)

From S2P Require Export Polling.
From stdpp Require Import options.
#[local] Set Default Proof Using "Type*".
Local Open Scope Z_scope.

(** ** [parse_ws_url] *)

Record url_parts : Type := mk_url {
  scheme : bstr;
  host : bstr;
  port : bstr;
  target : bstr;
  tls : bool;
}.

Definition is_tls_scheme (s : bstr) : bool :=
  if decide (s = bs "wss") then true else if decide (s = bs "https") then true else false.

(** The position of the colon that separates the port, if the code finds one:
    the last colon, and behind a closing bracket the first one after it. *)
Definition port_colon (authority : bstr) : option nat :=
  match rfind_char authority ":" with
  | Some colon =>
      match find_char authority "]" 0 with
      | Some bracket => if (bracket <? colon)%nat then find_char authority ":" bracket else Some colon
      | None => Some colon
      end
  | None => None
  end.

Definition split_authority (tls : bool) (authority : bstr) : bstr * bstr :=
  match port_colon authority with
  | Some colon => (take colon authority, drop (S colon) authority)
  | None => (authority, if tls then bs "443" else bs "80")
  end.

Definition parse_ws_url (url : bstr) : outcome url_parts :=
  match find_str url "://" with
  | None => Throw (invalid_argument (bs "sioxx: invalid url, missing scheme: " ++ url))
  | Some scheme_end =>
      let scheme := take scheme_end url in
      let tls := is_tls_scheme scheme in
      let host_start := (scheme_end + 3)%nat in
      let path_start := find_char url "/" host_start in
      let authority := match path_start with
                       | None => drop host_start url
                       | Some p => substr url host_start (p - host_start)
                       end in
      let target := match path_start with None => bs "/" | Some p => drop p url end in
      let '(host, port) := split_authority tls authority in
      Ok (mk_url scheme host port target tls)
  end.

(** ** [build_engineio_url] *)

Definition hex_digit (d : Z) : ascii := if d <? 10 then char_of (48 + d) else char_of (55 + d).

Definition unreserved (ch : ascii) : bool :=
  isalnum ch || bool_decide (ch ∈ ["-"; "."; "_"; "~"]%char).

Definition encode_char (ch : ascii) : bstr :=
  if unreserved ch then [ch] else ["%"%char; hex_digit (code ch / 16); hex_digit (code ch mod 16)].

Definition encode_query_component (value : bstr) : bstr := value ≫= encode_char.

(** [url] after the scheme was normalised. *)
Definition normalize_scheme (uri : bstr) : bstr :=
  let scheme := match find_str uri "://" with None => [] | Some scheme_end => take scheme_end uri end in
  if decide (scheme = bs "http") then bs "ws" ++ drop 4 uri
  else if decide (scheme = bs "https") then bs "wss" ++ drop 5 uri
  else if decide (scheme <> bs "ws" /\ scheme <> bs "wss") then bs "ws://" ++ uri
  else uri.

(** [url.find("://") + 3]: the normalised url has a scheme. *)
Definition authority_start (url : bstr) : nat := (default 0 (find_str url "://") + 3)%nat.

Definition authority_end (url : bstr) : nat :=
  let path_start := find_char url "/" (authority_start url) in
  let query_start := find_char url "?" (authority_start url) in
  Nat.min (default (length url) path_start) (default (length url) query_start).

Definition normalize_path (path : bstr) : bstr :=
  let p := match path with [] => bs "/socket.io/" | _ => path end in
  let p := if decide (head p = Some "/"%char) then p else "/"%char :: p in
  if decide (last p = Some "/"%char) then p else p ++ ["/"%char].

Definition is_reserved_key (key : bstr) : bool :=
  bool_decide (key = bs "EIO") || bool_decide (key = bs "transport") || bool_decide (key = bs "sid").

(** The loop over the query map, in key order. *)
Fixpoint append_query (base : bstr) (query : list (bstr * bstr)) : outcome bstr :=
  match query with
  | [] => Ok base
  | (key, value) :: query' =>
      if is_reserved_key key then
        Throw (invalid_argument (bs "sioxx: reserved Engine.IO query parameter: " ++ key))
      else append_query (base ++ bs "&" ++ encode_query_component key ++ bs "=" ++ encode_query_component value) query'
  end.

Definition build_engineio_url (uri path : bstr) (query : list (bstr * bstr)) (transport : bstr) : outcome bstr :=
  let url := normalize_scheme uri in
  let base := substr url 0 (authority_end url) in
  let base := base ++ normalize_path path in
  let base := base ++ bs "?EIO=4&transport=" ++ encode_query_component transport in
  append_query base query.

(** ** The proxy *)

Record proxy_config : Type := mk_proxy { endpoint : url_parts; authorization : bstr }.

Definition make_proxy_config (uri username password : bstr) : outcome (option proxy_config) :=
  match uri with
  | [] => Ok None
  | _ =>
      let has_query := match find_str uri "://" with
                       | Some scheme_end => bool_decide (is_Some (find_first_of uri (bs "?#") (scheme_end + 3)))
                       | None => false
                       end in
      if has_query then Throw (invalid_argument "sioxx: proxy URI must not contain a query or fragment")
      else
        endpoint ← parse_ws_url uri;
        if decide (scheme endpoint <> bs "http") then Throw (invalid_argument "sioxx: proxy URI must use http://")
        else if decide (target endpoint <> bs "/") then Throw (invalid_argument "sioxx: proxy URI must not contain a path")
        else
          let authorization :=
            if bool_decide (username = []) && bool_decide (password = []) then []
            else bs "Basic " ++ base64_encode (username ++ bs ":" ++ password) in
          Ok (Some (mk_proxy endpoint authorization))
  end.

Definition authority (url : url_parts) : bstr :=
  let default_port := (negb (tls url) && bool_decide (port url = bs "80")) || (tls url && bool_decide (port url = bs "443")) in
  if default_port then host url else host url ++ bs ":" ++ port url.

Definition connect_authority (url : url_parts) : bstr := host url ++ bs ":" ++ port url.

Definition absolute_http_target (url : url_parts) (target : bstr) : bstr :=
  (if tls url then bs "https://" else bs "http://") ++ authority url ++ target.

(** ** Lemmas: parsing *)

Lemma find_scheme sch rest : ":"%char ∉ sch -> find_str (sch ++ bs "://" ++ rest) "://" = Some (length sch).
Proof. apply (find_str_app sch ":"%char ["/"; "/"]%char rest). Qed.

Lemma parse_authority sch auth tgt :
  ":"%char ∉ sch -> "/"%char ∉ auth -> tgt = [] \/ head tgt = Some "/"%char ->
  parse_ws_url (sch ++ bs "://" ++ auth ++ tgt) =
  let '(h, p) := split_authority (is_tls_scheme sch) auth in
  Ok (mk_url sch h p (if decide (tgt = []) then bs "/" else tgt) (is_tls_scheme sch)).
Proof.
  intros Hs Ha Ht. unfold parse_ws_url. rewrite find_scheme by done.
  rewrite take_app_exact by done. cbv zeta.
  set (pre := sch ++ bs "://"). assert (length sch + 3 = length pre)%nat as ->.
  { unfold pre. rewrite length_app. reflexivity. }
  replace (sch ++ bs "://" ++ auth ++ tgt) with (pre ++ auth ++ tgt) by (unfold pre; by rewrite <-app_assoc).
  destruct Ht as [->|Ht].
  - rewrite app_nil_r. unfold find_char. rewrite drop_app_length.
    rewrite (proj2 (find_c_None _ _)) by done. reflexivity.
  - destruct tgt as [|c tgt]; [done|]. injection Ht as ->.
    rewrite find_char_app by done. cbn [fmap]. unfold substr. rewrite drop_app_length.
    replace (length pre + length auth - length pre)%nat with (length auth) by lia.
    rewrite take_app_length. rewrite (app_assoc pre auth). rewrite drop_app_exact by (by rewrite length_app).
    destruct (split_authority _ _). reflexivity.
Qed.

(** A host name or address, or an address literal in brackets. *)
Definition host_ok (h : bstr) : Prop :=
  "/"%char ∉ h /\ ("]"%char ∉ h \/ exists pre, h = pre ++ ["]"%char] /\ "]"%char ∉ pre).
Definition port_ok (p : bstr) : Prop := "/"%char ∉ p /\ ":"%char ∉ p.

Lemma find_char_None s c : c ∉ s -> find_char s c 0 = None.
Proof. intros. unfold find_char. rewrite drop_0. by rewrite (proj2 (find_c_None _ _)). Qed.

Lemma port_colon_port h p : host_ok h -> port_ok p -> port_colon (h ++ ":"%char :: p) = Some (length h).
Proof.
  intros [_ Hh] [_ Hp]. unfold port_colon. rewrite rfind_char_last by done.
  destruct Hh as [Hh|(pre & -> & Hpre)].
  - destruct (find_char (h ++ ":"%char :: p) "]" 0) as [b|] eqn:E; [|done].
    destruct (Nat.ltb_spec b (length h)); [|done]. exfalso. apply Hh.
    unfold find_char in E. rewrite drop_0 in E.
    destruct (find_c "]" (h ++ ":"%char :: p)) as [n|] eqn:En; [|done]. injection E as <-.
    apply find_c_Some in En as (l & k & E & <- & _).
    apply list_elem_of_lookup_2 with (i := length l).
    rewrite <-(lookup_app_l h (":"%char :: p)) by lia. rewrite E. by apply list_lookup_middle.
  - rewrite <-app_assoc. cbn [app].
    pose proof (find_char_app [] pre (":"%char :: p) "]" 0 eq_refl Hpre) as E.
    cbn [app length Nat.add] in E. rewrite E.
    rewrite length_app. cbn [length]. destruct (Nat.ltb_spec (length pre) (length pre + 1)); [|lia].
    apply (find_char_app pre ["]"%char] p ":" (length pre)); [done|].
    apply not_elem_of_cons. split; [done|apply not_elem_of_nil].
Qed.

Lemma split_authority_port t h p :
  host_ok h -> port_ok p -> split_authority t (h ++ bs ":" ++ p) = (h, p).
Proof.
  intros Hh Hp. unfold split_authority. change (bs ":" ++ p) with (":"%char :: p).
  rewrite port_colon_port by done. rewrite take_app_length. f_equal.
  rewrite cons_middle, app_assoc. apply drop_app_exact. rewrite length_app. simpl. lia.
Qed.

Lemma split_authority_default t h :
  ":"%char ∉ h -> split_authority t h = (h, if t then bs "443" else bs "80").
Proof. intros Hh. unfold split_authority, port_colon. by rewrite (proj2 (rfind_char_None _ _)). Qed.

(** ** Lemmas: the query *)

Definition hex_value (c : ascii) : option Z :=
  if isdigit c then Some (code c - 48)
  else if (65 <=? code c) && (code c <=? 70) then Some (code c - 55)
  else None.

(** A reference reader of percent-encoded text. *)
Fixpoint percent_decode (s : bstr) : option bstr :=
  match s with
  | [] => Some []
  | c :: s' =>
      if decide (c = "%"%char) then
        match s' with
        | h :: l :: s'' =>
            match hex_value h, hex_value l with
            | Some a, Some b => (char_of (16 * a + b) ::.) <$> percent_decode s''
            | _, _ => None
            end
        | _ => None
        end
      else (c ::.) <$> percent_decode s'
  end.

Definition read_pair (s : bstr) : option (bstr * bstr) :=
  match find_c "=" s with
  | Some n => k ← percent_decode (take n s); v ← percent_decode (drop (S n) s); Some (k, v)
  | None => None
  end.

(** What a server reads: the pairs between ampersands. *)
Definition read_query (q : bstr) : option (list (bstr * bstr)) := mapM read_pair (split_on "&" q).

Definition query_char (c : ascii) : bool := unreserved c || bool_decide (c = "%"%char).

(** What is true of the encoding of each single character. *)
Definition encode_char_good (c : ascii) : bool :=
  forallb query_char (encode_char c) &&
  (if unreserved c then negb (bool_decide (c = "%"%char))
   else bool_decide (hex_value (hex_digit (code c / 16)) = Some (code c / 16)) &&
        bool_decide (hex_value (hex_digit (code c mod 16)) = Some (code c mod 16))).

Lemma encode_char_table c : encode_char_good c = true.
Proof. apply (char_table encode_char_good). vm_compute. reflexivity. Qed.

Lemma percent_decode_char c s : percent_decode (encode_char c ++ s) = (c ::.) <$> percent_decode s.
Proof.
  pose proof (encode_char_table c) as H. unfold encode_char_good, encode_char in *.
  apply andb_prop in H as [_ H]. destruct (unreserved c); cbn [app percent_decode].
  - apply negb_true_iff, bool_decide_eq_false in H. by rewrite decide_False.
  - apply andb_prop in H as [Ha%bool_decide_eq_true Hb%bool_decide_eq_true].
    rewrite decide_True by done. rewrite Ha, Hb. rewrite <-(Z.div_mod (code c) 16) by lia. by rewrite char_of_code.
Qed.

Lemma percent_decode_encode s : percent_decode (encode_query_component s) = Some s.
Proof.
  unfold encode_query_component. induction s as [|c s IH]; [done|].
  cbn [mbind list_bind]. rewrite percent_decode_char. by rewrite IH.
Qed.

Lemma encode_query_component_chars s : Forall (fun c => query_char c = true) (encode_query_component s).
Proof.
  unfold encode_query_component. induction s as [|c s IH]; [constructor|]. cbn [mbind list_bind].
  apply Forall_app. split; [|done]. pose proof (encode_char_table c) as [H _]%andb_prop.
  apply Forall_forall. intros x Hx%list_elem_of_In. by apply (proj1 (forallb_forall _ _) H).
Qed.

Lemma query_char_notin c s : query_char c = false -> c ∉ encode_query_component s.
Proof.
  intros Hc Hin. pose proof (encode_query_component_chars s) as H. rewrite Forall_forall in H.
  specialize (H c Hin). congruence.
Qed.

Definition param (kv : bstr * bstr) : bstr :=
  encode_query_component kv.1 ++ bs "=" ++ encode_query_component kv.2.

Lemma append_query_ok base query :
  forallb (fun kv => negb (is_reserved_key kv.1)) query = true ->
  append_query base query = Ok (base ++ (query ≫= fun kv => "&"%char :: param kv)).
Proof.
  revert base. induction query as [|[k v] query IH]; intros base; cbn [append_query forallb fst].
  - intros _. cbn. by rewrite app_nil_r.
  - destruct (is_reserved_key k); [done|]. cbn [negb andb]. intros H. rewrite IH by done.
    f_equal. rewrite bind_cons. unfold param. cbn [fst snd app]. by rewrite <-!app_assoc.
Qed.

Lemma append_query_reserved base q1 k v q2 :
  forallb (fun kv => negb (is_reserved_key kv.1)) q1 = true -> is_reserved_key k = true ->
  append_query base (q1 ++ (k, v) :: q2)
  = Throw (invalid_argument (bs "sioxx: reserved Engine.IO query parameter: " ++ k)).
Proof.
  intros Hq Hk. revert base Hq. induction q1 as [|[k' v'] q1 IH]; intros base; cbn [append_query forallb fst app].
  - intros _. by rewrite Hk.
  - destruct (is_reserved_key k'); [done|]. cbn [negb andb]. intros H. by rewrite IH.
Qed.

(** Before the first occurrence of [c] there is no [c]. *)
Lemma take_find_notin c s n : (n <= default (length s) (find_c c s))%nat -> c ∉ take n s.
Proof.
  destruct (find_c c s) as [m|] eqn:E; cbn; unfold id; intros Hn.
  - apply find_c_Some in E as (l & k & -> & <- & Hl). rewrite take_app_le by done.
    intros Hin. by eapply Hl, subseteq_take.
  - apply find_c_None in E. intros Hin. by eapply E, subseteq_take.
Qed.

Lemma base_shape ws rest :
  ":"%char ∉ ws ->
  exists auth, substr (ws ++ bs "://" ++ rest) 0 (authority_end (ws ++ bs "://" ++ rest)) = ws ++ bs "://" ++ auth /\
    "/"%char ∉ auth /\ "?"%char ∉ auth /\ exists more, rest = auth ++ more /\ (more = [] \/ head more = Some "/"%char \/ head more = Some "?"%char).
Proof.
  intros Hws. set (url := ws ++ bs "://" ++ rest).
  assert (url = (ws ++ bs "://") ++ rest) as Hurl by (unfold url; by rewrite <-app_assoc).
  assert (authority_start url = length (ws ++ bs "://")) as Hstart.
  { unfold authority_start, url. rewrite find_scheme by done. rewrite length_app. reflexivity. }
  assert (forall c, find_char url c (authority_start url) = (fun k => (length (ws ++ bs "://") + k)%nat) <$> find_c c rest) as Hfind.
  { intros c. unfold find_char. rewrite Hstart, Hurl. by rewrite drop_app_length. }
  set (m := Nat.min (default (length rest) (find_c "/" rest)) (default (length rest) (find_c "?" rest))).
  assert (authority_end url = length (ws ++ bs "://") + m)%nat as ->.
  { unfold authority_end, m. rewrite !Hfind.
    assert (length url = length (ws ++ bs "://") + length rest)%nat as -> by (rewrite Hurl; by rewrite length_app).
    destruct (find_c "/" rest), (find_c "?" rest); cbn [fmap option_fmap option_map default from_option]; unfold id; lia. }
  exists (take m rest). split_and!.
  - unfold substr. rewrite drop_0, Hurl, take_app_add. by rewrite <-app_assoc.
  - apply take_find_notin. lia.
  - apply take_find_notin. lia.
  - exists (drop m rest). split; [by rewrite take_drop|].
    assert (forall c n, find_c c rest = Some n -> head (drop n rest) = Some c) as Hh.
    { intros c n (l & k & -> & <- & _)%find_c_Some. by rewrite drop_app_length. }
    unfold m. destruct (find_c "/" rest) as [n|] eqn:E1, (find_c "?" rest) as [n'|] eqn:E2;
      cbn [default from_option]; unfold id.
    + destruct (Nat.min_spec n n') as [[_ ->]|[_ ->]]; auto.
    + apply find_c_Some in E1 as E. destruct E as (l & k & E & Hl & _).
      rewrite Nat.min_l by (rewrite E, length_app; lia). auto.
    + apply find_c_Some in E2 as E. destruct E as (l & k & E & Hl & _).
      rewrite Nat.min_r by (rewrite E, length_app; lia). auto.
    + left. apply drop_ge. lia.
Qed.

(** The scheme the connection uses, and the rest of the address. *)
Definition ws_scheme (uri : bstr) : bstr * bstr :=
  match find_str uri "://" with
  | Some n =>
      let sch := take n uri in
      if decide (sch = bs "http" \/ sch = bs "ws") then (bs "ws", drop (n + 3) uri)
      else if decide (sch = bs "https" \/ sch = bs "wss") then (bs "wss", drop (n + 3) uri)
      else (bs "ws", uri)
  | None => (bs "ws", uri)
  end.

Lemma normalize_scheme_shape uri :
  normalize_scheme uri = (ws_scheme uri).1 ++ bs "://" ++ (ws_scheme uri).2 /\
  ((ws_scheme uri).1 = bs "ws" \/ (ws_scheme uri).1 = bs "wss").
Proof.
  unfold normalize_scheme, ws_scheme. destruct (find_str uri "://") as [n|] eqn:E.
  - apply find_str_Some in E as (l & k & -> & <-). rewrite take_app_length.
    assert (drop (length l + 3) (l ++ bs "://" ++ k) = k) as Ek.
    { rewrite app_assoc. apply drop_app_exact. rewrite length_app. reflexivity. }
    rewrite Ek.
    destruct (decide (l = bs "http")) as [->|H1];
      [rewrite decide_True by auto; split; [reflexivity|by left]|].
    destruct (decide (l = bs "https")) as [->|H2];
      [rewrite decide_False, decide_True by naive_solver; split; [reflexivity|by right]|].
    destruct (decide (l = bs "ws")) as [->|H3];
      [rewrite decide_False, decide_True by naive_solver; split; [reflexivity|by left]|].
    destruct (decide (l = bs "wss")) as [->|H4];
      [rewrite decide_False, decide_False, decide_True by naive_solver; split; [reflexivity|by right]|].
    rewrite decide_True, decide_False, decide_False by naive_solver. split; [reflexivity|by left].
  - rewrite !decide_False by done. rewrite decide_True by done. split; [reflexivity|by left].
Qed.

Lemma read_pair_param kv : read_pair (param kv) = Some kv.
Proof.
  unfold read_pair, param. change (bs "=" ++ ?x) with ("="%char :: x).
  rewrite find_c_first by (by apply query_char_notin). rewrite take_app_length, percent_decode_encode.
  cbn [mbind option_bind]. rewrite cons_middle, app_assoc.
  rewrite drop_app_exact by (rewrite length_app; cbn [length]; lia).
  rewrite percent_decode_encode. by destruct kv.
Qed.

Lemma param_no_ampersand kv : "&"%char ∉ param kv.
Proof.
  unfold param. rewrite !not_elem_of_app. split_and!; [by apply query_char_notin| |by apply query_char_notin].
  apply not_elem_of_cons. split; [done|apply not_elem_of_nil].
Qed.

Lemma split_params kv query :
  split_on "&" (param kv ++ (query ≫= fun kv => "&"%char :: param kv)) = param <$> (kv :: query).
Proof.
  revert kv. induction query as [|kv' query IH]; intros kv.
  - cbn [mbind list_bind]. rewrite app_nil_r. by rewrite split_on_notin by apply param_no_ampersand.
  - rewrite bind_cons. rewrite <-app_comm_cons. rewrite split_on_app by apply param_no_ampersand.
    by rewrite IH.
Qed.

Lemma read_params l : mapM read_pair (param <$> l) = Some l.
Proof.
  induction l as [|kv l IH]; [done|]. cbn [fmap list_fmap mapM]. rewrite read_pair_param.
  cbn [mbind option_bind]. cbn [fmap] in IH. by rewrite IH.
Qed.

Definition no_query (uri : bstr) : Prop :=
  forall n c, find_str uri "://" = Some n -> c ∈ drop (n + 3) uri -> c <> "?"%char /\ c <> "#"%char.

Lemma no_query_spec uri n :
  find_str uri "://" = Some n -> (find_first_of uri (bs "?#") (n + 3) = None <-> no_query uri).
Proof.
  intros E. unfold find_first_of, no_query. split.
  - intros H n' c E' Hc. rewrite E in E'. injection E' as <-.
    apply fmap_None in H. rewrite find_set_None in H. specialize (H c Hc).
    change (bs "?#") with ["?"; "#"]%char in H. set_solver.
  - intros H. rewrite (proj2 (find_set_None _ _)); [done|]. intros c Hc Hin.
    destruct (H n c E Hc). change (bs "?#") with ["?"; "#"]%char in Hin. set_solver.
Qed.

(** ** Properties *)

(** Parsing takes apart what a URL is composed of: scheme, host or
    bracketed address, port, and target; without a port the scheme's default is
    taken, without a target the root. *)
Theorem parse_ws_url_parts (sch h p tgt : bstr) :
  ":"%char ∉ sch -> host_ok h -> port_ok p -> tgt = [] \/ head tgt = Some "/"%char ->
  let t := is_tls_scheme sch in
  let tgt' := if decide (tgt = []) then bs "/" else tgt in
  parse_ws_url (sch ++ bs "://" ++ (h ++ bs ":" ++ p) ++ tgt) = Ok (mk_url sch h p tgt' t) /\
  (":"%char ∉ h -> parse_ws_url (sch ++ bs "://" ++ h ++ tgt)
                   = Ok (mk_url sch h (if t then bs "443" else bs "80") tgt' t)).
Proof.
  intros Hs Hh Hp Ht t tgt'. split.
  - rewrite parse_authority; [by rewrite split_authority_port|done| |done].
    rewrite not_elem_of_app. split; [apply Hh|]. apply not_elem_of_cons. split; [done|apply Hp].
  - intros Hc. rewrite parse_authority; [by rewrite split_authority_default|done|apply Hh|done].
Qed.

(** A bracketed address without a port is cut at its last colon: host and
    port are the two halves of the literal, whatever the address. *)
Theorem ipv6_without_port_is_cut (sch a b : bstr) :
  ":"%char ∉ sch -> "/"%char ∉ a ++ b -> "]"%char ∉ a ++ b -> ":"%char ∉ b ->
  parse_ws_url (sch ++ bs "://" ++ bs "[" ++ a ++ bs ":" ++ b ++ bs "]")
  = Ok (mk_url sch (bs "[" ++ a) (b ++ bs "]") "/" (is_tls_scheme sch)).
Proof.
  rewrite !not_elem_of_app. intros Hs [Ha Hb] [Ha' Hb'] Hc.
  change (bs "[" ++ a ++ bs ":" ++ b ++ bs "]") with (("["%char :: a) ++ ":"%char :: (b ++ ["]"%char])).
  rewrite <-(app_nil_r (("["%char :: a) ++ _)). rewrite parse_authority; [|done| |by left].
  2:{ rewrite not_elem_of_app, !not_elem_of_cons, not_elem_of_app, not_elem_of_cons.
      repeat split; try done. apply not_elem_of_nil. }
  unfold split_authority, port_colon. rewrite rfind_char_last.
  2:{ rewrite not_elem_of_app, not_elem_of_cons. repeat split; try done. apply not_elem_of_nil. }
  replace (("["%char :: a) ++ ":"%char :: b ++ ["]"%char]) with (("["%char :: a ++ ":"%char :: b) ++ "]"%char :: [])
    by (cbn [app]; by rewrite <-app_assoc).
  unfold find_char. rewrite drop_0, find_c_first.
  2:{ rewrite !not_elem_of_cons, not_elem_of_app, not_elem_of_cons. repeat split; done. }
  cbn [fmap option_fmap option_map Nat.add]. rewrite (proj2 (Nat.ltb_ge _ _)).
  2:{ cbn [length]. rewrite length_app. cbn [length]. lia. }
  cbn [app]. rewrite <-app_assoc. change ("["%char :: a ++ ?x) with (("["%char :: a) ++ x).
  rewrite take_app_length. f_equal. f_equal.
  change ((":"%char :: b) ++ ["]"%char]) with (":"%char :: (b ++ ["]"%char])).
  rewrite (cons_middle ":"%char), app_assoc. apply drop_app_exact. rewrite length_app. cbn [length]. lia.
Qed.

(** [C39] The Engine.IO endpoint of an address: a WebSocket scheme with the
    security of the address, the authority up to its path or query, the
    normalised path, and a query that a server reads back as the protocol
    version, the transport and the user's parameters in key order. *)
Theorem engineio_url_read_back (uri path transport url : bstr) (query : list (bstr * bstr)) :
  build_engineio_url uri path query transport = Ok url ->
  exists auth more q,
    (ws_scheme uri).2 = auth ++ more /\
    (more = [] \/ head more = Some "/"%char \/ head more = Some "?"%char) /\
    "/"%char ∉ auth /\ "?"%char ∉ auth /\
    url = (ws_scheme uri).1 ++ bs "://" ++ auth ++ normalize_path path ++ bs "?" ++ q /\
    read_query q = Some ((bs "EIO", bs "4") :: (bs "transport", transport) :: query).
Proof.
  unfold build_engineio_url. destruct (normalize_scheme_shape uri) as [-> Hws].
  destruct (base_shape (ws_scheme uri).1 (ws_scheme uri).2) as (auth & -> & Ha & Hq & more & Hm & Hh).
  { destruct Hws as [-> | ->]; apply (bool_decide_unpack (_ ∉ _)); done. }
  intros Hok.
  destruct (forallb (fun kv => negb (is_reserved_key kv.1)) query) eqn:Hr.
  2:{ exfalso. revert Hok. generalize (((ws_scheme uri).1 ++ bs "://" ++ auth) ++ normalize_path path).
      intros base. generalize (base ++ bs "?EIO=4&transport=" ++ encode_query_component transport). clear -Hr.
      induction query as [|[k v] query IH]; intros b; [done|]. cbn [append_query forallb fst] in *.
      destruct (is_reserved_key k); [done|]. by apply IH. }
  rewrite append_query_ok in Hok by done. injection Hok as <-.
  set (q := param (bs "EIO", bs "4") ++ (((bs "transport", transport) :: query) ≫= fun kv => "&"%char :: param kv)).
  exists auth, more, q. split_and!; [done..| |].
  - unfold q. rewrite bind_cons. unfold param at 1 2. rewrite <-!app_assoc. reflexivity.
  - unfold read_query, q. rewrite split_params. apply read_params.
Qed.

(** A query that names a key of the protocol is refused, whatever the
    address: the exception names the first such key. *)
Theorem engineio_url_reserved (uri path transport k v : bstr) (q1 q2 : list (bstr * bstr)) :
  forallb (fun kv => negb (is_reserved_key kv.1)) q1 = true -> k ∈ [bs "EIO"; bs "transport"; bs "sid"] ->
  build_engineio_url uri path (q1 ++ (k, v) :: q2) transport
  = Throw (invalid_argument (bs "sioxx: reserved Engine.IO query parameter: " ++ k)).
Proof.
  intros Hq Hk. apply append_query_reserved; [done|]. unfold is_reserved_key. rewrite !orb_true_iff, !bool_decide_eq_true.
  revert Hk. rewrite !elem_of_cons. intros [?|[?|[?|[]%elem_of_nil]]]; auto.
Qed.

(** The absolute target sent to a proxy names the same endpoint: parsing
    it gives host, port and security back, also where the default port is left out. *)
Theorem absolute_target_roundtrip (url : url_parts) (tgt : bstr) :
  host_ok (host url) -> port_ok (port url) -> head tgt = Some "/"%char ->
  (port url = (if tls url then bs "443" else bs "80") -> ":"%char ∉ host url) ->
  parse_ws_url (absolute_http_target url tgt)
  = Ok (mk_url (if tls url then bs "https" else bs "http") (host url) (port url) tgt (tls url)).
Proof.
  intros Hh Hp Ht Hd. unfold absolute_http_target, authority.
  set (sch := if tls url then bs "https" else bs "http").
  assert ((if tls url then bs "https://" else bs "http://") = sch ++ bs "://") as -> by (unfold sch; by destruct (tls url)).
  assert (":"%char ∉ sch) as Hs by (unfold sch; destruct (tls url); apply (bool_decide_unpack (_ ∉ _)); done).
  assert (is_tls_scheme sch = tls url) as Et by (unfold sch; by destruct (tls url)).
  assert (tgt <> []) as Hne by (by intros ->).
  destruct (_ || _) eqn:E; rewrite <-app_assoc.
  - assert (port url = (if tls url then bs "443" else bs "80")) as Hport.
    { apply orb_prop in E as [[H1 H2]%andb_prop|[H1 H2]%andb_prop]; apply bool_decide_eq_true in H2;
        destruct (tls url); done. }
    rewrite (parse_authority sch (host url) tgt); [|done|apply Hh|by right].
    rewrite Et, split_authority_default by auto. rewrite decide_False by done. by rewrite <-Hport.
  - rewrite parse_authority; [|done| |by right].
    + rewrite split_authority_port by done. rewrite decide_False by done. by rewrite Et.
    + rewrite not_elem_of_app. split; [apply Hh|]. apply not_elem_of_cons. split; [done|apply Hp].
Qed.

(** Which proxy addresses are accepted: an http address without query,
    fragment or path; the endpoint is what the address parses to, and the
    authorization decodes to the credentials, absent exactly when both are. *)
Theorem make_proxy_config_spec (uri username password : bstr) (cfg : proxy_config) :
  make_proxy_config uri username password = Ok (Some cfg) <->
  uri <> [] /\ no_query uri /\ parse_ws_url uri = Ok (endpoint cfg) /\
  scheme (endpoint cfg) = bs "http" /\ target (endpoint cfg) = bs "/" /\
  (if decide (username = [] /\ password = []) then authorization cfg = []
   else exists encoded, authorization cfg = bs "Basic " ++ encoded /\
        encoded = base64_encode (username ++ bs ":" ++ password) /\
        forall out, base64_decode encoded out = (username ++ bs ":" ++ password, true)).
Proof.
  set (auth := if bool_decide (username = []) && bool_decide (password = []) then []
               else bs "Basic " ++ base64_encode (username ++ bs ":" ++ password)).
  assert (forall a, a = auth <-> if decide (username = [] /\ password = []) then a = []
     else exists encoded, a = bs "Basic " ++ encoded /\ encoded = base64_encode (username ++ bs ":" ++ password) /\
        forall out, base64_decode encoded out = (username ++ bs ":" ++ password, true)) as Hauth.
  { intros a. unfold auth. destruct (decide (username = [] /\ password = [])) as [[-> ->]|Hne].
    - done.
    - rewrite <-!bool_decide_and, bool_decide_eq_false_2 by done. split; [|naive_solver].
      intros ->. eexists. split_and!; [done..|]. intros out. apply base64_decode_encode. }
  rewrite <-Hauth. unfold make_proxy_config. destruct uri as [|c uri]; [naive_solver|].
  set (u := c :: uri). fold auth. destruct (find_str u "://") as [n|] eqn:E.
  2:{ assert (parse_ws_url u = Throw (invalid_argument (bs "sioxx: invalid url, missing scheme: " ++ u))) as ->
        by (unfold parse_ws_url; by rewrite E). naive_solver. }
  rewrite <-(no_query_spec u n E). destruct (find_first_of u (bs "?#") (n + 3)) as [k|].
  - rewrite bool_decide_eq_true_2 by (by eexists). split; [done|]. by intros (_ & ? & _).
  - rewrite bool_decide_eq_false_2 by (intros [? ?]; done).
    destruct (parse_ws_url u) as [ep|e]; cbn [mbind outcome_bind]; [|naive_solver].
    destruct (decide (scheme ep <> bs "http")) as [Hs|Hs]; [naive_solver|].
    destruct (decide (target ep <> bs "/")) as [Ht|Ht]; [naive_solver|].
    apply dec_stable in Hs, Ht. destruct cfg as [ep' a]. cbn [endpoint authorization]. naive_solver.
Qed.

(** ** Witnesses *)

Ltac char_notin := apply (bool_decide_unpack (_ ∉ _)); vm_compute; exact I.

Lemma parse_ws_url_parts_witness :
  parse_ws_url "https://[fe80::1]:8443/chat" = Ok (mk_url "https" "[fe80::1]" "8443" "/chat" true).
Proof.
  apply (parse_ws_url_parts "https" "[fe80::1]" "8443" "/chat").
  - char_notin.
  - split; [char_notin|]. right. exists (bs "[fe80::1"). split; [reflexivity|char_notin].
  - split; char_notin.
  - right. reflexivity.
Defined.

Lemma ipv6_without_port_is_cut_witness :
  parse_ws_url "ws://[::1]" = Ok (mk_url "ws" "[:" "1]" "/" false).
Proof. apply (ipv6_without_port_is_cut "ws" ":" "1"); char_notin. Defined.

Lemma engineio_url_read_back_witness :
  exists auth more q,
    bs "host:8080/ignored" = auth ++ more /\
    (more = [] \/ head more = Some "/"%char \/ head more = Some "?"%char) /\
    "/"%char ∉ auth /\ "?"%char ∉ auth /\
    bs "wss://host:8080/io/?EIO=4&transport=polling&a%20b=%26"
      = bs "wss" ++ bs "://" ++ auth ++ normalize_path "io" ++ bs "?" ++ q /\
    read_query q = Some [(bs "EIO", bs "4"); (bs "transport", bs "polling"); (bs "a b", bs "&")].
Proof.
  apply (engineio_url_read_back "https://host:8080/ignored" "io" "polling"
           "wss://host:8080/io/?EIO=4&transport=polling&a%20b=%26" [(bs "a b", bs "&")]).
  vm_compute. reflexivity.
Defined.

Lemma engineio_url_reserved_witness :
  build_engineio_url "ws://h" "" ([(bs "a", bs "1")] ++ (bs "sid", bs "x") :: []) "websocket"
  = Throw (invalid_argument "sioxx: reserved Engine.IO query parameter: sid").
Proof.
  apply (engineio_url_reserved "ws://h" "" "websocket" "sid" "x" [(bs "a", bs "1")] []).
  - reflexivity.
  - apply (bool_decide_unpack (_ ∈ _)). vm_compute. exact I.
Defined.

Lemma absolute_target_roundtrip_witness :
  parse_ws_url "http://example.com/socket.io/?EIO=4" = Ok (mk_url "http" "example.com" "80" "/socket.io/?EIO=4" false).
Proof.
  apply (absolute_target_roundtrip (mk_url "ws" "example.com" "80" "/" false) "/socket.io/?EIO=4").
  - split; [char_notin|]. left. char_notin.
  - split; char_notin.
  - reflexivity.
  - intros _. char_notin.
Defined.

(** Evaluations on the addresses of tests/test_url_parse.cpp and tests/test_proxy.cpp. *)
Module Examples.
Example plain_ws : parse_ws_url "ws://example.com/socket.io/" = Ok (mk_url "ws" "example.com" "80" "/socket.io/" false).
Proof. vm_compute. reflexivity. Qed.

Example proxy_credentials :
  make_proxy_config "http://proxy.example:3128" "user" "secret"
  = Ok (Some (mk_proxy (mk_url "http" "proxy.example" "3128" "/" false) "Basic dXNlcjpzZWNyZXQ=")).
Proof. vm_compute. reflexivity. Qed.

Example proxy_https_refused : is_ok (make_proxy_config "https://proxy.example" "" "") = false.
Proof. vm_compute. reflexivity. Qed.

Example scheme_added : build_engineio_url "localhost:3000" "" [] "websocket" = Ok (bs "ws://localhost:3000/socket.io/?EIO=4&transport=websocket").
Proof. vm_compute. reflexivity. Qed.
End Examples.
