(* ===== verification/Reconnection.v ===== *)
(** * Reconnection delays

    src/reconnection.cpp: exponential backoff with jitter.  The function
    computes in [long double]; its values are rationals here and every operation
    that can round is followed by a parameter [round], of which the
    theorems assume what holds of rounding to nearest: it is monotone, and exact
    on a 63-bit integer times a power of two.  NaN arguments are not covered. *)

From S2P Require Export Prelude.
From Stdlib Require Export QArith Qround.
From Stdlib Require Import Lqa.
From stdpp Require Import options.
#[local] Set Default Proof Using "Type*".
Local Open Scope Q_scope.

(** [std::min] and [std::clamp]. *)
Definition qmin (a b : Q) : Q := if Qlt_le_dec b a then b else a.
Definition clamp (v lo hi : Q) : Q :=
  if Qlt_le_dec v lo then lo else if Qlt_le_dec hi v then hi else v.

(** [std::llround] of a non-negative number. *)
Definition llround (x : Q) : Z := Qfloor (x + (1 # 2)).

Section reconnection.
Context (round : Q -> Q).

Definition backoff_exponent (attempt : Z) : Z :=
  if (attempt <=? 1)%Z then 0%Z else Z.min (attempt - 1) 62.

Definition reconnect_delay_for_attempt (initial_delay max_delay : Z) (jitter_factor : Q) (attempt : Z)
    (jitter_sample : Q) : Z :=
  let initial := Z.max 0 initial_delay in
  let maximum := Z.max 0 max_delay in
  let exponent := backoff_exponent attempt in
  let multiplier := inject_Z (2 ^ exponent) in
  let exponential := qmin (inject_Z maximum) (round (inject_Z initial * multiplier)) in
  let factor := clamp jitter_factor 0 1 in
  let sample := clamp jitter_sample 0 1 in
  let jitter := round (round (1 - factor) + round (round (2 * factor) * sample)) in
  let delayed := qmin (inject_Z maximum) (round (exponential * jitter)) in
  llround delayed.
End reconnection.

(** What the theorems use of rounding to nearest. *)
Class Rounding (round : Q -> Q) : Prop := {
  round_mono x y : x <= y -> round x <= round y;
  round_exact z k : (0 <= z < 2 ^ 63)%Z -> (0 <= k)%Z ->
    round (inject_Z z * inject_Z (2 ^ k)) == inject_Z z * inject_Z (2 ^ k);
}.

(** Exact arithmetic is an instance. *)
#[export] Instance rounding_id : Rounding id.
Proof. split; [done|reflexivity]. Qed.

(** ** Lemmas *)

Lemma qmin_le_l a b : qmin a b <= a.
Proof. unfold qmin. destruct (Qlt_le_dec b a); lra. Qed.
Lemma qmin_le_r a b : qmin a b <= b.
Proof. unfold qmin. destruct (Qlt_le_dec b a); lra. Qed.
Lemma qmin_glb a b c : c <= a -> c <= b -> c <= qmin a b.
Proof. unfold qmin. destruct (Qlt_le_dec b a); lra. Qed.
#[export] Instance qmin_proper : Proper (Qeq ==> Qeq ==> Qeq) qmin.
Proof. intros a a' Ea b b' Eb. unfold qmin. destruct (Qlt_le_dec b a), (Qlt_le_dec b' a'); lra. Qed.
Lemma qmin_mono a b a' b' : a <= a' -> b <= b' -> qmin a b <= qmin a' b'.
Proof. unfold qmin. destruct (Qlt_le_dec b a), (Qlt_le_dec b' a'); lra. Qed.

Lemma clamp_bounds v lo hi : lo <= hi -> lo <= clamp v lo hi <= hi.
Proof. unfold clamp. destruct (Qlt_le_dec v lo), (Qlt_le_dec hi v); lra. Qed.
Lemma clamp_mono v w lo hi : lo <= hi -> v <= w -> clamp v lo hi <= clamp w lo hi.
Proof.
  unfold clamp. destruct (Qlt_le_dec v lo), (Qlt_le_dec hi v), (Qlt_le_dec w lo), (Qlt_le_dec hi w); lra.
Qed.

Lemma llround_mono x y : x <= y -> (llround x <= llround y)%Z.
Proof. intros. apply Qfloor_resp_le. lra. Qed.

#[export] Instance llround_proper : Proper (Qeq ==> eq) llround.
Proof. intros x y E. apply Z.le_antisymm; apply llround_mono; lra. Qed.

Lemma llround_Z z : llround (inject_Z z) = z.
Proof.
  unfold llround. apply Z.le_antisymm.
  - assert (inject_Z (Qfloor (inject_Z z + (1 # 2))) < inject_Z (z + 1)) as H.
    { rewrite inject_Z_plus. eapply Qle_lt_trans; [apply Qfloor_le|]. change (inject_Z 1) with 1. lra. }
    rewrite <-Zlt_Qlt in H. lia.
  - rewrite <-(Qfloor_Z z) at 1. apply Qfloor_resp_le. lra.
Qed.

Lemma backoff_exponent_bounds attempt : (0 <= backoff_exponent attempt <= 62)%Z.
Proof. unfold backoff_exponent. destruct (Z.leb_spec attempt 1); lia. Qed.

Lemma backoff_exponent_mono a b : (a <= b)%Z -> (backoff_exponent a <= backoff_exponent b)%Z.
Proof. unfold backoff_exponent. destruct (Z.leb_spec a 1), (Z.leb_spec b 1); lia. Qed.

Section laws.
Context (round : Q -> Q) `{!Rounding round}.

#[export] Instance round_proper : Proper (Qeq ==> Qeq) round.
Proof. intros x y E. apply Qle_antisym; apply round_mono; lra. Qed.

Lemma round_Z z : (0 <= z < 2 ^ 63)%Z -> round (inject_Z z) == inject_Z z.
Proof.
  intros Hz. pose proof (round_exact z 0 Hz ltac:(lia)) as H.
  assert (inject_Z z * inject_Z (2 ^ 0) == inject_Z z) as E by (change (inject_Z (2 ^ 0)) with 1; lra).
  apply Qle_antisym.
  - rewrite <-E at 2. rewrite <-H. apply round_mono. lra.
  - rewrite <-E at 1. rewrite <-H. apply round_mono. lra.
Qed.

Lemma round_nonneg x : 0 <= x -> 0 <= round x.
Proof. intros Hx. change 0 with (inject_Z 0) at 1. rewrite <-round_Z by lia. by apply round_mono. Qed.
End laws.

Section delay_laws.
Context (round : Q -> Q) `{!Rounding round}.

(** The three stages of the computation. *)
Definition exponential_of (initial maximum : Z) (attempt : Z) : Q :=
  qmin (inject_Z maximum) (round (inject_Z initial * inject_Z (2 ^ backoff_exponent attempt))).
Definition jitter_of (factor sample : Q) : Q :=
  round (round (1 - factor) + round (round (2 * factor) * sample)).
Definition delayed_of (maximum : Z) (exponential jitter : Q) : Q :=
  qmin (inject_Z maximum) (round (exponential * jitter)).

Lemma delay_stages initial_delay max_delay jf attempt js :
  reconnect_delay_for_attempt round initial_delay max_delay jf attempt js
  = llround (delayed_of (Z.max 0 max_delay)
      (exponential_of (Z.max 0 initial_delay) (Z.max 0 max_delay) attempt)
      (jitter_of (clamp jf 0 1) (clamp js 0 1))).
Proof using. reflexivity. Qed.

Lemma inject_nonneg z : (0 <= z)%Z -> 0 <= inject_Z z.
Proof using. intros. change 0 with (inject_Z 0). by rewrite <-Zle_Qle. Qed.

Lemma exponential_nonneg initial maximum attempt :
  (0 <= initial)%Z -> (0 <= maximum)%Z -> 0 <= exponential_of initial maximum attempt.
Proof.
  intros. apply qmin_glb; [by apply inject_nonneg|]. apply (round_nonneg round).
  apply Qmult_le_0_compat; apply inject_nonneg; [done|]. apply Z.pow_nonneg. lia.
Qed.

Lemma exponential_mono initial maximum a b :
  (0 <= initial)%Z -> (a <= b)%Z -> exponential_of initial maximum a <= exponential_of initial maximum b.
Proof.
  intros Hi Hab. apply qmin_mono; [lra|]. apply round_mono.
  rewrite <-!inject_Z_mult, <-Zle_Qle. apply Z.mul_le_mono_nonneg_l; [done|].
  apply Z.pow_le_mono_r; [lia|]. by apply backoff_exponent_mono.
Qed.

Lemma jitter_nonneg f s : 0 <= f <= 1 -> 0 <= s -> 0 <= jitter_of f s.
Proof.
  intros [Hf Hf'] Hs. unfold jitter_of. apply (round_nonneg round).
  assert (0 <= round (1 - f)) by (apply (round_nonneg round); lra).
  assert (0 <= round (round (2 * f) * s)); [|lra].
  apply (round_nonneg round), Qmult_le_0_compat; [|done]. apply (round_nonneg round). lra.
Qed.

Lemma jitter_mono f s s' : 0 <= f <= 1 -> s <= s' -> jitter_of f s <= jitter_of f s'.
Proof.
  intros [Hf _] Hs. unfold jitter_of. apply round_mono.
  assert (0 <= round (2 * f)) by (apply (round_nonneg round); lra).
  assert (round (round (2 * f) * s) <= round (round (2 * f) * s')); [|lra].
  apply round_mono. rewrite !(Qmult_comm (round (2 * f))). by apply Qmult_le_compat_r.
Qed.

Lemma delayed_mono maximum e e' j j' :
  0 <= e <= e' -> 0 <= j <= j' -> delayed_of maximum e j <= delayed_of maximum e' j'.
Proof.
  intros He Hj. apply qmin_mono; [lra|]. apply round_mono. by apply Qmult_le_compat_nonneg.
Qed.

(** Without jitter the factor is exactly one. *)
Lemma jitter_zero f s : f == 0 -> jitter_of f s == 1.
Proof.
  intros Hf. unfold jitter_of.
  assert (E0 : round 0 == 0) by (apply (round_Z round 0); lia).
  assert (E1 : round 1 == 1) by (apply (round_Z round 1); lia).
  assert (1 - f == 1) as -> by lra. assert (2 * f == 0) as -> by lra. rewrite E0, E1.
  assert (0 * s == 0) as -> by lra. rewrite E0. assert (1 + 0 == 1) as -> by lra. done.
Qed.

(** The exponential part is a 63-bit integer times a power of two. *)
Lemma exponential_exact initial maximum attempt :
  (0 <= initial < 2 ^ 63)%Z -> (0 <= maximum < 2 ^ 63)%Z ->
  exponential_of initial maximum attempt == inject_Z (Z.min maximum (initial * 2 ^ backoff_exponent attempt)) /\
  round (exponential_of initial maximum attempt) == exponential_of initial maximum attempt.
Proof.
  intros Hi Hm. pose proof (backoff_exponent_bounds attempt) as Hk. unfold exponential_of.
  set (k := backoff_exponent attempt) in *.
  pose proof (round_exact initial k Hi ltac:(lia)) as Er. unfold qmin.
  destruct (Qlt_le_dec (round (inject_Z initial * inject_Z (2 ^ k))) (inject_Z maximum)) as [H|H];
    rewrite Er in H; rewrite <-inject_Z_mult in H.
  - rewrite <-Zlt_Qlt in H. rewrite Z.min_r by lia. rewrite Er, inject_Z_mult.
    split; [done|]. by rewrite Er.
  - rewrite <-Zle_Qle in H. rewrite Z.min_l by lia. split; [done|]. by apply round_Z.
Qed.
End delay_laws.

(** ** Properties *)

(** The delay is never negative and never above the configured maximum,
    for all arguments: negative durations, attempts of any size, jitter factors
    and samples outside their range. *)
Theorem reconnect_delay_bounds (round : Q -> Q) (HR : Rounding round)
    (initial_delay max_delay attempt : Z) (jitter_factor jitter_sample : Q) :
  (0 <= reconnect_delay_for_attempt round initial_delay max_delay jitter_factor attempt jitter_sample
     <= Z.max 0 max_delay)%Z.
Proof.
  rewrite delay_stages. split.
  - change 0%Z with (llround (inject_Z 0)) at 1. apply llround_mono. apply qmin_glb; [apply inject_nonneg; lia|].
    apply (round_nonneg round). apply Qmult_le_0_compat.
    + apply exponential_nonneg; [done|lia..].
    + apply jitter_nonneg; [done|apply clamp_bounds; lra..].
  - apply (Z.le_trans _ (llround (inject_Z (Z.max 0 max_delay)))); [|by rewrite llround_Z].
    apply llround_mono, qmin_le_l.
Qed.

(** Without jitter the delay is the initial delay doubled for every
    attempt after the first, at most 62 times, and cut at the maximum. *)
Theorem reconnect_delay_backoff (round : Q -> Q) (HR : Rounding round)
    (initial_delay max_delay attempt : Z) (jitter_factor jitter_sample : Q) :
  jitter_factor <= 0 -> (initial_delay < 2 ^ 63)%Z -> (max_delay < 2 ^ 63)%Z ->
  reconnect_delay_for_attempt round initial_delay max_delay jitter_factor attempt jitter_sample
  = Z.min (Z.max 0 max_delay) (Z.max 0 initial_delay * 2 ^ backoff_exponent attempt).
Proof.
  intros Hf Hi Hm. rewrite delay_stages.
  set (i := Z.max 0 initial_delay). set (m := Z.max 0 max_delay).
  destruct (exponential_exact round i m attempt) as [E Er]; [lia..|].
  assert (clamp jitter_factor 0 1 == 0) as Hc.
  { unfold clamp. destruct (Qlt_le_dec jitter_factor 0), (Qlt_le_dec 1 jitter_factor); lra. }
  rewrite <-(llround_Z (Z.min m _)). apply llround_proper. unfold delayed_of.
  rewrite (jitter_zero round) by done. rewrite Qmult_1_r, Er, E.
  unfold qmin. destruct (Qlt_le_dec _ _) as [H|H]; [done|].
  rewrite <-Zle_Qle in H. by rewrite Z.min_l in H |- * by lia.
Qed.

(** The delay grows with the attempt and with the jitter sample. *)
Theorem reconnect_delay_monotone (round : Q -> Q) (HR : Rounding round)
    (initial_delay max_delay attempt attempt' : Z) (jitter_factor sample sample' : Q) :
  (attempt <= attempt')%Z -> sample <= sample' ->
  (reconnect_delay_for_attempt round initial_delay max_delay jitter_factor attempt sample
   <= reconnect_delay_for_attempt round initial_delay max_delay jitter_factor attempt' sample')%Z.
Proof.
  intros Ha Hs. rewrite !delay_stages. apply llround_mono. apply delayed_mono; [done|..]; split.
  - apply exponential_nonneg; [done|lia..].
  - apply exponential_mono; [done|lia..].
  - apply jitter_nonneg; [done|apply clamp_bounds; lra..].
  - apply jitter_mono; [done|apply clamp_bounds; lra|apply clamp_mono; lra].
Qed.

Lemma reconnect_delay_bounds_witness :
  (0 <= reconnect_delay_for_attempt id (-5) 30000 (7 # 2) 100 (-1) <= Z.max 0 30000)%Z.
Proof. apply (reconnect_delay_bounds id rounding_id). Defined.

Lemma reconnect_delay_backoff_witness :
  reconnect_delay_for_attempt id 1000 5000 0 3 (1 # 2) = 4000%Z.
Proof. apply (reconnect_delay_backoff id rounding_id 1000 5000 3 0 (1 # 2)); [lra|lia..]. Defined.

Lemma reconnect_delay_monotone_witness :
  (reconnect_delay_for_attempt id 1000 30000 (1 # 2) 2 (1 # 4)
   <= reconnect_delay_for_attempt id 1000 30000 (1 # 2) 4 (3 # 4))%Z.
Proof. apply (reconnect_delay_monotone id rounding_id); [lia|lra]. Defined.

(** The cases of tests/test_reconnection.cpp. *)
Module Examples.
Example doubles_and_caps :
  (fun attempt => reconnect_delay_for_attempt id 100 500 0 attempt (1 # 2)) <$> [1; 2; 3; 4; 100]%Z
  = [100; 200; 400; 500; 500]%Z.
Proof. vm_compute. reflexivity. Qed.

Example jitter_window :
  (fun sample => reconnect_delay_for_attempt id 1000 5000 (1 # 2) 1 sample) <$> [0; 1 # 2; 1]
  = [500; 1000; 1500]%Z.
Proof. vm_compute. reflexivity. Qed.
End Examples.
