(* ===== verification/AckScheduler.v ===== *)
(** * The deadline worker of timed acknowledgements

    src/ack_scheduler.hpp: a map from acknowledgement ids to deadlines, a set of
    the same pairs ordered by deadline, and a worker that expires them.  Every
    method body runs under the state's mutex and is one function here; the
    worker's loop is [worker_turn], one turn from taking the lock to releasing or
    waiting.  Time points are integers.  Allocation failures are not modelled. *)

From S2P Require Export Prelude.
From stdpp Require Import options.
#[local] Set Default Proof Using "Type*".
Local Open Scope Z_scope.

(** ** State *)

Record scheduler : Type := mk_scheduler {
  deadlines : gmap Z Z;
  ordered : gset (Z * Z);
  stopped : bool;
}.

Definition new_scheduler : scheduler := mk_scheduler ∅ ∅ false.

(** The order of [std::pair<time_point, int>]. *)
Definition entry_ltb (a b : Z * Z) : bool :=
  (a.1 <? b.1) || ((a.1 =? b.1) && (a.2 <? b.2)).

Fixpoint least (l : list (Z * Z)) : option (Z * Z) :=
  match l with
  | [] => None
  | e :: l' => match least l' with
               | None => Some e
               | Some e' => if entry_ltb e' e then Some e' else Some e
               end
  end.

(** [*ordered.begin()] *)
Definition first_entry (s : gset (Z * Z)) : option (Z * Z) := least (elements s).

(** ** Operations *)

(** [emplace] keeps an entry that is already there. *)
Definition emplace {V} (k : Z) (v : V) (m : gmap Z V) : gmap Z V :=
  match m !! k with Some _ => m | None => <[k := v]> m end.

Definition sched_add (id deadline : Z) (s : scheduler) : scheduler :=
  {| s with deadlines := emplace id deadline (deadlines s);
            ordered := ordered s ∪ {[ (deadline, id) ]} |}.

Definition sched_expired (now id : Z) (s : scheduler) : bool :=
  match deadlines s !! id with
  | None => true
  | Some t => t <=? now
  end.

Definition sched_remove (now id : Z) (s : scheduler) : bool * scheduler :=
  match deadlines s !! id with
  | None => (true, s)
  | Some t =>
      (t <=? now,
       {| s with ordered := ordered s ∖ {[ (t, id) ]}; deadlines := delete id (deadlines s) |})
  end.

Definition sched_clear (s : scheduler) : scheduler := {| s with deadlines := ∅; ordered := ∅ |}.

(** The first part of the destructor. *)
Definition sched_stop (s : scheduler) : scheduler := {| s with stopped := true |}.

(** One turn of the worker's loop: it ends, waits for a notification, waits until
    a time, or claims an id and calls [expire] with the lock released. *)
Inductive worker_turn_result : Type :=
  | WorkerExit
  | WorkerWait
  | WorkerWaitUntil (t : Z)
  | WorkerExpire (id : Z) (s : scheduler).

Definition worker_turn (now : Z) (s : scheduler) : worker_turn_result :=
  if stopped s then WorkerExit
  else if decide (deadlines s = ∅) then WorkerWait
  else match first_entry (ordered s) with
       | None => WorkerExit (* [begin()] of an empty set: excluded by [consistent] *)
       | Some next =>
           if now <? next.1 then WorkerWaitUntil next.1
           else WorkerExpire next.2
                  {| s with ordered := ordered s ∖ {[ next ]}; deadlines := delete next.2 (deadlines s) |}
       end.

(** ** Invariant: the two containers hold the same pairs. *)
Definition consistent (s : scheduler) : Prop :=
  forall t id, (t, id) ∈ ordered s <-> deadlines s !! id = Some t.

(** What can happen to the state: the methods, with fresh ids for [add], as in
    [register_timed_ack], and the worker's turns. *)
Inductive sched_step : scheduler -> scheduler -> Prop :=
  | step_add s id t : deadlines s !! id = None -> sched_step s (sched_add id t s)
  | step_remove s now id : sched_step s (sched_remove now id s).2
  | step_clear s : sched_step s (sched_clear s)
  | step_stop s : sched_step s (sched_stop s)
  | step_worker s now id s' : worker_turn now s = WorkerExpire id s' -> sched_step s s'.

(** ** Lemmas *)

Lemma entry_ltb_irrefl e : entry_ltb e e = false.
Proof. unfold entry_ltb. lia. Qed.

Lemma entry_ltb_trans a b c : entry_ltb a b = true -> entry_ltb b c = true -> entry_ltb a c = true.
Proof. unfold entry_ltb. lia. Qed.

Lemma entry_ltb_total a b : entry_ltb a b = false -> entry_ltb b a = true \/ a = b.
Proof.
  unfold entry_ltb. destruct a as [a1 a2], b as [b1 b2]; cbn.
  destruct (decide (a1 = b1)) as [->|], (decide (a2 = b2)) as [->|]; [by right|left; lia..].
Qed.

Lemma least_None l : least l = None <-> l = [].
Proof. destruct l as [|e l]; [done|]. cbn. destruct (least l); [|done]. by case_match. Qed.

Lemma least_Some l e : least l = Some e -> e ∈ l /\ forall e', e' ∈ l -> entry_ltb e' e = false.
Proof.
  revert e. induction l as [|x l IH]; cbn; [done|]. intros e.
  destruct (least l) as [m|] eqn:El.
  - destruct (IH m eq_refl) as [Hm Hmin]. destruct (entry_ltb m x) eqn:E; intros [= <-].
    + split; [by right|]. intros e' [->|He]%elem_of_cons; [|by apply Hmin].
      destruct (entry_ltb x m) eqn:E'; [|done].
      pose proof (entry_ltb_trans _ _ _ E E'). pose proof (entry_ltb_irrefl m). congruence.
    + split; [by left|]. intros e' [->|He]%elem_of_cons; [apply entry_ltb_irrefl|].
      destruct (entry_ltb e' x) eqn:E'; [|done]. exfalso.
      destruct (entry_ltb_total m x E) as [E2| ->]; [|rewrite Hmin in E'; done].
      pose proof (Hmin e' He). pose proof (entry_ltb_trans _ _ _ E' E2). congruence.
  - intros [= <-]. apply least_None in El as ->. split; [by left|].
    intros e' [->|[]%elem_of_nil]%elem_of_cons. apply entry_ltb_irrefl.
Qed.

Lemma first_entry_Some s e :
  first_entry s = Some e -> e ∈ s /\ forall e', e' ∈ s -> entry_ltb e' e = false.
Proof.
  intros [H1 H2]%least_Some. split; [by apply elem_of_elements|].
  intros e' He. by apply H2, elem_of_elements.
Qed.

Lemma first_entry_None s : first_entry s = None <-> s = ∅.
Proof. unfold first_entry. rewrite least_None. rewrite elements_empty_iff. set_solver. Qed.

Lemma consistent_remove t id s :
  consistent s -> (t, id) ∈ ordered s ->
  consistent {| s with ordered := ordered s ∖ {[ (t, id) ]}; deadlines := delete id (deadlines s) |}.
Proof.
  intros Hc Hin t' id'. cbn. rewrite elem_of_difference, not_elem_of_singleton, (Hc t' id').
  apply Hc in Hin. destruct (decide (id' = id)) as [->|].
  - rewrite lookup_delete_eq. split; [|done]. intros [H1 H2]. congruence.
  - rewrite lookup_delete_ne by done. naive_solver.
Qed.

Lemma consistent_step s s' : sched_step s s' -> consistent s -> consistent s'.
Proof.
  intros Hs Hc. destruct Hs as [s id t Hf|s now id|s|s|s now id s' Hw].
  - intros t' id'. unfold sched_add, emplace; cbn. rewrite Hf.
    rewrite elem_of_union, elem_of_singleton, (Hc t' id').
    destruct (decide (id' = id)) as [->|].
    + rewrite lookup_insert_eq, Hf. naive_solver.
    + rewrite lookup_insert_ne by done. naive_solver.
  - unfold sched_remove. destruct (deadlines s !! id) as [t|] eqn:E; [|done].
    apply consistent_remove; [done|]. by apply Hc.
  - intros t id. cbn. set_solver.
  - exact Hc.
  - unfold worker_turn in Hw. destruct (stopped s); [done|].
    destruct (decide (deadlines s = ∅)); [done|].
    destruct (first_entry (ordered s)) as [[t i]|] eqn:E; [|done].
    destruct (now <? _); [done|]. injection Hw as <- <-.
    apply consistent_remove; [done|]. by apply first_entry_Some in E as [].
Qed.

Lemma consistent_new : consistent new_scheduler.
Proof. intros t id. cbn. set_solver. Qed.

Lemma scheduler_consistent_core s :
  rtc sched_step new_scheduler s ->
  consistent s /\ (deadlines s <> ∅ -> is_Some (first_entry (ordered s))).
Proof.
  intros Hr. assert (consistent s) as Hc.
  { revert s Hr. apply invariant_rtc; [apply consistent_new|apply consistent_step]. }
  split; [done|]. intros Hne. apply not_eq_None_Some. rewrite first_entry_None. intros He.
  apply map_choose in Hne as (id & t & Hid). apply Hc in Hid. set_solver.
Qed.

(** ** Properties *)

(** In every reachable state the map and the ordered set hold the same
    pairs, so [begin()] is never taken of an empty set. *)
Theorem scheduler_consistent (s : scheduler) :
  rtc sched_step new_scheduler s ->
  consistent s /\ (deadlines s <> ∅ -> is_Some (first_entry (ordered s))).
Proof. apply scheduler_consistent_core. Qed.

(** The worker claims the earliest deadline, and only when it is due; it
    claims as long as something is due, and otherwise sleeps until the earliest
    deadline, or until notified when there is none. *)
Theorem worker_turn_earliest (s : scheduler) (now : Z) :
  rtc sched_step new_scheduler s -> stopped s = false ->
  match worker_turn now s with
  | WorkerExpire id s' =>
      exists t, deadlines s !! id = Some t /\ t <= now /\
        (forall id' t', deadlines s !! id' = Some t' -> t < t' \/ (t = t' /\ id <= id')) /\
        deadlines s' = delete id (deadlines s)
  | WorkerWaitUntil t =>
      now < t /\ (exists id, deadlines s !! id = Some t) /\
      (forall id' t', deadlines s !! id' = Some t' -> t <= t')
  | WorkerWait => deadlines s = ∅
  | WorkerExit => False
  end.
Proof.
  intros Hr Hs. pose proof (scheduler_consistent_core s Hr) as [Hc Hne]. unfold worker_turn. rewrite Hs.
  destruct (decide (deadlines s = ∅)) as [He|He]; [done|].
  destruct (Hne He) as [[t id] E]. rewrite E. cbn [fst snd].
  apply first_entry_Some in E as [Hin Hmin]. apply Hc in Hin.
  assert (forall id' t', deadlines s !! id' = Some t' -> entry_ltb (t', id') (t, id) = false) as Hmin'.
  { intros id' t' H'. by apply Hmin, Hc. }
  unfold entry_ltb in Hmin'; cbn in Hmin'. destruct (Z.ltb_spec now t).
  - split_and!; [done|by exists id|]. intros id' t' H'. specialize (Hmin' _ _ H'). lia.
  - exists t. split_and!; [done|done| |done]. intros id' t' H'. specialize (Hmin' _ _ H'). lia.
Qed.

(** Whoever takes an id first has it: after [remove] or after the worker's
    claim the id counts as expired for everyone else, and removing it again
    changes nothing; [remove] reports what [expired] would have. *)
Theorem scheduler_claims_once (s : scheduler) (now now' id : Z) :
  let '(was_expired, s') := sched_remove now id s in
  was_expired = sched_expired now id s /\
  sched_expired now' id s' = true /\ sched_remove now' id s' = (true, s') /\
  (forall t s'', worker_turn t s = WorkerExpire id s'' ->
     sched_expired now' id s'' = true /\ sched_remove now' id s'' = (true, s'')) /\
  (forall id', id' <> id -> deadlines s' !! id' = deadlines s !! id').
Proof.
  assert (forall s'', deadlines s'' !! id = None ->
    sched_expired now' id s'' = true /\ sched_remove now' id s'' = (true, s'')) as Hgone.
  { intros s'' E. unfold sched_expired, sched_remove. by rewrite E. }
  assert (forall t s'', worker_turn t s = WorkerExpire id s'' ->
    sched_expired now' id s'' = true /\ sched_remove now' id s'' = (true, s'')) as Hw.
  { intros t s'' Hw. apply Hgone. unfold worker_turn in Hw.
    destruct (stopped s), (decide (deadlines s = ∅)), (first_entry (ordered s)) as [next|]; try done.
    destruct (t <? next.1); [done|]. injection Hw as <- <-. apply lookup_delete_eq. }
  unfold sched_remove at 1, sched_expired at 1. destruct (deadlines s !! id) as [t|] eqn:E.
  - destruct (Hgone (mk_scheduler (delete id (deadlines s)) (ordered s ∖ {[ (t, id) ]}) (stopped s))) as [H1 H2].
    { apply lookup_delete_eq. }
    split_and!; [done|exact H1|exact H2|exact Hw|]. intros. by apply lookup_delete_ne.
  - destruct (Hgone s E) as [H1 H2]. split_and!; auto.
Qed.

(** Two registrations, one of which is due. *)
Definition two_deadlines : scheduler := sched_add 7 30 (sched_add 4 20 new_scheduler).

Lemma two_deadlines_reachable : rtc sched_step new_scheduler two_deadlines.
Proof. eapply rtc_l; [by apply (step_add _ 4 20)|]. apply rtc_once. by apply (step_add _ 7 30). Qed.

Lemma scheduler_consistent_witness :
  consistent two_deadlines /\ (deadlines two_deadlines <> ∅ -> is_Some (first_entry (ordered two_deadlines))).
Proof. apply (scheduler_consistent two_deadlines). apply two_deadlines_reachable. Defined.

Lemma worker_turn_earliest_witness :
  exists s', worker_turn 25 two_deadlines = WorkerExpire 4 s' /\
  exists t, deadlines two_deadlines !! 4 = Some t /\ t <= 25 /\
        (forall id' t', deadlines two_deadlines !! id' = Some t' -> t < t' \/ (t = t' /\ 4 <= id')) /\
        deadlines s' = delete 4 (deadlines two_deadlines).
Proof.
  pose proof (worker_turn_earliest two_deadlines 25 two_deadlines_reachable eq_refl) as H.
  eexists. split; [vm_compute; reflexivity|]. exact H.
Defined.
