(* ===== verification/Socket.v ===== *)
(** * One namespace: the socket

    src/socket.cpp and include/sioxx/socket.hpp.  Every method of the class
    takes the mutex for some of its statements and runs the rest without it, in
    particular user callbacks and [client_impl::send_packet].  A definition here
    is one critical section with the statements up to the next one; what the
    thread does afterwards is returned as a list of [action]s, the residual of
    the method.  SocketSystem.v runs these actions on many threads. *)

From S2P Require Export Packet AckScheduler.
From stdpp Require Import options.
#[local] Set Default Proof Using "Type*".
Local Open Scope Z_scope.

(** ** Data *)

(** A [std::function] made by user code: a name for the code, or empty. *)
Abbreviation function := (option Z).

Inductive ack_status : Type := acknowledged | timeout.

#[export] Instance ack_status_eq_dec : EqDecision ack_status.
Proof. solve_decision. Defined.

(** The closure [dispatch_event] makes: the shared flag and the id to acknowledge. *)
Record acknowledger : Type := mk_acknowledger { ack_flag : nat; ack_id : Z }.

(** The members of the class.  [client] says whether the weak reference to the
    client still locks; [sent_flags] is the heap of the shared atomic flags.  A
    timed callback is never empty: the timed [emit] refuses an empty one. *)
Record socket : Type := mk_socket {
  client : bool;
  nsp : bstr;
  connected : bool;
  auth : json;
  listeners : gmap bstr function;
  ack_listeners : gmap bstr function;
  any_listener : function;
  any_ack_listener : function;
  pending_acks : gmap Z function;
  timed_acks : gmap Z Z;
  active_timed_acks : nat;
  timed_acks_closed : bool;
  send_buffer : list packet;
  next_ack_id : Z;
  flushing_send_buffer : bool;
  on_connect : function;
  on_disconnect : function;
  ack_sched : option scheduler;
  sent_flags : list bool;
}.

(** [socket::socket(client, nsp, auth)] *)
Definition new_socket (nsp : bstr) (auth : json) : socket :=
  mk_socket true nsp false auth ∅ ∅ None None ∅ ∅ 0 false [] 0 false None None None [].

(** Calls of user code. *)
Inductive invocation : Type :=
  | CallEvent (f : Z) (event : bstr) (data : json)
  | CallAckEvent (f : Z) (event : bstr) (data : json) (ack : option acknowledger)
  | CallAck (f : Z) (data : json)
  | CallTimed (f : Z) (id : Z) (status : ack_status) (data : json)
  | CallConnect (f : Z)
  | CallDisconnect (f : Z) (reason : bstr).

(** The methods, with their arguments. *)
Inductive method : Type :=
  | MSetAuth (auth : json)
  | MOn (event : bstr) (listener : function)
  | MOnAck (event : bstr) (listener : function)
  | MOnAny (listener : function)
  | MOnAnyAck (listener : function)
  | MOff (event : bstr)
  | MOffAll
  | MOnConnect (listener : function)
  | MOnDisconnect (listener : function)
  | MConnect
  | MDisconnect
  | MEmit (event : bstr) (data : json)
  | MEmitAck (event : bstr) (data : json) (callback : function)
  | MEmitTimed (event : bstr) (data : json) (milliseconds : Z) (callback : function)
  | MAcknowledge (ack : acknowledger) (reply : json)
  | MDispatchEvent (event : bstr) (data : json) (id : Z)
  | MDispatchAck (id : Z) (data : json)
  | MMarkConnected (up : bool) (reason : bstr)
  | MCancelTimedAcks
  | MWaitTimedAcks
  | MResumeTimedAcks.

(** What a thread still has to do.  [ASend] carries whether the flush loop sends
    the packet; [ATimed] is the call in the body of [invoke_timed_ack]'s try
    block, always before its [AFinish]; [AUser] is user code that is running. *)
Inductive action : Type :=
  | ADo (m : method)
  | ASend (from_flush : bool) (p : packet)
  | ASendAck (flag : nat) (p : packet)
  | ASendOrBuffer (p : packet)
  | ARegister (deadline : Z) (p : packet) (callback : Z)
  | AFlush
  | AExpire (id : Z)
  | ACall (c : invocation)
  | AFinish
  | ASetDisconnected
  | AUser.

(** What an execution records: packets handed to the client, packets buffered,
    calls of user code, and the moments that decide a timed acknowledgement. *)
Inductive event : Type :=
  | Sent (from_flush : bool) (p : packet)
  | SentAck (flag : nat) (p : packet)
  | Buffered (p : packet)
  | Called (c : invocation)
  | Registered (id : Z) (deadline : Z)
  | Decided (id : Z) (status : ack_status) (at_time : Z).

(** The new state, what the thread does next, and what happened. *)
Abbreviation result := (socket * list action * list event)%type.

(** ** Plain setters *)

Definition set_auth (a : json) (s : socket) : socket := {| s with auth := a |}.
Definition on (event : bstr) (listener : function) (s : socket) : socket :=
  {| s with listeners := <[event := listener]> (listeners s); ack_listeners := delete event (ack_listeners s) |}.
Definition on_ack (event : bstr) (listener : function) (s : socket) : socket :=
  {| s with ack_listeners := <[event := listener]> (ack_listeners s); listeners := delete event (listeners s) |}.
Definition on_any (listener : function) (s : socket) : socket :=
  {| s with any_listener := listener; any_ack_listener := None |}.
Definition on_any_ack (listener : function) (s : socket) : socket :=
  {| s with any_ack_listener := listener; any_listener := None |}.
Definition off (event : bstr) (s : socket) : socket :=
  {| s with listeners := delete event (listeners s); ack_listeners := delete event (ack_listeners s) |}.
Definition off_all (s : socket) : socket :=
  {| s with listeners := ∅; ack_listeners := ∅; any_listener := None; any_ack_listener := None |}.
Definition set_on_connect (listener : function) (s : socket) : socket := {| s with on_connect := listener |}.
Definition set_on_disconnect (listener : function) (s : socket) : socket := {| s with on_disconnect := listener |}.

(** ** Packets *)

(** The payload of an event: its name, then the elements of an array, nothing
    for null, or the value itself. *)
Definition event_payload (event : bstr) (data : json) : json :=
  match data with
  | JArray l => fold_left push_back l (JArray [JString event])
  | JNull => JArray [JString event]
  | _ => push_back (JArray [JString event]) data
  end.

Definition event_packet (nsp : bstr) (id : Z) (event : bstr) (data : json) : packet :=
  mk_packet pt_event nsp id (event_payload event data) 0.

Definition connect_packet (s : socket) : packet := mk_packet pt_connect (nsp s) (-1) (auth s) 0.
Definition disconnect_packet (s : socket) : packet := mk_packet pt_disconnect (nsp s) (-1) JNull 0.

(** The packet [send_ack] makes. *)
Definition ack_packet (nsp : bstr) (id : Z) (data : json) : packet :=
  mk_packet pt_ack nsp id
    (match data with
     | JArray _ => data
     | JNull => JArray []
     | _ => push_back (JArray []) data
     end) 0.

(** [next_ack_id_++]: signed overflow is undefined. *)
Definition next_id (s : socket) : outcome (Z * socket) :=
  if next_ack_id s =? int_max then Throw undefined_behaviour
  else Ok (next_ack_id s, {| s with next_ack_id := next_ack_id s + 1 |}).

(** ** Sending *)

Definition send_or_buffer (p : packet) (s : socket) : result :=
  if negb (connected s) || flushing_send_buffer s then
    ({| s with send_buffer := send_buffer s ++ [p] |}, [], [Buffered p])
  else (s, [ASend false p], []).

Definition emit (event : bstr) (data : json) (s : socket) : result :=
  (s, [ASendOrBuffer (event_packet (nsp s) (-1) event data)], []).

Definition emit_ack (event : bstr) (data : json) (callback : function) (s : socket) : outcome result :=
  '(id, s) ← next_id s;
  let s := {| s with pending_acks := <[id := callback]> (pending_acks s) |} in
  Ok (s, [ASendOrBuffer (event_packet (nsp s) id event data)], []).

(** ** Timed acknowledgements *)

Definition time_point_max : Z := 2 ^ 63 - 1.
Definition ns_per_ms : Z := 1000000.

(** The deadline of a timed emission, in the clock's nanoseconds. *)
Definition deadline_of (now timeout : Z) : Z :=
  let remaining := Z.quot (time_point_max - now) ns_per_ms in
  if remaining <=? timeout then time_point_max else now + timeout * ns_per_ms.

Definition emit_timed (now : Z) (event : bstr) (data : json) (timeout : Z) (callback : function) (s : socket)
    : outcome result :=
  match callback with
  | Some f =>
      if timeout <=? 0 then Throw (invalid_argument "acknowledgement timeout and callback must be valid")
      else
        let p := event_packet (nsp s) (-1) event data in
        Ok (s, [ARegister (deadline_of now timeout) p f], [])
  | None => Throw (invalid_argument "acknowledgement timeout and callback must be valid")
  end.

Definition register_timed_ack (deadline : Z) (callback : Z) (s : socket) : outcome (Z * socket) :=
  if timed_acks_closed s then Throw (logic_error "timed emissions require client.connect() after shutdown")
  else
    let sched := default new_scheduler (ack_sched s) in
    '(id, s) ← next_id {| s with ack_sched := Some sched |};
    Ok (id, {| s with timed_acks := emplace id callback (timed_acks s);
                      ack_sched := Some (sched_add id deadline sched) |}).

(** [ack_scheduler_->f()]: the pointer is not checked. *)
Definition with_sched {A} (s : socket) (f : scheduler -> A) : outcome A :=
  match ack_sched s with Some sc => Ok (f sc) | None => Throw undefined_behaviour end.

(** The critical section of the timed [emit]. *)
Definition register_and_send (now deadline : Z) (p : packet) (callback : Z) (s : socket) : outcome result :=
  '(id, s) ← register_timed_ack deadline callback s;
  let p := {| p with p_id := id |} in
  expired ← with_sched s (sched_expired now id);
  let registered := Registered id deadline in
  if expired : bool then Ok (s, [], [registered])
  else if negb (connected s) || flushing_send_buffer s then
    Ok ({| s with send_buffer := send_buffer s ++ [p] |}, [], [registered; Buffered p])
  else Ok (s, [ASend false p], [registered]).

(** [send_buffer_.erase(remove_if(buffered.id == id))] *)
Definition drop_buffered (id : Z) (buffer : list packet) : list packet :=
  filter (fun p => p_id p <> id) buffer.

(** [invoke_timed_ack]: the call, then [finish_timed_ack], also on an exception. *)
Definition invoke_timed_ack (f id : Z) (status : ack_status) (data : json) : list action :=
  [ACall (CallTimed f id status data); AFinish].

Definition expire_ack (now id : Z) (s : socket) : result :=
  match timed_acks s !! id with
  | Some f =>
      ({| s with timed_acks := delete id (timed_acks s);
                 active_timed_acks := S (active_timed_acks s);
                 send_buffer := drop_buffered id (send_buffer s) |},
       invoke_timed_ack f id timeout JNull, [Decided id timeout now])
  | None => (s, [], [])
  end.

Definition finish_timed_ack (s : socket) : socket :=
  {| s with active_timed_acks := pred (active_timed_acks s) |}.

Definition dispatch_ack (now id : Z) (data : json) (s : socket) : outcome result :=
  match timed_acks s !! id with
  | Some f =>
      '(expired, sched) ← with_sched s (sched_remove now id);
      let s := {| s with ack_sched := Some sched;
                         active_timed_acks := S (active_timed_acks s);
                         timed_acks := delete id (timed_acks s);
                         send_buffer := drop_buffered id (send_buffer s) |} in
      let status := if expired : bool then timeout else acknowledged in
      let data := if expired then JNull else data in
      Ok (s, invoke_timed_ack f id status data, [Decided id status now])
  | None =>
      match pending_acks s !! id with
      | Some callback =>
          let s := {| s with pending_acks := delete id (pending_acks s) |} in
          match callback with
          | Some f => Ok (s, [ACall (CallAck f data)], [])
          | None => Ok (s, [], [])
          end
      | None => Ok (s, [], [])
      end
  end.

(** The packets of timed emissions leave the buffer, their callbacks are dropped. *)
Definition cancel_timed_acks (s : socket) : socket :=
  {| s with timed_acks_closed := true;
            ack_sched := sched_clear <$> ack_sched s;
            send_buffer := filter (fun p => timed_acks s !! p_id p = None) (send_buffer s);
            timed_acks := ∅ |}.

Definition resume_timed_acks (s : socket) : socket := {| s with timed_acks_closed := false |}.

(** ** Connection state *)

(** One turn of the loop in [flush_send_buffer]. *)
Definition flush_turn (now : Z) (s : socket) : outcome result :=
  match send_buffer s with
  | p :: buffer =>
      if negb (connected s) then Ok ({| s with flushing_send_buffer := false |}, [], [])
      else
        let s := {| s with send_buffer := buffer |} in
        match timed_acks s !! p_id p with
        | Some _ =>
            expired ← with_sched s (sched_expired now (p_id p));
            Ok (s, [if expired : bool then AExpire (p_id p) else ASend true p; AFlush], [])
        | None => Ok (s, [ASend true p; AFlush], [])
        end
  | [] => Ok ({| s with flushing_send_buffer := false |}, [], [])
  end.

Definition call_if (f : function) (c : Z -> invocation) : list action :=
  match f with Some f => [ACall (c f)] | None => [] end.

Definition mark_connected (up : bool) (reason : bstr) (s : socket) : result :=
  let was_connected := connected s in
  let s := {| s with connected := up |} in
  if up && negb was_connected then
    let should_flush := negb (flushing_send_buffer s) in
    ({| s with flushing_send_buffer := true |},
     (if should_flush then [AFlush] else []) ++ call_if (on_connect s) CallConnect, [])
  else if negb up && was_connected then
    (s, call_if (on_disconnect s) (fun f => CallDisconnect f reason), [])
  else (s, [], []).

(** ** Incoming events *)

Definition dispatch_event (event : bstr) (data : json) (id : Z) (s : socket) : result :=
  let listener := default None (listeners s !! event) in
  let ack_listener := default None (ack_listeners s !! event) in
  let wants_ack := (bool_decide (is_Some ack_listener) || bool_decide (is_Some (any_ack_listener s))) && (0 <=? id) in
  let acknowledge := if wants_ack then Some (mk_acknowledger (length (sent_flags s)) id) else None in
  let s := if wants_ack then {| s with sent_flags := sent_flags s ++ [false] |} else s in
  let named := match listener with
               | Some f => [ACall (CallEvent f event data)]
               | None => call_if ack_listener (fun f => CallAckEvent f event data acknowledge)
               end in
  let any := match any_listener s with
             | Some f => [ACall (CallEvent f event data)]
             | None => call_if (any_ack_listener s) (fun f => CallAckEvent f event data acknowledge)
             end in
  (s, named ++ any, []).

(** The body of the closure: only the first call sends. *)
Definition acknowledge (a : acknowledger) (reply : json) (s : socket) : result :=
  match sent_flags s !! ack_flag a with
  | Some false =>
      ({| s with sent_flags := <[ack_flag a := true]> (sent_flags s) |},
       [ASendAck (ack_flag a) (ack_packet (nsp s) (ack_id a) reply)], [])
  | _ => (s, [], [])
  end.

(** ** One action *)

Definition call_method (now : Z) (m : method) (s : socket) : outcome result :=
  match m with
  | MSetAuth a => Ok (set_auth a s, [], [])
  | MOn ev f => Ok (on ev f s, [], [])
  | MOnAck ev f => Ok (on_ack ev f s, [], [])
  | MOnAny f => Ok (on_any f s, [], [])
  | MOnAnyAck f => Ok (on_any_ack f s, [], [])
  | MOff ev => Ok (off ev s, [], [])
  | MOffAll => Ok (off_all s, [], [])
  | MOnConnect f => Ok (set_on_connect f s, [], [])
  | MOnDisconnect f => Ok (set_on_disconnect f s, [], [])
  | MConnect => Ok (s, [ASend false (connect_packet s)], [])
  | MDisconnect => Ok (s, [ASend false (disconnect_packet s); ASetDisconnected], [])
  | MEmit ev d => Ok (emit ev d s)
  | MEmitAck ev d f => emit_ack ev d f s
  | MEmitTimed ev d t f => emit_timed now ev d t f s
  | MAcknowledge a r => Ok (acknowledge a r s)
  | MDispatchEvent ev d id => Ok (dispatch_event ev d id s)
  | MDispatchAck id d => dispatch_ack now id d s
  | MMarkConnected up reason => Ok (mark_connected up reason s)
  | MCancelTimedAcks => Ok (cancel_timed_acks s, [], [])
  | MWaitTimedAcks => Ok (s, [], [])
  | MResumeTimedAcks => Ok (resume_timed_acks s, [], [])
  end.

(** An action that takes a step of its own; [AUser] is up to the user. *)
Definition run_action (now : Z) (a : action) (s : socket) : outcome result :=
  match a with
  | ADo m => call_method now m s
  | ASend fl p => Ok (s, [], if client s then [Sent fl p] else [])
  | ASendAck k p => Ok (s, [], if client s then [SentAck k p] else [])
  | ASendOrBuffer p => Ok (send_or_buffer p s)
  | ARegister d p f => register_and_send now d p f s
  | AFlush => flush_turn now s
  | AExpire id => Ok (expire_ack now id s)
  | ACall c => Ok (s, [AUser], [Called c])
  | AFinish => Ok (finish_timed_ack s, [], [])
  | ASetDisconnected => Ok ({| s with connected := false |}, [], [])
  | AUser => Ok (s, [AUser], [])
  end.
