(* ===== verification/SocketSystem.v ===== *)
(** * Many threads on one socket

    The interleavings of the methods of Socket.v: every thread has a stack of
    actions, the deadline worker of src/ack_scheduler.hpp among them, and a step
    of the system runs the first action of one thread, lets user code call a
    method, return or throw, lets time pass, or lets the worker claim an id. *)

From S2P Require Export Socket.
From stdpp Require Import options.
#[local] Set Default Proof Using "Type*".
Local Open Scope Z_scope.

(** ** Exceptions

    A throw drops the rest of the methods in progress up to the user code that
    called them; the handler of [invoke_timed_ack] runs [finish_timed_ack] on
    the way.  An empty stack afterwards is an exception that left its thread. *)
Fixpoint unwind (s : socket) (stack : list action) : socket * list action :=
  match stack with
  | [] => (s, [])
  | AUser :: _ => (s, stack)
  | AFinish :: rest => unwind (finish_timed_ack s) rest
  | _ :: rest => unwind s rest
  end.

(** [ack_condition_.wait(lock, [this] { return active_timed_acks_ == 0; })] *)
Definition ready (a : action) (s : socket) : bool :=
  match a with
  | ADo MWaitTimedAcks => (active_timed_acks s =? 0)%nat
  | AUser => false
  | _ => true
  end.

Definition is_send (a : action) : bool := match a with ASend _ _ | ASendAck _ _ => true | _ => false end.

(** ** Steps of one thread *)

Inductive local_step (now : Z) : socket -> list action -> socket -> list action -> list event -> Prop :=
  | local_run a rest s s' acts evs :
      ready a s = true -> run_action now a s = Ok (s', acts, evs) ->
      local_step now s (a :: rest) s' (acts ++ rest) evs
  | local_throw a rest s e s' rest' :
      run_action now a s = Throw e -> unwind s rest = (s', rest') ->
      local_step now s (a :: rest) s' rest' []
  | local_send_throw a rest s s' rest' :
      is_send a = true -> unwind s rest = (s', rest') ->
      local_step now s (a :: rest) s' rest' []
  | local_user_call m rest s :
      local_step now s (AUser :: rest) s (ADo m :: AUser :: rest) []
  | local_user_return rest s :
      local_step now s (AUser :: rest) s rest []
  | local_user_throw rest s s' rest' :
      unwind s rest = (s', rest') -> local_step now s (AUser :: rest) s' rest' [].

(** ** The system

    [worker] is the stack of the deadline worker, empty while its loop is
    between two claims. *)
Record system : Type := mk_system {
  sock : socket;
  worker : list action;
  threads : list (list action);
  clock : Z;
  trace : list event;
}.

Inductive step : system -> system -> Prop :=
  | step_thread s w l1 st l2 c tr s' st' evs :
      local_step c s st s' st' evs ->
      step (mk_system s w (l1 ++ st :: l2) c tr) (mk_system s' w (l1 ++ st' :: l2) c (tr ++ evs))
  | step_worker_action s w ts c tr s' w' evs :
      local_step c s w s' w' evs ->
      step (mk_system s w ts c tr) (mk_system s' w' ts c (tr ++ evs))
  | step_worker_claim s ts c tr sc id sc' :
      ack_sched s = Some sc -> worker_turn c sc = WorkerExpire id sc' ->
      step (mk_system s [] ts c tr) (mk_system {| s with ack_sched := Some sc' |} [AExpire id] ts c tr)
  | step_tick s w ts c tr c' : c <= c' -> step (mk_system s w ts c tr) (mk_system s w ts c' tr)
  | step_client_gone s w ts c tr :
      step (mk_system s w ts c tr) (mk_system {| s with client := false |} w ts c tr).

(** [n] threads that use a fresh socket. *)
Definition start (nsp : bstr) (auth : json) (n : nat) (c : Z) : system :=
  mk_system (new_socket nsp auth) [] (replicate n [AUser]) c [].

Definition reachable (sy : system) : Prop :=
  exists nsp auth n c, rtc step (start nsp auth n c) sy.

(** ** Counting actions *)

Definition cnt (P : action -> bool) (st : list action) : nat := length (List.filter P st).
Definition total (P : action -> bool) (sy : system) : nat :=
  (cnt P (worker sy) + list_sum (List.map (cnt P) (threads sy)))%nat.

Definition is_finish (a : action) : bool := match a with AFinish => true | _ => false end.
Definition is_flush (a : action) : bool := match a with AFlush => true | _ => false end.

Lemma cnt_app P l k : cnt P (l ++ k) = (cnt P l + cnt P k)%nat.
Proof. unfold cnt. by rewrite List.filter_app, length_app. Qed.

Lemma cnt_cons P a l : cnt P (a :: l) = (Nat.b2n (P a) + cnt P l)%nat.
Proof. unfold cnt. cbn. by destruct (P a). Qed.

Lemma list_sum_split (f : list action -> nat) l1 st l2 :
  list_sum (List.map f (l1 ++ st :: l2)) = (f st + (list_sum (List.map f l1) + list_sum (List.map f l2)))%nat.
Proof.
  rewrite map_app, list_sum_app.
  change (list_sum (List.map f (st :: l2))) with (f st + list_sum (List.map f l2))%nat. lia.
Qed.

Lemma unwind_cnt_le P s st s' st' : unwind s st = (s', st') -> (cnt P st' <= cnt P st)%nat.
Proof.
  revert s. induction st as [|a st IH]; intros s; cbn [unwind]; [by intros [= <- <-]|].
  rewrite cnt_cons. destruct a; intros H; try (apply IH in H; lia). injection H as <- <-. by rewrite cnt_cons.
Qed.

(** What unwinding does to the socket: only the count of running callbacks. *)
Lemma unwind_active s st s' st' :
  unwind s st = (s', st') ->
  s' = {| s with active_timed_acks := active_timed_acks s' |} /\
  forall k, active_timed_acks s = (cnt is_finish st + k)%nat -> active_timed_acks s' = (cnt is_finish st' + k)%nat.
Proof.
  revert s. induction st as [|a st IH]; intros s; cbn [unwind].
  - intros [= <- <-]. split; [by destruct s|auto].
  - destruct a; intros H; try (apply IH in H as [E H]; rewrite cnt_cons; split; [exact E|exact H]).
    + apply IH in H as [E H]. rewrite cnt_cons. split; [exact E|]. cbn [is_finish Nat.b2n]. intros k Hk.
      apply H. unfold finish_timed_ack; cbn. lia.
    + injection H as <- <-. split; [by destruct s|auto].
Qed.
