(* ===== verification/SocketFacts.v ===== *)
(** * Invariants of the socket under interleaving

    Each invariant is proved for the steps of one thread with the contribution
    of the other stacks as a parameter, and lifted to the system. *)

From S2P Require Export SocketSystem.
From stdpp Require Import options.
#[local] Set Default Proof Using "Type*".
Local Open Scope Z_scope.

(** ** What an action does to the state the invariants are about *)

(** The members that connection state, buffering and timed acknowledgements use. *)
Record same_core (s s' : socket) : Prop := mk_same_core {
  sc_connected : connected s' = connected s;
  sc_timed : timed_acks s' = timed_acks s;
  sc_active : active_timed_acks s' = active_timed_acks s;
  sc_closed : timed_acks_closed s' = timed_acks_closed s;
  sc_buffer : send_buffer s' = send_buffer s;
  sc_next : next_ack_id s' = next_ack_id s;
  sc_flushing : flushing_send_buffer s' = flushing_send_buffer s;
  sc_sched : ack_sched s' = ack_sched s;
}.

Definition is_timed_call (a : action) : bool := match a with ACall (CallTimed _ _ _ _) => true | _ => false end.

(** Actions the counts of the invariants do not see. *)
Definition plain (a : action) : bool :=
  match a with
  | ADo _ | ASend false _ | ASendAck _ _ | ASendOrBuffer _ | ARegister _ _ _ | ASetDisconnected | AUser => true
  | ACall c => negb (is_timed_call a)
  | ASend true _ | AFlush | AExpire _ | AFinish => false
  end.

(** The events of actions that change nothing of the core. *)
Definition quiet_events (a : action) (evs : list event) : Prop :=
  match a with
  | ASend fl p => evs = [] \/ evs = [Sent fl p]
  | ASendAck k p => evs = [] \/ evs = [SentAck k p]
  | ACall c => evs = [Called c]
  | _ => evs = []
  end.

Inductive effect (now : Z) : action -> socket -> socket -> list action -> list event -> Prop :=
  | eff_quiet a s s' acts evs :
      is_flush a = false -> is_finish a = false -> same_core s s' ->
      forallb plain acts = true -> quiet_events a evs ->
      effect now a s s' acts evs
  | eff_emit_ack m s s' p :
      next_ack_id s < int_max \/ int_max < next_ack_id s ->
      same_core {| s with next_ack_id := next_ack_id s + 1 |} s' ->
      effect now (ADo m) s s' [ASendOrBuffer p] []
  | eff_buffer p s :
      connected s = false \/ flushing_send_buffer s = true ->
      effect now (ASendOrBuffer p) s {| s with send_buffer := send_buffer s ++ [p] |} [] [Buffered p]
  | eff_register d p f s s' b acts evs :
      timed_acks_closed s = false -> next_ack_id s <> int_max ->
      let id := next_ack_id s in
      let sched := sched_add id d (default new_scheduler (ack_sched s)) in
      s' = {| s with ack_sched := Some sched; next_ack_id := id + 1;
                     timed_acks := emplace id f (timed_acks s); send_buffer := b |} ->
      (b = send_buffer s /\ forallb plain acts = true /\ evs = [Registered id d] \/
       (connected s = false \/ flushing_send_buffer s = true) /\ acts = [] /\
         b = send_buffer s ++ [{| p with p_id := id |}] /\
         evs = [Registered id d; Buffered {| p with p_id := id |}]) ->
      effect now (ARegister d p f) s s' acts evs
  | eff_flush_stop s s' :
      connected s = false \/ send_buffer s = [] -> s' = {| s with flushing_send_buffer := false |} ->
      effect now AFlush s s' [] []
  | eff_flush_pop s s' p buffer a :
      send_buffer s = p :: buffer -> connected s = true -> s' = {| s with send_buffer := buffer |} ->
      a = ASend true p \/
        (a = AExpire (p_id p) /\ exists f sc, timed_acks s !! p_id p = Some f /\
           ack_sched s = Some sc /\ sched_expired now (p_id p) sc = true) ->
      effect now AFlush s s' [a; AFlush] []
  | eff_expire id f s :
      timed_acks s !! id = Some f ->
      effect now (AExpire id) s
        {| s with timed_acks := delete id (timed_acks s); active_timed_acks := S (active_timed_acks s);
                  send_buffer := drop_buffered id (send_buffer s) |}
        [ACall (CallTimed f id timeout JNull); AFinish] [Decided id timeout now]
  | eff_ack id d f sc s :
      timed_acks s !! id = Some f -> ack_sched s = Some sc ->
      let expired := (sched_remove now id sc).1 in
      let status := if expired then timeout else acknowledged in
      effect now (ADo (MDispatchAck id d)) s
        {| s with ack_sched := Some (sched_remove now id sc).2; active_timed_acks := S (active_timed_acks s);
                  timed_acks := delete id (timed_acks s); send_buffer := drop_buffered id (send_buffer s) |}
        [ACall (CallTimed f id status (if expired then JNull else d)); AFinish] [Decided id status now]
  | eff_cancel s : effect now (ADo MCancelTimedAcks) s (cancel_timed_acks s) [] []
  | eff_resume s : effect now (ADo MResumeTimedAcks) s (resume_timed_acks s) [] []
  | eff_mark_up reason s acts :
      connected s = false -> forallb plain acts = true ->
      effect now (ADo (MMarkConnected true reason)) s
        {| s with connected := true; flushing_send_buffer := true |}
        ((if flushing_send_buffer s then [] else [AFlush]) ++ acts) []
  | eff_down a s acts :
      is_flush a = false -> is_finish a = false -> forallb plain acts = true ->
      effect now a s {| s with connected := false |} acts []
  | eff_finish s : effect now AFinish s (finish_timed_ack s) [] [].

Lemma same_core_refl s : same_core s s.
Proof. by split. Qed.
#[local] Hint Resolve same_core_refl : core.

Lemma plain_call_if f c : (forall f, plain (ACall (c f)) = true) -> forallb plain (call_if f c) = true.
Proof. intros H. destruct f as [f|]; cbn [call_if forallb]; [by rewrite H|done]. Qed.

Ltac quiet := apply eff_quiet; [reflexivity|reflexivity|by split|try reflexivity|try reflexivity].

Lemma method_effect now m s s' acts evs :
  call_method now m s = Ok (s', acts, evs) -> effect now (ADo m) s s' acts evs.
Proof.
  destruct m; cbn [call_method]; try (intros [= <- <- <-]; quiet; fail).
  - (* MEmitAck *)
    unfold emit_ack, next_id. destruct (Z.eqb_spec (next_ack_id s) int_max); [done|].
    intros [= <- <- <-]. apply eff_emit_ack; [lia|by split].
  - (* MEmitTimed *)
    unfold emit_timed. destruct callback; [|done]. destruct (_ <=? 0); [done|]. intros [= <- <- <-]. quiet.
  - (* MAcknowledge *)
    unfold acknowledge. destruct (sent_flags s !! ack_flag ack) as [[]|]; intros [= <- <- <-]; quiet.
  - (* MDispatchEvent *)
    unfold dispatch_event. cbv zeta. intros [= <- <- <-]. apply eff_quiet; [done|done| | |done].
    + by destruct (_ && _).
    + rewrite forallb_app. apply andb_true_intro. split.
      * destruct (default None (listeners s !! event)); [done|]. by apply plain_call_if.
      * destruct (any_listener _); [done|]. by apply plain_call_if.
  - (* MDispatchAck *)
    unfold dispatch_ack. destruct (timed_acks s !! id) as [f|] eqn:Ef.
    + unfold with_sched. destruct (ack_sched s) as [sc|] eqn:Es; [|done]. cbn [mbind outcome_bind].
      destruct (sched_remove now id sc) as [expired sc'] eqn:Er. intros [= <- <- <-].
      pose proof (eff_ack now id data f sc s Ef Es) as H. rewrite Er in H. exact H.
    + destruct (pending_acks s !! id) as [[f|]|]; intros [= <- <- <-]; quiet.
  - (* MMarkConnected *)
    unfold mark_connected. cbn. intros [= H]. destruct up, (connected s) eqn:Ec; cbn in H.
    + injection H as <- <- <-. apply eff_quiet; [done|done|split; cbn; congruence|done|done].
    + injection H as <- <- <-.
      replace (if negb (flushing_send_buffer s) then [AFlush] else [])
        with (if flushing_send_buffer s then [] else [AFlush]) by (by destruct (flushing_send_buffer s)).
      apply (eff_mark_up now reason s (call_if (on_connect s) CallConnect)); [done|].
      by apply plain_call_if.
    + injection H as <- <- <-. apply eff_down; [done..|]. by apply plain_call_if.
    + injection H as <- <- <-. by apply eff_down.
  - intros [= <- <- <-]. apply eff_cancel.
  - intros [= <- <- <-]. apply eff_resume.
Qed.

Lemma action_effect now a s s' acts evs :
  run_action now a s = Ok (s', acts, evs) -> effect now a s s' acts evs.
Proof.
  destruct a; cbn [run_action]; try (intros [= <- <- <-]; quiet; fail).
  - apply method_effect.
  - intros [= <- <- <-]. quiet. cbn. destruct (client s); auto.
  - intros [= <- <- <-]. quiet. cbn. destruct (client s); auto.
  - unfold send_or_buffer. destruct (negb (connected s) || flushing_send_buffer s) eqn:E; intros [= <- <- <-].
    + apply eff_buffer. apply orb_prop in E as [E|E]; [left; by apply negb_true_iff|by right].
    + quiet.
  - unfold register_and_send, register_timed_ack, next_id.
    destruct (timed_acks_closed s) eqn:Ec; [done|]. cbn [next_ack_id].
    destruct (Z.eqb_spec (next_ack_id s) int_max) as [|Hn]; [done|].
    unfold with_sched. cbn [mbind outcome_bind ack_sched]. 
    match goal with |- context [if ?b then _ else _] => destruct b eqn:Ee end.
    + intros [= <- <- <-]. apply (eff_register now _ p _ _ _ (send_buffer s)); auto. by rewrite Ec.
    + destruct (negb _ || _) eqn:Eb; intros [= <- <- <-].
      * apply (eff_register now _ p _ _ _ (send_buffer s ++ [{| p with p_id := next_ack_id s |}])); [done|done|by rewrite ?Ec|right].
        split_and!; try done.
        cbn in Eb. apply orb_prop in Eb as [E|E]; [left; by apply negb_true_iff|by right].
      * apply (eff_register now _ p _ _ _ (send_buffer s)); auto. by rewrite Ec.
  - unfold flush_turn. destruct (send_buffer s) as [|p buffer] eqn:Eb.
    + intros [= <- <- <-]. apply eff_flush_stop; [by right|by rewrite Eb].
    + destruct (connected s) eqn:Ec; cbn [negb].
      2:{ intros [= <- <- <-]. apply eff_flush_stop; [by left|by rewrite Ec, Eb]. }
      destruct (timed_acks _ !! p_id p) eqn:Et.
      * unfold with_sched. cbn [ack_sched]. destruct (ack_sched s) as [sc|] eqn:Es; [|done].
        cbn [mbind outcome_bind]. destruct (sched_expired now (p_id p) sc) eqn:Ex; intros [= <- <- <-];
          (eapply eff_flush_pop; [done|done|by rewrite ?Ec, ?Es|eauto 10]).
      * intros [= <- <- <-]. eapply eff_flush_pop; [done|done|by rewrite ?Ec|by left].
  - unfold expire_ack. destruct (timed_acks s !! id) eqn:E; intros [= <- <- <-]; [by apply eff_expire|quiet].
  - intros [= <- <- <-]. apply eff_finish.
  - intros [= <- <- <-]. by apply eff_down.
Qed.

(** ** Invariant 1: running callbacks, the flush flag and the buffer

    The counter is the number of timed callbacks in progress; at most one thread
    is in the flush loop, and only while the flag is set; a connected socket that
    does not flush has nothing buffered. *)
Definition core_inv (s : socket) (finishing flushing : nat) : Prop :=
  active_timed_acks s = finishing /\
  (flushing <= Nat.b2n (flushing_send_buffer s))%nat /\
  (connected s = true -> flushing_send_buffer s = false -> send_buffer s = []).

Lemma plain_cnt P acts :
  forallb plain acts = true -> (forall a, plain a = true -> P a = false) -> cnt P acts = 0%nat.
Proof.
  intros Ha HP. induction acts as [|a acts IH]; [done|]. cbn [forallb] in Ha.
  apply andb_prop in Ha as [H1 H2]. rewrite cnt_cons, (HP a H1), IH by done. done.
Qed.

Lemma plain_not_finish a : plain a = true -> is_finish a = false.
Proof. by destruct a. Qed.
Lemma plain_not_flush a : plain a = true -> is_flush a = false.
Proof. by destruct a. Qed.

Lemma drop_buffered_nil id : drop_buffered id [] = [].
Proof. reflexivity. Qed.

Lemma effect_core now a s s' acts evs rest k j :
  effect now a s s' acts evs ->
  core_inv s (cnt is_finish (a :: rest) + k) (cnt is_flush (a :: rest) + j) ->
  core_inv s' (cnt is_finish (acts ++ rest) + k) (cnt is_flush (acts ++ rest) + j).
Proof.
  unfold core_inv. rewrite !cnt_app, !cnt_cons. intros He (Ha & Hf & Hb).
  destruct He as [a s s' acts evs H1 H2 Hs Hp _|m s s' p _ Hs|p s Hc|d p f s s' b acts evs _ _ id sched -> Hb'
    |s s' Hc ->|s s' p buffer a E Hc -> Ha'|id f s E|id d f sc s E Es expired status|s|s|reason s acts Hc Hp
    |a s acts H1 H2 Hp|s].
  - rewrite H1, H2 in *. rewrite (plain_cnt _ _ Hp plain_not_finish), (plain_cnt _ _ Hp plain_not_flush).
    destruct Hs as [-> _ -> _ -> _ -> _]. auto.
  - destruct Hs as [-> _ -> _ -> _ -> _]. auto.
  - cbn in *. split_and!; auto. intros. destruct Hc; congruence.
  - assert (cnt is_finish acts = 0%nat /\ cnt is_flush acts = 0%nat) as [-> ->].
    { destruct Hb' as [(_ & Hp & _)|(_ & -> & _)]; [|done].
      by rewrite (plain_cnt _ _ Hp plain_not_finish), (plain_cnt _ _ Hp plain_not_flush). }
    cbn in *. split_and!; auto. intros Hc' Hf'. destruct Hb' as [(-> & _)|([Hc|Hc] & _)]; [auto|congruence..].
  - cbn in *. split_and!; [done|destruct (flushing_send_buffer s); cbn in Hf; lia|].
    intros Hc' _. destruct Hc; [congruence|done].
  - assert (cnt is_finish [a; AFlush] = 0%nat /\ cnt is_flush [a; AFlush] = 1%nat) as [-> ->].
    { by destruct Ha' as [->|[-> _]]. }
    cbn in *. split_and!; [done|done|]. intros _ Hf'. rewrite Hf' in Hf. cbn in Hf. lia.
  - cbn in *. split_and!; [lia|done|]. intros Hc' Hf'. rewrite Hb by done. done.
  - cbn in *. split_and!; [lia|done|]. intros Hc' Hf'. rewrite Hb by done. done.
  - cbn in *. split_and!; [lia|done|]. intros Hc' Hf'. rewrite Hb by done. done.
  - cbn in *. auto.
  - rewrite cnt_app, (plain_cnt _ acts Hp plain_not_finish).
    rewrite cnt_app, (plain_cnt _ acts Hp plain_not_flush).
    destruct (flushing_send_buffer s); cbn in *; split_and!; try done; lia.
  - rewrite H1, H2 in *. rewrite (plain_cnt _ _ Hp plain_not_finish), (plain_cnt _ _ Hp plain_not_flush).
    cbn in *. split_and!; done.
  - cbn in *. split_and!; [lia|done|done].
Qed.

Lemma same_active_core s n k j :
  core_inv s k j -> core_inv {| s with active_timed_acks := n |} n j.
Proof. intros (H1 & H2 & H3). split_and!; done. Qed.

Lemma local_core now s st s' st' evs k j :
  local_step now s st s' st' evs ->
  core_inv s (cnt is_finish st + k) (cnt is_flush st + j) ->
  core_inv s' (cnt is_finish st' + k) (cnt is_flush st' + j).
Proof.
  assert (forall s rest s' rest' k j, unwind s rest = (s', rest') ->
    core_inv s (cnt is_finish rest + k) (cnt is_flush rest + j) ->
    core_inv s' (cnt is_finish rest' + k) (cnt is_flush rest' + j)) as Hunwind.
  { intros s0 rest s1 rest' k0 j0 Hu (H1 & H2 & H3). pose proof (unwind_cnt_le is_flush _ _ _ _ Hu).
    apply unwind_active in Hu as [-> Hu]. split_and!; [by apply Hu|cbn; lia|done]. }
  intros [a rest s0 s1 acts evs0 _ H|a rest s0 e s1 rest' H Hu|a rest s0 s1 rest' H Hu|m rest s0|rest s0
    |rest s0 s1 rest' Hu] Hc.
  - by eapply effect_core, Hc; apply action_effect.
  - eapply Hunwind; [exact Hu|]. destruct Hc as (H1 & H2 & H3). rewrite !cnt_cons in *.
    split_and!; [|lia|done]. destruct a; cbn in *; done.
  - eapply Hunwind; [exact Hu|]. destruct Hc as (H1 & H2 & H3). rewrite !cnt_cons in *.
    split_and!; [|lia|done]. by destruct a.
  - exact Hc.
  - exact Hc.
  - by eapply Hunwind.
Qed.

Definition system_core (sy : system) : Prop :=
  core_inv (sock sy) (total is_finish sy) (total is_flush sy).

Lemma total_threads P s w l1 st l2 c tr :
  total P (mk_system s w (l1 ++ st :: l2) c tr)
  = (cnt P st + (cnt P w + (list_sum (List.map (cnt P) l1) + list_sum (List.map (cnt P) l2))))%nat.
Proof. unfold total; cbn [worker threads]. rewrite list_sum_split. lia. Qed.

Lemma system_core_step sy sy' : step sy sy' -> system_core sy -> system_core sy'.
Proof.
  unfold system_core. intros [s w l1 st l2 c tr s' st' evs H|s w ts c tr s' w' evs H|s ts c tr sc id sc' E1 E2
    |s w ts c tr c' Hc|s w ts c tr]; cbn [sock].
  - rewrite !total_threads. by apply local_core with (1 := H).
  - unfold total; cbn [worker threads]. by apply local_core with (1 := H).
  - intros (H1 & H2 & H3). split_and!; done.
  - done.
  - intros (H1 & H2 & H3). split_and!; done.
Qed.

Lemma total_start P nsp auth n c :
  P AUser = false -> total P (start nsp auth n c) = 0%nat.
Proof.
  intros HP. unfold total, start; cbn [worker threads cnt List.filter length Nat.add].
  induction n as [|n IH]; [done|]. cbn [replicate List.map].
  change (list_sum (?x :: ?l)) with (x + list_sum l)%nat. rewrite IH, cnt_cons, HP. done.
Qed.

(** Lifts a system invariant to the reachable states. *)
Lemma reachable_invariant (I : system -> Prop) :
  (forall nsp auth n c, I (start nsp auth n c)) -> (forall sy sy', step sy sy' -> I sy -> I sy') ->
  forall sy, reachable sy -> I sy.
Proof. intros H0 Hs sy (nsp & auth & n & c & Hr). by eapply invariant_rtc, Hr. Qed.

Lemma reachable_core sy : reachable sy -> system_core sy.
Proof.
  apply reachable_invariant; [|apply system_core_step]. intros.
  unfold system_core. rewrite !total_start by done. split_and!; [done|cbn; lia|done].
Qed.
