(* ===== verification/SocketAcks.v ===== *)
(** * Timed acknowledgements under interleaving

    The invariant that ties callbacks, deadlines and the worker together, and
    the counts of decisions and calls. *)

From S2P Require Export SocketFacts.
From stdpp Require Import options.
#[local] Set Default Proof Using "Type*".
Local Open Scope Z_scope.

(** ** Deadlines *)

Definition registered (id t : Z) (tr : list event) : Prop := Registered id t ∈ tr.

(** What a stack promises: an id to expire is due. *)
Definition stack_due (c : Z) (tr : list event) (st : list action) : Prop :=
  forall id, AExpire id ∈ st -> exists t, registered id t tr /\ t <= c.

(** A decision respects the deadline. *)
Definition decision_ok (tr : list event) (id : Z) (status : ack_status) (at_time : Z) : Prop :=
  exists t, registered id t tr /\
    match status with timeout => t <= at_time | acknowledged => at_time < t end.

Record time_inv (s : socket) (c : Z) (tr : list event) : Prop := mk_time_inv {
  ti_sched sc : ack_sched s = Some sc ->
    consistent sc /\ forall id t, deadlines sc !! id = Some t -> registered id t tr;
  ti_timed id f : timed_acks s !! id = Some f ->
    exists t sc, registered id t tr /\ ack_sched s = Some sc /\
      (deadlines sc !! id = Some t \/ (deadlines sc !! id = None /\ t <= c));
  ti_fresh id t : registered id t tr -> id < next_ack_id s;
  ti_unique id t t' : registered id t tr -> registered id t' tr -> t' = t;
  ti_decided id st tau : Decided id st tau ∈ tr -> timed_acks s !! id = None /\ decision_ok tr id st tau;
  ti_closed : timed_acks_closed s = true -> timed_acks s = ∅;
}.

Lemma registered_app id t tr evs : registered id t tr -> registered id t (tr ++ evs).
Proof. unfold registered. rewrite elem_of_app. auto. Qed.

Lemma stack_due_mono c c' tr evs st : c <= c' -> stack_due c tr st -> stack_due c' (tr ++ evs) st.
Proof.
  intros Hc H id Hin. destruct (H id Hin) as (t & Ht & Hle). exists t.
  split; [by apply registered_app|lia].
Qed.

Lemma stack_due_app c tr l k : stack_due c tr (l ++ k) <-> stack_due c tr l /\ stack_due c tr k.
Proof.
  unfold stack_due. split.
  - intros H. split; intros id Hin; apply H, elem_of_app; auto.
  - intros [H1 H2] id [Hin|Hin]%elem_of_app; auto.
Qed.

Lemma stack_due_plain c tr acts : forallb plain acts = true -> stack_due c tr acts.
Proof.
  intros Hp id Hin. exfalso. rewrite forallb_forall in Hp.
  apply list_elem_of_In in Hin. by apply Hp in Hin.
Qed.

Lemma stack_due_cons c tr a st : stack_due c tr (a :: st) -> stack_due c tr st.
Proof. intros H id Hin. apply H. by right. Qed.

Lemma unwind_subset s st s' st' a : unwind s st = (s', st') -> a ∈ st' -> a ∈ st.
Proof.
  revert s. induction st as [|b st IH]; intros s; cbn [unwind]; [by intros [= <- <-]|].
  destruct b; intros H Hin; try (right; by eapply IH). by injection H as <- <-.
Qed.

(** No event of these constructors. *)
Definition no_ack_event (e : event) : bool :=
  match e with Registered _ _ | Decided _ _ _ => false | _ => true end.

Lemma registered_quiet id t tr evs :
  forallb no_ack_event evs = true -> registered id t (tr ++ evs) <-> registered id t tr.
Proof.
  intros H. unfold registered. rewrite elem_of_app. split; [|auto]. intros [?|Hin]; [done|].
  rewrite forallb_forall in H. apply list_elem_of_In in Hin. by apply H in Hin.
Qed.

Lemma decided_quiet id st tau tr evs :
  forallb no_ack_event evs = true -> Decided id st tau ∈ tr ++ evs -> Decided id st tau ∈ tr.
Proof.
  intros H. rewrite elem_of_app. intros [?|Hin]; [done|].
  rewrite forallb_forall in H. apply list_elem_of_In in Hin. by apply H in Hin.
Qed.

Lemma quiet_no_ack a evs : quiet_events a evs -> forallb no_ack_event evs = true.
Proof. destruct a; cbn; naive_solver. Qed.

Lemma decision_ok_app tr evs id st tau : decision_ok tr id st tau -> decision_ok (tr ++ evs) id st tau.
Proof. intros (t & Ht & H). exists t. split; [by apply registered_app|done]. Qed.

(** A step that keeps the scheduler, only shrinks the timed callbacks, and
    records nothing about them. *)
Lemma time_inv_quiet s s' c tr evs :
  time_inv s c tr -> forallb no_ack_event evs = true ->
  ack_sched s' = ack_sched s -> (forall id f, timed_acks s' !! id = Some f -> timed_acks s !! id = Some f) ->
  next_ack_id s <= next_ack_id s' ->
  (timed_acks_closed s' = true -> timed_acks s' = ∅) ->
  time_inv s' c (tr ++ evs).
Proof.
  intros [H1 H2 H3 H4 H5 H6] He Hs Ht Hn Hc. split.
  - rewrite Hs. intros sc Hsc. destruct (H1 sc Hsc) as [? Hd]. split; [done|].
    intros. by apply registered_app, Hd.
  - rewrite Hs. intros id f Hf. destruct (H2 id f (Ht id f Hf)) as (t & sc & Hr & ?).
    exists t, sc. split; [by apply registered_app|done].
  - intros id t Hr. rewrite registered_quiet in Hr by done. apply H3 in Hr. lia.
  - intros id t t'. rewrite !registered_quiet by done. apply H4.
  - intros id st tau Hd%decided_quiet; [|done]. destruct (H5 _ _ _ Hd) as [Hnone Hok].
    split; [|by apply decision_ok_app]. destruct (timed_acks s' !! id) eqn:E; [|done].
    apply Ht in E. congruence.
  - done.
Qed.

Lemma time_inv_clock s c c' tr : c <= c' -> time_inv s c tr -> time_inv s c' tr.
Proof.
  intros Hc [H1 H2 H3 H4 H5 H6]. split; try done. intros id f Hf.
  destruct (H2 id f Hf) as (t & sc & Hr & Hs & Hd). exists t, sc. split_and!; [done..|].
  destruct Hd as [|[? ?]]; [by left|right; split; [done|lia]].
Qed.

(** A decision: the callback leaves the map, its deadline may leave the
    scheduler, the other deadlines stay. *)
Lemma time_inv_decide s s' c tr id f st sc sc' :
  time_inv s c tr -> timed_acks s !! id = Some f -> decision_ok tr id st c ->
  timed_acks s' = delete id (timed_acks s) -> next_ack_id s' = next_ack_id s ->
  timed_acks_closed s' = timed_acks_closed s ->
  ack_sched s = Some sc -> ack_sched s' = Some sc' -> consistent sc' ->
  (forall id', id' <> id -> deadlines sc' !! id' = deadlines sc !! id') ->
  (deadlines sc' !! id = None \/ deadlines sc' !! id = deadlines sc !! id) ->
  time_inv s' c (tr ++ [Decided id st c]).
Proof.
  intros [H1 H2 H3 H4 H5 H6] Hf Hok Et En Ec Es Es' Hcons Hother Hthis.
  assert (forall id' t, registered id' t (tr ++ [Decided id st c]) -> registered id' t tr) as Hr.
  { intros id' t. unfold registered. rewrite elem_of_app, list_elem_of_singleton. naive_solver. }
  destruct (H1 sc Es) as [_ Hd]. split.
  - rewrite Es'. intros ? [= <-]. split; [done|]. intros id' t E. apply registered_app, Hd.
    destruct (decide (id' = id)) as [->|]; [|by rewrite <-Hother]. destruct Hthis as [H|H]; congruence.
  - rewrite Es', Et. intros id' f' [Hne Hf']%lookup_delete_Some.
    destruct (H2 id' f' Hf') as (t & sc0 & Hr' & Hs0 & Hd0). exists t, sc'.
    rewrite Hother by done. rewrite Es in Hs0. injection Hs0 as <-.
    split_and!; [by apply registered_app|done|done].
  - intros id' t Hr'%Hr. rewrite En. by eapply H3.
  - intros id' t t' Ht%Hr Ht'%Hr. by eapply H4.
  - rewrite Et. intros id' st' tau [Hin|Hin%list_elem_of_singleton]%elem_of_app.
    + destruct (H5 _ _ _ Hin) as [Hnone Hok']. split; [|by apply decision_ok_app].
      destruct (decide (id' = id)) as [->|]; [congruence|]. by rewrite lookup_delete_ne.
    + injection Hin as -> -> ->. split; [apply lookup_delete_eq|by apply decision_ok_app].
  - rewrite Ec, Et. intros Hc. rewrite H6 in Hf by done. done.
Qed.

(** A registration: the id is fresh, so nothing was recorded for it. *)
Lemma time_inv_register s c tr d p f b acts evs :
  time_inv s c tr -> timed_acks_closed s = false -> next_ack_id s <> int_max ->
  let id := next_ack_id s in
  let sched := sched_add id d (default new_scheduler (ack_sched s)) in
  (b = send_buffer s /\ forallb plain acts = true /\ evs = [Registered id d] \/
   (connected s = false \/ flushing_send_buffer s = true) /\ acts = [] /\
     b = send_buffer s ++ [{| p with p_id := id |}] /\
     evs = [Registered id d; Buffered {| p with p_id := id |}]) ->
  time_inv {| s with ack_sched := Some sched; next_ack_id := id + 1;
                     timed_acks := emplace id f (timed_acks s); send_buffer := b |} c (tr ++ evs).
Proof.
  intros Hi Hc Hn id sched Hb. pose proof Hi as [H1 H2 H3 H4 H5 H6].
  assert (forall t, ~ registered id t tr) as Hfresh.
  { intros t Hr. apply H3 in Hr. unfold id in Hr. lia. }
  assert (timed_acks s !! id = None) as Et.
  { destruct (timed_acks s !! id) eqn:E; [|done]. destruct (H2 _ _ E) as (t & _ & Hr & _). by destruct (Hfresh t). }
  assert (consistent (default new_scheduler (ack_sched s)) /\
          forall id' t, deadlines (default new_scheduler (ack_sched s)) !! id' = Some t -> registered id' t tr) as [Hcons Hd].
  { destruct (ack_sched s) as [sc|] eqn:Es; [by apply H1|]. split; [apply consistent_new|done]. }
  assert (deadlines (default new_scheduler (ack_sched s)) !! id = None) as Ed.
  { destruct (deadlines _ !! id) as [t|] eqn:E; [|done]. apply Hd in E. by destruct (Hfresh t). }
  assert (forall id' t, registered id' t (tr ++ evs) <-> registered id' t tr \/ (id' = id /\ t = d)) as Hreg.
  { intros id' t. unfold registered. rewrite elem_of_app.
    assert (Registered id' t ∈ evs <-> id' = id /\ t = d) as ->; [|done].
    destruct Hb as [(_ & _ & ->)|(_ & _ & _ & ->)]; rewrite !elem_of_cons, elem_of_nil; naive_solver. }
  assert (forall id' st tau, Decided id' st tau ∈ tr ++ evs -> Decided id' st tau ∈ tr) as Hdec.
  { intros id' st tau. rewrite elem_of_app. intros [?|Hin]; [done|].
    destruct Hb as [(_ & _ & ->)|(_ & _ & _ & ->)]; rewrite !elem_of_cons, elem_of_nil in Hin; naive_solver. }
  assert (deadlines sched = <[id := d]> (deadlines (default new_scheduler (ack_sched s)))) as Esched.
  { unfold sched, sched_add, emplace; cbn. by rewrite Ed. }
  split; cbn.
  - intros ? [= <-]. split; [by eapply consistent_step, Hcons; constructor|].
    intros id' t. rewrite Esched, Hreg. intros [[<- <-]|[_ ?%Hd]]%lookup_insert_Some; auto.
  - unfold emplace. rewrite Et. intros id' f' [[<- <-]|[Hne Hf]]%lookup_insert_Some.
    + exists d, sched. rewrite Hreg, Esched, lookup_insert_eq. naive_solver.
    + destruct (H2 id' f' Hf) as (t & sc & Hr & Es & Hd'). exists t, sched. rewrite Hreg, Esched.
      rewrite lookup_insert_ne by done. rewrite Es. cbn. split_and!; [by left|done|exact Hd'].
  - intros id' t [Hr|[-> _]]%Hreg; [apply H3 in Hr; unfold id; lia|lia].
  - intros id' t t' [Hr|[-> ->]]%Hreg [Hr'|[Ei ->]]%Hreg; [by eapply H4| | |done].
    + subst. by destruct (Hfresh t).
    + by destruct (Hfresh t').
  - intros id' st tau Hin%Hdec. destruct (H5 _ _ _ Hin) as [Hnone (t & Hr & Ht)]. split.
    + unfold emplace. rewrite Et. rewrite lookup_insert_ne; [done|]. intros <-. by destruct (Hfresh t).
    + exists t. split; [by apply Hreg; left|done].
  - congruence.
Qed.

Ltac time_quiet s Hi := apply (time_inv_quiet s); try done; try (cbn; lia); cbn; apply Hi.

Lemma effect_time now a rest s s' acts evs tr :
  effect now a s s' acts evs -> time_inv s now tr -> stack_due now tr (a :: rest) ->
  time_inv s' now (tr ++ evs) /\ stack_due now (tr ++ evs) (acts ++ rest).
Proof.
  intros He Hi Hst. pose proof (stack_due_cons _ _ _ _ Hst) as Hrest.
  rewrite stack_due_app. apply (stack_due_mono now now tr evs) in Hrest; [|lia].
  enough (time_inv s' now (tr ++ evs) /\ stack_due now (tr ++ evs) acts) by tauto.
  destruct He as [a s s' acts evs _ _ Hs Hp Hq|m s s' p _ Hs|p s Hc|d p f s s' b acts evs Hc Hn id sched -> Hb'
    |s s' Hc ->|s s' p buffer a E Hc -> Ha'|id f s E|id d f sc s E Es expired status|s|s|reason s acts Hc Hp
    |a s acts _ _ Hp|s].
  - split; [|by apply stack_due_plain]. destruct Hs as [_ Ht _ Hc _ Hn _ Hs].
    apply (time_inv_quiet s); [done|by eapply quiet_no_ack|done|by rewrite Ht|lia|].
    rewrite Ht, Hc. apply Hi.
  - split; [|by apply stack_due_plain]. destruct Hs as [_ Ht _ Hc _ Hn _ Hs]. cbn in *.
    apply (time_inv_quiet s); [done|done|done|by rewrite Ht|lia|]. rewrite Ht, Hc. apply Hi.
  - split; [|by apply stack_due_plain]. time_quiet s Hi.
  - split; [|destruct Hb' as [(_ & Hp & _)|(_ & -> & _)]; by apply stack_due_plain].
    by eapply time_inv_register.
  - split; [|by apply stack_due_plain]. time_quiet s Hi.
  - split; [time_quiet s Hi|]. rewrite app_nil_r.
    destruct Ha' as [->|(-> & f & sc & Ef & Es & Hx)]; intros id Hin.
    { rewrite !elem_of_cons in Hin. destruct Hin as [?|[?|[]%elem_of_nil]]; done. }
    rewrite !elem_of_cons in Hin. destruct Hin as [[= ->]|[?|[]%elem_of_nil]]; [|done].
    destruct (ti_timed _ _ _ Hi _ _ Ef) as (t & sc' & Hr & Es' & Hd). rewrite Es in Es'. injection Es' as <-.
    exists t. split; [done|]. destruct Hd as [Hd|[_ ?]]; [|done].
    unfold sched_expired in Hx. rewrite Hd in Hx. lia.
  - split; [|intros id' Hin; set_solver].
    destruct (Hst id) as (t & Hr & Hle); [by left|].
    destruct (ti_timed _ _ _ Hi _ _ E) as (t' & sc & Hr' & Es & Hd).
    eapply (time_inv_decide s _ now tr id f timeout sc sc); try done.
    + exists t. by split.
    + by apply (ti_sched _ _ _ Hi).
    + by right.
  - split; [|intros id' Hin; set_solver].
    destruct (ti_timed _ _ _ Hi _ _ E) as (t & sc0 & Hr & Es0 & Hd). rewrite Es in Es0. injection Es0 as <-.
    destruct (ti_sched _ _ _ Hi sc Es) as [Hcons _].
    eapply (time_inv_decide s _ now tr id f status sc (sched_remove now id sc).2); try done.
    + exists t. split; [done|]. unfold status, expired, sched_remove.
      destruct (deadlines sc !! id) as [t'|] eqn:Ed; cbn [fst].
      * destruct Hd as [Hd|[Hd _]]; [|done]. injection Hd as ->. destruct (Z.leb_spec t now); lia.
      * destruct Hd as [Hd|[_ Hd]]; done.
    + by eapply consistent_step, Hcons; constructor.
    + intros id' Hne. unfold sched_remove. destruct (deadlines sc !! id); [|done]. cbn. by apply lookup_delete_ne.
    + left. unfold sched_remove. destruct (deadlines sc !! id) eqn:Ed; [apply lookup_delete_eq|done].
  - split; [|by apply stack_due_plain]. rewrite app_nil_r. destruct Hi as [H1 H2 H3 H4 H5 H6].
    split; cbn; try done.
    + intros sc' (sc & _ & ->)%fmap_Some. split; [intros t id; set_solver|done].
    + intros id st tau Hd. destruct (H5 _ _ _ Hd). done.
  - split; [|by apply stack_due_plain]. time_quiet s Hi.
  - split; [time_quiet s Hi|].
    apply stack_due_app. split; [|by apply stack_due_plain].
    destruct (flushing_send_buffer s); intros id Hin; set_solver.
  - split; [|by apply stack_due_plain]. time_quiet s Hi.
  - split; [|by apply stack_due_plain]. time_quiet s Hi.
Qed.

Lemma local_time now s st s' st' evs tr :
  local_step now s st s' st' evs -> time_inv s now tr -> stack_due now tr st ->
  time_inv s' now (tr ++ evs) /\ stack_due now (tr ++ evs) st'.
Proof.
  assert (forall s rest s' rest', unwind s rest = (s', rest') ->
    time_inv s now tr -> stack_due now tr rest ->
    time_inv s' now (tr ++ []) /\ stack_due now (tr ++ []) rest') as Hunwind.
  { intros s0 rest s1 rest' Hu Hi Hst. split.
    - apply unwind_active in Hu as [-> _]. apply (time_inv_quiet s0); try done; cbn; apply Hi.
    - intros id Hin. rewrite app_nil_r. apply Hst. by eapply unwind_subset. }
  intros [a rest s0 s1 acts evs0 _ H|a rest s0 e s1 rest' _ Hu|a rest s0 s1 rest' _ Hu|m rest s0|rest s0
    |rest s0 s1 rest' Hu] Hi Hst.
  - eapply effect_time; [by apply action_effect|done..].
  - eapply Hunwind; [done..|by eapply stack_due_cons].
  - eapply Hunwind; [done..|by eapply stack_due_cons].
  - rewrite app_nil_r. split; [done|]. intros id [?|Hin]%elem_of_cons; [done|]. by apply Hst.
  - rewrite app_nil_r. split; [done|]. by eapply stack_due_cons.
  - eapply Hunwind; [done..|by eapply stack_due_cons].
Qed.

Definition system_time (sy : system) : Prop :=
  time_inv (sock sy) (clock sy) (trace sy) /\ stack_due (clock sy) (trace sy) (worker sy) /\
  Forall (stack_due (clock sy) (trace sy)) (threads sy).

Lemma stack_due_all c tr evs ts : Forall (stack_due c tr) ts -> Forall (stack_due c (tr ++ evs)) ts.
Proof. intros H. eapply Forall_impl; [exact H|]. intros st. apply stack_due_mono. lia. Qed.

Lemma worker_claim_time s c tr sc id sc' :
  time_inv s c tr -> ack_sched s = Some sc -> worker_turn c sc = WorkerExpire id sc' ->
  time_inv {| s with ack_sched := Some sc' |} c tr /\ stack_due c tr [AExpire id].
Proof.
  intros Hi Es Hw. pose proof Hi as [H1 H2 H3 H4 H5 H6]. destruct (H1 sc Es) as [Hcons Hd].
  assert (consistent sc') as Hcons' by (by eapply consistent_step, Hcons; econstructor).
  unfold worker_turn in Hw. destruct (stopped sc); [done|]. destruct (decide (deadlines sc = ∅)); [done|].
  destruct (first_entry (ordered sc)) as [[t i]|] eqn:E; [|done]. cbn [fst snd] in Hw.
  destruct (Z.ltb_spec c t) as [|Hle]; [done|]. injection Hw as -> <-.
  apply first_entry_Some in E as [Hin _]. apply Hcons in Hin. split.
  - split; cbn; try done.
    + intros ? [= <-]. split; [done|]. cbn. intros id' t' [_ ?]%lookup_delete_Some. by apply Hd.
    + intros id' f Hf. destruct (H2 id' f Hf) as (t' & sc0 & Hr & Es0 & Hd0). rewrite Es in Es0. injection Es0 as <-.
      eexists t', _. split_and!; [done|reflexivity|]. cbn. destruct (decide (id' = id)) as [->|].
      * right. rewrite lookup_delete_eq. split; [done|]. destruct Hd0 as [|[? ?]]; [congruence|done].
      * by rewrite lookup_delete_ne.
  - intros id' [[= ->]|[]%elem_of_nil]%elem_of_cons. exists t. split; [by apply Hd|done].
Qed.

Lemma system_time_step sy sy' : step sy sy' -> system_time sy -> system_time sy'.
Proof.
  unfold system_time. intros [s w l1 st l2 c tr s' st' evs H|s w ts c tr s' w' evs H|s ts c tr sc id sc' E1 E2
    |s w ts c tr c' Hc|s w ts c tr] (Hi & Hw & Hts); cbn [sock worker threads clock trace] in *.
  - apply Forall_app in Hts as [Hl1 Hst]. apply Forall_cons in Hst as [Hst Hl2].
    destruct (local_time _ _ _ _ _ _ _ H Hi Hst) as [Hi' Hst']. split_and!; [done| |].
    + apply stack_due_mono with (2 := Hw). lia.
    + apply Forall_app. split; [by apply stack_due_all|]. constructor; [done|by apply stack_due_all].
  - destruct (local_time _ _ _ _ _ _ _ H Hi Hw) as [Hi' Hw']. split_and!; [done|done|by apply stack_due_all].
  - destruct (worker_claim_time _ _ _ _ _ _ Hi E1 E2). done.
  - split_and!; [by eapply time_inv_clock| |].
    + intros id Hin. destruct (Hw id Hin) as (t & ? & ?). exists t. split; [done|lia].
    + eapply Forall_impl; [exact Hts|]. intros st Hst id Hin.
      destruct (Hst id Hin) as (t & ? & ?). exists t. split; [done|lia].
  - split_and!; [|done..]. destruct Hi. by split.
Qed.

Lemma reachable_time sy : reachable sy -> system_time sy.
Proof.
  apply reachable_invariant; [|apply system_time_step]. intros nsp auth n c. split_and!; cbn.
  - split; cbn; try done; unfold registered; intros; set_solver.
  - intros id []%elem_of_nil.
  - apply Forall_replicate. intros id [?|[]%elem_of_nil]%elem_of_cons. done.
Qed.

(** ** Decisions and calls *)

Definition decides (id : Z) (e : event) : bool :=
  match e with Decided id' _ _ => bool_decide (id' = id) | _ => false end.
Definition calls (id : Z) (e : event) : bool :=
  match e with Called (CallTimed _ id' _ _) => bool_decide (id' = id) | _ => false end.
(** A call of the callback of [id] that is about to be made. *)
Definition will_call (id : Z) (a : action) : bool :=
  match a with ACall (CallTimed _ id' _ _) => bool_decide (id' = id) | _ => false end.

Definition ecnt (P : event -> bool) (tr : list event) : nat := length (List.filter P tr).

Lemma ecnt_app P l k : ecnt P (l ++ k) = (ecnt P l + ecnt P k)%nat.
Proof. unfold ecnt. by rewrite List.filter_app, length_app. Qed.

Lemma ecnt_one P e : ecnt P [e] = Nat.b2n (P e).
Proof. unfold ecnt. cbn. by destruct (P e). Qed.

Lemma ecnt_zero P tr : (forall e, e ∈ tr -> P e = false) -> ecnt P tr = 0%nat.
Proof.
  unfold ecnt. induction tr as [|e tr IH]; [done|]. intros H. cbn.
  rewrite H by (by left). apply IH. intros. apply H. by right.
Qed.

Definition calls_inv (id : Z) (pending : nat) (tr : list event) : Prop :=
  (ecnt (calls id) tr + pending <= ecnt (decides id) tr <= 1)%nat.

Lemma undecided s c tr id f : time_inv s c tr -> timed_acks s !! id = Some f -> ecnt (decides id) tr = 0%nat.
Proof.
  intros Hi Hf. apply ecnt_zero. intros e He. destruct e as [| | | | |id' st tau]; try done. cbn.
  apply bool_decide_eq_false. intros ->. apply (ti_decided _ _ _ Hi) in He as [He _]. congruence.
Qed.

Lemma plain_will_call id a : plain a = true -> will_call id a = false.
Proof. destruct a; try done. by destruct c. Qed.

Lemma effect_calls now a rest s s' acts evs tr id k :
  effect now a s s' acts evs -> time_inv s now tr ->
  calls_inv id (cnt (will_call id) (a :: rest) + k) tr ->
  calls_inv id (cnt (will_call id) (acts ++ rest) + k) (tr ++ evs).
Proof.
  unfold calls_inv. rewrite cnt_app, cnt_cons, !ecnt_app. intros He Hi Hc.
  assert (forall acts, forallb plain acts = true -> cnt (will_call id) acts = 0%nat) as Hplain.
  { intros l Hl. apply (plain_cnt _ _ Hl). apply plain_will_call. }
  destruct He as [a s s' acts evs _ _ Hs Hp Hq|m s s' p _ Hs|p s _|d p f s s' b acts evs _ _ id' sched -> Hb'
    |s s' _ ->|s s' p buffer a E _ -> Ha'|id' f s E|id' d f sc s E Es expired status|s|s|reason s acts _ Hp
    |a s acts _ _ Hp|s].
  - rewrite (Hplain acts) by done. destruct a; cbn in Hq; try (destruct Hq as [->| ->]); subst; rewrite ?ecnt_one; cbn in *; try lia.
  - cbn in *. lia.
  - cbn in *. lia.
  - destruct Hb' as [(_ & Hp & ->)|(_ & -> & _ & ->)]; rewrite ?(Hplain _ Hp); cbn in *; lia.
  - cbn in *. lia.
  - destruct Ha' as [->|[-> _]]; cbn in *; lia.
  - pose proof (undecided _ _ _ id' f Hi E) as Hz. rewrite !ecnt_one, !cnt_cons.
    cbn [calls decides will_call Nat.b2n cnt List.filter length] in *. destruct (decide (id' = id)) as [->|Hne].
    + rewrite !bool_decide_eq_true_2 by done. cbn. lia.
    + rewrite !bool_decide_eq_false_2 by done. cbn. lia.
  - pose proof (undecided _ _ _ id' f Hi E) as Hz. rewrite !ecnt_one, !cnt_cons.
    cbn [calls decides will_call Nat.b2n cnt List.filter length] in *. destruct (decide (id' = id)) as [->|Hne].
    + rewrite !bool_decide_eq_true_2 by done. cbn. lia.
    + rewrite !bool_decide_eq_false_2 by done. cbn. lia.
  - cbn in *. lia.
  - cbn in *. lia.
  - rewrite cnt_app, (Hplain acts) by done. destruct (flushing_send_buffer s); cbn in *; lia.
  - rewrite (Hplain acts) by done. cbn in *. lia.
  - cbn in *. lia.
Qed.

Lemma local_calls now s st s' st' evs tr id k :
  local_step now s st s' st' evs -> time_inv s now tr ->
  calls_inv id (cnt (will_call id) st + k) tr ->
  calls_inv id (cnt (will_call id) st' + k) (tr ++ evs).
Proof.
  intros [a rest s0 s1 acts evs0 _ H|a rest s0 e s1 rest' _ Hu|a rest s0 s1 rest' _ Hu|m rest s0|rest s0
    |rest s0 s1 rest' Hu] Hi Hc; [by eapply effect_calls, Hc; [apply action_effect|]|..];
    rewrite app_nil_r; unfold calls_inv in *; rewrite !cnt_cons in *; cbn [will_call Nat.b2n] in *;
    try (apply (unwind_cnt_le (will_call id)) in Hu); try lia.
Qed.

Definition system_calls (sy : system) : Prop :=
  forall id, calls_inv id (total (will_call id) sy) (trace sy).

Lemma reachable_calls sy : reachable sy -> system_calls sy.
Proof.
  intros Hr. assert (system_time sy /\ system_calls sy) as [_ ?]; [|done].
  revert sy Hr. apply reachable_invariant.
  - intros. split; [apply reachable_time; exists nsp, auth, n, c; apply rtc_refl|].
    intros id. rewrite total_start by done. unfold calls_inv, ecnt; cbn. lia.
  - intros sy sy' Hs [Ht Hc]. split; [by eapply system_time_step|]. intros id. specialize (Hc id).
    destruct Hs as [s w l1 st l2 c tr s' st' evs H|s w ts c tr s' w' evs H|s ts c tr sc id' sc' E1 E2
      |s w ts c tr c' Hle|s w ts c tr]; cbn [trace] in *; [| |exact Hc..].
    + rewrite total_threads in Hc |- *. by eapply local_calls, Hc; [|apply Ht].
    + unfold total in *; cbn [worker threads] in *. by eapply local_calls, Hc; [|apply Ht].
Qed.

(** *** The outcome a callback receives is the one that was decided *)

Definition call_decided (tr : list event) (c : invocation) : Prop :=
  match c with
  | CallTimed f id st d => (exists tau, Decided id st tau ∈ tr) /\ (st = timeout -> d = JNull)
  | _ => True
  end.

Definition stack_decided (tr : list event) (st : list action) : Prop :=
  forall c, ACall c ∈ st -> call_decided tr c.

Definition trace_decided (tr : list event) : Prop := forall c, Called c ∈ tr -> call_decided tr c.

Lemma call_decided_app tr evs c : call_decided tr c -> call_decided (tr ++ evs) c.
Proof.
  destruct c; try done. intros [(tau & Hd) Hn]. split; [|done]. exists tau. apply elem_of_app. by left.
Qed.

Lemma stack_decided_app tr evs st : stack_decided tr st -> stack_decided (tr ++ evs) st.
Proof. intros H c Hc. by apply call_decided_app, H. Qed.

Lemma plain_decided tr acts : forallb plain acts = true -> stack_decided tr acts.
Proof.
  intros Hp c Hc. apply list_elem_of_In in Hc. rewrite forallb_forall in Hp. apply Hp in Hc. by destruct c.
Qed.

Lemma effect_decided now a rest s s' acts evs tr :
  effect now a s s' acts evs -> trace_decided tr -> stack_decided tr (a :: rest) ->
  trace_decided (tr ++ evs) /\ stack_decided (tr ++ evs) (acts ++ rest).
Proof.
  intros He Ht Hst.
  assert (stack_decided (tr ++ evs) rest) as Hrest.
  { apply stack_decided_app. intros c Hc. apply Hst. by right. }
  assert (forall acts, stack_decided (tr ++ evs) acts -> stack_decided (tr ++ evs) (acts ++ rest)) as Happ.
  { intros l Hl c [Hc|Hc]%elem_of_app; auto. }
  assert ((forall c, Called c ∉ evs) -> trace_decided (tr ++ evs)) as Hno.
  { intros Hn c [Hc|Hc]%elem_of_app; [by apply call_decided_app, Ht|by destruct (Hn c)]. }
  destruct He as [a s s' acts evs _ _ Hs Hp Hq|m s s' p _ Hs|p s _|d p f s s' b acts evs _ _ id' sched -> Hb'
    |s s' _ ->|s s' p buffer a E _ -> Ha'|id' f s E|id' d f sc s E Es expired status|s|s|reason s acts _ Hp
    |a s acts _ _ Hp|s].
  - split; [|by apply Happ, plain_decided].
    intros c [Hc|Hc]%elem_of_app; [by apply call_decided_app, Ht|]. apply call_decided_app, Hst.
    destruct a; cbn in Hq; try (destruct Hq as [->| ->]); subst; set_solver.
  - split; [apply Hno; set_solver|by apply Happ, plain_decided].
  - split; [apply Hno; set_solver|by apply Happ, plain_decided].
  - destruct Hb' as [(_ & Hp & ->)|(_ & -> & _ & ->)]; (split; [apply Hno; set_solver|]);
      [by apply Happ, plain_decided|done].
  - split; [apply Hno; set_solver|done].
  - split; [apply Hno; set_solver|]. apply Happ. intros c. destruct Ha' as [->|[-> _]]; set_solver.
  - split; [apply Hno; set_solver|]. apply Happ. intros c [[= ->]|[?|[]%elem_of_nil]%elem_of_cons]%elem_of_cons; [|done].
    split; [|done]. exists now. apply elem_of_app. right. by left.
  - split; [apply Hno; set_solver|]. apply Happ. intros c [[= ->]|[?|[]%elem_of_nil]%elem_of_cons]%elem_of_cons; [|done].
    split; [exists now; apply elem_of_app; right; by left|]. unfold status. by destruct expired.
  - split; [apply Hno; set_solver|done].
  - split; [apply Hno; set_solver|done].
  - split; [apply Hno; set_solver|]. apply Happ. intros c [Hc|Hc]%elem_of_app; [|by eapply plain_decided].
    destruct (flushing_send_buffer s); set_solver.
  - split; [apply Hno; set_solver|by apply Happ, plain_decided].
  - split; [apply Hno; set_solver|done].
Qed.

Definition system_decided (sy : system) : Prop :=
  trace_decided (trace sy) /\ stack_decided (trace sy) (worker sy) /\ Forall (stack_decided (trace sy)) (threads sy).

Lemma local_decided now s st s' st' evs tr :
  local_step now s st s' st' evs -> trace_decided tr -> stack_decided tr st ->
  trace_decided (tr ++ evs) /\ stack_decided (tr ++ evs) st'.
Proof.
  intros [a rest s0 s1 acts evs0 _ H|a rest s0 e s1 rest' _ Hu|a rest s0 s1 rest' _ Hu|m rest s0|rest s0
    |rest s0 s1 rest' Hu] Ht Hst; [by eapply effect_decided; [apply action_effect| |]|..];
    rewrite app_nil_r; (split; [done|]); intros c Hc; apply Hst;
    try (right; eapply unwind_subset; [exact Hu|exact Hc]); set_solver.
Qed.

Lemma reachable_decided sy : reachable sy -> system_decided sy.
Proof.
  apply reachable_invariant.
  - intros. split_and!; cbn.
    + intros ? []%elem_of_nil.
    + intros ? []%elem_of_nil.
    + apply Forall_replicate. intros ? [?|[]%elem_of_nil]%elem_of_cons. done.
  - assert (forall tr evs ts, Forall (stack_decided tr) ts -> Forall (stack_decided (tr ++ evs)) ts) as Hall.
    { intros tr evs ts H. eapply Forall_impl; [exact H|]. intros. by apply stack_decided_app. }
    intros sy0 sy' Hs (Ht & Hw & Hts).
    destruct Hs as [s w l1 st l2 c tr s' st' evs H|s w ts c tr s' w' evs H|s ts c tr sc id' sc' E1 E2
      |s w ts c tr c' Hle|s w ts c tr]; cbn [trace worker threads] in *.
    + apply Forall_app in Hts as [Hl1 Hst]. apply Forall_cons in Hst as [Hst Hl2].
      destruct (local_decided _ _ _ _ _ _ _ H Ht Hst) as [Ht' Hst'].
      split_and!; [done|by apply stack_decided_app|]. apply Forall_app. split; [by apply Hall|].
      constructor; [done|by apply Hall].
    + destruct (local_decided _ _ _ _ _ _ _ H Ht Hw) as [Ht' Hw']. split_and!; [done|done|by apply Hall].
    + split_and!; [done| |done]. intros c' [?|[]%elem_of_nil]%elem_of_cons. done.
    + done.
    + done.
Qed.
