(* ===== verification/SocketOrder.v ===== *)
(** * Order of buffered packets, and acknowledgements sent once *)

From S2P Require Export SocketAcks.
From stdpp Require Import options.
#[local] Set Default Proof Using "Type*".
Local Open Scope Z_scope.

(** ** The send buffer is a queue *)

(** Packets accepted into the buffer, and packets the flush loop has sent, in order. *)
Definition buffered_of (tr : list event) : list packet :=
  omap (fun e => match e with Buffered p => Some p | _ => None end) tr.
Definition flushed_of (tr : list event) : list packet :=
  omap (fun e => match e with Sent true p => Some p | _ => None end) tr.

Definition no_flush_send (st : list action) : Prop := forall p, ASend true p ∉ st.

(** The flush loop's send is the next action of its thread, the loop follows. *)
Definition flush_shape (st : list action) : Prop :=
  match st with
  | ASend true p :: rest => (exists rest', rest = AFlush :: rest') /\ no_flush_send rest
  | _ => no_flush_send st
  end.

(** The packet the flush loop of a thread holds. *)
Definition in_flight (st : list action) : list packet :=
  match st with ASend true p :: _ => [p] | _ => [] end.

(** What the flush loop sent, what it holds and what is buffered is, in this
    order, a subsequence of what was accepted. *)
Definition order_inv (s : socket) (held : list packet) (tr : list event) : Prop :=
  sublist (flushed_of tr ++ held ++ send_buffer s) (buffered_of tr).

Lemma no_flush_send_in_flight st : no_flush_send st -> in_flight st = [].
Proof. intros H. destruct st as [|[| [] p| | | | | | | | |] st]; try done. destruct (H p). by left. Qed.

Lemma no_flush_send_app l k : no_flush_send (l ++ k) <-> no_flush_send l /\ no_flush_send k.
Proof.
  unfold no_flush_send. split.
  - intros H. split; intros p Hp; apply (H p), elem_of_app; auto.
  - intros [H1 H2] p [Hp|Hp]%elem_of_app; [by eapply H1|by eapply H2].
Qed.

Lemma flush_shape_tail a rest : flush_shape (a :: rest) -> no_flush_send rest.
Proof.
  assert (no_flush_send (a :: rest) -> no_flush_send rest) as H.
  { intros H p Hp. apply (H p). by right. }
  destruct a as [|[] p| | | | | | | | |]; cbn; auto. by intros [_ ?].
Qed.

Lemma no_flush_send_shape st : no_flush_send st -> flush_shape st.
Proof.
  intros H. destruct st as [|[|[] p| | | | | | | | |] st]; try exact H. destruct (H p). by left.
Qed.

Lemma plain_no_flush_send acts : forallb plain acts = true -> no_flush_send acts.
Proof. intros Hp p Hin. apply list_elem_of_In in Hin. rewrite forallb_forall in Hp. by apply Hp in Hin. Qed.

Lemma shape_in_flight st : flush_shape st -> cnt is_flush st = 0%nat -> in_flight st = [].
Proof.
  destruct st as [|[|[] p| | | | | | | | |] st]; try done. cbn. intros [(rest' & ->) _]. done.
Qed.

Lemma unwind_head s st s' st' : unwind s st = (s', st') -> in_flight st' = [].
Proof.
  revert s. induction st as [|a st IH]; intros s; cbn [unwind]; [by intros [= <- <-]|].
  destruct a; intros H; try by eapply IH. by injection H as <- <-.
Qed.

Lemma unwind_no_flush_send s st s' st' : unwind s st = (s', st') -> no_flush_send st -> no_flush_send st'.
Proof. intros Hu H p Hp. apply (H p). by eapply unwind_subset. Qed.

Lemma filter_sublist {A} (P : A -> Prop) `{!forall x, Decision (P x)} (l : list A) : sublist (filter P l) l.
Proof.
  induction l as [|x l IH]; [constructor|]. rewrite filter_cons. case_decide; by constructor.
Qed.

(** The buffer shrinks, the trace records nothing of the order. *)
Lemma order_inv_shrink s s' held held' tr evs :
  order_inv s held tr -> flushed_of evs = [] -> buffered_of evs = [] ->
  sublist (held' ++ send_buffer s') (held ++ send_buffer s) ->
  order_inv s' held' (tr ++ evs).
Proof.
  unfold order_inv, flushed_of, buffered_of. rewrite !omap_app. intros H -> -> Hs. rewrite !app_nil_r.
  etrans; [|exact H]. by apply sublist_app.
Qed.

Lemma order_inv_accept s s' held tr p evs :
  order_inv s held tr -> flushed_of evs = [] -> buffered_of evs = [p] -> send_buffer s' = send_buffer s ++ [p] ->
  order_inv s' held (tr ++ evs).
Proof.
  unfold order_inv, flushed_of, buffered_of. rewrite !omap_app. intros H -> -> ->. rewrite app_nil_r.
  rewrite !app_assoc in *. by apply sublist_app.
Qed.

Lemma effect_order now a rest s s' acts evs tr o :
  effect now a s s' acts evs -> flush_shape (a :: rest) -> (a = AFlush -> o = []) ->
  (forall p, a = ASend true p -> o = []) ->
  order_inv s (o ++ in_flight (a :: rest)) tr ->
  order_inv s' (o ++ in_flight (acts ++ rest)) (tr ++ evs) /\ flush_shape (acts ++ rest).
Proof.
  intros He Hsh Ho1 Ho2 Hi. pose proof (flush_shape_tail _ _ Hsh) as Hrest.
  pose proof (no_flush_send_in_flight _ Hrest) as Hr0.
  assert (forall acts, forallb plain acts = true -> in_flight (acts ++ rest) = [] /\ flush_shape (acts ++ rest)) as Hplain.
  { intros l Hl%plain_no_flush_send. assert (no_flush_send (l ++ rest)) by (by apply no_flush_send_app).
    split; [by apply no_flush_send_in_flight|by apply no_flush_send_shape]. }
  assert (sublist ((o ++ []) ++ send_buffer s) ((o ++ in_flight (a :: rest)) ++ send_buffer s)) as Hdrop.
  { apply sublist_app; [|done]. apply sublist_app; [done|apply sublist_nil_l]. }
  destruct He as [a s s' acts evs _ _ Hs Hp Hq|m s s' p _ Hs|p s _|d p f s s' b acts evs _ _ id' sched -> Hb'
    |s s' _ ->|s s' p buffer a E _ -> Ha'|id' f s E|id' d f sc s E Es expired status|s|s|reason s acts _ Hp
    |a s acts _ _ Hp|s].
  - destruct (Hplain _ Hp) as [-> ?]. split; [|done]. destruct Hs as [_ _ _ _ Hb _ _ _].
    destruct a as [|[] p| | | | | | | | |]; cbn in Hq; try (destruct Hq as [->| ->]); subst;
      try (eapply order_inv_shrink; [exact Hi|done|done|by rewrite Hb]; fail).
    rewrite (Ho2 p eq_refl) in *. unfold order_inv, flushed_of, buffered_of in *. rewrite !omap_app; cbn in *.
    rewrite app_nil_r, Hb, <-app_assoc. exact Hi.
  - destruct (Hplain [ASendOrBuffer p] eq_refl) as [-> ?]. split; [|done]. destruct Hs as [_ _ _ _ Hb _ _ _].
    eapply order_inv_shrink; [exact Hi|done|done|by rewrite Hb].
  - destruct (Hplain [] eq_refl) as [-> ?]. split; [|done]. by eapply order_inv_accept.
  - destruct Hb' as [(-> & Hp & ->)|(_ & -> & -> & ->)].
    + destruct (Hplain _ Hp) as [-> ?]. split; [|done]. eapply order_inv_shrink; [exact Hi|done|done|done].
    + destruct (Hplain [] eq_refl) as [-> ?]. split; [|done]. by eapply order_inv_accept.
  - destruct (Hplain [] eq_refl) as [-> ?]. split; [|done]. eapply order_inv_shrink; [exact Hi|done|done|done].
  - rewrite (Ho1 eq_refl) in *. cbn [in_flight app] in Hi. unfold order_inv in Hi. rewrite E in Hi. cbn in Hi.
    destruct Ha' as [->|[-> _]]; cbn [in_flight app].
    + split; [|split; [by eexists|]]; [by rewrite app_nil_r|].
      intros q [?|?]%elem_of_cons; [done|by eapply Hrest].
    + split; [|intros q; rewrite !elem_of_cons; intros [?|[?|?]]; [done..|by eapply Hrest]].
      rewrite app_nil_r. unfold order_inv; cbn. etrans; [|exact Hi].
      apply sublist_app; [done|]. by apply sublist_cons.
  - cbn [in_flight app]. split; [|intros q; rewrite !elem_of_cons; intros [?|[?|?]]; [done..|by eapply Hrest]].
    eapply order_inv_shrink; [exact Hi|done|done|]. apply sublist_app; [done|apply filter_sublist].
  - cbn [in_flight app]. split; [|intros q; rewrite !elem_of_cons; intros [?|[?|?]]; [done..|by eapply Hrest]].
    eapply order_inv_shrink; [exact Hi|done|done|]. apply sublist_app; [done|apply filter_sublist].
  - destruct (Hplain [] eq_refl) as [-> ?]. split; [|done].
    eapply order_inv_shrink; [exact Hi|done|done|]. apply sublist_app; [done|apply filter_sublist].
  - destruct (Hplain [] eq_refl) as [-> ?]. split; [|done]. eapply order_inv_shrink; [exact Hi|done|done|done].
  - assert (no_flush_send (((if flushing_send_buffer s then [] else [AFlush]) ++ acts) ++ rest)) as Hn.
    { apply no_flush_send_app. split; [|done]. apply no_flush_send_app. split; [|by apply plain_no_flush_send].
      intros q. destruct (flushing_send_buffer s); set_solver. }
    split; [|by apply no_flush_send_shape]. rewrite (no_flush_send_in_flight _ Hn).
    eapply order_inv_shrink; [exact Hi|done|done|done].
  - destruct (Hplain _ Hp) as [-> ?]. split; [|done]. eapply order_inv_shrink; [exact Hi|done|done|done].
  - destruct (Hplain [] eq_refl) as [-> ?]. split; [|done]. eapply order_inv_shrink; [exact Hi|done|done|done].
Qed.

Lemma local_order now s st s' st' evs tr o :
  local_step now s st s' st' evs -> flush_shape st -> ((1 <= cnt is_flush st)%nat -> o = []) ->
  order_inv s (o ++ in_flight st) tr ->
  order_inv s' (o ++ in_flight st') (tr ++ evs) /\ flush_shape st'.
Proof.
  assert (forall a rest s s' rest', unwind s rest = (s', rest') -> flush_shape (a :: rest) ->
    order_inv s (o ++ in_flight (a :: rest)) tr ->
    order_inv s' (o ++ in_flight rest') (tr ++ []) /\ flush_shape rest') as Hunwind.
  { intros a rest s0 s1 rest' Hu Hsh Hi. pose proof (flush_shape_tail _ _ Hsh) as Hr. split.
    - rewrite (unwind_head _ _ _ _ Hu). apply unwind_active in Hu as [-> _].
      eapply order_inv_shrink; [exact Hi|done|done|]. cbn.
      apply sublist_app; [|done]. apply sublist_app; [done|apply sublist_nil_l].
    - by eapply no_flush_send_shape, unwind_no_flush_send. }
  intros [a rest s0 s1 acts evs0 _ H|a rest s0 e s1 rest' _ Hu|a rest s0 s1 rest' _ Hu|m rest s0|rest s0
    |rest s0 s1 rest' Hu] Hsh Ho Hi.
  - eapply effect_order; [by apply action_effect|done| | |done].
    + intros ->. apply Ho. rewrite cnt_cons. cbn. lia.
    + intros p ->. apply Ho. destruct Hsh as [(rest' & ->) _]. rewrite !cnt_cons. cbn. lia.
  - by eapply Hunwind.
  - by eapply Hunwind.
  - rewrite (app_nil_r tr). split; [done|]. intros p. rewrite !elem_of_cons. intros [?|[?|Hp]]; [done..|].
    by apply (flush_shape_tail _ _ Hsh p).
  - rewrite (app_nil_r tr). pose proof (flush_shape_tail _ _ Hsh) as Hr.
    rewrite (no_flush_send_in_flight _ Hr). split; [done|by apply no_flush_send_shape].
  - by eapply Hunwind.
Qed.

Definition held_by (sts : list (list action)) : list packet := concat (List.map in_flight sts).
Definition stacks (sy : system) : list (list action) := worker sy :: threads sy.

Definition system_order (sy : system) : Prop :=
  Forall flush_shape (stacks sy) /\ order_inv (sock sy) (held_by (stacks sy)) (trace sy).

Lemma held_by_app l k : held_by (l ++ k) = held_by l ++ held_by k.
Proof. unfold held_by. by rewrite map_app, concat_app. Qed.

Lemma held_none sts :
  Forall flush_shape sts -> list_sum (List.map (cnt is_flush) sts) = 0%nat -> held_by sts = [].
Proof.
  induction 1 as [|st sts Hst Hsts IH]; [done|]. cbn [List.map].
  change (list_sum (?x :: ?l)) with (x + list_sum l)%nat. intros H.
  change (held_by (st :: sts)) with (in_flight st ++ held_by sts).
  rewrite IH by lia. by rewrite (shape_in_flight st) by (done || lia).
Qed.

(** With at most one flush loop, the position of its thread does not matter. *)
Lemma held_by_split l1 st l2 :
  Forall flush_shape (l1 ++ st :: l2) ->
  (list_sum (List.map (cnt is_flush) (l1 ++ st :: l2)) <= 1)%nat ->
  held_by (l1 ++ st :: l2) = (held_by l1 ++ held_by l2) ++ in_flight st /\
  ((1 <= cnt is_flush st)%nat -> held_by l1 ++ held_by l2 = []).
Proof.
  rewrite list_sum_split. intros [H1 [Hst H2]%Forall_cons]%Forall_app Hle.
  rewrite held_by_app. change (held_by (st :: l2)) with (in_flight st ++ held_by l2).
  destruct (decide (cnt is_flush st = 0%nat)) as [E|E].
  - rewrite (shape_in_flight st Hst E). rewrite app_nil_r. split; [done|lia].
  - rewrite (held_none l1), (held_none l2) by (done || lia). cbn. by rewrite app_nil_r.
Qed.

Lemma system_flush_le sy : system_core sy -> (list_sum (List.map (cnt is_flush) (stacks sy)) <= 1)%nat.
Proof.
  intros (_ & H & _). change (total is_flush sy <= 1)%nat.
  destruct (flushing_send_buffer (sock sy)); cbn in H; lia.
Qed.

Lemma order_step_at c s st s' st' evs tr l1 l2 :
  local_step c s st s' st' evs -> Forall flush_shape (l1 ++ st :: l2) ->
  (list_sum (List.map (cnt is_flush) (l1 ++ st :: l2)) <= 1)%nat ->
  (list_sum (List.map (cnt is_flush) (l1 ++ st' :: l2)) <= 1)%nat ->
  order_inv s (held_by (l1 ++ st :: l2)) tr ->
  Forall flush_shape (l1 ++ st' :: l2) /\ order_inv s' (held_by (l1 ++ st' :: l2)) (tr ++ evs).
Proof.
  intros Hl Hsh Hle Hle' Hi. destruct (held_by_split _ _ _ Hsh Hle) as [E Ho]. rewrite E in Hi.
  pose proof Hsh as [H1 [Hst H2]%Forall_cons]%Forall_app.
  destruct (local_order _ _ _ _ _ _ _ _ Hl Hst Ho Hi) as [Hi' Hst'].
  assert (Forall flush_shape (l1 ++ st' :: l2)) as Hsh'.
  { apply Forall_app. split; [done|by constructor]. }
  split; [done|]. by rewrite (proj1 (held_by_split _ _ _ Hsh' Hle')).
Qed.

Lemma reachable_order sy : reachable sy -> system_order sy.
Proof.
  intros Hr. assert (system_core sy /\ system_order sy) as [_ ?]; [|done].
  revert sy Hr. apply reachable_invariant.
  - intros. split; [apply reachable_core; exists nsp, auth, n, c; apply rtc_refl|].
    assert (forall l, Forall (eq []) (List.map in_flight l) -> held_by l = []) as Hnil.
    { intros l. unfold held_by. induction l; cbn; [done|]. intros [<- ?]%Forall_cons. auto. }
    split.
    + constructor; [intros ? []%elem_of_nil|]. apply Forall_replicate. intros p Hp. set_solver.
    + unfold order_inv, stacks; cbn [worker threads start sock]. rewrite Hnil; [done|].
      constructor; [done|]. cbn. induction n; cbn; by constructor.
  - intros sy0 sy' Hs [Hc [Hsh Hi]]. pose proof (system_core_step _ _ Hs Hc) as Hc'. split; [done|].
    apply system_flush_le in Hc, Hc'. unfold system_order.
    destruct Hs as [s w l1 st l2 c tr s' st' evs H|s w ts c tr s' w' evs H|s ts c tr sc id' sc' E1 E2
      |s w ts c tr c' Hle|s w ts c tr]; unfold stacks in *; cbn [trace worker threads sock] in *.
    + by eapply (order_step_at c s st s' st' evs tr (w :: l1) l2).
    + by eapply (order_step_at c s w s' w' evs tr [] ts).
    + apply Forall_cons in Hsh as [_ Hsh]. split; [constructor; [|done]|exact Hi].
      intros p Hp. set_solver.
    + done.
    + done.
Qed.

(** ** An incoming event is acknowledged at most once *)

Definition sends_ack (k : nat) (e : event) : bool :=
  match e with SentAck k' _ => bool_decide (k' = k) | _ => false end.
Definition will_send_ack (k : nat) (a : action) : bool :=
  match a with ASendAck k' _ => bool_decide (k' = k) | _ => false end.

Definition flag_inv (s : socket) (k pending : nat) (tr : list event) : Prop :=
  (ecnt (sends_ack k) tr + pending <= match sent_flags s !! k with Some true => 1 | _ => 0 end)%nat.

(** Only the closure raises a flag and makes a packet for it. *)
Lemma run_action_flags now a s s' acts evs k :
  run_action now a s = Ok (s', acts, evs) ->
  match a with
  | ADo (MAcknowledge x reply) =>
      evs = [] /\
      (sent_flags s' = sent_flags s /\ acts = [] \/
       sent_flags s !! ack_flag x = Some false /\ sent_flags s' = <[ack_flag x := true]> (sent_flags s) /\
       exists p, acts = [ASendAck (ack_flag x) p])
  | ASendAck k' p => sent_flags s' = sent_flags s /\ acts = [] /\ (evs = [] \/ evs = [SentAck k' p])
  | _ => (sent_flags s' = sent_flags s \/ sent_flags s' = sent_flags s ++ [false]) /\
         cnt (will_send_ack k) acts = 0%nat /\ ecnt (sends_ack k) evs = 0%nat
  end.
Proof.
  intros H. destruct a as [m| | | | | | | | | |]; [destruct m|..]; cbn [run_action call_method] in H.
  15: { unfold acknowledge in H. destruct (sent_flags s !! ack_flag ack) as [[]|]; injection H as <- <- <-; eauto 10. }
  all: try (injection H as <- <- <-; auto; fail).
  - unfold emit_ack, next_id in H. destruct (_ =? _); [done|]. injection H as <- <- <-. auto.
  - unfold emit_timed in H. destruct callback; [|done]. destruct (_ <=? 0); [done|]. injection H as <- <- <-. auto.
  - injection H as <- <- <-. split_and!; [destruct (_ && _); auto| |done].
    rewrite cnt_app. assert (forall f c, cnt (will_send_ack k) (call_if f c) = 0%nat) as Hc by (by intros []).
    destruct (default None (listeners s !! event)), (any_listener _); rewrite ?Hc; done.
  - unfold dispatch_ack, with_sched in H. destruct (timed_acks s !! id).
    + destruct (ack_sched s); [|done]. cbn [mbind outcome_bind] in H. destruct (sched_remove _ _ _).
      injection H as <- <- <-. auto.
    + destruct (pending_acks s !! id) as [[]|]; injection H as <- <- <-; auto.
  - unfold mark_connected in H. assert (forall f c, cnt (will_send_ack k) (call_if f c) = 0%nat) as Hc by (by intros []).
    cbn in H. injection H as H.
    destruct (up && negb (connected s)); [|destruct (negb up && connected s)]; injection H as <- <- <-;
      rewrite ?cnt_app, ?Hc; [|by auto|by auto].
    destruct (flushing_send_buffer s); auto.
  - injection H as <- <- <-. destruct (client s); auto.
  - injection H as <- <- <-. destruct (client s); auto.
  - unfold send_or_buffer in H. destruct (_ || _); injection H as <- <- <-; auto.
  - unfold register_and_send, register_timed_ack, next_id, with_sched in H.
    destruct (timed_acks_closed s); [done|]. cbn [next_ack_id] in H. destruct (_ =? _); [done|].
    cbn [mbind outcome_bind ack_sched] in H. destruct (sched_expired _ _ _); [injection H as <- <- <-; auto|].
    destruct (_ || _); injection H as <- <- <-; auto.
  - unfold flush_turn, with_sched in H. destruct (send_buffer s); [injection H as <- <- <-; auto|].
    destruct (negb (connected s)); [injection H as <- <- <-; auto|].
    destruct (timed_acks _ !! _); [|injection H as <- <- <-; auto].
    cbn [ack_sched] in H. destruct (ack_sched s); [|done]. cbn [mbind outcome_bind] in H.
    destruct (sched_expired _ _ _); injection H as <- <- <-; auto.
  - unfold expire_ack in H. destruct (timed_acks s !! id); injection H as <- <- <-; auto.
Qed.

Lemma local_flags now s st s' st' evs tr k j :
  local_step now s st s' st' evs ->
  flag_inv s k (cnt (will_send_ack k) st + j) tr ->
  flag_inv s' k (cnt (will_send_ack k) st' + j) (tr ++ evs).
Proof.
  unfold flag_inv.
  assert (forall a rest s s' rest', unwind s rest = (s', rest') ->
    sent_flags s' = sent_flags s /\ (cnt (will_send_ack k) rest' <= cnt (will_send_ack k) (a :: rest))%nat) as Hunwind.
  { intros a rest s0 s1 rest' Hu. pose proof (unwind_cnt_le (will_send_ack k) _ _ _ _ Hu).
    apply unwind_active in Hu as [-> _]. rewrite cnt_cons. cbn. split; [done|lia]. }
  intros [a rest s0 s1 acts evs0 _ H|a rest s0 e s1 rest' _ Hu|a rest s0 s1 rest' _ Hu|m rest s0|rest s0
    |rest s0 s1 rest' Hu] Hi.
  - apply (run_action_flags _ _ _ _ _ _ k) in H. rewrite cnt_app, cnt_cons, ecnt_app in *.
    assert (forall fl, fl = sent_flags s0 \/ fl = sent_flags s0 ++ [false] ->
      (match sent_flags s0 !! k with Some true => 1 | _ => 0 end <= match fl !! k with Some true => 1 | _ => 0 end)%nat) as Hfl.
    { intros fl [->| ->]; [done|]. destruct (sent_flags s0 !! k) as [[]|] eqn:E; try lia.
      by rewrite (lookup_app_l_Some _ _ _ _ E). }
    destruct a as [m| | | | | | | | | |]; [destruct m|..];
      try (destruct H as (Hs & H1 & H2); rewrite H1, H2; specialize (Hfl _ Hs); cbn in Hi; lia).
    + destruct H as (-> & [[-> ->]|(Hx & -> & p & ->)]); [cbn in *; lia|].
      rewrite cnt_cons. unfold ecnt at 2. cbn in Hi |- *.
      destruct (decide (ack_flag ack = k)) as [E|E].
      * rewrite E in *. rewrite bool_decide_eq_true_2 by done. rewrite Hx in Hi.
        rewrite list_lookup_insert_eq by (by eapply lookup_lt_Some). cbn. lia.
      * rewrite bool_decide_eq_false_2 by done. rewrite list_lookup_insert_ne by done. cbn. lia.
    + destruct H as (-> & -> & [->| ->]); rewrite ?ecnt_one; cbn in *; [lia|].
      destruct (bool_decide (flag = k)); cbn in *; lia.
  - rewrite app_nil_r. destruct (Hunwind a _ _ _ _ Hu) as [-> ?]. lia.
  - rewrite app_nil_r. destruct (Hunwind a _ _ _ _ Hu) as [-> ?]. lia.
  - rewrite app_nil_r. rewrite !cnt_cons in *. cbn in *. lia.
  - rewrite app_nil_r. rewrite !cnt_cons in *. cbn in *. lia.
  - rewrite app_nil_r. destruct (Hunwind AUser _ _ _ _ Hu) as [-> ?]. lia.
Qed.

Lemma reachable_flags sy k : reachable sy -> flag_inv (sock sy) k (total (will_send_ack k) sy) (trace sy).
Proof.
  revert sy. apply reachable_invariant.
  - intros. rewrite total_start by done. unfold flag_inv, ecnt. cbn. lia.
  - intros sy sy' Hs Hi.
    destruct Hs as [s w l1 st l2 c tr s' st' evs H|s w ts c tr s' w' evs H|s ts c tr sc id' sc' E1 E2
      |s w ts c tr c' Hle|s w ts c tr]; cbn [sock trace] in *; [| |exact Hi..].
    + rewrite total_threads in Hi |- *. by eapply local_flags, Hi.
    + unfold total in *; cbn [worker threads] in *. by eapply local_flags, Hi.
Qed.
