(* ===== verification/SocketSpec.v ===== *)
(** * Properties of the socket *)

From S2P Require Export SocketOrder.
From stdpp Require Import options.
#[local] Set Default Proof Using "Type*".
Local Open Scope Z_scope.

(** ** Lemmas: timed calls stand before their [AFinish] *)

Fixpoint call_shape (st : list action) : Prop :=
  match st with
  | [] => True
  | a :: rest => (is_timed_call a = true -> head rest = Some AFinish) /\ call_shape rest
  end.

Lemma call_shape_plain acts rest : forallb plain acts = true -> call_shape rest -> call_shape (acts ++ rest).
Proof.
  induction acts as [|a acts IH]; [done|]. cbn [forallb app call_shape]. intros [Ha Hp]%andb_prop Hr.
  split; [|by apply IH]. destruct a as [| | | | | | |[]| | |]; done.
Qed.

Lemma call_shape_unwind s st s' st' : unwind s st = (s', st') -> call_shape st -> call_shape st'.
Proof.
  revert s. induction st as [|a st IH]; intros s; cbn [unwind call_shape]; [by intros [= <- <-]|].
  intros Hu [Ha Hst]. destruct a; try (by eapply IH). injection Hu as <- <-. by split.
Qed.

Lemma call_shape_local now s st s' st' evs :
  local_step now s st s' st' evs -> call_shape st -> call_shape st'.
Proof.
  intros [a rest s0 s1 acts evs0 _ H|a rest s0 e s1 rest' _ Hu|a rest s0 s1 rest' _ Hu|m rest s0|rest s0
    |rest s0 s1 rest' Hu] [Ha Hr]; try (by eapply call_shape_unwind); try done.
  apply action_effect in H. clear Ha.
  destruct H as [a u u' acts evs1 _ _ Hs Hp Hq|m u u' p _ Hs|p u _|d p f u u' b acts evs1 _ _ id' sched -> Hb'
    |u u' _ ->|u u' p buffer a E _ -> Ha'|id' f u E|id' d f sc u E Es expired status|u|u|reason u acts _ Hp
    |a u acts _ _ Hp|u]; try (by apply call_shape_plain); try done.
  - destruct Hb' as [(_ & Hp & _)|(_ & -> & _)]; [by apply call_shape_plain|done].
  - by destruct Ha' as [->|[-> _]].
  - rewrite <-app_assoc. pose proof (call_shape_plain _ _ Hp Hr).
    by destruct (flushing_send_buffer u).
Qed.

Lemma reachable_call_shape sy : reachable sy -> Forall call_shape (stacks sy).
Proof.
  apply (reachable_invariant (fun sy => Forall call_shape (stacks sy))).
  - intros. constructor; [done|]. by apply Forall_replicate.
  - intros sy0 sy' Hs H. unfold stacks in *.
    destruct Hs as [s w l1 st l2 c tr s' st' evs Hl|s w ts c tr s' w' evs Hl|s ts c tr sc id' sc' E1 E2
      |s w ts c tr c' Hle|s w ts c tr]; cbn [worker threads] in *; apply Forall_cons in H as [Hw H].
    + constructor; [done|]. apply Forall_app in H as [H1 [Hst H2]%Forall_cons]. apply Forall_app.
      split; [done|]. constructor; [by eapply call_shape_local|done].
    + constructor; [by eapply call_shape_local|done].
    + constructor; done.
    + constructor; done.
    + constructor; done.
Qed.

Lemma call_shape_cnt st : call_shape st -> cnt is_finish st = 0%nat -> cnt is_timed_call st = 0%nat.
Proof.
  induction st as [|a st IH]; [done|]. cbn [call_shape]. rewrite !cnt_cons. intros [Ha Hst] H.
  rewrite IH by (done || lia). destruct (is_timed_call a) eqn:E; [|done].
  exfalso. specialize (Ha eq_refl). destruct st as [|b st]; [done|]. injection Ha as ->.
  rewrite cnt_cons in H. cbn in H. lia.
Qed.

Lemma total_stacks P sy : total P sy = list_sum (List.map (cnt P) (stacks sy)).
Proof. reflexivity. Qed.

Lemma list_sum_zero (f : list action -> nat) sts st : list_sum (List.map f sts) = 0%nat -> st ∈ sts -> f st = 0%nat.
Proof.
  induction sts as [|x sts IH]; [by intros _ ?%elem_of_nil|]. cbn [List.map].
  change (list_sum (?x :: ?l)) with (x + list_sum l)%nat. intros H [->|Hin]%elem_of_cons; [lia|].
  apply IH; [lia|done].
Qed.

Lemma list_sum_all_zero (f : list action -> nat) sts : (forall st, st ∈ sts -> f st = 0%nat) -> list_sum (List.map f sts) = 0%nat.
Proof.
  induction sts as [|x sts IH]; [done|]. intros H. cbn [List.map].
  change (list_sum (?x :: ?l)) with (x + list_sum l)%nat. rewrite H by (by left).
  rewrite IH; [done|]. intros. apply H. by right.
Qed.

(** No callback runs: none is about to be called either. *)
Lemma no_timed_calls sy : reachable sy -> active_timed_acks (sock sy) = 0%nat -> total is_timed_call sy = 0%nat.
Proof.
  intros Hr Ha. pose proof (reachable_call_shape _ Hr) as Hsh. rewrite Forall_forall in Hsh.
  destruct (reachable_core _ Hr) as (Hf & _). rewrite Ha in Hf. rewrite total_stacks in Hf |- *.
  apply list_sum_all_zero. intros st Hin. apply call_shape_cnt; [by apply Hsh|].
  by eapply list_sum_zero.
Qed.

(** ** Lemmas: a socket that was shut down *)

Definition is_timed_event (e : event) : bool :=
  match e with Called (CallTimed _ _ _ _) => true | _ => false end.

(** Nothing of the timed emissions is left. *)
Definition silent (sy : system) : Prop :=
  timed_acks (sock sy) = ∅ /\ total is_finish sy = 0%nat /\ total is_timed_call sy = 0%nat.

Lemma local_silent now s st s' st' evs k j :
  local_step now s st s' st' evs -> timed_acks s = ∅ ->
  (cnt is_finish st + k = 0)%nat -> (cnt is_timed_call st + j = 0)%nat ->
  (cnt is_finish st' + k = 0)%nat /\ (cnt is_timed_call st' + j = 0)%nat /\ ecnt is_timed_event evs = 0%nat.
Proof.
  assert (forall a, plain a = true -> is_timed_call a = false) as Hpt.
  { by intros [| | | | | | |[]| | |]. }
  intros [a rest s0 s1 acts evs0 _ H|a rest s0 e s1 rest' _ Hu|a rest s0 s1 rest' _ Hu|m rest s0|rest s0
    |rest s0 s1 rest' Hu] Ht Hf Hc; rewrite ?cnt_cons in Hf, Hc;
    try (pose proof (unwind_cnt_le is_finish _ _ _ _ Hu); pose proof (unwind_cnt_le is_timed_call _ _ _ _ Hu);
         split_and!; [lia|lia|done]); try (rewrite ?cnt_cons; cbn in *; split_and!; [lia|lia|done]).
  apply action_effect in H. rewrite !cnt_app. revert Hf Hc.
  destruct H as [a u u' acts evs1 _ H2 Hs Hp Hq|m u u' p _ Hs|p u _|d p f u u' b acts evs1 _ _ id' sched -> Hb'
    |u u' _ ->|u u' p buffer a E _ -> Ha'|id' f u E|id' d f sc u E Es expired status|u|u|reason u acts _ Hp
    |a u acts _ _ Hp|u]; intros Hf Hc; try (cbn in *; split_and!; [lia|lia|done]).
  - rewrite (plain_cnt _ _ Hp plain_not_finish), (plain_cnt _ _ Hp Hpt). split_and!; [lia|lia|].
    destruct a as [| | | | | | |[]| | |]; cbn in Hq; try (destruct Hq as [->| ->]); subst; done.
  - destruct Hb' as [(_ & Hp & ->)|(_ & -> & _ & ->)];
      rewrite ?(plain_cnt _ _ Hp plain_not_finish), ?(plain_cnt _ _ Hp Hpt); cbn in *; split_and!; [lia|lia|done..].
  - destruct Ha' as [->|[-> _]]; cbn in *; split_and!; [lia|lia|done..].
  - rewrite Ht in E. done.
  - rewrite Ht in E. done.
  - rewrite !cnt_app, (plain_cnt _ _ Hp plain_not_finish), (plain_cnt _ _ Hp Hpt).
    destruct (flushing_send_buffer u); cbn in *; split_and!; [lia|lia|done..].
  - rewrite (plain_cnt _ _ Hp plain_not_finish), (plain_cnt _ _ Hp Hpt). cbn in *; split_and!; [lia|lia|done].
Qed.

Lemma silent_step sy sy' :
  step sy sy' -> silent sy -> timed_acks (sock sy') = ∅ ->
  silent sy' /\ ecnt is_timed_event (trace sy') = ecnt is_timed_event (trace sy).
Proof.
  intros Hs (Ht & Hf & Hc) Ht'. unfold silent.
  destruct Hs as [s w l1 st l2 c tr s' st' evs Hl|s w ts c tr s' w' evs Hl|s ts c tr sc id' sc' E1 E2
    |s w ts c tr c' Hle|s w ts c tr]; cbn [sock trace] in *.
  - rewrite !total_threads in *. destruct (local_silent _ _ _ _ _ _ _ _ Hl Ht Hf Hc) as (H1 & H2 & H3).
    rewrite ecnt_app, H3. split_and!; [done..|lia].
  - unfold total in *; cbn [worker threads] in *.
    destruct (local_silent _ _ _ _ _ _ _ _ Hl Ht Hf Hc) as (H1 & H2 & H3).
    rewrite ecnt_app, H3. split_and!; [done..|lia].
  - done.
  - done.
  - done.
Qed.

(** ** Lemmas: a flush loop that died *)

(** The flag is set, but no thread is in the loop that would clear it. *)
Definition stuck (sy : system) : Prop :=
  flushing_send_buffer (sock sy) = true /\ total is_flush sy = 0%nat /\ Forall no_flush_send (stacks sy).

Ltac solve_no_send :=
  let q := fresh "q" in intros q; rewrite ?elem_of_cons, ?elem_of_nil; naive_solver.

Lemma local_stuck now s st s' st' evs k :
  local_step now s st s' st' evs -> flushing_send_buffer s = true ->
  (cnt is_flush st + k = 0)%nat -> no_flush_send st ->
  flushing_send_buffer s' = true /\ (cnt is_flush st' + k = 0)%nat /\ no_flush_send st' /\ flushed_of evs = [].
Proof.
  intros [a rest s0 s1 acts evs0 _ H|a rest s0 e s1 rest' _ Hu|a rest s0 s1 rest' _ Hu|m rest s0|rest s0
    |rest s0 s1 rest' Hu] Hfl Hf Hn; rewrite ?cnt_cons in Hf;
    apply (no_flush_send_app [_]) in Hn as Hn'; destruct Hn' as [Ha Hr];
    try (pose proof (unwind_cnt_le is_flush _ _ _ _ Hu); pose proof (unwind_no_flush_send _ _ _ _ Hu Hr);
         apply unwind_active in Hu as [-> _]; split_and!; [done|lia|done|done]).
  - apply action_effect in H. rewrite !cnt_app, no_flush_send_app. revert Hf Ha Hfl.
    assert (forall l, forallb plain l = true -> cnt is_flush l = 0%nat /\ no_flush_send l) as Hplain.
    { intros l Hl. split; [by apply (plain_cnt _ _ Hl plain_not_flush)|by apply plain_no_flush_send]. }
    destruct H as [a u u' acts evs1 _ _ Hs Hp Hq|m u u' p _ Hs|p u _|d p f u u' b acts evs1 _ _ id' sched -> Hb'
    |u u' _ ->|u u' p buffer a E _ -> Ha'|id' f u E|id' d f sc u E Es expired status|u|u|reason u acts _ Hp
    |a u acts _ _ Hp|u]; intros Hf Ha Hfl; try (cbn in Hf; lia).
    + destruct (Hplain _ Hp) as [-> ?]. destruct Hs as [_ _ _ _ _ _ -> _]. split_and!; [done|lia|done|done|].
      destruct a as [|[] q| | | | | | | | |]; cbn in Hq; try (destruct Hq as [->| ->]); subst; try done.
      destruct (Ha q). by left.
    + destruct Hs as [_ _ _ _ _ _ -> _]. cbn in *. split_and!; [done|lia| |done|done]. solve_no_send.
    + cbn in *. split_and!; [done|lia| |done|done]. solve_no_send.
    + destruct Hb' as [(_ & Hp & ->)|(_ & -> & _ & ->)].
      * destruct (Hplain _ Hp) as [-> ?]. cbn in *. split_and!; [done|lia|done|done|done].
      * cbn in *. split_and!; [done|lia| |done|done]. solve_no_send.
    + cbn in *. split_and!; [done|lia| |done|done]. solve_no_send.
    + cbn in *. split_and!; [done|lia| |done|done]. solve_no_send.
    + cbn in *. split_and!; [done|lia| |done|done]. solve_no_send.
    + cbn in *. split_and!; [done|lia| |done|done]. solve_no_send.
    + rewrite Hfl. cbn [app]. destruct (Hplain _ Hp) as [-> ?]. cbn in *. split_and!; [done|lia|done|done|done].
    + destruct (Hplain _ Hp) as [-> ?]. cbn in *. split_and!; [done|lia|done|done|done].
    + cbn in *. split_and!; [done|lia| |done|done]. solve_no_send.
  - rewrite !cnt_cons. cbn in *. split_and!; [done|lia| |done]. intros q. rewrite !elem_of_cons. intros [?|[?|Hq]]; [done|done|by apply (Hr q)].
  - cbn in *. split_and!; [done|lia|done|done].
Qed.

Lemma flushed_of_app l k : flushed_of (l ++ k) = flushed_of l ++ flushed_of k.
Proof. apply omap_app. Qed.

Lemma stuck_step sy sy' : step sy sy' -> stuck sy -> stuck sy' /\ flushed_of (trace sy') = flushed_of (trace sy).
Proof.
  intros Hs (Hfl & Hf & Hn). unfold stuck, stacks in *.
  destruct Hs as [s w l1 st l2 c tr s' st' evs Hl|s w ts c tr s' w' evs Hl|s ts c tr sc id' sc' E1 E2
    |s w ts c tr c' Hle|s w ts c tr]; cbn [sock trace worker threads] in *; apply Forall_cons in Hn as [Hw Hn].
  - rewrite !total_threads in *. apply Forall_app in Hn as [H1 [Hst H2]%Forall_cons].
    destruct (local_stuck _ _ _ _ _ _ _ Hl Hfl Hf Hst) as (H3 & H4 & H5 & H6).
    rewrite flushed_of_app, H6, app_nil_r. split_and!; [done|done| |done].
    constructor; [done|]. apply Forall_app. split; [done|by constructor].
  - unfold total in *; cbn [worker threads] in *.
    destruct (local_stuck _ _ _ _ _ _ _ Hl Hfl Hf Hw) as (H3 & H4 & H5 & H6).
    rewrite flushed_of_app, H6, app_nil_r. split_and!; [done|done|by constructor|done].
  - split_and!; [done|done| |done]. constructor; [|done]. solve_no_send.
  - split_and!; [done|done|by constructor|done].
  - split_and!; [done|done|by constructor|done].
Qed.

(** ** Lemmas: one thread on its own *)

(** Runs a stack to its end while no other thread interferes, user code returns
    at once and sending succeeds.  Every turn takes one unit of fuel. *)
Fixpoint run_alone (fuel : nat) (now : Z) (s : socket) (st : list action) : socket * list action * list event :=
  match fuel with
  | O => (s, st, [])
  | S fuel =>
      match st with
      | [] => (s, [], [])
      | AUser :: rest => run_alone fuel now s rest
      | a :: rest =>
          match run_action now a s with
          | Ok (s', acts, evs) => let '(s'', st', evs') := run_alone fuel now s' (acts ++ rest) in (s'', st', evs ++ evs')
          | Throw _ => (s, st, [])
          end
      end
  end.

(** The callback of a buffered packet whose deadline has passed. *)
Definition overdue (now : Z) (s : socket) (p : packet) : option Z :=
  match timed_acks s !! p_id p, ack_sched s with
  | Some f, Some sc => if sched_expired now (p_id p) sc then Some f else None
  | _, _ => None
  end.

(** What flushing one packet does. *)
Definition flush_events (now : Z) (s : socket) (p : packet) : list event :=
  match overdue now s p with
  | Some f => [Decided (p_id p) timeout now; Called (CallTimed f (p_id p) timeout JNull)]
  | None => [Sent true p]
  end.

(** The callbacks still registered afterwards. *)
Definition flush_timed (now : Z) (s : socket) (buffer : list packet) : gmap Z Z :=
  foldr (fun p m => match overdue now s p with Some _ => delete (p_id p) m | None => m end) (timed_acks s) buffer.

(** A packet whose callback is timed is buffered once. *)
Definition timed_once (s : socket) (buffer : list packet) : Prop :=
  forall l p k, buffer = l ++ p :: k -> is_Some (timed_acks s !! p_id p) -> forall q, q ∈ k -> p_id q <> p_id p.

Definition flushed (now : Z) (s : socket) : socket :=
  {| s with send_buffer := []; flushing_send_buffer := false; timed_acks := flush_timed now s (send_buffer s) |}.

Definition has_sched (s : socket) : Prop := forall id, is_Some (timed_acks s !! id) -> is_Some (ack_sched s).

Lemma drop_buffered_none id buffer : (forall q, q ∈ buffer -> p_id q <> id) -> drop_buffered id buffer = buffer.
Proof. intros H. apply filter_all. apply Forall_forall. exact H. Qed.

Lemma timed_once_tail s p buffer : timed_once s (p :: buffer) -> timed_once s buffer.
Proof. intros H l q k E. apply (H (p :: l) q k). by rewrite E. Qed.

(** Overdue packets after another one was expired. *)
Lemma overdue_delete now s s1 id q :
  timed_acks s1 = delete id (timed_acks s) -> ack_sched s1 = ack_sched s -> p_id q <> id ->
  overdue now s1 q = overdue now s q.
Proof. intros Et Es Hne. unfold overdue. rewrite Et, Es. by rewrite lookup_delete_ne. Qed.

Lemma flush_timed_delete now s s1 id buffer :
  timed_acks s1 = delete id (timed_acks s) -> ack_sched s1 = ack_sched s ->
  (forall q, q ∈ buffer -> p_id q <> id) ->
  flush_timed now s1 buffer = delete id (flush_timed now s buffer).
Proof.
  intros Et Es. unfold flush_timed. induction buffer as [|q buffer IH]; intros Hne; cbn [foldr]; [done|].
  rewrite IH by (intros; apply Hne; by right).
  rewrite (overdue_delete now s s1 id q Et Es) by (apply Hne; by left).
  destruct (overdue now s q); [|done]. apply delete_delete.
Qed.

Lemma flush_turn_empty now s :
  send_buffer s = [] -> flush_turn now s = Ok ({| s with flushing_send_buffer := false |}, [], []).
Proof. unfold flush_turn. by destruct (send_buffer s). Qed.

(** The loop's turn on a packet, by whether it is overdue. *)
Lemma flush_turn_packet now s p buffer :
  send_buffer s = p :: buffer -> connected s = true -> has_sched s ->
  flush_turn now s = Ok ({| s with send_buffer := buffer |},
    [match overdue now s p with Some _ => AExpire (p_id p) | None => ASend true p end; AFlush], []).
Proof.
  intros Eb Hc Hs. unfold flush_turn, overdue.
  assert (negb (connected s) = false) as -> by (by rewrite Hc). rewrite Eb.
  cbn [timed_acks]. destruct (timed_acks s !! p_id p) as [f|] eqn:Et; [|done].
  destruct (Hs (p_id p)) as [sc Es]; [by eexists|]. unfold with_sched. cbn [ack_sched].
  destruct (ack_sched s); [|done]. injection Es as ->. cbn [mbind outcome_bind].
  by destruct (sched_expired _ _ _).
Qed.

Lemma run_alone_step fuel now a s rest s' acts evs :
  a <> AUser -> run_action now a s = Ok (s', acts, evs) ->
  run_alone (S fuel) now s (a :: rest)
  = let '(s'', st', evs') := run_alone fuel now s' (acts ++ rest) in (s'', st', evs ++ evs').
Proof. intros Ha H. cbn [run_alone]. rewrite H. by destruct a. Qed.

Lemma run_alone_user fuel now s rest : run_alone (S fuel) now s (AUser :: rest) = run_alone fuel now s rest.
Proof. reflexivity. Qed.

Lemma flush_events_delete now s s1 id buffer :
  timed_acks s1 = delete id (timed_acks s) -> ack_sched s1 = ack_sched s ->
  (forall q, q ∈ buffer -> p_id q <> id) ->
  (buffer ≫= flush_events now s1) = (buffer ≫= flush_events now s).
Proof.
  intros Et Es. induction buffer as [|q buffer IH]; intros Hne; [done|].
  rewrite !bind_cons, IH by (intros; apply Hne; by right). unfold flush_events.
  by rewrite (overdue_delete now s s1 id q) by (done || apply Hne; by left).
Qed.

(** A packet whose deadline has passed: four more turns call its callback. *)
Lemma run_alone_overdue fuel now rest s p buffer f :
  send_buffer s = p :: buffer -> connected s = true -> has_sched s -> overdue now s p = Some f ->
  (forall q, q ∈ buffer -> p_id q <> p_id p) ->
  run_alone (5 + fuel) now s (AFlush :: rest) =
  let '(s', st', evs) := run_alone fuel now
    {| s with send_buffer := buffer; timed_acks := delete (p_id p) (timed_acks s) |} (AFlush :: rest) in
  (s', st', flush_events now s p ++ evs).
Proof.
  intros Eb Hc Hs Eo Hne.
  assert (timed_acks s !! p_id p = Some f) as Et.
  { unfold overdue in Eo. destruct (timed_acks s !! p_id p), (ack_sched s); try done.
    destruct (sched_expired _ _ _); [|done]. congruence. }
  cbn [Nat.add]. erewrite run_alone_step; [|done|by apply (flush_turn_packet now s p buffer)]. rewrite Eo. cbn [app].
  erewrite run_alone_step; [|done|]; [|cbn [run_action]; unfold expire_ack; cbn [timed_acks]; by rewrite Et].
  cbn [app send_buffer]. rewrite drop_buffered_none by done. unfold invoke_timed_ack. cbn [app].
  erewrite run_alone_step; [|done|reflexivity]. cbn [app].
  rewrite run_alone_user. erewrite run_alone_step; [|done|reflexivity]. cbn [app].
  match goal with |- context [run_alone fuel now ?x (AFlush :: rest)] =>
    change x with {| s with send_buffer := buffer; timed_acks := delete (p_id p) (timed_acks s) |} end.
  destruct (run_alone fuel now _ (AFlush :: rest)) as [[s' st'] evs].
  unfold flush_events. by rewrite Eo.
Qed.

(** A packet that is sent: two turns. *)
Lemma run_alone_send fuel now rest s p buffer :
  send_buffer s = p :: buffer -> connected s = true -> client s = true -> has_sched s -> overdue now s p = None ->
  run_alone (2 + fuel) now s (AFlush :: rest) =
  let '(s', st', evs) := run_alone fuel now {| s with send_buffer := buffer |} (AFlush :: rest) in
  (s', st', flush_events now s p ++ evs).
Proof.
  intros Eb Hc Hcl Hs Eo. cbn [Nat.add].
  erewrite run_alone_step; [|done|by apply (flush_turn_packet now s p buffer)]. rewrite Eo. cbn [app].
  erewrite run_alone_step; [|done|reflexivity]. cbn [app client]. rewrite Hcl.
  match goal with |- context [run_alone fuel now ?x (AFlush :: rest)] =>
    replace x with {| s with send_buffer := buffer |} by (cbn; by rewrite Hcl) end.
  destruct (run_alone fuel now _ (AFlush :: rest)) as [[s' st'] evs].
  unfold flush_events. by rewrite Eo.
Qed.

Lemma run_alone_flush now rest buffer s n :
  send_buffer s = buffer -> connected s = true -> client s = true -> has_sched s -> timed_once s buffer ->
  exists n', (n <= n')%nat /\
    run_alone (5 * length buffer + 1 + n) now s (AFlush :: rest)
    = let '(s', st', evs) := run_alone n' now (flushed now s) rest in
      (s', st', (buffer ≫= flush_events now s) ++ evs).
Proof.
  revert s n. induction buffer as [|p buffer IH]; intros s n Eb Hc Hcl Hs Hone.
  - exists n. split; [done|]. cbn [length Nat.mul Nat.add].
    erewrite run_alone_step; [|done|by apply flush_turn_empty]. cbn [app].
    match goal with |- context [run_alone n now ?x rest] => replace x with (flushed now s) end.
    2:{ unfold flushed, flush_timed. by rewrite Eb. }
    by destruct (run_alone n now (flushed now s) rest) as [[??]?].
  - destruct (overdue now s p) as [f|] eqn:Eo.
    + assert (forall q, q ∈ buffer -> p_id q <> p_id p) as Hne.
      { apply (Hone [] p buffer); [done|]. unfold overdue in Eo. destruct (timed_acks s !! p_id p); [by eexists|done]. }
      set (s1 := {| s with send_buffer := buffer; timed_acks := delete (p_id p) (timed_acks s) |}).
      destruct (IH s1 n) as (n' & Hn' & E); try done.
      { intros id [g Hg]. change (delete (p_id p) (timed_acks s) !! id = Some g) in Hg.
        apply lookup_delete_Some in Hg as [_ Hg]. apply (Hs id). by eexists. }
      { intros l q k El [g Hg]. change (delete (p_id p) (timed_acks s) !! p_id q = Some g) in Hg.
        apply lookup_delete_Some in Hg as [_ Hg]. apply (Hone (p :: l) q k); [by rewrite El|by eexists]. }
      exists n'. split; [done|].
      replace (5 * length (p :: buffer) + 1 + n)%nat with (5 + (5 * length buffer + 1 + n))%nat by (cbn [length]; lia).
      rewrite (run_alone_overdue _ _ _ _ _ _ _ Eb Hc Hs Eo Hne). fold s1. rewrite E.
      assert (flushed now s1 = flushed now s) as ->.
      { unfold flushed. cbn [send_buffer s1]. rewrite Eb. unfold flush_timed at 2. cbn [foldr]. rewrite Eo.
        by rewrite (flush_timed_delete now s s1 (p_id p) buffer). }
      destruct (run_alone n' now (flushed now s) rest) as [[s'' st''] evs''].
      by rewrite bind_cons, <-app_assoc, (flush_events_delete now s s1 (p_id p) buffer).
    + set (s1 := {| s with send_buffer := buffer |}).
      destruct (IH s1 (3 + n)%nat) as (n' & Hn' & E); try done.
      { intros l q k El. apply (Hone (p :: l) q k). by rewrite El. }
      exists n'. split; [lia|].
      replace (5 * length (p :: buffer) + 1 + n)%nat with (2 + (5 * length buffer + 1 + (3 + n)))%nat by (cbn [length]; lia).
      rewrite (run_alone_send _ _ _ _ _ _ Eb Hc Hcl Hs Eo). fold s1. rewrite E.
      assert (flushed now s1 = flushed now s) as ->.
      { unfold flushed. cbn [send_buffer s1]. rewrite Eb. unfold flush_timed at 2. cbn [foldr]. by rewrite Eo. }
      destruct (run_alone n' now (flushed now s) rest) as [[s'' st''] evs''].
      by rewrite bind_cons, <-app_assoc.
Qed.

(** ** Building executions *)

Lemma one_thread s w st c tr s' st' evs :
  local_step c s st s' st' evs -> step (mk_system s w [st] c tr) (mk_system s' w [st'] c (tr ++ evs)).
Proof. apply (step_thread s w [] st [] c tr s' st' evs). Qed.

Lemma user_call m s w rest c tr :
  step (mk_system s w [AUser :: rest] c tr) (mk_system s w [ADo m :: AUser :: rest] c tr).
Proof.
  pose proof (one_thread s w _ c tr _ _ _ (local_user_call c m rest s)) as H. by rewrite app_nil_r in H.
Qed.

Lemma run_one a s w rest c tr s' acts evs :
  ready a s = true -> run_action c a s = Ok (s', acts, evs) ->
  step (mk_system s w [a :: rest] c tr) (mk_system s' w [acts ++ rest] c (tr ++ evs)).
Proof. intros. apply one_thread. by apply local_run. Qed.

(** Runs the actions of the only thread; callbacks return at once, the thread's
    own code stays. *)
Fixpoint drive (fuel : nat) (c : Z) (s : socket) (st : list action) (tr : list event) : socket * list action * list event :=
  match fuel, st with
  | S fuel, AUser :: (_ :: _) as rest => drive fuel c s rest tr
  | S fuel, a :: rest =>
      if ready a s then
        match run_action c a s with
        | Ok (s', acts, evs) => drive fuel c s' (acts ++ rest) (tr ++ evs)
        | Throw _ => (s, st, tr)
        end
      else (s, st, tr)
  | _, _ => (s, st, tr)
  end.

Lemma drive_steps fuel c s w st tr s' st' tr' :
  drive fuel c s st tr = (s', st', tr') -> rtc step (mk_system s w [st] c tr) (mk_system s' w [st'] c tr').
Proof.
  revert s st tr. induction fuel as [|fuel IH]; intros s st tr; cbn [drive].
  - intros [= -> -> ->]. apply rtc_refl.
  - destruct st as [|a rest]; [intros [= -> -> ->]; apply rtc_refl|].
    assert (a = AUser /\ rest <> [] \/ drive (S fuel) c s (a :: rest) tr = 
      (if ready a s then
        match run_action c a s with
        | Ok (s', acts, evs) => drive fuel c s' (acts ++ rest) (tr ++ evs)
        | Throw _ => (s, a :: rest, tr)
        end
      else (s, a :: rest, tr))) as [[-> Hne]|E0].
    { destruct a; try (by right). destruct rest; [by right|by left]. }
    { destruct rest as [|b rest]; [done|]. intros H%IH. eapply rtc_l; [|exact H].
      pose proof (one_thread s w _ c tr _ _ _ (local_user_return c (b :: rest) s)) as H1.
      by rewrite app_nil_r in H1. }
    cbn [drive] in E0. rewrite E0. clear E0.
    destruct (ready a s) eqn:Er; [|intros [= -> -> ->]; apply rtc_refl].
    destruct (run_action c a s) as [[[s1 acts] evs]|e] eqn:E; [|intros [= -> -> ->]; apply rtc_refl].
    intros H%IH. eapply rtc_l; [|exact H]. by apply run_one.
Qed.

(** One thread calls methods one after the other. *)
Fixpoint session (fuel : nat) (c : Z) (s : socket) (tr : list event) (ms : list method) : socket * list event :=
  match ms with
  | [] => (s, tr)
  | m :: ms => let '(s', _, tr') := drive fuel c s [ADo m; AUser] tr in session fuel c s' tr' ms
  end.

Fixpoint returns (fuel : nat) (c : Z) (s : socket) (tr : list event) (ms : list method) : bool :=
  match ms with
  | [] => true
  | m :: ms => match drive fuel c s [ADo m; AUser] tr with
               | (s', [AUser], tr') => returns fuel c s' tr' ms
               | _ => false
               end
  end.

Lemma session_steps fuel c s w tr ms :
  returns fuel c s tr ms = true ->
  rtc step (mk_system s w [[AUser]] c tr)
           (mk_system (session fuel c s tr ms).1 w [[AUser]] c (session fuel c s tr ms).2).
Proof.
  revert s tr. induction ms as [|m ms IH]; intros s tr; cbn [session returns]; [intros; apply rtc_refl|].
  destruct (drive fuel c s [ADo m; AUser] tr) as [[s' st'] tr'] eqn:E.
  destruct st' as [|[] []]; try done. intros H%IH.
  eapply rtc_l; [apply user_call|]. eapply rtc_trans; [|exact H]. by eapply drive_steps.
Qed.

(** A socket after a session of one user thread, at time [c]. *)
Definition after (c : Z) (ms : list method) : system :=
  let '(s, tr) := session 30 c (new_socket "/" JNull) [] ms in mk_system s [] [[AUser]] c tr.

Lemma after_reachable c ms : returns 30 c (new_socket "/" JNull) [] ms = true -> reachable (after c ms).
Proof.
  intros H. exists (bs "/"), JNull, 1%nat, c. unfold after.
  pose proof (session_steps 30 c (new_socket "/" JNull) [] [] ms H) as Hs.
  by destruct (session _ _ _ _ _).
Qed.

(** ** Emissions and replies *)




(** The acknowledgements an event hands to listeners. *)
Definition handed (acts : list action) : list acknowledger :=
  omap (fun a => match a with ACall (CallAckEvent _ _ _ ack) => ack | _ => None end) acts.

(** The replies sent with a flag, and those on their way. *)
Definition replies (sy : system) (flag : nat) : nat := (ecnt (sends_ack flag) (trace sy) + total (will_send_ack flag) sy)%nat.

(** One event has one flag, whichever listeners take its acknowledgement; nobody has used it. *)
Lemma handed_one event data id s s' acts evs :
  dispatch_event event data id s = (s', acts, evs) ->
  (forall ack, ack ∈ handed acts -> ack = mk_acknowledger (length (sent_flags s)) id) /\
  (handed acts <> [] -> sent_flags s' = sent_flags s ++ [false]).
Proof.
  unfold dispatch_event. set (wants_ack := _ && _). clearbody wants_ack. intros [= <- <- <-]. unfold handed.
  destruct wants_ack; cbn [any_listener any_ack_listener sent_flags];
    destruct (default None (listeners s !! event)), (default None (ack_listeners s !! event)), (any_listener s), (any_ack_listener s);
    cbn; (split; [|done || reflexivity]); intros ack Hin;
    repeat (apply elem_of_cons in Hin as [->|Hin]; [reflexivity|]); by apply elem_of_nil in Hin.
Qed.

(** ** Properties *)


(** [C2] The flush loop sends in the order of acceptance: what it has sent,
    what it holds and what is buffered is a subsequence of the packets accepted
    into the buffer, for all interleavings with emissions, acknowledgements,
    deadlines, disconnections, cancellations and exceptions. *)
Theorem buffer_is_fifo (sy : system) :
  reachable sy ->
  sublist (flushed_of (trace sy) ++ held_by (stacks sy) ++ send_buffer (sock sy)) (buffered_of (trace sy)).
Proof. intros Hr. apply (reachable_order _ Hr). Qed.

(** [C3] A timed callback runs at most once.  If it runs, its outcome was decided
    before, against the deadline it was registered with: a timeout not before the
    deadline and with a null reply, an acknowledgement before the deadline. *)
Theorem timed_callback_once (sy : system) (id : Z) :
  reachable sy ->
  (ecnt (calls id) (trace sy) + total (will_call id) sy <= 1)%nat /\
  forall f status data, Called (CallTimed f id status data) ∈ trace sy ->
    exists deadline decided_at, Registered id deadline ∈ trace sy /\ Decided id status decided_at ∈ trace sy /\
      match status with
      | timeout => deadline <= decided_at /\ data = JNull
      | acknowledged => decided_at < deadline
      end.
Proof.
  intros Hr. split; [pose proof (reachable_calls _ Hr id) as [? ?]; lia|].
  intros f status data Hin. destruct (reachable_decided _ Hr) as [Hd _].
  destruct (Hd _ Hin) as [(tau & Htau) Hn]. destruct (reachable_time _ Hr) as (Hi & _).
  destruct (ti_decided _ _ _ Hi _ _ _ Htau) as [_ (t & Ht & Ho)]. exists t, tau.
  split_and!; [done|done|]. destruct status; [done|]. split; [done|by apply Hn].
Qed.

(** [C4] After a shutdown: once timed acknowledgements are cancelled and the wait
    for running callbacks has returned, no timed callback is running, none is
    pending, and none is called until timed emissions are resumed. *)
Theorem shutdown_silences (sy sy' : system) :
  reachable sy -> timed_acks_closed (sock sy) = true -> active_timed_acks (sock sy) = 0%nat ->
  rtc (fun a b => step a b /\ timed_acks_closed (sock b) = true) sy sy' ->
  total is_finish sy' = 0%nat /\ total is_timed_call sy' = 0%nat /\ timed_acks (sock sy') = ∅ /\
  ecnt is_timed_event (trace sy') = ecnt is_timed_event (trace sy).
Proof.
  intros Hr Hc Ha Hs.
  assert (silent sy) as Hsil.
  { split_and!; [by eapply ti_closed, Hc; apply reachable_time| |by apply no_timed_calls].
    destruct (reachable_core _ Hr) as (H & _). congruence. }
  enough (silent sy' /\ ecnt is_timed_event (trace sy') = ecnt is_timed_event (trace sy)) as [(? & ? & ?) ?] by done.
  clear Ha Hc. induction Hs as [|sy sy1 sy' [Hstep Hc] Hs IH]; [done|].
  assert (reachable sy1) as Hr1.
  { destruct Hr as (n0 & a0 & k & c & Hr). exists n0, a0, k, c. by eapply rtc_r. }
  destruct (silent_step _ _ Hstep Hsil) as [Hsil1 E1]; [by eapply ti_closed, Hc; apply reachable_time|].
  destruct (IH Hr1 Hsil1) as [? E2]. split; [done|congruence].
Qed.

(** [C5] The reply to an incoming event is sent at most once, however often and from
    however many threads and listeners its acknowledgements are called: of all the
    acknowledgements a call of [dispatch_event] hands to listeners, together, at most one
    reply is sent or on its way, at any later moment.  They are for the id of the
    event; none of them has been used before, so that the first call of one replies.  And no
    flag ever sends two replies. *)
Theorem reply_sent_once (sy sy' : system) (name : bstr) (data : json) (id : Z) (s' : socket) (acts : list action) (evs : list event) :
  reachable sy -> rtc step sy sy' -> call_method (clock sy) (MDispatchEvent name data id) (sock sy) = Ok (s', acts, evs) ->
  (list_sum (replies sy' <$> remove_dups (ack_flag <$> handed acts)) <= 1)%nat /\
  Forall (fun ack => ack_id ack = id /\ sent_flags s' !! ack_flag ack = Some false /\ replies sy (ack_flag ack) = 0%nat) (handed acts) /\
  forall flag, (replies sy' flag <= 1)%nat.
Proof.
  intros Hr Hs E. cbn [call_method] in E. destruct (dispatch_event name data id (sock sy)) as [[s1 acts1] evs1] eqn:Ed.
  injection E as -> -> ->. destruct (handed_one _ _ _ _ _ _ _ Ed) as [Hone Hnew].
  assert (Hr' : reachable sy') by (destruct Hr as (n0 & a0 & k & c & Hr); exists n0, a0, k, c; by etrans).
  assert (Hall : forall flag, (replies sy' flag <= 1)%nat).
  { intros flag. pose proof (reachable_flags _ flag Hr') as H. unfold flag_inv in H. unfold replies.
    destruct (sent_flags (sock sy') !! flag) as [[]|]; lia. }
  split_and!; [|apply Forall_forall; intros ack Hin|done].
  - pose proof (NoDup_remove_dups (ack_flag <$> handed acts)) as Hd.
    assert (Hlen : forall k, k ∈ remove_dups (ack_flag <$> handed acts) -> k = length (sent_flags (sock sy))).
    { intros k (ack & -> & Hin)%elem_of_remove_dups%list_elem_of_fmap. by rewrite (Hone _ Hin). }
    destruct (remove_dups _) as [|k [|k' l]]; cbn; [lia|specialize (Hall k); lia|]. exfalso.
    rewrite (Hlen k), (Hlen k') in Hd by (rewrite !elem_of_cons; auto). apply NoDup_cons in Hd as [Hd _]. apply Hd. by left.
  - rewrite (Hone _ Hin); cbn. split_and!; [done| |].
    + rewrite Hnew by (intros Hnil; by rewrite Hnil in Hin; apply elem_of_nil in Hin). by rewrite lookup_app_r, Nat.sub_diag by lia.
    + pose proof (reachable_flags _ (length (sent_flags (sock sy))) Hr) as H. unfold flag_inv in H.
      rewrite lookup_ge_None_2 in H by lia. unfold replies. lia.
Qed.

(** [C6] A CONNECT on a disconnected socket ends, and in one pass hands the
    buffered packets to the client in order, calls the callback of each overdue
    one instead, and then calls the connect listener; nothing stays buffered. *)
Theorem connect_flushes (now : Z) (reason : bstr) (s : socket) (fuel : nat) :
  connected s = false -> flushing_send_buffer s = false -> client s = true ->
  has_sched s -> timed_once s (send_buffer s) -> (5 * length (send_buffer s) + 5 <= fuel)%nat ->
  run_alone fuel now s [ADo (MMarkConnected true reason)]
  = ({| s with connected := true; flushing_send_buffer := false; send_buffer := [];
               timed_acks := flush_timed now s (send_buffer s) |},
     [],
     (send_buffer s ≫= flush_events now s)
       ++ match on_connect s with Some f => [Called (CallConnect f)] | None => [] end).
Proof.
  intros Hc Hf Hcl Hs Hone Hfuel.
  set (s1 := {| s with connected := true; flushing_send_buffer := true |}).
  destruct fuel as [|fuel]; [lia|].
  assert (run_action now (ADo (MMarkConnected true reason)) s
          = Ok (s1, AFlush :: call_if (on_connect s) CallConnect, [])) as E1.
  { cbn [run_action call_method]. unfold mark_connected. rewrite Hc. cbn. by rewrite Hf. }
  erewrite run_alone_step; [|done|exact E1]. rewrite app_nil_r.
  replace fuel with (5 * length (send_buffer s) + 1 + (fuel - (5 * length (send_buffer s) + 1)))%nat by lia.
  destruct (run_alone_flush now (call_if (on_connect s) CallConnect) (send_buffer s) s1
              (fuel - (5 * length (send_buffer s) + 1))) as (n' & Hn' & E); try done.
  rewrite E. clear E E1.
  assert ((send_buffer s ≫= flush_events now s1) = (send_buffer s ≫= flush_events now s)) as -> by reflexivity.
  destruct n' as [|[|[|n']]]; try lia.
  destruct (on_connect s) as [f|]; reflexivity.
Qed.

(** An exception from sending inside the flush loop (an event whose payload
    cannot be encoded, say) leaves the flag set.  Such a state is reachable with
    the socket connected and events buffered; from then on, whatever happens,
    reconnections included, the flush loop never runs again and no buffered
    packet is ever sent. *)
Theorem flush_exception_blocks_forever :
  (exists sy, reachable sy /\ connected (sock sy) = true /\ stuck sy /\ length (send_buffer (sock sy)) = 1%nat) /\
  (forall sy sy', stuck sy -> rtc step sy sy' ->
     stuck sy' /\ flushed_of (trace sy') = flushed_of (trace sy)) /\
  (forall sy p, stuck sy -> run_action (clock sy) (ASendOrBuffer p) (sock sy)
     = Ok ({| (sock sy) with send_buffer := send_buffer (sock sy) ++ [p] |}, [], [Buffered p])).
Proof.
  split_and!.
  - set (ms := [MEmit "bad" JNull; MEmit "good" JNull]).
    pose proof (after_reachable 0 ms ltac:(vm_compute; reflexivity)) as (n0 & a0 & k & c0 & Hr).
    set (s1 := sock (after 0 ms)) in *.
    assert (after 0 ms = mk_system s1 [] [[AUser]] 0 (trace (after 0 ms))) as E by (vm_compute; reflexivity).
    rewrite E in Hr. set (p1 := event_packet "/" (-1) "bad" JNull). set (p2 := event_packet "/" (-1) "good" JNull).
    set (s2 := {| s1 with connected := true; flushing_send_buffer := true |}).
    set (s3 := {| s2 with send_buffer := [p2] |}).
    exists (mk_system s3 [] [[AUser]] 0 (trace (after 0 ms))). split.
    + exists n0, a0, k, c0. eapply rtc_trans; [exact Hr|].
      eapply rtc_l; [apply (user_call (MMarkConnected true []))|].
      eapply rtc_l; [apply (run_one _ _ _ _ _ _ s2 [AFlush] []); reflexivity|].
      eapply rtc_l; [apply (run_one _ _ _ _ _ _ s3 [ASend true p1; AFlush] []); reflexivity|].
      rewrite !app_nil_r. cbn [app].
      pose proof (one_thread s3 [] [ASend true p1; AFlush; AUser] 0 (trace (after 0 ms)) s3 [AUser] []) as H.
      rewrite app_nil_r in H. apply rtc_once, H. by apply (local_send_throw 0 (ASend true p1) [AFlush; AUser]).
    + split_and!; try reflexivity. repeat constructor; solve_no_send.
  - intros sy sy' Hst Hs. induction Hs as [|sy sy1 sy' Hstep Hs IH]; [done|].
    destruct (stuck_step _ _ Hstep Hst) as [Hst1 E1]. destruct (IH Hst1) as [? E2]. split; [done|congruence].
  - intros sy p (Hf & _). cbn [run_action]. unfold send_or_buffer. rewrite Hf, orb_true_r. done.
Qed.

(** The scheduler is never used before it is made: the only undefined
    behaviour of an action in a reachable state is the overflow of the id counter. *)
Theorem no_null_scheduler (sy : system) (a : action) :
  reachable sy -> run_action (clock sy) a (sock sy) = Throw undefined_behaviour ->
  next_ack_id (sock sy) = int_max.
Proof.
  intros Hr H. destruct (reachable_time _ Hr) as (Hi & _).
  assert (forall id f, timed_acks (sock sy) !! id = Some f -> is_Some (ack_sched (sock sy))) as Hs.
  { intros id f Hf. destruct (ti_timed _ _ _ Hi _ _ Hf) as (t & sc & _ & -> & _). by eexists. }
  destruct a as [m| | | | | | | | | |]; [destruct m|..]; cbn [run_action call_method] in H; try done.
  - unfold emit_ack, next_id in H. destruct (Z.eqb_spec (next_ack_id (sock sy)) int_max); done.
  - unfold emit_timed in H. destruct callback; [|done]. by destruct (_ <=? 0).
  - unfold dispatch_ack, with_sched in H. destruct (timed_acks (sock sy) !! id) as [f|] eqn:E.
    + destruct (Hs id f E) as [sc Es]. rewrite Es in H. cbn [mbind outcome_bind] in H. by destruct (sched_remove _ _ _).
    + by destruct (pending_acks (sock sy) !! id) as [[]|].
  - unfold register_and_send, register_timed_ack, next_id, with_sched in H.
    destruct (timed_acks_closed (sock sy)); [done|]. cbn [next_ack_id] in H.
    destruct (Z.eqb_spec (next_ack_id (sock sy)) int_max); [done|]. cbn [mbind outcome_bind ack_sched] in H.
    destruct (sched_expired _ _ _); [done|]. by destruct (_ || _).
  - unfold flush_turn, with_sched in H. destruct (send_buffer (sock sy)) as [|p buffer]; [done|].
    destruct (negb (connected (sock sy))); [done|]. cbn [timed_acks] in H.
    destruct (timed_acks (sock sy) !! p_id p) as [f|] eqn:E; [|done].
    destruct (Hs _ f E) as [sc Es]. cbn [ack_sched] in H. rewrite Es in H. cbn [mbind outcome_bind] in H.
    by destruct (sched_expired _ _ _).
Qed.

(** The deadline of a timed emission: no overflow of the clock, exact to the
    nanosecond unless the clock ends within a millisecond of it. *)
Theorem deadline_of_bounds (now timeout : Z) :
  0 <= now <= time_point_max -> 0 < timeout ->
  now <= deadline_of now timeout <= time_point_max /\
  (deadline_of now timeout = now + timeout * ns_per_ms \/
   deadline_of now timeout = time_point_max /\ time_point_max < now + (timeout + 1) * ns_per_ms).
Proof.
  intros Hn Ht. unfold deadline_of, ns_per_ms in *.
  rewrite Z.quot_div_nonneg by lia.
  pose proof (Z.div_mod (time_point_max - now) 1000000 ltac:(lia)).
  pose proof (Z.mod_pos_bound (time_point_max - now) 1000000 ltac:(lia)).
  destruct (Z.leb_spec ((time_point_max - now) / 1000000) timeout); lia.
Qed.

(** ** Witnesses *)

(** A session: a timed emission before the connection, the connection, the
    server's reply, an event with a reply, and a shutdown. *)
Definition demo_methods : list method :=
  [MOnAck "hi" (Some 3); MEmit "first" JNull; MEmitTimed "ask" (JString "x") 5 (Some 1);
   MMarkConnected true []; MDispatchAck 0 (JArray [JBool true]);
   MDispatchEvent "hi" JNull 7; MAcknowledge (mk_acknowledger 0 7) JNull; MAcknowledge (mk_acknowledger 0 7) JNull;
   MCancelTimedAcks; MWaitTimedAcks].

Definition demo : system := after 0 demo_methods.

Lemma demo_reachable : reachable demo.
Proof. apply after_reachable. vm_compute. reflexivity. Qed.

(** What happened in the session. *)
Example demo_trace :
  trace demo =
    [Buffered (event_packet "/" (-1) "first" JNull); Registered 0 5000000;
     Buffered (event_packet "/" 0 "ask" (JString "x"));
     Sent true (event_packet "/" (-1) "first" JNull); Sent true (event_packet "/" 0 "ask" (JString "x"));
     Decided 0 acknowledged 0; Called (CallTimed 1 0 acknowledged (JArray [JBool true]));
     Called (CallAckEvent 3 "hi" JNull (Some (mk_acknowledger 0 7)));
     SentAck 0 (ack_packet "/" 7 JNull)].
Proof. vm_compute. reflexivity. Qed.


Lemma buffer_is_fifo_witness :
  sublist (flushed_of (trace demo) ++ held_by (stacks demo) ++ send_buffer (sock demo)) (buffered_of (trace demo))
  /\ length (flushed_of (trace demo)) = 2%nat.
Proof. split; [apply (buffer_is_fifo demo demo_reachable)|vm_compute; reflexivity]. Defined.

Lemma timed_callback_once_witness :
  exists deadline decided_at, Registered 0 deadline ∈ trace demo /\ Decided 0 acknowledged decided_at ∈ trace demo
    /\ decided_at < deadline.
Proof.
  apply (timed_callback_once demo 0 demo_reachable) with (f := 1) (status := acknowledged) (data := JArray [JBool true]).
  apply (list_elem_of_lookup_2 _ 6). vm_compute. reflexivity.
Defined.

(** A new emission is refused after the shutdown; nothing is called. *)
Definition demo_later : system :=
  mk_system (sock demo) [] [[ADo (MEmitTimed "late" JNull 1 (Some 2)); AUser]] 0 (trace demo).

Lemma demo_step : step demo demo_later.
Proof.
  assert (demo = mk_system (sock demo) [] [[AUser]] 0 (trace demo)) as -> by (vm_compute; reflexivity).
  unfold demo_later. generalize (sock demo), (trace demo). intros. apply user_call.
Qed.

Lemma shutdown_silences_witness :
  total is_timed_call demo_later = 0%nat /\ ecnt is_timed_event (trace demo_later) = 1%nat.
Proof.
  destruct (shutdown_silences demo demo_later demo_reachable) as (_ & H1 & _ & H2).
  - vm_compute. reflexivity.
  - vm_compute. reflexivity.
  - apply rtc_once. split; [|vm_compute; reflexivity]. apply demo_step.
  - split; [exact H1|]. rewrite H2. vm_compute. reflexivity.
Defined.

(** Two listeners take the acknowledgement of an event with id 8. *)
Definition two_listeners : system := after 0 [MOnAck "hi" (Some 3); MOnAnyAck (Some 4)].

Lemma reply_sent_once_witness :
  exists acts, handed acts = [mk_acknowledger 0 8; mk_acknowledger 0 8] /\
    (list_sum (replies two_listeners <$> remove_dups (ack_flag <$> handed acts)) <= 1)%nat.
Proof.
  destruct (dispatch_event "hi" JNull 8 (sock two_listeners)) as [[s' acts] evs] eqn:E.
  exists acts. split; [by vm_compute in E; injection E as _ <- _|].
  apply (reply_sent_once two_listeners two_listeners "hi" JNull 8 s' acts evs); [|apply rtc_refl|cbn [call_method]; by rewrite E].
  apply after_reachable. vm_compute. reflexivity.
Defined.

(** A disconnected socket with an overdue emission between two plain ones. *)
Definition waiting : socket :=
  let s := {| (new_socket "/" JNull) with on_connect := Some 9 |} in
  (session 30 0 s [] [MEmit "a" JNull; MEmitTimed "b" JNull 1 (Some 5); MEmit "c" JNull]).1.

Lemma waiting_once : timed_once waiting (send_buffer waiting).
Proof.
  assert (send_buffer waiting = [event_packet "/" (-1) "a" JNull; event_packet "/" 0 "b" JNull;
            event_packet "/" (-1) "c" JNull] /\ timed_acks waiting = {[0 := 5]}) as [-> Et] by (vm_compute; done).
  intros l p k E. rewrite Et. destruct l as [|p1 [|p2 [|p3 l]]]; injection E as E1.
  - subst p k. intros [f Hf]. by vm_compute in Hf.
  - subst p1 p k. intros _ q ->%list_elem_of_singleton. done.
  - subst p1 p2 p k. intros _ q []%elem_of_nil.
  - by destruct l.
Qed.

Lemma connect_flushes_witness :
  (run_alone 50 2000000 waiting [ADo (MMarkConnected true [])]).2
  = [Sent true (event_packet "/" (-1) "a" JNull);
     Decided 0 timeout 2000000; Called (CallTimed 5 0 timeout JNull);
     Sent true (event_packet "/" (-1) "c" JNull); Called (CallConnect 9)].
Proof.
  rewrite (connect_flushes 2000000 [] waiting 50); [vm_compute; reflexivity| | | | | |].
  - vm_compute. reflexivity.
  - vm_compute. reflexivity.
  - vm_compute. reflexivity.
  - intros id _. eexists. vm_compute. reflexivity.
  - apply waiting_once.
  - vm_compute. lia.
Defined.

Lemma no_null_scheduler_witness :
  reachable demo /\ run_action (clock demo) (ADo (MDispatchAck 0 JNull)) (sock demo) <> Throw undefined_behaviour.
Proof.
  split; [exact demo_reachable|]. intros H.
  apply (no_null_scheduler demo (ADo (MDispatchAck 0 JNull)) demo_reachable) in H.
  vm_compute in H. discriminate H.
Defined.

Lemma deadline_of_bounds_witness :
  5 <= deadline_of 5 30000 <= time_point_max /\
  (deadline_of 5 30000 = 5 + 30000 * ns_per_ms \/
   deadline_of 5 30000 = time_point_max /\ time_point_max < 5 + (30000 + 1) * ns_per_ms).
Proof. apply (deadline_of_bounds 5 30000); [unfold time_point_max|]; lia. Defined.
