(* ===== verification/TransportConfig.v ===== *)
(** * Configuration of a transport

    The members of websocket_transport and http_polling_transport that the client
    sets before it connects: [set_verify_tls], [set_extra_headers] and [set_proxy]
    of src/websocket_transport.cpp and src/http_polling_transport.cpp, which are
    the same in both. *)

From S2P Require Export Url.
From stdpp Require Import options.
#[local] Set Default Proof Using "Type*".
Local Open Scope Z_scope.

Record transport_config : Type := mk_transport_config {
  config_polling : bool; (* the class: http_polling_transport *)
  config_verify_tls : bool;
  config_extra_headers : list (bstr * bstr);
  config_proxy : option proxy_config;
}.

(** As constructed. *)
Definition new_transport_config (polling : bool) : transport_config := mk_transport_config polling true [] None.

Definition set_verify_tls (verify : bool) (c : transport_config) : transport_config := {| c with config_verify_tls := verify |}.

Definition set_extra_headers (headers : list (bstr * bstr)) (c : transport_config) : transport_config :=
  {| c with config_extra_headers := headers |}.

Definition set_proxy (uri username password : bstr) (c : transport_config) : outcome transport_config :=
  proxy ← make_proxy_config uri username password;
  Ok {| c with config_proxy := proxy |}.
