(* ===== verification/Engineio.v ===== *)
(** * The Engine.IO session

    src/engineio_client.cpp on top of the transport interface of
    src/transport.hpp: framing of messages, the handshake, the heartbeat.  A
    handler is a function from the session to the session, the calls it makes, in
    order, and the exception that leaves it, if one does; what was assigned
    before the exception stays assigned.  The handlers of a transport are
    serialised by it; the heartbeat thread is [heartbeat_wait] and
    [heartbeat_check], the two halves of a turn of its loop.  [OnOpen] and the other
    events of that kind say that the owner's handler is called if one is set. *)

From S2P Require Export Json.
From stdpp Require Import options.
#[local] Set Default Proof Using "Type*".
Local Open Scope Z_scope.

(** ** State *)

Record engine : Type := mk_engine {
  has_transport : bool;
  open_ : bool;
  closing_ : bool;
  heartbeat_stop_requested : bool;
  session_id : bstr;
  ping_interval_ms : Z;
  ping_timeout_ms : Z;
  heartbeat_running : bool; (* [heartbeat_thread_.joinable()] *)
  last_pong : Z;
}.

Definition new_engine : engine := mk_engine false false false true [] 25000 20000 false 0.

(** Calls made on the transport and on the handlers of the owner. *)
Inductive engine_event : Type :=
  | TransportConnect (url : bstr)
  | TransportSend (payload : bstr) (is_binary : bool)
  | TransportClose
  | TransportSyncClose
  | JoinHeartbeat
  | StartHeartbeat
  | OnFrame (payload : bstr) (is_binary : bool)
  | OnOpen
  | OnClose (reason : bstr)
  | OnError (message : bstr).

Abbreviation engine_result := (engine * list engine_event * option exn)%type.

(** ** Operations *)

Definition set_transport (e : engine) : engine := {| e with has_transport := true |}.

Definition if_transport (e : engine) (ev : engine_event) : list engine_event :=
  if has_transport e then [ev] else [].

Definition engine_open (url : bstr) (e : engine) : engine_result :=
  if closing_ e then (e, [], None)
  else
    let e := {| e with open_ := false; session_id := [] |} in
    if negb (has_transport e) then
      (e, [], Some (runtime_error "sioxx: no transport set on engineio_client"))
    else (e, [TransportConnect url], None).

Definition request_heartbeat_stop (e : engine) : engine := {| e with heartbeat_stop_requested := true |}.

(** Called from another thread than the heartbeat's, it waits for that thread. *)
Definition stop_heartbeat_timer (e : engine) : engine * list engine_event :=
  let e := request_heartbeat_stop e in
  if heartbeat_running e then ({| e with heartbeat_running := false |}, [JoinHeartbeat]) else (e, []).

Definition engine_close (e : engine) : engine * list engine_event :=
  if closing_ e then (e, [])
  else
    let e := request_heartbeat_stop {| e with closing_ := true |} in
    let e := {| e with open_ := false |} in
    (e, if_transport e TransportClose).

Definition engine_sync_close (e : engine) : engine * list engine_event :=
  let '(e, evs1) := engine_close e in
  let '(e, evs2) := stop_heartbeat_timer e in
  (e, evs1 ++ evs2 ++ if_transport e TransportSyncClose).

(** The destructor lets no exception out; by then [weak_self] has expired, so that what the
    transport reports reaches nobody. *)
Definition engine_destroy (e : engine) : engine * list engine_event := engine_sync_close e.

Definition engine_send (payload : bstr) (is_binary : bool) (e : engine) : list engine_event :=
  if negb (has_transport e) || negb (open_ e) then []
  else if is_binary then [TransportSend payload true]
  else [TransportSend ("4"%char :: payload) false].

(** Assigning a thread to one that is joinable ends the program. *)
Definition start_heartbeat_timer (e : engine) : engine_result :=
  if negb (open_ e) || closing_ e then (e, [], None)
  else
    let e := {| e with heartbeat_stop_requested := false |} in
    if heartbeat_running e then (e, [], Some undefined_behaviour)
    else ({| e with heartbeat_running := true |}, [StartHeartbeat], None).

Definition handle_transport_open (e : engine) : engine := e.

Definition handle_transport_close (reason : bstr) (e : engine) : engine * list engine_event :=
  let '(e, evs) := stop_heartbeat_timer {| e with open_ := false |} in
  (e, evs ++ [OnClose reason]).

Definition handle_transport_error (message : bstr) (e : engine) : list engine_event := [OnError message].

Section with_json.
Context `{JsonLib}.

(** The handshake fields, assigned one after the other; an exception of the JSON
    library ends the handler with what was assigned. *)
Definition read_handshake (now : Z) (handshake : option json) (e : engine) : engine * option exn :=
  match handshake with
  | None => ({| e with last_pong := now; session_id := [] |}, None)
  | Some j =>
      match value_or get_int j "pingInterval" 25000 with
      | Throw x => (e, Some x)
      | Ok interval =>
          let e := {| e with ping_interval_ms := interval |} in
          match value_or get_int j "pingTimeout" 20000 with
          | Throw x => (e, Some x)
          | Ok timeout =>
              let e := {| e with ping_timeout_ms := timeout; last_pong := now |} in
              match value_or get_string j "sid" [] with
              | Throw x => (e, Some x)
              | Ok sid => ({| e with session_id := sid |}, None)
              end
          end
      end
  end.

(** [case '0'] *)
Definition handle_open_packet (now : Z) (rest : bstr) (e : engine) : engine_result :=
  let handshake := parse rest in
  let '(e, evs) := stop_heartbeat_timer e in
  match read_handshake now handshake e with
  | (e, Some x) => (e, evs, Some x)
  | (e, None) =>
      let '(e, evs', x) := start_heartbeat_timer {| e with open_ := true |} in
      match x with
      | Some x => (e, evs ++ evs', Some x)
      | None => (e, evs ++ evs' ++ [OnOpen], None)
      end
  end.

Definition handle_transport_message (now : Z) (payload : bstr) (is_binary : bool) (e : engine) : engine_result :=
  if is_binary then (e, [OnFrame payload true], None)
  else match payload with
       | [] => (e, [], None)
       | type_char :: rest =>
           if decide (type_char = "0"%char) then handle_open_packet now rest e
           else if decide (type_char = "1"%char) then
             let '(e, evs) := stop_heartbeat_timer {| e with open_ := false |} in
             (e, evs ++ [OnClose "server closed connection"], None)
           else if decide (type_char = "2"%char) then
             let e := {| e with last_pong := now |} in
             (e, if_transport e (TransportSend "3" false), None)
           else if decide (type_char = "3"%char) then ({| e with last_pong := now |}, [], None)
           else if decide (type_char = "4"%char) then (e, [OnFrame rest false], None)
           else (e, [], None)
       end.
End with_json.

(** ** The heartbeat

    The loop reads the intervals, waits, and compares; times are milliseconds.
    [notified] says whether the wait ended because of a stop request. *)
Inductive heartbeat_result : Type :=
  | HeartbeatExit
  | HeartbeatContinue
  | HeartbeatTimeout (evs : list engine_event).

(** How long the thread waits before a check, [None] when the loop has ended. *)
Definition heartbeat_wait (e : engine) : option Z :=
  if open_ e && negb (closing_ e) && negb (heartbeat_stop_requested e) then Some (ping_interval_ms e) else None.

(** The part of a turn after the wait; the intervals were read before it. *)
Definition heartbeat_check (interval timeout now : Z) (e : engine) : heartbeat_result :=
  if closing_ e || heartbeat_stop_requested e then HeartbeatExit
  else if now - last_pong e <=? interval + timeout then HeartbeatContinue
  else HeartbeatTimeout (OnError "engine.io ping timeout" :: if_transport e TransportClose).

(** The checks at the given times: the first that reports, if any. *)
Fixpoint first_report (e : engine) (checks : list Z) : option Z :=
  match checks with
  | [] => None
  | c :: checks' =>
      match heartbeat_check (ping_interval_ms e) (ping_timeout_ms e) c e with
      | HeartbeatContinue => first_report e checks'
      | HeartbeatTimeout _ => Some c
      | HeartbeatExit => None
      end
  end.

(** Consecutive checks, starting after [previous], are at most [gap] apart. *)
Fixpoint checks_within (gap previous : Z) (checks : list Z) : Prop :=
  match checks with
  | [] => True
  | c :: checks' => c <= previous + gap /\ checks_within gap c checks'
  end.

(** ** Lemmas *)

Lemma stop_heartbeat_not_running e : heartbeat_running (stop_heartbeat_timer e).1 = false.
Proof. unfold stop_heartbeat_timer. by destruct (heartbeat_running (request_heartbeat_stop e)) eqn:E. Qed.

Section with_json_lemmas.
Context `{JsonLib}.

Lemma value_or_exn {A} (get : json -> option A) j k d x : value_or get j k d = Throw x -> x = type_error.
Proof.
  unfold value_or. destruct j; try congruence. destruct (obj_lookup k m) as [v|]; [|done].
  destruct (get v); cbn; congruence.
Qed.

(** The handshake touches only the session id, the intervals and the clock. *)
Lemma read_handshake_frame now h e :
  let '(e', x) := read_handshake now h e in
  has_transport e' = has_transport e /\ open_ e' = open_ e /\ closing_ e' = closing_ e /\
  heartbeat_stop_requested e' = heartbeat_stop_requested e /\ heartbeat_running e' = heartbeat_running e /\
  (x = None \/ x = Some type_error).
Proof.
  unfold read_handshake. destruct h as [j|]; [|by auto 10].
  destruct (value_or get_int j "pingInterval" 25000) eqn:E1; [|apply value_or_exn in E1 as ->; by auto 10].
  destruct (value_or get_int j "pingTimeout" 20000) eqn:E2; [|apply value_or_exn in E2 as ->; by auto 10].
  destruct (value_or get_string j "sid" []) eqn:E3; [|apply value_or_exn in E3 as ->; by auto 10]. by auto 10.
Qed.
End with_json_lemmas.

(** Membership in the short event lists of a handler. *)
Ltac solve_member :=
  match goal with
  | |- _ ∉ _ =>
      let H := fresh in intros H; repeat (apply elem_of_cons in H as [H|H]; [discriminate H|]);
      by apply elem_of_nil in H
  | |- _ ∈ _ => rewrite ?elem_of_app, ?elem_of_cons; by auto 10
  end.

(** ** Properties *)

Section properties.
Context (L : JsonLib).

(** Framing: what an open session sends, a session receives as the same
    frame, text or binary, without a change of its state; a session that is not
    open, or has no transport, sends nothing. *)
Theorem engine_frame_roundtrip (payload : bstr) (is_binary : bool) (e : engine) :
  (open_ e && has_transport e = false -> engine_send payload is_binary e = []) /\
  (open_ e && has_transport e = true ->
     exists wire, engine_send payload is_binary e = [TransportSend wire is_binary] /\
       forall now receiver, handle_transport_message now wire is_binary receiver
                            = (receiver, [OnFrame payload is_binary], None)).
Proof.
  unfold engine_send. split; destruct (open_ e), (has_transport e); try done.
  intros _. cbn [negb orb]. destruct is_binary; eexists; (split; [reflexivity|]); done.
Qed.

(** [C38] The handshake: text that is no JSON opens a session without an id and
    with the intervals it had; an object with well-typed members opens the session
    they describe; anything else leaves the handler with a type error after the
    heartbeat was stopped, the session not opened by it and nobody notified. *)
Theorem handshake_outcomes (now : Z) (rest : bstr) (e : engine) :
  let '(e', evs, x) := handle_transport_message now ("0"%char :: rest) false e in
  match parse rest with
  | None => x = None /\ open_ e' = true /\ session_id e' = [] /\ OnOpen ∈ evs /\
            ping_interval_ms e' = ping_interval_ms e /\ ping_timeout_ms e' = ping_timeout_ms e
  | Some j =>
      match value_or get_int j "pingInterval" 25000, value_or get_int j "pingTimeout" 20000,
            value_or get_string j "sid" [] with
      | Ok interval, Ok timeout, Ok sid =>
          x = None /\ open_ e' = true /\ session_id e' = sid /\ OnOpen ∈ evs /\
          ping_interval_ms e' = interval /\ ping_timeout_ms e' = timeout
      | _, _, _ =>
          x = Some type_error /\ open_ e' = open_ e /\ heartbeat_running e' = false /\
          heartbeat_stop_requested e' = true /\ OnOpen ∉ evs
      end
  end.
Proof.
  unfold handle_transport_message. rewrite decide_True by done. unfold handle_open_packet.
  pose proof (stop_heartbeat_not_running e) as Hrun.
  assert (OnOpen ∉ (stop_heartbeat_timer e).2) as Hno.
  { unfold stop_heartbeat_timer. destruct (heartbeat_running (request_heartbeat_stop e)); solve_member. }
  assert (open_ (stop_heartbeat_timer e).1 = open_ e /\ heartbeat_stop_requested (stop_heartbeat_timer e).1 = true /\
          ping_interval_ms (stop_heartbeat_timer e).1 = ping_interval_ms e /\
          ping_timeout_ms (stop_heartbeat_timer e).1 = ping_timeout_ms e) as (Ho & Hs & Hi & Ht).
  { unfold stop_heartbeat_timer. by destruct (heartbeat_running (request_heartbeat_stop e)). }
  destruct (stop_heartbeat_timer e) as [e1 evs1]; cbn [fst snd] in *.
  pose proof (read_handshake_frame now (parse rest) e1) as Hframe.
  destruct (parse rest) as [j|]; cbn [read_handshake] in *.
  - destruct (value_or get_int j "pingInterval" 25000) as [interval|x] eqn:E1.
    2:{ apply value_or_exn in E1 as ->. done. }
    destruct (value_or get_int j "pingTimeout" 20000) as [timeout|x] eqn:E2.
    2:{ apply value_or_exn in E2 as ->. done. }
    destruct (value_or get_string j "sid" []) as [sid|x] eqn:E3.
    2:{ apply value_or_exn in E3 as ->. done. }
    unfold start_heartbeat_timer; cbn. rewrite Hrun.
    destruct (closing_ e1); cbn; split_and!; try done; solve_member.
  - unfold start_heartbeat_timer; cbn. rewrite Hrun.
    destruct (closing_ e1); cbn; split_and!; try done; solve_member.
Qed.

(** No handler call assigns the heartbeat thread while it is joinable, which
    would end the program: the only exception a message can raise is the type
    error of a handshake, and every message that is no handshake is handled. *)
Theorem message_exceptions (now : Z) (payload : bstr) (is_binary : bool) (e : engine) :
  let '(_, _, x) := handle_transport_message now payload is_binary e in
  x = None \/ (x = Some type_error /\ is_binary = false /\ head payload = Some "0"%char).
Proof.
  unfold handle_transport_message. destruct is_binary; [by left|]. destruct payload as [|c rest]; [by left|].
  destruct (decide (c = "0"%char)) as [->|].
  - unfold handle_open_packet. pose proof (stop_heartbeat_not_running e) as Hrun.
    destruct (stop_heartbeat_timer e) as [e1 evs1]; cbn [fst] in Hrun.
    pose proof (read_handshake_frame now (parse rest) e1) as Hframe.
    destruct (read_handshake now (parse rest) e1) as [e2 [x|]].
    + right. destruct Hframe as (_ & _ & _ & _ & _ & [?|?]); [done|]. by split_and!.
    + destruct Hframe as (_ & _ & _ & _ & Hr & _). unfold start_heartbeat_timer; cbn. rewrite Hr, Hrun.
      destruct (closing_ e2); by left.
  - destruct (decide (c = "1"%char)); [by destruct (stop_heartbeat_timer _); left|].
    repeat (case_decide; [by left|]). by left.
Qed.
End properties.

(** The heartbeat: as long as the last sign of life is at most the ping
    interval and timeout old nothing is reported; when the server is silent and
    the checks are no more than [gap] apart, the timeout is reported at the first
    check past that age, no later than [gap] after it. *)
Theorem heartbeat_detects (e : engine) (gap previous : Z) (checks : list Z) :
  closing_ e = false -> heartbeat_stop_requested e = false ->
  let limit := last_pong e + ping_interval_ms e + ping_timeout_ms e in
  previous <= limit -> checks_within gap previous checks ->
  match first_report e checks with
  | Some c => c ∈ checks /\ limit < c <= limit + gap
  | None => Forall (fun c => c <= limit) checks
  end.
Proof.
  intros Hc Hs limit. revert previous. induction checks as [|c checks IH]; intros previous Hp; cbn; [constructor|].
  intros [Hgap Hrest]. unfold heartbeat_check. rewrite Hc, Hs. cbn [orb].
  destruct (Z.leb_spec (c - last_pong e) (ping_interval_ms e + ping_timeout_ms e)) as [Hle|Hlt].
  - specialize (IH c ltac:(unfold limit; lia) Hrest). destruct (first_report e checks) as [c'|].
    + destruct IH as [? ?]. split; [by right|done].
    + constructor; [unfold limit; lia|done].
  - split; [by left|]. unfold limit in *. lia.
Qed.

Lemma heartbeat_detects_witness :
  let e := mk_engine true true false false [] 25000 20000 true 0 in
  first_report e [25001; 50003; 75004] = Some 50003 /\
  match first_report e [25001; 50003; 75004] with
  | Some c => c ∈ [25001; 50003; 75004] /\ 45000 < c <= 45000 + 25002
  | None => Forall (fun c => c <= 45000) [25001; 50003; 75004]
  end.
Proof.
  split; [vm_compute; reflexivity|].
  apply (heartbeat_detects (mk_engine true true false false [] 25000 20000 true 0) 25002 0 [25001; 50003; 75004]);
    cbn; lia || reflexivity.
Defined.
