(* ===== verification/Heartbeat.v ===== *)
(** * The threads of the Engine.IO session

    src/engineio_client.cpp once more, now with its threads: the handlers and
    methods of Engineio.v cut into the steps between two accesses of shared
    members, and the loop of the heartbeat thread.  A thread is a stack of
    [frame]s, one per call of the session it is inside, each with the instructions
    it has still to do; user code and the transport are the environment, which may
    call the session again from inside a call.  [heartbeat_thread_mutex_] and
    [heartbeat_mutex_] are held from step to step where the code holds them over
    more than one access.  How long a wait lasts is Engineio.v's concern: here it
    may end at any time. *)

From S2P Require Export Engineio.
From stdpp Require Import options.
#[local] Set Default Proof Using "Type*".
Local Open Scope Z_scope.

(** ** Instructions *)

Inductive instr : Type :=
  (* assignments and tests of the atomic members *)
  | IOpen (b : bool)
  | IExchange (* of [close] *)
  | IUnlessClosing (url : bstr) (* of [open] *)
  | IClearSession
  | IConnect (url : bstr)
  | ISend (payload : bstr) (is_binary : bool)
  (* [request_heartbeat_stop]: [IStopSet] holds [heartbeat_thread_mutex_] *)
  | IStopLock | IStopSet | INotify
  (* the rest of [stop_heartbeat_timer] *)
  | ITake | IJoin (h : nat)
  (* the handshake and the signs of life *)
  | IHandshake (handshake : option json) | ISid (handshake : option json) | IPong
  (* [start_heartbeat_timer]: [IStartClosing] and [IStart] hold the mutex *)
  | IStartLock | IStartClosing | IStart
  (* a call of a handler of the owner or of the transport; inside of it *)
  | ICall (ev : engine_event) | IUser
  (* the loop of the heartbeat thread: the tests of [while]; [HCheck],
     [HCheckStop], [HElapsed] and [HEnter] hold [heartbeat_mutex_]; the flag tells
     whether the wait has timed out *)
  | HOpen | HClosing | HStop | HLock
  | HCheck (interval timeout : Z) (expired : bool)
  | HCheckStop (interval timeout : Z) (expired : bool)
  | HEnter (interval timeout : Z)
  | HWait (interval timeout : Z)
  | HWake (interval timeout : Z) (expired : bool)
  | HElapsed (interval timeout : Z).

(** ** State *)

(** A frame belongs to a foreign thread, to the heartbeat thread, or to a call of the
    session; the flag tells a message handler. *)
Inductive frame_kind : Type := FUser | FHeartbeat | FMethod (message : bool).

Record frame : Type := mk_frame { kind : frame_kind; code : list instr }.

Definition is_message (f : frame) : bool := match kind f with FMethod b => b | _ => false end.

Abbreviation stack := (list frame).

(** [heartbeat_thread] is [heartbeat_thread_] when it is joinable; the mutexes name
    the thread that holds them; [overwritten] that [heartbeat_thread_] was assigned
    while joinable; [raised] the exceptions that left a call. *)
Record session : Type := mk_session {
  eng : engine;
  heartbeat_thread : option nat;
  thread_mutex : option nat;
  heartbeat_mutex : option nat;
  threads : list stack;
  overwritten : bool;
  raised : list exn;
  history : list engine_event;
}.

Definition new_session : session :=
  mk_session (set_transport new_engine) None None None [] false [] [].

Definition record (ev : engine_event) (s : session) : session := {| s with history := history s ++ [ev] |}.
Definition set_eng (e : engine) (s : session) : session := {| s with eng := e |}.

(** ** Methods and handlers as instructions *)

Definition request_heartbeat_stop_code : list instr := [IStopLock; IStopSet; INotify].
Definition stop_heartbeat_timer_code : list instr := request_heartbeat_stop_code ++ [ITake].
Definition close_body : list instr := request_heartbeat_stop_code ++ [IOpen false; ICall TransportClose].

Section with_json.
Context `{JsonLib}.

Definition open_packet_code (rest : bstr) : list instr :=
  let handshake := parse rest in
  stop_heartbeat_timer_code ++ [IHandshake handshake; ISid handshake; IOpen true; IStartLock; ICall OnOpen].

Definition message_code (payload : bstr) (is_binary : bool) : list instr :=
  if is_binary then [ICall (OnFrame payload true)]
  else match payload with
       | [] => []
       | type_char :: rest =>
           if decide (type_char = "0"%char) then open_packet_code rest
           else if decide (type_char = "1"%char) then
             IOpen false :: stop_heartbeat_timer_code ++ [ICall (OnClose "server closed connection")]
           else if decide (type_char = "2"%char) then [IPong; ICall (TransportSend "3" false)]
           else if decide (type_char = "3"%char) then [IPong]
           else if decide (type_char = "4"%char) then [ICall (OnFrame rest false)]
           else []
       end.

(** The calls of the session. *)
Inductive method : Type :=
  | MOpen (url : bstr)
  | MClose
  | MSyncClose
  | MSend (payload : bstr) (is_binary : bool)
  | MTransportOpen
  | MTransportClose (reason : bstr)
  | MTransportError (message : bstr)
  | MMessage (payload : bstr) (is_binary : bool).

Definition method_code (m : method) : list instr :=
  match m with
  | MOpen url => [IUnlessClosing url]
  | MClose => [IExchange]
  | MSyncClose => IExchange :: stop_heartbeat_timer_code ++ [ICall TransportSyncClose]
  | MSend payload is_binary => [ISend payload is_binary]
  | MTransportOpen => []
  | MTransportClose reason => IOpen false :: stop_heartbeat_timer_code ++ [ICall (OnClose reason)]
  | MTransportError message => [ICall (OnError message)]
  | MMessage payload is_binary => message_code payload is_binary
  end.

Definition message_method (m : method) : bool := match m with MMessage _ _ => true | _ => false end.

Definition method_frame (m : method) : frame := mk_frame (FMethod (message_method m)) (method_code m).

(** ** Steps *)

(** The handshake in its two critical sections. *)
Definition read_intervals (now : Z) (handshake : option json) (e : engine) : engine * option exn :=
  match handshake with
  | None => ({| e with last_pong := now |}, None)
  | Some j =>
      match value_or get_int j "pingInterval" 25000 with
      | Throw x => (e, Some x)
      | Ok interval =>
          let e := {| e with ping_interval_ms := interval |} in
          match value_or get_int j "pingTimeout" 20000 with
          | Throw x => (e, Some x)
          | Ok timeout => ({| e with ping_timeout_ms := timeout; last_pong := now |}, None)
          end
      end
  end.

Definition read_session_id (handshake : option json) (e : engine) : engine * option exn :=
  match handshake with
  | None => ({| e with session_id := [] |}, None)
  | Some j =>
      match value_or get_string j "sid" [] with
      | Throw x => (e, Some x)
      | Ok sid => ({| e with session_id := sid |}, None)
      end
  end.

(** An instruction goes on with others in front of the rest, raises an exception
    or cannot be executed yet. *)
Inductive result : Type :=
  | Next (pushed : list instr) (s : session)
  | Raise (x : exn) (s : session)
  | Blocked.

Definition free (m : option nat) : bool := match m with None => true | Some _ => false end.

Definition guard_free (m : option nat) (r : result) : result := if free m then r else Blocked.

(** Notified, a thread that waits leaves the wait. *)
Definition wake_code (c : list instr) : list instr :=
  match c with HWait interval timeout :: c' => HWake interval timeout false :: c' | _ => c end.
Definition wake_frame (f : frame) : frame := mk_frame (kind f) (wake_code (code f)).
Definition notify_all (s : session) : session := {| s with threads := (fun st : stack => wake_frame <$> st) <$> threads s |}.

Definition finished (h : nat) (s : session) : bool :=
  match threads s !! h with Some (_ :: _) => false | _ => true end.

Definition is_transport (ev : engine_event) : bool :=
  match ev with TransportConnect _ | TransportSend _ _ | TransportClose | TransportSyncClose => true | _ => false end.

Definition heartbeat_frame : frame := mk_frame FHeartbeat [HOpen].

Definition try_lock_heartbeat (i : nat) (r : session -> result) (s : session) : result :=
  guard_free (heartbeat_mutex s) (r {| s with heartbeat_mutex := Some i |}).
Definition unlock_heartbeat (s : session) : session := {| s with heartbeat_mutex := None |}.
Definition try_lock_thread (i : nat) (r : session -> result) (s : session) : result :=
  guard_free (thread_mutex s) (r {| s with thread_mutex := Some i |}).
Definition unlock_thread (s : session) : session := {| s with thread_mutex := None |}.

(** What assigns the engine, or raises. *)
Definition assigning (r : engine * option exn) (s : session) : result :=
  match r with (e, None) => Next [] (set_eng e s) | (e, Some x) => Raise x (set_eng e s) end.

(** Thread [i] executes an instruction at time [now]; [expired] says why a wait ends. *)
Definition exec (now : Z) (expired : bool) (i : nat) (ins : instr) (s : session) : result :=
  let e := eng s in
  match ins with
  | IOpen b => Next [] (set_eng {| e with open_ := b |} s)
  | IExchange => if closing_ e then Next [] s else Next close_body (set_eng {| e with closing_ := true |} s)
  | IUnlessClosing url => if closing_ e then Next [] s else Next [IOpen false; IClearSession; IConnect url] s
  | IClearSession => Next [] (set_eng {| e with session_id := [] |} s)
  | IConnect url => if has_transport e then Next [ICall (TransportConnect url)] s else Raise (runtime_error "sioxx: no transport set on engineio_client") s
  | ISend payload is_binary =>
      if negb (has_transport e) || negb (open_ e) then Next [] s
      else if is_binary then Next [ICall (TransportSend payload true)] s
      else Next [ICall (TransportSend ("4"%char :: payload) false)] s
  | IStopLock => try_lock_thread i (Next []) s
  | IStopSet =>
      guard_free (heartbeat_mutex s) (Next [] (unlock_thread (set_eng (request_heartbeat_stop e) s)))
  | INotify => Next [] (notify_all s)
  | ITake =>
      guard_free (thread_mutex s)
        (match heartbeat_thread s with
         | None => Next [] s
         | Some h =>
             let s := set_eng {| e with heartbeat_running := false |} {| s with heartbeat_thread := None |} in
             if decide (h = i) then Next [] s else Next [IJoin h] s
         end)
  | IJoin h => if finished h s then Next [] (record JoinHeartbeat s) else Blocked
  | IHandshake j => guard_free (heartbeat_mutex s) (assigning (read_intervals now j e) s)
  | ISid j => assigning (read_session_id j e) s
  | IPong => guard_free (heartbeat_mutex s) (Next [] (set_eng {| e with last_pong := now |} s))
  | IStartLock => try_lock_thread i (fun s => if open_ e then Next [IStartClosing] s else Next [] (unlock_thread s)) s
  | IStartClosing => if closing_ e then Next [] (unlock_thread s) else Next [IStart] s
  | IStart =>
      let s := unlock_thread (set_eng {| e with heartbeat_stop_requested := false |} s) in
      match heartbeat_thread s with
      | Some _ => Raise undefined_behaviour {| s with overwritten := true |}
      | None =>
          let e := eng s in
          let s := set_eng {| e with heartbeat_running := true |} s in
          Next [] (record StartHeartbeat
            {| s with heartbeat_thread := Some (length (threads s)); threads := threads s ++ [[heartbeat_frame]] |})
      end
  | ICall ev => if is_transport ev && negb (has_transport e) then Next [] s else Next [IUser] (record ev s)
  | IUser => Blocked
  | HOpen => if open_ e then Next [HClosing] s else Next [] s
  | HClosing => if closing_ e then Next [] s else Next [HStop] s
  | HStop => if heartbeat_stop_requested e then Next [] s else Next [HLock] s
  | HLock => try_lock_heartbeat i (Next [HCheck (ping_interval_ms e) (ping_timeout_ms e) false]) s
  | HCheck interval timeout expired =>
      if closing_ e then Next [] (unlock_heartbeat s) else Next [HCheckStop interval timeout expired] s
  | HCheckStop interval timeout expired =>
      if heartbeat_stop_requested e then Next [] (unlock_heartbeat s)
      else if expired then Next [HElapsed interval timeout] s
      else Next [HEnter interval timeout] s
  | HEnter interval timeout => Next [HWait interval timeout] (unlock_heartbeat s)
  | HWait interval timeout => Next [HWake interval timeout expired] s
  | HWake interval timeout expired => try_lock_heartbeat i (Next [HCheck interval timeout expired]) s
  | HElapsed interval timeout =>
      Next (if now - last_pong e <=? interval + timeout then [HOpen]
            else [ICall (OnError "engine.io ping timeout"); ICall TransportClose])
        (unlock_heartbeat s)
  end.

Definition set_thread (i : nat) (st : stack) (s : session) : session := {| s with threads := <[i := st]> (threads s) |}.

(** Thread [i] goes on; a frame without instructions returns to the caller. *)
Definition thread_step (now : Z) (expired : bool) (i : nat) (s : session) : option session :=
  match threads s !! i with
  | Some (f :: fs) =>
      match code f with
      | [] => Some (set_thread i fs s)
      | ins :: rest =>
          match exec now expired i ins s with
          | Next pushed s => Some (set_thread i (mk_frame (kind f) (pushed ++ rest) :: fs) s)
          | Raise x s => Some (set_thread i fs {| s with raised := raised s ++ [x] |})
          | Blocked => None
          end
      end
  | _ => None
  end.

(** The environment inside a call: it returns, throws - to the caller of the method,
    if there is one - or calls the session. *)
Definition user_return (i : nat) (s : session) : option session :=
  match threads s !! i with
  | Some (mk_frame b (IUser :: rest) :: fs) => Some (set_thread i (mk_frame b rest :: fs) s)
  | _ => None
  end.

Definition user_throw (i : nat) (s : session) : option session :=
  match threads s !! i with
  | Some (mk_frame _ (IUser :: _) :: fs) => if decide (fs = []) then None else Some (set_thread i fs s)
  | _ => None
  end.

(** A transport delivers one message at a time. *)
Definition in_message (s : session) : bool := existsb (existsb is_message) (threads s).

Definition user_call (i : nat) (m : method) (s : session) : option session :=
  match threads s !! i with
  | Some ((mk_frame _ (IUser :: _) :: _) as st) =>
      if message_method m && in_message s then None else Some (set_thread i (method_frame m :: st) s)
  | _ => None
  end.

Definition user_frame : frame := mk_frame FUser [IUser].

Inductive internal : session -> session -> Prop :=
  | internal_step now expired i s s' : thread_step now expired i s = Some s' -> internal s s'.

Inductive s_step : session -> session -> Prop :=
  | s_internal s s' : internal s s' -> s_step s s'
  | s_return i s s' : user_return i s = Some s' -> s_step s s'
  | s_throw i s s' : user_throw i s = Some s' -> s_step s s'
  | s_call i m s s' : user_call i m s = Some s' -> s_step s s'
  | s_thread s : s_step s {| s with threads := threads s ++ [[user_frame]] |}.

Definition s_reachable (s : session) : Prop := rtc s_step new_session s.

(** ** The methods by themselves *)

(** What Engineio.v says about a method: the engine, the calls, the exception. *)
Definition method_result (now : Z) (m : method) (e : engine) : engine * list engine_event * option exn :=
  match m with
  | MOpen url => engine_open url e
  | MClose => (engine_close e, None)
  | MSyncClose => (engine_sync_close e, None)
  | MSend payload is_binary => (e, engine_send payload is_binary e, None)
  | MTransportOpen => (handle_transport_open e, [], None)
  | MTransportClose reason => (handle_transport_close reason e, None)
  | MTransportError message => (e, handle_transport_error message e, None)
  | MMessage payload is_binary => handle_transport_message now payload is_binary e
  end.
End with_json.
