(* ===== verification/HeartbeatSpec.v ===== *)
(** * Properties of the session's threads

    The methods by themselves do what Engineio.v says; under every interleaving the
    heartbeat thread is never assigned while joinable, no request to stop it is
    lost, and waiting for it ends unless user code does not return. *)

From S2P Require Export Heartbeat JsonCodec.
From stdpp Require Import options.
#[local] Set Default Proof Using "Type*".
Local Open Scope Z_scope.

(** ** A method without interference *)

Section alone.
Context `{JsonLib}.
Context (now : Z) (i : nat) (before : option nat).

(** Thread [i] goes on and the environment returns to it, and nothing else happens. *)
Definition alone (s s' : session) : Prop := thread_step now false i s = Some s' \/ user_return i s = Some s'.

(** [heartbeat_mutex_] is free, and the thread [before], if there is one, has ended. *)
Record ready (s : session) : Prop := mk_ready {
  r_heartbeat : heartbeat_mutex s = None;
  r_before : forall h, before = Some h -> h <> i /\ threads s !! h = Some [];
}.

(** What a method works on, [m] being [heartbeat_thread_mutex_]. *)
Definition view_with (m : option nat) (e : engine) (evs : list engine_event) (xs : list exn) (th : option nat) (s : session) : Prop :=
  eng s = e /\ history s = evs /\ raised s = xs /\ heartbeat_thread s = th /\ thread_mutex s = m.

Abbreviation view := (view_with None).

(** At the end of a method. *)
Definition seen (e : engine) (evs : list engine_event) (xs : list exn) (s : session) : Prop :=
  eng s = e /\ history s = evs /\ raised s = xs /\ thread_mutex s = None.

(** Executed at the head of thread [i], [c] leads from [P] to [Q] and leaves [next]. *)
Definition leads (c : list instr) (next : frame_kind -> list instr -> stack -> stack) (P Q : session -> Prop) : Prop :=
  forall s b rest fs, P s -> ready s -> threads s !! i = Some (mk_frame b (c ++ rest) :: fs) ->
  exists s', rtc alone s s' /\ Q s' /\ ready s' /\ threads s' !! i = Some (next b rest fs).

(** It is executed to its end, or an exception leaves it. *)
Definition runs (c : list instr) := leads c (fun b rest fs => mk_frame b rest :: fs).
Definition raises (c : list instr) := leads c (fun _ _ fs => fs).

Lemma runs_nil P : runs [] P P.
Proof. intros s b rest fs HP Hr Ht. by exists s. Qed.

Lemma leads_app c1 c2 next P Q R : runs c1 P Q -> leads c2 next Q R -> leads (c1 ++ c2) next P R.
Proof.
  intros H1 H2 s b rest fs HP Hr Ht. rewrite <- app_assoc in Ht.
  destruct (H1 s b _ fs HP Hr Ht) as (s1 & Hs1 & HQ & Hr1 & Ht1).
  destruct (H2 s1 b rest fs HQ Hr1 Ht1) as (s2 & Hs2 & HR & Hr2 & Ht2).
  exists s2. split; [by etrans|done].
Qed.

Lemma leads_cons x c next P Q R : runs [x] P Q -> leads c next Q R -> leads (x :: c) next P R.
Proof. apply (leads_app [x]). Qed.

Lemma raises_app c1 c2 P Q : raises c1 P Q -> raises (c1 ++ c2) P Q.
Proof. intros Hc s b rest fs HP Hr Ht. rewrite <- app_assoc in Ht. by apply (Hc s b (c2 ++ rest) fs). Qed.

Lemma leads_mono c next P Q P' Q' :
  (forall s, P' s -> P s) -> (forall s, Q s -> Q' s) -> leads c next P Q -> leads c next P' Q'.
Proof. intros HP HQ Hc s b rest fs HP' Hr Ht. destruct (Hc s b rest fs) as (s' & ? & ? & ?); eauto. Qed.

Lemma ready_set s st t : ready s -> threads s !! i = Some st -> ready (set_thread i t s).
Proof.
  intros [H1 H2] Ht. split; [done..|]. intros h Hh. destruct (H2 h Hh) as [Hn Hf]. split; [done|].
  cbn. by rewrite list_lookup_insert_ne.
Qed.

Lemma set_lookup s st t : threads s !! i = Some st -> threads (set_thread i t s) !! i = Some t.
Proof. intros Ht. cbn. apply list_lookup_insert_eq. by eapply lookup_lt_Some. Qed.

(** One instruction, executed in one step. *)
Lemma leads_exec x p next P Q :
  (forall s, P s -> ready s -> is_Some (threads s !! i) -> exists s1, exec now false i x s = Next p s1 /\ is_Some (threads s1 !! i) /\ ready s1 /\ Q s1) ->
  (forall s t, Q s -> Q (set_thread i t s)) ->
  forall R, leads p next Q R -> leads [x] next P R.
Proof.
  intros Hx HQ R Hp s b rest fs HP Hr Ht. destruct (Hx s HP Hr) as (s1 & E & [st Et] & Hr1 & HQ1); [by eexists|].
  set (s2 := set_thread i (mk_frame b (p ++ rest) :: fs) s1).
  destruct (Hp s2 b rest fs) as (s' & Hs & HR & Hr' & Ht'); [by apply HQ|by eapply ready_set|by eapply set_lookup|].
  exists s'. split; [|done]. eapply rtc_l; [|done]. left. unfold thread_step. rewrite Ht. cbn. by rewrite E.
Qed.

Lemma runs_exec x P Q :
  (forall s, P s -> ready s -> is_Some (threads s !! i) -> exists s1, exec now false i x s = Next [] s1 /\ is_Some (threads s1 !! i) /\ ready s1 /\ Q s1) ->
  (forall s t, Q s -> Q (set_thread i t s)) -> runs [x] P Q.
Proof. intros Hx HQ. eapply leads_exec; [done..|apply runs_nil]. Qed.

Lemma raises_exec x P Q :
  (forall s, P s -> ready s -> is_Some (threads s !! i) -> exists exn s1, exec now false i x s = Raise exn s1 /\ is_Some (threads s1 !! i) /\ ready s1 /\
     forall t, Q (set_thread i t {| s1 with raised := raised s1 ++ [exn] |})) -> raises [x] P Q.
Proof.
  intros Hx s b rest fs HP Hr Ht. destruct (Hx s HP Hr) as (x' & s1 & E & [st Et] & Hr1 & HQ); [by eexists|].
  eexists. split; [|split; [apply (HQ fs)|split]].
  - apply rtc_once. left. unfold thread_step. rewrite Ht. cbn. by rewrite E.
  - eapply (ready_set {| s1 with raised := _ |}); [by destruct Hr1|exact Et].
  - by eapply (set_lookup {| s1 with raised := _ |}).
Qed.

Lemma runs_user P : (forall s t, P s -> P (set_thread i t s)) -> runs [IUser] P P.
Proof.
  intros HP s b rest fs HPs Hr Ht. eexists. split; [|split; [|split]].
  - apply rtc_once. right. unfold user_return. by rewrite Ht.
  - by apply HP.
  - by eapply ready_set.
  - by eapply set_lookup.
Qed.

(** *** The instructions *)

Ltac exec_step :=
  intros s (E1 & E2 & E3 & E4 & E5) [R1 R2] Hi; eexists; cbn;
  unfold try_lock_thread, try_lock_heartbeat, guard_free; rewrite ?R1, ?E5, ?E4, ?E1; cbn;
  split; [reflexivity|split; [done|split; [by split|done]]].
Ltac run_one := apply runs_exec; [exec_step|done].

Definition called (e : engine) (ev : engine_event) : list engine_event :=
  if is_transport ev && negb (has_transport e) then [] else [ev].

Lemma runs_call ev e evs xs th : runs [ICall ev] (view e evs xs th) (view e (evs ++ called e ev) xs th).
Proof.
  unfold called. destruct (is_transport ev && negb (has_transport e)) eqn:E.
  - rewrite app_nil_r. apply runs_exec; [|done]. intros s (E1 & E2 & E3 & E4 & E5) [R1 R2] Hi. exists s. cbn.
    rewrite E1, E. done.
  - apply (leads_exec _ [IUser] _ _ (view e (evs ++ [ev]) xs th)); [|done|by apply runs_user].
    intros s (E1 & E2 & E3 & E4 & E5) [R1 R2] Hi. eexists. cbn. rewrite E1, E. split; [done|]. split; [done|].
    split; [by split|]. subst. done.
Qed.

Lemma runs_notify e evs xs th : runs [INotify] (view e evs xs th) (view e evs xs th).
Proof.
  apply runs_exec; [|done]. intros s Hv [R1 R2] [st Hi]. eexists. cbn. split; [done|].
  split; [|split; [|done]].
  - cbn. rewrite list_lookup_fmap, Hi. by eexists.
  - split; [done..|]. intros h Hh. destruct (R2 h Hh) as [Hn E]. split; [done|]. cbn. by rewrite list_lookup_fmap, E.
Qed.

Lemma runs_request e evs xs th :
  runs request_heartbeat_stop_code (view e evs xs th) (view (request_heartbeat_stop e) evs xs th).
Proof.
  apply (leads_cons _ _ _ _ (view_with (Some i) e evs xs th)); [run_one|].
  apply (leads_cons _ _ _ _ (view (request_heartbeat_stop e) evs xs th)); [run_one|]. apply runs_notify.
Qed.

Definition not_running (e : engine) : engine := {| e with heartbeat_running := false |}.

(** [stop_heartbeat_timer] *)
Lemma runs_stop e evs xs :
  heartbeat_running e = bool_decide (is_Some before) ->
  runs stop_heartbeat_timer_code (view e evs xs before)
    (view (stop_heartbeat_timer e).1 (evs ++ (stop_heartbeat_timer e).2) xs None).
Proof.
  intros Hrun. apply (leads_app _ _ _ _ (view (request_heartbeat_stop e) evs xs before)); [apply runs_request|].
  unfold stop_heartbeat_timer. change (heartbeat_running (request_heartbeat_stop e)) with (heartbeat_running e).
  rewrite Hrun. destruct before as [h|] eqn:Hb; cbn -[request_heartbeat_stop].
  - apply (leads_exec _ [IJoin h] _ _ (view (not_running (request_heartbeat_stop e)) evs xs None)); [|done|].
    + intros s (E1 & E2 & E3 & E4 & E5) [R1 R2] Hi. destruct (R2 h Hb) as [Hn _].
      eexists. cbn. unfold guard_free. rewrite E5, E4. cbn. rewrite decide_False by done.
      split; [done|]. split; [done|]. split; [by split|]. split; [cbn; by rewrite E1|done].
    + apply runs_exec; [|done]. intros s (E1 & E2 & E3 & E4 & E5) [R1 R2] Hi. destruct (R2 h Hb) as [Hn Hf].
      eexists. cbn. unfold finished. rewrite Hf. split; [done|]. split; [done|]. split; [by split|]. by subst.
  - rewrite app_nil_r. run_one.
Qed.

(** [start_heartbeat_timer], no thread being joinable *)
Ltac exec_start :=
  intros s (E1 & E2 & E3 & E4 & E5) [R1 R2] Hi; eexists; cbn; unfold try_lock_thread, guard_free; rewrite ?E5, E1;
  repeat match goal with H : _ = _ :> bool |- _ => rewrite H end;
  split; [reflexivity|split; [done|split; [by split|done]]].

Lemma runs_start e evs xs :
  heartbeat_running e = false ->
  (start_heartbeat_timer e).2 = None /\
  runs [IStartLock] (view e evs xs None)
    (seen (start_heartbeat_timer e).1.1 (evs ++ (start_heartbeat_timer e).1.2) xs).
Proof.
  intros Hrun. unfold start_heartbeat_timer.
  change (heartbeat_running {| e with heartbeat_stop_requested := false |}) with (heartbeat_running e). rewrite Hrun.
  set (locked := view_with (Some i) e evs xs None).
  destruct (open_ e) eqn:Ho; [destruct (closing_ e) eqn:Hc|]; cbn [negb orb]; split; try done; rewrite ?app_nil_r.
  - apply (leads_exec _ [IStartClosing] _ _ locked); [|done|].
    + exec_start.
    + apply runs_exec; [exec_start|done].
  - apply (leads_exec _ [IStartClosing] _ _ locked); [exec_start|done|].
    apply (leads_exec _ [IStart] _ _ locked); [exec_start|done|].
    apply runs_exec; [|done]. intros s (E1 & E2 & E3 & E4 & E5) [R1 R2] [st Hi]. eexists. cbn. rewrite E4.
    split; [reflexivity|]. split; [|split].
    + exists st. by apply lookup_app_l_Some.
    + split; [done|]. intros h Hh. destruct (R2 h Hh). split; [done|]. by apply lookup_app_l_Some.
    + split; [cbn; by rewrite E1, Ho, Hc|]. split; [cbn; by rewrite E2|done].
  - apply runs_exec; [exec_start|done].
Qed.

Lemma leads_seen c next P e evs xs th : leads c next P (view e evs xs th) -> leads c next P (seen e evs xs).
Proof. apply leads_mono; [done|]. intros s (? & ? & ? & ? & ?). done. Qed.

Lemma called_transport e ev : is_transport ev = true -> called e ev = if_transport e ev.
Proof. unfold called, if_transport. intros ->. by destruct (has_transport e). Qed.

Lemma runs_close_body e evs xs th :
  let e' := request_heartbeat_stop e in
  runs close_body (view e evs xs th)
    (view {| e' with open_ := false |} (evs ++ if_transport e TransportClose) xs th).
Proof.
  intros e'. set (e2 := {| e' with open_ := false |}).
  apply (leads_app _ _ _ _ (view e' evs xs th)); [apply runs_request|].
  apply (leads_cons _ _ _ _ (view e2 evs xs th)); [run_one|].
  change (if_transport e TransportClose) with (if_transport e2 TransportClose). rewrite <- called_transport by done. apply runs_call.
Qed.

(** [close], inside [sync_close] too *)
Lemma runs_close e evs xs th :
  runs [IExchange] (view e evs xs th) (view (engine_close e).1 (evs ++ (engine_close e).2) xs th).
Proof.
  unfold engine_close. destruct (closing_ e) eqn:Hc.
  - rewrite app_nil_r. apply runs_exec; [|done]. intros s (E1 & E2 & E3 & E4 & E5) [R1 R2] Hi. exists s. cbn. by rewrite E1, Hc.
  - set (e1 := {| e with closing_ := true |}).
    apply (leads_exec _ close_body _ _ (view e1 evs xs th)); [|done|apply (runs_close_body e1)].
    intros s (E1 & E2 & E3 & E4 & E5) [R1 R2] Hi. eexists. cbn. rewrite E1, Hc. done.
Qed.
(** *** The methods *)

Definition outcome_of (c : list instr) (e : engine) (evs : list engine_event) (xs : list exn)
    (r : engine * list engine_event * option exn) : Prop :=
  match r with
  | (e', evs', None) => runs c (view e evs xs before) (seen e' (evs ++ evs') xs)
  | (e', evs', Some x) => raises c (view e evs xs before) (seen e' (evs ++ evs') (xs ++ [x]))
  end.

(** Handlers that stop the heartbeat and call the owner. *)
Lemma runs_stop_call e evs xs ev :
  heartbeat_running e = bool_decide (is_Some before) ->
  let e' := {| e with open_ := false |} in
  runs (IOpen false :: stop_heartbeat_timer_code ++ [ICall ev]) (view e evs xs before)
    (seen (stop_heartbeat_timer e').1 (evs ++ (stop_heartbeat_timer e').2 ++ called (stop_heartbeat_timer e').1 ev) xs).
Proof.
  intros Hrun e'. apply (leads_cons _ _ _ _ (view e' evs xs before)); [run_one|].
  eapply leads_app; [by apply runs_stop|]. rewrite app_assoc. eapply leads_seen, runs_call.
Qed.

Lemma close_running e : heartbeat_running (engine_close e).1 = heartbeat_running e.
Proof. unfold engine_close. by destruct (closing_ e). Qed.

Lemma runs_sync_close e evs xs :
  heartbeat_running e = bool_decide (is_Some before) ->
  runs (IExchange :: stop_heartbeat_timer_code ++ [ICall TransportSyncClose]) (view e evs xs before)
    (seen (engine_sync_close e).1 (evs ++ (engine_sync_close e).2) xs).
Proof.
  intros Hrun. unfold engine_sync_close.
  pose proof (runs_close e evs xs before) as H1. pose proof (close_running e) as Hr.
  destruct (engine_close e) as [e1 evs1]; cbn [fst snd] in *.
  pose proof (runs_stop e1 (evs ++ evs1) xs ltac:(by rewrite Hr)) as H2.
  destruct (stop_heartbeat_timer e1) as [e2 evs2]; cbn [fst snd] in *.
  apply (leads_cons _ _ _ _ _ _ H1). eapply leads_app; [apply H2|].
  rewrite <- called_transport by done. rewrite !app_assoc. eapply leads_seen, runs_call.
Qed.

Lemma runs_send payload is_binary e evs xs th :
  runs [ISend payload is_binary] (view e evs xs th) (seen e (evs ++ engine_send payload is_binary e) xs).
Proof.
  unfold engine_send. destruct (has_transport e) eqn:Ht; [destruct (open_ e) eqn:Ho|]; cbn [negb orb].
  2,3: rewrite app_nil_r; apply runs_exec; [|done]; intros s (E1 & E2 & E3 & E4 & E5) [R1 R2] Hi; exists s; cbn;
    rewrite E1, Ht, ?Ho; done.
  set (ev := TransportSend (if is_binary then payload else "4"%char :: payload) is_binary).
  replace (if is_binary then _ else _) with (called e ev).
  2: { unfold called. cbn. rewrite Ht. by destruct is_binary. }
  apply (leads_exec _ [ICall ev] _ _ (view e evs xs th)); [|done|eapply leads_seen, runs_call].
  intros s (E1 & E2 & E3 & E4 & E5) [R1 R2] Hi. exists s. cbn. rewrite E1, Ht, Ho. by destruct is_binary.
Qed.
Lemma leads_from_seen c next Q e evs xs :
  (forall th, leads c next (view e evs xs th) Q) -> leads c next (seen e evs xs) Q.
Proof.
  intros Hc s b rest fs (E1 & E2 & E3 & E4) Hr Ht. by apply (Hc (heartbeat_thread s) s b rest fs).
Qed.

(** The two halves of the handshake. *)
Lemma read_handshake_halves h e :
  read_handshake now h e =
  match read_intervals now h e with (e1, Some x) => (e1, Some x) | (e1, None) => read_session_id h e1 end.
Proof.
  unfold read_handshake, read_intervals, read_session_id. destruct h as [j|]; [|done].
  destruct (value_or get_int j "pingInterval" 25000); [|done].
  by destruct (value_or get_int j "pingTimeout" 20000).
Qed.

Lemma runs_assigning x h e evs xs th (read : option json -> engine -> engine * option exn) :
  (forall s, heartbeat_mutex s = None -> exec now false i x s = assigning (read h (eng s)) s) ->
  match read h e with
  | (e1, None) => runs [x] (view e evs xs th) (view e1 evs xs th)
  | (e1, Some exn) => raises [x] (view e evs xs th) (seen e1 evs (xs ++ [exn]))
  end.
Proof.
  intros Hx. destruct (read h e) as [e1 [exn|]] eqn:E.
  - apply raises_exec. intros s (E1 & E2 & E3 & E4 & E5) [R1 R2] Hi. exists exn. eexists. rewrite (Hx s R1), E1, E.
    split; [done|]. split; [done|]. split; [by split|]. intros t. subst. done.
  - apply runs_exec; [|done]. intros s (E1 & E2 & E3 & E4 & E5) [R1 R2] Hi. eexists. rewrite (Hx s R1), E1, E. done.
Qed.

Lemma runs_open_packet rest e evs xs :
  heartbeat_running e = bool_decide (is_Some before) ->
  outcome_of (open_packet_code rest) e evs xs (handle_open_packet now rest e).
Proof.
  intros Hrun. unfold handle_open_packet, open_packet_code. set (h := parse rest). clearbody h.
  pose proof (runs_stop e evs xs Hrun) as H1. pose proof (stop_heartbeat_not_running e) as Hstop.
  destruct (stop_heartbeat_timer e) as [e1 evs1]; cbn [fst snd] in *.
  pose proof (read_handshake_frame now h e1) as Hframe. rewrite read_handshake_halves in *.
  pose proof (runs_assigning (IHandshake h) h e1 (evs ++ evs1) xs None (read_intervals now)) as H2.
  destruct (read_intervals now h e1) as [e2 [x|]].
  { unfold outcome_of. eapply leads_app; [done|]. apply (raises_app [_]). apply H2. intros s R. cbn. by rewrite R. }
  pose proof (runs_assigning (ISid h) h e2 (evs ++ evs1) xs None read_session_id (fun s _ => eq_refl)) as H3.
  destruct (read_session_id h e2) as [e3 [x|]].
  { unfold outcome_of. eapply leads_app; [done|]. eapply leads_cons; [apply H2; intros s R; cbn; by rewrite R|]. by apply (raises_app [_]). }
  set (e4 := {| e3 with open_ := true |}).
  assert (Hr4 : heartbeat_running e4 = false).
  { change (heartbeat_running e4) with (heartbeat_running e3). by destruct Hframe as (_ & _ & _ & _ & -> & _). }
  destruct (runs_start e4 (evs ++ evs1) xs Hr4) as [Hx H4].
  destruct (start_heartbeat_timer e4) as [[e5 evs5] x5]; cbn [fst snd] in *. subst x5. unfold outcome_of.
  eapply leads_app; [done|]. eapply leads_cons; [apply H2; intros s R; cbn; by rewrite R|].
  eapply leads_cons; [done|]. apply (leads_cons _ _ _ _ (view e4 (evs ++ evs1) xs None)); [run_one|].
  eapply leads_cons; [done|]. rewrite !app_assoc. apply leads_from_seen. intros th. eapply leads_seen, (runs_call OnOpen).
Qed.

Definition not_open (e : engine) : engine := {| e with open_ := false |}.
Definition no_session (e : engine) : engine := {| e with session_id := [] |}.

Lemma engine_open_eq url e :
  engine_open url e =
  if closing_ e then (e, [], None)
  else if has_transport e then (no_session (not_open e), [TransportConnect url], None)
  else (no_session (not_open e), [], Some (runtime_error "sioxx: no transport set on engineio_client")).
Proof. unfold engine_open, no_session, not_open. destruct (closing_ e); [done|]. cbn. by destruct (has_transport e). Qed.

Lemma open_outcome url e evs xs : outcome_of [IUnlessClosing url] e evs xs (engine_open url e).
Proof.
  rewrite engine_open_eq. destruct (closing_ e) eqn:Hc; cbn [negb].
  - cbn. rewrite app_nil_r. eapply leads_seen, runs_exec; [|done].
    intros s (E1 & E2 & E3 & E4 & E5) [R1 R2] Hi. exists s. cbn. by rewrite E1, Hc.
  - set (e1 := not_open e). set (e2 := no_session e1).
    assert (forall next Q, leads [IConnect url] next (view e2 evs xs before) Q ->
              leads [IUnlessClosing url] next (view e evs xs before) Q) as Hgo.
    { intros next Q Hn. apply (leads_exec _ [IOpen false; IClearSession; IConnect url] _ _ (view e evs xs before)); [|done|].
      - intros s (E1 & E2 & E3 & E4 & E5) [R1 R2] Hi. exists s. cbn. by rewrite E1, Hc.
      - apply (leads_cons _ _ _ _ (view e1 evs xs before)); [run_one|].
        apply (leads_cons _ _ _ _ (view e2 evs xs before)); [run_one|done]. }
    assert (Ht2 : has_transport e2 = has_transport e) by done. clearbody e2.
    destruct (has_transport e) eqn:Ht; apply Hgo.
    + apply (leads_exec _ [ICall (TransportConnect url)] _ _ (view e2 evs xs before)); [|done|].
      * intros s (E1 & E2 & E3 & E4 & E5) [R1 R2] Hi. exists s. cbn. by rewrite E1, Ht2.
      * replace [TransportConnect url] with (called e2 (TransportConnect url)) by (unfold called; by rewrite Ht2).
        eapply leads_seen, runs_call.
    + rewrite app_nil_r. apply raises_exec. intros s (E1 & E2 & E3 & E4 & E5) [R1 R2] Hi. eexists _, s. cbn. rewrite E1, Ht2.
      split; [done|]. split; [done|]. split; [by split|]. intros t. by subst.
Qed.

Lemma message_outcome payload is_binary e evs xs :
  heartbeat_running e = bool_decide (is_Some before) ->
  outcome_of (message_code payload is_binary) e evs xs (handle_transport_message now payload is_binary e).
Proof.
  intros Hrun. unfold message_code, handle_transport_message. destruct is_binary; [eapply leads_seen, (runs_call (OnFrame payload true))|].
  destruct payload as [|c rest]; [cbn; rewrite app_nil_r; eapply leads_seen, runs_nil|].
  destruct (decide (c = "0"%char)); [by apply runs_open_packet|].
  destruct (decide (c = "1"%char)).
  { pose proof (runs_stop_call e evs xs (OnClose "server closed connection") Hrun) as Hs.
    cbv zeta in Hs. unfold outcome_of. by destruct (stop_heartbeat_timer _). }
  assert (runs [IPong] (view e evs xs before) (view {| e with last_pong := now |} evs xs before)) as Hpong by run_one.
  destruct (decide (c = "2"%char)).
  { cbn. eapply leads_cons; [done|]. rewrite <- called_transport by done. eapply leads_seen, runs_call. }
  destruct (decide (c = "3"%char)); [cbn; rewrite app_nil_r; by eapply leads_seen|].
  destruct (decide (c = "4"%char)); [eapply leads_seen, (runs_call (OnFrame rest false))|].
  cbn. rewrite app_nil_r. eapply leads_seen, runs_nil.
Qed.

Lemma method_outcome m e evs xs :
  heartbeat_running e = bool_decide (is_Some before) ->
  outcome_of (method_code m) e evs xs (method_result now m e).
Proof.
  intros Hrun. destruct m as [url| | |payload is_binary| |reason|message|payload is_binary]; unfold method_code, method_result.
  - apply open_outcome.
  - pose proof (runs_close e evs xs before) as Hc. destruct (engine_close e). by eapply leads_seen.
  - pose proof (runs_sync_close e evs xs Hrun) as Hc. by destruct (engine_sync_close e).
  - apply runs_send.
  - cbn. rewrite app_nil_r. eapply leads_seen, runs_nil.
  - pose proof (runs_stop_call e evs xs (OnClose reason) Hrun) as Hs. cbv zeta in Hs.
    unfold outcome_of, handle_transport_close. by destruct (stop_heartbeat_timer _).
  - eapply leads_seen, (runs_call (OnError message)).
  - by apply message_outcome.
Qed.
End alone.

(** Nothing runs but thread [i]: no mutex is held, and the heartbeat thread, if there
    is one that was not joined, has ended. *)
Record quiet (i : nat) (s : session) : Prop := mk_quiet {
  q_thread : thread_mutex s = None;
  q_heartbeat : heartbeat_mutex s = None;
  q_running : heartbeat_running (eng s) = bool_decide (is_Some (heartbeat_thread s));
  q_ended : forall h, heartbeat_thread s = Some h -> h <> i /\ threads s !! h = Some [];
}.

(** [C8] The steps of a method, taken by a thread that nothing interferes with, lead to
    its end, and have the effect that Engineio.v gives for the method: the same engine,
    the same calls in the same order, and the same exception if one leaves it. *)
Theorem session_refines_engine `{JsonLib} (now : Z) (i : nat) (m : method) (s : session) (f : frame) (fs : stack) :
  quiet i s -> threads s !! i = Some (method_frame m :: f :: fs) ->
  let '(e, evs, x) := method_result now m (eng s) in
  exists s', rtc (alone now i) s s' /\ threads s' !! i = Some (f :: fs) /\
    eng s' = e /\ history s' = history s ++ evs /\ raised s' = raised s ++ option_list x.
Proof.
  intros [Q1 Q2 Q3 Q4] Ht.
  pose proof (method_outcome now i (heartbeat_thread s) m (eng s) (history s) (raised s) Q3) as Ho.
  unfold method_frame in Ht. rewrite <- (app_nil_r (method_code m)) in Ht.
  assert (view_with None (eng s) (history s) (raised s) (heartbeat_thread s) s) as Hv by done.
  assert (ready i (heartbeat_thread s) s) as Hr by done.
  destruct (method_result now m (eng s)) as [[e evs] [x|]].
  - destruct (Ho s _ _ _ Hv Hr Ht) as (s' & Hs & (E1 & E2 & E3 & E4) & _ & Ht'). by exists s'.
  - destruct (Ho s _ _ _ Hv Hr Ht) as (s' & Hs & (E1 & E2 & E3 & E4) & _ & Ht').
    exists (set_thread i (f :: fs) s'). split; [|split; [by eapply set_lookup|]].
    + eapply rtc_r; [done|]. left. unfold thread_step. by rewrite Ht'.
    + cbn. rewrite app_nil_r. done.
Qed.
