(* ===== verification/HeartbeatSafety.v ===== *)
(** * The session's threads under every interleaving

    Invariants of Heartbeat.v: the shape of the code of a frame, who holds the
    mutexes, which notification is still to come, and who joins whom. *)

From S2P Require Export Heartbeat.
From stdpp Require Import options.
#[local] Set Default Proof Using "Type*".

(** ** The shape of code *)

Definition is_stop_lock (x : instr) : bool := match x with IStopLock => true | _ => false end.
Definition is_stop_set (x : instr) : bool := match x with IStopSet => true | _ => false end.
Definition is_notify (x : instr) : bool := match x with INotify => true | _ => false end.
Definition is_take (x : instr) : bool := match x with ITake => true | _ => false end.
Definition is_start (x : instr) : bool := match x with IStartLock | IStartClosing | IStart => true | _ => false end.
Definition is_loop (x : instr) : bool :=
  match x with
  | HOpen | HClosing | HStop | HLock | HCheck _ _ _ | HCheckStop _ _ _ | HEnter _ _ | HWait _ _ | HWake _ _ _ | HElapsed _ _ => true
  | _ => false
  end.
(** Instructions that only appear as others are executed. *)
Definition inner (x : instr) : bool := is_loop x || match x with IStartClosing | IStart => true | _ => false end.
(** Instructions that may raise or go on to a call. *)
Definition leaving (x : instr) : bool :=
  match x with IUnlessClosing _ | IHandshake _ | ISid _ | IConnect _ | ISend _ _ | IStartLock | IStartClosing | IStart => true | _ => false end.

Definition may_raise (x : instr) : bool :=
  match x with IHandshake _ | ISid _ | IConnect _ | IStart => true | _ => false end.

Definition head_is (p : instr -> bool) (c : list instr) : bool := match c with x :: _ => p x | [] => false end.

(** [p] holds of an instruction before the next call. *)
Fixpoint soon (p : instr -> bool) (c : list instr) : bool :=
  match c with
  | [] => false
  | (ICall _ | IUser) :: _ => false
  | x :: c' => p x || soon p c'
  end.

(** What may follow an instruction. *)
Definition after (x : instr) (c : list instr) : bool :=
  negb (existsb inner c) && eqb (head_is is_stop_set c) (is_stop_lock x) &&
  (negb (is_stop_set x) || head_is is_notify c) &&
  (negb (is_start x) || negb (existsb is_start c) && negb (existsb is_take c)) &&
  (negb (leaving x) || negb (soon is_notify c)) &&
  (negb (is_loop x) || bool_decide (c = [])).

Fixpoint code_ok (c : list instr) : bool := match c with [] => true | x :: c' => after x c' && code_ok c' end.

Definition frame_ok (f : frame) : Prop :=
  code_ok (code f) = true /\
  (existsb is_start (code f) = true -> is_message f = true).

(** Below the top of a stack every frame is inside a call. *)
Definition in_call (f : frame) : Prop := head (code f) = Some IUser.

Record stack_ok (st : stack) : Prop := mk_stack_ok {
  so_frames : Forall frame_ok st;
  so_calls : Forall in_call (tail st);
}.

Section with_json.
Context `{JsonLib}.

Lemma exec_code_ok now expired i x s p s1 rest :
  exec now expired i x s = Next p s1 -> code_ok (x :: rest) = true -> code_ok (p ++ rest) = true.
Proof.
  intros E Hok. cbn [code_ok] in Hok. apply andb_true_iff in Hok as [Ha Hok]. unfold after in Ha.
  rewrite !andb_true_iff in Ha. destruct Ha as [[[[[A1 A2] A3] A4] A5] A6].
  destruct x; cbn in *; unfold try_lock_thread, try_lock_heartbeat, guard_free, assigning in E; repeat case_match; simplify_eq/=; try done.
  all: try (apply bool_decide_eq_true in A6; subst rest; done).
  all: unfold after; cbn; rewrite ?A1, ?A2, ?A4, ?A5, ?Hok; done.
Qed.

Lemma exec_starts now expired i x s p s1 rest :
  exec now expired i x s = Next p s1 -> existsb is_start (p ++ rest) = true -> existsb is_start (x :: rest) = true.
Proof.
  intros E. rewrite existsb_app. cbn [existsb].
  destruct x; cbn in *; unfold try_lock_thread, try_lock_heartbeat, guard_free, assigning in E; repeat case_match; simplify_eq/=; done.
Qed.

Lemma method_ok m : frame_ok (method_frame m).
Proof.
  destruct m; try done. unfold method_frame, method_code, message_code, frame_ok.
  destruct is_binary; [done|]. destruct payload; [done|]. repeat (case_decide; [done|]). done.
Qed.

Lemma wake_head x c : x :: c = wake_code (x :: c) \/ exists a b, x = HWait a b /\ wake_code (x :: c) = HWake a b false :: c.
Proof. destruct x; cbn; eauto. Qed.

Lemma wake_ok f : frame_ok f -> frame_ok (wake_frame f).
Proof.
  intros [Hc Hs]. destruct f as [k [|x c]]; [done|]. unfold frame_ok, wake_frame, is_message in *; cbn [code kind] in *.
  destruct (wake_head x c) as [<-|(a & b & -> & ->)]; [done|]. done.
Qed.

Lemma wake_in_call f : in_call f -> in_call (wake_frame f).
Proof. unfold in_call. destruct f as [k [|x c]]; [done|]. cbn. by intros [= ->]. Qed.

(** ** What a step does to the stacks *)

(** How a thread's stack changes by a step of its own or of its environment. *)
Inductive moved : stack -> stack -> Prop :=
  | moved_exec now expired i x rest k fs s p s1 :
      exec now expired i x s = Next p s1 -> moved (mk_frame k (x :: rest) :: fs) (mk_frame k (p ++ rest) :: fs)
  | moved_pop f fs : code f = [] \/ in_call f \/ head_is may_raise (code f) = true -> moved (f :: fs) fs
  | moved_return k rest fs : moved (mk_frame k (IUser :: rest) :: fs) (mk_frame k rest :: fs)
  | moved_call m f fs : in_call f -> moved (f :: fs) (method_frame m :: f :: fs).

Lemma moved_ok st st' : moved st st' -> stack_ok st -> stack_ok st'.
Proof.
  intros [now expired i x rest k fs s p s1 E|f fs _|k rest fs|m f fs Hf] [Hok Hc]; cbn in Hc; apply Forall_cons in Hok as [Hf' Hfs].
  - split; [|done]. constructor; [|done]. destruct Hf' as [Hcode Hst]. split; [by eapply exec_code_ok|].
    intros Hs. apply Hst. by eapply exec_starts.
  - split; [done|]. by destruct fs; [constructor|apply Forall_cons in Hc as [_ Hc]].
  - split; [|done]. constructor; [|done]. destruct Hf' as [Hcode Hst]. cbn in *. apply andb_true_iff in Hcode as [_ ?].
    split; [done|]. intros Hs. by apply Hst.
  - split; [constructor; [apply method_ok|by constructor]|]. by constructor.
Qed.

(** The steps of the system, by what they do to the stack of a thread. *)
Inductive stepped (s : session) : session -> Prop :=
  | by_exec now expired i x rest k fs p s1 :
      threads s !! i = Some (mk_frame k (x :: rest) :: fs) -> exec now expired i x s = Next p s1 ->
      stepped s (set_thread i (mk_frame k (p ++ rest) :: fs) s1)
  | by_raise now expired i x rest k fs e s1 :
      threads s !! i = Some (mk_frame k (x :: rest) :: fs) -> exec now expired i x s = Raise e s1 ->
      stepped s (set_thread i fs {| s1 with raised := raised s1 ++ [e] |})
  | by_pop i f fs : threads s !! i = Some (f :: fs) -> code f = [] \/ in_call f -> stepped s (set_thread i fs s)
  | by_return i k rest fs :
      threads s !! i = Some (mk_frame k (IUser :: rest) :: fs) -> stepped s (set_thread i (mk_frame k rest :: fs) s)
  | by_call i m f fs :
      threads s !! i = Some (f :: fs) -> in_call f -> message_method m && in_message s = false ->
      stepped s (set_thread i (method_frame m :: f :: fs) s)
  | by_spawn : stepped s {| s with threads := threads s ++ [[user_frame]] |}.

Lemma thread_step_stepped now expired i s s' : thread_step now expired i s = Some s' -> stepped s s'.
Proof.
  unfold thread_step. destruct (threads s !! i) as [[|[k c] fs]|] eqn:Ht; try done. cbn [code kind].
  destruct c as [|x rest]; [intros [= <-]; eapply by_pop; [done|by left]|].
  destruct (exec now expired i x s) eqn:E; intros Hs; simplify_eq; [by eapply by_exec|by eapply by_raise].
Qed.

Lemma s_step_stepped s s' : s_step s s' -> stepped s s'.
Proof.
  intros [s1 s2 [now expired i s3 s4 E]|i s1 s2 E|i s1 s2 E|i m s1 s2 E|s1].
  - by eapply thread_step_stepped.
  - unfold user_return in E. repeat case_match; simplify_eq. by eapply by_return.
  - unfold user_throw in E. repeat case_match; simplify_eq. eapply by_pop; [done|by right].
  - unfold user_call in E. destruct (threads s1 !! i) as [[|[k [|[] c]] fs]|] eqn:Ht; try done.
    destruct (message_method m && in_message s1) eqn:Hm; simplify_eq. by eapply by_call.
  - apply by_spawn.
Qed.

(** What [exec] does to the other threads. *)
Definition woken (ths : list stack) : list stack := (fun st : stack => wake_frame <$> st) <$> ths.

Lemma exec_threads now expired i x s p s1 :
  exec now expired i x s = Next p s1 ->
  threads s1 = threads s \/ (x = INotify /\ threads s1 = woken (threads s)) \/
  (x = IStart /\ threads s1 = threads s ++ [[heartbeat_frame]] /\ heartbeat_thread s1 = Some (length (threads s))).
Proof.
  intros E. destruct x; cbn in *; unfold try_lock_thread, try_lock_heartbeat, guard_free, assigning in E;
    repeat case_match; simplify_eq/=; auto 10.
Qed.

(** The handshake leaves the flags alone. *)
Definition same_flags (e e' : engine) : Prop :=
  closing_ e' = closing_ e /\ heartbeat_stop_requested e' = heartbeat_stop_requested e.

Lemma intervals_flags now h e e' x : read_intervals now h e = (e', x) -> same_flags e e'.
Proof. unfold read_intervals. intros E. repeat case_match; by simplify_eq/=. Qed.

Lemma session_id_flags h e e' x : read_session_id h e = (e', x) -> same_flags e e'.
Proof. unfold read_session_id. intros E. repeat case_match; by simplify_eq/=. Qed.

Lemma exec_raises now expired i x s e s1 :
  exec now expired i x s = Raise e s1 ->
  may_raise x = true /\ threads s1 = threads s /\ heartbeat_thread s1 = heartbeat_thread s /\
  thread_mutex s1 = (match x with IStart => None | _ => thread_mutex s end) /\ heartbeat_mutex s1 = heartbeat_mutex s /\
  closing_ (eng s1) = closing_ (eng s) /\
  (x <> IStart -> overwritten s1 = overwritten s /\ heartbeat_stop_requested (eng s1) = heartbeat_stop_requested (eng s)) /\
  (x = IStart -> is_Some (heartbeat_thread s) /\ heartbeat_stop_requested (eng s1) = false).
Proof.
  intros E. destruct x; cbn in *; unfold try_lock_thread, try_lock_heartbeat, guard_free, assigning in E;
    repeat case_match; simplify_eq/=; try done.
  - match goal with H : read_intervals _ _ _ = _ |- _ => apply intervals_flags in H as [??] end. done.
  - match goal with H : read_session_id _ _ = _ |- _ => apply session_id_flags in H as [??] end. done.
Qed.

Lemma insert_Forall {A} (P : A -> Prop) (l : list A) i x : Forall P l -> P x -> Forall P (<[i:=x]> l).
Proof. intros Hl Hx. by apply Forall_insert. Qed.

Lemma stack_ok_wake st : stack_ok st -> stack_ok (wake_frame <$> st).
Proof.
  intros [Hf Hc]. split.
  - apply Forall_fmap. eapply Forall_impl; [exact Hf|]. apply wake_ok.
  - destruct st as [|f fs]; [constructor|]. cbn in *. apply Forall_fmap. eapply Forall_impl; [exact Hc|]. apply wake_in_call.
Qed.

Lemma heartbeat_frame_ok : stack_ok [heartbeat_frame].
Proof. split; [|constructor]. constructor; [done|constructor]. Qed.

Lemma user_frame_ok : stack_ok [user_frame].
Proof. split; [|constructor]. constructor; [done|constructor]. Qed.

Lemma stepped_ok s s' : stepped s s' -> Forall stack_ok (threads s) -> Forall stack_ok (threads s').
Proof.
  intros Hst Hok.
  assert (forall i st st', threads s !! i = Some st -> moved st st' -> stack_ok st') as Hmove.
  { intros i st st' Hi Hm. eapply moved_ok; [done|]. by eapply Forall_lookup_1. }
  destruct Hst as [now expired i x rest k fs p s1 Ht E|now expired i x rest k fs e s1 Ht E|i f fs Ht Hf|i k rest fs Ht|i m f fs Ht Hf _|]; cbn.
  - apply insert_Forall; [|by eapply Hmove; [done|eapply moved_exec]].
    destruct (exec_threads _ _ _ _ _ _ _ E) as [->|[[_ ->]|[_ [-> _]]]]; [done| |].
    + apply Forall_fmap. eapply Forall_impl; [exact Hok|]. apply stack_ok_wake.
    + apply Forall_app; split; [done|]. constructor; [apply heartbeat_frame_ok|constructor].
  - apply exec_raises in E as (Hl & -> & _). apply insert_Forall; [done|]. eapply Hmove; [done|]. constructor. by right; right.
  - apply insert_Forall; [done|]. eapply Hmove; [done|]. constructor. tauto.
  - apply insert_Forall; [done|]. eapply Hmove; [done|constructor].
  - apply insert_Forall; [done|]. eapply Hmove; [done|by constructor].
  - apply Forall_app; split; [done|]. constructor; [apply user_frame_ok|constructor].
Qed.

(** ** The heartbeat thread is not assigned while joinable *)

Definition messages (st : stack) : nat := length (filter (fun f => is_message f = true) st).

Definition total (ths : list stack) : nat := sum_list_with messages ths.

Lemma total_insert ths i st st' :
  ths !! i = Some st -> (total (<[i := st']> ths) + messages st = total ths + messages st')%nat.
Proof.
  unfold total. revert i. induction ths as [|x ths IH]; intros [|i] Hi; simplify_eq/=; [lia|]. specialize (IH i Hi). lia.
Qed.

Lemma messages_cons f fs : messages (f :: fs) = ((if is_message f then 1 else 0) + messages fs)%nat.
Proof. unfold messages. rewrite filter_cons. destruct (is_message f) eqn:E; by case_decide. Qed.

Lemma messages_wake st : messages (wake_frame <$> st) = messages st.
Proof. induction st as [|f st IH]; [done|]. cbn [fmap list_fmap]. by rewrite !messages_cons, IH. Qed.

Lemma total_woken ths : total (woken ths) = total ths.
Proof.
  unfold total, woken. induction ths as [|st ths IH]; [done|]. rewrite fmap_cons. cbn [sum_list_with].
  by rewrite messages_wake, IH.
Qed.

Lemma total_app ths1 ths2 : total (ths1 ++ ths2) = (total ths1 + total ths2)%nat.
Proof. apply sum_list_with_app. Qed.

Lemma messages_elem st f : f ∈ st -> is_message f = true -> (1 <= messages st)%nat.
Proof.
  intros (l1 & l2 & ->)%list_elem_of_split Hf. induction l1 as [|x l1 IH]; cbn [app]; rewrite messages_cons; [rewrite Hf|]; lia.
Qed.

Lemma total_lookup ths i st : ths !! i = Some st -> (messages st <= total ths)%nat.
Proof. intros Hi. pose proof (total_insert ths i st [] Hi) as E. cbn in E. lia. Qed.

Lemma total_zero s : in_message s = false -> total (threads s) = 0%nat.
Proof.
  unfold in_message, total. induction (threads s) as [|st ths IH]; [done|]. cbn. intros [Hst Hths]%orb_false_iff.
  rewrite IH by done. clear IH. induction st as [|f st IH]; [done|]. cbn in Hst. apply orb_false_iff in Hst as [Hf Hst].
  rewrite messages_cons, Hf. specialize (IH Hst). lia.
Qed.

(** Where a message handler is on top, it is the only one. *)
Lemma only_message ths i f fs j st f' :
  (total ths <= 1)%nat -> ths !! i = Some (f :: fs) -> is_message f = true ->
  ths !! j = Some st -> f' ∈ (if decide (j = i) then fs else st) -> is_message f' = false.
Proof.
  intros Ht Hi Hf Hj Hin. destruct (is_message f') eqn:Hf'; [|done]. exfalso.
  pose proof (messages_elem _ _ Hin Hf') as H1. pose proof (total_insert ths i (f :: fs) fs Hi) as E.
  rewrite messages_cons, Hf in E. destruct (decide (j = i)) as [->|Hn].
  - pose proof (total_lookup (<[i := fs]> ths) i fs) as H2. rewrite list_lookup_insert_eq in H2 by (by eapply lookup_lt_Some).
    specialize (H2 eq_refl). lia.
  - pose proof (total_lookup (<[i := fs]> ths) j st) as H2. rewrite list_lookup_insert_ne in H2 by done. specialize (H2 Hj). lia.
Qed.

(** A frame that is going to start the heartbeat, having stopped it. *)
Definition about_to_start (f : frame) : Prop := existsb is_start (code f) = true /\ existsb is_take (code f) = false.

Record start_inv (s : session) : Prop := mk_start_inv {
  si_messages : (total (threads s) <= 1)%nat;
  si_stopped : forall j st f, threads s !! j = Some st -> f ∈ st -> about_to_start f -> heartbeat_thread s = None;
  si_overwritten : overwritten s = false;
}.

Lemma method_not_about m : ~ about_to_start (method_frame m).
Proof.
  intros [Hs Ht]. destruct m; try done. cbn in *. unfold message_code in *. destruct is_binary; [done|].
  destruct payload as [|c rest]; [done|]. repeat (case_decide; [done|]). done.
Qed.

Lemma wake_about f : about_to_start (wake_frame f) -> about_to_start f.
Proof.
  unfold about_to_start. destruct f as [k [|x c]]; [done|]. cbn [code wake_frame].
  destruct (wake_head x c) as [<-|(a & b & -> & ->)]; done.
Qed.

Lemma exec_thread_member now expired i x s p s1 :
  exec now expired i x s = Next p s1 ->
  overwritten s1 = overwritten s /\
  (x = ITake -> heartbeat_thread s1 = None) /\
  (x <> IStart -> heartbeat_thread s1 = heartbeat_thread s \/ heartbeat_thread s1 = None) /\
  (x = IStart -> heartbeat_thread s = None).
Proof.
  intros E. destruct x; cbn in *; unfold try_lock_thread, try_lock_heartbeat, guard_free, assigning in E;
    repeat case_match; simplify_eq/=; split_and!; auto; try done; by intros.
Qed.

(** The frames of the next state: the one that was executed, older ones, and the
    heartbeat's. *)
Lemma exec_frames now expired i x rest k fs s p s1 j st f :
  threads s !! i = Some (mk_frame k (x :: rest) :: fs) -> exec now expired i x s = Next p s1 ->
  <[i := mk_frame k (p ++ rest) :: fs]> (threads s1) !! j = Some st -> f ∈ st ->
  (j = i /\ f = mk_frame k (p ++ rest)) \/ f = heartbeat_frame \/
  (exists st' f', threads s !! j = Some st' /\ f' ∈ (if decide (j = i) then fs else st') /\ (f = f' \/ f = wake_frame f')).
Proof.
  intros Ht E Hj Hf. apply list_lookup_insert_Some in Hj as [(<- & <- & Hlt)|[Hn Hj]].
  - apply elem_of_cons in Hf as [->|Hf]; [by left|]. right; right. eexists _, f. split; [done|].
    rewrite decide_True by done. by split; [|left].
  - destruct (exec_threads _ _ _ _ _ _ _ E) as [Et|[[_ Et]|[_ [Et _]]]]; rewrite Et in Hj.
    + right; right. exists st, f. rewrite decide_False by done. by split_and!; [..|left].
    + apply list_lookup_fmap_Some in Hj as (st' & -> & Hj). apply list_elem_of_fmap in Hf as (f' & -> & Hf).
      right; right. exists st', f'. rewrite decide_False by done. by split_and!; [..|right].
    + apply lookup_app_Some in Hj as [Hj|[_ Hj]].
      * right; right. exists st, f. rewrite decide_False by done. by split_and!; [..|left].
      * apply list_lookup_singleton_Some in Hj as [_ <-]. apply list_elem_of_singleton in Hf as ->. by right; left.
Qed.

Lemma exec_total now expired i x rest k fs s p s1 :
  threads s !! i = Some (mk_frame k (x :: rest) :: fs) -> exec now expired i x s = Next p s1 ->
  total (<[i := mk_frame k (p ++ rest) :: fs]> (threads s1)) = total (threads s).
Proof.
  intros Ht E. set (new := mk_frame k (p ++ rest) :: fs).
  assert (messages new = messages (mk_frame k (x :: rest) :: fs)) as Em by (unfold new; by rewrite !messages_cons).
  destruct (exec_threads _ _ _ _ _ _ _ E) as [Et|[[_ Et]|[_ [Et _]]]]; rewrite Et.
  - pose proof (total_insert _ _ _ new Ht). lia.
  - assert (Hw : woken (threads s) !! i = Some (wake_frame <$> (mk_frame k (x :: rest) :: fs))).
    { unfold woken. by rewrite list_lookup_fmap, Ht. }
    pose proof (total_insert _ _ _ new Hw) as Hi. rewrite total_woken, messages_wake in Hi. lia.
  - pose proof (lookup_app_l_Some _ [[heartbeat_frame]] _ _ Ht) as Ha. pose proof (total_insert _ _ _ new Ha) as Hi.
    rewrite total_app in Hi. change (total [[heartbeat_frame]]) with 0%nat in Hi. lia.
Qed.

Lemma top_ok s i f fs : Forall stack_ok (threads s) -> threads s !! i = Some (f :: fs) -> frame_ok f.
Proof. intros Hok Hi. eapply Forall_lookup_1 in Hok; [|done]. destruct Hok as [Hf _]. by apply Forall_cons in Hf as [? _]. Qed.

Lemma frame_of s j st f : Forall stack_ok (threads s) -> threads s !! j = Some st -> f ∈ st -> frame_ok f.
Proof. intros Hok Hj Hf. eapply Forall_lookup_1 in Hok; [|done]. destruct Hok as [Ho _]. rewrite Forall_forall in Ho. by apply Ho. Qed.

(** After a start nothing in the frame starts, or stops, again. *)
Lemma after_start x rest : is_start x = true -> code_ok (x :: rest) = true -> existsb is_start rest = false /\ existsb is_take rest = false.
Proof.
  intros Hx Hok. cbn [code_ok] in Hok. apply andb_true_iff in Hok as [Ha _]. unfold after in Ha. rewrite !andb_true_iff, Hx in Ha.
  destruct Ha as [[[_ Ha] _] _]. cbn in Ha. apply andb_true_iff in Ha as [H1 H2]. by rewrite !negb_true_iff in *.
Qed.

Lemma start_inv_step s s' : stepped s s' -> Forall stack_ok (threads s) -> start_inv s -> start_inv s'.
Proof.
  intros Hst Hok [Hm Hs Ho].
  destruct Hst as [now expired i x rest k fs p s1 Ht E|now expired i x rest k fs e s1 Ht E|i f fs Ht Hf|i k rest fs Ht|i m f fs Ht Hf Hmsg|].
  - pose proof (exec_total _ _ _ _ _ _ _ _ _ _ Ht E) as Et. pose proof (exec_thread_member _ _ _ _ _ _ _ E) as (Eo & Etake & Eth & Estart).
    pose proof (top_ok _ _ _ _ Hok Ht) as [Hcode Hmessage]; cbn [code] in *.
    split; [by etrans; [apply Nat.eq_le_incl, Et|]| |by cbn; rewrite Eo].
    intros j st f Hj Hf [Hfs Hft]. cbn [set_thread threads heartbeat_thread] in *.
    assert (x = IStart \/ x <> IStart) as [->|Hx] by (destruct x; first [by left|by right]).
    + destruct (after_start IStart rest eq_refl Hcode) as [Hr1 Hr2]. exfalso.
      assert (p = []) as -> by (cbn in E; repeat case_match; by simplify_eq).
      destruct (exec_frames _ _ _ _ _ _ _ _ _ _ _ _ _ Ht E Hj Hf) as [[-> ->]|[->|(st' & f' & Hj' & Hf' & Hw)]].
      * cbn in Hfs. congruence.
      * done.
      * assert (about_to_start f') as [Hs' _] by (destruct Hw as [->| ->]; [done|by apply wake_about]).
        assert (is_message f' = false) as Hno by (eapply only_message; [done|exact Ht|by apply Hmessage|done|done]).
        assert (frame_ok f') as [_ Hok'].
        { destruct (decide (j = i)) as [->|]; [|by eapply frame_of]. eapply frame_of; [done|exact Ht|]. by right. }
        rewrite Hok' in Hno by done. done.
    + assert (forall th, heartbeat_thread s = None -> heartbeat_thread s1 = th -> th = None) as Hnone.
      { intros th E0 <-. destruct (Eth Hx) as [->|?]; done. }
      destruct (exec_frames _ _ _ _ _ _ _ _ _ _ _ _ _ Ht E Hj Hf) as [[-> ->]|[->|(st' & f' & Hj' & Hf' & Hw)]]; [|done|].
      * cbn in Hfs, Hft. destruct (is_take x) eqn:Hxt; [apply Etake; by destruct x|].
        eapply Hnone; [|done]. eapply Hs; [exact Ht|by left|]. split; [by eapply exec_starts|].
        cbn. rewrite Hxt. rewrite existsb_app in Hft. by apply orb_false_iff in Hft as [_ ?].
      * eapply Hnone; [|done]. assert (about_to_start f') by (destruct Hw as [->| ->]; [done|by apply wake_about]).
        destruct (decide (j = i)) as [->|]; [|by eapply Hs]. eapply Hs; [exact Ht|by right|done].
  - apply exec_raises in E as (Hl & Eths & Eth & _ & _ & _ & Eo & Estart).
    pose proof (top_ok _ _ _ _ Hok Ht) as [Hcode Hmessage]; cbn [code] in *.
    assert (x <> IStart) as Hx.
    { intros ->. destruct (after_start IStart rest eq_refl Hcode) as [Hr1 Hr2].
      destruct (Estart eq_refl) as [[h Hh] _]. assert (heartbeat_thread s = None) as E0 by (eapply Hs; [exact Ht|by left|by split]). by rewrite E0 in Hh. }
    destruct (Eo Hx) as [Eo' _]. split; cbn [set_thread threads overwritten heartbeat_thread]; [| |by rewrite Eo'].
    + rewrite Eths. pose proof (total_insert _ _ _ fs Ht) as Hi. rewrite messages_cons in Hi. lia.
    + intros j st f Hj Hf Ha. rewrite Eth. rewrite Eths in Hj. apply list_lookup_insert_Some in Hj as [(<- & <- & _)|[_ Hj]]; [|by eapply Hs].
      eapply Hs; [exact Ht|by right|done].
  - split; cbn [set_thread threads overwritten heartbeat_thread]; [| |done].
    + pose proof (total_insert _ _ _ fs Ht) as Hi. rewrite messages_cons in Hi. lia.
    + intros j st f' Hj Hf' Ha. apply list_lookup_insert_Some in Hj as [(<- & <- & _)|[_ Hj]]; [|by eapply Hs].
      eapply Hs; [exact Ht|by right|done].
  - split; cbn [set_thread threads overwritten heartbeat_thread]; [| |done].
    + pose proof (total_insert _ _ _ (mk_frame k rest :: fs) Ht) as Hi. rewrite !messages_cons in Hi.
      change (is_message (mk_frame k rest)) with (is_message (mk_frame k (IUser :: rest))) in Hi. lia.
    + intros j st f' Hj Hf' Ha. apply list_lookup_insert_Some in Hj as [(<- & <- & _)|[_ Hj]]; [|by eapply Hs].
      apply elem_of_cons in Hf' as [->|Hf']; [|eapply Hs; [exact Ht|by right|done]].
      eapply Hs; [exact Ht|by left|done].
  - split; cbn [set_thread threads overwritten heartbeat_thread]; [| |done].
    + pose proof (total_insert _ _ _ (method_frame m :: f :: fs) Ht) as Hi. rewrite !messages_cons in Hi.
      change (is_message (method_frame m)) with (message_method m) in Hi.
      apply andb_false_iff in Hmsg as [Hmsg|Hmsg]; [rewrite Hmsg in Hi; lia|]. apply total_zero in Hmsg.
      destruct (message_method m); lia.
    + intros j st f' Hj Hf' Ha. apply list_lookup_insert_Some in Hj as [(<- & <- & _)|[_ Hj]]; [|by eapply Hs].
      apply elem_of_cons in Hf' as [->|Hf']; [by destruct (method_not_about m)|]. by eapply Hs.
  - split; cbn [set_thread threads overwritten heartbeat_thread]; [| |done].
    + rewrite total_app. change (total [[user_frame]]) with 0%nat. lia.
    + intros j st f' Hj Hf' Ha. apply lookup_app_Some in Hj as [Hj|[_ Hj]]; [by eapply Hs|].
      apply list_lookup_singleton_Some in Hj as [_ <-]. apply list_elem_of_singleton in Hf' as ->. by destruct Ha.
Qed.

(** The invariants of the reachable states. *)
Lemma reachable_ok s : s_reachable s -> Forall stack_ok (threads s).
Proof.
  intros Hr. revert s Hr. apply (invariant_rtc s_step (fun s => Forall stack_ok (threads s))); [constructor|]. intros s1 s2 Hs. apply stepped_ok. by apply s_step_stepped.
Qed.

Lemma reachable_start s : s_reachable s -> start_inv s.
Proof.
  intros Hr. revert s Hr. apply (invariant_rtc_strong s_step start_inv); [split; [cbn; lia| |done]; intros j st f Hj; cbn in Hj; by rewrite lookup_nil in Hj|].
  intros s1 s2 Hr Hs. apply start_inv_step; [by apply s_step_stepped|by apply reachable_ok].
Qed.

(** [C9] Whatever the interleaving of message handlers, closing, other calls and
    heartbeat threads: as long as messages are delivered one at a time the session
    assigns [heartbeat_thread_] only when no thread is in it - an assignment to a
    joinable thread would end the program. *)
Theorem heartbeat_not_overwritten (s : session) :
  s_reachable s ->
  overwritten s = false /\
  forall i k rest fs, threads s !! i = Some (mk_frame k (IStart :: rest) :: fs) -> heartbeat_thread s = None.
Proof.
  intros Hs. destruct (reachable_start s Hs) as [_ Hst Ho]. split; [done|]. intros i k rest fs Ht.
  destruct (top_ok _ _ _ _ (reachable_ok s Hs) Ht) as [Hcode _]. destruct (after_start IStart rest eq_refl Hcode) as [_ Hr].
  eapply Hst; [exact Ht|by left|by split].
Qed.
End with_json.
