(* ===== verification/HeartbeatJoin.v ===== *)
(** * Stopping and joining the heartbeat thread

    Who holds the mutexes of Heartbeat.v, which notification is still to come, and
    why waiting for a heartbeat thread comes to an end. *)

From S2P Require Export HeartbeatSafety.
From stdpp Require Import options.
#[local] Set Default Proof Using "Type*".

(** ** Program counters *)

Definition pc (st : stack) : option instr := match st with f :: _ => head (code f) | [] => None end.

Definition pcs (s : session) (j : nat) : option instr := threads s !! j ≫= pc.

Definition holds_thread (x : instr) : bool := match x with IStopSet | IStartClosing | IStart => true | _ => false end.
Definition holds_heartbeat (x : instr) : bool :=
  match x with HCheck _ _ _ | HCheckStop _ _ _ | HEnter _ _ | HElapsed _ _ => true | _ => false end.

Definition pc_holds (h : instr -> bool) (o : option instr) : bool := match o with Some x => h x | None => false end.

(** A mutex is held by the thread whose program counter says so. *)
Definition owned (m : option nat) (held : nat -> bool) : Prop := forall j, m = Some j <-> held j = true.

(** Thread [i] takes it, keeps it, releases it, or does not touch it. *)
Definition lock_moves (i : nat) (m m' : option nat) (before after : bool) : Prop :=
  if after then m' = Some i /\ (before = true \/ m = None) else m' = if before then None else m.

Lemma owned_moves i m m' held held' :
  owned m held -> (forall j, j <> i -> held' j = held j) -> lock_moves i m m' (held i) (held' i) -> owned m' held'.
Proof.
  intros Ho Hj Hm. assert (forall j, held j = true -> m = Some j) as Ho' by (intros j; apply Ho).
  unfold lock_moves in Hm. intros j. destruct (decide (j = i)) as [->|Hn].
  - destruct (held' i) eqn:E; [by destruct Hm as [-> _]|]. destruct (held i) eqn:E2; rewrite Hm; [done|].
    split; [|done]. intros E3. apply Ho in E3. congruence.
  - rewrite (Hj j Hn). destruct (held' i) eqn:E.
    + destruct Hm as [-> [Hi|Hi]]; split; intros E3.
      * congruence.
      * apply Ho' in E3, Hi. congruence.
      * congruence.
      * apply Ho' in E3. congruence.
    + destruct (held i) eqn:E2; rewrite Hm; [|apply Ho]. split; [done|]. intros E3. apply Ho' in E3, E2. congruence.
Qed.

Section with_json.
Context `{JsonLib}.

Lemma pcs_top s i k x rest fs : threads s !! i = Some (mk_frame k (x :: rest) :: fs) -> pcs s i = Some x.
Proof. unfold pcs. by intros ->. Qed.

Lemma pcs_set i st s : is_Some (threads s !! i) -> pcs (set_thread i st s) i = pc st.
Proof. intros [st0 Hi]. unfold pcs; cbn. by rewrite list_lookup_insert_eq by (by eapply lookup_lt_Some). Qed.

Lemma pcs_set_ne i j st s : j <> i -> pcs (set_thread i st s) j = pcs s j.
Proof. intros Hn. unfold pcs; cbn. by rewrite list_lookup_insert_ne. Qed.

(** What the other threads see of a step. *)
Definition other (o o' : option instr) : Prop :=
  o' = o \/ (exists a b, o = Some (HWait a b) /\ o' = Some (HWake a b false)) \/ (o = None /\ (o' = Some HOpen \/ o' = Some IUser)).

Lemma wake_pc st : other (pc st) (pc (wake_frame <$> st)) /\ (forall a b, pc (wake_frame <$> st) <> Some (HWait a b)).
Proof.
  destruct st as [|[k [|x c]] fs]; [by split; [left|]..|].
  destruct x; cbn; (split; [first [by left|right; left; by eexists _, _]|done]).
Qed.

Lemma exec_other now expired i x s p s1 j :
  exec now expired i x s = Next p s1 -> other (pcs s j) (pcs s1 j).
Proof.
  intros E. unfold pcs. destruct (exec_threads _ _ _ _ _ _ _ E) as [->|[[_ ->]|[_ [-> _]]]]; [by left| |].
  - unfold woken. rewrite list_lookup_fmap. destruct (threads s !! j) as [st|]; [|by left]. cbn. by destruct (wake_pc st).
  - destruct (decide (j < length (threads s))) as [Hl|Hl]; [rewrite lookup_app_l by done; by left|].
    rewrite lookup_app_r by lia. rewrite (lookup_ge_None_2 (threads s)) by lia.
    destruct (j - length (threads s)) as [|n] eqn:En; [|by left]. cbn. right; right. split; [done|by left].
Qed.

Lemma other_holds h o o' : h HOpen = false -> h IUser = false ->
  (forall a b, h (HWait a b) = false) -> (forall a b, h (HWake a b false) = false) -> other o o' -> pc_holds h o' = pc_holds h o.
Proof. intros H1 H2 H3 H4 [->|[(a & b & -> & ->)|[-> [-> | ->]]]]; cbn; congruence. Qed.

(** The instruction after one that was executed. *)
Lemma rest_head x rest :
  code_ok (x :: rest) = true ->
  (forall y, head rest = Some y -> inner y = false) /\
  (if is_stop_lock x then head rest = Some IStopSet else head rest <> Some IStopSet).
Proof.
  cbn [code_ok]. intros [Ha _]%andb_true_iff. unfold after in Ha. rewrite !andb_true_iff in Ha.
  destruct Ha as [[[[[A1 A2] _] _] _] _]. split.
  - intros y Hy. destruct rest as [|z rest]; [done|]. injection Hy as ->. cbn in A1. by destruct (inner y).
  - destruct rest as [|z rest]; cbn in *; destruct (is_stop_lock x); try done; by destruct z.
Qed.

Lemma head_holds rest : (forall y, head rest = Some y -> inner y = false) -> head rest <> Some IStopSet ->
  pc_holds holds_thread (head rest) = false /\ pc_holds holds_heartbeat (head rest) = false.
Proof. intros Hi Hn. destruct rest as [|y rest]; [done|]. cbn in *. specialize (Hi y eq_refl). by destruct y. Qed.

Lemma free_none m : free m = true -> m = None.
Proof. by destruct m. Qed.

Lemma exec_locks now expired i x s p s1 rest :
  exec now expired i x s = Next p s1 -> code_ok (x :: rest) = true ->
  (holds_thread x = true -> thread_mutex s = Some i) -> (holds_heartbeat x = true -> heartbeat_mutex s = Some i) ->
  lock_moves i (thread_mutex s) (thread_mutex s1) (holds_thread x) (pc_holds holds_thread (head (p ++ rest))) /\
  lock_moves i (heartbeat_mutex s) (heartbeat_mutex s1) (holds_heartbeat x) (pc_holds holds_heartbeat (head (p ++ rest))).
Proof.
  intros E Hok Ht Hh. destruct (rest_head x rest Hok) as [Hi Hs].
  destruct (is_stop_lock x) eqn:Hl.
  { destruct x; try done. cbn in E. unfold try_lock_thread, guard_free in E. destruct (thread_mutex s) eqn:Em; [done|]. cbn in E.
    injection E as <- <-. cbn [app]. rewrite Hs. cbn. auto. }
  destruct (head_holds rest Hi Hs) as [H1 H2].
  destruct x; try done; cbn in *; unfold try_lock_thread, try_lock_heartbeat, guard_free, assigning in E;
    repeat case_match; simplify_eq/=; unfold lock_moves; rewrite ?H1, ?H2; cbn;
    repeat match goal with H : free _ = true |- _ => apply free_none in H end; auto.
Qed.

(** Steps that are not the execution of an instruction end before a call or at the
    start of a method. *)
Lemma popped_pc f fs : stack_ok (f :: fs) -> pc fs = None \/ pc fs = Some IUser.
Proof. intros [_ Hc]. destruct fs as [|f' fs]; [by left|]. cbn in *. apply Forall_cons in Hc as [Hc _]. by right. Qed.

Lemma method_head m : head (method_code m) <> Some IStopSet /\ forall y, head (method_code m) = Some y -> inner y = false.
Proof.
  destruct m; cbn; try by split; [|intros y [= <-]]. unfold message_code. destruct is_binary; [by split; [|intros y [= <-]]|].
  destruct payload as [|c rest]; [done|]. repeat (case_decide; [by split; [|intros y [= <-]]|]). done.
Qed.

Lemma stack_of s i st : Forall stack_ok (threads s) -> threads s !! i = Some st -> stack_ok st.
Proof. intros Hok Hi. by eapply Forall_lookup_1 in Hok. Qed.

Record locks_inv (s : session) : Prop := mk_locks_inv {
  li_thread : owned (thread_mutex s) (fun j => pc_holds holds_thread (pcs s j));
  li_heartbeat : owned (heartbeat_mutex s) (fun j => pc_holds holds_heartbeat (pcs s j));
}.

(** A step that changes no mutex, of a thread that holds none before and after. *)
Lemma locks_silent i s s' :
  (forall j, j <> i -> other (pcs s j) (pcs s' j)) ->
  (forall h, h = holds_thread \/ h = holds_heartbeat -> pc_holds h (pcs s i) = false /\ pc_holds h (pcs s' i) = false) ->
  thread_mutex s' = thread_mutex s -> heartbeat_mutex s' = heartbeat_mutex s -> locks_inv s -> locks_inv s'.
Proof.
  intros Hj Hi E1 E2 [H1 H2]. split.
  - eapply (owned_moves i); [exact H1| |].
    + intros j Hn. cbn. by apply other_holds; auto.
    + destruct (Hi holds_thread) as [Ha Hb]; [by left|]. cbn. rewrite Ha, Hb. exact E1.
  - eapply (owned_moves i); [exact H2| |].
    + intros j Hn. cbn. by apply other_holds; auto.
    + destruct (Hi holds_heartbeat) as [Ha Hb]; [by right|]. cbn. rewrite Ha, Hb. exact E2.
Qed.

Lemma pcs_spawn s j : other (pcs s j) (pcs {| s with threads := threads s ++ [[user_frame]] |} j).
Proof.
  unfold pcs; cbn. destruct (decide (j < length (threads s))) as [Hl|Hl]; [rewrite lookup_app_l by done; by left|].
  rewrite lookup_app_r by lia. rewrite (lookup_ge_None_2 (threads s)) by lia.
  destruct (j - length (threads s)) as [|n]; [|by left]. right; right. split; [done|by right].
Qed.

Lemma unheld o : o = None \/ o = Some IUser -> forall h, h = holds_thread \/ h = holds_heartbeat -> pc_holds h o = false.
Proof. by intros [->| ->] h [->| ->]. Qed.

Lemma stepped_locks s s' : stepped s s' -> Forall stack_ok (threads s) -> locks_inv s -> locks_inv s'.
Proof.
  intros Hst Hok Hl.
  destruct Hst as [now expired i x rest k fs p s1 Ht E|now expired i x rest k fs e s1 Ht E|i f fs Ht Hf|i k rest fs Ht|i m f fs Ht Hf Hmsg|].
  - destruct (top_ok _ _ _ _ Hok Ht) as [Hcode _]; cbn [code] in Hcode. pose proof (pcs_top _ _ _ _ _ _ Ht) as Hp. destruct Hl as [H1 H2].
    assert (is_Some (threads s1 !! i)) as Hi1.
    { destruct (exec_threads _ _ _ _ _ _ _ E) as [->|[[_ ->]|[_ [-> _]]]]; [by eexists| |].
      - unfold woken. rewrite list_lookup_fmap, Ht. by eexists.
      - eexists. by apply lookup_app_l_Some. }
    destruct (exec_locks _ _ _ _ _ _ _ _ E Hcode) as [L1 L2].
    { intros Hh. apply H1. by rewrite Hp. }
    { intros Hh. apply H2. by rewrite Hp. }
    split.
    + eapply (owned_moves i); [exact H1| |].
      * intros j Hn. cbn. rewrite pcs_set_ne by done. apply other_holds; auto. by eapply exec_other.
      * cbn. rewrite pcs_set by done. by rewrite Hp.
    + eapply (owned_moves i); [exact H2| |].
      * intros j Hn. cbn. rewrite pcs_set_ne by done. apply other_holds; auto. by eapply exec_other.
      * cbn. rewrite pcs_set by done. by rewrite Hp.
  - pose proof (pcs_top _ _ _ _ _ _ Ht) as Hp. apply exec_raises in E as (Hlv & Eths & _ & Etm & Ehm & _).
    set (s2 := {| s1 with raised := raised s1 ++ [e] |}).
    assert (is_Some (threads s2 !! i)) as Hi2 by (cbn; rewrite Eths; by eexists).
    assert (forall j, pcs s2 j = pcs s j) as E2 by (intros j; unfold pcs; cbn; by rewrite Eths).
    pose proof (unheld _ (popped_pc _ _ (stack_of _ _ _ Hok Ht))) as Hu. destruct Hl as [H1 H2]. split.
    + eapply (owned_moves i); [exact H1| |]; cbn.
      * intros j Hn. by rewrite pcs_set_ne, E2 by done.
      * rewrite pcs_set, Hp, Etm by done. rewrite (Hu holds_thread) by auto. by destruct x.
    + eapply (owned_moves i); [exact H2| |]; cbn.
      * intros j Hn. by rewrite pcs_set_ne, E2 by done.
      * rewrite pcs_set, Hp, Ehm by done. rewrite (Hu holds_heartbeat) by auto. by destruct x.
  - apply (locks_silent i s); [| |reflexivity|reflexivity|exact Hl].
    + intros j Hn. rewrite pcs_set_ne by done. by left.
    + intros h Hh. rewrite pcs_set by by eexists. split; [|by apply unheld; [eapply popped_pc, stack_of; done|done]].
      apply unheld; [|done]. unfold pcs. rewrite Ht. cbn. destruct Hf as [-> | ->]; auto.
  - apply (locks_silent i s); [| |reflexivity|reflexivity|exact Hl].
    + intros j Hn. rewrite pcs_set_ne by done. by left.
    + destruct (top_ok _ _ _ _ Hok Ht) as [Hcode _]; cbn [code] in Hcode. destruct (rest_head _ _ Hcode) as [Hi Hs].
      destruct (head_holds rest Hi Hs). intros h Hh. rewrite pcs_set, (pcs_top _ _ _ _ _ _ Ht) by by eexists. by destruct Hh as [->| ->].
  - apply (locks_silent i s); [| |reflexivity|reflexivity|exact Hl].
    + intros j Hn. rewrite pcs_set_ne by done. by left.
    + destruct (method_head m) as [Hs Hi]. destruct (head_holds _ Hi Hs). intros h Hh. rewrite pcs_set by by eexists.
      split; [apply unheld; [|done]; unfold pcs; rewrite Ht; by right|]. by destruct Hh as [->| ->].
  - apply (locks_silent (length (threads s)) s); [| |reflexivity|reflexivity|exact Hl].
    + intros j Hn. apply pcs_spawn.
    + intros h Hh. split; (apply unheld; [|done]).
      * left. unfold pcs. by rewrite lookup_ge_None_2.
      * right. unfold pcs; cbn. by rewrite lookup_app_r, Nat.sub_diag by lia.
Qed.

(** ** The notification that is still to come *)

Definition soon_top (p : instr -> bool) (st : stack) : bool := match st with f :: _ => soon p (code f) | [] => false end.

(** Some thread is going to execute such an instruction before it calls anything. *)
Definition pending (p : instr -> bool) (s : session) : Prop :=
  exists j st, threads s !! j = Some st /\ soon_top p st = true.

Definition stops (p : instr -> bool) : Prop := p = is_stop_set \/ p = is_notify.

Lemma set_then_notify c : code_ok c = true -> soon is_stop_set c = true -> soon is_notify c = true.
Proof.
  induction c as [|x c IH]; [done|]. intros Hok. pose proof Hok as Hok'. cbn [code_ok] in Hok'. apply andb_true_iff in Hok' as [Ha Hc].
  destruct (is_stop_set x) eqn:Hx.
  - intros _. unfold after in Ha. rewrite !andb_true_iff, Hx in Ha. destruct Ha as [[[[_ Ha] _] _] _].
    destruct x; try done. cbn in *. destruct c as [|y c]; [done|]. by destruct y.
  - intros Hs. specialize (IH Hc). destruct x; cbn in *; try done; auto.
Qed.

Lemma leaving_last p x rest : stops p -> code_ok (x :: rest) = true -> leaving x = true -> soon p rest = false.
Proof.
  intros Hp Hok Hl. cbn [code_ok] in Hok. apply andb_true_iff in Hok as [Ha Hc]. unfold after in Ha.
  rewrite !andb_true_iff, Hl in Ha. destruct Ha as [[_ Ha] _]. cbn in Ha. apply negb_true_iff in Ha.
  destruct Hp as [->| ->]; [|done]. destruct (soon is_stop_set rest) eqn:E; [|done]. apply set_then_notify in E; congruence.
Qed.

Lemma raise_soon p x rest : stops p -> code_ok (x :: rest) = true -> may_raise x = true -> soon p (x :: rest) = false.
Proof.
  intros Hp Hok Hx. assert (soon p rest = false) as E by (eapply leaving_last; [done..|by destruct x]).
  destruct Hp as [->| ->]; by destruct x.
Qed.

Lemma loop_last p x rest : code_ok (x :: rest) = true -> is_loop x = true -> soon p rest = false.
Proof.
  intros Hok Hl. cbn [code_ok] in Hok. apply andb_true_iff in Hok as [Ha Hc]. unfold after in Ha.
  rewrite !andb_true_iff, Hl in Ha. destruct Ha as [_ Ha]. cbn in Ha. apply bool_decide_eq_true in Ha as ->. done.
Qed.

Lemma exec_soon now expired i x s q s1 rest p :
  stops p -> exec now expired i x s = Next q s1 -> code_ok (x :: rest) = true -> p x = false ->
  soon p (x :: rest) = true -> soon p (q ++ rest) = true.
Proof.
  intros Hp E Hok Hx Hs.
  assert (soon p rest = true) as Hr by (destruct x; cbn in Hs; try done; by rewrite Hx in Hs).
  destruct (leaving x) eqn:Hl; [by rewrite (leaving_last p x rest) in Hr|].
  destruct (is_loop x) eqn:Hlo; [by rewrite (loop_last p x rest) in Hr|].
  destruct x; try done; cbn in *; unfold try_lock_thread, try_lock_heartbeat, guard_free, assigning in E;
    repeat case_match; simplify_eq/=; try done; rewrite ?Hr, ?orb_true_r; try done.
  all: destruct Hp as [->| ->]; done.
Qed.

Lemma soon_wake p st : stops p -> soon_top p (wake_frame <$> st) = soon_top p st.
Proof. intros Hp. destruct st as [|[k [|x c]] fs]; [done..|]. destruct Hp as [->| ->]; by destruct x. Qed.

Lemma pending_exec now expired i x rest k fs s q s1 p :
  stops p -> Forall stack_ok (threads s) -> threads s !! i = Some (mk_frame k (x :: rest) :: fs) ->
  exec now expired i x s = Next q s1 -> p x = false ->
  pending p s -> pending p (set_thread i (mk_frame k (q ++ rest) :: fs) s1).
Proof.
  intros Hp Hok Ht E Hx (j & st & Hj & Hs). destruct (top_ok _ _ _ _ Hok Ht) as [Hcode _]; cbn [code] in Hcode.
  destruct (decide (j = i)) as [->|Hn].
  - assert (st = mk_frame k (x :: rest) :: fs) as -> by congruence. exists i, (mk_frame k (q ++ rest) :: fs). split; [|by eapply (exec_soon now expired i x s q s1 rest p)].
    cbn. apply list_lookup_insert_eq.
    destruct (exec_threads _ _ _ _ _ _ _ E) as [->|[[_ ->]|[_ [-> _]]]]; apply lookup_lt_Some in Ht;
      unfold woken; rewrite ?length_fmap, ?length_app; lia.
  - destruct (exec_threads _ _ _ _ _ _ _ E) as [Et|[[_ Et]|[_ [Et _]]]].
    + exists j, st. cbn. by rewrite list_lookup_insert_ne, Et.
    + exists j, (wake_frame <$> st). cbn. rewrite list_lookup_insert_ne, Et by done. unfold woken.
      by rewrite list_lookup_fmap, Hj, soon_wake.
    + exists j, st. cbn. rewrite list_lookup_insert_ne, Et by done. split; [|done]. by apply lookup_app_l_Some.
Qed.

(** A step of thread [i] that is not about to execute such an instruction. *)
Lemma pending_silent i st st' s p :
  threads s !! i = Some st -> soon_top p st = false -> pending p s -> pending p (set_thread i st' s).
Proof.
  intros Hi Hs (j & stj & Hj & Hsj). exists j, stj. split; [|done]. cbn. rewrite list_lookup_insert_ne; [done|].
  intros <-. congruence.
Qed.

(** ** No request to stop is lost *)

Record wake_inv (s : session) : Prop := mk_wake_inv {
  wi_enter : forall j a b, pcs s j = Some (HEnter a b) -> heartbeat_stop_requested (eng s) = false;
  wi_closing : forall j a b, pcs s j = Some (HEnter a b) \/ (exists e, pcs s j = Some (HCheckStop a b e)) ->
    closing_ (eng s) = true -> pending is_stop_set s;
  wi_wait : forall j a b, pcs s j = Some (HWait a b) ->
    heartbeat_stop_requested (eng s) = true \/ closing_ (eng s) = true -> pending is_notify s;
}.

Lemma exec_head now expired i x s p s1 rest y :
  exec now expired i x s = Next p s1 -> code_ok (x :: rest) = true -> head (p ++ rest) = Some y ->
  (forall a b, y = HEnter a b -> x = HCheckStop a b false /\ heartbeat_stop_requested (eng s) = false /\ s1 = s) /\
  (forall a b e, y = HCheckStop a b e -> x = HCheck a b e /\ closing_ (eng s) = false /\ s1 = s) /\
  (forall a b, y = HWait a b -> x = HEnter a b /\ eng s1 = eng s).
Proof.
  intros E Hok Hy. destruct (rest_head x rest Hok) as [Hi _].
  assert (forall z, is_loop z = true -> head rest <> Some z) as Hr.
  { intros z Hz Hh. apply Hi in Hh. unfold inner in Hh. by rewrite Hz in Hh. }
  destruct x; cbn in *; unfold try_lock_thread, try_lock_heartbeat, guard_free, assigning in E;
    repeat case_match; simplify_eq/=; try (split_and!; intros; simplify_eq; done).
  all: split_and!; intros; subst; exfalso; by eapply Hr; [|done].
Qed.

Lemma exec_flags now expired i x s p s1 :
  exec now expired i x s = Next p s1 ->
  (closing_ (eng s1) = closing_ (eng s) \/ (x = IExchange /\ p = close_body)) /\
  (heartbeat_stop_requested (eng s1) = heartbeat_stop_requested (eng s) \/
   (x = IStopSet /\ heartbeat_mutex s = None) \/ (x = IStart /\ heartbeat_stop_requested (eng s1) = false)).
Proof.
  intros E. destruct x; cbn in *; unfold try_lock_thread, try_lock_heartbeat, guard_free, assigning in E;
    repeat case_match; simplify_eq/=; try (by auto 10).
  - split; [by left|]. right; left. split; [done|]. by apply free_none.
  - match goal with H : read_intervals _ _ _ = _ |- _ => apply intervals_flags in H as [??] end. auto.
  - match goal with H : read_session_id _ _ = _ |- _ => apply session_id_flags in H as [??] end. auto.
Qed.

Lemma pcs_exec now expired i x rest k fs s p s1 :
  threads s !! i = Some (mk_frame k (x :: rest) :: fs) -> exec now expired i x s = Next p s1 ->
  pcs (set_thread i (mk_frame k (p ++ rest) :: fs) s1) i = head (p ++ rest).
Proof.
  intros Ht E. rewrite pcs_set; [done|].
  destruct (exec_threads _ _ _ _ _ _ _ E) as [->|[[_ ->]|[_ [-> _]]]]; [by eexists| |].
  - unfold woken. rewrite list_lookup_fmap, Ht. by eexists.
  - eexists. by apply lookup_app_l_Some.
Qed.

Lemma other_loop o o' y : other o o' -> o' = Some y -> is_loop y = true -> y <> HOpen -> (forall a b e, y <> HWake a b e) -> o = Some y.
Proof. intros [->|[(a & b & -> & ->)|[-> [-> | ->]]]] ?; by intros; simplify_eq; naive_solver. Qed.

(** After a notification nothing waits. *)
Lemma notified_pc now expired i s p s1 j a b :
  exec now expired i INotify s = Next p s1 -> pcs s1 j <> Some (HWait a b).
Proof.
  cbn. intros [= <- <-]. unfold pcs, notify_all; cbn. rewrite list_lookup_fmap.
  destruct (threads s !! j) as [st|]; [|done]. cbn. by destruct (wake_pc st) as [_ Hw].
Qed.

Lemma wake_exec now expired i x rest k fs s p s1 :
  threads s !! i = Some (mk_frame k (x :: rest) :: fs) -> exec now expired i x s = Next p s1 ->
  Forall stack_ok (threads s) -> locks_inv s -> wake_inv s -> wake_inv (set_thread i (mk_frame k (p ++ rest) :: fs) s1).
Proof.
  intros Ht E Hok [_ Hlh] [We Wc Ww]. set (s' := set_thread i _ s1).
  destruct (top_ok _ _ _ _ Hok Ht) as [Hcode _]; cbn [code] in Hcode.
  destruct (exec_flags _ _ _ _ _ _ _ E) as [Fc Fs]. pose proof (pcs_exec _ _ _ _ _ _ _ _ _ _ Ht E) as Hpi. fold s' in Hpi.
  assert (forall j, j <> i -> other (pcs s j) (pcs s' j)) as Hoth.
  { intros j Hn. unfold s'. rewrite pcs_set_ne by done. by eapply exec_other. }
  assert (x = IExchange -> p = close_body -> pending is_stop_set s' /\ pending is_notify s') as Hclose.
  { intros -> ->. split; exists i, (mk_frame k (close_body ++ rest) :: fs); (split; [|done]); cbn; apply list_lookup_insert_eq;
      cbn in E; destruct (closing_ (eng s)); simplify_eq/=; by eapply lookup_lt_Some. }
  assert (forall q, stops q -> q x = false -> pending q s -> pending q s') as Hpend by (intros; by eapply pending_exec).
  assert (x = IStopSet -> pending is_notify s') as Hset.
  { intros ->. exists i, (mk_frame k (p ++ rest) :: fs). cbn in E. unfold guard_free in E. destruct (free _); [|done]. simplify_eq/=.
    rewrite list_lookup_insert_eq by (by eapply lookup_lt_Some). split; [done|]. cbn [soon_top code app].
    change (after IStopSet rest && code_ok rest = true) in Hcode. unfold after in Hcode. rewrite !andb_true_iff in Hcode.
    destruct Hcode as [[[[[_ Hn] _] _] _] _]. destruct rest as [|y rest]; [done|]. by destruct y. }
  assert (forall y, is_loop y = true -> y <> HOpen -> (forall a b e, y <> HWake a b e) -> forall j, pcs s' j = Some y -> j <> i -> pcs s j = Some y) as Hold.
  { intros y H1 H2 H3 j Hj Hn. eapply other_loop; [by apply Hoth|done..]. }
  split.
  - intros j a b Hj. cbn. destruct (decide (j = i)) as [->|Hn].
    + rewrite Hpi in Hj. destruct (exec_head _ _ _ _ _ _ _ _ _ E Hcode Hj) as (H1 & _ & _). destruct (H1 a b eq_refl) as (-> & Hst & ->). done.
    + apply Hold in Hj; [|done..]. destruct Fs as [-> |[[-> Hm]|[_ ->]]]; [by eapply We| |done].
      assert (heartbeat_mutex s = Some j) as Ho by (apply Hlh; by rewrite Hj). congruence.
  - intros j a b Hj Hc. cbn in Hc. destruct Fc as [Fc|[-> ->]]; [|by apply Hclose]. rewrite Fc in Hc.
    assert (exists j' a' b', (pcs s j' = Some (HEnter a' b') \/ (exists e, pcs s j' = Some (HCheckStop a' b' e))) /\ (j' = i -> x <> IStopSet)) as (j' & a' & b' & Hj' & Hx).
    { destruct (decide (j = i)) as [->|Hn].
      - exists i, a, b. rewrite Hpi in Hj. destruct Hj as [Hj|[e Hj]]; destruct (exec_head _ _ _ _ _ _ _ _ _ E Hcode Hj) as (H1 & H2 & _).
        + destruct (H1 a b eq_refl) as (-> & _ & _). split; [|done]. right. exists false. by eapply pcs_top.
        + destruct (H2 a b e eq_refl) as (_ & Hcl & _). congruence.
      - exists j, a, b. split; [|congruence]. destruct Hj as [Hj|[e Hj]]; apply Hold in Hj; try done; [by left|right; by eexists]. }
    assert (heartbeat_mutex s = Some j') as Ho.
    { apply Hlh. by destruct Hj' as [->|[e ->]]. }
    apply Hpend; [by left| |by eapply Wc]. destruct x; try done. cbn in E. unfold guard_free in E. by rewrite Ho in E.
  - intros j a b Hj Hf. cbn in Hf.
    destruct Fc as [Fc|[-> ->]]; [|by apply Hclose].
    assert (x = INotify \/ is_notify x = false) as [->|Hx] by (destruct x; first [by left|by right]).
    { exfalso. revert Hj. destruct (decide (j = i)) as [->|Hn].
      - rewrite Hpi. intros Hj. destruct (exec_head _ _ _ _ _ _ _ _ _ E Hcode Hj) as (_ & _ & H3). by destruct (H3 a b eq_refl).
      - unfold s'. rewrite pcs_set_ne by done. by eapply notified_pc. }
    destruct Fs as [Fs|[[-> _]|[-> Fs]]]; [|by apply Hset|].
    + rewrite Fc, Fs in Hf. destruct (decide (j = i)) as [->|Hn].
      * rewrite Hpi in Hj. destruct (exec_head _ _ _ _ _ _ _ _ _ E Hcode Hj) as (_ & _ & H3). destruct (H3 a b eq_refl) as [-> _].
        pose proof (pcs_top _ _ _ _ _ _ Ht) as Hp. pose proof (We i a b Hp) as Hs0. destruct Hf as [?|Hc]; [congruence|].
        destruct (Wc i a b (or_introl Hp) Hc) as (j' & st' & Hj' & Hs'). apply Hpend; [by right|done|].
        exists j', st'. split; [done|]. destruct st' as [|f' fs']; [done|]. cbn in *. apply set_then_notify; [|done].
        by destruct (top_ok _ _ _ _ Hok Hj').
      * apply Hold in Hj; [|done..]. apply Hpend; [by right|done|]. by eapply Ww.
    + rewrite Fs, Fc in Hf. destruct Hf as [?|Hc]; [done|]. apply Hpend; [by right|done|]. destruct (decide (j = i)) as [->|Hn].
      * rewrite Hpi in Hj. destruct (exec_head _ _ _ _ _ _ _ _ _ E Hcode Hj) as (_ & _ & H3). by destruct (H3 a b eq_refl).
      * apply Hold in Hj; [|done..]. eapply Ww; [done|by right].
Qed.

Definition waits (y : instr) : bool := match y with HEnter _ _ | HCheckStop _ _ _ | HWait _ _ => true | _ => false end.

(** A step of thread [i] that executes no instruction and leaves the flags alone. *)
Lemma wake_silent s s' :
  (forall j y, pcs s' j = Some y -> waits y = true -> pcs s j = Some y) ->
  same_flags (eng s) (eng s') \/ (closing_ (eng s') = closing_ (eng s) /\ heartbeat_stop_requested (eng s') = false) ->
  (forall p, stops p -> pending p s -> pending p s') -> wake_inv s -> wake_inv s'.
Proof.
  intros Hpc Hflags Hpend [We Wc Ww]. split.
  - intros j a b Hj. apply Hpc in Hj; [|done]. destruct Hflags as [[_ ->]|[_ ->]]; [by eapply We|done].
  - intros j a b Hj Hc. apply Hpend; [by left|]. destruct Hflags as [[Hc' _]|[Hc' _]]; rewrite Hc' in Hc;
      (eapply Wc; [|done]; destruct Hj as [Hj|[e Hj]]; apply Hpc in Hj; try done; [by left|right; by eexists]).
  - intros j a b Hj Hf. apply Hpend; [by right|]. apply Hpc in Hj; [|done]. eapply Ww; [done|].
    destruct Hflags as [[-> ->]|[E1 E2]] in Hf; [done|]. rewrite E1, E2 in Hf. destruct Hf as [?|?]; [done|by right].
Qed.

Lemma quiet_top p f : code f = [] \/ in_call f -> soon_top p [f] = false.
Proof. destruct f as [k [|x c]]; [done|]. by intros [?|[= ->]]. Qed.

Lemma pcs_moved i st st' s y j :
  threads s !! i = Some st -> waits y = true -> pc st' <> Some y -> pcs (set_thread i st' s) j = Some y -> pcs s j = Some y.
Proof.
  intros Hi Hy Hst Hj. destruct (decide (j = i)) as [->|Hn]; [|by rewrite pcs_set_ne in Hj].
  rewrite pcs_set in Hj by by eexists. congruence.
Qed.

Lemma stepped_wake s s' : stepped s s' -> Forall stack_ok (threads s) -> locks_inv s -> wake_inv s -> wake_inv s'.
Proof.
  intros Hst Hok Hl Hw.
  destruct Hst as [now expired i x rest k fs p s1 Ht E|now expired i x rest k fs e s1 Ht E|i f fs Ht Hf|i k rest fs Ht|i m f fs Ht Hf Hmsg|].
  - by eapply wake_exec.
  - apply exec_raises in E as (Hlv & Eths & _ & _ & _ & Ec & Eo & Est).
    destruct (top_ok _ _ _ _ Hok Ht) as [Hcode _]; cbn [code] in Hcode.
    set (s2 := {| s1 with raised := raised s1 ++ [e] |}). assert (threads s2 = threads s) as E2 by done.
    apply (wake_silent s); [| | |done].
    + intros j y Hj Hy. assert (pcs s2 j = Some y) as Hj2; [|by unfold pcs in *; rewrite E2 in Hj2].
      eapply (pcs_moved i _ fs); [by rewrite E2|done| |done].
      destruct (popped_pc _ _ (stack_of _ _ _ Hok Ht)) as [-> | ->]; [done|]. intros [= <-]. done.
    + assert (x = IStart \/ x <> IStart) as [->|Hx] by (destruct x; first [by left|by right]).
      * right. split; [done|]. by apply Est.
      * left. by destruct (Eo Hx).
    + intros p Hp Hpe. eapply (pending_silent i _ fs s2); [by rewrite E2| |].
      * cbn [soon_top code]. by apply raise_soon.
      * destruct Hpe as (j & st & Hj & Hs). exists j, st. by rewrite E2.
  - apply (wake_silent s); [|by left| |done].
    + intros j y Hj Hy. eapply pcs_moved; [exact Ht|done| |exact Hj].
      destruct (popped_pc _ _ (stack_of _ _ _ Hok Ht)) as [-> | ->]; [done|]. by intros [= <-].
    + intros p Hp Hpe. eapply pending_silent; [exact Ht| |done]. by eapply quiet_top in Hf.
  - apply (wake_silent s); [|by left| |done].
    + intros j y Hj Hy. eapply pcs_moved; [exact Ht|done| |exact Hj].
      destruct (top_ok _ _ _ _ Hok Ht) as [Hcode _]. destruct (rest_head _ _ Hcode) as [Hi _].
      cbn. intros E. apply Hi in E. by destruct y.
    + intros p Hp Hpe. by eapply pending_silent; [exact Ht| |].
  - apply (wake_silent s); [|by left| |done].
    + intros j y Hj Hy. eapply pcs_moved; [exact Ht|done| |exact Hj].
      destruct (method_head m) as [_ Hi]. cbn. intros E. apply Hi in E. by destruct y.
    + intros p Hp Hpe. eapply pending_silent; [exact Ht| |done]. eapply quiet_top. by right.
  - apply (wake_silent s); [|by left| |done].
    + intros j y Hj Hy. destruct (pcs_spawn s j) as [E|[(a & b & _ & E)|[_ [E|E]]]]; rewrite E in Hj; [done|..]; by simplify_eq.
    + intros p Hp (j & st & Hj & Hs). exists j, st. split; [|done]. by apply lookup_app_l_Some.
Qed.

Lemma locks_start : locks_inv new_session.
Proof. split; intros j; by split. Qed.

Lemma wake_start : wake_inv new_session.
Proof. split; intros j a b Hj; [done|destruct Hj as [?|[e ?]]; done|done]. Qed.

Lemma reachable_locks s : s_reachable s -> locks_inv s.
Proof.
  intros Hr. revert s Hr. apply (invariant_rtc_strong s_step locks_inv); [apply locks_start|].
  intros s1 s2 Hr Hs. apply stepped_locks; [by apply s_step_stepped|by apply reachable_ok].
Qed.

Lemma reachable_wake s : s_reachable s -> wake_inv s.
Proof.
  intros Hr. revert s Hr. apply (invariant_rtc_strong s_step wake_inv); [apply wake_start|].
  intros s1 s2 Hr Hs. apply stepped_wake; [by apply s_step_stepped|by apply reachable_ok|by apply reachable_locks].
Qed.

(** [C10] No request to stop is lost: whenever a heartbeat thread waits although it was
    asked to stop, or the session is closing, some thread is about to notify it,
    before it calls anything.  When no such thread is left, no heartbeat waits. *)
Theorem heartbeat_stop_not_lost (s : session) (i : nat) (interval timeout : Z) :
  s_reachable s -> pcs s i = Some (HWait interval timeout) ->
  heartbeat_stop_requested (eng s) = true \/ closing_ (eng s) = true ->
  exists j st, threads s !! j = Some st /\ soon_top is_notify st = true.
Proof. intros Hs Hi Hf. by eapply (wi_wait _ (reachable_wake s Hs)). Qed.

(** ** Who joins whom *)

(** The thread a stack belongs to: a heartbeat thread, if it has not ended. *)
Definition bottom (st : stack) : option frame_kind := kind <$> last st.
Definition heart (st : stack) : Prop := bottom st = None \/ bottom st = Some FHeartbeat.

Lemma bottom_top f f' fs : kind f = kind f' -> bottom (f :: fs) = bottom (f' :: fs).
Proof. unfold bottom. intros Hk. destruct fs as [|f2 fs]; [cbn; by f_equal|by rewrite !last_cons_cons]. Qed.

Lemma bottom_push f f' fs : bottom (f :: f' :: fs) = bottom (f' :: fs).
Proof. unfold bottom. by rewrite last_cons_cons. Qed.

Lemma bottom_wake st : bottom (wake_frame <$> st) = bottom st.
Proof. unfold bottom. rewrite fmap_last. by destruct (last st). Qed.

(** What becomes of a stack in a step. *)
Definition kept (st st' : stack) : Prop := st' = [] \/ bottom st' = bottom st.

Lemma kept_heart st st' : kept st st' -> heart st -> heart st'.
Proof. unfold heart. intros [->| ->]; [by left|done]. Qed.

Lemma kept_back st st' : kept st st' -> st' <> [] -> heart st' -> heart st.
Proof. unfold heart. by intros [->| ->]. Qed.

Lemma kept_pop f fs : kept (f :: fs) fs.
Proof. destruct fs as [|f' fs]; [by left|right; by rewrite bottom_push]. Qed.

Lemma lookup_set (i : nat) (st st' : stack) (ths : list stack) (j : nat) (stj : stack) :
  ths !! i = Some st -> kept st st' -> ths !! j = Some stj ->
  exists st2, <[i := st']> ths !! j = Some st2 /\ kept stj st2.
Proof.
  intros Hi Hk Hj. destruct (decide (j = i)) as [->|Hn].
  - rewrite list_lookup_insert_eq by by eapply lookup_lt_Some. simplify_eq. by eexists.
  - rewrite list_lookup_insert_ne by done. exists stj. split; [done|by right].
Qed.

Lemma set_lookup_back (i : nat) (st st' : stack) (ths : list stack) (j : nat) (st2 : stack) :
  ths !! i = Some st -> kept st st' -> <[i := st']> ths !! j = Some st2 ->
  exists stj, ths !! j = Some stj /\ kept stj st2.
Proof.
  intros Hi Hk [(<- & <- & _)|[Hn Hj]]%list_lookup_insert_Some; [by eexists|]. exists st2. split; [done|by right].
Qed.

Lemma woken_lookup ths j : woken ths !! j = (fun st : stack => wake_frame <$> st) <$> ths !! j.
Proof. unfold woken. apply list_lookup_fmap. Qed.

(** The threads before a step go on; a new thread is foreign or the heartbeat. *)
Lemma stepped_threads s s' : stepped s s' -> forall j,
  (forall st, threads s !! j = Some st -> exists st', threads s' !! j = Some st' /\ kept st st') /\
  (forall st', threads s' !! j = Some st' ->
     (exists st, threads s !! j = Some st /\ kept st st') \/ ~ heart st' \/ heartbeat_thread s' = Some (length (threads s)) /\ j <= length (threads s))%nat.
Proof.
  intros Hst j.
  assert (forall (i : nat) (st st' : stack) (ths : list stack), ths !! i = Some st -> kept st st' ->
            (forall stj, ths !! j = Some stj -> exists st2, <[i := st']> ths !! j = Some st2 /\ kept stj st2) /\
            (forall st2, <[i := st']> ths !! j = Some st2 -> exists stj, ths !! j = Some stj /\ kept stj st2)) as Hset.
  { intros i st st' ths Hi Hk. split; [intros stj; by eapply lookup_set|intros st2; by eapply set_lookup_back]. }
  destruct Hst as [now expired i x rest k fs p s1 Ht E|now expired i x rest k fs e s1 Ht E|i f fs Ht Hf|i k rest fs Ht|i m f fs Ht Hf Hmsg|].
  - set (st' := mk_frame k (p ++ rest) :: fs). assert (kept (mk_frame k (x :: rest) :: fs) st') as Hk by (right; by apply bottom_top).
    cbn. destruct (exec_threads _ _ _ _ _ _ _ E) as [->|[[_ ->]|[_ [-> Hth]]]].
    + destruct (Hset i _ st' _ Ht Hk) as [H1 H2]. split; [done|]. intros st2 H3. left. by apply H2.
    + assert (Hw : woken (threads s) !! i = Some (wake_frame <$> (mk_frame k (x :: rest) :: fs))) by by rewrite woken_lookup, Ht.
      assert (kept (wake_frame <$> (mk_frame k (x :: rest) :: fs)) st') as Hk'.
      { right. rewrite bottom_wake. by apply bottom_top. }
      destruct (Hset i _ st' _ Hw Hk') as [H1 H2]. split.
      * intros st Hj. destruct (H1 (wake_frame <$> st)) as (st2 & ? & [->|Hb]); [by rewrite woken_lookup, Hj|by eexists; split; [|left]|].
        exists st2. split; [done|]. right. by rewrite Hb, bottom_wake.
      * intros st2 Hj. destruct (H2 st2 Hj) as (stj & Hs & Hkj). rewrite woken_lookup in Hs.
        destruct (threads s !! j) as [st|] eqn:Hst; [|done]. cbn in Hs. injection Hs as <-. left. exists st. split; [done|].
        destruct Hkj as [->|Hb]; [by left|]. right. by rewrite Hb, bottom_wake.
    + pose proof (lookup_app_l_Some _ [[heartbeat_frame]] _ _ Ht) as Ha. destruct (Hset i _ st' _ Ha Hk) as [H1 H2]. split.
      * intros st Hj. apply H1. by apply lookup_app_l_Some.
      * intros st2 Hj. destruct (H2 st2 Hj) as (stj & Hs & Hkj). apply lookup_app_Some in Hs as [Hs|[Hl Hs]]; [left; by eexists|].
        right; right. split; [done|]. apply list_lookup_singleton_Some in Hs as [Hs _]. lia.
  - apply exec_raises in E as (_ & Eths & _). cbn. rewrite Eths.
    destruct (Hset i _ fs _ Ht (kept_pop _ _)) as [H1 H2]. split; [done|]. intros st2 H3. left. by apply H2.
  - destruct (Hset i _ fs _ Ht (kept_pop _ _)) as [H1 H2]. split; [done|]. intros st2 H3. left. by apply H2.
  - destruct (Hset i _ (mk_frame k rest :: fs) _ Ht) as [H1 H2]; [right; by apply bottom_top|].
    split; [done|]. intros st2 H3. left. by apply H2.
  - destruct (Hset i _ (method_frame m :: f :: fs) _ Ht) as [H1 H2]; [right; apply bottom_push|].
    split; [done|]. intros st2 H3. left. by apply H2.
  - cbn. split.
    + intros st Hj. exists st. split; [by apply lookup_app_l_Some|by right].
    + intros st2 [Hj|[_ Hj]]%lookup_app_Some; [left; exists st2; split; [done|by right]|].
      apply list_lookup_singleton_Some in Hj as [_ <-]. right; left. by intros [?|?].
Qed.

Definition is_heart (s : session) (h : nat) : Prop := exists st, threads s !! h = Some st /\ heart st.

(** [heartbeat_thread_] is the newest heartbeat thread; a thread joins only heartbeat
    threads, and a heartbeat thread only newer ones. *)
Record join_inv (s : session) : Prop := mk_join_inv {
  ji_thread : forall h, heartbeat_thread s = Some h ->
    is_heart s h /\ forall j st, threads s !! j = Some st -> st <> [] -> heart st -> (j <= h)%nat;
  ji_joins : forall j st f h, threads s !! j = Some st -> f ∈ st -> IJoin h ∈ code f ->
    is_heart s h /\ (heart st -> (j < h)%nat);
}.

Lemma stepped_heart s s' h : stepped s s' -> is_heart s h -> is_heart s' h.
Proof.
  intros Hst (st & Hh & Hheart). destruct (stepped_threads _ _ Hst h) as [H1 _]. destruct (H1 st Hh) as (st' & Hh' & Hk).
  exists st'. split; [done|]. by eapply kept_heart.
Qed.

Lemma exec_joins now expired i x s p s1 rest h :
  exec now expired i x s = Next p s1 -> IJoin h ∈ p ++ rest ->
  IJoin h ∈ rest \/ (x = ITake /\ heartbeat_thread s = Some h /\ h <> i).
Proof.
  intros E [Hp|Hr]%elem_of_app; [|by left]. right.
  destruct x; cbn in E; unfold try_lock_thread, try_lock_heartbeat, guard_free, assigning in E;
    repeat case_match; simplify_eq/=; try (by apply elem_of_nil in Hp);
    repeat (apply elem_of_cons in Hp as [Hp|Hp]; [try discriminate Hp|]); try (by apply elem_of_nil in Hp).
  by simplify_eq.
Qed.

Lemma wake_joins f h : IJoin h ∈ code (wake_frame f) -> IJoin h ∈ code f.
Proof.
  destruct f as [k [|x c]]; [done|]. cbn [code wake_frame]. destruct (wake_head x c) as [<-|(a & b & -> & ->)]; [done|].
  intros [?|?]%elem_of_cons; [done|by right].
Qed.

Lemma method_joins m h : IJoin h ∉ method_code m.
Proof.
  assert (forall c, forallb (fun x => match x with IJoin _ => false | _ => true end) c = true -> IJoin h ∉ c) as Hc.
  { induction c as [|x c IH]; intros Hf; [by intros ?%elem_of_nil|]. cbn in Hf. apply andb_true_iff in Hf as [Hx Hf].
    intros [<-|Hin]%elem_of_cons; [done|]. by apply IH. }
  apply Hc. destruct m; try done. cbn. unfold message_code. destruct is_binary; [done|].
  destruct payload as [|c rest]; [done|]. repeat (case_decide; [done|]). done.
Qed.

(** Every join of the next state is one of the state before, in the same thread, or
    what [ITake] begins. *)
Lemma stepped_joins s s' j st' f h :
  stepped s s' -> threads s' !! j = Some st' -> f ∈ st' -> IJoin h ∈ code f ->
  (exists st f0, threads s !! j = Some st /\ f0 ∈ st /\ kept st st' /\ IJoin h ∈ code f0) \/
  (heartbeat_thread s = Some h /\ h <> j /\ exists st, threads s !! j = Some st /\ st <> [] /\ kept st st').
Proof.
  intros Hst Hj Hf Hh.
  destruct Hst as [now expired i x rest k fs p s1 Ht E|now expired i x rest k fs e s1 Ht E|i f1 fs Ht Hf1|i k rest fs Ht|i m f1 fs Ht Hf1 Hmsg|].
  - pose proof (stepped_threads _ _ (by_exec _ now expired i x rest k fs p s1 Ht E) j) as [Hk1 _]. cbn [set_thread threads] in *.
    destruct (exec_frames _ _ _ _ _ _ _ _ _ _ _ _ _ Ht E Hj Hf) as [[-> ->]|[->|(st0 & f0 & Hj0 & Hf0 & Hw)]].
    + destruct (Hk1 _ Ht) as (st2 & Hj2 & Hk). assert (st2 = st') as -> by congruence.
      destruct (exec_joins _ _ _ _ _ _ _ _ _ E Hh) as [Hr|(-> & Hth & Hn)].
      * left. eexists _, _. split; [exact Ht|]. split; [by left|]. split; [done|by right].
      * right. split_and!; [done..|]. by eexists.
    + apply elem_of_cons in Hh as [?|Hh]; [done|]. by apply elem_of_nil in Hh.
    + left. destruct (Hk1 _ Hj0) as (st2 & Hj2 & Hk). assert (st2 = st') as -> by congruence.
      exists st0, f0. split_and!; [done| |done|by destruct Hw as [->| ->]; [|apply wake_joins]].
      destruct (decide (j = i)) as [->|]; [|done]. simplify_eq. by right.
  - pose proof (stepped_threads _ _ (by_raise _ now expired i x rest k fs e s1 Ht E) j) as [Hk1 _]. cbn [set_thread threads] in *.
    apply exec_raises in E as (_ & Eths & _). rewrite Eths in *. left.
    apply list_lookup_insert_Some in Hj as Hj'. destruct Hj' as [(<- & <- & _)|[Hn Hj']].
    + destruct (Hk1 _ Ht) as (st2 & Hj2 & Hk). assert (st2 = fs) as -> by congruence. eexists _, f. split; [exact Ht|]. split; [by right|done].
    + exists st', f. by split_and!; [..|right|].
  - left. apply list_lookup_insert_Some in Hj as [(<- & <- & _)|[Hn Hj']].
    + eexists _, f. split; [exact Ht|]. split; [by right|]. split; [apply kept_pop|done].
    + exists st', f. by split_and!; [..|right|].
  - left. apply list_lookup_insert_Some in Hj as [(<- & <- & _)|[Hn Hj']].
    + apply elem_of_cons in Hf as [->|Hf].
      * eexists _, _. split; [exact Ht|]. split; [by left|]. split; [right; by apply bottom_top|by right].
      * eexists _, f. split; [exact Ht|]. split; [by right|]. split; [right; by apply bottom_top|done].
    + exists st', f. by split_and!; [..|right|].
  - left. apply list_lookup_insert_Some in Hj as [(<- & <- & _)|[Hn Hj']].
    + apply elem_of_cons in Hf as [->|Hf]; [by apply method_joins in Hh|].
      eexists _, f. split; [exact Ht|]. split; [done|]. split; [right; apply bottom_push|done].
    + exists st', f. by split_and!; [..|right|].
  - left. cbn in Hj. apply lookup_app_Some in Hj as [Hj|[_ Hj]]; [exists st', f; by split_and!; [..|right|]|].
    apply list_lookup_singleton_Some in Hj as [_ <-]. apply list_elem_of_singleton in Hf as ->. 
    apply elem_of_cons in Hh as [?|Hh]; [done|]. by apply elem_of_nil in Hh.
Qed.

Lemma stepped_thread_member s s' h :
  stepped s s' -> heartbeat_thread s' = Some h ->
  heartbeat_thread s = Some h \/ (h = length (threads s) /\ threads s' !! h = Some [heartbeat_frame]).
Proof.
  intros Hst Hh.
  destruct Hst as [now expired i x rest k fs p s1 Ht E|now expired i x rest k fs e s1 Ht E|i f1 fs Ht Hf1|i k rest fs Ht|i m f1 fs Ht Hf1 Hmsg|];
    cbn in *; auto.
  - destruct (exec_thread_member _ _ _ _ _ _ _ E) as (_ & _ & H1 & H2).
    assert (x = IStart \/ x <> IStart) as [->|Hx] by (destruct x; first [by left|by right]).
    + right. destruct (exec_threads _ _ _ _ _ _ _ E) as [Et|[[? _]|[_ [Et Hth]]]]; [|done|].
      * exfalso. cbn in E. destruct (heartbeat_thread s); [done|]. injection E as <- <-. cbn in Et.
        apply (f_equal length) in Et. rewrite length_app in Et. cbn in Et. lia.
      * simplify_eq. split; [done|]. rewrite Et, list_lookup_insert_ne by (apply lookup_lt_Some in Ht; lia).
        by rewrite lookup_app_r, Nat.sub_diag by lia.
    + destruct (H1 Hx) as [E1|E1]; rewrite E1 in Hh; [by left|done].
  - apply exec_raises in E as (_ & _ & E & _). left. by rewrite <- E.
Qed.

Lemma kept_nonempty s s' j st st' :
  stepped s s' -> threads s !! j = Some st -> threads s' !! j = Some st' -> st' <> [] -> st <> [] .
Proof.
  intros Hst Hj Hj' Hne ->.
  assert (forall (i : nat) (st0 st1 : stack) (ths : list stack), ths !! i = Some st0 -> st0 <> [] -> ths !! j = Some [] -> <[i := st1]> ths !! j = Some st' -> st' = []) as Hset.
  { intros i st0 st1 ths Hi Hn0 Hjj. rewrite list_lookup_insert_ne; [congruence|]. intros ->. congruence. }
  destruct Hst as [now expired i x rest k fs p s1 Ht E|now expired i x rest k fs e s1 Ht E|i f1 fs Ht Hf1|i k rest fs Ht|i m f1 fs Ht Hf1 Hmsg|]; cbn in Hj'.
  - apply Hne. destruct (exec_threads _ _ _ _ _ _ _ E) as [Et|[[_ Et]|[_ [Et _]]]]; rewrite Et in Hj'; eapply (Hset i _ _ _); try exact Hj'.
    + exact Ht.
    + done.
    + done.
    + by rewrite woken_lookup, Ht.
    + done.
    + by rewrite woken_lookup, Hj.
    + by apply lookup_app_l_Some.
    + done.
    + by apply lookup_app_l_Some.
  - apply exec_raises in E as (_ & Eths & _). rewrite Eths in Hj'. apply Hne. by eapply (Hset i _ _ _ Ht).
  - apply Hne. by eapply (Hset i _ _ _ Ht).
  - apply Hne. by eapply (Hset i _ _ _ Ht).
  - apply Hne. by eapply (Hset i _ _ _ Ht).
  - rewrite (lookup_app_l_Some _ _ _ _ Hj) in Hj'. congruence.
Qed.

Lemma stepped_join s s' : stepped s s' -> join_inv s -> join_inv s'.
Proof.
  intros Hst [Ht Hj]. split.
  - intros h Hh. destruct (stepped_thread_member _ _ _ Hst Hh) as [Hh0|[-> Hnew]].
    + destruct (Ht h Hh0) as [Hheart Hmax]. split; [by eapply stepped_heart|]. intros j st Hjs Hne Hhs.
      destruct (stepped_threads _ _ Hst j) as [_ H2]. destruct (H2 st Hjs) as [(st0 & Hj0 & Hk)|[?|[Hth _]]]; [|done|].
      * apply (Hmax j st0 Hj0); [by eapply kept_nonempty|by eapply kept_back].
      * destruct Hheart as (st0 & Hlt & _). apply lookup_lt_Some in Hlt. assert (h = length (threads s)) by congruence. lia.
    + split; [exists [heartbeat_frame]; split; [done|by right]|]. intros j st Hjs Hne Hhs.
      destruct (stepped_threads _ _ Hst j) as [_ H2]. destruct (H2 st Hjs) as [(st0 & Hj0 & _)|[?|[_ ?]]]; [|done|done].
      apply lookup_lt_Some in Hj0. lia.
  - intros j st f h Hjs Hf Hh. destruct (stepped_joins _ _ _ _ _ _ Hst Hjs Hf Hh) as [(st0 & f0 & Hj0 & Hf0 & Hk & Hh0)|(Hth & Hn & st0 & Hj0 & Hne0 & Hk)].
    + destruct (Hj j st0 f0 h Hj0 Hf0 Hh0) as [Hheart Hlt]. split; [by eapply stepped_heart|]. intros Hhs. apply Hlt.
      eapply kept_back; [done| |done]. intros ->. by apply elem_of_nil in Hf.
    + destruct (Ht h Hth) as [Hheart Hmax]. split; [by eapply stepped_heart|]. intros Hhs.
      assert (j <= h)%nat; [|lia]. apply (Hmax j st0); [done..|]. eapply kept_back; [done| |done]. intros ->. by apply elem_of_nil in Hf.
Qed.

Lemma reachable_join s : s_reachable s -> join_inv s.
Proof.
  intros Hr. revert s Hr. apply (invariant_rtc s_step join_inv); [split; [done|intros j st f h Hj; cbn in Hj; by rewrite lookup_nil in Hj]|].
  intros s1 s2 Hs. apply stepped_join. by apply s_step_stepped.
Qed.

(** ** Nothing else blocks *)

Definition stuck (s : session) : Prop := forall s', ~ internal s s'.

(** The holder of a mutex can always go on. *)
Lemma exec_blocked now i x s :
  exec now true i x s = Blocked ->
  x = IUser \/ (exists h, x = IJoin h /\ finished h s = false) \/
  (is_Some (thread_mutex s) /\ holds_thread x = false /\ holds_heartbeat x = false) \/
  (is_Some (heartbeat_mutex s) /\ holds_heartbeat x = false).
Proof.
  assert (forall m, free m = false -> is_Some m) as Hm by (intros []; [by eexists|done]).
  intros E. destruct x; cbn in E; unfold try_lock_thread, try_lock_heartbeat, guard_free, assigning in E;
    repeat case_match; simplify_eq/=; eauto 10.
Qed.

Lemma stuck_exec s i x rest k fs now :
  stuck s -> threads s !! i = Some (mk_frame k (x :: rest) :: fs) -> exec now true i x s = Blocked.
Proof.
  intros Hst Ht. destruct (exec now true i x s) as [p s1|e s1|] eqn:E; [..|done]; exfalso; eapply Hst.
  - eapply internal_step. unfold thread_step. rewrite Ht. cbn. by rewrite E.
  - eapply internal_step. unfold thread_step. rewrite Ht. cbn. by rewrite E.
Qed.

Lemma stuck_free s : stuck s -> locks_inv s -> thread_mutex s = None /\ heartbeat_mutex s = None.
Proof.
  intros Hst [H1 H2].
  assert (forall j h, pc_holds h (pcs s j) = true -> exists k x rest fs, threads s !! j = Some (mk_frame k (x :: rest) :: fs) /\ h x = true) as Hpc.
  { intros j h. unfold pcs. destruct (threads s !! j) as [[|[k [|x rest]] fs]|]; cbn; try done. intros. by eexists _, _, _, _. }
  assert (heartbeat_mutex s = None) as Hh.
  { destruct (heartbeat_mutex s) as [j|] eqn:E; [|done]. exfalso. pose proof (proj1 (H2 j) eq_refl) as Hp. apply Hpc in Hp as (k & x & rest & fs & Ht & Hx).
    pose proof (stuck_exec s j x rest k fs 0 Hst Ht) as Hb. apply exec_blocked in Hb. by destruct x; destruct_or!; naive_solver. }
  split; [|done]. destruct (thread_mutex s) as [j|] eqn:E; [|done]. exfalso. pose proof (proj1 (H1 j) eq_refl) as Hp. apply Hpc in Hp as (k & x & rest & fs & Ht & Hx).
  pose proof (stuck_exec s j x rest k fs 0 Hst Ht) as Hb. apply exec_blocked in Hb. rewrite Hh in Hb. by destruct x; destruct_or!; naive_solver.
Qed.

(** What a thread that has not ended does when nothing can go on. *)
Lemma stuck_thread s i st :
  stuck s -> locks_inv s -> threads s !! i = Some st -> st <> [] ->
  pc st = Some IUser \/ exists h, pc st = Some (IJoin h) /\ finished h s = false.
Proof.
  intros Hst Hl Hi Hne. destruct (stuck_free s Hst Hl) as [H1 H2]. destruct st as [|[k [|x rest]] fs]; [done|..].
  - exfalso. eapply Hst, (internal_step 0 true i). unfold thread_step. by rewrite Hi.
  - pose proof (stuck_exec s i x rest k fs 0 Hst Hi) as Hb. apply exec_blocked in Hb as [->|[(h & -> & Hf)|[[[? E] _]|[[? E] _]]]]; [by left| |congruence..].
    right. by exists h.
Qed.

(** A chain of joins ends inside user code. *)
Lemma join_chain s : stuck s -> s_reachable s -> forall n h,
  (length (threads s) - h <= n)%nat -> is_heart s h -> finished h s = false ->
  exists h', is_heart s h' /\ pcs s h' = Some IUser.
Proof.
  intros Hst Hr. pose proof (reachable_join s Hr) as [_ Hj]. pose proof (reachable_locks s Hr) as Hl.
  induction n as [|n IH]; intros h Hn (st & Hh & Hheart) Hf; pose proof (lookup_lt_Some _ _ _ Hh) as Hlt; [lia|].
  unfold finished in Hf. rewrite Hh in Hf. destruct (stuck_thread s h st Hst Hl Hh) as [Hu|(h' & Hp & Hf')]; [by intros ->|..].
  - exists h. split; [by exists st|]. unfold pcs. by rewrite Hh.
  - destruct st as [|[k [|x rest]] fs]; [done..|]. injection Hp as ->.
    destruct (Hj h _ (mk_frame k (IJoin h' :: rest)) h' Hh) as [Hheart' Hlt']; [by left|by left|].
    apply (IH h'); [|done|done]. specialize (Hlt' Hheart). lia.
Qed.

(** [C11] Joining makes progress: when no thread of the session can go on, every thread
    that has not ended is in user code or the transport, or waits for a heartbeat
    thread - and then some heartbeat thread is in user code or the transport.  In
    particular the mutexes are free and no cycle of joins exists. *)
Theorem heartbeat_join_progress (s : session) :
  s_reachable s -> stuck s ->
  thread_mutex s = None /\ heartbeat_mutex s = None /\
  forall i st, threads s !! i = Some st -> st <> [] ->
    pc st = Some IUser \/
    exists h, pc st = Some (IJoin h) /\ exists h', is_heart s h' /\ pcs s h' = Some IUser.
Proof.
  intros Hr Hst. pose proof (reachable_locks s Hr) as Hl. destruct (stuck_free s Hst Hl) as [H1 H2]. split_and!; [done..|].
  intros i st Hi Hne. destruct (stuck_thread s i st Hst Hl Hi Hne) as [?|(h & Hp & Hf)]; [by left|]. right. exists h. split; [done|].
  destruct st as [|[k [|x rest]] fs]; [done..|]. injection Hp as ->.
  destruct (reachable_join s Hr) as [_ Hj]. destruct (Hj i _ (mk_frame k (IJoin h :: rest)) h Hi) as [Hheart _]; [by left|by left|].
  by eapply (join_chain s Hst Hr).
Qed.
End with_json.
