(* ===== verification/HeartbeatDemo.v ===== *)
(** * Runs of the session's threads

    Schedules of Heartbeat.v, the states they lead to, and what the theorems say of
    them. *)

From S2P Require Export HeartbeatSpec HeartbeatJoin.
From stdpp Require Import options.
#[local] Set Default Proof Using "Type*".
Local Open Scope Z_scope.

(** ** Schedules *)

(** [GoAt] gives the time and says that a wait has expired. *)
Inductive move : Type := Spawn | Go (i : nat) | GoAt (now : Z) (i : nat) | Return (i : nat) | CallM (i : nat) (m : method).

Section runs.
Context `{JsonLib}.

Definition go (mv : move) (s : session) : option session :=
  match mv with
  | Spawn => Some {| s with threads := threads s ++ [[user_frame]] |}
  | Go i => thread_step 0 false i s
  | GoAt now i => thread_step now true i s
  | Return i => user_return i s
  | CallM i m => user_call i m s
  end.

Fixpoint run (mvs : list move) (s : session) : option session :=
  match mvs with [] => Some s | mv :: mvs' => s' ← go mv s; run mvs' s' end.

Lemma go_step mv s s' : go mv s = Some s' -> s_step s s'.
Proof.
  destruct mv; cbn; intros E.
  - injection E as <-. apply s_thread.
  - by eapply s_internal, internal_step.
  - by eapply s_internal, internal_step.
  - by eapply s_return.
  - by eapply s_call.
Qed.

Lemma moves_reachable mvs s s' : run mvs s = Some s' -> rtc s_step s s'.
Proof.
  revert s. induction mvs as [|mv mvs IH]; intros s; cbn; [by intros [= ->]|].
  intros (s1 & E1 & E2)%bind_Some. eapply rtc_l; [by eapply go_step|by apply IH].
Qed.
End runs.

Module HeartbeatDemo.

Definition times (n : nat) (mv : move) : list move := repeat mv n.

(** The transport is thread 0, another thread is 1. *)
Definition start : list move := [Spawn; Spawn].

(** The transport delivers an OPEN packet; its handler runs to its end. *)
Definition open_packet : list move := CallM 0 (MMessage "0" false) :: times 11 (Go 0) ++ [Return 0; Go 0].

(** The heartbeat thread goes to sleep. *)
Definition to_sleep (h : nat) : list move := times 7 (Go h).

(** Another thread reports that the transport has closed, up to the join. *)
Definition report_close : list move := CallM 1 (MTransportClose "lost") :: times 5 (Go 1).

(** The woken heartbeat thread finds no request to stop and sleeps again. *)
Definition sleeps_again : list move := times 4 (Go 2).

(** The time is up: the heartbeat thread reports a timeout, inside the error handler. *)
Definition times_out : list move := times 6 (GoAt 100000 2).

(** [close] runs to its end, while the handler of an OPEN packet is at its middle. *)
Definition closed_inside : list move :=
  CallM 0 (MMessage "0" false) :: times 6 (Go 0) ++
  CallM 1 MClose :: times 6 (Go 1) ++ [Return 1; Go 1] ++ times 4 (Go 0) ++ [Return 0; Go 0].
End HeartbeatDemo.

#[local] Existing Instance Codec.lib.

Definition reaches (mvs : list move) (P : session -> Prop) : Prop := exists s, run mvs new_session = Some s /\ P s.

Lemma reaches_reachable mvs P : reaches mvs P -> exists s, s_reachable s /\ P s.
Proof. intros (s & Hr & HP). exists s. split; [by eapply moves_reachable|done]. Qed.

(** ** Two races *)

(** A request to stop is taken back: while a thread that reports the end of the
    transport joins the heartbeat thread, an OPEN packet starts another one and
    clears the request; the old thread sleeps on, and nothing is left to wake it
    before its interval is over. *)
Theorem stop_overtaken : exists s, s_reachable s /\
  pcs s 1 = Some (IJoin 2) /\ pcs s 2 = Some (HWait 25000 20000) /\ pcs s 3 = Some (HWait 25000 20000) /\
  heartbeat_stop_requested (eng s) = false /\ closing_ (eng s) = false /\ ~ pending is_notify s.
Proof.
  apply (reaches_reachable (HeartbeatDemo.start ++ HeartbeatDemo.open_packet ++ HeartbeatDemo.to_sleep 2 ++ HeartbeatDemo.report_close ++
    HeartbeatDemo.open_packet ++ HeartbeatDemo.to_sleep 3 ++ HeartbeatDemo.sleeps_again)).
  eexists. split; [vm_compute; reflexivity|]. split_and!; try (vm_compute; reflexivity).
  intros (j & st & Hj & Hs). do 4 (destruct j as [|j]; [cbn in Hj; injection Hj as <-; by vm_compute in Hs|]). done.
Qed.

(** A session that was closed while the handler of an OPEN packet was running calls
    itself open, and tells its owner so, after [close] has returned. *)
Theorem session_opens_after_close : exists s, s_reachable s /\
  closing_ (eng s) = true /\ open_ (eng s) = true /\ history s = [TransportClose; OnOpen] /\
  Forall (fun st => pc st = Some IUser) (threads s).
Proof.
  apply (reaches_reachable (HeartbeatDemo.start ++ HeartbeatDemo.closed_inside)).
  eexists. split; [vm_compute; reflexivity|]. split_and!; try (vm_compute; reflexivity). by repeat constructor.
Qed.

(** ** Witnesses *)

(** A thread inside the handler of an OPEN packet. *)
Definition delivering : session :=
  {| new_session with threads := [[method_frame (MMessage "0" false); user_frame]] |}.

Lemma session_refines_engine_witness :
  exists s', rtc (alone 7 0) delivering s' /\ threads s' !! 0%nat = Some [user_frame] /\
    eng s' = (method_result 7 (MMessage "0" false) (eng delivering)).1.1 /\ history s' = [StartHeartbeat; OnOpen] /\ raised s' = [].
Proof.
  refine (session_refines_engine 7 0 (MMessage "0" false) delivering user_frame [] _ _).
  - split; [reflexivity|reflexivity|vm_compute; reflexivity|intros h Hh; discriminate Hh].
  - reflexivity.
Defined.

Lemma heartbeat_not_overwritten_witness :
  exists s rest, run (HeartbeatDemo.start ++ CallM 0 (MMessage "0" false) :: HeartbeatDemo.times 9 (Go 0)) new_session = Some s /\
    threads s !! 0%nat = Some [mk_frame (FMethod true) (IStart :: rest); user_frame] /\
    overwritten s = false /\ heartbeat_thread s = None.
Proof.
  eexists _, _. split; [vm_compute; reflexivity|]. split; [reflexivity|].
  match goal with |- overwritten ?s = false /\ _ => assert (Hs : s_reachable s) end.
  { apply (moves_reachable (HeartbeatDemo.start ++ CallM 0 (MMessage "0" false) :: HeartbeatDemo.times 9 (Go 0))). vm_compute. reflexivity. }
  split; [exact (proj1 (heartbeat_not_overwritten _ Hs))|].
  exact (proj2 (heartbeat_not_overwritten _ Hs) 0%nat (FMethod true) [ICall OnOpen] [user_frame] eq_refl).
Defined.

Lemma heartbeat_stop_not_lost_witness :
  exists s, run (HeartbeatDemo.start ++ HeartbeatDemo.open_packet ++ HeartbeatDemo.to_sleep 2 ++ CallM 1 MClose :: HeartbeatDemo.times 3 (Go 1))
              new_session = Some s /\
    exists j st, threads s !! j = Some st /\ soon_top is_notify st = true.
Proof.
  eexists. split; [vm_compute; reflexivity|].
  eapply (heartbeat_stop_not_lost _ 2 25000 20000).
  - apply (moves_reachable (HeartbeatDemo.start ++ HeartbeatDemo.open_packet ++ HeartbeatDemo.to_sleep 2 ++
      CallM 1 MClose :: HeartbeatDemo.times 3 (Go 1))). vm_compute. reflexivity.
  - reflexivity.
  - left. reflexivity.
Defined.

(** A thread joins the heartbeat thread, which is inside the error handler. *)
Definition joining : list move :=
  HeartbeatDemo.start ++ HeartbeatDemo.open_packet ++ HeartbeatDemo.to_sleep 2 ++ HeartbeatDemo.times_out ++ HeartbeatDemo.report_close.

Lemma heartbeat_join_progress_witness :
  exists s, run joining new_session = Some s /\ pcs s 1 = Some (IJoin 2) /\
    exists h, pcs s 1 = Some (IJoin h) /\ exists h', is_heart s h' /\ pcs s h' = Some IUser.
Proof.
  eexists. split; [vm_compute; reflexivity|]. split; [reflexivity|].
  match goal with |- context [is_heart ?s _] => assert (Hs : s_reachable s) end.
  { apply (moves_reachable joining). vm_compute. reflexivity. }
  match type of Hs with s_reachable ?s => assert (Hst : stuck s) end.
  { intros s' Hin. inversion Hin as [now expired i s1 s2 E E1 E2]; subst.
    destruct i as [|[|[|i]]]; cbv in E; discriminate E. }
  destruct (heartbeat_join_progress _ Hs Hst) as (_ & _ & Hp).
  destruct (Hp 1%nat _ eq_refl) as [Hu|Hj]; [intros E; discriminate E|discriminate Hu|exact Hj].
Defined.
