(* ===== verification/Transport.v ===== *)
(** * The transport interface and its contract

    src/transport.hpp: what a session sees of a transport - the calls of its
    handlers - and the contract that both transports keep, as an automaton over
    these calls.  Websocket.v and PollingTransport.v are implementations; the
    class [Transport] is what a client of the interface may rely on. *)

From S2P Require Export Bytes.
From stdpp Require Import options.
#[local] Set Default Proof Using "Type*".
Local Open Scope Z_scope.

(** [enum class transport_state] *)
Inductive transport_state : Type := transport_closed | transport_connecting | transport_open | transport_closing.

#[export] Instance transport_state_eq_dec : EqDecision transport_state.
Proof. solve_decision. Defined.

(** Calls of the handlers, and the moment [closing_] is set. *)
Inductive output : Type :=
  | TShutdown
  | TOpen
  | TMessage (payload : bstr) (is_binary : bool)
  | TError (message : bstr)
  | TClose (reason : bstr).

(** ** The contract

    The open handler is called at most once and messages only after it; the close
    handler is called at most once; shutdown begins once, and after it at most one
    call of the open or message handler, and at most one of the error handler,
    still happen - those on their way when it began. *)
Record contract : Type := mk_contract {
  c_opened : bool;
  c_closing : bool;
  c_late : bool;
  c_late_error : bool;
  c_closed : bool;
}.

Definition fresh_contract : contract := mk_contract false false false false false.

Definition contract_step (c : contract) (o : output) : option contract :=
  match o with
  | TShutdown => if c_closing c then None else Some {| c with c_closing := true |}
  | TOpen =>
      if c_opened c || (c_closing c && c_late c) then None
      else Some {| c with c_opened := true; c_late := c_closing c |}
  | TMessage _ _ =>
      if negb (c_opened c) || (c_closing c && c_late c) then None
      else Some {| c with c_late := c_closing c |}
  | TError _ =>
      if c_closing c && c_late_error c then None else Some {| c with c_late_error := c_closing c |}
  | TClose _ => if c_closed c then None else Some {| c with c_closed := true |}
  end.

Fixpoint contract_run (c : contract) (os : list output) : option contract :=
  match os with [] => Some c | o :: os' => c' ← contract_step c o; contract_run c' os' end.

(** The calls keep the contract. *)
Definition keeps_contract (os : list output) : Prop := is_Some (contract_run fresh_contract os).

Lemma contract_run_app c os1 os2 : contract_run c (os1 ++ os2) = (c' ← contract_run c os1; contract_run c' os2).
Proof.
  revert c. induction os1 as [|o os1 IH]; intros c; [done|]. cbn.
  destruct (contract_step c o); cbn; [apply IH|done].
Qed.

(** What the contract says about a whole history. *)
Definition is_open (o : output) : bool := match o with TOpen => true | _ => false end.
Definition is_close (o : output) : bool := match o with TClose _ => true | _ => false end.
Definition is_message (o : output) : bool := match o with TMessage _ _ => true | _ => false end.
Definition count (f : output -> bool) (os : list output) : nat := length (filter (fun o => f o = true) os).

Lemma count_cons f o os : count f (o :: os) = ((if f o then 1 else 0) + count f os)%nat.
Proof. unfold count. rewrite filter_cons. destruct (f o); by case_decide. Qed.

Lemma contract_counts c os c' :
  contract_run c os = Some c' ->
  (count is_open os + (if c_opened c then 1 else 0) <= 1)%nat /\
  (count is_close os + (if c_closed c then 1 else 0) <= 1)%nat.
Proof.
  revert c. induction os as [|o os IH]; intros c; cbn [contract_run].
  - intros _. unfold count; cbn. destruct (c_opened c), (c_closed c); lia.
  - intros (c1 & E1 & E2)%bind_Some. apply IH in E2. rewrite !count_cons.
    destruct o; cbn in *; repeat case_match; simplify_eq/=; destruct (c_opened c), (c_closed c); simplify_eq/=; lia.
Qed.

Lemma contract_opened c os c' :
  contract_run c os = Some c' -> c_opened c = false -> count is_open os = 0%nat -> count is_message os = 0%nat.
Proof.
  revert c. induction os as [|o os IH]; intros c; cbn [contract_run]; [done|].
  intros (c1 & E1 & E2)%bind_Some Ho. rewrite !count_cons. intros Hz.
  rewrite (IH c1); [destruct o; cbn in *; [done..| |done|done]; by rewrite Ho in E1|done| |lia].
  destruct o; cbn in *; repeat case_match; by simplify_eq/=.
Qed.

Lemma contract_after_shutdown c os c' :
  contract_run c os = Some c' -> c_closing c = true -> (count is_message os + (if c_late c then 1 else 0) <= 1)%nat.
Proof.
  revert c. induction os as [|o os IH]; intros c; cbn [contract_run].
  - intros _ _. unfold count; cbn. destruct (c_late c); lia.
  - intros (c1 & E1 & E2)%bind_Some Hc. apply IH in E2; [|destruct o; cbn in *; repeat case_match; by simplify_eq/=].
    rewrite count_cons. destruct o; cbn in *; rewrite Hc in E1; cbn in E1; repeat case_match; simplify_eq/=; destruct (c_late c); simplify_eq/=; try lia.
Qed.

(** ** Systems that implement the interface *)

(** A transport as a transition system with the calls it has made so far. *)
Class TransportSystem (S : Type) : Type := {
  t_initial : S -> Prop;
  t_step : S -> S -> Prop;
  t_outputs : S -> list output;
}.

Definition t_reachable {S} `{TransportSystem S} (s : S) : Prop := exists s0, t_initial s0 /\ rtc t_step s0 s.

Class Transport (S : Type) `{TransportSystem S} : Prop :=
  transport_contract : forall s, t_reachable s -> keeps_contract (t_outputs s).

(** To prove it: a relation between states and states of the automaton that
    holds at the start and follows every step. *)
Section simulation.
Context {S : Type} `{TransportSystem S} (R : S -> contract -> Prop).
Context (R_start : forall s, t_initial s -> t_outputs s = [] /\ R s fresh_contract).
Context (R_step : forall s s' c, t_step s s' -> R s c ->
  exists os c', t_outputs s' = t_outputs s ++ os /\ contract_run c os = Some c' /\ R s' c').

Lemma simulated s : t_reachable s -> exists c, contract_run fresh_contract (t_outputs s) = Some c /\ R s c.
Proof.
  intros (s0 & H0 & Hs).
  apply (invariant_rtc t_step (fun s => exists c, contract_run fresh_contract (t_outputs s) = Some c /\ R s c) s0);
    [|clear s Hs|done].
  - destruct (R_start s0 H0) as [-> ?]. by eexists.
  - intros s s' Hstep (c & Hc & Hr). destruct (R_step s s' c Hstep Hr) as (os & c' & -> & Hos & Hr').
    exists c'. by rewrite contract_run_app, Hc.
Qed.

Lemma simulation_transport : Transport S.
Proof. intros s Hs. destruct (simulated s Hs) as (c & Hc & _). by exists c. Qed.
End simulation.

(** ** Notifications that are owed

    Code that has set [closing_] still has to call the error handler and the close
    handler, or the latter. *)
Inductive owed : Type := OwesError | OwesClose.

Definition owed_ok (c : contract) (o : owed) : Prop :=
  match o with OwesError => c_late_error c = false /\ c_closed c = false | OwesClose => c_closed c = false end.

(** The automaton and the notifications owed. *)
Record owes_ok (c : contract) (cl : bool) (l : list owed) : Prop := mk_owes_ok {
  ok_closing : c_closing c = cl;
  ok_quiet : cl = false -> l = [] /\ c_late c = false /\ c_late_error c = false /\ c_closed c = false;
  ok_one : (length l <= 1)%nat;
  ok_each : Forall (owed_ok c) l;
}.

#[export] Instance owes_ok_perm c cl : Proper (Permutation ==> iff) (owes_ok c cl).
Proof.
  assert (forall l l', Permutation l l' -> owes_ok c cl l -> owes_ok c cl l') as Hone.
  { intros l l' Hp [H1 H2 H3 H4]. split; [done| |by rewrite <- Hp|by rewrite <- Hp].
    intros Hc. destruct (H2 Hc) as [-> ?]. by apply Permutation_nil_l in Hp as ->. }
  intros l l' Hp. split; apply Hone; [done|by symmetry].
Qed.

Lemma single_owed {c cl x rest} : owes_ok c cl (x :: rest) -> cl = true /\ rest = [] /\ owed_ok c x.
Proof.
  intros [H1 H2 H3 H4]. destruct cl; [|by destruct (H2 eq_refl)]. apply Forall_cons in H4 as [? _].
  cbn in H3. split_and!; [done| |done]. destruct rest; [done|cbn in H3; lia].
Qed.

Lemma owes_ok_drop c cl x rest : owes_ok c cl (x ++ rest) -> owes_ok c cl rest.
Proof.
  intros [H1 H2 H3 H4]. rewrite length_app in H3. apply Forall_app in H4 as [_ ?]. split; [done| |lia|done].
  intros Hc. destruct (H2 Hc) as [[_ ->]%app_nil ?]. done.
Qed.

(** What the automaton owes after shutdown has begun, and after each notification. *)
Lemma owes_shutdown c l o :
  owes_ok c false l -> exists c', contract_step c TShutdown = Some c' /\ owes_ok c' true [o] /\
    c_opened c' = c_opened c /\ c_late c' = c_late c.
Proof.
  intros [H1 H2 H3 H4]. destruct (H2 eq_refl) as (-> & Hl & He & Hd).
  exists {| c with c_closing := true |}. cbn. rewrite H1. split_and!; try done.
  split; cbn; [done|done|lia|]. repeat constructor. by destruct o.
Qed.

Lemma owes_error c cl m rest :
  owes_ok c cl (OwesError :: rest) -> exists c', contract_step c (TError m) = Some c' /\ owes_ok c' cl (OwesClose :: rest) /\
    c_opened c' = c_opened c /\ c_late c' = c_late c.
Proof.
  intros Ho. destruct (single_owed Ho) as (-> & -> & He & Hd). destruct Ho as [H1 _ _ _].
  exists {| c with c_late_error := c_closing c |}. cbn. rewrite He, andb_false_r. split_and!; try done.
  split; cbn; [done|done|lia|by repeat constructor].
Qed.

Lemma owes_close c cl reason rest :
  owes_ok c cl (OwesClose :: rest) -> exists c', contract_step c (TClose reason) = Some c' /\ owes_ok c' cl rest /\
    c_opened c' = c_opened c /\ c_late c' = c_late c.
Proof.
  intros Ho. destruct (single_owed Ho) as (-> & -> & Hd). destruct Ho as [H1 _ _ _].
  exists {| c with c_closed := true |}. cbn. rewrite Hd. split_and!; try done.
  split; cbn; [done|done|lia|constructor].
Qed.
