(* ===== verification/SessionTransport.v ===== *)
(** * The session on a transport

    The methods of src/engineio_client.cpp as a client of the class [Transport]:
    what the owner of a session is told, whatever implementation of the interface
    calls the session's handlers, and whatever calls come in between. *)

From S2P Require Export Heartbeat Transport.
From stdpp Require Import options.
#[local] Set Default Proof Using "Type*".
Local Open Scope Z_scope.

(** The call of a handler that [set_transport] has registered, if it is one. *)
Definition method_output (m : method) : option output :=
  match m with
  | MTransportOpen => Some TOpen
  | MMessage payload is_binary => Some (TMessage payload is_binary)
  | MTransportClose reason => Some (TClose reason)
  | MTransportError message => Some (TError message)
  | _ => None
  end.

Definition is_shutdown (o : output) : bool := match o with TShutdown => true | _ => false end.
Definition handler_calls (os : list output) : list output := filter (fun o => is_shutdown o = false) os.

Section session.
Context `{JsonLib}.

(** Calls one after the other, each at its time; an exception is the caller's. *)
Fixpoint session_run (ms : list (Z * method)) (e : engine) : engine * list engine_event :=
  match ms with
  | [] => (e, [])
  | (now, m) :: ms' =>
      let '(e, evs, _) := method_result now m e in
      let '(e, evs') := session_run ms' e in (e, evs ++ evs')
  end.

(** The session is called by the transport in state [s], among others. *)
Definition called_by {S} `{TransportSystem S} (s : S) (ms : list (Z * method)) : Prop :=
  omap (fun nm => method_output nm.2) ms = handler_calls (t_outputs s).

(** What the owner hears of, and what the transport has said of it. *)
Definition frame_event (ev : engine_event) : option (bstr * bool) :=
  match ev with OnFrame payload is_binary => Some (payload, is_binary) | _ => None end.
Definition is_on_close (ev : engine_event) : bool := match ev with OnClose _ => true | _ => false end.
Definition closes (evs : list engine_event) : nat := length (filter (fun ev => is_on_close ev = true) evs).

Definition message_frame (o : output) : option (bstr * bool) :=
  match o with
  | TMessage payload is_binary =>
      if is_binary then Some (payload, true)
      else match payload with c :: rest => if decide (c = "4"%char) then Some (rest, false) else None | [] => None end
  | _ => None
  end.
Definition is_close_packet (o : output) : bool :=
  match o with
  | TMessage payload is_binary => negb is_binary && bool_decide (head payload = Some "1"%char)
  | _ => false
  end.

Lemma closes_app evs1 evs2 : closes (evs1 ++ evs2) = (closes evs1 + closes evs2)%nat.
Proof. unfold closes. by rewrite filter_app, length_app. Qed.

Lemma stop_events e : (stop_heartbeat_timer e).2 = [] \/ (stop_heartbeat_timer e).2 = [JoinHeartbeat].
Proof. unfold stop_heartbeat_timer. destruct (heartbeat_running (request_heartbeat_stop e)); auto. Qed.

Lemma start_events e : (start_heartbeat_timer e).1.2 = [] \/ (start_heartbeat_timer e).1.2 = [StartHeartbeat].
Proof. unfold start_heartbeat_timer. repeat case_match; auto. Qed.

Lemma close_events e : (engine_close e).2 = [] \/ (engine_close e).2 = [TransportClose].
Proof. unfold engine_close, if_transport. repeat case_match; auto. Qed.

(** The destructor closes the transport, joins the heartbeat and calls no handler. *)
Lemma engine_destroy_events e :
  let '(e', evs) := engine_destroy e in
  closing_ e' = true /\ heartbeat_running e' = false /\ Forall (.∈ [TransportClose; JoinHeartbeat; TransportSyncClose]) evs /\
  (has_transport e = true -> last evs = Some TransportSyncClose).
Proof.
  unfold engine_destroy, engine_sync_close, engine_close, stop_heartbeat_timer, request_heartbeat_stop, if_transport.
  destruct e as [has ? ? ? ? ? ? running ?]. destruct has, running; cbn; repeat case_match; simplify_eq/=; split_and!; try done;
    repeat constructor; set_solver.
Qed.

Definition option_frames (o : option output) : list (bstr * bool) :=
  match o with Some o => option_list (message_frame o) | None => [] end.
Definition option_closes (o : option output) : nat :=
  match o with Some o => if is_close o || is_close_packet o then 1%nat else 0%nat | None => 0%nat end.

(** The events of one call. *)
Record tells (m : method) (evs : list engine_event) : Prop := mk_tells {
  te_frames : omap frame_event evs = option_frames (method_output m);
  te_closes : closes evs = option_closes (method_output m);
  te_open : OnOpen ∈ evs -> exists o, method_output m = Some o /\ is_message o = true;
}.

Ltac no_open := let H := fresh in intros H; repeat (apply elem_of_cons in H as [H|H]; [discriminate H|]); by apply elem_of_nil in H.

Lemma open_packet_tells now rest e : tells (MMessage ("0"%char :: rest) false) (handle_open_packet now rest e).1.2.
Proof.
  unfold handle_open_packet. pose proof (stop_events e) as H1. destruct (stop_heartbeat_timer e) as [e1 evs1]. cbn [snd] in H1.
  destruct (read_handshake now (parse rest) e1) as [e2 [x|]].
  - cbn. destruct H1 as [->| ->]; (split; [done|done|intros _; by eexists]).
  - pose proof (start_events {| e2 with open_ := true |}) as H2.
    destruct (start_heartbeat_timer {| e2 with open_ := true |}) as [[e3 evs3] [x|]]; cbn in *;
      destruct H1 as [->| ->], H2 as [->| ->]; (split; [done|done|intros _; by eexists]).
Qed.

Lemma message_tells now payload is_binary e : tells (MMessage payload is_binary) (handle_transport_message now payload is_binary e).1.2.
Proof.
  destruct is_binary; [split; [done..|]; intros _; by eexists|]. destruct payload as [|c rest]; [split; [done..|]; intros _; by eexists|].
  unfold handle_transport_message. destruct (decide (c = "0"%char)) as [->|]; [apply open_packet_tells|].
  destruct (decide (c = "1"%char)) as [->|].
  { pose proof (stop_events {| e with open_ := false |}) as H1. destruct (stop_heartbeat_timer {| e with open_ := false |}) as [e1 evs1].
    cbn in *. destruct H1 as [->| ->]; (split; [done|done|intros _; by eexists]). }
  assert (is_close_packet (TMessage (c :: rest) false) = false) as Hc by (cbn; apply bool_decide_eq_false; congruence).
  split; unfold option_frames, option_closes; cbn [method_output is_close orb]; rewrite ?Hc; [| |by eexists].
  - cbn. destruct (decide (c = "2"%char)) as [->|]; [unfold if_transport; by destruct (has_transport e)|].
    destruct (decide (c = "3"%char)) as [->|]; [done|]. by destruct (decide (c = "4"%char)).
  - destruct (decide (c = "2"%char)) as [->|]; [unfold if_transport; by destruct (has_transport e)|].
    destruct (decide (c = "3"%char)) as [->|]; [done|]. by destruct (decide (c = "4"%char)).
Qed.

Lemma method_tells now m e : tells m (method_result now m e).1.2.
Proof.
  destruct m as [url| | |payload is_binary| |reason|message|payload is_binary]; cbn [method_result].
  - unfold engine_open. destruct (closing_ e); [split; [done..|no_open]|]. cbn. destruct (has_transport e); (split; [done..|no_open]).
  - pose proof (close_events e) as H1. destruct (engine_close e) as [e1 evs1]. cbn in *. destruct H1 as [->| ->]; (split; [done..|no_open]).
  - unfold engine_sync_close. pose proof (close_events e) as H1. destruct (engine_close e) as [e1 evs1].
    pose proof (stop_events e1) as H2. destruct (stop_heartbeat_timer e1) as [e2 evs2]. cbn in *. unfold if_transport.
    destruct H1 as [->| ->], H2 as [->| ->], (has_transport e2); (split; [done..|no_open]).
  - cbn. unfold engine_send. destruct (negb _ || _); [split; [done..|no_open]|]. destruct is_binary; (split; [done..|no_open]).
  - split; [done..|no_open].
  - unfold handle_transport_close. pose proof (stop_events {| e with open_ := false |}) as H1.
    destruct (stop_heartbeat_timer {| e with open_ := false |}) as [e1 evs1]. cbn in *. destruct H1 as [->| ->]; (split; [done..|no_open]).
  - split; [done..|no_open].
  - apply message_tells.
Qed.

(** The events of a run. *)
Lemma run_tells ms e :
  let evs := (session_run ms e).2 in
  let os := omap (fun nm : Z * method => method_output nm.2) ms in
  omap frame_event evs = omap message_frame os /\
  closes evs = count (fun o => is_close o || is_close_packet o) os /\
  (OnOpen ∈ evs -> exists o, o ∈ os /\ is_message o = true).
Proof.
  revert e. induction ms as [|[now m] ms IH]; intros e; [by split_and!; [..|intros ?%elem_of_nil]|]. cbn [session_run].
  pose proof (method_tells now m e) as [T1 T2 T3]. destruct (method_result now m e) as [[e1 evs1] x]. cbn [fst snd] in *.
  destruct (IH e1) as (I1 & I2 & I3). destruct (session_run ms e1) as [e2 evs2]. cbn [fst snd] in *. cbv zeta.
  rewrite omap_app, closes_app, T1, T2, I1, I2. cbn [omap list_omap snd].
  unfold option_frames, option_closes. destruct (method_output m) as [o|]; [rewrite count_cons|split_and!; [done..|]].
  - split_and!.
    + cbn. by destruct (message_frame o).
    + done.
    + intros [Hin|Hin]%elem_of_app.
      * destruct (T3 Hin) as (o' & [= <-] & Ho). exists o. split; [by left|done].
      * destruct (I3 Hin) as (o' & Ho' & Hm). exists o'. split; [by right|done].
  - intros [Hin|Hin]%elem_of_app; [by destruct (T3 Hin) as (o' & ? & _)|by apply I3].
Qed.

(** Beginning to shut down is no call. *)
Lemma omap_handler_calls {A} (f : output -> option A) os : f TShutdown = None -> omap f (handler_calls os) = omap f os.
Proof.
  intros Hf. unfold handler_calls. induction os as [|o os IH]; [done|]. rewrite filter_cons. case_decide as Ho; cbn; [by rewrite IH|].
  destruct o; cbn in *; try done. by rewrite Hf.
Qed.

Lemma count_handler_calls f os : f TShutdown = false -> count f (handler_calls os) = count f os.
Proof.
  intros Hf. unfold handler_calls. induction os as [|o os IH]; [done|]. rewrite filter_cons, count_cons. case_decide as Ho; [by rewrite count_cons, IH|].
  destruct o; cbn in *; try done. by rewrite Hf.
Qed.

Lemma count_or f g os : (count (fun o => f o || g o) os <= count f os + count g os)%nat.
Proof. induction os as [|o os IH]; [done|]. rewrite !count_cons. destruct (f o), (g o); cbn; lia. Qed.

Lemma frames_messages os : (length (omap message_frame os) <= count is_message os)%nat.
Proof.
  induction os as [|o os IH]; [done|]. rewrite count_cons. cbn. destruct o; cbn in *; try lia.
  destruct is_binary; cbn; [lia|]. destruct payload; cbn; [lia|]. case_decide; cbn; lia.
Qed.

(** [C12] On every implementation of the transport interface, and whatever else is called
    in between, the owner of a session is given exactly the payloads of the messages
    the transport delivers, in order; it is told of the end of the session at most
    once more than CLOSE packets arrive; nothing of an opening, and no frame, before
    the transport has opened; and at most one frame once the transport shuts down. *)
Theorem session_over_transport {S : Type} `{Transport S} (s : S) (ms : list (Z * method)) (e : engine) :
  t_reachable s -> called_by s ms ->
  let evs := (session_run ms e).2 in
  omap frame_event evs = omap message_frame (t_outputs s) /\
  (closes evs <= 1 + count is_close_packet (t_outputs s))%nat /\
  (count is_open (t_outputs s) = 0%nat -> omap frame_event evs = [] /\ OnOpen ∉ evs) /\
  (forall os1 os2, t_outputs s = os1 ++ TShutdown :: os2 -> (length (omap message_frame os2) <= 1)%nat).
Proof.
  intros Hr Hcall. unfold called_by in Hcall. destruct (run_tells ms e) as (R1 & R2 & R3). rewrite Hcall in R1, R2, R3.
  rewrite omap_handler_calls in R1 by done. rewrite count_handler_calls in R2 by done. cbv zeta.
  destruct (transport_contract s Hr) as [c Hc]. split_and!.
  - done.
  - rewrite R2. destruct (contract_counts _ _ _ Hc) as [_ Hcl]. cbn [fresh_contract c_closed] in Hcl.
    pose proof (count_or is_close is_close_packet (t_outputs s)). lia.
  - intros Hno. pose proof (contract_opened _ _ _ Hc eq_refl Hno) as Hm. split.
    + rewrite R1. pose proof (frames_messages (t_outputs s)) as Hl. rewrite Hm in Hl. by destruct (omap message_frame (t_outputs s)); [|cbn in Hl; lia].
    + intros Hin. destruct (R3 Hin) as (o & Ho & Hom). apply list_elem_of_filter in Ho as [_ Ho].
      apply list_elem_of_split in Ho as (l1 & l2 & E). rewrite E in Hm. unfold count in Hm. rewrite filter_app, length_app, filter_cons in Hm.
      case_decide; [cbn in Hm; lia|done].
  - intros os1 os2 E. rewrite E, contract_run_app in Hc. apply bind_Some in Hc as (c1 & _ & Hc). cbn [contract_run] in Hc.
    apply bind_Some in Hc as (c2 & E2 & Hc). cbn in E2. destruct (c_closing c1); [done|]. injection E2 as <-.
    pose proof (contract_after_shutdown _ _ _ Hc eq_refl). pose proof (frames_messages os2). lia.
Qed.
End session.
