(* ===== verification/Websocket.v ===== *)
(** * The WebSocket transport

    src/websocket_transport.cpp.  Everything but [connect], [send] and [close]
    runs on one strand: the completion handlers of the asynchronous operations and
    the functions posted to it.  A completion handler is a function of its result,
    up to the call of a user handler; what it does from there on is a
    [continuation], because user code and other threads run in between.  The
    operations of Boost are names in the list [pending]; their results are chosen
    by the environment.  The plain and the TLS variant of a function are one
    definition that tests [tls]. *)

From S2P Require Export Transport Url.
From stdpp Require Import options.
#[local] Set Default Proof Using "Type*".
Local Open Scope Z_scope.

(** ** State *)

(** The asynchronous operations. *)
Inductive ws_op : Type :=
  | OpResolve | OpConnect | OpProxyWrite | OpProxyRead | OpTlsHandshake | OpHandshake | OpRead
  | OpWrite (payload : bstr) (is_binary : bool).

(** Functions posted to the strand. *)
Inductive ws_task : Type := TaskStart | TaskWrite (payload : bstr) (is_binary : bool) | TaskShutdown.

(** What a handler does after the user handler it calls returns. *)
Inductive ws_after : Type := AfterOpen | AfterMessage | AfterWriteError | AfterError | AfterClose.

(** Where the strand is inside a completion handler: at the start of [fail], before
    the assignment of [state_] in the handshake's handler and in the read handler,
    before the call of a user handler, and inside it. *)
Inductive ws_continuation : Type :=
  | KFail (what : bstr) (k : ws_after)
  | KOpened
  | KLost (reason : bstr)
  | KCall (o : output) (k : ws_after)
  | KUser (k : ws_after).

Inductive ws_event : Type :=
  | WOut (o : output)
  | WStarted (op : ws_op)
  | WAccepted (payload : bstr) (is_binary : bool)
  | WShutDown.

(** The members, and around them: the operations in progress, the functions
    waiting on the strand, its continuation, what happened.  [owned] says that the
    transport runs its own [io_context]; [stream] that [ws_plain_] or [ws_tls_] is
    made; [deadline] that the timer of the TCP stream is armed. *)
Record websocket : Type := mk_websocket {
  owned : bool;
  proxy_ : option proxy_config;
  url_ : option url_parts;
  state_ : transport_state;
  closing : bool;
  shutdown_once : bool;
  stream : bool;
  deadline : bool;
  write_queue : list (bstr * bool);
  write_in_progress : bool;
  pending : list ws_op;
  tasks : list ws_task;
  continuation : option ws_continuation;
  history : list ws_event;
}.

Definition new_websocket (owned : bool) (proxy : option proxy_config) : websocket :=
  mk_websocket owned proxy None transport_closed false false false false [] false [] [] None [].

Definition ws_tls (s : websocket) : bool := match url_ s with Some u => tls u | None => false end.

Definition record (ev : ws_event) (s : websocket) : websocket := {| s with history := history s ++ [ev] |}.

(** Starting an asynchronous operation. *)
Definition begin (op : ws_op) (s : websocket) : websocket :=
  record (WStarted op) {| s with pending := pending s ++ [op] |}.

Definition continue_with (k : ws_continuation) (s : websocket) : websocket := {| s with continuation := Some k |}.

(** ** Writing *)

Definition set_writing (b : bool) (s : websocket) : websocket := {| s with write_in_progress := b |}.

(** [pump_write_queue_plain] and [_tls].  The front of the queue is moved from and
    stays in place until its write has completed. *)
Definition pump_write_queue (s : websocket) : websocket :=
  if closing s then s
  else if negb (stream s) then set_writing false s
  else match write_queue s with
       | [] => set_writing false s
       | (payload, is_binary) :: _ => begin (OpWrite payload is_binary) s
       end.

Definition enqueue (payload : bstr) (is_binary : bool) (s : websocket) : websocket :=
  record (WAccepted payload is_binary) {| s with write_queue := write_queue s ++ [(payload, is_binary)] |}.

(** The function [queue_write] posts. *)
Definition queue_write (payload : bstr) (is_binary : bool) (s : websocket) : websocket :=
  if closing s then s
  else
    let s := enqueue payload is_binary s in
    let should_start := negb (write_in_progress s) in
    let s := set_writing true s in
    if should_start then pump_write_queue s else s.

(** ** Connecting *)

(** [start_plain], [start_tls] *)
Definition ws_start (s : websocket) : websocket := begin OpResolve s.

Definition start_handshake (s : websocket) : websocket :=
  begin (if ws_tls s then OpTlsHandshake else OpHandshake) s.

(** The result of an operation: an error message of the system, or what it produced. *)
Inductive ws_result : Type :=
  | RError (message : bstr)
  | ROk
  | RSniError (message : bstr) (* of [SSL_set_tlsext_host_name], after a successful resolve *)
  | RStatus (status : Z)
  | RFrame (payload : bstr) (is_binary : bool).

Definition failure (what message : bstr) : ws_continuation := KFail (what ++ bs ": " ++ message) AfterError.

(** The completion handlers, one per operation. *)
Definition on_resolved (r : ws_result) (s : websocket) : websocket :=
  if closing s then s
  else match r with
       | RError m => continue_with (failure "resolve" m) s
       | _ =>
           let s := {| s with stream := true |} in
           match r, ws_tls s with
           | RSniError m, true => continue_with (failure "sni" m) s
           | _, _ => begin OpConnect {| s with deadline := true |}
           end
       end.

(** The TCP connection, to the server or the proxy, is made. *)
Definition connected_stream (s : websocket) : websocket :=
  let s := if ws_tls s then s else {| s with deadline := false |} in
  match proxy_ s with Some _ => begin OpProxyWrite s | None => start_handshake s end.

Definition on_connected (r : ws_result) (s : websocket) : websocket :=
  if closing s then s
  else match r with
       | RError m => continue_with (failure "connect" m) s
       | _ => connected_stream s
       end.

Definition on_proxy_written (r : ws_result) (s : websocket) : websocket :=
  if closing s then s
  else match r with
       | RError m => continue_with (failure "proxy write" m) s
       | _ => begin OpProxyRead s
       end.

Definition on_proxy_read (r : ws_result) (s : websocket) : websocket :=
  if closing s then s
  else match r with
       | RError m => continue_with (failure "proxy read" m) s
       | RStatus status =>
           if decide (status `quot` 100 = 2) then start_handshake s
           else continue_with (KFail (bs "proxy CONNECT returned HTTP " ++ to_string status) AfterError) s
       | _ => start_handshake s
       end.

Definition on_tls_handshake (r : ws_result) (s : websocket) : websocket :=
  if closing s then s
  else match r with
       | RError m => continue_with (failure "ssl_handshake" m) s
       | _ => begin OpHandshake {| s with deadline := false |}
       end.

Definition on_handshake (r : ws_result) (s : websocket) : websocket :=
  if closing s then s
  else match r with
       | RError m => continue_with (failure "handshake" m) s
       | _ => continue_with KOpened s
       end.

(** ** Reading *)

(** The handler of [do_read_plain] and [do_read_tls]. *)
Definition on_read (r : ws_result) (s : websocket) : websocket :=
  if closing s then s
  else match r with
       | RFrame payload is_binary => continue_with (KCall (TMessage payload is_binary) AfterMessage) s
       | RError m => continue_with (KLost m) s
       | _ => s
       end.

(** The handler of [async_write]. *)
Definition on_written (r : ws_result) (s : websocket) : websocket :=
  if closing s then s
  else
    let s := {| s with write_queue := tail (write_queue s) |} in
    match r with
    | RError m => continue_with (KFail (bs "write: " ++ m) AfterWriteError) s
    | _ => pump_write_queue s
    end.

Definition on_completed (op : ws_op) (r : ws_result) : websocket -> websocket :=
  match op with
  | OpResolve => on_resolved r
  | OpConnect => on_connected r
  | OpProxyWrite => on_proxy_written r
  | OpProxyRead => on_proxy_read r
  | OpTlsHandshake => on_tls_handshake r
  | OpHandshake => on_handshake r
  | OpRead => on_read r
  | OpWrite _ _ => on_written r
  end.

(** Results an operation can have. *)
Definition possible (op : ws_op) (r : ws_result) : Prop :=
  match r, op with
  | RError _, _ => True
  | RSniError _, OpResolve => True
  | RStatus _, OpProxyRead => True
  | RFrame _ _, OpRead => True
  | ROk, (OpProxyRead | OpRead) => False
  | ROk, _ => True
  | _, _ => False
  end.

(** ** Continuations *)

(** After the user handler has returned. *)
Definition after_user (k : ws_after) (s : websocket) : websocket :=
  let s := {| s with continuation := None |} in
  match k with
  | AfterOpen | AfterMessage => if closing s then s else begin OpRead s
  | AfterWriteError => {| s with write_in_progress := false |}
  | AfterError | AfterClose => s
  end.

(** One step of the strand inside a handler; [KUser] waits for user code. *)
Definition run_continuation (k : ws_continuation) (s : websocket) : websocket :=
  match k with
  | KFail what k =>
      if closing s then after_user k s
      else continue_with (KCall (TError what) k) {| s with state_ := transport_closed |}
  | KOpened => continue_with (KCall TOpen AfterOpen) {| s with state_ := transport_open |}
  | KLost reason =>
      let s := {| s with state_ := transport_closed |} in
      if closing s then {| s with continuation := None |} else continue_with (KCall (TClose reason) AfterClose) s
  | KCall o k => continue_with (KUser k) (record (WOut o) s)
  | KUser _ => s
  end.

(** ** Shutdown *)

(** [shutdown_on_io_thread]; closing the stream makes the operations in progress
    complete with an error. *)
Definition shutdown_on_io_thread (s : websocket) : websocket :=
  record WShutDown {| s with write_queue := []; write_in_progress := false; state_ := transport_closed |}.

(** [close]: [on_io_thread] is [strand_.running_in_this_thread()]. *)
Definition ws_close (on_io_thread : bool) (s : websocket) : websocket :=
  if shutdown_once s then s
  else
    let s := record (WOut TShutdown) {| s with shutdown_once := true; closing := true; state_ := transport_closing |} in
    if on_io_thread then shutdown_on_io_thread s else {| s with tasks := tasks s ++ [TaskShutdown] |}.

(** [connect]; the thread of an owned context starts before it runs the strand. *)
Definition ws_connect (url : bstr) (s : websocket) : outcome websocket :=
  if closing s then Ok s
  else
    u ← parse_ws_url url;
    let s := {| s with url_ := Some u; state_ := transport_connecting |} in
    Ok {| s with tasks := if owned s then TaskStart :: tasks s else tasks s ++ [TaskStart] |}.

(** [send] *)
Definition ws_send (payload : bstr) (is_binary : bool) (s : websocket) : websocket :=
  {| s with tasks := tasks s ++ [TaskWrite payload is_binary] |}.

Definition run_task (t : ws_task) (s : websocket) : websocket :=
  match t with
  | TaskStart => ws_start s
  | TaskWrite payload is_binary => queue_write payload is_binary s
  | TaskShutdown => shutdown_on_io_thread s
  end.

(** ** The system *)

(** The strand runs its next function, a completion handler, or goes on inside
    one.  The thread of an owned context exists once [connect] was called. *)
Inductive ws_runs : websocket -> websocket -> Prop :=
  | ws_task_step t ts s :
      continuation s = None -> tasks s = t :: ts -> owned s = false \/ url_ s <> None ->
      ws_runs s (run_task t {| s with tasks := ts |})
  | ws_completion_step ops1 op ops2 r s :
      continuation s = None -> pending s = ops1 ++ op :: ops2 -> possible op r ->
      ws_runs s (on_completed op r {| s with pending := ops1 ++ ops2 |})
  | ws_continuation_step k s :
      continuation s = Some k -> (forall k', k <> KUser k') -> ws_runs s (run_continuation k s)
  | ws_return_step k s : continuation s = Some (KUser k) -> ws_runs s (after_user k s).

(** Other threads and user handlers call the methods; a user handler may throw,
    which ends the handler (and, on an owned context, the program).  A session
    connects its transport once. *)
Inductive ws_step : websocket -> websocket -> Prop :=
  | ws_run_step s s' : ws_runs s s' -> ws_step s s'
  | ws_connect_step url s s' : url_ s = None -> ws_connect url s = Ok s' -> ws_step s s'
  | ws_send_step payload is_binary s : ws_step s (ws_send payload is_binary s)
  | ws_close_step s : ws_step s (ws_close false s)
  | ws_close_in_handler_step k s : continuation s = Some (KUser k) -> ws_step s (ws_close true s)
  | ws_throw_step k s :
      continuation s = Some (KUser k) -> owned s = false -> ws_step s {| s with continuation := None |}.

Definition outputs_of (evs : list ws_event) : list output :=
  omap (fun ev => match ev with WOut o => Some o | _ => None end) evs.

#[export] Instance websocket_transport : TransportSystem websocket := {|
  t_initial := fun s => exists owned proxy, s = new_websocket owned proxy;
  t_step := ws_step;
  t_outputs := fun s => outputs_of (history s);
|}.
