(* ===== verification/WebsocketSpec.v ===== *)
(** * The WebSocket transport: properties

    The transport keeps the contract of the interface, by a simulation with the
    automaton of the contract; then the write queue, shutdown, the connection
    sequence and its deadline. *)

From S2P Require Export Websocket.
From stdpp Require Import options.
#[local] Set Default Proof Using "Type*".
Local Open Scope Z_scope.

(** ** One chain of operations

    At any time at most one of the following exists: the posted start, an operation
    of the connection sequence, a read, the handler of one of these.  The stage says
    which part of the contract it stands for. *)
Inductive stage : Type := SBefore | SOpen | SOver | SImpossible.

Definition op_stage (op : ws_op) : list stage :=
  match op with OpWrite _ _ => [] | OpRead => [SOpen] | _ => [SBefore] end.

Definition task_stage (t : ws_task) : list stage := match t with TaskStart => [SBefore] | _ => [] end.

Definition call_stage (o : output) (k : ws_after) : list stage :=
  match o, k with
  | TOpen, AfterOpen => [SBefore]
  | TMessage _ _, AfterMessage => [SOpen]
  | TError _, AfterError => [SOver]
  | TError _, AfterWriteError => []
  | TClose _, AfterClose => [SOpen]
  | _, _ => [SImpossible]
  end.

Definition continuation_stage (k : ws_continuation) : list stage :=
  match k with
  | KFail _ k => call_stage (TError []) k
  | KOpened => [SBefore]
  | KLost _ => [SOpen]
  | KCall o k => call_stage o k
  | KUser (AfterOpen | AfterMessage) => [SOpen]
  | KUser AfterWriteError => []
  | KUser _ => [SOver]
  end.

Definition stages (s : websocket) : list stage :=
  (tasks s ≫= task_stage) ++ (pending s ≫= op_stage) ++ from_option continuation_stage [] (continuation s).

Definition stage_ok (c : contract) (st : stage) : Prop :=
  match st with
  | SBefore => c_opened c = false /\ c_closed c = false
  | SOpen => c_opened c = true /\ c_closed c = false
  | SOver => True
  | SImpossible => False
  end.

Definition stages_ok (c : contract) (l : list stage) : Prop := (length l <= 1)%nat /\ Forall (stage_ok c) l.

#[export] Instance stages_ok_proper c : Proper ((≡ₚ) ==> iff) (stages_ok c).
Proof. intros l1 l2 E. unfold stages_ok. by rewrite E. Qed.

(** The one stage there is may be replaced. *)
Lemma stages_ok_replace c c' x y l :
  stages_ok c (x :: l) -> (stage_ok c x -> Forall (stage_ok c') y) -> (length y <= 1)%nat -> stages_ok c' (y ++ l).
Proof.
  intros [Hlen [Hx Hl]%Forall_cons] Hy Hly. cbn in Hlen. destruct l; [|cbn in Hlen; lia].
  rewrite app_nil_r. by split; [|apply Hy].
Qed.

Lemma stages_ok_drop c x l : stages_ok c (x ++ l) -> stages_ok c l.
Proof. intros [Hlen [_ Hl]%Forall_app]. rewrite length_app in Hlen. split; [lia|done]. Qed.

(** ** The simulation *)

(** Continuations that will call a handler whatever happens, or may. *)
Definition calls (k : option ws_continuation) : bool :=
  match k with None | Some (KUser _) => false | _ => true end.

Record simulates (s : websocket) (c : contract) : Prop := mk_simulates {
  sim_closing : c_closing c = closing s;
  sim_once : shutdown_once s = closing s;
  sim_stages : stages_ok c (stages s);
  sim_unconnected : url_ s = None -> stages s = [] /\ c_opened c = false /\ c_closed c = false;
  sim_late : c_late c = true \/ c_late_error c = true -> closing s = true /\ calls (continuation s) = false;
}.

Lemma stages_pending ops1 op ops2 s :
  continuation s = None -> pending s = ops1 ++ op :: ops2 ->
  stages s ≡ₚ op_stage op ++ stages {| s with pending := ops1 ++ ops2 |}.
Proof.
  intros Hk Hp. unfold stages; cbn. rewrite Hp, Hk, !bind_app. cbn. solve_Permutation.
Qed.

Lemma stages_begin op s : stages (begin op s) ≡ₚ op_stage op ++ stages s.
Proof. unfold stages, begin, record; cbn. rewrite bind_app. cbn. rewrite app_nil_r. solve_Permutation. Qed.

Lemma stages_continue k s : continuation s = None -> stages (continue_with k s) ≡ₚ continuation_stage k ++ stages s.
Proof. intros E. unfold stages, continue_with; cbn. rewrite E. cbn. solve_Permutation. Qed.

(** What handlers and posted functions do, seen from the contract: no call, and the
    stage they stand for goes on, is over, or disappears. *)
Record effect (st : list stage) (s s' : websocket) : Prop := mk_effect {
  eff_outputs : outputs_of (history s') = outputs_of (history s);
  eff_closing : closing s' = closing s;
  eff_once : shutdown_once s' = shutdown_once s;
  eff_url : url_ s' = url_ s;
  eff_stages : exists y, stages s' ≡ₚ y ++ stages s /\ (y = [] \/ y = st \/ (y = [SOver] /\ st <> []));
  eff_continuation : closing s = true -> continuation s' = continuation s;
}.

Lemma effect_id st s : effect st s s.
Proof. split; try done. exists []. by split; [|left]. Qed.

Lemma effect_begin st op s : op_stage op = st -> effect st s (begin op s).
Proof.
  intros <-. split; try done.
  - unfold begin, record; cbn. unfold outputs_of. rewrite omap_app. by rewrite app_nil_r.
  - exists (op_stage op). split; [apply stages_begin|by right; left].
Qed.

Lemma effect_continue st k s :
  continuation s = None -> closing s = false -> continuation_stage k = st \/ (continuation_stage k = [SOver] /\ st <> []) ->
  effect st s (continue_with k s).
Proof.
  intros Hk Hc Hst. split; try done; [|by rewrite Hc].
  exists (continuation_stage k). split; [by apply stages_continue|by right].
Qed.

(** Members the contract does not depend on. *)
Definition same_contract (s s' : websocket) : Prop :=
  history s' = history s /\ closing s' = closing s /\ shutdown_once s' = shutdown_once s /\ url_ s' = url_ s /\
  tasks s' = tasks s /\ pending s' = pending s /\ continuation s' = continuation s.

Lemma effect_after st s s1 s' : same_contract s s1 -> effect st s1 s' -> effect st s s'.
Proof.
  intros (E1 & E2 & E3 & E4 & E5 & E6 & E7) [F1 F2 F3 F4 F5 F6].
  assert (stages s1 = stages s) as Es by (unfold stages; by rewrite E5, E6, E7).
  split; [congruence..| |].
  - by rewrite <-Es.
  - rewrite <-E2, <-E7. done.
Qed.

Ltac same_members :=
  repeat match goal with x := _ |- _ => subst x end; unfold same_contract; cbn; split_and!; congruence.

Lemma pump_effect s : effect [] s (pump_write_queue s).
Proof.
  unfold pump_write_queue. destruct (closing s) eqn:Hc; [apply effect_id|].
  destruct (negb (stream s)); [eapply effect_after; [|apply effect_id]; same_members|].
  destruct (write_queue s) as [|[payload is_binary] q] eqn:Hq; [|by apply effect_begin].
  eapply effect_after; [|apply effect_id]; same_members.
Qed.

Lemma handshake_effect s : effect [SBefore] s (start_handshake s).
Proof. unfold start_handshake. apply effect_begin. by destruct (ws_tls s). Qed.

Lemma enqueue_effect payload is_binary s : effect [] s (enqueue payload is_binary s).
Proof.
  split; try done; [|exists []; by split; [|left]].
  unfold enqueue, record, outputs_of; cbn. rewrite omap_app. by rewrite app_nil_r.
Qed.

Lemma effect_trans s1 s2 s3 : effect [] s1 s2 -> effect [] s2 s3 -> effect [] s1 s3.
Proof.
  intros [E1 E2 E3 E4 (y1 & P1 & Hy1) E6] [F1 F2 F3 F4 (y2 & P2 & Hy2) F6]. split; [congruence..| |].
  - exists []. split; [|by left]. rewrite P2, P1. by destruct Hy1 as [->|[->|[_ []]]], Hy2 as [->|[->|[_ []]]].
  - intros Hc. rewrite F6 by congruence. by apply E6.
Qed.

Lemma queue_write_effect payload is_binary s : effect [] s (queue_write payload is_binary s).
Proof.
  unfold queue_write. destruct (closing s); [apply effect_id|].
  apply (effect_trans _ (enqueue payload is_binary s)); [apply enqueue_effect|].
  destruct (negb (write_in_progress (enqueue payload is_binary s)));
    (eapply effect_after; [|apply pump_effect || apply effect_id]); same_members.
Qed.

Lemma connected_effect s : effect [SBefore] s (connected_stream s).
Proof.
  unfold connected_stream.
  set (s1 := if ws_tls s then s else {| s with deadline := false |}).
  apply (effect_after _ s s1); [subst s1; by destruct (ws_tls s)|].
  destruct (proxy_ s1); [by apply effect_begin|apply handshake_effect].
Qed.

Lemma completed_effect op r s :
  continuation s = None -> possible op r -> effect (op_stage op) s (on_completed op r s).
Proof.
  intros Hk Hr. destruct op; cbn [on_completed op_stage];
    unfold on_resolved, on_connected, on_proxy_written, on_proxy_read, on_tls_handshake, on_handshake, on_read,
      on_written;
    (destruct (closing s) eqn:Hc; [apply effect_id|]); destruct r; cbn in Hr; try done;
    repeat case_match; try apply effect_id;
    try (by apply effect_continue; [done..|auto]); try (by apply effect_begin);
    try (by apply handshake_effect); try (by apply connected_effect);
    try (eapply effect_after; [|first [apply pump_effect | apply handshake_effect | by apply effect_begin
                                      | apply effect_continue; [done..|auto]]]; same_members).
Qed.

(** A step that makes no call is followed by the automaton standing still. *)
Definition followed (s s' : websocket) (c : contract) : Prop :=
  exists os c', outputs_of (history s') = outputs_of (history s) ++ os /\ contract_run c os = Some c' /\ simulates s' c'.

Lemma followed_silently s s' c :
  outputs_of (history s') = outputs_of (history s) -> simulates s' c -> followed s s' c.
Proof. intros E Hs. exists [], c. by rewrite app_nil_r. Qed.

Lemma effect_followed st s s1 s' c :
  simulates s c -> history s1 = history s -> closing s1 = closing s -> shutdown_once s1 = shutdown_once s ->
  url_ s1 = url_ s -> continuation s1 = None -> stages s ≡ₚ st ++ stages s1 -> effect st s1 s' -> followed s s' c.
Proof.
  intros [C O T U L] Eh Ec Eo Eu Ek Est [F1 F2 F3 F4 (y & Py & Hy) F6].
  apply followed_silently; [congruence|]. split; [congruence..| | |].
  - rewrite Py. rewrite Est in T. destruct Hy as [->|[->|[-> Hst]]]; [by eapply stages_ok_drop|done|].
    destruct st as [|x st]; [done|]. destruct T as [Tl Tf]. autorewrite with sioxx_len in Tl.
    split; [autorewrite with sioxx_len; lia|]. apply Forall_cons in Tf as [_ Tf]. apply Forall_app in Tf as [_ Tf].
    by constructor.
  - intros Hu. rewrite F4, Eu in Hu. destruct (U Hu) as (E & ? & ?). split; [|done].
    rewrite E in Est. apply Permutation_nil_l in Est.
    symmetry in Est. apply app_eq_nil in Est as [-> E1]. rewrite E1, app_nil_r in Py.
    destruct Hy as [->|[->|[_ []]]]; [..|done]; by apply Permutation_nil_r in Py.
  - intros Hl. destruct (L Hl) as [Hc Hk]. split; [congruence|]. rewrite F6, Ek by congruence. done.
Qed.

(** The step of a continuation that ends the handler, or makes its call. *)
Lemma stages_end k s : continuation s = Some k -> stages s ≡ₚ continuation_stage k ++ stages {| s with continuation := None |}.
Proof. intros E. unfold stages; cbn. rewrite E. cbn. rewrite app_nil_r. solve_Permutation. Qed.

(** The stage of the continuation is the only one. *)
Lemma simulates_stage k s c :
  simulates s c -> continuation s = Some k -> Forall (stage_ok c) (continuation_stage k).
Proof.
  intros Hs Hk. destruct (sim_stages s c Hs) as [_ Hf]. rewrite (stages_end k s Hk) in Hf.
  by apply Forall_app in Hf as [? _].
Qed.

Lemma continuation_alone k x s c :
  simulates s c -> continuation s = Some k -> continuation_stage k = [x] -> stages {| s with continuation := None |} = [].
Proof.
  intros Hs Hk Hx. destruct (sim_stages s c Hs) as [Hl _]. rewrite (stages_end k s Hk), Hx, length_app in Hl.
  destruct (stages _); [done|]. cbn [length] in Hl. lia.
Qed.

(** The handler goes on with a continuation of the same stage. *)
Lemma replaced_followed k k' s s' c :
  simulates s c -> continuation s = Some k -> calls (Some k) = true ->
  s' = continue_with k' {| s with state_ := state_ s' |} -> continuation_stage k' = continuation_stage k ->
  followed s s' c.
Proof.
  intros [C O T U L] Hk Hc -> Est. apply followed_silently; [done|].
  assert (stages (continue_with k' {| s with state_ := state_ s' |}) = stages s) as Es.
  { unfold stages; cbn. rewrite Hk. cbn. by rewrite Est. }
  split; [exact C|exact O|by rewrite Es|by rewrite Es|]. intros [_ Hn]%L. by rewrite Hk, Hc in Hn.
Qed.

(** The handler ends. *)
Lemma ended_followed k s s1 s' c :
  simulates s c -> continuation s = Some k -> s1 = {| s with continuation := None; state_ := state_ s1 |} ->
  effect (continuation_stage k) s1 s' -> followed s s' c.
Proof.
  intros Hs Hk -> He. eapply effect_followed; [exact Hs|..|exact He]; try done. exact (stages_end k s Hk).
Qed.

(** A call, when the automaton can follow it. *)
Lemma call_simulated o k s c c' :
  simulates s c -> continuation s = Some (KCall o k) -> contract_step c o = Some c' ->
  c_closing c' = c_closing c -> (c_late c' = true \/ c_late_error c' = true -> c_closing c = true) ->
  stages_ok c' (stages (run_continuation (KCall o k) s)) ->
  (url_ s = None -> call_stage o k = [] -> continuation_stage (KUser k) = [] /\ c_opened c' = c_opened c /\ c_closed c' = c_closed c) ->
  followed s (run_continuation (KCall o k) s) c.
Proof.
  intros [C O T U L] Hk E Hc Hl Hst Hu. exists [o], c'. split_and!.
  - cbn. unfold outputs_of. by rewrite omap_app.
  - cbn. by rewrite E.
  - split; cbn [run_continuation continue_with record closing shutdown_once url_ continuation]; [congruence|done|done| |].
    + intros Hn. destruct (U Hn) as (E1 & E2 & E3). pose proof (stages_end _ _ Hk) as P. rewrite E1 in P.
      apply Permutation_nil_l in P. symmetry in P. apply app_eq_nil in P as [P1 P2].
      destruct (Hu Hn P1) as (E4 & -> & ->). split; [|done].
      apply Permutation_nil_r. rewrite (stages_end (KUser k)) by done. rewrite E4. cbn [app].
      change (stages {| s with continuation := None |} ≡ₚ []). by rewrite P2.
    + intros Hlate. split; [rewrite <-C; by apply Hl|done].
Qed.

Lemma call_followed o k s c :
  simulates s c -> continuation s = Some (KCall o k) -> followed s (run_continuation (KCall o k) s) c.
Proof.
  intros Hs Hk. pose proof (simulates_stage _ s c Hs Hk) as Hst. cbn [continuation_stage] in Hst.
  assert (Hl : c_late c = false /\ c_late_error c = false).
  { split; [destruct (c_late c) eqn:E|destruct (c_late_error c) eqn:E]; try done;
      (destruct (sim_late s c Hs) as [_ Hn]; [by auto|by rewrite Hk in Hn]). }
  destruct Hl as [Hl He].
  assert (Hone : forall x c' y, call_stage o k = [x] -> continuation_stage (KUser k) = [y] -> stage_ok c' y ->
            stages_ok c' (stages (run_continuation (KCall o k) s))).
  { intros x c' y Hx Hy Hok. rewrite (stages_end (KUser k)) by done.
    change (stages_ok c' (continuation_stage (KUser k) ++ stages {| s with continuation := None |})).
    rewrite (continuation_alone _ x s c Hs Hk Hx), Hy. split; [cbn; lia|by repeat constructor]. }
  destruct o, k; cbn [call_stage] in Hst; try (by apply Forall_cons in Hst as [[] _]).
  - apply Forall_singleton in Hst as [Ho Hc].
    apply (call_simulated TOpen AfterOpen s c {| c with c_opened := true; c_late := c_closing c |} Hs Hk);
      cbn [contract_step c_closing c_late c_late_error]; rewrite ?Ho, ?Hl, ?He, ?andb_false_r; try done.
    + by intros [?|?].
    + by eapply Hone.
  - apply Forall_singleton in Hst as [Ho Hc].
    apply (call_simulated (TMessage payload is_binary) AfterMessage s c {| c with c_late := c_closing c |} Hs Hk);
      cbn [contract_step c_closing c_late c_late_error]; rewrite ?Ho, ?Hl, ?He, ?andb_false_r; try done.
    + by intros [?|?].
    + by eapply Hone.
  - apply (call_simulated (TError message) AfterWriteError s c {| c with c_late_error := c_closing c |} Hs Hk);
      cbn [contract_step c_closing c_late c_late_error]; rewrite ?Hl, ?He, ?andb_false_r; try done.
    + by intros [?|?].
    + destruct (sim_stages s c Hs) as [Tl Tf]. rewrite (stages_end _ _ Hk) in Tl, Tf.
      rewrite (stages_end (KUser AfterWriteError)) by done. by split.
  - apply (call_simulated (TError message) AfterError s c {| c with c_late_error := c_closing c |} Hs Hk);
      cbn [contract_step c_closing c_late c_late_error]; rewrite ?Hl, ?He, ?andb_false_r; try done.
    + by intros [?|?].
    + by eapply Hone.
  - apply Forall_singleton in Hst as [Ho Hc].
    apply (call_simulated (TClose reason) AfterClose s c {| c with c_closed := true |} Hs Hk);
      cbn [contract_step c_closing c_late c_late_error]; rewrite ?Hc, ?Hl, ?He; try done.
    + by intros [?|?].
    + by eapply Hone.
Qed.

Lemma shutdown_effect s : effect [] s (shutdown_on_io_thread s).
Proof.
  split; try done; [|exists []; by split; [|left]].
  unfold shutdown_on_io_thread, record, outputs_of; cbn. rewrite omap_app. cbn. by rewrite app_nil_r.
Qed.

Lemma task_followed t ts s c :
  simulates s c -> continuation s = None -> tasks s = t :: ts -> followed s (run_task t {| s with tasks := ts |}) c.
Proof.
  intros Hs Hk Ht. apply (effect_followed (task_stage t) s {| s with tasks := ts |}); try done.
  - unfold stages. cbn [tasks pending continuation]. by rewrite Ht, Hk, bind_cons, <-!app_assoc.
  - destruct t; cbn [run_task task_stage];
      [by apply effect_begin|apply queue_write_effect|apply shutdown_effect].
Qed.

Lemma completion_followed ops1 op ops2 r s c :
  simulates s c -> continuation s = None -> pending s = ops1 ++ op :: ops2 -> possible op r ->
  followed s (on_completed op r {| s with pending := ops1 ++ ops2 |}) c.
Proof.
  intros Hs Hk Hp Hr. eapply effect_followed; [exact Hs|..|by apply completed_effect]; try done.
  by apply stages_pending.
Qed.

Lemma return_followed k s c :
  simulates s c -> continuation s = Some (KUser k) -> followed s (after_user k s) c.
Proof.
  intros Hs Hk. apply (ended_followed (KUser k) s {| s with continuation := None |}); [done..|].
  destruct k; cbn [after_user continuation_stage];
    try (eapply effect_after; [|apply effect_id]; same_members);
    (destruct (closing {| s with continuation := None |});
      [eapply effect_after; [|apply effect_id]; same_members|by apply effect_begin]).
Qed.

(** Case analysis that leaves the record of the members alone. *)
Ltac case_closing s H := assert (closing s = true \/ closing s = false) as [H|H] by (by destruct (closing s); auto).

Lemma run_fail_closing what k s : closing s = true -> run_continuation (KFail what k) s = after_user k s.
Proof. intros H. cbn [run_continuation]. by rewrite H. Qed.

Lemma run_fail what k s :
  closing s = false ->
  run_continuation (KFail what k) s = continue_with (KCall (TError what) k) {| s with state_ := transport_closed |}.
Proof. intros H. cbn [run_continuation]. by rewrite H. Qed.

Lemma run_lost_closing reason s :
  closing s = true ->
  run_continuation (KLost reason) s = {| s with continuation := None; state_ := transport_closed |}.
Proof. intros H. cbn. by rewrite H. Qed.

Lemma run_lost reason s :
  closing s = false ->
  run_continuation (KLost reason) s = continue_with (KCall (TClose reason) AfterClose) {| s with state_ := transport_closed |}.
Proof. intros H. cbn. by rewrite H. Qed.

Lemma continuation_followed k s c :
  simulates s c -> continuation s = Some k -> (forall k', k <> KUser k') -> followed s (run_continuation k s) c.
Proof.
  intros Hs Hk Hu. pose proof (simulates_stage _ s c Hs Hk) as Hst. destruct k as [what k| |reason|o k|k].
  - case_closing s Hc.
    + rewrite (run_fail_closing what k s Hc).
      apply (ended_followed (KFail what k) s {| s with continuation := None |}); [done..|].
      destruct k; cbn [after_user]; rewrite ?Hc; try (eapply effect_after; [|apply effect_id]; same_members);
        by apply Forall_cons in Hst as [[] _].
    + rewrite (run_fail what k s Hc). by eapply (replaced_followed (KFail what k) (KCall (TError what) k)).
  - by eapply (replaced_followed KOpened (KCall TOpen AfterOpen)).
  - case_closing s Hc.
    + rewrite (run_lost_closing reason s Hc).
      eapply (ended_followed (KLost reason) s {| s with continuation := None; state_ := transport_closed |}); [done..|].
      apply effect_id.
    + rewrite (run_lost reason s Hc). by eapply (replaced_followed (KLost reason) (KCall (TClose reason) AfterClose)).
  - by apply call_followed.
  - by destruct (Hu k).
Qed.

Definition connecting (u : url_parts) (s : websocket) : websocket :=
  {| s with url_ := Some u; state_ := transport_connecting;
            tasks := if owned s then TaskStart :: tasks s else tasks s ++ [TaskStart] |}.

Lemma ws_connect_ok url s s' :
  ws_connect url s = Ok s' -> s' = s \/ exists u, s' = connecting u s.
Proof.
  unfold ws_connect. destruct (closing s) eqn:Hc; [intros [= <-]; by left|].
  intros (u & _ & [= <-])%outcome_bind_ok. right. exists u. unfold connecting. by rewrite Hc.
Qed.

Lemma connect_followed url s s' c :
  simulates s c -> url_ s = None -> ws_connect url s = Ok s' -> followed s s' c.
Proof.
  intros Hs Hu [->|[u ->]]%ws_connect_ok; [by apply followed_silently|].
  destruct Hs as [C O T U L]. destruct (U Hu) as (E & Ho & Hc).
  apply followed_silently; [done|]. split; [done|done| |done|done].
  assert (stages_ok c ([SBefore] ++ stages s)) as Hok by (rewrite E; split; [cbn; lia|by repeat constructor]).
  revert Hok. unfold stages, connecting; cbn [tasks pending continuation]. destruct (owned s); [done|].
  intros Hok. rewrite bind_app. change ([TaskStart] ≫= task_stage) with [SBefore].
  rewrite <-app_assoc, (app_assoc _ [SBefore]), (Permutation_app_comm _ [SBefore]), <-app_assoc. exact Hok.
Qed.

Lemma send_followed payload is_binary s c : simulates s c -> followed s (ws_send payload is_binary s) c.
Proof.
  intros [C O T U L]. apply followed_silently; [done|].
  assert (stages (ws_send payload is_binary s) = stages s) as Es.
  { unfold stages, ws_send; cbn [tasks pending continuation]. rewrite bind_app. cbn. by rewrite app_nil_r. }
  split; [done|done|by rewrite Es|by rewrite Es|done].
Qed.

(** Shutdown begins. *)
Definition shutting_down (s : websocket) : websocket :=
  record (WOut TShutdown) {| s with shutdown_once := true; closing := true; state_ := transport_closing |}.

Lemma ws_close_first b s :
  shutdown_once s = false ->
  ws_close b s = if b then shutdown_on_io_thread (shutting_down s)
                 else {| (shutting_down s) with tasks := tasks s ++ [TaskShutdown] |}.
Proof. intros E. unfold ws_close. rewrite E. by destruct b. Qed.

Lemma close_followed b s c :
  simulates s c -> (b = true -> exists k, continuation s = Some (KUser k)) -> followed s (ws_close b s) c.
Proof.
  intros Hs Hb. assert (shutdown_once s = true \/ shutdown_once s = false) as [Ho|Ho] by (destruct (shutdown_once s); auto).
  { unfold ws_close. rewrite Ho. by apply followed_silently. }
  destruct Hs as [C O T U L]. rewrite Ho in O.
  exists [TShutdown], {| c with c_closing := true |}.
  assert (Hout : outputs_of (history (ws_close b s)) = outputs_of (history s) ++ [TShutdown]).
  { rewrite (ws_close_first b s Ho). destruct b; cbn; unfold outputs_of; rewrite !omap_app; cbn; by rewrite ?app_nil_r. }
  assert (Hst : stages (ws_close b s) = stages s).
  { rewrite (ws_close_first b s Ho). destruct b; unfold stages; cbn [tasks pending continuation]; [done|].
    rewrite bind_app. cbn. by rewrite app_nil_r. }
  assert (closing (ws_close b s) = true /\ shutdown_once (ws_close b s) = true /\ url_ (ws_close b s) = url_ s) as (E1 & E2 & E3).
  { rewrite (ws_close_first b s Ho). by destruct b. }
  split; [done|]. split; [cbn; by rewrite C, <-O|].
  split; [done|congruence|by rewrite Hst|by rewrite Hst, E3|].
  intros [Hn _]%L. rewrite <-O in Hn. done.
Qed.

Lemma ws_step_followed s s' c : ws_step s s' -> simulates s c -> followed s s' c.
Proof.
  intros [? ? []|url ? ? Hu E|payload is_binary ?|?|k ? Hk|k ? Hk Hown] Hs.
  - by apply task_followed.
  - by eapply completion_followed.
  - by apply continuation_followed.
  - by apply return_followed.
  - by eapply connect_followed.
  - by apply send_followed.
  - by apply close_followed.
  - apply close_followed; [done|by exists k].
  - match goal with |- followed ?s _ _ => apply (ended_followed (KUser k) s {| s with continuation := None |}) end;
      [done..|apply effect_id].
Qed.

Lemma simulates_start o p : simulates (new_websocket o p) fresh_contract.
Proof. split; try done; cbn; [split; [cbn; lia|constructor]|by intros [?|?]]. Qed.

#[export] Instance websocket_contract : Transport websocket.
Proof.
  apply (simulation_transport simulates).
  - intros s (o & p & ->). split; [done|apply simulates_start].
  - intros s s' c Hstep Hs. by apply ws_step_followed.
Qed.

(** [C13] The WebSocket transport implements the contract of the transport interface:
    whatever the network, the user handlers and other threads do, the open handler is
    called at most once and before any message, the close handler at most once, and
    after shutdown has begun only calls that were on their way are still made. *)
Theorem websocket_refines_contract (s : websocket) : t_reachable s -> keeps_contract (outputs_of (history s)).
Proof. apply websocket_contract. Qed.

(** The automaton's view of a reachable transport. *)
Lemma ws_reachable_simulates s :
  t_reachable s -> exists c, contract_run fresh_contract (outputs_of (history s)) = Some c /\ simulates s c.
Proof.
  refine (simulated simulates _ _ s).
  - intros s0 (o & p & ->). split; [done|apply simulates_start].
  - intros s0 s' c Hstep Hs. by apply ws_step_followed.
Qed.
