(* ===== verification/WebsocketWrites.v ===== *)
(** * The WebSocket transport: write queue, shutdown, connection sequence *)

From S2P Require Export WebsocketSpec.
From stdpp Require Import options.
#[local] Set Default Proof Using "Type*".
Local Open Scope Z_scope.

(** ** The write queue *)

Abbreviation message := (bstr * bool)%type.

(** Messages that entered the queue, and those whose write was started, in order;
    the writes in progress. *)
Definition accepted (s : websocket) : list message :=
  omap (fun ev => match ev with WAccepted m b => Some (m, b) | _ => None end) (history s).
Definition started (s : websocket) : list message :=
  omap (fun ev => match ev with WStarted (OpWrite m b) => Some (m, b) | _ => None end) (history s).
Definition write_message (op : ws_op) : option message := match op with OpWrite m b => Some (m, b) | _ => None end.
Definition writes (s : websocket) : list message := omap write_message (pending s).

(** Messages in the queue that are not being written. *)
Definition waiting (s : websocket) : list message :=
  match writes s with [] => write_queue s | _ => tail (write_queue s) end.

Definition after_write_error (k : option ws_continuation) : bool :=
  match k with
  | Some (KFail _ AfterWriteError) | Some (KCall _ AfterWriteError) | Some (KUser AfterWriteError) => true
  | _ => false
  end.

Record writes_inv (s : websocket) : Prop := mk_writes_inv {
  wi_one : (length (writes s) <= 1)%nat;
  wi_order : closing s = false -> accepted s = started s ++ waiting s;
  wi_busy : forall m, closing s = false -> writes s = [m] -> write_in_progress s = true /\ head (write_queue s) = Some m;
  wi_failed : closing s = false -> after_write_error (continuation s) = true -> writes s = [];
  wi_prefix : exists rest, accepted s = started s ++ rest;
  wi_shutdown : TaskShutdown ∈ tasks s -> closing s = true;
}.

(** What the invariant is about stays the same. *)
Record same_writes (s s' : websocket) : Prop := mk_same_writes {
  sw_accepted : accepted s' = accepted s;
  sw_started : started s' = started s;
  sw_writes : writes s' = writes s;
  sw_queue : write_queue s' = write_queue s;
  sw_busy : write_in_progress s' = write_in_progress s;
  sw_closing : closing s' = closing s;
  sw_tasks : forall t, t ∈ tasks s' -> t = TaskShutdown -> TaskShutdown ∈ tasks s;
}.

Lemma writes_inv_same s s' :
  same_writes s s' -> (after_write_error (continuation s') = true -> after_write_error (continuation s) = true) ->
  writes_inv s -> writes_inv s'.
Proof.
  intros [E1 E2 E3 E4 E5 E6 E7] Hk [O Or B F P S].
  split; unfold waiting; rewrite ?E1, ?E2, ?E3, ?E4, ?E5, ?E6; auto.
  intros Ht. apply S. by eapply E7.
Qed.

(** Starting another operation than a write. *)
Lemma begin_same op s : op_stage op <> [] -> same_writes s (begin op s).
Proof.
  intros Hop. unfold begin, record. split; cbn; try done; [| | |by intros ? ? ->];
    unfold accepted, started, writes; cbn; rewrite omap_app; destruct op; cbn; by rewrite ?app_nil_r.
Qed.

Lemma same_writes_trans s1 s2 s3 : same_writes s1 s2 -> same_writes s2 s3 -> same_writes s1 s3.
Proof.
  intros [E1 E2 E3 E4 E5 E6 E7] [F1 F2 F3 F4 F5 F6 F7]. split; [congruence..|].
  intros t Ht ->. eapply E7; [by eapply F7|done].
Qed.

(** Members the write queue does not depend on. *)
Definition same_queue (s s' : websocket) : Prop :=
  history s' = history s /\ pending s' = pending s /\ write_queue s' = write_queue s /\
  write_in_progress s' = write_in_progress s /\ closing s' = closing s /\ tasks s' = tasks s.

Lemma same_queue_writes s s' : same_queue s s' -> same_writes s s'.
Proof.
  intros (E1 & E2 & E3 & E4 & E5 & E6). unfold accepted, started, writes. split; unfold accepted, started, writes;
    rewrite ?E1, ?E2, ?E3, ?E4, ?E5, ?E6; try done. by intros ? ? ->.
Qed.

(** Nothing is being written and the queue holds what was accepted and not written. *)
Record ready_to_write (s : websocket) : Prop := mk_ready_to_write {
  rw_none : writes s = [];
  rw_order : closing s = false -> accepted s = started s ++ write_queue s;
  rw_prefix : exists rest, accepted s = started s ++ rest;
  rw_shutdown : TaskShutdown ∈ tasks s -> closing s = true;
}.

Lemma ready_inv s : ready_to_write s -> writes_inv s.
Proof.
  intros [N O P S]. split; unfold waiting; rewrite ?N; try done. cbn; lia.
Qed.

Lemma inv_ready s : writes_inv s -> writes s = [] -> ready_to_write s.
Proof.
  intros [O Or B F P S] N. unfold waiting in Or. rewrite N in Or. by split.
Qed.

Lemma begin_write_inv payload is_binary q s :
  ready_to_write s -> closing s = false -> write_queue s = (payload, is_binary) :: q -> write_in_progress s = true ->
  continuation s = None -> writes_inv (begin (OpWrite payload is_binary) s).
Proof.
  intros [N O P S] Hc Hq Hw Hk.
  assert (Ew : writes (begin (OpWrite payload is_binary) s) = [(payload, is_binary)]).
  { unfold writes in *; cbn. by rewrite omap_app, N. }
  assert (Es : started (begin (OpWrite payload is_binary) s) = started s ++ [(payload, is_binary)]).
  { unfold started; cbn. by rewrite omap_app. }
  assert (Ea : accepted (begin (OpWrite payload is_binary) s) = accepted s).
  { unfold accepted; cbn. rewrite omap_app. cbn. by rewrite app_nil_r. }
  assert (Hall : accepted s = (started s ++ [(payload, is_binary)]) ++ q) by (rewrite O, Hq by done; by rewrite <-app_assoc).
  split; unfold waiting; rewrite ?Ew, ?Es, ?Ea; cbn; rewrite ?Hq, ?Hw, ?Hk, ?Hc; try done.
  - by intros m _ [= <-].
  - by exists q.
  - intros Ht%S. congruence.
Qed.

Lemma pump_inv s :
  ready_to_write s -> write_in_progress s = true -> continuation s = None -> writes_inv (pump_write_queue s).
Proof.
  intros Hs Hw Hk. unfold pump_write_queue. case_closing s Hc; [rewrite Hc at 1; by apply ready_inv|rewrite Hc at 1].
  destruct (negb (stream s)); [by apply ready_inv; destruct Hs|].
  destruct (write_queue s) as [|[payload is_binary] q] eqn:Hq; [|by eapply begin_write_inv].
  apply ready_inv. by destruct Hs.
Qed.

Lemma queue_write_inv payload is_binary s :
  writes_inv s -> continuation s = None -> writes_inv (queue_write payload is_binary s).
Proof.
  intros Hs Hk. unfold queue_write. case_closing s Hc; rewrite Hc at 1; [done|].
  set (s1 := enqueue payload is_binary s).
  assert (Ea : accepted s1 = accepted s ++ [(payload, is_binary)]) by (unfold accepted; cbn; by rewrite omap_app).
  assert (Es : started s1 = started s) by (unfold started; cbn; rewrite omap_app; cbn; by rewrite app_nil_r).
  destruct Hs as [O Or B F P S].
  assert (Hp : exists rest, accepted s1 = started s1 ++ rest).
  { rewrite Ea, Es. destruct P as [rest ->]. eexists. by rewrite <-app_assoc. }
  specialize (Or Hc).
  assert (Hbool : write_in_progress s = true \/ write_in_progress s = false) by (destruct (write_in_progress s); auto).
  destruct Hbool as [Hw|Hw].
  - replace (negb (write_in_progress s1)) with false by (cbn; by rewrite Hw).
    assert (Hq : waiting (set_writing true s1) = waiting s ++ [(payload, is_binary)]).
    { unfold waiting. change (writes (set_writing true s1)) with (writes s). cbn.
      destruct (writes s) as [|m [|]] eqn:Ew; [done| |cbn in O; lia].
      destruct (B m Hc eq_refl) as [_ Hh]. by destruct (write_queue s). }
    split; rewrite ?Hq; try done.
    + intros _. change (accepted s1 = started s1 ++ (waiting s ++ [(payload, is_binary)])).
      by rewrite Ea, Es, Or, app_assoc.
    + intros m _ Ew. destruct (B m Hc Ew) as [_ Hh]. cbn. split; [done|]. by destruct (write_queue s).
  - replace (negb (write_in_progress s1)) with true by (cbn; by rewrite Hw).
    assert (Hn : writes s = []).
    { destruct (writes s) as [|m [|]] eqn:Ew; [done| |cbn in O; lia]. destruct (B m Hc eq_refl). congruence. }
    apply pump_inv; [|done|done]. split; try done.
    intros _. change (accepted s1 = started s1 ++ (write_queue s ++ [(payload, is_binary)])).
    unfold waiting in Or. rewrite Hn in Or. by rewrite Ea, Es, Or, app_assoc.
Qed.

(** An operation other than a write completes. *)
Lemma remove_op_writes ops1 op ops2 s :
  pending s = ops1 ++ op :: ops2 -> op_stage op <> [] -> same_writes s {| s with pending := ops1 ++ ops2 |}.
Proof.
  intros Hp Hop. split; try done; [|by intros ? ? ->].
  unfold writes; cbn. rewrite Hp, !omap_app. by destruct op.
Qed.

Lemma completed_same op r s :
  op_stage op <> [] -> continuation s = None ->
  same_writes s (on_completed op r s) /\ after_write_error (continuation (on_completed op r s)) = false.
Proof.
  intros Hop Hk.
  assert (Hid : same_writes s s) by (apply same_queue_writes; by split_and!).
  assert (Hstart : forall s1, same_queue s s1 -> continuation s1 = None -> forall op', op_stage op' <> [] ->
            same_writes s (begin op' s1) /\ after_write_error (continuation (begin op' s1)) = false).
  { intros s1 H1 H2 op' H3. split; [|cbn; by rewrite H2].
    eapply same_writes_trans; [by apply same_queue_writes|by apply begin_same]. }
  assert (Hcont : forall s1 k, same_queue s s1 -> after_write_error (Some k) = false ->
            same_writes s (continue_with k s1) /\ after_write_error (continuation (continue_with k s1)) = false).
  { intros s1 k H1 H2. split; [|done]. by apply same_queue_writes. }
  assert (Hhand : forall s1, same_queue s s1 -> continuation s1 = None ->
            same_writes s (start_handshake s1) /\ after_write_error (continuation (start_handshake s1)) = false).
  { intros s1 H1 H2. unfold start_handshake. apply Hstart; [done|done|]. by destruct (ws_tls s1). }
  destruct op; cbn [on_completed]; try done;
    unfold on_resolved, on_connected, connected_stream, on_proxy_written, on_proxy_read, on_tls_handshake,
      on_handshake, on_read;
    (destruct (closing s) eqn:Hc; [by rewrite Hk|]); destruct r; repeat case_match;
    first [by rewrite Hk | apply Hcont; [|done] | apply Hhand; [|done] | apply Hstart; [|done|done]];
    unfold same_queue; cbn; split_and!; congruence.
Qed.

Lemma completion_inv ops1 op ops2 r s :
  writes_inv s -> continuation s = None -> pending s = ops1 ++ op :: ops2 ->
  writes_inv (on_completed op r {| s with pending := ops1 ++ ops2 |}).
Proof.
  intros Hs Hk Hp. set (s1 := {| s with pending := ops1 ++ ops2 |}).
  destruct op as [| | | | | | |m b].
  all: try (assert (Hop : writes_inv s1) by (eapply writes_inv_same; [by eapply remove_op_writes|done|done]);
    match goal with |- writes_inv (on_completed ?op _ _) =>
      destruct (completed_same op r s1) as [Hsame Hf]; [done|done|];
      eapply writes_inv_same; [exact Hsame|by rewrite Hf|done] end).
  assert (Hn : writes s1 = [] /\ writes s = [(m, b)]).
  { pose proof (wi_one s Hs) as Ho.
    assert (E1 : writes s1 = omap write_message ops1 ++ omap write_message ops2) by (unfold writes; cbn; by rewrite omap_app).
    assert (E2 : writes s = omap write_message ops1 ++ (m, b) :: omap write_message ops2).
    { unfold writes. by rewrite Hp, omap_app. }
    rewrite E1, E2 in *. destruct (omap write_message ops1), (omap write_message ops2); [done|..];
      rewrite length_app in Ho; cbn in Ho; lia. }
  destruct Hn as [Hn Hm]. destruct Hs as [O Or B F P S]. cbn [on_completed]. unfold on_written.
  case_closing s1 Hc; rewrite Hc at 1.
  - apply ready_inv. split; try done. intros Hc'. congruence.
  - destruct (B (m, b) Hc Hm) as [Hw Hh].
    set (s2 := {| s1 with write_queue := tail (write_queue s1) |}).
    assert (Hr : ready_to_write s2).
    { split; try done. intros _. unfold waiting in Or. rewrite Hm in Or. by apply Or. }
    destruct r; try (by apply pump_inv). apply ready_inv in Hr as [O' Or' B' F' P' S'].
    split; try done.
Qed.

Lemma continuation_inv k s : writes_inv s -> continuation s = Some k -> (forall k', k <> KUser k') -> writes_inv (run_continuation k s).
Proof.
  intros Hs Hk Hu. destruct k as [what k| |reason|o k|k]; [..|by destruct (Hu k)].
  - case_closing s Hc.
    + rewrite (run_fail_closing what k s Hc). destruct Hs as [O Or B F P S].
      destruct k; cbn [after_user]; rewrite ?Hc; split; try done; cbn; congruence.
    + rewrite (run_fail what k s Hc). refine (writes_inv_same _ _ _ _ Hs); [by apply same_queue_writes| ].
      cbn. rewrite Hk. by destruct k.
  - refine (writes_inv_same _ _ _ _ Hs); [by apply same_queue_writes|done].
  - case_closing s Hc; [rewrite (run_lost_closing reason s Hc)|rewrite (run_lost reason s Hc)];
      (refine (writes_inv_same _ _ _ _ Hs); [by apply same_queue_writes|done]).
  - refine (writes_inv_same _ _ _ _ Hs); [|cbn; rewrite Hk; by destruct k].
    split; try done; [| |by intros ? ? ->]; unfold accepted, started; cbn; rewrite omap_app; cbn; by rewrite app_nil_r.
Qed.

Lemma return_inv k s : writes_inv s -> continuation s = Some (KUser k) -> writes_inv (after_user k s).
Proof.
  intros Hs Hk. set (s1 := {| s with continuation := None |}).
  assert (Hs1 : writes_inv s1).
  { refine (writes_inv_same _ _ _ _ Hs); [by apply same_queue_writes|done]. }
  destruct k; cbn [after_user]; fold s1; try done.
  1-2: destruct (closing s1); [done|]; (refine (writes_inv_same _ _ _ _ Hs1); [by apply begin_same|done]).
  destruct Hs as [O Or B F P S]. split; try done.
  cbn. intros m Hc Hm. pose proof (F Hc) as Hn. rewrite Hk in Hn. specialize (Hn eq_refl).
  unfold writes in *; cbn in Hm. congruence.
Qed.

Lemma close_inv b s : writes_inv s -> writes_inv (ws_close b s).
Proof.
  intros Hs. assert (shutdown_once s = true \/ shutdown_once s = false) as [Ho|Ho] by (destruct (shutdown_once s); auto).
  { unfold ws_close. by rewrite Ho. }
  rewrite (ws_close_first b s Ho).
  assert (Ea : accepted (ws_close b s) = accepted s /\ started (ws_close b s) = started s).
  { rewrite (ws_close_first b s Ho). unfold accepted, started. destruct b; cbn; rewrite !omap_app; cbn; by rewrite ?app_nil_r. }
  rewrite (ws_close_first b s Ho) in Ea. destruct Ea as [Ea Es].
  destruct Hs as [O Or B F P S].
  split; try (by destruct b). by rewrite Ea, Es.
Qed.

Lemma ws_runs_writes s s' : ws_runs s s' -> writes_inv s -> writes_inv s'.
Proof.
  intros [t ts s1 Hk Ht _|ops1 op ops2 r s1 Hk Hp _|k s1 Hk Hu|k s1 Hk] Hs;
    [|by eapply completion_inv|by apply continuation_inv|by apply return_inv].
  assert (Hs1 : writes_inv {| s1 with tasks := ts |}).
  { refine (writes_inv_same _ _ _ _ Hs); [|done]. split; try done. intros t' Ht' ->. rewrite Ht. by right. }
  destruct t; cbn [run_task].
  - refine (writes_inv_same _ _ _ _ Hs1); [by apply begin_same|done].
  - by apply queue_write_inv.
  - assert (Hc : closing s1 = true) by (apply (wi_shutdown s1 Hs); rewrite Ht; by left).
    destruct Hs1 as [O Or B F P S]. split; try done; try (intros; cbn in *; congruence).
    unfold accepted, started in *; cbn. rewrite !omap_app; cbn. by rewrite !app_nil_r.
Qed.

Lemma ws_step_writes s s' : ws_step s s' -> writes_inv s -> writes_inv s'.
Proof.
  intros [s1 s2 Hr|url s1 s2 _ E|payload is_binary s1|s1|k s1 Hk|k s1 Hk Hown] Hs.
  - by eapply ws_runs_writes.
  - apply ws_connect_ok in E as [->|[u ->]]; [done|].
    refine (writes_inv_same _ _ _ _ Hs); [|done]. split; try done. unfold connecting; cbn.
    intros t Ht ->. destruct (owned s1); [by apply elem_of_cons in Ht as [?|?]|].
    by apply elem_of_app in Ht as [?|?%list_elem_of_singleton].
  - refine (writes_inv_same _ _ _ _ Hs); [|done]. split; try done. unfold ws_send; cbn.
    intros t Ht ->. by apply elem_of_app in Ht as [?|?%list_elem_of_singleton].
  - by apply close_inv.
  - by apply close_inv.
  - refine (writes_inv_same _ _ _ _ Hs); [by apply same_queue_writes|done].
Qed.

Lemma ws_reachable_writes s : t_reachable s -> writes_inv s.
Proof.
  intros (s0 & (o & p & ->) & Hs). revert s Hs. apply invariant_rtc.
  - split; try done; cbn; [lia|by exists []|by intros ?%elem_of_nil].
  - intros s s' Hstep Hinv. by eapply ws_step_writes.
Qed.

(** [C14] Messages are written in the order [send] queued them, each once and one at
    a time, whatever completes in between; as long as shutdown has not begun, the ones
    not yet written are exactly those still in the queue. *)
Theorem websocket_writes_in_order (s : websocket) :
  t_reachable s ->
  (length (writes s) <= 1)%nat /\
  exists rest, accepted s = started s ++ rest /\ (closing s = false -> rest = waiting s).
Proof.
  intros Hs. pose proof (ws_reachable_writes s Hs) as [O Or B F P S]. split; [done|].
  case_closing s Hc.
  - destruct P as [rest E]. exists rest. split; [done|]. congruence.
  - exists (waiting s). by split; [apply Or|].
Qed.

(** ** Shutdown *)

(** The state shutdown leaves behind. *)
Record shut_down (s : websocket) : Prop := mk_shut_down {
  sd_closing : closing s = true;
  sd_once : shutdown_once s = true;
  sd_state : state_ s = transport_closed;
  sd_queue : write_queue s = [];
  sd_continuation : calls (continuation s) = false;
}.

(** What a closed transport has done stays as it is. *)
Definition same_past (s s' : websocket) : Prop :=
  outputs_of (history s') = outputs_of (history s) /\ started s' = started s.

Lemma same_past_record ev s s1 :
  history s1 = history s -> (forall o, ev <> WOut o) -> (forall m b, ev <> WStarted (OpWrite m b)) ->
  same_past s (record ev s1).
Proof.
  intros E H1 H2. unfold same_past, started, outputs_of, record; cbn. rewrite E, !omap_app.
  destruct ev; cbn; rewrite ?app_nil_r; try done.
  - by destruct (H1 o).
  - destruct op; try (by rewrite app_nil_r). by destruct (H2 payload is_binary).
Qed.

Lemma shut_down_runs s s' : ws_runs s s' -> shut_down s -> shut_down s' /\ same_past s s'.
Proof.
  intros [t ts s1 Hk Ht _|ops1 op ops2 r s1 Hk Hp _|k s1 Hk Hu|k s1 Hk] [C O S Q K].
  - destruct t; cbn [run_task].
    + split; [by split|]. by apply same_past_record.
    + unfold queue_write; cbn. rewrite C. by split; [split|].
    + split; [by split; cbn; try rewrite Hk|]. by apply same_past_record.
  - assert (on_completed op r {| s1 with pending := ops1 ++ ops2 |} = {| s1 with pending := ops1 ++ ops2 |}) as ->.
    { destruct op; cbn; unfold on_resolved, on_connected, on_proxy_written, on_proxy_read, on_tls_handshake,
        on_handshake, on_read, on_written; cbn; by rewrite C. }
    by split; [split|].
  - rewrite Hk in K. destruct k; try done. by destruct (Hu k).
  - destruct k; cbn [after_user]; cbn; rewrite ?C; by split; [split|].
Qed.

Lemma shut_down_step s s' : ws_step s s' -> shut_down s -> shut_down s' /\ same_past s s'.
Proof.
  intros [s1 s2 Hr|url s1 s2 _ E|payload is_binary s1|s1|k s1 Hk|k s1 Hk Hown] Hs; [by apply shut_down_runs|..].
  all: pose proof Hs as [C O S Q K].
  - unfold ws_connect in E. rewrite C in E. injection E as <-. done.
  - by split; [split|].
  - unfold ws_close. by rewrite O.
  - unfold ws_close. by rewrite O.
  - by split; [split|].
Qed.

Lemma shut_down_final s s' : shut_down s -> rtc ws_step s s' -> shut_down s' /\ same_past s s'.
Proof.
  intros Hs Hr. revert Hs. induction Hr as [s|s1 s2 s3 Hstep Hr IH]; intros Hs; [done|].
  destruct (shut_down_step _ _ Hstep Hs) as [Hs2 [E1 E2]]. destruct (IH Hs2) as [Hs3 [E3 E4]].
  split; [done|]. split; congruence.
Qed.

(** Shutdown, once begun, is waiting on the strand or done. *)
Definition closing_inv (s : websocket) : Prop :=
  shutdown_once s = closing s /\ (closing s = true -> TaskShutdown ∈ tasks s \/ shut_down s).

(** Handlers neither post functions nor begin shutdown. *)
Definition same_tasks (s s' : websocket) : Prop :=
  tasks s' = tasks s /\ closing s' = closing s /\ shutdown_once s' = shutdown_once s.

Lemma pump_tasks s : same_tasks s (pump_write_queue s).
Proof.
  unfold pump_write_queue. destruct (closing s) eqn:Hc; [done|]. destruct (negb (stream s)); [done|].
  by destruct (write_queue s) as [|[? ?] ?].
Qed.

Lemma completed_tasks op r s : same_tasks s (on_completed op r s).
Proof.
  destruct op; cbn [on_completed]; unfold on_resolved, on_connected, connected_stream,
    on_proxy_written, on_proxy_read, on_tls_handshake, on_handshake, on_read, on_written, start_handshake;
    case_closing s Hc; rewrite Hc at 1;
    try done; destruct r; repeat case_match; try done; apply (pump_tasks {| s with write_queue := tail (write_queue s) |}).
Qed.

Lemma queue_write_tasks payload is_binary s : same_tasks s (queue_write payload is_binary s).
Proof.
  unfold queue_write. case_closing s Hc; rewrite Hc at 1; [done|].
  destruct (negb (write_in_progress (enqueue payload is_binary s))); [|done].
  apply (pump_tasks (set_writing true (enqueue payload is_binary s))).
Qed.

Lemma continuation_tasks k s : same_tasks s (run_continuation k s).
Proof.
  destruct k as [what k| |reason|o k|k]; try done; cbn [run_continuation]; case_closing s Hc; cbn; rewrite ?Hc; try done.
  destruct k; cbn; rewrite ?Hc; try done.
Qed.

Lemma after_user_tasks k s : same_tasks s (after_user k s).
Proof.
  destruct k; try done; unfold after_user; cbn [closing]; case_closing s Hc; by rewrite Hc at 1.
Qed.

Lemma closing_inv_same s s' : same_tasks s s' -> (shut_down s -> shut_down s') -> closing_inv s -> closing_inv s'.
Proof.
  intros (E1 & E2 & E3) Hsd [O P]. split; [congruence|]. rewrite E1, E2. intros Hc. destruct (P Hc); auto.
Qed.

Lemma closing_inv_runs s s' : ws_runs s s' -> closing_inv s -> closing_inv s'.
Proof.
  intros Hr Hs. pose proof (fun H => proj1 (shut_down_runs s s' Hr H)) as Hsd. revert Hr Hs Hsd.
  intros [t ts s1 Hk Ht Ho|ops1 op ops2 r s1 Hk Hp Hr|k s1 Hk Hu|k s1 Hk] Hs Hsd.
  - destruct t; cbn [run_task] in *.
    + destruct Hs as [O P]. split; [done|]. intros Hc. destruct (P Hc) as [Hin|?]; [|by right; apply Hsd].
      left. rewrite Ht in Hin. by apply elem_of_cons in Hin as [?|?].
    + destruct (queue_write_tasks payload is_binary {| s1 with tasks := ts |}) as (E1 & E2 & E3).
      destruct Hs as [O P]. split; [by rewrite E2, E3|]. rewrite E1, E2. intros Hc.
      destruct (P Hc) as [Hin|?]; [|by right; apply Hsd].
      left. rewrite Ht in Hin. by apply elem_of_cons in Hin as [?|?].
    + destruct Hs as [O P]. split; [done|]. intros Hc. right. cbn in Hc. split; cbn; rewrite ?O, ?Hk; done.
  - refine (closing_inv_same s1 _ _ Hsd Hs). apply (completed_tasks op r {| s1 with pending := ops1 ++ ops2 |}).
  - refine (closing_inv_same s1 _ _ Hsd Hs). apply continuation_tasks.
  - refine (closing_inv_same s1 _ _ Hsd Hs). apply after_user_tasks.
Qed.

Lemma closing_inv_step s s' : ws_step s s' -> closing_inv s -> closing_inv s'.
Proof.
  intros Hr Hs. pose proof (fun H => proj1 (shut_down_step s s' Hr H)) as Hsd. revert Hr Hs Hsd.
  intros [s1 s2 Hr|url s1 s2 _ E|payload is_binary s1|s1|k s1 Hk|k s1 Hk Hown] Hs Hsd.
  - by eapply closing_inv_runs.
  - apply ws_connect_ok in E as [->|[u ->]]; [done|]. destruct Hs as [O P]. split; [done|].
    intros Hc. destruct (P Hc) as [Hin|?]; [|by right; apply Hsd]. left. unfold connecting; cbn.
    destruct (owned s1); [by right|]. apply elem_of_app. by left.
  - destruct Hs as [O P]. split; [done|]. intros Hc. destruct (P Hc) as [Hin|?]; [|by right; apply Hsd].
    left. unfold ws_send; cbn. apply elem_of_app. by left.
  - assert (shutdown_once s1 = true \/ shutdown_once s1 = false) as [Ho|Ho] by (destruct (shutdown_once s1); auto).
    { unfold ws_close. by rewrite Ho. }
    rewrite (ws_close_first false s1 Ho). split; [done|]. intros _. left. cbn. apply elem_of_app. right. by left.
  - assert (shutdown_once s1 = true \/ shutdown_once s1 = false) as [Ho|Ho] by (destruct (shutdown_once s1); auto).
    { unfold ws_close. by rewrite Ho. }
    rewrite (ws_close_first true s1 Ho). split; [done|]. intros _. right. split; try done. cbn. by rewrite Hk.
  - by refine (closing_inv_same s1 _ _ Hsd Hs).
Qed.

Lemma ws_reachable_closing s : t_reachable s -> closing_inv s.
Proof.
  intros (s0 & (o & p & ->) & Hs). revert s Hs. apply invariant_rtc; [by split|]. apply closing_inv_step.
Qed.

(** The strand can run: the caller runs the context, or [connect] started its thread. *)
Definition runs_handlers (s : websocket) : Prop := owned s = false \/ url_ s <> None.

(** What matters to the strand on its way to the shutdown function. *)
Definition on_the_way (s s' : websocket) : Prop :=
  tasks s' = tasks s /\ closing s' = true /\ shutdown_once s' = shutdown_once s /\ owned s' = owned s /\ url_ s' = url_ s.

Lemma after_user_closing k s :
  closing s = true -> on_the_way s (after_user k s) /\ continuation (after_user k s) = None.
Proof. intros Hc. destruct k; unfold after_user; cbn [closing]; rewrite ?Hc at 1; by repeat split. Qed.

Lemma handler_ends s :
  closing s = true -> exists s1, rtc ws_runs s s1 /\ continuation s1 = None /\ on_the_way s s1.
Proof.
  intros Hc.
  assert (Huser : forall k s, closing s = true -> continuation s = Some (KUser k) ->
            exists s1, rtc ws_runs s s1 /\ continuation s1 = None /\ on_the_way s s1).
  { intros k s0 Hc0 Hk0. destruct (after_user_closing k s0 Hc0) as [Hw Hn].
    exists (after_user k s0). split; [|done]. by apply rtc_once, ws_return_step. }
  assert (Hcall : forall o k s, closing s = true -> continuation s = Some (KCall o k) ->
            exists s1, rtc ws_runs s s1 /\ continuation s1 = None /\ on_the_way s s1).
  { intros o k s0 Hc0 Hk0. destruct (Huser k (run_continuation (KCall o k) s0)) as (s1 & Hr & Hn & Hw); [done..|].
    exists s1. split; [|done]. eapply rtc_l; [|exact Hr]. by apply ws_continuation_step. }
  destruct (continuation s) as [[what k| |reason|o k|k]|] eqn:Hk; [| | |by eapply Hcall|by eapply Huser|].
  - destruct (after_user_closing k s Hc) as [Hw Hn]. exists (after_user k s). split; [|done].
    rewrite <-(run_fail_closing what k s Hc). by apply rtc_once, ws_continuation_step.
  - destruct (Hcall TOpen AfterOpen (run_continuation KOpened s)) as (s1 & Hr & Hn & Hw); [done..|].
    exists s1. split; [|done]. eapply rtc_l; [|exact Hr]. by apply ws_continuation_step.
  - exists (run_continuation (KLost reason) s). split; [by apply rtc_once, ws_continuation_step|].
    by rewrite (run_lost_closing reason s Hc).
  - exists s. split; [done|]. by repeat split.
Qed.

Lemma tasks_run l s :
  tasks s = l -> TaskShutdown ∈ l -> closing s = true -> shutdown_once s = true -> continuation s = None ->
  runs_handlers s -> exists s1, rtc ws_runs s s1 /\ shut_down s1.
Proof.
  revert s. induction l as [|t l IH]; intros s Ht Hin Hc Ho Hk Hrun; [by apply elem_of_nil in Hin|].
  assert (Hstep : ws_runs s (run_task t {| s with tasks := l |})) by by apply ws_task_step.
  destruct t; cbn [run_task] in Hstep.
  - destruct (IH (ws_start {| s with tasks := l |})) as (s1 & Hr & Hs1); try done.
    { by apply elem_of_cons in Hin as [?|?]. }
    exists s1. split; [|done]. by eapply rtc_l.
  - destruct (IH {| s with tasks := l |}) as (s1 & Hr & Hs1); try done.
    { by apply elem_of_cons in Hin as [?|?]. }
    exists s1. split; [|done]. eapply rtc_l; [exact Hstep|]. unfold queue_write; cbn [closing]. by rewrite Hc at 1.
  - exists (shutdown_on_io_thread {| s with tasks := l |}). split; [by apply rtc_once|].
    split; cbn; rewrite ?Hk; done.
Qed.

(** Once [close] was called the strand can always run the shutdown function,
    after returning from the user handler it is in, if any; from then on the
    transport is closed for good: its state stays closed, no handler is called and no
    write is started, whatever still completes or is called. *)
Theorem websocket_closes (s : websocket) :
  t_reachable s -> closing s = true -> runs_handlers s ->
  exists s1, rtc ws_runs s s1 /\
    forall s2, rtc ws_step s1 s2 ->
      state_ s2 = transport_closed /\ write_queue s2 = [] /\
      outputs_of (history s2) = outputs_of (history s1) /\ started s2 = started s1.
Proof.
  intros Hs Hc Hrun. destruct (ws_reachable_closing s Hs) as [Ho Hp].
  assert (Hgoal : exists s1, rtc ws_runs s s1 /\ shut_down s1).
  { destruct (Hp Hc) as [Hin|Hsd]; [|by exists s].
    destruct (handler_ends s Hc) as (s1 & Hr & Hk & E1 & E2 & E3 & E4 & E5).
    destruct (tasks_run (tasks s1) s1) as (s2 & Hr2 & Hs2); try done; [by rewrite E1|congruence|..].
    { unfold runs_handlers. by rewrite E4, E5. }
    exists s2. split; [|done]. by etrans. }
  destruct Hgoal as (s1 & Hr & Hsd). exists s1. split; [done|]. intros s2 Hr2.
  destruct (shut_down_final s1 s2 Hsd Hr2) as [[C O S Q K] [E1 E2]]. by split_and!.
Qed.

(** ** The deadline of the TCP stream *)

(** Whether the 15 second timer is armed while an operation is in progress: the TLS
    variant keeps it armed until the TLS handshake is over, the plain one only while
    it connects. *)
Definition deadline_of_op (tls : bool) (op : ws_op) : bool :=
  match op with
  | OpConnect | OpTlsHandshake => true
  | OpProxyWrite | OpProxyRead => tls
  | _ => false
  end.

Definition past_connecting (k : option ws_continuation) : bool :=
  match k with
  | Some (KOpened | KFail _ (AfterOpen | AfterMessage) | KCall _ (AfterOpen | AfterMessage)
          | KUser (AfterOpen | AfterMessage)) => true
  | _ => false
  end.

Record deadline_inv (s : websocket) : Prop := mk_deadline_inv {
  di_op : forall op, op ∈ pending s -> op_stage op <> [] -> deadline s = deadline_of_op (ws_tls s) op;
  di_handler : past_connecting (continuation s) = true -> deadline s = false;
  di_tls : OpTlsHandshake ∈ pending s -> ws_tls s = true;
  di_start : url_ s = None -> deadline s = false;
  di_posted : TaskStart ∈ tasks s -> deadline s = false;
}.

Lemma no_chain_of (ops : list ws_op) : ops ≫= op_stage = [] -> forall op, op ∈ ops -> op_stage op = [].
Proof.
  intros E op Hin. destruct (op_stage op) as [|x l] eqn:Eop; [done|].
  assert (Hx : x ∈ ops ≫= op_stage) by (apply list_elem_of_bind; exists op; rewrite Eop; split; [by left|done]).
  rewrite E in Hx. by apply elem_of_nil in Hx.
Qed.

Lemma no_start_of (ts : list ws_task) : ts ≫= task_stage = [] -> TaskStart ∉ ts.
Proof.
  intros E Hin. assert (Hx : SBefore ∈ ts ≫= task_stage) by (apply list_elem_of_bind; exists TaskStart; split; [by left|done]).
  rewrite E in Hx. by apply elem_of_nil in Hx.
Qed.

Lemma stages_one s : t_reachable s -> (length (stages s) <= 1)%nat.
Proof. intros Hs. destruct (ws_reachable_simulates s Hs) as (c & _ & Hsim). apply (sim_stages s c Hsim). Qed.

(** With the operation that completes removed, no other of the chain is left. *)
Lemma completed_alone ops1 op ops2 s :
  (length (stages s) <= 1)%nat -> continuation s = None -> pending s = ops1 ++ op :: ops2 -> op_stage op <> [] ->
  (forall op', op' ∈ ops1 ++ ops2 -> op_stage op' = []) /\ TaskStart ∉ tasks s.
Proof.
  intros Hl Hk Hp Hop. rewrite (stages_pending ops1 op ops2 s Hk Hp), length_app in Hl.
  assert (Hs : stages {| s with pending := ops1 ++ ops2 |} = []).
  { destruct (op_stage op) as [|x l]; [done|]. cbn [length] in Hl. by destruct (stages _); [|cbn in Hl; lia]. }
  unfold stages in Hs; cbn [tasks pending continuation] in Hs.
  apply app_eq_nil in Hs as [Ht [Ho _]%app_eq_nil]. split; [by apply no_chain_of|by apply no_start_of].
Qed.

(** No operation of the chain is in progress. *)
Definition no_chain (s : websocket) : Prop := forall op, op ∈ pending s -> op_stage op = [].

Lemma deadline_idle s :
  no_chain s -> TaskStart ∉ tasks s -> url_ s <> None -> (past_connecting (continuation s) = true -> deadline s = false) ->
  deadline_inv s.
Proof.
  intros Hn Ht Hu Hk. split; try done.
  - intros op Hop Hst. by destruct (Hst (Hn op Hop)).
  - intros Hop. by specialize (Hn _ Hop).
Qed.

Lemma deadline_begin op s :
  no_chain s -> TaskStart ∉ tasks s -> url_ s <> None -> continuation s = None ->
  deadline s = deadline_of_op (ws_tls s) op -> (op = OpTlsHandshake -> ws_tls s = true) -> deadline_inv (begin op s).
Proof.
  intros Hn Ht Hu Hk Hd Htls. split; cbn; try done.
  - intros op' [Hop|Hop%list_elem_of_singleton]%elem_of_app Hst; [by destruct (Hst (Hn op' Hop))|by subst].
  - by rewrite Hk.
  - intros [Hop|Hop%list_elem_of_singleton]%elem_of_app; [by specialize (Hn _ Hop)|by apply Htls].
Qed.

Lemma chain_deadline op r s :
  no_chain s -> TaskStart ∉ tasks s -> url_ s <> None -> continuation s = None -> op_stage op <> [] ->
  deadline s = deadline_of_op (ws_tls s) op -> (op = OpTlsHandshake -> ws_tls s = true) ->
  deadline_inv (on_completed op r s).
Proof.
  intros Hn Ht Hu Hk Hop Hd Htls.
  assert (Hidle : deadline_inv s) by (apply deadline_idle; try done; by rewrite Hk).
  assert (Hhand : deadline s = ws_tls s -> deadline_inv (start_handshake s)).
  { intros E. unfold start_handshake. destruct (ws_tls s) eqn:Et; apply deadline_begin; try done; by rewrite E. }
  destruct op; cbn [on_completed]; try done; unfold on_resolved, on_connected, on_proxy_written, on_proxy_read,
    on_tls_handshake, on_handshake, on_read; case_closing s Hc; rewrite Hc at 1; try done; cbn in Hd.
  - destruct r; try case_match; first [by apply deadline_begin | by apply deadline_idle].
  - assert (Hnext : deadline_inv (connected_stream s)).
    { unfold connected_stream. destruct (ws_tls s) eqn:Et.
      - destruct (proxy_ s); [|by apply Hhand]. apply deadline_begin; try done. by rewrite Et.
      - set (s1 := {| s with deadline := false |}).
        assert (Et1 : ws_tls s1 = false) by done.
        destruct (proxy_ s1); [|unfold start_handshake; rewrite Et1]; apply deadline_begin; try done; by rewrite Et1. }
    destruct r; try (by apply deadline_idle); exact Hnext.
  - destruct r; try (by apply deadline_idle); by apply deadline_begin.
  - destruct r; try (by apply deadline_idle); try (by apply Hhand). case_match; [by apply Hhand|by apply deadline_idle].
  - destruct r; try (by apply deadline_idle); by apply deadline_begin.
  - destruct r; by apply deadline_idle.
  - destruct r; by apply deadline_idle.
Qed.

(** What the deadline depends on stays the same, but for writes. *)
Lemma deadline_same s s' :
  deadline s' = deadline s -> url_ s' = url_ s ->
  (forall op, op ∈ pending s' -> op ∈ pending s \/ op_stage op = []) ->
  (past_connecting (continuation s') = true -> past_connecting (continuation s) = true) ->
  (TaskStart ∈ tasks s' -> TaskStart ∈ tasks s) ->
  deadline_inv s -> deadline_inv s'.
Proof.
  intros E1 E2 Hp Hk Ht [O H T U S]. assert (Etls : ws_tls s' = ws_tls s) by (unfold ws_tls; by rewrite E2).
  split; rewrite ?E1, ?E2, ?Etls; auto.
  - intros op Hop Hst. destruct (Hp op Hop); [by apply O|done].
  - intros Hop. destruct (Hp _ Hop); [by apply T|done].
Qed.

Lemma pump_deadline s : deadline_inv s -> deadline_inv (pump_write_queue s).
Proof.
  intros Hs. unfold pump_write_queue. case_closing s Hc; rewrite Hc at 1; [done|].
  destruct (negb (stream s)); [by refine (deadline_same s _ _ _ _ _ _ Hs); auto|].
  destruct (write_queue s) as [|[payload is_binary] q]; (refine (deadline_same s _ _ _ _ _ _ Hs); [done|done| |done|done]);
    [by left|]. cbn. intros op Hop. apply elem_of_app in Hop as [?|Hop]; [by left|].
  apply list_elem_of_singleton in Hop as ->. by right.
Qed.

Lemma queue_write_deadline payload is_binary s : deadline_inv s -> deadline_inv (queue_write payload is_binary s).
Proof.
  intros Hs. unfold queue_write. case_closing s Hc; rewrite Hc at 1; [done|].
  assert (H1 : deadline_inv (set_writing true (enqueue payload is_binary s))).
  { by refine (deadline_same s _ _ _ _ _ _ Hs); auto. }
  destruct (negb (write_in_progress (enqueue payload is_binary s))); [by apply pump_deadline|done].
Qed.

Lemma written_deadline m b r s : deadline_inv s -> continuation s = None -> deadline_inv (on_completed (OpWrite m b) r s).
Proof.
  intros Hs Hk. cbn [on_completed]. unfold on_written. case_closing s Hc; rewrite Hc at 1; [done|].
  assert (H1 : deadline_inv {| s with write_queue := tail (write_queue s) |}).
  { by refine (deadline_same s _ _ _ _ _ _ Hs); auto. }
  destruct r; try (by apply pump_deadline). by refine (deadline_same s _ _ _ _ _ _ Hs); auto.
Qed.

Lemma after_user_deadline k s :
  deadline_inv s -> (length (stages s) <= 1)%nat -> continuation s = Some (KUser k) ->
  (url_ s = None -> stages s = []) -> deadline_inv (after_user k s).
Proof.
  intros Hs Hl Hk Hun. set (s1 := {| s with continuation := None |}).
  assert (H1 : deadline_inv s1) by (by refine (deadline_same s _ _ _ _ _ _ Hs); auto).
  destruct k; unfold after_user; fold s1; try done; [..|by refine (deadline_same s1 _ _ _ _ _ _ H1); auto].
  all: case_closing s1 Hc; rewrite Hc at 1; [done|].
  all: assert (Hu : url_ s <> None) by (intros E; pose proof (stages_end _ s Hk) as P; rewrite (Hun E) in P;
    by apply Permutation_nil_l in P).
  all: rewrite (stages_end _ s Hk), length_app in Hl; cbn [continuation_stage length] in Hl.
  all: assert (Hn : stages s1 = []) by (by destruct (stages s1) eqn:E; [|unfold s1 in E; rewrite E in Hl; cbn in Hl; lia]).
  all: unfold stages in Hn; cbn [tasks pending continuation s1] in Hn;
    apply app_eq_nil in Hn as [Ht [Ho _]%app_eq_nil].
  all: apply deadline_begin; try done; [exact (no_chain_of _ Ho)|exact (no_start_of _ Ht)|].
  all: apply (di_handler s Hs); by rewrite Hk.
Qed.

Lemma continuation_deadline k s :
  deadline_inv s -> continuation s = Some k -> (forall k', k <> KUser k') ->
  deadline_inv (run_continuation k s).
Proof.
  intros Hs Hk Hu. destruct k as [what k| |reason|o k|k]; [| | | |by destruct (Hu k)].
  - case_closing s Hc; [rewrite (run_fail_closing what k s Hc)|rewrite (run_fail what k s Hc)].
    + destruct k; unfold after_user; cbn [closing]; rewrite ?Hc at 1; by refine (deadline_same s _ _ _ _ _ _ Hs); auto.
    + refine (deadline_same s _ _ _ _ _ _ Hs); auto. rewrite Hk. by destruct k.
  - refine (deadline_same s _ _ _ _ _ _ Hs); auto. by rewrite Hk.
  - case_closing s Hc; [rewrite (run_lost_closing reason s Hc)|rewrite (run_lost reason s Hc)];
      by refine (deadline_same s _ _ _ _ _ _ Hs); auto.
  - refine (deadline_same s _ _ _ _ _ _ Hs); auto. rewrite Hk. by destruct k.
Qed.

Lemma deadline_runs s s' : t_reachable s -> ws_runs s s' -> deadline_inv s -> deadline_inv s'.
Proof.
  intros Hreach Hr Hs. destruct (ws_reachable_simulates s Hreach) as (c & _ & Hsim).
  pose proof (proj1 (sim_stages s c Hsim)) as Hl.
  assert (Hun : url_ s = None -> stages s = []) by (intros E; apply (sim_unconnected s c Hsim E)).
  revert Hr Hs Hl Hun.
  intros [t ts s1 Hk Ht _|ops1 op ops2 r s1 Hk Hp Hres|k s1 Hk Hu|k s1 Hk] Hs Hl Hun.
  - assert (H1 : deadline_inv {| s1 with tasks := ts |}).
    { refine (deadline_same s1 _ _ _ _ _ _ Hs); auto. cbn. rewrite Ht. by right. }
    destruct t; cbn [run_task]; [|by apply queue_write_deadline|by refine (deadline_same _ _ _ _ _ _ _ H1); auto].
    assert (Hd : deadline s1 = false) by (apply (di_posted s1 Hs); rewrite Ht; by left).
    unfold stages in Hl. rewrite Ht, bind_cons, !length_app in Hl. cbn [task_stage length] in Hl.
    apply deadline_begin; try done.
    + refine (no_chain_of (pending s1) _). destruct (pending s1 ≫= op_stage); [done|cbn in Hl; lia].
    + refine (no_start_of ts _). destruct (ts ≫= task_stage); [done|cbn in Hl; lia].
    + intros E. specialize (Hun E). unfold stages in Hun. by rewrite Ht, bind_cons in Hun.
  - set (s2 := {| s1 with pending := ops1 ++ ops2 |}).
    assert (H2 : deadline_inv s2).
    { refine (deadline_same s1 _ _ _ _ _ _ Hs); auto. cbn. rewrite Hp. intros op' Hop. left.
      apply elem_of_app in Hop as [?|?]; apply elem_of_app; [by left|right; by right]. }
    assert (Hop : op_stage op = [] \/ op_stage op <> []) by (destruct (op_stage op); auto).
    destruct Hop as [Hop|Hop].
    + destruct op; try done. by apply written_deadline.
    + destruct (completed_alone ops1 op ops2 s1 Hl Hk Hp Hop) as [Hno Hst].
      apply chain_deadline; try done.
      * intros E. specialize (Hun E). unfold stages in Hun. rewrite Hp, bind_app, bind_cons in Hun.
        apply app_eq_nil in Hun as [_ [[_ [? _]%app_eq_nil]%app_eq_nil _]%app_eq_nil]. done.
      * apply (di_op s1 Hs); [rewrite Hp; apply elem_of_app; right; by left|done].
      * intros ->. apply (di_tls s1 Hs). rewrite Hp. apply elem_of_app. right. by left.
  - by apply continuation_deadline.
  - by apply after_user_deadline.
Qed.

Lemma deadline_step s s' : t_reachable s -> ws_step s s' -> deadline_inv s -> deadline_inv s'.
Proof.
  intros Hreach Hr Hs. destruct (ws_reachable_simulates s Hreach) as (c & _ & Hsim).
  pose proof (sim_unconnected s c Hsim) as Hun. revert Hr Hreach Hs Hun.
  intros [s1 s2 Hr|url s1 s2 Hu E|payload is_binary s1|s1|k s1 Hk|k s1 Hk Hown] Hreach Hs Hun.
  - by eapply deadline_runs.
  - apply ws_connect_ok in E as [->|[u ->]]; [done|]. destruct (Hun Hu) as [Hst _].
    unfold stages in Hst. apply app_eq_nil in Hst as [_ [Ho Hk]%app_eq_nil].
    pose proof (no_chain_of _ Ho) as Hno. split; cbn; try done.
    + intros op Hop H1. by destruct (H1 (Hno op Hop)).
    + apply (di_handler s1 Hs).
    + intros Hop. by specialize (Hno _ Hop).
    + intros _. by apply (di_start s1 Hs).
  - refine (deadline_same s1 _ _ _ _ _ _ Hs); auto. unfold ws_send; cbn.
    intros Hin. by apply elem_of_app in Hin as [?|?%list_elem_of_singleton].
  - assert (shutdown_once s1 = true \/ shutdown_once s1 = false) as [Ho|Ho] by (destruct (shutdown_once s1); auto).
    { unfold ws_close. by rewrite Ho. }
    rewrite (ws_close_first false s1 Ho). refine (deadline_same s1 _ _ _ _ _ _ Hs); auto. cbn.
    intros Hin. by apply elem_of_app in Hin as [?|?%list_elem_of_singleton].
  - assert (shutdown_once s1 = true \/ shutdown_once s1 = false) as [Ho|Ho] by (destruct (shutdown_once s1); auto).
    { unfold ws_close. by rewrite Ho. }
    rewrite (ws_close_first true s1 Ho). by refine (deadline_same s1 _ _ _ _ _ _ Hs); auto.
  - by refine (deadline_same s1 _ _ _ _ _ _ Hs); auto.
Qed.

Lemma ws_reachable_deadline s : t_reachable s -> deadline_inv s.
Proof.
  intros (s0 & H0 & Hs). revert s Hs. apply (invariant_rtc_strong t_step deadline_inv s0).
  - destruct H0 as (o & p & ->). split; cbn; try done; intros; by repeat match goal with H : _ ∈ [] |- _ => apply elem_of_nil in H end.
  - intros s s' Hr Hstep Hinv. eapply deadline_step; [|done..]. by exists s0.
Qed.

(** The deadline of the TCP stream is armed exactly during the operations it is
    meant for: never during the WebSocket handshake and the reads, which have the
    timeouts of the WebSocket stream; while a plain connection talks to its proxy,
    however, it is not armed either, and nothing bounds that wait. *)
Theorem websocket_deadline (s : websocket) (op : ws_op) :
  t_reachable s -> op ∈ pending s -> op_stage op <> [] ->
  deadline s = match op with
               | OpConnect | OpTlsHandshake => true
               | OpProxyWrite | OpProxyRead => ws_tls s
               | _ => false
               end.
Proof.
  intros Hs Hin Hop. rewrite (di_op s (ws_reachable_deadline s Hs) op Hin Hop). by destruct op.
Qed.
