(* ===== verification/WebsocketThread.v ===== *)
(** * The thread of the WebSocket transport

    src/websocket_transport.cpp again, around the strand of Websocket.v: the thread
    that [connect] starts to run the transport's own [io_context], and
    [sync_close], which joins it.  With a context of the caller's the strand runs
    whenever the caller lets it, and [sync_close] is [close]. *)

From S2P Require Export WebsocketWrites.
From stdpp Require Import options.
#[local] Set Default Proof Using "Type*".
Local Open Scope Z_scope.

(** ** State *)

(** [run_plain] and [run_tls]: not started; in [ioc_.run()], which executes the
    strand; at the test of [closing_]; in [ioc_.poll()]; ended. *)
Inductive io_pc : Type := IoNone | IoRun | IoTest | IoDrain | IoEnd.

(** [sync_close], called by another thread: before [close]; at the test of the
    context; before the lock of [join_mutex_]; at the test of [joinable]; in [join];
    in [ioc_.poll()]; before the streams are destroyed; returned. *)
Inductive sync_pc : Type := SClose | STest | SLock | SJoinable | SJoin | SDrain | SReset | SDone.

#[export] Instance io_pc_eq : EqDecision io_pc.
Proof. solve_decision. Defined.

#[export] Instance sync_pc_eq : EqDecision sync_pc.
Proof. solve_decision. Defined.

(** [joinable] is [io_thread_.joinable()]; [join_mutex] the call that holds [join_mutex_]. *)
Record ws_host : Type := mk_host {
  base : websocket;
  io : io_pc;
  joinable : bool;
  join_mutex : option nat;
  callers : list sync_pc;
}.

Definition new_host (owned : bool) (proxy : option proxy_config) : ws_host :=
  mk_host (new_websocket owned proxy) IoNone false None [].

Definition set_base (b : websocket) (h : ws_host) : ws_host := {| h with base := b |}.
Definition at_pc (k : nat) (pc : sync_pc) (h : ws_host) : ws_host := {| h with callers := <[k := pc]> (callers h) |}.

(** ** The context *)

(** Whether [shutdown_on_io_thread] has stopped the context. *)
Definition is_shut_down (ev : ws_event) : bool := match ev with WShutDown => true | _ => false end.
Definition stopped (b : websocket) : bool := existsb is_shut_down (history b).

Definition is_resolve (op : ws_op) : bool := match op with OpResolve => true | _ => false end.

(** [poll] returns when nothing is ready: the posted functions have run, and so have
    the handlers of the operations on the closed stream; name resolution runs on a
    thread of its own and may last. *)
Definition polled (b : websocket) : bool :=
  match continuation b, tasks b with None, [] => forallb is_resolve (pending b) | _, _ => false end.

(** ** Steps *)

(** [connect]: it starts the thread unless the transport is closing. *)
Definition host_connect (url : bstr) (h : ws_host) : outcome ws_host :=
  b ← ws_connect url (base h);
  let h' := set_base b h in
  Ok (if negb (closing b) && owned b then {| h' with io := IoRun; joinable := true |} else h').

(** The thread, between its executions of the strand. *)
Definition io_step (h : ws_host) : option ws_host :=
  match io h with
  | IoRun =>
      match continuation (base h) with
      | None => if stopped (base h) then Some {| h with io := IoTest |} else None
      | Some _ => None
      end
  | IoTest => Some {| h with io := if closing (base h) then IoDrain else IoEnd |}
  | IoDrain => if polled (base h) then Some {| h with io := IoEnd |} else None
  | IoNone | IoEnd => None
  end.

(** Call [k] of [sync_close]. *)
Definition sync_step (k : nat) (h : ws_host) : option ws_host :=
  match callers h !! k with
  | Some SClose => Some (at_pc k STest (set_base (ws_close false (base h)) h))
  | Some STest => Some (at_pc k (if owned (base h) then SLock else SDone) h)
  | Some SLock => match join_mutex h with None => Some (at_pc k SJoinable {| h with join_mutex := Some k |}) | Some _ => None end
  | Some SJoinable => Some (if joinable h then at_pc k SJoin h else at_pc k SDone {| h with join_mutex := None |})
  | Some SJoin => match io h with IoEnd => Some (at_pc k SDrain {| h with joinable := false |}) | _ => None end
  | Some SDrain => if polled (base h) then Some (at_pc k SReset h) else None
  | Some SReset =>
      let b := base h in
      Some (at_pc k SDone (set_base {| b with stream := false |} {| h with join_mutex := None |}))
  | Some SDone | None => None
  end.

(** Who executes the strand: the caller's threads; the thread in [run] or [poll]; a
    thread that has joined it, in [poll]. *)
Definition executes (h : ws_host) : Prop :=
  owned (base h) = false \/ io h = IoRun \/ io h = IoDrain \/ SDrain ∈ callers h.

(** Everything that goes on by itself, user handlers returning included. *)
Inductive host_runs : ws_host -> ws_host -> Prop :=
  | host_strand b h : executes h -> ws_runs (base h) b -> host_runs h (set_base b h)
  | host_io h h' : io_step h = Some h' -> host_runs h h'
  | host_sync k h h' : sync_step k h = Some h' -> host_runs h h'.

(** And what other threads and user handlers do.  [sync_close] in a handler calls
    [close] and returns, because the strand runs in its thread. *)
Inductive host_step : ws_host -> ws_host -> Prop :=
  | host_run_step h h' : host_runs h h' -> host_step h h'
  | host_connect_step url h h' : url_ (base h) = None -> host_connect url h = Ok h' -> host_step h h'
  | host_send_step payload is_binary h : host_step h (set_base (ws_send payload is_binary (base h)) h)
  | host_close_step h : host_step h (set_base (ws_close false (base h)) h)
  | host_close_in_handler_step k h :
      continuation (base h) = Some (KUser k) -> host_step h (set_base (ws_close true (base h)) h)
  | host_throw_step k h :
      continuation (base h) = Some (KUser k) -> owned (base h) = false ->
      host_step h (let b := base h in set_base {| b with continuation := None |} h)
  | host_sync_close_step h : host_step h {| h with callers := callers h ++ [SClose] |}.

(** The destructor; [on_io_thread] says that the last reference was dropped at the end
    of the thread, which is detached then. *)
Definition destroy_base (b : websocket) : websocket := {| b with closing := true; state_ := transport_closed |}.

Definition host_destroy (on_io_thread : bool) (h : ws_host) : option ws_host :=
  let h := set_base (destroy_base (base h)) h in
  if joinable h then
    if on_io_thread then Some {| h with joinable := false |}
    else match io h with IoEnd => Some {| h with joinable := false |} | _ => None end
  else Some h.

#[export] Instance websocket_host : TransportSystem ws_host := {|
  t_initial := fun h => exists owned proxy, h = new_host owned proxy;
  t_step := host_step;
  t_outputs := fun h => outputs_of (history (base h));
|}.
