(* ===== verification/WebsocketThreadSpec.v ===== *)
(** * The thread of the WebSocket transport: properties

    What a transport promises once [sync_close] is called, for every interleaving of
    its thread, the strand, and calls of other threads. *)

From S2P Require Export WebsocketThread.
From stdpp Require Import options.
#[local] Set Default Proof Using "Type*".
Local Open Scope Z_scope.

(** ** The shutdown function and the context it stops *)

Record stop_inv (b : websocket) : Prop := mk_stop_inv {
  st_posted : TaskShutdown ∈ tasks b -> closing b = true;
  st_pending : closing b = true -> TaskShutdown ∈ tasks b \/ stopped b = true;
  st_stopped : stopped b = true -> shut_down b;
  st_once : shutdown_once b = closing b;
}.

Lemma stopped_record ev b b1 : history b1 = history b -> stopped (record ev b1) = stopped b || is_shut_down ev.
Proof. unfold stopped, record. cbn. intros ->. rewrite existsb_app. cbn. by rewrite orb_false_r. Qed.

(** Handlers neither post functions nor stop the context. *)
Lemma same_stopped_pump b : stopped (pump_write_queue b) = stopped b.
Proof.
  unfold pump_write_queue. destruct (closing b); [done|]. destruct (negb (stream b)); [done|].
  destruct (write_queue b) as [|[m bin] q]; [done|]. unfold begin. by rewrite (stopped_record _ b), orb_false_r.
Qed.

Lemma same_stopped_begin op b b1 : history b1 = history b -> stopped (begin op b1) = stopped b.
Proof. intros E. unfold begin. rewrite (stopped_record _ b) by done. by rewrite orb_false_r. Qed.

Lemma same_stopped_queue payload is_binary b : stopped (queue_write payload is_binary b) = stopped b.
Proof.
  unfold queue_write. destruct (closing b); [done|].
  assert (stopped (set_writing true (enqueue payload is_binary b)) = stopped b) as E.
  { transitivity (stopped (enqueue payload is_binary b)); [done|]. unfold enqueue. by rewrite (stopped_record _ b), orb_false_r. }
  destruct (negb _); [|done]. by rewrite same_stopped_pump.
Qed.

Lemma same_stopped_completed op r b : stopped (on_completed op r b) = stopped b.
Proof.
  destruct op; cbn [on_completed]; unfold on_resolved, on_connected, connected_stream,
    on_proxy_written, on_proxy_read, on_tls_handshake, on_handshake, on_read, on_written, start_handshake;
    repeat case_match; try done; solve [by apply same_stopped_begin|by rewrite same_stopped_pump].
Qed.

Lemma same_stopped_after k b : stopped (after_user k b) = stopped b.
Proof. unfold after_user. destruct k; cbn; try done; destruct (closing b); try done; by apply same_stopped_begin. Qed.

Lemma same_stopped_continuation k b : stopped (run_continuation k b) = stopped b.
Proof.
  destruct k as [what k| |reason|o k|k]; cbn; try done.
  - case_match; [apply same_stopped_after|done].
  - by case_match.
  - unfold continue_with. transitivity (stopped (record (WOut o) b)); [done|]. by rewrite (stopped_record _ b), orb_false_r.
Qed.

Lemma stop_inv_shut b b' : same_tasks b b' -> stopped b' = stopped b -> (shut_down b -> shut_down b') -> stop_inv b -> stop_inv b'.
Proof. intros (E1 & E2 & E3) E4 Hsd [H1 H2 H3 H4]. split; rewrite ?E1, ?E2, ?E3, ?E4; auto. Qed.

Lemma in_shutdown_tail t ts : TaskShutdown ∈ t :: ts -> t <> TaskShutdown -> TaskShutdown ∈ ts.
Proof. intros [E|?]%elem_of_cons Hn; [by destruct Hn|done]. Qed.

Lemma stop_inv_runs b b' : ws_runs b b' -> stop_inv b -> stop_inv b'.
Proof.
  intros Hr Hb. pose proof (fun H => proj1 (shut_down_runs b b' Hr H)) as Hsd. revert Hr Hb Hsd.
  intros [t ts b1 Hk Ht Ho|ops1 op ops2 r b1 Hk Hp Hr|k b1 Hk Hu|k b1 Hk] Hb Hsd.
  - destruct Hb as [H1 H2 H3 H4]. rewrite Ht in H1, H2.
    assert (Hrest : t <> TaskShutdown -> stop_inv {| b1 with tasks := ts |}).
    { intros Hn. split; cbn; [|intros Hc; destruct (H2 Hc) as [Hin|?]; [left; by eapply in_shutdown_tail|by right]| |done].
      - intros Hin. apply H1. by right.
      - intros Hst. destruct (H3 Hst). by split. }
    destruct t; cbn [run_task] in *.
    + refine (stop_inv_shut {| b1 with tasks := ts |} _ _ _ _ (Hrest _)); try done.
      * by apply same_stopped_begin.
      * intros [? ? ? ? ?]. by split.
    + refine (stop_inv_shut {| b1 with tasks := ts |} _ _ _ _ (Hrest _)); try done.
      * apply queue_write_tasks.
      * apply same_stopped_queue.
      * intros [C O S Q K]. unfold queue_write. cbn in C |- *. rewrite C. by split.
    + assert (closing b1 = true) as Hc by (apply H1; by left).
      assert (stopped (shutdown_on_io_thread {| b1 with tasks := ts |}) = true) as Hst.
      { unfold shutdown_on_io_thread. rewrite (stopped_record _ b1) by done. apply orb_true_r. }
      split; [done|by right| |done]. intros _. split; cbn; rewrite ?Hk, ?H4; done.
  - refine (stop_inv_shut b1 _ _ _ Hsd Hb); [apply (completed_tasks op r {| b1 with pending := ops1 ++ ops2 |})|].
    apply (same_stopped_completed op r {| b1 with pending := ops1 ++ ops2 |}).
  - refine (stop_inv_shut b1 _ _ _ Hsd Hb); [apply continuation_tasks|apply same_stopped_continuation].
  - refine (stop_inv_shut b1 _ _ _ Hsd Hb); [apply after_user_tasks|apply same_stopped_after].
Qed.

Lemma stop_inv_close on_io_thread b :
  (on_io_thread = true -> calls (continuation b) = false) -> stop_inv b -> stop_inv (ws_close on_io_thread b).
Proof.
  intros Hk Hb. pose proof Hb as [H1 H2 H3 H4].
  assert (shutdown_once b = true \/ shutdown_once b = false) as [Ho|Ho] by (destruct (shutdown_once b); auto).
  { unfold ws_close. by rewrite Ho. }
  rewrite (ws_close_first on_io_thread b Ho). destruct on_io_thread.
  - split; [done| |by split; cbn; auto|done]. intros _. right. unfold shutdown_on_io_thread. by erewrite stopped_record, orb_true_r.
  - assert (stopped b = false) as Hn.
    { destruct (stopped b) eqn:E; [|done]. destruct (H3 eq_refl) as [C O' _ _ _]. congruence. }
    split; [done| | |done].
    + intros _. left. cbn. apply elem_of_app. right. by left.
    + intros Hst. exfalso. revert Hst. cbn. unfold stopped. cbn. rewrite existsb_app. cbn. unfold stopped in Hn. by rewrite Hn.
Qed.

(** What begins without a handler in progress leaves none behind, while closing. *)
Lemma idle_runs b b' :
  ws_runs b b' -> continuation b = None -> closing b = true -> continuation b' = None.
Proof.
  intros [t ts b1 Hk Ht _|ops1 op ops2 r b1 Hk Hp _|k b1 Hk Hu|k b1 Hk] Hn Hc; try congruence.
  - destruct t; cbn; try done. unfold queue_write. cbn. by rewrite Hc.
  - destruct op; cbn; unfold on_resolved, on_connected, on_proxy_written, on_proxy_read, on_tls_handshake,
      on_handshake, on_read, on_written; cbn; by rewrite Hc.
Qed.

(** Steps of the strand leave the setting alone. *)
Definition same_setting (b b' : websocket) : Prop :=
  owned b' = owned b /\ url_ b' = url_ b /\ closing b' = closing b.

Lemma pump_setting b : same_setting b (pump_write_queue b).
Proof.
  unfold pump_write_queue, same_setting. destruct (closing b) eqn:E; [by rewrite E|]. destruct (negb _); [by cbn; rewrite E|].
  destruct (write_queue b) as [|[m bin] q]; by cbn; rewrite E.
Qed.

Lemma after_user_setting k b : same_setting b (after_user k b).
Proof. destruct k; unfold after_user; cbn [closing]; try done; destruct (closing b) eqn:E; unfold same_setting; cbn; by rewrite ?E. Qed.

Lemma queue_setting payload is_binary b : same_setting b (queue_write payload is_binary b).
Proof.
  unfold queue_write, same_setting. destruct (closing b) eqn:E; [by rewrite E|]. destruct (negb _); [|by cbn; rewrite E].
  destruct (pump_setting (set_writing true (enqueue payload is_binary b))) as (-> & -> & ->). by cbn; rewrite E.
Qed.

Lemma runs_setting b b' : ws_runs b b' -> same_setting b b'.
Proof.
  intros [t ts b1 Hk Ht _|ops1 op ops2 r b1 Hk Hp _|k b1 Hk Hu|k b1 Hk]; [| | |apply after_user_setting].
  - destruct t; cbn; [done| |done]. apply (queue_setting _ _ {| b1 with tasks := ts |}).
  - destruct op; cbn; unfold on_resolved, on_connected, connected_stream, on_proxy_written, on_proxy_read,
      on_tls_handshake, on_handshake, on_read, on_written, start_handshake;
      repeat case_match; unfold same_setting; try match goal with |- context [pump_write_queue ?b] => destruct (pump_setting b) as (-> & -> & ->) end;
      cbn in *; split_and!; congruence.
  - destruct k as [what k| |reason|o k|k]; cbn; try done; destruct (closing b1) eqn:E; try done; try (apply after_user_setting);
      unfold same_setting; cbn; by rewrite ?E.
Qed.

Lemma stopped_runs b b' : ws_runs b b' -> stopped b = true -> stopped b' = true.
Proof.
  intros [t ts b1 Hk Ht _|ops1 op ops2 r b1 Hk Hp _|k b1 Hk Hu|k b1 Hk] Hst.
  - destruct t; cbn [run_task].
    + unfold ws_start. by rewrite (same_stopped_begin _ b1).
    + by rewrite same_stopped_queue.
    + unfold shutdown_on_io_thread. by rewrite (stopped_record _ b1), Hst.
  - by rewrite same_stopped_completed.
  - by rewrite same_stopped_continuation.
  - by rewrite same_stopped_after.
Qed.

Lemma close_setting on_io_thread b :
  owned (ws_close on_io_thread b) = owned b /\ url_ (ws_close on_io_thread b) = url_ b /\
  (closing b = true -> closing (ws_close on_io_thread b) = true) /\ continuation (ws_close on_io_thread b) = continuation b /\
  (stopped b = true -> stopped (ws_close on_io_thread b) = true).
Proof.
  assert (shutdown_once b = true \/ shutdown_once b = false) as [Ho|Ho] by (destruct (shutdown_once b); auto).
  { unfold ws_close. by rewrite Ho. }
  rewrite (ws_close_first on_io_thread b Ho). unfold stopped.
  destruct on_io_thread; split_and!; cbn; try done; rewrite ?existsb_app; intros ->; done.
Qed.

Lemma closed_by_close b : stop_inv b -> closing (ws_close false b) = true.
Proof. intros Hb. unfold ws_close. destruct (shutdown_once b) eqn:Ho; [|done]. by rewrite <- (st_once _ Hb). Qed.

(** ** The invariant of the threads *)

(** The call is between the lock of [join_mutex_] and its end; it has joined or
    found the thread joined; it wants to join. *)
Definition holds (pc : sync_pc) : bool := match pc with SJoinable | SJoin | SDrain | SReset => true | _ => false end.
Definition joined (pc : sync_pc) : bool := match pc with SDrain | SReset | SDone => true | _ => false end.
Definition drains (pc : sync_pc) : bool := match pc with SDrain | SReset => true | _ => false end.
Definition wants_join (pc : sync_pc) : bool := match pc with SLock => true | _ => holds pc end.

Record caller_ok (h : ws_host) (k : nat) (pc : sync_pc) : Prop := mk_caller_ok {
  co_closing : pc <> SClose -> closing (base h) = true;
  co_owned : wants_join pc = true -> owned (base h) = true;
  co_mutex : holds pc = true -> join_mutex h = Some k;
  co_join : pc = SJoin -> joinable h = true;
  co_joined : joined pc = true -> joinable h = false;
  co_end : drains pc = true -> io h = IoEnd;
}.

Definition io_stopped (i : io_pc) : bool := match i with IoTest | IoDrain | IoEnd => true | _ => false end.

Record host_inv (h : ws_host) : Prop := mk_host_inv {
  hi_stop : stop_inv (base h);
  hi_started : io h <> IoNone -> owned (base h) = true /\ url_ (base h) <> None;
  hi_none : io h = IoNone -> owned (base h) = true -> url_ (base h) = None /\ continuation (base h) = None;
  hi_joinable : joinable h = true -> io h <> IoNone;
  hi_joined : joinable h = false -> io h = IoNone \/ io h = IoEnd;
  hi_stopped : io_stopped (io h) = true -> stopped (base h) = true /\ continuation (base h) = None;
  hi_callers : forall k pc, callers h !! k = Some pc -> caller_ok h k pc;
  hi_mutex : forall k, join_mutex h = Some k -> exists pc, callers h !! k = Some pc /\ holds pc = true;
}.

(** A step that leaves the threads alone. *)
Lemma host_inv_base b h :
  stop_inv b -> owned b = owned (base h) -> url_ b = url_ (base h) -> (closing (base h) = true -> closing b = true) ->
  (stopped (base h) = true -> stopped b = true) ->
  ((io h = IoNone /\ owned (base h) = true) \/ io_stopped (io h) = true -> continuation (base h) = None -> continuation b = None) ->
  host_inv h -> host_inv (set_base b h).
Proof.
  intros Hb Ho Hu Hc Hs Hk [H1 H2 H3 H4 H5 H6 H7 H8]. split; cbn; rewrite ?Ho, ?Hu; try done.
  - intros Hi Hown. destruct (H3 Hi Hown) as [? ?]. split; [done|]. apply Hk; [left; by split|done].
  - intros Hi. destruct (H6 Hi) as [? ?]. split; [auto|]. apply Hk; [by right|done].
  - intros k pc Hpc. destruct (H7 k pc Hpc) as [C1 C2 C3 C4 C5 C6]. split; cbn; rewrite ?Ho; auto.
Qed.

(** Who executes the strand of an owned context that has no thread. *)
Lemma executes_thread h : host_inv h -> executes h -> owned (base h) = true -> io h <> IoNone.
Proof.
  intros Hh [Hn|[->|[->|(k & Hk)%list_elem_of_lookup]]] Ho; try done; [congruence|].
  rewrite (co_end _ _ _ (hi_callers _ Hh k _ Hk)); done.
Qed.

Lemma strand_inv b h : executes h -> ws_runs (base h) b -> host_inv h -> host_inv (set_base b h).
Proof.
  intros He Hr Hh. destruct (runs_setting _ _ Hr) as (E1 & E2 & E3). apply host_inv_base; try done.
  - by eapply stop_inv_runs, hi_stop.
  - by rewrite E3.
  - by apply stopped_runs.
  - intros [[Hi Ho]|Hi] Hk; [by destruct (executes_thread h Hh He Ho)|]. eapply idle_runs; [done..|].
    destruct (hi_stopped _ Hh Hi) as [Hst _]. by destruct (st_stopped _ (hi_stop _ Hh) Hst).
Qed.

Lemma io_inv h h' : io_step h = Some h' -> host_inv h -> host_inv h'.
Proof.
  intros E Hh. pose proof Hh as [H1 H2 H3 H4 H5 H6 H7 H8].
  assert (Hgo : forall i, io h <> IoNone -> joinable h = true -> io h <> IoEnd -> i <> IoNone ->
            (io_stopped i = true -> stopped (base h) = true /\ continuation (base h) = None) -> host_inv {| h with io := i |}).
  { intros i Hn Hj He Hi Hs. split; cbn; try done; try (by intros ->).
    - intros _. by apply H2.
    - by rewrite Hj.
    - intros k pc Hpc. destruct (H7 k pc Hpc) as [C1 C2 C3 C4 C5 C6]. split; cbn; try done. intros Hd. by destruct He; apply C6. }
  assert (Hj : io h <> IoNone -> io h <> IoEnd -> joinable h = true).
  { intros Hn He. destruct (joinable h); [done|]. by destruct (H5 eq_refl). }
  unfold io_step in E. destruct (io h) eqn:Hi; [done| | | |done].
  - destruct (continuation (base h)) eqn:Hk; [done|]. destruct (stopped (base h)) eqn:Hst; [|done]. injection E as <-.
    apply Hgo; auto; done.
  - injection E as <-. apply Hgo; auto; by destruct (closing (base h)).
  - destruct (polled (base h)); [|done]. injection E as <-. apply Hgo; auto; done.
Qed.

(** Other calls do not notice a step of call [k]. *)
Lemma caller_ok_change h h' k pc :
  (closing (base h) = true -> closing (base h') = true) -> owned (base h') = owned (base h) -> io h' = io h ->
  (holds pc = true -> join_mutex h = Some k -> join_mutex h' = Some k) ->
  (pc = SJoin -> joinable h = true -> joinable h' = true) -> (joinable h = false -> joinable h' = false) ->
  caller_ok h k pc -> caller_ok h' k pc.
Proof. intros E1 E2 E3 E4 E5 E6 [C1 C2 C3 C4 C5 C6]. split; rewrite ?E2, ?E3; auto. Qed.

Lemma at_pc_lookup k pc h j pc' :
  callers (at_pc k pc h) !! j = Some pc' -> (j = k /\ pc' = pc) \/ (j <> k /\ callers h !! j = Some pc').
Proof. cbn. intros [(? & ? & _)|(? & ?)]%list_lookup_insert_Some; [left|right]; split; congruence. Qed.

(** A step of call [k] that leaves the thread alone. *)
Lemma sync_inv_pc k pc0 pc h h' :
  callers h !! k = Some pc0 -> io h' = io h -> owned (base h') = owned (base h) -> url_ (base h') = url_ (base h) ->
  continuation (base h') = continuation (base h) -> closing (base h') = closing (base h) \/ closing (base h') = true ->
  (stopped (base h) = true -> stopped (base h') = true) -> stop_inv (base h') ->
  callers h' = callers h ->
  (forall j, j <> k -> join_mutex h' = Some j -> join_mutex h = Some j) ->
  (forall j, j <> k -> join_mutex h = Some j -> join_mutex h' = Some j) ->
  (holds pc = true <-> join_mutex h' = Some k) ->
  joinable h' = joinable h \/ (io h = IoEnd /\ joinable h' = false /\ join_mutex h = Some k) ->
  caller_ok h' k pc -> host_inv h -> host_inv (at_pc k pc h').
Proof.
  intros Hk Ei Eo Eu Ek Ec Es Hst Ecs M1 M2 M3 Hj Hok [H1 H2 H3 H4 H5 H6 H7 H8].
  split; cbn; rewrite ?Ei, ?Eo, ?Eu, ?Ek, ?Ecs; try done.
  - intros Hj'. apply H4. destruct Hj as [<-|(_ & Hj & _)]; congruence.
  - intros Hj'. destruct Hj as [Hj|(Hi & _)]; [apply H5; congruence|by right].
  - intros Hi. destruct (H6 Hi) as [? ?]. by auto.
  - intros j pc' Hj'. apply at_pc_lookup in Hj' as [[-> ->]|[Hn Hj']]; [by destruct Hok; split|].
    assert (caller_ok h' j pc') as Hc; [|by destruct Hc; split].
    apply (caller_ok_change h); auto.
    + destruct Ec as [->|?]; auto.
    + intros -> Hjo. destruct Hj as [->|(_ & _ & Hm)]; [done|]. pose proof (co_mutex _ _ _ (H7 _ _ Hj') eq_refl). congruence.
    + intros Hf. destruct Hj as [->|(_ & ? & _)]; done.
  - intros j Hm. destruct (decide (j = k)) as [->|Hn].
    + exists pc. rewrite list_lookup_insert_eq by (by eapply lookup_lt_Some). split; [done|by apply M3].
    + rewrite list_lookup_insert_ne by done. by apply H8, M1.
Qed.

Lemma polled_idle b : polled b = true -> continuation b = None.
Proof. unfold polled. by destruct (continuation b). Qed.

Lemma sync_inv k h h' : sync_step k h = Some h' -> host_inv h -> host_inv h'.
Proof.
  intros E Hh. pose proof Hh as [H1 H2 H3 H4 H5 H6 H7 H8]. unfold sync_step in E.
  destruct (callers h !! k) as [pc0|] eqn:Hk; [|done]. pose proof (H7 _ _ Hk) as Hok. pose proof Hok as [C1 C2 C3 C4 C5 C6].
  assert (Hmine : holds pc0 = false -> join_mutex h <> Some k).
  { intros Hf Hm. destruct (H8 k Hm) as (pc' & Hk' & Hp). congruence. }
  destruct pc0; cbn in C2, C3, C5, C6; try done.
  - injection E as <-. destruct (close_setting false (base h)) as (E1 & E2 & E3 & E4 & E5).
    eapply sync_inv_pc; cbn; try done.
    + right. by apply closed_by_close.
    + by apply stop_inv_close.
    + split; [done|]. intros Hm. by destruct (Hmine eq_refl).
    + by left.
    + split; cbn; try done. intros _. by apply closed_by_close.
  - injection E as <-. eapply sync_inv_pc; try done; try (by left).
    + split; [by destruct (owned (base h))|intros Hm; by destruct (Hmine eq_refl)].
    + split; try done; destruct (owned (base h)) eqn:Ho; try done.
      * intros _. by apply C1.
      * intros _. by apply C1.
      * intros _. destruct (joinable h) eqn:Hj; [|done]. destruct (H2 (H4 eq_refl)). congruence.
  - destruct (join_mutex h) eqn:Hm; [done|]. injection E as <-. eapply sync_inv_pc; cbn; try done; try (by left).
    + intros j Hn [= <-]. done.
    + intros j Hn. by rewrite Hm.
    + split; cbn; auto; done.
  - injection E as <-. destruct (joinable h) eqn:Hj.
    + eapply sync_inv_pc; try done; try (by left). split; auto; done.
    + eapply sync_inv_pc; cbn; try done; try (by left).
      * intros j Hn Hm. pose proof (C3 eq_refl). congruence.
      * split; cbn; auto; done.
  - destruct (io h) eqn:Hi; try done. injection E as <-. eapply sync_inv_pc; cbn; try done; try (by left).
    + right. auto.
    + split; cbn; auto; done.
  - destruct (polled (base h)); [|done]. injection E as <-. eapply sync_inv_pc; try done; try (by left). split; auto; done.
  - injection E as <-. eapply sync_inv_pc; cbn; try done; try (by left).
    + destruct H1 as [S1 S2 S3 S4]. split; cbn; try done. intros Hst. destruct (S3 Hst). by split.
    + intros j Hn Hm. pose proof (C3 eq_refl). congruence.
    + split; cbn; auto; done.
Qed.

(** Functions posted by others. *)
Lemma stop_inv_posted t b b' :
  t <> TaskShutdown -> tasks b' ≡ₚ t :: tasks b -> closing b' = closing b -> shutdown_once b' = shutdown_once b ->
  stopped b' = stopped b -> (shut_down b -> shut_down b') -> stop_inv b -> stop_inv b'.
Proof.
  intros Hn Et Ec Eo Es Hsd [H1 H2 H3 H4]. split; rewrite ?Et, ?Ec, ?Eo, ?Es; auto.
  - intros Hin. apply H1. by eapply in_shutdown_tail.
  - intros Hc. destruct (H2 Hc); [left; by right|by right].
Qed.

Lemma send_inv payload is_binary h : host_inv h -> host_inv (set_base (ws_send payload is_binary (base h)) h).
Proof.
  intros Hh. apply host_inv_base; try done. apply (stop_inv_posted (TaskWrite payload is_binary) (base h)); try done.
  - cbn. by rewrite Permutation_app_comm.
  - intros [C O S Q K]. by split.
  - apply Hh.
Qed.

Lemma connect_inv url h h' : url_ (base h) = None -> host_connect url h = Ok h' -> host_inv h -> host_inv h'.
Proof.
  intros Hu E Hh. unfold host_connect, ws_connect in E. destruct (closing (base h)) eqn:Hc.
  { cbn in E. rewrite Hc in E. injection E as <-. by apply host_inv_base; try apply Hh. }
  destruct (parse_ws_url url) as [u|x]; cbn in E; [|done].
  pose proof Hh as [H1 H2 H3 H4 H5 H6 H7 H8].
  assert (io h = IoNone) as Hi by (destruct (io h); [done|destruct H2; done..]).
  assert (joinable h = false) as Hj by (destruct (joinable h); [by destruct H4|done]).
  set (b := connecting u (base h)).
  assert (stop_inv b) as Hb.
  { apply (stop_inv_posted TaskStart (base h)); try done.
    - unfold b; cbn. destruct (owned (base h)); [done|by rewrite Permutation_app_comm].
    - intros [C _ _ _ _]. congruence. }
  assert (forall k pc, callers h !! k = Some pc -> pc = SClose) as Hall.
  { intros k pc Hk. destruct (decide (pc = SClose)) as [|Hn]; [done|]. pose proof (co_closing _ _ _ (H7 k pc Hk) Hn). congruence. }
  assert (join_mutex h = None) as Hm.
  { destruct (join_mutex h) as [k|]; [|done]. destruct (H8 k eq_refl) as (pc & Hk & Hp). by rewrite (Hall _ _ Hk) in Hp. }
  unfold b, connecting in Hb. rewrite Hc in Hb.
  cbn in E. destruct (owned (base h)) eqn:Ho; cbn in E; injection E as <-; split; cbn; rewrite ?Hi, ?Hj, ?Hm, ?Ho; try done; try (by right); try (by left).
  all: intros k pc Hk; rewrite (Hall _ _ Hk); by split.
Qed.

Lemma host_step_inv h h' : host_step h h' -> host_inv h -> host_inv h'.
Proof.
  intros [h1 h2 [b h0 He Hr|h0 h3 E|k h0 h3 E]|url h1 h2 Hu E|payload is_binary h1|h1|k h1 Hk|k h1 Hk Ho|h1] Hh.
  - by apply strand_inv.
  - by eapply io_inv.
  - by eapply sync_inv.
  - by eapply connect_inv.
  - by apply send_inv.
  - destruct (close_setting false (base h1)) as (E1 & E2 & E3 & E4 & E5). apply host_inv_base; try done; [|by rewrite E4].
    apply stop_inv_close; [done|apply Hh].
  - destruct (close_setting true (base h1)) as (E1 & E2 & E3 & E4 & E5). apply host_inv_base; try done; [|by rewrite E4].
    apply stop_inv_close; [by rewrite Hk|apply Hh].
  - apply host_inv_base; try done. destruct (hi_stop _ Hh) as [S1 S2 S3 S4]. split; try done. intros Hst. by destruct (S3 Hst).
  - destruct Hh as [H1 H2 H3 H4 H5 H6 H7 H8]. split; cbn; try done.
    + intros k pc [Hk|(Hl & Hk)]%lookup_app_Some; [by destruct (H7 k pc Hk); split|].
      apply list_lookup_singleton_Some in Hk as [_ <-]. by split.
    + intros k Hm. destruct (H8 k Hm) as (pc & Hk & Hp). exists pc. by rewrite (lookup_app_l_Some _ _ _ _ Hk).
Qed.

Lemma reachable_host h : t_reachable h -> host_inv h.
Proof.
  intros (h0 & (o & p & ->) & Hr). revert h Hr. apply invariant_rtc; [|apply host_step_inv].
  split; cbn; try done; try (by left). split; cbn; try done. by intros ?%elem_of_nil.
Qed.
