(* ===== verification/WebsocketDemo.v ===== *)
(** * The WebSocket transport: runs

    An executable version of the steps, with it the connection sequence of every
    variant, and the witnesses of the transport's properties. *)

From S2P Require Export WebsocketWrites.
From stdpp Require Import options.
#[local] Set Default Proof Using "Type*".
Local Open Scope Z_scope.

(** ** Moves *)

Inductive ws_move : Type :=
  | MConnect (url : bstr)
  | MSend (payload : bstr) (is_binary : bool)
  | MClose
  | MTask
  | MComplete (n : nat) (r : ws_result)
  | MContinue
  | MReturn.

Definition possibleb (op : ws_op) (r : ws_result) : bool :=
  match r, op with
  | RError _, _ | RSniError _, OpResolve | RStatus _, OpProxyRead | RFrame _ _, OpRead => true
  | ROk, (OpProxyRead | OpRead) => false
  | ROk, _ => true
  | _, _ => false
  end.

(** Which user handler runs, and whether the strand is free. *)
Definition in_user (s : websocket) : option ws_after :=
  match continuation s with Some (KUser k) => Some k | _ => None end.
Definition is_idle (s : websocket) : bool := match continuation s with None => true | Some _ => false end.
Definition in_handler (s : websocket) : option ws_continuation :=
  match continuation s with Some (KUser _) | None => None | Some k => Some k end.

Definition ws_go (m : ws_move) (s : websocket) : option websocket :=
  match m with
  | MConnect url => match url_ s, ws_connect url s with None, Ok s' => Some s' | _, _ => None end
  | MSend payload is_binary => Some (ws_send payload is_binary s)
  | MClose => Some (ws_close (bool_decide (is_Some (in_user s))) s)
  | MTask =>
      match tasks s with
      | t :: ts =>
          if is_idle s && (negb (owned s) || bool_decide (is_Some (url_ s)))
          then Some (run_task t {| s with tasks := ts |}) else None
      | [] => None
      end
  | MComplete n r =>
      match pending s !! n with
      | Some op =>
          if is_idle s && possibleb op r
          then Some (on_completed op r {| s with pending := take n (pending s) ++ drop (S n) (pending s) |})
          else None
      | None => None
      end
  | MContinue => k ← in_handler s; Some (run_continuation k s)
  | MReturn => k ← in_user s; Some (after_user k s)
  end.

Fixpoint ws_run (ms : list ws_move) (s : websocket) : option websocket :=
  match ms with [] => Some s | m :: ms' => s' ← ws_go m s; ws_run ms' s' end.

Lemma in_user_continuation s k : in_user s = Some k -> continuation s = Some (KUser k).
Proof. unfold in_user. destruct (continuation s) as [[]|]; congruence. Qed.

Lemma is_idle_continuation s : is_idle s = true -> continuation s = None.
Proof. unfold is_idle. by destruct (continuation s). Qed.

Lemma in_handler_continuation s k :
  in_handler s = Some k -> continuation s = Some k /\ forall k', k <> KUser k'.
Proof. unfold in_handler. destruct (continuation s) as [[]|]; try done; intros [= <-]; by split. Qed.

(** The moves of the strand itself. *)
Definition strand_move (m : ws_move) : bool := match m with MTask | MComplete _ _ | MContinue | MReturn => true | _ => false end.

Lemma ws_go_runs m s s' : strand_move m = true -> ws_go m s = Some s' -> ws_runs s s'.
Proof.
  destruct m; unfold ws_go; try done; intros _.
  - destruct (tasks s) as [|t ts] eqn:Ht; [done|].
    destruct (is_idle s && _) eqn:Hb; [|done]. apply andb_true_iff in Hb as [Hi%is_idle_continuation Ho].
    intros [= <-]. apply ws_task_step; [done..|]. apply orb_true_iff in Ho as [Ho|Ho].
    + left. by destruct (owned s).
    + right. apply bool_decide_eq_true_1 in Ho. intros E. rewrite E in Ho. by destruct Ho.
  - destruct (pending s !! n) as [op|] eqn:Hn; [|done].
    destruct (is_idle s && _) eqn:Hb; [|done]. apply andb_true_iff in Hb as [Hi%is_idle_continuation Hr].
    intros [= <-]. apply ws_completion_step; [done|by rewrite take_drop_middle|by destruct r, op].
  - intros (k & [Hk Hu]%in_handler_continuation & [= <-])%bind_Some. by apply ws_continuation_step.
  - intros (k & Hk%in_user_continuation & [= <-])%bind_Some. by apply ws_return_step.
Qed.

Lemma ws_go_step m s s' : ws_go m s = Some s' -> ws_step s s'.
Proof.
  destruct (strand_move m) eqn:Hm; [intros E; by eapply ws_run_step, ws_go_runs|]. destruct m; try done; unfold ws_go.
  - destruct (url_ s) eqn:Hu; [done|]. destruct (ws_connect url s) eqn:E; [|done]. intros [= <-].
    by eapply ws_connect_step.
  - intros [= <-]. apply ws_send_step.
  - intros [= <-]. case_bool_decide as Hu; [|apply ws_close_step].
    destruct Hu as [k Hk%in_user_continuation]. by eapply ws_close_in_handler_step.
Qed.

Lemma ws_run_steps ms s s' : ws_run ms s = Some s' -> rtc ws_step s s'.
Proof.
  revert s. induction ms as [|m ms IH]; intros s; cbn; [by intros [= <-]|].
  intros (s1 & E1 & E2)%bind_Some. eapply rtc_l; [by eapply ws_go_step|by apply IH].
Qed.

Lemma ws_run_reachable owned proxy ms s : ws_run ms (new_websocket owned proxy) = Some s -> t_reachable s.
Proof. intros E. exists (new_websocket owned proxy). split; [by exists owned, proxy|by eapply ws_run_steps]. Qed.

(** ** Connecting *)

(** The operations of a connection, in order. *)
Definition connection_sequence (tls proxied : bool) : list ws_op :=
  [OpResolve; OpConnect] ++ (if proxied then [OpProxyWrite; OpProxyRead] else []) ++
  (if tls then [OpTlsHandshake] else []) ++ [OpHandshake; OpRead].

(** A result the sequence goes on after. *)
Definition success (op : ws_op) : ws_result := match op with OpProxyRead => RStatus 200 | _ => ROk end.

Definition started_ops (s : websocket) : list ws_op :=
  omap (fun ev => match ev with WStarted op => Some op | _ => None end) (history s).

Definition connection_moves (tls proxied : bool) : list ws_move :=
  [MTask] ++
  ((fun op => MComplete 0 (success op)) <$> take (length (connection_sequence tls proxied) - 1) (connection_sequence tls proxied)) ++
  [MContinue; MContinue; MReturn].

(** Against a network where every operation succeeds, [connect] reaches the open
    state: it resolves and connects, tunnels through the proxy if there is one, does
    the TLS handshake if the URL asks for it, then the WebSocket handshake, calls the
    open handler once and starts to read, with no other operation left over. *)
Theorem websocket_connects (owned : bool) (proxy : option proxy_config) (url : bstr) (u : url_parts) :
  parse_ws_url url = Ok u ->
  exists s, rtc ws_step (new_websocket owned proxy) s /\
    outputs_of (history s) = [TOpen] /\ state_ s = transport_open /\ continuation s = None /\ pending s = [OpRead] /\
    started_ops s = connection_sequence (tls u) (bool_decide (is_Some proxy)).
Proof.
  intros E. set (s1 := connecting u (new_websocket owned proxy)).
  assert (E1 : ws_step (new_websocket owned proxy) s1).
  { apply (ws_go_step (MConnect url)). cbn. unfold ws_connect. by rewrite E. }
  set (ms := connection_moves (tls u) (bool_decide (is_Some proxy))).
  assert (H : exists s, ws_run ms s1 = Some s /\
    outputs_of (history s) = [TOpen] /\ state_ s = transport_open /\ continuation s = None /\ pending s = [OpRead] /\
    started_ops s = connection_sequence (tls u) (bool_decide (is_Some proxy))).
  { exists (default s1 (ws_run ms s1)).
    destruct u as [sc ho po ta t]; destruct t, owned, proxy as [p|]; by vm_compute. }
  destruct H as (s & Hr & Hs). exists s. split; [|done]. eapply rtc_l; [exact E1|by eapply ws_run_steps].
Qed.

(** ** Witnesses *)

Module WsDemo.
Definition url : bstr := "wss://example.org/socket.io/?EIO=4&transport=websocket".
Definition proxy : option proxy_config := Some (mk_proxy (mk_url "http" "proxy" "3128" "/" false) "Basic dTpw").

(** Connected through a proxy; one message being written, one waiting. *)
Definition busy : list ws_move :=
  [MConnect url] ++ connection_moves true true ++ [MSend "4hello" false; MSend "xyz" true; MTask; MTask].

(** Then the connection is lost while a message is written, [close] is called by
    another thread before the close handler returns, and the handler closes too. *)
Definition lost : list ws_move :=
  busy ++ [MComplete 0 (RError "end of stream"); MContinue; MClose; MContinue; MClose].

(** A plain connection that waits for its proxy. *)
Definition tunnelling : list ws_move := [MConnect "ws://example.org/"; MTask; MComplete 0 ROk; MComplete 0 ROk].
End WsDemo.

Lemma websocket_refines_contract_witness :
  keeps_contract [TOpen; TShutdown; TClose "end of stream"].
Proof.
  assert (E : exists s, ws_run WsDemo.lost (new_websocket true WsDemo.proxy) = Some s
                        /\ outputs_of (history s) = [TOpen; TShutdown; TClose "end of stream"]).
  { eexists. split; [vm_compute; reflexivity|vm_compute; reflexivity]. }
  destruct E as (s & Hr & <-). exact (websocket_refines_contract s (ws_run_reachable _ _ _ _ Hr)).
Defined.

Lemma websocket_writes_in_order_witness :
  exists s, ws_run WsDemo.busy (new_websocket true WsDemo.proxy) = Some s /\
    started s = [(bs "4hello", false)] /\ waiting s = [(bs "xyz", true)] /\
    (length (writes s) <= 1)%nat /\
    exists rest, accepted s = started s ++ rest /\ (closing s = false -> rest = waiting s).
Proof.
  eexists. split; [vm_compute; reflexivity|]. split; [vm_compute; reflexivity|]. split; [vm_compute; reflexivity|].
  apply websocket_writes_in_order. eapply (ws_run_reachable true WsDemo.proxy WsDemo.busy). vm_compute. reflexivity.
Defined.

Lemma websocket_closes_witness :
  exists s, ws_run (WsDemo.busy ++ [MClose]) (new_websocket true WsDemo.proxy) = Some s /\
  exists s1, rtc ws_runs s s1 /\
    forall s2, rtc ws_step s1 s2 ->
      state_ s2 = transport_closed /\ write_queue s2 = [] /\
      outputs_of (history s2) = outputs_of (history s1) /\ started s2 = started s1.
Proof.
  eexists. split; [vm_compute; reflexivity|]. apply websocket_closes.
  - eapply (ws_run_reachable true WsDemo.proxy (WsDemo.busy ++ [MClose])). vm_compute. reflexivity.
  - reflexivity.
  - right. discriminate.
Defined.

Lemma websocket_deadline_witness :
  exists s, ws_run WsDemo.tunnelling (new_websocket true WsDemo.proxy) = Some s /\
    pending s = [OpProxyWrite] /\ deadline s = false.
Proof.
  eexists. split; [vm_compute; reflexivity|]. split; [vm_compute; reflexivity|].
  match goal with |- deadline ?s = false => apply (websocket_deadline s OpProxyWrite) end.
  - eapply (ws_run_reachable true WsDemo.proxy WsDemo.tunnelling). vm_compute. reflexivity.
  - vm_compute. left.
  - discriminate.
Defined.

Lemma websocket_connects_witness :
  exists s, rtc ws_step (new_websocket false None) s /\
    outputs_of (history s) = [TOpen] /\ state_ s = transport_open /\ continuation s = None /\ pending s = [OpRead] /\
    started_ops s = [OpResolve; OpConnect; OpTlsHandshake; OpHandshake; OpRead].
Proof.
  exact (websocket_connects false None WsDemo.url (mk_url "wss" "example.org" "443" "/socket.io/?EIO=4&transport=websocket" true)
           ltac:(vm_compute; reflexivity)).
Defined.
