(* ===== verification/WebsocketClose.v ===== *)
(** * Closing the WebSocket transport

    [sync_close] ends, and what holds when it has ended; the transport with its
    thread keeps the contract of the interface. *)

From S2P Require Export WebsocketThreadSpec WebsocketDemo.
From stdpp Require Import options.
#[local] Set Default Proof Using "Type*".

(** ** A variant *)

(** What the strand has left to do once the transport is closing. *)
Definition continuation_rank (k : option ws_continuation) : nat :=
  match k with
  | None => 0
  | Some (KFail _ _) | Some (KLost _) | Some (KUser _) => 1
  | Some (KCall _ _) => 2
  | Some KOpened => 3
  end.

Definition strand_rank (b : websocket) : nat :=
  2 * length (tasks b) + length (pending b) + continuation_rank (continuation b).

Definition io_rank (i : io_pc) : nat := match i with IoRun => 3 | IoTest => 2 | IoDrain => 1 | IoNone | IoEnd => 0 end.

Definition sync_rank (pc : sync_pc) : nat :=
  match pc with
  | SClose => 7 | STest => 6 | SLock => 5 | SJoinable => 4 | SJoin => 3 | SDrain => 2 | SReset => 1 | SDone => 0
  end.

Definition host_rank (h : ws_host) : nat :=
  strand_rank (base h) + io_rank (io h) + sum_list (sync_rank <$> callers h).

Lemma closing_completed op r b : closing b = true -> on_completed op r b = b.
Proof.
  intros Hc. destruct op; cbn; unfold on_resolved, on_connected, on_proxy_written, on_proxy_read, on_tls_handshake,
    on_handshake, on_read, on_written; by rewrite Hc.
Qed.

Lemma closing_after k b :
  closing b = true -> tasks (after_user k b) = tasks b /\ pending (after_user k b) = pending b /\ continuation (after_user k b) = None.
Proof. intros Hc. destruct k; unfold after_user; cbn [closing]; by rewrite ?Hc. Qed.

Lemma strand_decreases b b' : ws_runs b b' -> closing b = true -> strand_rank b' < strand_rank b.
Proof.
  unfold strand_rank. intros [t ts b1 Hk Ht _|ops1 op ops2 r b1 Hk Hp _|k b1 Hk Hu|k b1 Hk] Hc.
  - rewrite Ht, Hk. destruct t; cbn.
    + rewrite length_app. cbn. lia.
    + unfold queue_write. cbn. rewrite Hc. cbn. lia.
    + lia.
  - rewrite closing_completed by done. cbn. rewrite Hp, Hk, !length_app. cbn. lia.
  - rewrite Hk. destruct k as [what k| |reason|o k|k]; cbn [run_continuation].
    + rewrite Hc. destruct (closing_after k b1 Hc) as (-> & -> & ->). cbn. lia.
    + cbn. lia.
    + cbn. rewrite Hc. cbn. lia.
    + cbn. lia.
    + by destruct (Hu k).
  - rewrite Hk. destruct (closing_after k b1 Hc) as (-> & -> & ->). cbn. lia.
Qed.

Lemma sum_insert (l : list nat) k x y : l !! k = Some x -> sum_list (<[k := y]> l) + x = sum_list l + y.
Proof.
  revert k. induction l as [|z l IH]; intros [|k] Hk; simpl in *; [done..|injection Hk as ->; lia|]. specialize (IH k Hk). lia.
Qed.

Lemma callers_decrease k pc0 pc h h' :
  callers h !! k = Some pc0 -> callers h' = callers h -> strand_rank (base h') = strand_rank (base h) -> io h' = io h ->
  sync_rank pc < sync_rank pc0 -> host_rank (at_pc k pc h') < host_rank h.
Proof.
  intros Hk Ec Es Ei Hlt. unfold host_rank. cbn [at_pc base io callers]. rewrite Ec, Es, Ei, list_fmap_insert.
  assert ((sync_rank <$> callers h) !! k = Some (sync_rank pc0)) as Hk' by by rewrite list_lookup_fmap, Hk.
  pose proof (sum_insert _ _ _ (sync_rank pc) Hk'). lia.
Qed.

(** Every step of a closing transport uses up something, a user handler that returns
    included. *)
Lemma host_decreases h h' : host_inv h -> closing (base h) = true -> host_runs h h' -> host_rank h' < host_rank h.
Proof.
  intros Hh Hc Hstep. destruct Hstep as [b h1 He Hr|h1 h2 E|k h1 h2 E].
  - unfold host_rank. cbn [set_base base io callers]. pose proof (strand_decreases _ _ Hr Hc). lia.
  - unfold io_step in E. unfold host_rank. destruct (io h1) eqn:Hi; try done.
    + destruct (continuation (base h1)); [done|]. destruct (stopped (base h1)); [|done]. injection E as <-. cbn. lia.
    + injection E as <-. cbn. rewrite Hc. cbn. lia.
    + destruct (polled (base h1)); [|done]. injection E as <-. cbn. lia.
  - unfold sync_step in E. destruct (callers h1 !! k) as [pc0|] eqn:Hk; [|done]. destruct pc0; try done.
    + injection E as <-. unfold ws_close. rewrite (st_once _ (hi_stop _ Hh)), Hc. eapply callers_decrease; try done. cbn. lia.
    + injection E as <-. eapply callers_decrease; try done. destruct (owned (base h1)); cbn; lia.
    + destruct (join_mutex h1); [done|]. injection E as <-. eapply callers_decrease; try done. cbn. lia.
    + injection E as <-. destruct (joinable h1); eapply callers_decrease; try done; cbn; lia.
    + destruct (io h1) eqn:Hi; try done. injection E as <-. eapply callers_decrease; try done. cbn. lia.
    + destruct (polled (base h1)); [|done]. injection E as <-. eapply callers_decrease; try done. cbn. lia.
    + injection E as <-. eapply callers_decrease; try done. cbn. lia.
Qed.

Lemma closing_kept h h' : host_step h h' -> closing (base h) = true -> closing (base h') = true.
Proof.
  intros [h1 h2 [b h0 He Hr|h0 h3 E|k h0 h3 E]|url h1 h2 Hu E|payload is_binary h1|h1|k h1 Hk|k h1 Hk Ho|h1] Hc; cbn; try done.
  - by destruct (runs_setting _ _ Hr) as (_ & _ & ->).
  - unfold io_step in E. repeat case_match; simplify_eq; done.
  - unfold sync_step in E. repeat case_match; simplify_eq; cbn; try done. by apply close_setting.
  - unfold host_connect, ws_connect in E. rewrite Hc in E. cbn in E. rewrite Hc in E. by injection E as <-.
  - by apply close_setting.
  - by apply close_setting.
Qed.

Lemma host_terminates h : host_inv h -> closing (base h) = true -> sn host_runs h.
Proof.
  remember (host_rank h) as n eqn:Hn. revert h Hn. induction n as [n IH] using lt_wf_ind. intros h -> Hh Hc.
  constructor. intros h' Hr. eapply IH; [by eapply host_decreases|done| |].
  - by eapply host_step_inv; [apply host_run_step|].
  - by eapply closing_kept; [apply host_run_step|].
Qed.

(** ** Progress *)

Lemma unpolled_runs b : owned b = false \/ url_ b <> None -> polled b = false -> exists b', ws_runs b b'.
Proof.
  intros Ho Hp. unfold polled in Hp. destruct (continuation b) as [k|] eqn:Hk.
  { destruct k as [what k| |reason|o k|k]; eexists; try (by apply ws_continuation_step); by apply ws_return_step. }
  destruct (tasks b) as [|t ts] eqn:Ht; [|eexists; by apply ws_task_step].
  destruct (pending b) as [|op ops] eqn:Hops; [done|]. eexists. by eapply (ws_completion_step [] op ops (RError [])).
Qed.

Lemma continuation_runs b : continuation b <> None -> exists b', ws_runs b b'.
Proof.
  intros Hk. destruct (continuation b) as [[what k| |reason|o k|k]|] eqn:E; [| | | | |done]; eexists;
    try (by apply ws_continuation_step); by apply ws_return_step.
Qed.

Lemma tasks_runs b : owned b = false \/ url_ b <> None -> tasks b <> [] -> exists b', ws_runs b b'.
Proof.
  intros Ho Ht. destruct (continuation b) as [k|] eqn:Hk; [apply continuation_runs; congruence|].
  destruct (tasks b) as [|t ts] eqn:E; [done|]. eexists. by apply ws_task_step.
Qed.

(** The thread, once the transport is closing, runs to its end. *)
Lemma thread_goes_on h : host_inv h -> closing (base h) = true -> nf host_runs h -> io h = IoNone \/ io h = IoEnd.
Proof.
  intros Hh Hc Hn.
  assert (Hstrand : executes h -> ~ exists b, ws_runs (base h) b).
  { intros He (b & Hr). apply Hn. eexists. by apply host_strand. }
  assert (Hio : io_step h = None).
  { destruct (io_step h) eqn:E; [|done]. destruct Hn. eexists. by eapply host_io. }
  unfold io_step in Hio. destruct (io h) eqn:Hi; [by left|exfalso|done|exfalso|by right].
  - destruct (hi_started _ Hh) as [_ Hu]; [by rewrite Hi|]. assert (executes h) as He by (right; by left).
    destruct (continuation (base h)) eqn:Hk; [apply (Hstrand He), continuation_runs; congruence|].
    destruct (st_pending _ (hi_stop _ Hh) Hc) as [Hin|Hst]; [|by rewrite Hst in Hio].
    apply (Hstrand He), tasks_runs; [by right|]. intros E. rewrite E in Hin. by apply elem_of_nil in Hin.
  - destruct (hi_started _ Hh) as [_ Hu]; [by rewrite Hi|]. destruct (polled (base h)) eqn:Hp; [done|].
    apply (Hstrand ltac:(right; right; by left)), unpolled_runs; [by right|done].
Qed.

Lemma caller_goes_on h k pc :
  host_inv h -> closing (base h) = true -> nf host_runs h -> callers h !! k = Some pc -> holds pc = false -> pc = SDone \/ pc = SLock.
Proof.
  intros Hh Hc Hn Hk Hp. assert (Hsync : sync_step k h = None).
  { destruct (sync_step k h) eqn:E; [|done]. destruct Hn. eexists. by eapply host_sync. }
  unfold sync_step in Hsync. rewrite Hk in Hsync. destruct pc; try done; [by right|by left].
Qed.

(** The holder of [join_mutex_] gives it back. *)
Lemma mutex_goes_on h k pc :
  host_inv h -> closing (base h) = true -> nf host_runs h -> callers h !! k = Some pc -> holds pc = false.
Proof.
  intros Hh Hc Hn Hk. assert (Hsync : sync_step k h = None).
  { destruct (sync_step k h) eqn:E; [|done]. destruct Hn. eexists. by eapply host_sync. }
  pose proof (thread_goes_on h Hh Hc Hn) as Hio. pose proof (hi_callers _ Hh _ _ Hk) as [C1 C2 C3 C4 C5 C6].
  unfold sync_step in Hsync. rewrite Hk in Hsync. destruct pc; try done; exfalso.
  - destruct Hio as [Hi|Hi]; [by destruct (hi_joinable _ Hh (C4 eq_refl))|by rewrite Hi in Hsync].
  - destruct (polled (base h)) eqn:Hp; [done|]. pose proof (C6 eq_refl) as Hi.
    destruct (hi_started _ Hh) as [_ Hu]; [by rewrite Hi|]. destruct (unpolled_runs (base h)) as [b Hr]; [by right|done|].
    apply Hn. eexists. apply (host_strand b); [|done]. right; right; right. by eapply list_elem_of_lookup_2.
Qed.

Lemma all_returned h : host_inv h -> closing (base h) = true -> nf host_runs h -> Forall (eq SDone) (callers h).
Proof.
  intros Hh Hc Hn. apply Forall_lookup. intros k pc Hk.
  destruct (caller_goes_on h k pc Hh Hc Hn Hk) as [->| ->]; [by eapply mutex_goes_on|done|].
  destruct (join_mutex h) as [j|] eqn:Hm.
  - destruct (hi_mutex _ Hh j Hm) as (pc & Hj & Hp). rewrite (mutex_goes_on h j pc) in Hp; done.
  - destruct Hn. eexists. apply (host_sync k). unfold sync_step. by rewrite Hk, Hm.
Qed.

Lemma runs_inv h h' : rtc host_runs h h' -> host_inv h -> closing (base h) = true -> host_inv h' /\ closing (base h') = true.
Proof.
  induction 1 as [|h1 h2 h3 Hs _ IH]; [done|]. intros Hh Hc. apply host_run_step in Hs.
  apply IH; [by eapply host_step_inv|by eapply closing_kept].
Qed.

(** [C15] Once the transport is closing every call of [sync_close] returns, if the user
    handlers do: whatever order the calls, the thread and the strand are executed
    in, and whatever the operations in progress complete with, only finitely many
    steps are left, and when none is left all calls have returned - none waits for
    the thread, for [join_mutex_] or for an operation. *)
Theorem websocket_sync_close_completes (h : ws_host) :
  t_reachable h -> closing (base h) = true ->
  sn host_runs h /\ forall h', rtc host_runs h h' -> nf host_runs h' -> Forall (eq SDone) (callers h').
Proof.
  intros Hr%reachable_host Hc. split; [by apply host_terminates|]. intros h' Hs Hn.
  destruct (runs_inv h h' Hs Hr Hc). by apply all_returned.
Qed.

(** ** After [sync_close] *)

Lemma returned_closing h k : host_inv h -> callers h !! k = Some SDone -> closing (base h) = true /\ joinable h = false.
Proof. intros Hh Hk. destruct (hi_callers _ Hh _ _ Hk) as [C1 C2 C3 C4 C5 C6]. by split; [apply C1|apply C5]. Qed.

Lemma returned_idle h k :
  host_inv h -> owned (base h) = true -> callers h !! k = Some SDone ->
  (io h = IoNone \/ io h = IoEnd) /\ continuation (base h) = None.
Proof.
  intros Hh Ho Hk. destruct (returned_closing h k Hh Hk) as [Hc Hj]. pose proof (hi_joined _ Hh Hj) as Hi. split; [done|].
  destruct Hi as [Hi|Hi]; [by apply (hi_none _ Hh Hi)|]. by apply (hi_stopped _ Hh); rewrite Hi.
Qed.

Lemma returned_stays h h' k : sync_step k h = Some h' -> forall j, callers h !! j = Some SDone -> callers h' !! j = Some SDone.
Proof.
  intros E j Hj. assert (Hn : k <> j) by (intros ->; unfold sync_step in E; by rewrite Hj in E).
  unfold sync_step in E. repeat case_match; simplify_eq; cbn; by rewrite list_lookup_insert_ne.
Qed.

Lemma quiet_step h h' k :
  host_step h h' -> host_inv h -> owned (base h) = true -> callers h !! k = Some SDone ->
  same_past (base h) (base h') /\ owned (base h') = true /\ callers h' !! k = Some SDone.
Proof.
  intros Hs Hh Ho Hk. destruct (returned_closing h k Hh Hk) as [Hc Hj]. pose proof (st_once _ (hi_stop _ Hh)) as Hon. rewrite Hc in Hon.
  assert (Hclose : forall b, ws_close b (base h) = base h) by (intros b; unfold ws_close; by rewrite Hon).
  revert Hh Ho Hk Hc Hj Hon Hclose.
  destruct Hs as [h1 h2 [b h0 He Hr|h0 h3 E|j h0 h3 E]|url h1 h2 Hu E|payload is_binary h1|h1|j h1 Hjk|j h1 Hjk Hown|h1];
    intros Hh Ho Hk Hc Hj Hon Hclose; cbn.
  - destruct (runs_setting _ _ Hr) as (E1 & _ & _). split_and!; [|congruence|done].
    destruct (hi_joined _ Hh Hj) as [Hi|Hi]; [by destruct (executes_thread h0 Hh He Ho)|].
    destruct (hi_stopped _ Hh) as [Hst _]; [by rewrite Hi|]. by apply (shut_down_runs _ _ Hr), (st_stopped _ (hi_stop _ Hh)).
  - unfold io_step in E. repeat case_match; simplify_eq; done.
  - pose proof (returned_stays _ _ _ E _ Hk) as Hk'. unfold sync_step in E. repeat case_match; simplify_eq; cbn in *; rewrite ?Hclose; done.
  - unfold host_connect, ws_connect in E. rewrite Hc in E. cbn in E. rewrite Hc in E. by injection E as <-.
  - done.
  - by rewrite Hclose.
  - by rewrite Hclose.
  - congruence.
  - split_and!; [done..|]. by apply lookup_app_l_Some.
Qed.

(** [C16] When a call of [sync_close] has returned on a transport with a thread of its
    own, the thread has ended and no handler is running; and whatever is called from
    then on, no handler is called and no message is written any more. *)
Theorem websocket_quiet_after_sync_close (h h' : ws_host) (k : nat) :
  t_reachable h -> owned (base h) = true -> callers h !! k = Some SDone -> rtc host_step h h' ->
  (io h' = IoNone \/ io h' = IoEnd) /\ continuation (base h') = None /\
  outputs_of (history (base h')) = outputs_of (history (base h)) /\ started (base h') = started (base h).
Proof.
  intros Hr%reachable_host Ho Hk Hs. induction Hs as [h|h1 h2 h3 Hs _ IH].
  - by destruct (returned_idle h k Hr Ho Hk).
  - destruct (quiet_step h1 h2 k Hs Hr Ho Hk) as ([E1 E2] & Ho2 & Hk2).
    destruct IH as (I1 & I2 & I3 & I4); [by eapply host_step_inv|done..|]. split_and!; [done..|congruence|congruence].
Qed.

(** Destruction: the thread holds a reference to the transport while it runs, so that the
    destructor runs on it or after it; either way it does not wait, calls no handler
    and leaves no joinable thread. *)
Lemma destroy_does_not_wait (h : ws_host) (on_io_thread : bool) :
  t_reachable h -> on_io_thread = true \/ io h = IoNone \/ io h = IoEnd ->
  exists h', host_destroy on_io_thread h = Some h' /\ joinable h' = false /\ history (base h') = history (base h).
Proof.
  intros Hr%reachable_host Hio. unfold host_destroy. cbn. destruct (joinable h) eqn:Hj; [|by eexists].
  pose proof (hi_joinable _ Hr Hj). destruct on_io_thread; [by eexists|].
  destruct Hio as [?|[?|Hi]]; [done..|]. rewrite Hi. by eexists.
Qed.

(** ** The contract *)

(** The streams are destroyed: the thread has been joined, and nobody polls. *)
Record released (h : ws_host) : Prop := mk_released {
  re_end : io h = IoEnd;
  re_joined : joinable h = false;
  re_callers : forall k pc, callers h !! k = Some pc -> drains pc = false;
}.

(** The state of the strand is one of Websocket.v, up to the destroyed streams. *)
Definition strand_of (h : ws_host) : Prop :=
  exists b, t_reachable b /\ (base h = b \/ (base h = {| b with stream := false |} /\ released h)).

Lemma ws_reachable_step b b' : t_reachable b -> ws_step b b' -> t_reachable b'.
Proof. intros (b0 & H0 & Hs) Hstep. exists b0. split; [done|]. by eapply rtc_r. Qed.

Lemma released_silent h : host_inv h -> released h -> ~ executes h.
Proof.
  intros Hh [R1 R2 R3] He. destruct (hi_started _ Hh) as [Ho _]; [by rewrite R1|].
  destruct He as [Hn|[Hi|[Hi|(k & Hk)%list_elem_of_lookup]]]; try congruence. by pose proof (R3 k _ Hk).
Qed.

Lemma close_stream on_io_thread b :
  ws_close on_io_thread {| b with stream := false |} = let b' := ws_close on_io_thread b in {| b' with stream := false |}.
Proof. destruct b as [o p u st c once str d q w pe ta k hi]. unfold ws_close. cbn. by destruct once, on_io_thread. Qed.

Lemma strand_of_same h h' :
  base h' = base h -> (released h -> released h') -> strand_of h -> strand_of h'.
Proof. intros E Hre (b & Hb & [Hbase|[Hbase Hr]]); exists b; rewrite E; auto. Qed.

Lemma released_caller k pc0 pc h h' :
  callers h !! k = Some pc0 -> drains pc = false -> callers h' = callers h -> io h' = io h -> joinable h' = joinable h ->
  released h -> released (at_pc k pc h').
Proof.
  intros Hk Hp Ec Ei Ej [R1 R2 R3]. split; cbn; [congruence..|]. intros j pc' [[-> ->]|[Hn Hj]]%at_pc_lookup; [done|].
  rewrite Ec in Hj. by eapply R3.
Qed.

Lemma sync_strand k h h' : sync_step k h = Some h' -> host_inv h -> strand_of h -> strand_of h'.
Proof.
  intros E Hh Hs. unfold sync_step in E. destruct (callers h !! k) as [pc0|] eqn:Hk; [|done].
  pose proof (hi_callers _ Hh _ _ Hk) as [C1 C2 C3 C4 C5 C6]. destruct pc0; try done.
  - injection E as <-. destruct Hs as (b & Hb & [Hbase|[Hbase Hr]]); exists (ws_close false b);
      (split; [eapply ws_reachable_step, ws_close_step; done|]); cbn; rewrite Hbase; [by left|right].
    rewrite close_stream. split; [done|]. by eapply released_caller.
  - injection E as <-. apply (strand_of_same h); [done| |done]. intros Hr. eapply released_caller; try done. by destruct (owned (base h)).
  - destruct (join_mutex h); [done|]. injection E as <-. apply (strand_of_same h); [done| |done]. intros Hr. by eapply released_caller.
  - destruct (joinable h) eqn:Hj; injection E as <-; (apply (strand_of_same h); [done| |done]); intros Hr; [|by eapply released_caller].
    destruct Hr. congruence.
  - destruct (io h) eqn:Hi; try done. injection E as <-. apply (strand_of_same h); [done| |done].
    intros [R1 R2 R3]. rewrite (C4 eq_refl) in R2. done.
  - destruct (polled (base h)); [|done]. injection E as <-. apply (strand_of_same h); [done| |done]. intros [R1 R2 R3]. by pose proof (R3 k _ Hk).
  - injection E as <-. destruct Hs as (b & Hb & [Hbase|[Hbase [R1 R2 R3]]]); [|by pose proof (R3 k _ Hk)].
    exists b. split; [done|]. right. cbn. rewrite Hbase. split; [done|]. split; cbn; [by apply C6|by apply C5|].
    intros j pc' [[-> ->]|[Hn Hj]]%at_pc_lookup; [done|]. cbn in Hj. destruct (drains pc') eqn:Hd; [|done].
    pose proof (co_mutex _ _ _ (hi_callers _ Hh _ _ Hj)) as Hm. pose proof (C3 eq_refl).
    assert (holds pc' = true) as Hp by (by destruct pc'). specialize (Hm Hp). congruence.
Qed.

Lemma host_step_strand h h' : host_step h h' -> host_inv h -> strand_of h -> strand_of h'.
Proof.
  intros [h1 h2 [b h0 He Hr|h0 h3 E|k h0 h3 E]|url h1 h2 Hu E|payload is_binary h1|h1|k h1 Hk|k h1 Hk Ho|h1] Hh Hs.
  - destruct Hs as (b0 & Hb & [Hbase|[Hbase Hre]]); [|by destruct (released_silent _ Hh Hre)].
    exists b. split; [|by left]. eapply ws_reachable_step; [exact Hb|]. apply ws_run_step. by rewrite <- Hbase.
  - unfold io_step in E. destruct (io h0) eqn:Hi; try done; repeat case_match; simplify_eq;
      (apply (strand_of_same h0); [done|intros [R1 R2 R3]; congruence|done]).
  - by eapply sync_strand.
  - destruct Hs as (b & Hb & [Hbase|[Hbase [R1 R2 R3]]]).
    + unfold host_connect in E. destruct (ws_connect url (base h1)) as [b1|x] eqn:E1; [|done]. cbn in E.
      exists b1. split; [eapply ws_reachable_step; [exact Hb|]; rewrite Hbase in *; by eapply ws_connect_step|].
      left. injection E as <-. by destruct (negb (closing b1) && owned b1).
    + destruct (hi_started _ Hh) as [_ Hu']; [by rewrite R1|done].
  - destruct Hs as (b & Hb & [Hbase|[Hbase [R1 R2 R3]]]); exists (ws_send payload is_binary b);
      (split; [eapply ws_reachable_step, ws_send_step; done|]); cbn; rewrite Hbase; [by left|by right].
  - destruct Hs as (b & Hb & [Hbase|[Hbase [R1 R2 R3]]]); exists (ws_close false b);
      (split; [eapply ws_reachable_step, ws_close_step; done|]); cbn; rewrite Hbase; [by left|right].
    by rewrite close_stream.
  - destruct Hs as (b & Hb & [Hbase|[Hbase [R1 R2 R3]]]).
    + exists (ws_close true b). split; [|left; cbn; by rewrite Hbase]. eapply ws_reachable_step; [exact Hb|].
      eapply ws_close_in_handler_step. by rewrite <- Hbase.
    + destruct (hi_stopped _ Hh) as [_ Hn]; [by rewrite R1|congruence].
  - destruct Hs as (b & Hb & [Hbase|[Hbase [R1 R2 R3]]]).
    + exists {| b with continuation := None |}. split; [|left; cbn; by rewrite Hbase]. eapply ws_reachable_step; [exact Hb|].
      rewrite Hbase in *. by eapply ws_throw_step.
    + destruct (hi_stopped _ Hh) as [_ Hn]; [by rewrite R1|congruence].
  - apply (strand_of_same h1); [done| |done]. intros [R1 R2 R3]. split; [done..|]. cbn.
    intros k pc [Hk|(_ & Hk)]%lookup_app_Some; [by eapply R3|]. by apply list_lookup_singleton_Some in Hk as [_ <-].
Qed.

Lemma reachable_strand h : t_reachable h -> strand_of h.
Proof.
  intros (h0 & (o & p & ->) & Hr). revert h Hr.
  apply (invariant_rtc_strong host_step strand_of); [exists (new_websocket o p); split; [|by left]; exists (new_websocket o p); split; [by exists o, p|done]|].
  intros h h' Hr Hs. apply host_step_strand; [done|]. apply reachable_host. exists (new_host o p). split; [by exists o, p|done].
Qed.

(** With its thread around it the transport makes the calls of the strand alone, and
    so keeps the contract. *)
#[export] Instance websocket_host_contract : Transport ws_host.
Proof.
  intros h Hr%reachable_strand. destruct Hr as (b & Hb & Hbase). cbn.
  assert (history (base h) = history b) as -> by (by destruct Hbase as [->|[-> _]]).
  exact (transport_contract b Hb).
Qed.
