(* ===== verification/WebsocketCloseDemo.v ===== *)
(** * Closing the WebSocket transport: runs *)

From S2P Require Export WebsocketClose.
From stdpp Require Import options.
#[local] Set Default Proof Using "Type*".

(** ** Moves *)

Inductive host_move : Type := OnStrand (m : ws_move) | HostConnect (url : bstr) | HostClose | ThreadGoes | CallSyncClose | SyncGoes (k : nat).

Definition executesb (h : ws_host) : bool :=
  negb (owned (base h)) || bool_decide (io h = IoRun) || bool_decide (io h = IoDrain) || bool_decide (SDrain ∈ callers h).

Definition host_go (m : host_move) (h : ws_host) : option ws_host :=
  match m with
  | OnStrand m => if strand_move m && executesb h then b ← ws_go m (base h); Some (set_base b h) else None
  | HostConnect url => match url_ (base h), host_connect url h with None, Ok h' => Some h' | _, _ => None end
  | HostClose => Some (set_base (ws_close false (base h)) h)
  | ThreadGoes => io_step h
  | CallSyncClose => Some {| h with callers := callers h ++ [SClose] |}
  | SyncGoes k => sync_step k h
  end.

Fixpoint host_run (ms : list host_move) (h : ws_host) : option ws_host :=
  match ms with [] => Some h | m :: ms' => h' ← host_go m h; host_run ms' h' end.

Lemma executesb_executes h : executesb h = true -> executes h.
Proof.
  unfold executesb, executes. rewrite !orb_true_iff, !bool_decide_eq_true, negb_true_iff. tauto.
Qed.

Lemma host_go_step m h h' : host_go m h = Some h' -> host_step h h'.
Proof.
  destruct m; cbn [host_go]; intros E.
  - destruct (strand_move m) eqn:Hm; [|done]. destruct (executesb h) eqn:He; [|done]. cbn in E.
    apply bind_Some in E as (b & Eb & [= <-]). apply host_run_step, host_strand; [by apply executesb_executes|by eapply ws_go_runs].
  - destruct (url_ (base h)) eqn:Hu; [done|]. destruct (host_connect url h) eqn:Ec; [|done]. injection E as <-. by eapply host_connect_step.
  - injection E as <-. apply host_close_step.
  - by apply host_run_step, host_io.
  - injection E as <-. apply host_sync_close_step.
  - by eapply host_run_step, host_sync.
Qed.

Lemma host_run_steps ms h h' : host_run ms h = Some h' -> rtc host_step h h'.
Proof.
  revert h. induction ms as [|m ms IH]; intros h; cbn; [by intros [= <-]|].
  intros (h1 & E1 & E2)%bind_Some. eapply rtc_l; [by eapply host_go_step|by apply IH].
Qed.

Lemma host_run_reachable owned proxy ms h : host_run ms (new_host owned proxy) = Some h -> t_reachable h.
Proof. intros E. exists (new_host owned proxy). split; [by exists owned, proxy|by eapply host_run_steps]. Qed.

Module CloseDemo.
Definition go_on (k n : nat) : list host_move := repeat (SyncGoes k) n.

(** Connected through a proxy and reading. *)
Definition connected : list host_move :=
  [HostConnect WsDemo.url] ++ (OnStrand <$> connection_moves true true).

(** A message arrives; two threads close while its handler runs. *)
Definition closing_twice : list host_move :=
  connected ++ [OnStrand (MComplete 0 (RFrame "2" false)); OnStrand MContinue; CallSyncClose; CallSyncClose] ++ go_on 0 4 ++ go_on 1 2.

(** The handler returns, the strand shuts down, the thread ends; both calls return. *)
Definition closed : list host_move :=
  closing_twice ++ [OnStrand MReturn; OnStrand MTask; ThreadGoes; ThreadGoes; ThreadGoes] ++ go_on 0 3 ++ go_on 1 2.
End CloseDemo.

(** ** Witnesses *)

Lemma websocket_sync_close_completes_witness :
  exists h, host_run CloseDemo.closing_twice (new_host true WsDemo.proxy) = Some h /\ callers h = [SJoin; SLock] /\
    continuation (base h) = Some (KUser AfterMessage) /\
    sn host_runs h /\ forall h', rtc host_runs h h' -> nf host_runs h' -> Forall (eq SDone) (callers h').
Proof.
  eexists. split; [vm_compute; reflexivity|]. split; [reflexivity|]. split; [reflexivity|].
  apply websocket_sync_close_completes; [|reflexivity].
  apply (host_run_reachable true WsDemo.proxy CloseDemo.closing_twice). vm_compute. reflexivity.
Defined.

Lemma websocket_quiet_after_sync_close_witness :
  exists h h', host_run CloseDemo.closed (new_host true WsDemo.proxy) = Some h /\ callers h = [SDone; SDone] /\
    host_run [HostClose; CallSyncClose; SyncGoes 2; SyncGoes 2] h = Some h' /\
    (io h' = IoNone \/ io h' = IoEnd) /\ continuation (base h') = None /\
    outputs_of (history (base h')) = outputs_of (history (base h)) /\ started (base h') = started (base h).
Proof.
  destruct (host_run CloseDemo.closed (new_host true WsDemo.proxy)) as [h|] eqn:E; [|by vm_compute in E].
  destruct (host_run [HostClose; CallSyncClose; SyncGoes 2; SyncGoes 2] h) as [h'|] eqn:E';
    [|vm_compute in E; injection E as <-; by vm_compute in E'].
  exists h, h'. split; [done|]. split; [by vm_compute in E; injection E as <-|]. split; [done|].
  apply (websocket_quiet_after_sync_close h h' 0).
  - by eapply host_run_reachable.
  - by vm_compute in E; injection E as <-.
  - by vm_compute in E; injection E as <-.
  - by eapply host_run_steps.
Defined.

(** ** Closing without a connection

    A transport with a context of its own that was never connected: [close] posts the
    shutdown function to a context that no thread runs.  [sync_close] returns, but
    the function stays posted - with the pointer to the transport it holds - and the
    state stays [closing], whatever goes on. *)
Theorem close_without_connect (proxy : option proxy_config) :
  exists h, t_reachable h /\ callers h = [SDone] /\ nf host_runs h /\
    tasks (base h) = [TaskShutdown] /\ state_ (base h) = transport_closing.
Proof.
  assert (exists h, host_run (CallSyncClose :: CloseDemo.go_on 0 4) (new_host true proxy) = Some h /\ callers h = [SDone] /\
            tasks (base h) = [TaskShutdown] /\ state_ (base h) = transport_closing /\ executesb h = false /\ io h = IoNone) as (h & E & Hc & Ht & Hst & He & Hi).
  { eexists. split; [vm_compute; reflexivity|by split_and!]. }
  exists h. split; [by eapply host_run_reachable|]. split_and!; [done| |done..].
  intros (h' & Hs). destruct Hs as [b h1 Hex _|h1 h2 Eio|k h1 h2 Es].
  - revert He. unfold executesb. destruct Hex as [->|[Hi'|[Hi'|Hin]]]; [done|congruence..|]. by rewrite Hc in Hin; apply list_elem_of_singleton in Hin.
  - unfold io_step in Eio. by rewrite Hi in Eio.
  - unfold sync_step in Es. rewrite Hc in Es. by destruct k.
Qed.
