(* ===== verification/SessionDemo.v ===== *)
(** * A session on a WebSocket transport: runs

    A server that ends the session as Engine.IO prescribes: a CLOSE packet, then
    the end of the connection. *)

From S2P Require Export SessionTransport WebsocketDemo JsonCodec.
From stdpp Require Import options.
#[local] Set Default Proof Using "Type*".
Local Open Scope Z_scope.

#[local] Existing Instance Codec.lib.

Module SessionDemo.
(** Connected; an OPEN packet, an event, a CLOSE packet, the end of the connection. *)
Definition received (payload : bstr) : list ws_move := [MComplete 0 (RFrame payload false); MContinue; MReturn].
Definition moves : list ws_move :=
  [MConnect WsDemo.url] ++ connection_moves true true ++
  received "0" ++ received "42[]" ++ received "1" ++ [MComplete 0 (RError "end of stream"); MContinue; MContinue].

Definition told : list output :=
  [TOpen; TMessage "0" false; TMessage "42[]" false; TMessage "1" false; TClose "end of stream"].

(** The calls of the session, after [open], with a [send] in between. *)
Definition calls : list (Z * method) :=
  [(0, MOpen WsDemo.url); (10, MTransportOpen); (20, MMessage "0" false); (25, Heartbeat.MSend "2x" false); (30, MMessage "42[]" false);
   (40, MMessage "1" false); (50, MTransportClose "end of stream")].

Definition session : engine := set_transport new_engine.
End SessionDemo.

Lemma session_over_transport_witness :
  exists s : websocket, ws_run SessionDemo.moves (new_websocket true WsDemo.proxy) = Some s /\
    let evs := (session_run SessionDemo.calls SessionDemo.session).2 in
    omap frame_event evs = [(bs "2[]", false)] /\ (closes evs <= 1 + 1)%nat.
Proof.
  destruct (ws_run SessionDemo.moves (new_websocket true WsDemo.proxy)) as [s|] eqn:E; [|by vm_compute in E].
  exists s. split; [done|]. pose proof (ws_run_reachable _ _ _ _ E) as Hr.
  assert (Ht : t_outputs s = SessionDemo.told) by (vm_compute in E; injection E as <-; vm_compute; reflexivity).
  assert (Hc : called_by s SessionDemo.calls) by (unfold called_by; rewrite Ht; vm_compute; reflexivity).
  destruct (session_over_transport s SessionDemo.calls SessionDemo.session Hr Hc) as (H1 & H2 & _).
  rewrite Ht in H1, H2. split; [exact H1|exact H2].
Defined.

(** The bound is reached: a server that ends the session properly makes the session
    call its owner's close handler twice, once for the CLOSE packet and once for the
    end of the connection. *)
Theorem session_closed_twice :
  exists (s : websocket) (ms : list (Z * method)), t_reachable s /\ called_by s ms /\
    (session_run ms SessionDemo.session).2 =
    [TransportConnect WsDemo.url; StartHeartbeat; OnOpen; TransportSend "42x" false; OnFrame "2[]" false;
     JoinHeartbeat; OnClose "server closed connection"; OnClose "end of stream"].
Proof.
  destruct (ws_run SessionDemo.moves (new_websocket true WsDemo.proxy)) as [s|] eqn:E; [|by vm_compute in E].
  exists s, SessionDemo.calls. split; [by eapply ws_run_reachable|]. vm_compute in E. injection E as <-. split; vm_compute; reflexivity.
Qed.
