(* ===== verification/HttpRequest.v ===== *)
(** * One HTTP request of the long-polling transport

    src/http_polling_transport.cpp: the message that [request] and
    [async_request] build, and the two ways it is exchanged - a function that
    blocks and throws, and an operation whose handlers run one after the other.
    Boost's calls are the names [io_call]; what each of them returns is the
    parameter [network]. *)

From S2P Require Export Url.
From stdpp Require Import options.
#[local] Set Default Proof Using "Type*".
Local Open Scope Z_scope.

(** ** Messages *)

Inductive verb : Type := verb_get | verb_post | verb_connect.

(** [prepared] says that [prepare_payload] was called on the message, after which Beast
    has adjusted the fields that describe the body. *)
Record http_request : Type := mk_request {
  method : verb;
  request_target : bstr;
  fields : list (bstr * bstr);
  body : bstr;
  prepared : bool;
}.

(** Names of fields are compared without regard to case. *)
Definition lower (name : bstr) : bstr := to_lower <$> name.

(** [set] removes the fields of that name, then adds one. *)
Definition set_field (name value : bstr) (r : http_request) : http_request :=
  {| r with fields := filter (fun kv => lower kv.1 <> lower name) (fields r) ++ [(name, value)] |}.

Definition set_fields (headers : list (bstr * bstr)) (r : http_request) : http_request :=
  foldl (fun r kv => set_field kv.1 kv.2 r) r headers.

Definition new_request (method : verb) (target : bstr) : http_request := mk_request method target [] [] false.

(** The members of the transport a request depends on. *)
Record settings : Type := mk_settings {
  url_ : url_parts;
  proxy_ : option proxy_config;
  extra_headers : list (bstr * bstr);
  verify_tls : bool;
}.

Definition peer (c : settings) : url_parts := match proxy_ c with Some p => endpoint p | None => url_ c end.

(** The message of [request]. *)
Definition sync_message (c : settings) (method : verb) (target : bstr) (payload : bstr) : http_request :=
  let request_target :=
    match proxy_ c with
    | Some _ => if tls (url_ c) then target else absolute_http_target (url_ c) target
    | None => target
    end in
  let req := new_request method request_target in
  let req := set_field "Host" (authority (url_ c)) req in
  let req := set_field "User-Agent" "sioxx-client" req in
  let req := set_field "Content-Type" "text/plain; charset=UTF-8" req in
  let req :=
    match proxy_ c with
    | Some p =>
        if negb (tls (url_ c)) && negb (bool_decide (authorization p = []))
        then set_field "Proxy-Authorization" (authorization p) req else req
    | None => req
    end in
  let req := set_fields (extra_headers c) req in
  {| req with body := payload; prepared := true |}.

(** The constructor of [async_request_operation]. *)
Definition async_request_operation (c : settings) (method : verb) (target : bstr) (payload : bstr) : http_request :=
  let request := new_request method target in
  let request := set_field "Host" (authority (url_ c)) request in
  let request := set_field "User-Agent" "sioxx-client" request in
  let request := set_field "Content-Type" "text/plain; charset=UTF-8" request in
  let request :=
    if bool_decide (is_Some (proxy_ c)) && negb (tls (url_ c)) then
      match proxy_ c with
      | Some p => if bool_decide (authorization p = []) then request
                  else set_field "Proxy-Authorization" (authorization p) request
      | None => request
      end
    else request in
  let request := set_fields (extra_headers c) request in
  {| request with body := payload; prepared := true |}.

(** [async_request] up to [start]. *)
Definition async_message (c : settings) (method : verb) (target : bstr) (payload : bstr) : http_request :=
  let target := if bool_decide (is_Some (proxy_ c)) && negb (tls (url_ c))
                then absolute_http_target (url_ c) target else target in
  async_request_operation c method target payload.

(** The CONNECT request of [establish_proxy_tunnel] and [write_proxy_connect]. *)
Definition proxy_request (destination : url_parts) (p : proxy_config) : http_request :=
  let request := new_request verb_connect (connect_authority destination) in
  let request := set_field "Host" (connect_authority destination) request in
  let request := set_field "User-Agent" "sioxx-client" request in
  if bool_decide (authorization p = []) then request
  else set_field "Proxy-Authorization" (authorization p) request.

(** ** Input and output *)

(** The calls, with what they send. *)
Inductive io_call : Type :=
  | IoResolve (host port : bstr)
  | IoServerName (host : bstr)
  | IoConnect
  | IoProxyWrite (request : http_request)
  | IoProxyRead
  | IoTlsHandshake (verify_peer : bool)
  | IoWrite (request : http_request)
  | IoRead
  | IoShutdown.

Inductive error_code : Type :=
  | ec_not_connected
  | ec_eof
  | ec_stream_truncated
  | ec_operation_aborted
  | ec_other (message : bstr).

#[export] Instance error_code_eq_dec : EqDecision error_code.
Proof. solve_decision. Defined.

Record response : Type := mk_response { status : Z; response_body : bstr }.

(** The message of an error is Boost's. *)
Class Errors : Type := message : error_code -> bstr.

Definition success (status : Z) : bool := bool_decide (status `quot` 100 = 2).

(** How a call ends, and the message it reads if it does not fail. *)
Record network : Type := mk_network {
  failure : io_call -> option error_code;
  received : io_call -> response;
}.

(** ** The blocking exchange *)

Section exchange.
Context `{Errors}.
Context (net : network).

(** A computation with the calls it made. *)
Definition exchange (A : Type) : Type := (list io_call * outcome A)%type.

Definition return_ {A} (a : A) : exchange A := ([], Ok a).
Definition throw {A} (e : exn) : exchange A := ([], Throw e).
Definition and_then {A B} (m : exchange A) (f : A -> exchange B) : exchange B :=
  match m with
  | (calls, Ok a) => let '(calls', b) := f a in (calls ++ calls', b)
  | (calls, Throw e) => (calls, Throw e)
  end.

(** A call that throws its error, one that reports it, one that reads a message. *)
Definition attempt (c : io_call) : exchange (option error_code) := ([c], Ok (failure net c)).
Definition perform (c : io_call) : exchange unit :=
  ([c], match failure net c with Some ec => Throw (runtime_error (message ec)) | None => Ok tt end).
Definition read_message (c : io_call) : exchange response := and_then (perform c) (fun _ => return_ (received net c)).

(** [establish_proxy_tunnel] *)
Definition establish_proxy_tunnel (destination : url_parts) (p : proxy_config) : exchange unit :=
  and_then (perform (IoProxyWrite (proxy_request destination p))) (fun _ =>
  and_then (read_message IoProxyRead) (fun r =>
  if success (status r) then return_ tt
  else throw (runtime_error (bs "proxy CONNECT returned HTTP " ++ to_string (status r))))).

(** The errors of a shutdown that are ignored. *)
Definition plain_shutdown (ec : option error_code) : exchange unit :=
  match ec with
  | Some ec => if bool_decide (ec = ec_not_connected) then return_ tt else throw (runtime_error (message ec))
  | None => return_ tt
  end.

Definition tls_shutdown (ec : option error_code) : exchange unit :=
  let ec := match ec with Some ec_eof | Some ec_stream_truncated => None | _ => ec end in
  match ec with Some ec => throw (runtime_error (message ec)) | None => return_ tt end.

(** [request] *)
Definition sync_request (c : settings) (method : verb) (target payload : bstr) : exchange response :=
  and_then (perform (IoResolve (host (peer c)) (port (peer c)))) (fun _ =>
  let req := sync_message c method target payload in
  if negb (tls (url_ c)) then
    and_then (perform IoConnect) (fun _ =>
    and_then (perform (IoWrite req)) (fun _ =>
    and_then (read_message IoRead) (fun res =>
    and_then (attempt IoShutdown) (fun ec =>
    and_then (plain_shutdown ec) (fun _ => return_ res)))))
  else
    and_then (attempt (IoServerName (host (url_ c)))) (fun ec =>
    match ec with
    | Some _ => throw (runtime_error "unable to set TLS server name")
    | None =>
    and_then (perform IoConnect) (fun _ =>
    and_then (match proxy_ c with Some p => establish_proxy_tunnel (url_ c) p | None => return_ tt end) (fun _ =>
    and_then (perform (IoTlsHandshake (verify_tls c))) (fun _ =>
    and_then (perform (IoWrite req)) (fun _ =>
    and_then (read_message IoRead) (fun res =>
    and_then (attempt IoShutdown) (fun ec =>
    and_then (tls_shutdown ec) (fun _ => return_ res)))))))
    end)).
End exchange.

(** ** The asynchronous exchange

    What a completion handler does: it starts the next call, or finishes the
    operation - after calling the transport's [fail] with [failed], if given. *)
Inductive async_next : Type :=
  | Await (c : io_call)
  | Finish (failed : option bstr) (result : error_code + response).

Definition finish (ec : error_code) : async_next := Finish None (inl ec).

Section operation.
Context (c : settings) (request : http_request).

Definition async_start : async_next := Await (IoResolve (host (peer c)) (port (peer c))).

(** [connect]; [sni] is what [SSL_set_tlsext_host_name] reports. *)
Definition async_connect (sni : option error_code) : async_next :=
  if tls (url_ c) then match sni with Some ec => finish ec | None => Await IoConnect end
  else Await IoConnect.

Definition handshake_tls : async_next := Await (IoTlsHandshake (verify_tls c)).

Definition write_proxy_connect (p : proxy_config) : async_next := Await (IoProxyWrite (proxy_request (url_ c) p)).

Definition write_request : async_next := Await (IoWrite request).

Definition async_connected : async_next :=
  if tls (url_ c) then match proxy_ c with Some p => write_proxy_connect p | None => handshake_tls end
  else write_request.

Definition async_proxy_read (r : response) : async_next :=
  if success (status r) then handshake_tls
  else Finish (Some (bs "polling transport: proxy CONNECT returned HTTP " ++ to_string (status r)))
              (inl ec_operation_aborted).

Definition complete_response (r : response) : async_next := Finish None (inr r).

(** The handler of a call that ended with [ec], having read [r] if it reads. *)
Definition on_completed (call : io_call) (ec sni : option error_code) (r : response) : async_next :=
  match ec with
  | Some ec => finish ec
  | None =>
      match call with
      | IoResolve _ _ => async_connect sni
      | IoConnect => async_connected
      | IoProxyWrite _ => Await IoProxyRead
      | IoProxyRead => async_proxy_read r
      | IoTlsHandshake _ => write_request
      | IoWrite _ => Await IoRead
      | IoRead | IoServerName _ | IoShutdown => complete_response r
      end
  end.

(** The blocking call inside the handler. *)
Definition blocking_calls (call : io_call) (ec : option error_code) : list io_call :=
  match call, ec with
  | IoResolve _ _, None => if tls (url_ c) then [IoServerName (host (url_ c))] else []
  | _, _ => []
  end.

(** The operation against a network. *)
Fixpoint async_run (fuel : nat) (net : network) (next : async_next) : list io_call * async_next :=
  match fuel, next with
  | S f, Await call =>
      let ec := failure net call in
      let '(calls, last) :=
        async_run f net (on_completed call ec (failure net (IoServerName (host (url_ c)))) (received net call)) in
      (call :: blocking_calls call ec ++ calls, last)
  | _, _ => ([], next)
  end.
End operation.

(** Resolve, connect, the two messages of the tunnel, the handshake and the two
    of the request. *)
Definition async_fuel : nat := 7.

Definition async_request (net : network) (c : settings) (method : verb) (target payload : bstr) : list io_call * async_next :=
  async_run c (async_message c method target payload) async_fuel net (async_start c).

(** ** Reading a response

    [read_http_response] over the parser of Beast; [read_some] consumes bytes of
    the stream, or fails. *)
Section read.
Context `{Errors} {P : Type} (is_done : P -> bool) (read_some : P -> error_code + (nat * P)).

Fixpoint read_http_response (fuel : nat) (parser : P) : option (outcome P) :=
  match fuel with
  | O => None
  | S f =>
      if is_done parser then Some (Ok parser)
      else match read_some parser with
           | inl ec => Some (Throw (runtime_error (message ec)))
           | inr (bytes_consumed, parser') =>
               if bool_decide (bytes_consumed = 0%nat) && negb (is_done parser')
               then Some (Throw (runtime_error "HTTP response parser made no progress"))
               else read_http_response f parser'
           end
  end.
End read.

(** ** Properties *)

Section properties.
Context `{Errors}.

Lemma sync_async_message (c : settings) (method : verb) (target payload : bstr) :
  async_message c method target payload = sync_message c method target payload.
Proof.
  unfold async_message, sync_message, async_request_operation, new_request.
  destruct (proxy_ c) as [p|]; cbn; [|done]. destruct (tls (url_ c)); cbn; [done|].
  by case_bool_decide.
Qed.

(** The same exchange, done both ways. *)
Definition agree (net : network) (sync : list io_call * outcome response) (async : list io_call * async_next) : Prop :=
  match async.2 with
  | Finish None (inr r) =>
      sync.1 = async.1 ++ [IoShutdown] /\
      (sync.2 = Ok r \/
       exists ec, failure net IoShutdown = Some ec /\ sync.2 = Throw (runtime_error (message ec)))
  | Finish None (inl ec) =>
      sync.1 = async.1 /\
      (sync.2 = Throw (runtime_error (message ec)) \/
       (exists h, last async.1 = Some (IoServerName h)) /\ is_ok sync.2 = false)
  | Finish (Some m) _ =>
      sync.1 = async.1 /\ exists what, sync.2 = Throw (runtime_error what) /\ m = bs "polling transport: " ++ what
  | Await _ => False
  end.

(** Follow an exchange through a call: [t] is for the case that it fails. *)
Ltac after_call net c t := destruct (failure net c) as [?ec|] eqn:?; cbn -[bs]; [solve [t]|].

Ltac calls_agree := unfold agree, plain_shutdown, tls_shutdown; cbn -[bs]; rewrite ?app_nil_r; cbn -[bs]; solve [eauto 10].

Ltac shutdown_call := destruct (failure _ IoShutdown) as [[]|] eqn:?; calls_agree.

Lemma async_request_agrees (net : network) (c : settings) (method : verb) (target payload : bstr) :
  agree net (sync_request net c method target payload) (async_request net c method target payload).
Proof.
  unfold async_request. rewrite sync_async_message. unfold sync_request, async_fuel, async_start, perform, attempt, read_message.
  set (req := sync_message c method target payload). clearbody req.
  cbn -[bs]. after_call net (IoResolve (host (peer c)) (port (peer c))) calls_agree.
  unfold async_connect, async_connected, handshake_tls, write_request, establish_proxy_tunnel, perform, read_message.
  destruct (tls (url_ c)) eqn:Htls; cbn -[bs].
  - after_call net (IoServerName (host (url_ c))) calls_agree. after_call net IoConnect calls_agree.
    unfold async_connected. rewrite Htls. destruct (proxy_ c) as [p|]; cbn -[bs].
    + after_call net (IoProxyWrite (proxy_request (url_ c) p)) calls_agree. after_call net IoProxyRead calls_agree.
      unfold async_proxy_read. destruct (success (status (received net IoProxyRead))); cbn -[bs]; [|calls_agree].
      after_call net (IoTlsHandshake (verify_tls c)) calls_agree. after_call net (IoWrite req) calls_agree.
      after_call net IoRead calls_agree. shutdown_call.
    + after_call net (IoTlsHandshake (verify_tls c)) calls_agree. after_call net (IoWrite req) calls_agree.
      after_call net IoRead calls_agree. shutdown_call.
  - after_call net IoConnect calls_agree. unfold async_connected. rewrite Htls. cbn -[bs].
    after_call net (IoWrite req) calls_agree. after_call net IoRead calls_agree. shutdown_call.
Qed.

(** [C22] For every network the asynchronous operation finishes within seven calls,
    having called its completion once; it makes the calls of the blocking exchange,
    in the same order with the same messages, except for the shutdown of the
    connection; it succeeds with the response the blocking exchange returns, unless
    that fails only in the shutdown, and fails where that throws. *)
Theorem async_request_like_sync (net : network) (c : settings) (method : verb) (target payload : bstr) :
  agree net (sync_request net c method target payload) (async_request net c method target payload).
Proof.
  apply async_request_agrees.
Qed.

(** *** Fields *)

Lemma request_target_set_fields headers r : request_target (set_fields headers r) = request_target r.
Proof. unfold set_fields. revert r. induction headers as [|[k v] headers IH]; intros r; cbn [foldl]; [done|]. by rewrite IH. Qed.

(** The values of the fields of a name, and the last one of a list. *)
Definition values (name : bstr) (l : list (bstr * bstr)) : list bstr := snd <$> filter (fun kv => lower kv.1 = lower name) l.
Definition last_value (name : bstr) (l : list (bstr * bstr)) : option bstr := last (values name l).

Lemma values_app name l k : values name (l ++ k) = values name l ++ values name k.
Proof. unfold values. by rewrite filter_app, fmap_app. Qed.

Lemma values_cons name k v l : values name ((k, v) :: l) = (if decide (lower k = lower name) then [v] else []) ++ values name l.
Proof. unfold values. rewrite filter_cons. cbn [fst]. by case_decide. Qed.

Lemma values_removed name name' l :
  values name (filter (fun kv => lower kv.1 <> lower name') l) = if decide (lower name' = lower name) then [] else values name l.
Proof.
  induction l as [|[k v] l IH]; [by case_decide|]. rewrite filter_cons, values_cons. cbn [fst].
  repeat case_decide; rewrite ?values_cons, IH; repeat case_decide; cbn; congruence.
Qed.

Lemma values_set_field name name' value r :
  values name (fields (set_field name' value r)) = if decide (lower name' = lower name) then [value] else values name (fields r).
Proof.
  unfold set_field; cbn [fields]. rewrite values_app, values_removed, values_cons.
  case_decide; [done|]. by rewrite !app_nil_r.
Qed.

Lemma values_set_fields name headers r :
  values name (fields (set_fields headers r)) =
  match last_value name headers with Some v => [v] | None => values name (fields r) end.
Proof.
  unfold set_fields, last_value. revert r. induction headers as [|[k v] headers IH]; intros r; cbn [foldl]; [done|].
  rewrite IH, values_set_field. cbn [fst snd]. change ((k, v) :: headers) with ([(k, v)] ++ headers).
  rewrite values_app, last_app. destruct (last (values name headers)); [done|].
  rewrite values_cons. by case_decide.
Qed.

(** Every request sent after a TLS handshake has succeeded, and satisfying [ok]. *)
Fixpoint guarded (net : network) (ok : http_request -> Prop) (shaken : bool) (calls : list io_call) : Prop :=
  match calls with
  | [] => True
  | IoTlsHandshake _ as call :: calls' => guarded net ok (match failure net call with None => true | Some _ => false end) calls'
  | IoWrite r :: calls' => (shaken = true /\ ok r) /\ guarded net ok shaken calls'
  | _ :: calls' => guarded net ok shaken calls'
  end.

Lemma guarded_split net ok before r after shaken :
  guarded net ok shaken (before ++ IoWrite r :: after) ->
  ok r /\ (shaken = true \/ exists b, IoTlsHandshake b ∈ before /\ failure net (IoTlsHandshake b) = None).
Proof.
  revert shaken. induction before as [|call before IH]; intros shaken; cbn.
  - intros [[-> Hok] _]. by auto.
  - assert (forall sh, guarded net ok sh (before ++ IoWrite r :: after) ->
      ok r /\ (sh = true \/ exists b, IoTlsHandshake b ∈ call :: before /\ failure net (IoTlsHandshake b) = None)) as IH'.
    { intros sh [Hok [?|(b & ? & ?)]]%IH; split; auto. right. exists b. split; [by right|done]. }
    destruct call; try apply IH'.
    + intros [Hok [Hs|?]]%IH'; split; auto. right. exists verify_peer. split; [by left|]. by destruct (failure net (IoTlsHandshake verify_peer)).
    + intros [_ Hg]. by apply IH'.
Qed.

Lemma guarded_app net ok shaken calls1 calls2 : guarded net ok shaken (calls1 ++ calls2) -> guarded net ok shaken calls1.
Proof. revert shaken. induction calls1 as [|[] calls1 IH]; intros shaken; cbn; naive_solver. Qed.

(** The header that carries the credentials for the proxy. *)
Definition proxy_authorization : bstr := "Proxy-Authorization".

Lemma in_set_field name value r kv : kv ∈ fields (set_field name value r) -> kv ∈ fields r \/ kv = (name, value).
Proof. unfold set_field; cbn. rewrite elem_of_app, list_elem_of_filter, list_elem_of_singleton. naive_solver. Qed.

Lemma in_set_fields headers r kv : kv ∈ fields (set_fields headers r) -> kv ∈ fields r \/ kv ∈ headers.
Proof.
  unfold set_fields. revert r. induction headers as [|[k v] headers IH]; intros r; cbn [foldl]; [by left|].
  intros [[?|E]%in_set_field|?]%IH; [by left| |right; by right]. right. rewrite E. by left.
Qed.

Lemma message_credentials c method target payload v :
  tls (url_ c) = true -> (proxy_authorization, v) ∈ fields (sync_message c method target payload) ->
  (proxy_authorization, v) ∈ extra_headers c.
Proof.
  intros Ht. unfold sync_message. rewrite Ht. cbn [negb andb fields].
  assert (forall r : http_request, (match proxy_ c with Some _ => r | None => r end) = r) as -> by (intros; by destruct (proxy_ c)).
  intros [Hin|?]%in_set_fields; [|done]. exfalso.
  apply in_set_field in Hin as [[[Hin|E]%in_set_field|E]%in_set_field|E]; [by apply elem_of_nil in Hin|..];
    injection E as E _; by vm_compute in E.
Qed.

Ltac guard_done :=
  cbn -[bs]; repeat match goal with H : failure _ _ = None |- _ => rewrite ?H; clear H end; auto 10.

Lemma sync_guarded net c method target payload :
  tls (url_ c) = true ->
  guarded net (fun r => r = sync_message c method target payload) false (sync_request net c method target payload).1.
Proof.
  intros Ht. unfold sync_request, establish_proxy_tunnel, perform, attempt, read_message. rewrite Ht.
  set (req := sync_message c method target payload). clearbody req. cbn -[bs].
  destruct (proxy_ c) as [p|]; cbn -[bs].
  - after_call net (IoResolve (host (peer c)) (port (peer c))) guard_done. after_call net (IoServerName (host (url_ c))) guard_done.
    after_call net IoConnect guard_done. after_call net (IoProxyWrite (proxy_request (url_ c) p)) guard_done.
    after_call net IoProxyRead guard_done. destruct (success (status (received net IoProxyRead))); cbn -[bs]; [|done].
    after_call net (IoTlsHandshake (verify_tls c)) guard_done. after_call net (IoWrite req) guard_done. after_call net IoRead guard_done.
    destruct (failure net IoShutdown) as [[]|]; guard_done.
  - after_call net (IoResolve (host (peer c)) (port (peer c))) guard_done. after_call net (IoServerName (host (url_ c))) guard_done.
    after_call net IoConnect guard_done. after_call net (IoTlsHandshake (verify_tls c)) guard_done.
    after_call net (IoWrite req) guard_done. after_call net IoRead guard_done.
    destruct (failure net IoShutdown) as [[]|]; guard_done.
Qed.

(** The calls of the asynchronous exchange are among the first of the blocking one. *)
Lemma agree_calls net sync async : agree net sync async -> exists rest, sync.1 = async.1 ++ rest.
Proof.
  unfold agree. destruct async.2 as [|[m|] [ec|r]]; intros Ha; try done;
    destruct Ha as [-> _]; by eauto using app_nil_r || (exists []; by rewrite app_nil_r).
Qed.

(** [C23] A request for a TLS server is sent after the TLS handshake has succeeded,
    and never carries the credentials for the proxy, unless the extra headers do:
    these travel in the CONNECT request alone.  Both exchanges. *)
Theorem request_confidential (net : network) (c : settings) (method : verb) (target payload : bstr)
    (calls before after : list io_call) (r : http_request) :
  tls (url_ c) = true ->
  calls = (sync_request net c method target payload).1 \/ calls = (async_request net c method target payload).1 ->
  calls = before ++ IoWrite r :: after ->
  (exists verify, IoTlsHandshake verify ∈ before /\ failure net (IoTlsHandshake verify) = None) /\
  (forall v, (proxy_authorization, v) ∈ fields r -> (proxy_authorization, v) ∈ extra_headers c).
Proof.
  intros Ht Hcalls Hsplit.
  assert (guarded net (fun r => r = sync_message c method target payload) false calls) as Hg.
  { pose proof (sync_guarded net c method target payload Ht) as Hg. destruct Hcalls as [->| ->]; [done|].
    destruct (agree_calls _ _ _ (async_request_agrees net c method target payload)) as [rest E].
    rewrite E in Hg. by eapply guarded_app. }
  rewrite Hsplit in Hg. apply guarded_split in Hg as [-> [?|?]]; [done|]. split; [done|].
  intros v. by apply message_credentials.
Qed.

Lemma read_fuel {P : Type} (is_done : P -> bool) (read_some : P -> error_code + (nat * P)) f g p r :
  (f <= g)%nat -> read_http_response is_done read_some f p = Some r -> read_http_response is_done read_some g p = Some r.
Proof.
  revert g p. induction f as [|f IH]; intros [|g] p Hle; try done; [lia|]. cbn.
  destruct (is_done p); [done|]. destruct (read_some p) as [?|[k p']]; [done|].
  destruct (bool_decide (k = 0%nat) && negb (is_done p')); [done|]. apply IH. lia.
Qed.

(** Reading a response terminates: with a parser that bounds what it takes, the
    loop ends after at most as many turns as bytes are left, and two; it returns only
    a complete response. *)
Theorem read_http_response_terminates {P : Type} (is_done : P -> bool) (read_some : P -> error_code + (nat * P))
    (size : P -> nat) (limit : nat) (p : P) :
  (forall p n p', read_some p = inr (n, p') -> size p' = (size p + n)%nat /\ (size p' <= limit)%nat) ->
  (size p <= limit)%nat ->
  exists result, read_http_response is_done read_some (limit - size p + 2) p = Some result /\
    forall p', result = Ok p' -> is_done p' = true.
Proof.
  intros Hbound. remember (limit - size p)%nat as n eqn:Hn. revert p Hn.
  induction (lt_wf n) as [n _ IH]. intros p Hn Hp. replace (n + 2)%nat with (S (S n)) by lia. cbn [read_http_response].
  destruct (is_done p) eqn:Hd; [exists (Ok p); split; [done|by intros ? [= <-]]|].
  destruct (read_some p) as [ec|[k p']] eqn:Hr; [eexists; split; [done|done]|].
  apply Hbound in Hr as [Hs Hl]. case_bool_decide as Hk; subst.
  - destruct (is_done p') eqn:Hd'; cbn; [|by eexists]. exists (Ok p'). split; [done|by intros ? [= <-]].
  - cbn [andb]. destruct (IH (limit - size p')%nat ltac:(lia) p' eq_refl Hl) as (result & E & Hok).
    exists result. split; [|done].
    change (read_http_response is_done read_some (S (limit - size p)) p' = Some result).
    eapply read_fuel; [|exact E]. lia.
Qed.
End properties.

(** ** Examples *)

Module HttpDemo.
Definition messages : Errors := fun ec =>
  match ec with
  | ec_not_connected => "not connected"
  | ec_eof => "end of stream"
  | ec_stream_truncated => "stream truncated"
  | ec_operation_aborted => "operation aborted"
  | ec_other m => m
  end.

Definition members : settings :=
  mk_settings (mk_url "https" "example.org" "443" "/engine.io/?EIO=4" true)
    (Some (mk_proxy (mk_url "http" "proxy" "3128" "/" false) "Basic dTpw")) [(bs "X-Token", bs "t")] true.

(** Nothing fails, the proxy and the server answer 200. *)
Definition net : network := mk_network (fun _ => None) (fun _ => mk_response 200 "ok").

Definition calls : list io_call := (sync_request (H := messages) net members verb_get "/engine.io/?EIO=4" []).1.

(** A parser that is done after five bytes and reads two at a time. *)
Definition is_done (p : nat) : bool := (5 <=? p)%nat.
Definition read_some (p : nat) : error_code + (nat * nat) :=
  if (p <? 5)%nat then inr (Nat.min 2 (5 - p), (p + Nat.min 2 (5 - p))%nat) else inl ec_eof.
End HttpDemo.

Lemma request_confidential_witness :
  (exists verify, IoTlsHandshake verify ∈ take 6 HttpDemo.calls /\ failure HttpDemo.net (IoTlsHandshake verify) = None) /\
  (forall v, (proxy_authorization, v) ∈ fields (sync_message HttpDemo.members verb_get "/engine.io/?EIO=4" []) ->
     (proxy_authorization, v) ∈ extra_headers HttpDemo.members).
Proof.
  apply (request_confidential (H := HttpDemo.messages) HttpDemo.net HttpDemo.members verb_get "/engine.io/?EIO=4" []
           HttpDemo.calls (take 6 HttpDemo.calls) (drop 7 HttpDemo.calls)).
  - reflexivity.
  - left. reflexivity.
  - vm_compute. reflexivity.
Defined.

Lemma read_http_response_terminates_witness :
  exists result, read_http_response (H := HttpDemo.messages) HttpDemo.is_done HttpDemo.read_some (5 - 0 + 2)%nat 0%nat = Some result /\
    forall p', result = Ok p' -> HttpDemo.is_done p' = true.
Proof.
  apply (read_http_response_terminates (H := HttpDemo.messages) HttpDemo.is_done HttpDemo.read_some id 5%nat 0%nat).
  - unfold HttpDemo.read_some, id. intros p n p'. destruct (Nat.ltb_spec p 5); [|done]. injection 1 as <- <-. split; [done|].
    change (p + Nat.min 2 (5 - p) <= 5)%nat. lia.
  - unfold id. lia.
Defined.
