(* ===== verification/PollingCommon.v ===== *)
(** * What both variants of the long-polling transport compute

    src/http_polling_transport.cpp: the target of a request, the body of a write,
    what [deliver] makes of a packet. *)

From S2P Require Export Transport Polling HttpRequest Json.
From stdpp Require Import options.
#[local] Set Default Proof Using "Type*".
Local Open Scope Z_scope.

(** [poll_target] *)
Definition poll_target (u : url_parts) (sid : bstr) : bstr :=
  target u ++ (match find_char (target u) "?" 0 with None => bs "?sid=" | Some _ => bs "&sid=" end) ++ sid.

(** What [post] and [start_next_external_write] send for an entry of the queue. *)
Definition post_body (write : bstr * bool) : bstr :=
  if write.2 then polling_encode_binary write.1 else write.1.

Definition returned_http (what : bstr) (status : Z) : bstr := what ++ bs " returned HTTP " ++ to_string status.

Section deliver.
Context `{JsonLib}.

(** The session id after the first branch of [deliver]. *)
Definition read_sid (packet sid : bstr) : outcome bstr :=
  if decide (head packet = Some "0"%char) then
    match parse (drop 1 packet) with
    | None => Ok sid
    | Some handshake => value_or get_string handshake "sid" []
    end
  else Ok sid.
End deliver.

(** The call of the message handler for a packet. *)
Definition packet_call (packet : bstr) : option output :=
  if decide (head packet = Some "b"%char) then
    match polling_decode_binary packet [] with
    | (decoded, true) => Some (TMessage decoded true)
    | (_, false) => None
    end
  else Some (TMessage packet false).

(** [what()] of an exception is the library's where the library throws it. *)
Class Exceptions : Type := what : exn -> bstr.
