(* ===== verification/PollingTransport.v ===== *)
(** * The HTTP long-polling transport with threads of its own

    src/http_polling_transport.cpp without an external [io_context]: [connect]
    starts a thread that polls and one that writes, [close] one that ends the
    session.  A thread is a program counter; a step of it goes from one access of
    a shared member, one critical section or one call to the next.  [mutex_] is
    held from step to step only by the writer that is about to sleep, and
    [connect_mutex_] by a call of [close] or [join_threads].  What a request
    returns, and what user handlers do, is chosen by the environment. *)

From S2P Require Export PollingCommon.
From stdpp Require Import options.
#[local] Set Default Proof Using "Type*".
Local Open Scope Z_scope.

(** ** Threads *)

Inductive thread : Type := TPoll | TWrite | TCloser | TOther.
#[export] Instance thread_eq_dec : EqDecision thread.
Proof. solve_decision. Defined.

(** [fail]: before [closing_.exchange], the assignment of [state_], the clearing of
    the queue, [notify_all]; before and inside each handler. *)
Inductive fail_pc : Type := FExchange | FState | FClear | FNotify | FCallError | FInError | FCallClose | FInClose.

(** [run]; [handshake] tells the first request from the others.  In [PFail] the
    flag says that [fail] is called in the [catch] clause. *)
Inductive poll_pc : Type :=
  | PIdle
  | PRequest (handshake : bool)
  | PWaiting (handshake : bool)
  | PResponse (handshake : bool) (r : response)
  | POpened (r : response)
  | PInOpen (r : response)
  | PDelivering (packets : list bstr)
  | PPacket (packet : bstr) (packets : list bstr)
  | PCall (o : output) (packets : list bstr)
  | PInMessage (packets : list bstr)
  | PLoop
  | PCaught (what : bstr)
  | PFail (caught : bool) (message : bstr) (p : fail_pc)
  | PDone.

(** [post] *)
Inductive post_pc : Type :=
  | PostStart (write : bstr * bool)
  | PostWaiting
  | PostResponse (r : response)
  | PostCaught (what : bstr)
  | PostFail (caught : bool) (message : bstr) (p : fail_pc)
  | Posted.

(** [run_writes]: [WBlocking] has found the predicate of [wait] false and holds
    [mutex_]; [WSleeping] has released it. *)
Inductive write_pc : Type := WIdle | WLock | WBlocking | WSleeping | WPost (p : post_pc) | WDone.

(** The one call of [close] that runs the function of [call_once]. *)
Inductive closer_pc : Type := ClExchange | ClState | ClNotify | ClSession | ClCall | ClInClose.

(** [join_threads], once it holds [connect_mutex_]. *)
Inductive join_pc : Type := JWrite | JClose | JPoll.

(** ** State *)

Inductive poll_event : Type :=
  | POut (o : output)
  | PSent (t : thread) (request : http_request)
  | PAccepted (write : bstr * bool)
  | PTaken (write : bstr * bool)
  | POverlooked (* [notify_all] between the writer's test and its sleep *)
  | PJoined.

(** [notifies] counts the calls of [send] before their [notify_one]; [callers] are
    the threads waiting in [close] for [connect_mutex_]; [closer] the thread inside
    [call_once], [notify_close] and where it is. *)
Record polling : Type := mk_polling {
  members : settings;
  connected : bool;
  state_ : transport_state;
  closing : bool;
  shutdown_once : bool;
  sid : bstr;
  write_queue : list (bstr * bool);
  poll_at : poll_pc;
  write_at : write_pc;
  close_at : option post_pc;
  notifies : nat;
  callers : list thread;
  closer : option (thread * bool * closer_pc);
  joiner : option join_pc;
  history : list poll_event;
}.

Definition new_polling (proxy : option proxy_config) (headers : list (bstr * bstr)) (verify : bool) : polling :=
  mk_polling (mk_settings (mk_url [] [] [] [] false) proxy headers verify) false transport_closed false false [] []
    PIdle WIdle None 0 [] None None [].

Definition record (ev : poll_event) (s : polling) : polling := {| s with history := history s ++ [ev] |}.

Definition mutex_free (s : polling) : bool := match write_at s with WBlocking => false | _ => true end.

Definition closer_holds (c : option (thread * bool * closer_pc)) : bool :=
  match c with Some (_, _, (ClExchange | ClState | ClNotify | ClSession)) => true | _ => false end.

Definition connect_mutex_free (s : polling) : bool :=
  negb (closer_holds (closer s)) && match joiner s with None => true | Some _ => false end.

(** A step that locks [mutex_]. *)
Definition locking {A} (s : polling) (x : A) : option A := if mutex_free s then Some x else None.

Definition wake (s : polling) : polling :=
  match write_at s with WSleeping => {| s with write_at := WLock |} | _ => s end.

Definition notify_all (s : polling) : polling :=
  match write_at s with WBlocking => record POverlooked s | _ => wake s end.

(** ** Failing *)

(** Where [fail] goes on, [None] when it returns. *)
Definition fail_step (message : bstr) (p : fail_pc) (s : polling) : option (option fail_pc * polling) :=
  match p with
  | FExchange =>
      if closing s then Some (None, s)
      else Some (Some FState, record (POut TShutdown) {| s with closing := true |})
  | FState => Some (Some FClear, {| s with state_ := transport_closed |})
  | FClear => locking s (Some FNotify, {| s with write_queue := [] |})
  | FNotify => Some (Some FCallError, notify_all s)
  | FCallError => Some (Some FInError, record (POut (TError message)) s)
  | FCallClose => Some (Some FInClose, record (POut (TClose message)) s)
  | FInError | FInClose => None
  end.

(** When the user handler [fail] has called returns. *)
Definition fail_return (p : fail_pc) : option (option fail_pc) :=
  match p with FInError => Some (Some FCallClose) | FInClose => Some None | _ => None end.

(** ** The poll thread *)

Definition poll_goto (p : poll_pc) (s : polling) : polling := {| s with poll_at := p |}.

Section with_json.
Context `{JsonLib}.
Context `{Exceptions}.

Definition poll_send (handshake : bool) (s : polling) : polling :=
  let u := url_ (members s) in
  let target := if handshake then target u else poll_target u (sid s) in
  poll_goto (PWaiting handshake) (record (PSent TPoll (sync_message (members s) verb_get target [])) s).

(** One packet of [deliver], up to the call of the handler. *)
Definition deliver_packet (packet : bstr) (packets : list bstr) (s : polling) : polling :=
  match read_sid packet (sid s) with
  | Throw e => poll_goto (PCaught (what e)) s
  | Ok sid =>
      poll_goto (match packet_call packet with Some o => PCall o packets | None => PDelivering packets end)
        {| s with sid := sid |}
  end.

Definition poll_step (s : polling) : option polling :=
  match poll_at s with
  | PRequest handshake => if handshake then Some (poll_send true s) else locking s (poll_send false s)
  | PResponse true r =>
      Some (if success (status r) then poll_goto (POpened r) {| s with state_ := transport_open |}
            else poll_goto (PFail false (returned_http "polling handshake" (status r)) FExchange) s)
  | PResponse false r =>
      Some (if closing s then poll_goto PDone s
            else if success (status r) then poll_goto (PDelivering (polling_split_payload (response_body r))) s
            else poll_goto (PFail false (returned_http "polling request" (status r)) FExchange) s)
  | POpened r => Some (poll_goto (PInOpen r) (record (POut TOpen) s))
  | PDelivering [] => Some (poll_goto PLoop s)
  | PDelivering (packet :: packets) =>
      Some (poll_goto (if closing s then PLoop else PPacket packet packets) s)
  | PPacket packet packets =>
      let s' := deliver_packet packet packets s in
      if decide (head packet = Some "0"%char) then locking s s' else Some s'
  | PCall o packets => Some (poll_goto (PInMessage packets) (record (POut o) s))
  | PLoop => Some (poll_goto (if closing s then PDone else PRequest false) s)
  | PCaught what =>
      Some (poll_goto (if closing s then PDone else PFail true (bs "polling transport: " ++ what) FExchange) s)
  | PFail caught message p =>
      '(next, s) ← fail_step message p s;
      Some (poll_goto (match next with Some p => PFail caught message p | None => PDone end) s)
  | PIdle | PWaiting _ | PInOpen _ | PInMessage _ | PDone => None
  end.

(** A request ends. *)
Definition poll_respond (r : outcome response) (s : polling) : option polling :=
  match poll_at s with
  | PWaiting handshake => Some (poll_goto (match r with Ok r => PResponse handshake r | Throw e => PCaught (what e) end) s)
  | _ => None
  end.

(** A user handler returns, or throws a [std::exception]; from the [catch] clause
    that would end the program. *)
Definition poll_return (s : polling) : option polling :=
  match poll_at s with
  | PInOpen r =>
      Some (poll_goto (if closing s then PDone else PDelivering (polling_split_payload (response_body r))) s)
  | PInMessage packets => Some (poll_goto (PDelivering packets) s)
  | PFail caught message p =>
      next ← fail_return p; Some (poll_goto (match next with Some p => PFail caught message p | None => PDone end) s)
  | _ => None
  end.

Definition poll_throw (e : exn) (s : polling) : option polling :=
  match poll_at s with
  | PInOpen _ | PInMessage _ => Some (poll_goto (PCaught (what e)) s)
  | PFail false _ p => _ ← fail_return p; Some (poll_goto (PCaught (what e)) s)
  | _ => None
  end.
End with_json.

(** ** Posting *)

Definition post_send (t : thread) (write : bstr * bool) (s : polling) : polling :=
  record (PSent t (sync_message (members s) verb_post (poll_target (url_ (members s)) (sid s)) (post_body write))) s.

Definition post_step (t : thread) (p : post_pc) (s : polling) : option (post_pc * polling) :=
  match p with
  | PostStart write => locking s (PostWaiting, post_send t write s)
  | PostResponse r =>
      Some (if negb (success (status r)) && negb (closing s)
            then PostFail false (returned_http "polling write" (status r)) FExchange else Posted, s)
  | PostCaught what =>
      Some (if closing s then Posted else PostFail true (bs "polling write: " ++ what) FExchange, s)
  | PostFail caught message p =>
      '(next, s) ← fail_step message p s;
      Some (match next with Some p => PostFail caught message p | None => Posted end, s)
  | PostWaiting | Posted => None
  end.

Definition post_respond `{Exceptions} (r : outcome response) (p : post_pc) : option post_pc :=
  match p with
  | PostWaiting => Some (match r with Ok r => PostResponse r | Throw e => PostCaught (what e) end)
  | _ => None
  end.

Definition post_return (p : post_pc) : option post_pc :=
  match p with
  | PostFail caught message p =>
      next ← fail_return p; Some (match next with Some p => PostFail caught message p | None => Posted end)
  | _ => None
  end.

Definition post_throw `{Exceptions} (e : exn) (p : post_pc) : option post_pc :=
  match p with
  | PostFail false _ p => _ ← fail_return p; Some (PostCaught (what e))
  | _ => None
  end.

(** ** The writer *)

Definition write_goto (p : write_pc) (s : polling) : polling := {| s with write_at := p |}.

(** [WLock] takes the mutex, tests the predicate, and pops the front. *)
Definition write_step (s : polling) : option polling :=
  match write_at s with
  | WLock =>
      Some (if closing s || negb (bool_decide (write_queue s = [])) then
              match write_queue s with
              | [] => write_goto WDone s
              | write :: queue =>
                  write_goto (WPost (PostStart write)) (record (PTaken write) {| s with write_queue := queue |})
              end
            else write_goto WBlocking s)
  | WBlocking => Some (write_goto WSleeping s)
  | WPost Posted => Some (write_goto WLock s)
  | WPost p => '(p, s) ← post_step TWrite p s; Some (write_goto (WPost p) s)
  | WIdle | WSleeping | WDone => None
  end.

(** ** Closing *)

Definition close_step (s : polling) : option polling :=
  match close_at s with
  | Some p => '(p, s) ← post_step TCloser p s; Some {| s with close_at := Some p |}
  | None => None
  end.

Definition closer_step (s : polling) : option polling :=
  match closer s with
  | Some (t, notify_close, p) =>
      match p with
      | ClExchange =>
          let notify_close := negb (closing s) in
          let s := if notify_close then record (POut TShutdown) {| s with closing := true |} else s in
          Some {| s with closer := Some (t, notify_close, ClState) |}
      | ClState => Some {| s with state_ := transport_closed; closer := Some (t, notify_close, ClNotify) |}
      | ClNotify => let s := notify_all s in Some {| s with closer := Some (t, notify_close, ClSession) |}
      | ClSession =>
          let has_session := negb (bool_decide (sid s = [])) in
          let s := if has_session then {| s with close_at := Some (PostStart (bs "1", false)) |} else s in
          locking s {| s with closer := Some (t, notify_close, ClCall) |}
      | ClCall =>
          if notify_close then
            let s := record (POut (TClose "closed")) s in Some {| s with closer := Some (t, notify_close, ClInClose) |}
          else Some {| s with closer := None |}
      | ClInClose => None
      end
  | None => None
  end.

(** A thread that called [close] gets [connect_mutex_]. *)
Definition close_enter (t : thread) (rest : list thread) (s : polling) : polling :=
  if shutdown_once s then {| s with callers := rest |}
  else {| s with callers := rest; shutdown_once := true; closer := Some (t, false, ClExchange) |}.

(** [join_threads] *)
Definition ended (p : write_pc) : bool := match p with WIdle | WDone => true | _ => false end.
Definition post_ended (p : option post_pc) : bool := match p with None | Some Posted => true | _ => false end.
Definition poll_ended (p : poll_pc) : bool := match p with PIdle | PDone => true | _ => false end.

Definition join_step (s : polling) : option polling :=
  match joiner s with
  | Some JWrite => if ended (write_at s) then Some {| s with joiner := Some JClose |} else None
  | Some JClose => if post_ended (close_at s) then Some {| s with joiner := Some JPoll |} else None
  | Some JPoll => if poll_ended (poll_at s) then Some (record PJoined {| s with joiner := None |}) else None
  | None => None
  end.

(** The destructor, on the thread that has dropped the last reference: [join_thread]
    detaches this one and waits for the others, [None] when one of them is still running. *)
Definition join_thread (this other : thread) (over : bool) (s : polling) : option polling :=
  if bool_decide (this = other) || over then Some s else None.

Definition polling_destroy (this : thread) (s : polling) : option polling :=
  let s := notify_all {| s with closing := true; state_ := transport_closed |} in
  if connect_mutex_free s then
    s ← join_thread this TWrite (ended (write_at s)) s;
    s ← join_thread this TCloser (post_ended (close_at s)) s;
    join_thread this TPoll (poll_ended (poll_at s)) s
  else None.

(** ** The other methods *)

Definition polling_connect (url : bstr) (s : polling) : outcome polling :=
  if closing s then Ok s
  else
    u ← parse_ws_url url;
    let m := members s in
    Ok {| s with members := {| m with url_ := u |}; connected := true; state_ := transport_connecting;
                 write_at := WLock; poll_at := PRequest true |}.

(** [send], up to [notify_one] *)
Definition polling_send (write : bstr * bool) (s : polling) : polling :=
  if closing s || negb (bool_decide (state_ s = transport_open)) then s
  else record (PAccepted write) {| s with write_queue := write_queue s ++ [write]; notifies := S (notifies s) |}.

Definition notify_one (s : polling) : option polling :=
  match notifies s with S n => Some (wake {| s with notifies := n |}) | O => None end.

(** ** The system *)

Definition post_in_user (p : post_pc) : bool := match p with PostFail _ _ (FInError | FInClose) => true | _ => false end.

(** Whether the thread runs user code of which no call is in progress. *)
Definition in_user (t : thread) (s : polling) : bool :=
  match t with
  | TPoll => match poll_at s with PInOpen _ | PInMessage _ | PFail _ _ (FInError | FInClose) => true | _ => false end
  | TWrite => match write_at s with WPost p => post_in_user p | _ => false end
  | TCloser => match close_at s with Some p => post_in_user p | None => false end
  | TOther => true
  end.

Definition calling (t : thread) (s : polling) : bool :=
  bool_decide (t ∈ callers s) || match closer s with Some (t', _, _) => bool_decide (t = t') | None => false end.

(** [thread] calls [close]: from user code that is not inside a call of it, or from
    the close handler that it has called. *)
Definition may_close (t : thread) (s : polling) : bool :=
  in_user t s && (bool_decide (t = TOther) || negb (calling t s) ||
                  match closer s with Some (t', _, ClInClose) => bool_decide (t = t') && negb (bool_decide (t ∈ callers s)) | _ => false end).

Section system.
Context `{JsonLib}.
Context `{Exceptions}.

(** Steps of the transport: no user code, no network. *)
Inductive internal : polling -> polling -> Prop :=
  | in_poll s s' : poll_step s = Some s' -> internal s s'
  | in_write s s' : write_step s = Some s' -> internal s s'
  | in_close_thread s s' : close_step s = Some s' -> internal s s'
  | in_closer s s' : closer_step s = Some s' -> internal s s'
  | in_enter l1 t l2 s : callers s = l1 ++ t :: l2 -> connect_mutex_free s = true -> internal s (close_enter t (l1 ++ l2) s)
  | in_join s s' : join_step s = Some s' -> internal s s'
  | in_notify s s' : notify_one s = Some s' -> internal s s'.

(** Steps of the environment: a request ends; a user handler returns or throws. *)
Inductive external : polling -> polling -> Prop :=
  | ex_poll_respond r s s' : poll_respond r s = Some s' -> external s s'
  | ex_poll_return s s' : calling TPoll s = false -> poll_return s = Some s' -> external s s'
  | ex_poll_throw e s s' : calling TPoll s = false -> poll_throw e s = Some s' -> external s s'
  | ex_write_respond r p p' s : write_at s = WPost p -> post_respond r p = Some p' -> external s (write_goto (WPost p') s)
  | ex_write_return p p' s :
      write_at s = WPost p -> calling TWrite s = false -> post_return p = Some p' -> external s (write_goto (WPost p') s)
  | ex_write_throw e p p' s :
      write_at s = WPost p -> calling TWrite s = false -> post_throw e p = Some p' -> external s (write_goto (WPost p') s)
  | ex_close_respond r p p' s :
      close_at s = Some p -> post_respond r p = Some p' -> external s {| s with close_at := Some p' |}
  | ex_closer_return t notify_close s :
      closer s = Some (t, notify_close, ClInClose) -> t ∉ callers s \/ t = TOther -> external s {| s with closer := None |}.

(** Calls of the methods, by user handlers and other threads; a session connects
    its transport once, and [sync_close] joins after its call of [close]. *)
Inductive calls : polling -> polling -> Prop :=
  | call_connect url s s' :
      connected s = false -> connect_mutex_free s = true -> polling_connect url s = Ok s' -> calls s s'
  | call_send write s : mutex_free s = true -> calls s (polling_send write s)
  | call_close t s : may_close t s = true -> calls s {| s with callers := callers s ++ [t] |}
  | call_join s :
      shutdown_once s = true -> connect_mutex_free s = true -> calls s {| s with joiner := Some JWrite |}.

(** A spurious wake-up of the condition variable. *)
Inductive spurious : polling -> polling -> Prop :=
  | spurious_wake s : write_at s = WSleeping -> spurious s (write_goto WLock s).

Inductive moves : polling -> polling -> Prop :=
  | moves_internal s s' : internal s s' -> moves s s'
  | moves_external s s' : external s s' -> moves s s'
  | moves_calls s s' : calls s s' -> moves s s'.

Inductive p_step : polling -> polling -> Prop :=
  | p_moves s s' : moves s s' -> p_step s s'
  | p_spurious s s' : spurious s s' -> p_step s s'.

Definition outputs_of (evs : list poll_event) : list output :=
  omap (fun ev => match ev with POut o => Some o | _ => None end) evs.

#[export] Instance polling_transport : TransportSystem polling := {|
  t_initial := fun s => exists proxy headers verify, s = new_polling proxy headers verify;
  t_step := p_step;
  t_outputs := fun s => outputs_of (history s);
|}.
End system.
