(* ===== verification/PollingContract.v ===== *)
(** * The long-polling transport keeps the contract of the interface

    The relation between a state of PollingTransport.v and a state of the
    automaton of Transport.v: how far the poll thread is, and which thread still
    owes the error and close notifications. *)

From S2P Require Export PollingTransport.
From stdpp Require Import options.
#[local] Set Default Proof Using "Type*".
Local Open Scope Z_scope.

(** ** The relation *)

(** Before the open handler; about to call a handler; between such calls; past all. *)
Inductive stage : Type := SBefore | SCalling | SBetween | SOver | SImpossible.

Definition poll_stage (p : poll_pc) : stage :=
  match p with
  | PIdle | PRequest true | PWaiting true | PResponse true _ | POpened _ => SBefore
  | PPacket _ _ => SCalling
  | PCall o _ => if is_message o then SCalling else SImpossible
  | PInOpen _ | PDelivering _ | PInMessage _ | PLoop | PRequest false | PWaiting false | PResponse false _ => SBetween
  | PCaught _ | PFail _ _ _ | PDone => SOver
  end.

Definition stage_ok (c : contract) (p : poll_pc) : Prop :=
  match poll_stage p with
  | SBefore => c_opened c = false /\ c_late c = false
  | SCalling => c_opened c = true /\ c_closing c && c_late c = false
  | SBetween => c_opened c = true
  | SOver => True
  | SImpossible => False
  end.

(** Notifications a thread is bound to make. *)
Definition fail_owes (p : fail_pc) : list owed :=
  match p with
  | FState | FClear | FNotify | FCallError => [OwesError]
  | FInError | FCallClose => [OwesClose]
  | FExchange | FInClose => []
  end.

Definition poll_owes (p : poll_pc) : list owed := match p with PFail _ _ p => fail_owes p | _ => [] end.
Definition post_owes (p : post_pc) : list owed := match p with PostFail _ _ p => fail_owes p | _ => [] end.
Definition write_owes (p : write_pc) : list owed := match p with WPost p => post_owes p | _ => [] end.
Definition close_owes (p : option post_pc) : list owed := match p with Some p => post_owes p | None => [] end.
Definition closer_owes (c : option (thread * bool * closer_pc)) : list owed :=
  match c with
  | Some (_, true, (ClState | ClNotify | ClSession | ClCall)) => [OwesClose]
  | _ => []
  end.

Definition others_owe (s : polling) : list owed :=
  write_owes (write_at s) ++ close_owes (close_at s) ++ closer_owes (closer s).
Definition owes (s : polling) : list owed := poll_owes (poll_at s) ++ others_owe s.

Record simulates (s : polling) (c : contract) : Prop := mk_simulates {
  sim_owes : owes_ok c (closing s) (owes s);
  sim_stage : stage_ok c (poll_at s);
}.

(** ** Steps of [fail]

    [rest] is what the other threads owe. *)
Definition next_owes (p : option fail_pc) : list owed := match p with Some p => fail_owes p | None => [] end.

Lemma polling_outputs_snoc o evs : outputs_of (evs ++ [POut o]) = outputs_of evs ++ [o].
Proof. unfold outputs_of. by rewrite omap_app. Qed.

Lemma outputs_record o s : outputs_of (history (record (POut o) s)) = outputs_of (history s) ++ [o].
Proof. unfold outputs_of; cbn. by rewrite omap_app. Qed.

Lemma polling_outputs_other ev evs : (forall o, ev <> POut o) -> outputs_of (evs ++ [ev]) = outputs_of evs.
Proof. unfold outputs_of. rewrite omap_app. intros Hn. destruct ev; cbn; rewrite ?app_nil_r; [by destruct (Hn o)|done..]. Qed.

(** What [notify_all] and [wake] leave alone. *)
Lemma notify_frame s :
  closing (notify_all s) = closing s /\ poll_at (notify_all s) = poll_at s /\ close_at (notify_all s) = close_at s /\
  closer (notify_all s) = closer s /\ write_owes (write_at (notify_all s)) = write_owes (write_at s) /\
  outputs_of (history (notify_all s)) = outputs_of (history s).
Proof.
  unfold notify_all, wake. destruct (write_at s) eqn:E; cbn [record closing poll_at close_at closer write_at];
    rewrite ?E; split_and!; try done. by apply (polling_outputs_other _ (history s)).
Qed.

Lemma fail_step_follows message p s next s' rest c :
  fail_step message p s = Some (next, s') -> owes_ok c (closing s) (fail_owes p ++ rest) ->
  exists os c', outputs_of (history s') = outputs_of (history s) ++ os /\ contract_run c os = Some c' /\
    owes_ok c' (closing s') (next_owes next ++ rest) /\ c_opened c' = c_opened c /\ c_late c' = c_late c.
Proof.
  intros Hf Hok. destruct p; cbn [fail_step] in Hf.
  - destruct (closing s) eqn:Hc; injection Hf as <- <-.
    + exists [], c. rewrite app_nil_r, Hc. by split_and!.
    + destruct Hok as [H1 H2 H3 H4]. destruct (H2 eq_refl) as (E & Hl & He & Hd). cbn in E. subst rest.
      exists [TShutdown], {| c with c_closing := true |}. rewrite outputs_record. cbn [contract_run contract_step].
      rewrite H1. split_and!; try done. split; cbn; [done|done|lia|by repeat constructor].
  - injection Hf as <- <-. exists [], c. rewrite app_nil_r. by split_and!.
  - unfold locking in Hf. destruct (mutex_free s); [|done]. injection Hf as <- <-.
    exists [], c. rewrite app_nil_r. by split_and!.
  - injection Hf as <- <-. destruct (notify_frame s) as (-> & _ & _ & _ & _ & ->).
    exists [], c. rewrite app_nil_r. by split_and!.
  - injection Hf as <- <-. destruct (single_owed Hok) as (Hc & -> & He & Hd). destruct Hok as [H1 _ _ _].
    exists [TError message], {| c with c_late_error := c_closing c |}. rewrite outputs_record. cbn [contract_run contract_step].
    rewrite He, andb_false_r. split_and!; try done. split; cbn; [done|by rewrite Hc|lia|by repeat constructor].
  - done.
  - injection Hf as <- <-. destruct (single_owed Hok) as (Hc & -> & Hd). destruct Hok as [H1 _ _ _].
    exists [TClose message], {| c with c_closed := true |}. rewrite outputs_record. cbn [contract_run contract_step].
    rewrite Hd. split_and!; try done. split; cbn; [done|by rewrite Hc|lia|constructor].
  - done.
Qed.

(** ** Following a step *)

Definition followed (s s' : polling) (c : contract) : Prop :=
  exists os c', outputs_of (history s') = outputs_of (history s) ++ os /\ contract_run c os = Some c' /\ simulates s' c'.

Lemma polling_followed_silently s s' c :
  outputs_of (history s') = outputs_of (history s) -> simulates s' c -> followed s s' c.
Proof. intros E Hs. exists [], c. by rewrite app_nil_r. Qed.

(** Nothing the relation looks at changes, but for the poll thread. *)
Definition same_others (s s' : polling) : Prop :=
  outputs_of (history s') = outputs_of (history s) /\ closing s' = closing s /\ others_owe s' = others_owe s.

(** A step of the poll thread that makes no call and does not fail. *)
Lemma poll_goto_followed p s s' c :
  simulates s c -> same_others s s' -> poll_owes (poll_at s) = [] -> poll_owes p = [] ->
  stage_ok c p -> followed s (poll_goto p s') c.
Proof.
  intros [Ho _] (E1 & E2 & E3) Hp Hp' Hst. apply polling_followed_silently; [done|]. split; [|done].
  cbn. change (owes (poll_goto p s')) with (poll_owes p ++ others_owe s'). unfold owes in Ho.
  by rewrite E2, E3, Hp', <- Hp.
Qed.

(** A call of the open or the message handler. *)
Lemma poll_call_followed o p s c c' :
  simulates s c -> poll_owes (poll_at s) = [] -> poll_owes p = [] ->
  contract_step c o = Some c' -> c_closing c' = c_closing c -> c_late_error c' = c_late_error c ->
  c_closed c' = c_closed c -> c_late c' = c_closing c -> stage_ok c' p ->
  followed s (poll_goto p (record (POut o) s)) c.
Proof.
  intros [[H1 H2 H3 H4] _] Hp Hp' Hstep E1 E2 E3 E4 Hst. exists [o], c'. split; [apply outputs_record|].
  cbn [contract_run]. rewrite Hstep. split; [done|]. split; [|done].
  change (owes (poll_goto p (record (POut o) s))) with (poll_owes p ++ others_owe s). cbn [closing poll_goto record].
  unfold owes in H2, H3, H4. rewrite Hp in H2, H3, H4. rewrite Hp'. split; [congruence| |done|].
  - intros Hc. destruct (H2 Hc) as (-> & ? & ? & ?). split_and!; congruence.
  - eapply Forall_impl; [exact H4|]. intros []; cbn; by rewrite E2, E3 || rewrite E3.
Qed.

(** A step of [fail] on the poll thread. *)
Lemma poll_fail_followed caught m p next s s' c :
  simulates s c -> poll_at s = PFail caught m p -> fail_step m p s = Some (next, s') ->
  followed s (poll_goto (match next with Some p => PFail caught m p | None => PDone end) s') c.
Proof.
  intros [Ho _] Hp Hf. unfold owes in Ho. rewrite Hp in Ho.
  destruct (fail_step_follows m p s next s' _ c Hf Ho) as (os & c' & E1 & E2 & Ho' & _).
  exists os, c'. split; [done|]. split; [done|]. split; [|by destruct next].
  assert (others_owe s' = others_owe s) as E.
  { clear -Hf. destruct p; cbn in Hf; repeat case_match; unfold locking in *; repeat case_match; simplify_eq/=; try done.
    unfold others_owe. by destruct (notify_frame s) as (_ & _ & -> & -> & -> & _). }
  unfold owes. change (others_owe (poll_goto _ s')) with (others_owe s'). rewrite E. by destruct next.
Qed.

(** *** The poll thread *)

Section with_json.
Context `{JsonLib} `{Exceptions}.

Lemma packet_call_message packet o : packet_call packet = Some o -> exists payload is_binary, o = TMessage payload is_binary.
Proof.
  unfold packet_call. intros Hp. repeat case_match; simplify_eq; eauto.
Qed.

(** The poll thread goes on without a call; its program counter is [E]. *)
Ltac goto_followed E := apply poll_goto_followed; [done|done|by rewrite E|done|].

Lemma poll_send_followed handshake s c :
  simulates s c -> poll_at s = PRequest handshake -> followed s (poll_send handshake s) c.
Proof.
  intros Hsim Hp. pose proof (sim_stage _ _ Hsim) as Hst. rewrite Hp in Hst. unfold poll_send.
  apply poll_goto_followed; [done| |by rewrite Hp|done|].
  - split_and!; [by apply (polling_outputs_other _ (history s))|done|done].
  - by destruct handshake.
Qed.

Lemma polling_deliver_followed packet packets s c :
  simulates s c -> poll_at s = PPacket packet packets -> followed s (deliver_packet packet packets s) c.
Proof.
  intros Hsim Hp. pose proof (sim_stage _ _ Hsim) as Hst. rewrite Hp in Hst. unfold deliver_packet.
  destruct (read_sid packet (sid s)) as [id|e]; [|by goto_followed Hp].
  destruct (packet_call packet) as [o|] eqn:Ho.
  - apply packet_call_message in Ho as (payload & is_binary & ->). by goto_followed Hp.
  - goto_followed Hp. by destruct Hst.
Qed.

Lemma quiet s c : simulates s c -> closing s = false -> c_closing c = false /\ c_late c = false.
Proof. intros [[H1 H2 _ _] _] Hc. destruct (H2 Hc) as (_ & ? & _). by rewrite H1. Qed.

Lemma poll_step_followed s s' c : poll_step s = Some s' -> simulates s c -> followed s s' c.
Proof.
  intros Hs Hsim. pose proof (sim_stage _ _ Hsim) as Hst. unfold stage_ok in Hst.
  unfold poll_step in Hs.
  destruct (poll_at s) as [|hs|hs|hs r|r|r|[|p ps]|p ps|o ps|ps| |w|caught m p|] eqn:Hp; try done; cbn [poll_stage] in Hst.
  - unfold locking in Hs. repeat case_match; simplify_eq; by apply poll_send_followed.
  - destruct hs; injection Hs as <-.
    + destruct (success (status r)); [|by goto_followed Hp]. by goto_followed Hp.
    + destruct (closing s) eqn:Hc; [by goto_followed Hp|].
      destruct (success (status r)); by goto_followed Hp.
  - injection Hs as <-. destruct Hst as [Ho Hl].
    apply (poll_call_followed TOpen (PInOpen r) s c {| c with c_opened := true; c_late := c_closing c |});
      [done|by rewrite Hp|done| |done..]. cbn. by rewrite Ho, Hl, andb_false_r.
  - injection Hs as <-. by goto_followed Hp.
  - injection Hs as <-. destruct (closing s) eqn:Hc; [by goto_followed Hp|]. goto_followed Hp.
    destruct (quiet s c Hsim Hc) as [E ?]. split; [done|by rewrite E].
  - repeat case_match; unfold locking in Hs; repeat case_match; simplify_eq; by apply polling_deliver_followed.
  - injection Hs as <-. destruct o as [| |payload is_binary| |]; cbn in Hst; try done.
    destruct Hst as [Ho Hl].
    apply (poll_call_followed _ (PInMessage ps) s c {| c with c_late := c_closing c |});
      [done|by rewrite Hp|done| |done..]. cbn. by rewrite Ho, Hl.
  - injection Hs as <-. destruct (closing s); by goto_followed Hp.
  - injection Hs as <-. destruct (closing s); by goto_followed Hp.
  - apply bind_Some in Hs as ([next s1] & Hf & [= <-]). by eapply poll_fail_followed.
Qed.

Lemma poll_respond_followed r s s' c : poll_respond r s = Some s' -> simulates s c -> followed s s' c.
Proof.
  intros Hs Hsim. pose proof (sim_stage _ _ Hsim) as Hst. unfold poll_respond in Hs.
  destruct (poll_at s) as [|hs|hs|hs r'|r'|r'|ps|p ps|o ps|ps| |w|caught m p|] eqn:Hp; try done. injection Hs as <-.
  destruct r, hs; by goto_followed Hp.
Qed.

(** When a handler called by [fail] returns. *)
Lemma fail_return_owes p next : fail_return p = Some next -> next_owes next = fail_owes p.
Proof. by destruct p; intros [= <-]. Qed.

Lemma poll_return_followed s s' c : poll_return s = Some s' -> simulates s c -> followed s s' c.
Proof.
  intros Hs Hsim. pose proof (sim_stage _ _ Hsim) as Hst. unfold poll_return in Hs.
  destruct (poll_at s) as [|hs|hs|hs r'|r'|r'|ps|p ps|o ps|ps| |w|caught m p|] eqn:Hp; try done.
  - injection Hs as <-. destruct (closing s); by goto_followed Hp.
  - injection Hs as <-. by goto_followed Hp.
  - apply bind_Some in Hs as (next & Hr%fail_return_owes & [= <-]). apply polling_followed_silently; [done|].
    split; [|by destruct next]. pose proof (sim_owes _ _ Hsim) as Ho. unfold owes in *. rewrite Hp in Ho.
    cbn [poll_owes] in Ho. rewrite <- Hr in Ho. by destruct next.
Qed.

Lemma poll_throw_followed e s s' c : poll_throw e s = Some s' -> simulates s c -> followed s s' c.
Proof.
  intros Hs Hsim. unfold poll_throw in Hs.
  destruct (poll_at s) as [|hs|hs|hs r'|r'|r'|ps|p ps|o ps|ps| |w|caught m p|] eqn:Hp; try done.
  1,2: injection Hs as <-; by goto_followed Hp.
  assert (s' = poll_goto (PCaught (what e)) s) as ->.
  { destruct caught; [done|]. apply bind_Some in Hs as (? & _ & [= <-]). done. }
  apply polling_followed_silently; [done|]. split; [|done]. pose proof (sim_owes _ _ Hsim) as Ho. unfold owes in *.
  by apply owes_ok_drop in Ho.
Qed.
End with_json.

(** *** The other threads *)

Lemma stage_ok_kept c c' cl l p :
  owes_ok c cl l -> stage_ok c p -> c_opened c' = c_opened c -> c_late c' = c_late c -> stage_ok c' p.
Proof.
  intros [H1 H2 _ _] Hst E1 E2. unfold stage_ok in *. destruct (poll_stage p); rewrite ?E1, ?E2; try done.
  destruct Hst as [? Hl]. split; [done|]. destruct cl; [rewrite H1 in Hl; cbn in Hl; by rewrite Hl, andb_false_r|].
  destruct (H2 eq_refl) as (_ & -> & _). by rewrite andb_false_r.
Qed.

(** A step that leaves the poll thread where it is. *)
Lemma others_followed os s s' c c' :
  simulates s c -> poll_at s' = poll_at s -> outputs_of (history s') = outputs_of (history s) ++ os ->
  contract_run c os = Some c' -> owes_ok c' (closing s') (owes s') ->
  c_opened c' = c_opened c -> c_late c' = c_late c -> followed s s' c.
Proof.
  intros [Ho Hst] Hp E1 E2 Ho' E3 E4. exists os, c'. split; [done|]. split; [done|]. split; [done|].
  rewrite Hp. exact (stage_ok_kept c c' _ _ _ Ho Hst E3 E4).
Qed.

(** The same, without a call. *)
Lemma others_silent s s' c :
  simulates s c -> poll_at s' = poll_at s -> outputs_of (history s') = outputs_of (history s) ->
  owes_ok c (closing s') (owes s') -> followed s s' c.
Proof. intros. eapply (others_followed []); try done. by rewrite app_nil_r. Qed.

(** The members that a step of [post] or [fail] leaves alone. *)
Definition same_threads (s s' : polling) : Prop :=
  poll_at s' = poll_at s /\ close_at s' = close_at s /\ closer s' = closer s /\
  write_owes (write_at s') = write_owes (write_at s).

Lemma fail_step_threads m p s next s' : fail_step m p s = Some (next, s') -> same_threads s s'.
Proof.
  intros Hf. destruct p; cbn in Hf; unfold locking in Hf; repeat case_match; simplify_eq/=; try done.
  destruct (notify_frame s) as (_ & ? & ? & ? & ? & _). by split_and!.
Qed.

Lemma post_step_follows t p s p' s' rest c :
  post_step t p s = Some (p', s') -> owes_ok c (closing s) (post_owes p ++ rest) ->
  same_threads s s' /\
  exists os c', outputs_of (history s') = outputs_of (history s) ++ os /\ contract_run c os = Some c' /\
    owes_ok c' (closing s') (post_owes p' ++ rest) /\ c_opened c' = c_opened c /\ c_late c' = c_late c.
Proof.
  intros Hs Ho. destruct p as [w| |r|w|caught m p|]; cbn [post_step] in Hs; try done.
  - unfold locking in Hs. destruct (mutex_free s); [|done]. injection Hs as <- <-. split; [done|].
    exists [], c. rewrite app_nil_r. split_and!; try done. by apply (polling_outputs_other _ (history s)).
  - injection Hs as <- <-. split; [done|]. exists [], c. rewrite app_nil_r. split_and!; try done.
    by destruct (negb _ && _).
  - injection Hs as <- <-. split; [done|]. exists [], c. rewrite app_nil_r. split_and!; try done.
    by destruct (closing s).
  - apply bind_Some in Hs as ([next s1] & Hf & [= <- <-]). split; [by eapply fail_step_threads|].
    destruct (fail_step_follows m p s next s1 _ c Hf Ho) as (os & c' & E1 & E2 & Ho' & ?).
    exists os, c'. split_and!; try done; [by destruct next|tauto..].
Qed.

Lemma owes_writer s : owes s ≡ₚ write_owes (write_at s) ++ poll_owes (poll_at s) ++ close_owes (close_at s) ++ closer_owes (closer s).
Proof. apply Permutation_app_swap_app. Qed.

Lemma owes_close_first s : owes s ≡ₚ close_owes (close_at s) ++ poll_owes (poll_at s) ++ write_owes (write_at s) ++ closer_owes (closer s).
Proof. unfold owes, others_owe. rewrite (Permutation_app_swap_app (write_owes _)). apply Permutation_app_swap_app. Qed.

Lemma owes_closer s : owes s ≡ₚ closer_owes (closer s) ++ poll_owes (poll_at s) ++ write_owes (write_at s) ++ close_owes (close_at s).
Proof.
  unfold owes, others_owe. rewrite !app_assoc, Permutation_app_comm. by rewrite !app_assoc.
Qed.

(** The writer goes on without a call. *)
Lemma write_goto_followed p s s' c :
  simulates s c -> poll_at s' = poll_at s -> outputs_of (history s') = outputs_of (history s) ->
  closing s' = closing s -> close_at s' = close_at s -> closer s' = closer s ->
  write_owes (write_at s) = write_owes p -> followed s (write_goto p s') c.
Proof.
  intros Hsim E1 E2 E3 E4 E5 E6. apply others_silent; [done..|].
  pose proof (sim_owes _ _ Hsim) as Ho. unfold owes, others_owe in *. cbn. by rewrite E1, E3, E4, E5, <- E6.
Qed.

Lemma post_writer_followed p p' s s' c :
  simulates s c -> write_at s = WPost p -> post_step TWrite p s = Some (p', s') -> followed s (write_goto (WPost p') s') c.
Proof.
  intros Hsim Hw Hs. pose proof (sim_owes _ _ Hsim) as Ho. rewrite owes_writer, Hw in Ho.
  destruct (post_step_follows TWrite p s p' s' _ c Hs Ho) as ((E1 & E2 & E3 & _) & os & c' & E4 & E5 & Ho' & E6 & E7).
  eapply others_followed; try done. rewrite owes_writer. cbn. by rewrite E1, E2, E3.
Qed.

Lemma write_step_followed s s' c : write_step s = Some s' -> simulates s c -> followed s s' c.
Proof.
  intros Hs Hsim. unfold write_step in Hs. destruct (write_at s) as [| | | |p|] eqn:Hw; try done.
  - injection Hs as <-. destruct (closing s || _); [destruct (write_queue s)|]; apply write_goto_followed; try done.
    all: rewrite ?Hw; try done. by apply (polling_outputs_other _ (history s)).
  - injection Hs as <-. apply write_goto_followed; try done. by rewrite Hw.
  - assert (p = Posted \/ p <> Posted) as [->|Hp] by (destruct p; auto; by right).
    + injection Hs as <-. apply write_goto_followed; try done. by rewrite Hw.
    + assert (('(p, s) ← post_step TWrite p s; Some (write_goto (WPost p) s)) = Some s') as Hs' by (by destruct p).
      apply bind_Some in Hs' as ([p' s1] & Hs' & [= <-]). by eapply post_writer_followed.
Qed.

Lemma close_step_followed s s' c : close_step s = Some s' -> simulates s c -> followed s s' c.
Proof.
  intros Hs Hsim. unfold close_step in Hs. destruct (close_at s) as [p|] eqn:Hp; [|done].
  apply bind_Some in Hs as ([p' s1] & Hs & [= <-]).
  pose proof (sim_owes _ _ Hsim) as Ho. rewrite owes_close_first, Hp in Ho.
  destruct (post_step_follows TCloser p s p' s1 _ c Hs Ho) as ((E1 & E2 & E3 & E0) & os & c' & E4 & E5 & Ho' & E6 & E7).
  eapply others_followed; try done. rewrite owes_close_first. cbn. by rewrite E1, E0, E3.
Qed.

Lemma frame_followed s s' c :
  simulates s c -> poll_at s' = poll_at s -> outputs_of (history s') = outputs_of (history s) ->
  closing s' = closing s -> owes s' = owes s -> followed s s' c.
Proof.
  intros Hsim E1 E2 E3 E4. apply others_silent; [done..|]. rewrite E3, E4. exact (sim_owes _ _ Hsim).
Qed.

Lemma others_owe_wake s : owes (wake s) = owes s.
Proof. unfold wake. destruct (write_at s) eqn:E; try done. unfold owes, others_owe; cbn. by rewrite E. Qed.

Lemma wake_frame s : poll_at (wake s) = poll_at s /\ outputs_of (history (wake s)) = outputs_of (history s) /\ closing (wake s) = closing s.
Proof. unfold wake. by destruct (write_at s). Qed.

Lemma notify_one_followed s s' c : notify_one s = Some s' -> simulates s c -> followed s s' c.
Proof.
  unfold notify_one. destruct (notifies s) as [|n]; [done|]. intros [= <-] Hsim.
  destruct (wake_frame {| s with notifies := n |}) as (E1 & E2 & E3).
  apply frame_followed; [done..|]. apply (others_owe_wake {| s with notifies := n |}).
Qed.

Lemma closer_step_followed s s' c : closer_step s = Some s' -> simulates s c -> followed s s' c.
Proof.
  intros Hs Hsim. pose proof (sim_owes _ _ Hsim) as Ho. unfold closer_step in Hs.
  destruct (closer s) as [[[t n] p]|] eqn:Hc; [|done]. destruct p; try done.
  - injection Hs as <-. rewrite owes_closer, Hc in Ho. destruct (closing s) eqn:Hcl; cbn [negb].
    + apply others_silent; [done..|]. rewrite owes_closer. cbn. rewrite Hcl. by destruct n.
    + destruct Ho as [H1 H2 H3 H4]. destruct (H2 eq_refl) as (E & Hl & He & Hd).
      apply app_nil in E as [_ E].
      apply (others_followed [TShutdown] _ _ c {| c with c_closing := true |}); try done.
      * by apply (polling_outputs_snoc _ (history s)).
      * cbn. by rewrite H1.
      * rewrite owes_closer. cbn [closer closing record poll_at write_at close_at]. rewrite E.
        split; cbn; [done|done|lia|by repeat constructor].
  - injection Hs as <-. apply frame_followed; try done. unfold owes, others_owe. cbn. rewrite Hc. by destruct n.
  - injection Hs as <-. destruct (notify_frame s) as (E1 & E2 & E3 & E4 & E5 & E6). apply frame_followed; try done.
    unfold owes, others_owe. cbn. rewrite E2, E3, E5, Hc. by destruct n.
  - unfold locking in Hs. destruct (mutex_free _); [|done]. injection Hs as <-.
    rewrite owes_close_first, Hc in Ho.
    assert (owes_ok c (closing s) (poll_owes (poll_at s) ++ write_owes (write_at s) ++ closer_owes (Some (t, n, ClSession))))
      as Hrest by (by eapply owes_ok_drop).
    destruct (bool_decide (sid s = [])); cbn [negb]; apply others_silent; try done; rewrite owes_close_first; cbn;
      by destruct n.
  - rewrite owes_closer, Hc in Ho. destruct n; injection Hs as <-.
    + destruct (single_owed Ho) as (Hcl & E & Hd). destruct Ho as [H1 _ _ _].
      apply (others_followed [TClose "closed"] _ _ c {| c with c_closed := true |}); try done.
      * by apply (polling_outputs_snoc _ (history s)).
      * cbn [contract_run contract_step]. by rewrite Hd.
      * rewrite owes_closer. cbn [closer closing record poll_at write_at close_at]. rewrite E.
        split; cbn; [done|by rewrite Hcl|lia|constructor].
    + apply others_silent; try done. by rewrite owes_closer.
Qed.

Lemma close_enter_followed l1 t l2 s c :
  simulates s c -> callers s = l1 ++ t :: l2 -> connect_mutex_free s = true -> followed s (close_enter t (l1 ++ l2) s) c.
Proof.
  intros Hsim Hc Hm. unfold close_enter. destruct (shutdown_once s); [by apply frame_followed|].
  pose proof (sim_owes _ _ Hsim) as Ho. rewrite owes_closer in Ho. apply owes_ok_drop in Ho.
  apply others_silent; [done..|]. by rewrite owes_closer.
Qed.

Lemma join_step_followed s s' c : join_step s = Some s' -> simulates s c -> followed s s' c.
Proof.
  intros Hs Hsim. unfold join_step in Hs. destruct (joiner s) as [[]|]; [| | |done]; case_match; try done; injection Hs as <-;
    apply frame_followed; try done. by apply (polling_outputs_other _ (history s)).
Qed.

(** *** The environment *)

Section system_with_json.
Context `{JsonLib} `{Exceptions}.

Lemma internal_followed s s' c : internal s s' -> simulates s c -> followed s s' c.
Proof.
  intros Hs Hsim. destruct Hs.
  - by eapply poll_step_followed.
  - by eapply write_step_followed.
  - by eapply close_step_followed.
  - by eapply closer_step_followed.
  - by eapply close_enter_followed.
  - by eapply join_step_followed.
  - by eapply notify_one_followed.
Qed.

Lemma post_respond_owes r p p' : post_respond r p = Some p' -> post_owes p' = post_owes p.
Proof. destruct p; try done. destruct r; by intros [= <-]. Qed.

Lemma post_return_owes p p' : post_return p = Some p' -> post_owes p' = post_owes p.
Proof.
  destruct p; try done. intros (next & Hr%fail_return_owes & [= <-])%bind_Some. cbn. rewrite <- Hr. by destruct next.
Qed.

Lemma post_throw_owes e p p' : post_throw e p = Some p' -> post_owes p' = [].
Proof. destruct p as [| | | |[]|]; try done. by intros (next & _ & [= <-])%bind_Some. Qed.

Lemma write_frame_followed p p' s c :
  simulates s c -> write_at s = WPost p -> post_owes p' = post_owes p -> followed s (write_goto (WPost p') s) c.
Proof. intros Hsim Hw Hp. apply write_goto_followed; try done. by rewrite Hw. Qed.

Lemma external_followed s s' c : external s s' -> simulates s c -> followed s s' c.
Proof.
  intros Hs Hsim. destruct Hs.
  - by eapply poll_respond_followed.
  - by eapply poll_return_followed.
  - by eapply poll_throw_followed.
  - eapply write_frame_followed; [done..|]. by eapply post_respond_owes.
  - eapply write_frame_followed; [done..|]. by eapply post_return_owes.
  - pose proof (sim_owes _ _ Hsim) as Ho. rewrite owes_writer in Ho. apply owes_ok_drop in Ho.
    apply others_silent; [done..|]. rewrite owes_writer. cbn. by erewrite post_throw_owes.
  - pose proof (sim_owes _ _ Hsim) as Ho. rewrite owes_close_first, H1 in Ho. apply others_silent; [done..|].
    rewrite owes_close_first. cbn. by erewrite post_respond_owes.
  - pose proof (sim_owes _ _ Hsim) as Ho. rewrite owes_closer in Ho. apply owes_ok_drop in Ho.
    apply others_silent; [done..|]. by rewrite owes_closer.
Qed.

(** Before [connect] both threads are idle. *)
Definition unconnected (s : polling) : Prop := connected s = false -> poll_at s = PIdle /\ write_at s = WIdle.

Lemma polling_connect_followed url s s' c :
  simulates s c -> unconnected s -> connected s = false -> polling_connect url s = Ok s' -> followed s s' c.
Proof.
  intros Hsim Hun Hc Hs. destruct (Hun Hc) as [Hp Hw]. unfold polling_connect in Hs.
  destruct (closing s) eqn:Hcl; [injection Hs as <-; by apply frame_followed|].
  apply outcome_bind_ok in Hs as (u & _ & [= <-]). apply polling_followed_silently; [done|].
  destruct Hsim as [Ho Hst]. rewrite Hp in Hst. split; [|done]. revert Ho. unfold owes, others_owe. cbn. by rewrite Hp, Hw, Hcl.
Qed.

Lemma polling_send_followed write s c : simulates s c -> followed s (polling_send write s) c.
Proof.
  intros Hsim. unfold polling_send. destruct (closing s || _); [by apply frame_followed|].
  apply frame_followed; try done. by apply (polling_outputs_other _ (history s)).
Qed.

Lemma p_step_followed s s' c : p_step s s' -> simulates s c -> unconnected s -> followed s s' c.
Proof.
  intros [s1 s1' [s2 s2' Hi|s2 s2' He|s2 s2' Hc]|s1 s1' Hsp] Hsim Hun.
  - by apply internal_followed.
  - by apply external_followed.
  - destruct Hc; [by eapply polling_connect_followed|by apply polling_send_followed|by apply frame_followed..].
  - destruct Hsp. apply write_goto_followed; try done. by rewrite H1.
Qed.

(** *** [unconnected] is an invariant *)

Lemma notify_idle s : write_at s = WIdle -> notify_all s = s /\ wake s = s.
Proof. intros E. unfold notify_all, wake. by rewrite E. Qed.

Lemma fail_step_idle m p s next s' :
  fail_step m p s = Some (next, s') -> connected s' = connected s /\ poll_at s' = poll_at s /\ (write_at s = WIdle -> write_at s' = WIdle).
Proof.
  intros Hf. destruct p; cbn in Hf; unfold locking in Hf; repeat case_match; simplify_eq/=; try done.
  unfold notify_all, wake. split_and!; by repeat case_match.
Qed.

Lemma post_step_idle t p s p' s' :
  post_step t p s = Some (p', s') -> connected s' = connected s /\ poll_at s' = poll_at s /\ (write_at s = WIdle -> write_at s' = WIdle).
Proof.
  intros Hs. destruct p; cbn [post_step] in Hs; unfold locking in Hs; repeat case_match; simplify_eq/=; try done.
  apply bind_Some in Hs as ([next s1] & Hf & [= <- <-]). by eapply fail_step_idle.
Qed.

Lemma closer_step_idle s s' :
  closer_step s = Some s' -> connected s' = connected s /\ poll_at s' = poll_at s /\ (write_at s = WIdle -> write_at s' = WIdle).
Proof.
  intros Hs. unfold closer_step in Hs. destruct (closer s) as [[[t n] p]|]; [|done].
  destruct p; unfold locking, notify_all, wake in Hs; cbn in Hs; repeat case_match; simplify_eq/=; try done;
    split_and!; try done; congruence.
Qed.

Lemma poll_step_connected s s' : poll_step s = Some s' -> connected s' = connected s.
Proof.
  unfold poll_step, poll_send, deliver_packet, locking. intros Hs.
  destruct (poll_at s); repeat case_match; simplify_eq/=; try done.
  all: apply bind_Some in Hs as ([next s1] & Hf & [= <-]); by apply fail_step_idle in Hf as (? & _).
Qed.

Lemma write_step_connected s s' : write_step s = Some s' -> connected s' = connected s.
Proof.
  unfold write_step. intros Hs. destruct (write_at s) as [| | | |p|]; try (repeat case_match; by simplify_eq/=).
  destruct p; try by injection Hs as <-.
  all: apply bind_Some in Hs as ([p' s1] & Hf & [= <-]); by apply (post_step_idle TWrite) in Hf as (? & _).
Qed.

Lemma close_step_idle s s' :
  close_step s = Some s' -> connected s' = connected s /\ poll_at s' = poll_at s /\ (write_at s = WIdle -> write_at s' = WIdle).
Proof.
  unfold close_step. destruct (close_at s) as [p|]; [|done].
  intros ([p' s1] & Hf & [= <-])%bind_Some. by apply post_step_idle in Hf.
Qed.

Lemma wake_idle s : connected (wake s) = connected s /\ poll_at (wake s) = poll_at s /\ (write_at s = WIdle -> write_at (wake s) = WIdle).
Proof. unfold wake. destruct (write_at s) eqn:E; split_and!; cbn; congruence. Qed.

Lemma internal_unconnected s s' : internal s s' -> unconnected s -> unconnected s'.
Proof.
  intros Hs Hun.
  assert (connected s' = connected s /\ (poll_at s = PIdle -> write_at s = WIdle -> poll_at s' = PIdle /\ write_at s' = WIdle)) as [E Hk].
  { destruct Hs as [s s' Hs|s s' Hs|s s' Hs|s s' Hs|? ? ? s|s s' Hs|s s' Hs].
    - split; [by eapply poll_step_connected|]. unfold poll_step in Hs. intros Hp. by rewrite Hp in Hs.
    - split; [by eapply write_step_connected|]. unfold write_step in Hs. intros _ Hw. by rewrite Hw in Hs.
    - apply close_step_idle in Hs as (-> & -> & ?). auto.
    - apply closer_step_idle in Hs as (-> & -> & ?). auto.
    - unfold close_enter. by destruct (shutdown_once s).
    - unfold join_step in Hs. repeat case_match; by simplify_eq/=.
    - unfold notify_one in Hs. destruct (notifies s) as [|n]; [done|]. injection Hs as <-.
      destruct (wake_idle {| s with notifies := n |}) as (E & Hp & Hw). rewrite E, Hp. auto. }
  intros Hc. rewrite E in Hc. destruct (Hun Hc) as [? ?]. auto.
Qed.

Lemma external_unconnected s s' : external s s' -> unconnected s -> unconnected s'.
Proof.
  intros Hs Hun.
  assert (connected s' = connected s /\ (poll_at s = PIdle -> write_at s = WIdle -> poll_at s' = PIdle /\ write_at s' = WIdle)) as [E Hk].
  { destruct Hs as [r s s' Hs|s s' _ Hs|e s s' _ Hs| | | | |]; [| | |split; [done|congruence]..|done|done].
    - unfold poll_respond in Hs. destruct (poll_at s); simplify_eq; by split.
    - unfold poll_return in Hs. destruct (poll_at s); simplify_eq; try by split.
      apply bind_Some in Hs as (? & _ & [= <-]). by split.
    - unfold poll_throw in Hs. destruct (poll_at s) as [| | | | | | | | | | | |[]|]; simplify_eq; try by split.
      apply bind_Some in Hs as (? & _ & [= <-]). by split. }
  intros Hc. rewrite E in Hc. destruct (Hun Hc) as [? ?]. auto.
Qed.

Lemma calls_unconnected s s' : calls s s' -> unconnected s -> unconnected s'.
Proof.
  intros Hs Hun. destruct Hs as [url s s' _ _ Hs|write s _| |]; try done.
  - unfold polling_connect in Hs. destruct (closing s); [by injection Hs as <-|].
    by apply outcome_bind_ok in Hs as (u & _ & [= <-]).
  - unfold polling_send. by destruct (closing s || _).
Qed.

Lemma p_step_unconnected s s' : p_step s s' -> unconnected s -> unconnected s'.
Proof.
  intros [s1 s1' [s2 s2' Hi|s2 s2' He|s2 s2' Hc]|s1 s1' [s2 Hw]] Hun.
  - by eapply internal_unconnected.
  - by eapply external_unconnected.
  - by eapply calls_unconnected.
  - intros Hc. destruct (Hun Hc). congruence.
Qed.

#[export] Instance polling_contract : Transport polling.
Proof.
  apply (simulation_transport (fun s c => simulates s c /\ unconnected s)).
  - intros s (proxy & headers & verify & ->). repeat split; cbn; lia || by repeat constructor.
  - intros s s' c Hs [Hsim Hun]. destruct (p_step_followed s s' c Hs Hsim Hun) as (os & c' & E1 & E2 & Hsim').
    exists os, c'. split_and!; [done..|]. by eapply p_step_unconnected.
Qed.

(** [C17] The long-polling transport refines the contract of the transport interface,
    whatever the requests return, the user handlers do, and however the poll
    thread, the writer, the closing thread and calls of [connect], [send],
    [close] and [sync_close] interleave: one open notification at most and
    messages only after it, one close notification at most, and after shutdown has
    begun at most the one call that was on its way. *)
Theorem polling_refines_contract (s : polling) : t_reachable s -> keeps_contract (outputs_of (history s)).
Proof. apply polling_contract. Qed.
End system_with_json.
