(* ===== verification/PollingWrites.v ===== *)
(** * The long-polling transport: its queue

    What [send] accepts and what the writer posts, under every interleaving of
    PollingTransport.v. *)

From S2P Require Export PollingContract.
From stdpp Require Import options.
#[local] Set Default Proof Using "Type*".
Local Open Scope Z_scope.

(** Entries accepted by [send], taken off the queue, and the bodies of the
    writer's requests, in order. *)
Definition accepted_of (evs : list poll_event) : list (bstr * bool) :=
  omap (fun ev => match ev with PAccepted w => Some w | _ => None end) evs.
Definition taken_of (evs : list poll_event) : list (bstr * bool) :=
  omap (fun ev => match ev with PTaken w => Some w | _ => None end) evs.
Definition posted_of (evs : list poll_event) : list bstr :=
  omap (fun ev => match ev with PSent TWrite r => Some (body r) | _ => None end) evs.

(** The entry the writer has taken and not yet posted. *)
Definition in_hand (p : write_pc) : list (bstr * bool) :=
  match p with WPost (PostStart write) => [write] | _ => [] end.

Record queue_inv (s : polling) : Prop := mk_queue_inv {
  q_order : exists rest, accepted_of (history s) = taken_of (history s) ++ rest /\
    (write_queue s = rest \/ (closing s = true /\ write_queue s = []));
  q_posted : post_body <$> taken_of (history s) = posted_of (history s) ++ (post_body <$> in_hand (write_at s));
}.

(** Steps that touch neither. *)
Record same_queue (s s' : polling) : Prop := mk_same_queue {
  sq_accepted : accepted_of (history s') = accepted_of (history s);
  sq_taken : taken_of (history s') = taken_of (history s);
  sq_posted : posted_of (history s') = posted_of (history s);
  sq_queue : write_queue s' = write_queue s \/ (closing s' = true /\ write_queue s' = []);
  sq_closing : closing s = true -> closing s' = true;
  sq_hand : in_hand (write_at s') = in_hand (write_at s);
}.

#[export] Instance same_queue_refl : Reflexive same_queue.
Proof. intros s. split; auto. Qed.

#[export] Instance same_queue_trans : Transitive same_queue.
Proof.
  intros s1 s2 s3 [A1 A2 A3 A4 A5 A6] [B1 B2 B3 B4 B5 B6]. split; try congruence; [|auto].
  destruct B4 as [->|?]; [|by right]. destruct A4 as [?|[? ?]]; [by left|right; auto].
Qed.

Lemma polling_same_queue_inv s s' : same_queue s s' -> queue_inv s -> queue_inv s'.
Proof.
  intros [A1 A2 A3 A4 A5 A6] [(rest & E & Hq) Hp]. split; [|by rewrite A2, A3, A6].
  exists rest. rewrite A1, A2. split; [done|]. destruct A4 as [->|?]; [|by right].
  destruct Hq as [?|[? ?]]; [by left|right; auto].
Qed.

(** Most steps change none of the members and add no event of the queue. *)
Lemma same_queue_members s s' evs :
  write_queue s' = write_queue s -> (closing s = true -> closing s' = true) -> in_hand (write_at s') = in_hand (write_at s) ->
  history s' = history s ++ evs -> accepted_of evs = [] -> taken_of evs = [] -> posted_of evs = [] -> same_queue s s'.
Proof.
  intros E1 E2 E3 E4 A T P. unfold accepted_of, taken_of, posted_of in *.
  split; auto; unfold accepted_of, taken_of, posted_of; rewrite E4, omap_app, ?A, ?T, ?P; apply app_nil_r.
Qed.

Ltac queue_members evs := apply (same_queue_members _ _ evs); cbn; rewrite ?app_nil_r; done.
Ltac queue_kept :=
  match goal with
  | |- same_queue _ ?s' =>
      let h := eval cbn in (history s') in
      match h with _ ++ ?evs => queue_members evs | _ => queue_members (@nil poll_event) end
  end.

Lemma wake_queue s : same_queue s (wake s).
Proof. unfold wake. destruct (write_at s) eqn:E; try done. apply (same_queue_members _ _ []); cbn; rewrite ?E, ?app_nil_r; done. Qed.

Lemma notify_all_queue s : same_queue s (notify_all s).
Proof.
  unfold notify_all. destruct (write_at s) eqn:E; try apply wake_queue.
  apply (same_queue_members _ _ [POverlooked]); cbn; rewrite ?E; done.
Qed.

(** Who clears the queue has set [closing_]. *)
Lemma fail_step_queue m p s next s' :
  fail_step m p s = Some (next, s') -> (p = FClear -> closing s = true) -> same_queue s s'.
Proof.
  intros Hf Hc. destruct p; cbn in Hf; unfold locking in Hf; repeat case_match; simplify_eq/=; try done; try queue_kept.
  - split; cbn; auto.
  - apply notify_all_queue.
Qed.

Lemma owing_closes o s c : simulates s c -> o ∈ owes s -> closing s = true.
Proof. intros [[_ H2 _ _] _] Ho. destruct (closing s); [done|]. destruct (H2 eq_refl) as [E _]. rewrite E in Ho. by apply elem_of_nil in Ho. Qed.

Lemma elem_of_owes o s :
  o ∈ owes s <-> o ∈ poll_owes (poll_at s) \/ o ∈ write_owes (write_at s) \/ o ∈ close_owes (close_at s) \/ o ∈ closer_owes (closer s).
Proof. unfold owes, others_owe. by rewrite !elem_of_app. Qed.

Lemma post_step_queue t p s p' s' :
  post_step t p s = Some (p', s') -> (forall b m, p = PostFail b m FClear -> closing s = true) ->
  t <> TWrite \/ (forall w, p <> PostStart w) -> same_queue s s'.
Proof.
  intros Hs Hc Ht. destruct p as [w| |r|w|caught m p|]; cbn [post_step] in Hs; try done.
  - unfold locking in Hs. destruct (mutex_free s); [|done]. injection Hs as <- <-.
    destruct Ht as [Ht|Ht]; [|by destruct (Ht w)]. unfold post_send. destruct t; try done; queue_kept.
  - injection Hs as <- <-. done.
  - injection Hs as <- <-. done.
  - apply bind_Some in Hs as ([next s1] & Hf & [= <- <-]). eapply fail_step_queue; [done|]. intros ->. by eapply Hc.
Qed.

Section with_json.
Context `{JsonLib} `{Exceptions}.

Lemma poll_step_queue s s' c : simulates s c -> poll_step s = Some s' -> same_queue s s'.
Proof.
  intros Hsim Hs. unfold poll_step in Hs. destruct (poll_at s) as [|hs|hs|hs r|r|r|ps|p ps|o ps|ps| |w|caught m p|] eqn:Hp;
    unfold locking, deliver_packet, poll_send in Hs; try (repeat case_match; simplify_eq; queue_kept).
  apply bind_Some in Hs as ([next s1] & Hf & [= <-]). transitivity s1; [|queue_kept].
  eapply fail_step_queue; [done|]. intros ->. apply (owing_closes OwesError s c Hsim), elem_of_owes. rewrite Hp. left. by left.
Qed.
End with_json.

(** ** The other threads *)

Lemma close_step_queue s s' c : simulates s c -> close_step s = Some s' -> same_queue s s'.
Proof.
  intros Hsim Hs. unfold close_step in Hs. destruct (close_at s) as [p|] eqn:Hp; [|done].
  apply bind_Some in Hs as ([p' s1] & Hs & [= <-]). transitivity s1; [|queue_kept].
  eapply (post_step_queue TCloser); [done| |by left]. intros b m ->. apply (owing_closes OwesError s c Hsim), elem_of_owes.
  rewrite Hp. do 2 right. left. by left.
Qed.

Lemma closer_step_queue s s' : closer_step s = Some s' -> same_queue s s'.
Proof.
  intros Hs. unfold closer_step in Hs. destruct (closer s) as [[[t n] p]|]; [|done]. destruct p; try done.
  - injection Hs as <-. destruct (negb (closing s)); queue_kept.
  - injection Hs as <-. queue_kept.
  - injection Hs as <-. transitivity (notify_all s); [apply notify_all_queue|queue_kept].
  - unfold locking in Hs. destruct (mutex_free _); [|done]. injection Hs as <-. destruct (negb _); queue_kept.
  - destruct n; injection Hs as <-; queue_kept.
Qed.

Lemma notify_one_queue s s' : notify_one s = Some s' -> same_queue s s'.
Proof.
  unfold notify_one. destruct (notifies s) as [|n]; [done|]. intros [= <-].
  transitivity {| s with notifies := n |}; [queue_kept|apply wake_queue].
Qed.

(** The writer pops the front, or posts what it holds. *)
Lemma take_inv w queue s :
  queue_inv s -> write_queue s = w :: queue -> in_hand (write_at s) = [] ->
  queue_inv (write_goto (WPost (PostStart w)) (record (PTaken w) {| s with write_queue := queue |})).
Proof.
  intros [(rest & E & Hq) Hp] Hw Hh. rewrite Hh, app_nil_r in Hp.
  destruct Hq as [Hq|[_ Hq]]; [|congruence]. rewrite Hw in Hq. subst rest.
  split; cbn; unfold accepted_of, taken_of, posted_of in *; rewrite !omap_app; cbn.
  - exists queue. rewrite app_nil_r, E, <- app_assoc. auto.
  - by rewrite fmap_app, Hp, app_nil_r.
Qed.

Lemma post_inv w s :
  queue_inv s -> write_at s = WPost (PostStart w) -> queue_inv (write_goto (WPost PostWaiting) (post_send TWrite w s)).
Proof.
  intros [(rest & E & Hq) Hp] Hw. rewrite Hw in Hp.
  split; cbn; unfold accepted_of, taken_of, posted_of in *; rewrite !omap_app; cbn.
  - exists rest. by rewrite !app_nil_r.
  - by rewrite !app_nil_r, Hp.
Qed.

Lemma write_goto_queue p p' s : write_at s = p -> in_hand p' = in_hand p -> same_queue s (write_goto p' s).
Proof. intros <- E. apply (same_queue_members _ _ []); cbn; rewrite ?app_nil_r; done. Qed.

Lemma write_step_inv s s' c : simulates s c -> write_step s = Some s' -> queue_inv s -> queue_inv s'.
Proof.
  intros Hsim Hs Hinv. unfold write_step in Hs. destruct (write_at s) as [| | | |p|] eqn:Hw; try done.
  - injection Hs as <-. destruct (closing s || _).
    + destruct (write_queue s) as [|w queue] eqn:Hq.
      * revert Hinv. by apply polling_same_queue_inv, (write_goto_queue WLock).
      * apply take_inv; [done..|]. by rewrite Hw.
    + revert Hinv. by apply polling_same_queue_inv, (write_goto_queue WLock).
  - injection Hs as <-. revert Hinv. by apply polling_same_queue_inv, (write_goto_queue WBlocking).
  - assert (p = Posted \/ (exists w, p = PostStart w) \/ (p <> Posted /\ forall w, p <> PostStart w)) as [->|[[w ->]|[Hp Hp']]]
      by (destruct p; eauto 10).
    + injection Hs as <-. revert Hinv. by apply polling_same_queue_inv, (write_goto_queue (WPost Posted)).
    + apply bind_Some in Hs as ([p' s1] & Hs & [= <-]). cbn [post_step] in Hs. unfold locking in Hs.
      destruct (mutex_free s); [|done]. injection Hs as <- <-. by apply post_inv.
    + assert (('(p, s) ← post_step TWrite p s; Some (write_goto (WPost p) s)) = Some s') as Hs' by (by destruct p).
      apply bind_Some in Hs' as ([p' s1] & Hs' & [= <-]). revert Hinv. apply polling_same_queue_inv.
      assert (same_queue s s1) as Hq.
      { eapply post_step_queue; [done| |by right]. intros b m ->. apply (owing_closes OwesError s c Hsim), elem_of_owes.
        rewrite Hw. right. left. by left. }
      transitivity s1; [done|]. apply (write_goto_queue (write_at s1)); [done|]. rewrite (sq_hand _ _ Hq), Hw.
      destruct p; cbn in Hs'; repeat case_match; simplify_eq/=; try done; try by destruct (Hp' write).
      apply bind_Some in Hs' as ([[next|] s2] & _ & [= <- <-]); done.
Qed.

(** ** The environment *)

Section queue_system.
Context `{JsonLib} `{Exceptions}.

Lemma external_queue s s' : external s s' -> same_queue s s'.
Proof.
  intros Hs.
  assert (forall p p' q, write_at s = WPost p -> in_hand (WPost p) = [] -> in_hand (WPost p') = [] -> q = write_goto (WPost p') s -> same_queue s q) as Hpost.
  { intros p p' q Hw E E' ->. apply (write_goto_queue (WPost p)); [done|]. by rewrite E'. }
  destruct Hs as [r s s' Hs|s s' _ Hs|e s s' _ Hs|r p p' s Hw Hs|p p' s Hw _ Hs|e p p' s Hw _ Hs|r p p' s Hc Hs|].
  - unfold poll_respond in Hs. destruct (poll_at s); simplify_eq; queue_kept.
  - unfold poll_return in Hs. destruct (poll_at s); simplify_eq; try queue_kept.
    apply bind_Some in Hs as (? & _ & [= <-]). queue_kept.
  - unfold poll_throw in Hs. destruct (poll_at s) as [| | | | | | | | | | | |[]|]; simplify_eq; try queue_kept.
    apply bind_Some in Hs as (? & _ & [= <-]). queue_kept.
  - eapply Hpost; [done| | |done]; destruct p; simplify_eq/=; try done. by destruct r.
  - destruct p; try done. apply bind_Some in Hs as (n & _ & [= <-]). eapply Hpost; [done..| |done]. by destruct n.
  - destruct p as [| | | |[]|]; try done. apply bind_Some in Hs as (n & _ & [= <-]). by apply (Hpost _ (PostCaught (what e)) _ Hw).
  - queue_kept.
  - queue_kept.
Qed.

Lemma polling_send_inv write s : queue_inv s -> queue_inv (polling_send write s).
Proof.
  intros Hinv. unfold polling_send. destruct (closing s) eqn:Hc; [done|]. cbn [orb].
  destruct (negb _); [done|]. destruct Hinv as [(rest & E & Hq) Hp].
  destruct Hq as [<-|[? _]]; [|congruence].
  split; cbn; unfold accepted_of, taken_of, posted_of in *; rewrite !omap_app; cbn.
  - exists (write_queue s ++ [write]). rewrite app_nil_r, E, app_assoc. auto.
  - by rewrite !app_nil_r.
Qed.

Lemma p_step_queue s s' c : simulates s c -> unconnected s -> p_step s s' -> queue_inv s -> queue_inv s'.
Proof.
  intros Hsim Hun Hstep. revert Hsim Hun.
  destruct Hstep as [s1 s1' [s2 s2' Hi|s2 s2' He|s2 s2' Hc]|s1 s1' [s2 Hw]]; intros Hsim Hun Hinv.
  - destruct Hi as [? ? Hs|? ? Hs|? ? Hs|? ? Hs|l1 t l2 s3 _ _|? ? Hs|? ? Hs].
    + revert Hinv. apply polling_same_queue_inv. exact (poll_step_queue _ _ _ Hsim Hs).
    + by eapply write_step_inv.
    + revert Hinv. apply polling_same_queue_inv. exact (close_step_queue _ _ _ Hsim Hs).
    + revert Hinv. by apply polling_same_queue_inv, closer_step_queue.
    + revert Hinv. apply polling_same_queue_inv. unfold close_enter. destruct (shutdown_once s3); queue_kept.
    + revert Hinv. apply polling_same_queue_inv. unfold join_step in Hs. repeat case_match; simplify_eq; queue_kept.
    + revert Hinv. by apply polling_same_queue_inv, notify_one_queue.
  - revert Hinv. by apply polling_same_queue_inv, external_queue.
  - destruct Hc as [url s3 s3' Hc _ Hs|write s3 _|t s3 _|s3 _ _].
    + revert Hinv. apply polling_same_queue_inv. destruct (Hun Hc) as [_ Hw]. unfold polling_connect in Hs.
      destruct (closing s3) eqn:Hcl; [by injection Hs as <-|]. apply outcome_bind_ok in Hs as (u & _ & [= <-]).
      apply (same_queue_members _ _ []); cbn; rewrite ?Hw, ?Hcl, ?app_nil_r; done.
    + by apply polling_send_inv.
    + revert Hinv. apply polling_same_queue_inv. queue_kept.
    + revert Hinv. apply polling_same_queue_inv. queue_kept.
  - revert Hinv. apply polling_same_queue_inv. by apply (write_goto_queue WSleeping).
Qed.

(** A reachable state follows the contract and has the invariant of the queue. *)
Lemma polling_reachable_simulates s : t_reachable s -> exists c, simulates s c /\ unconnected s.
Proof.
  intros (s0 & (proxy & headers & verify & ->) & Hr).
  apply (invariant_rtc p_step (fun s => exists c, simulates s c /\ unconnected s) (new_polling proxy headers verify)); [| |done].
  - exists fresh_contract. repeat split; cbn; lia || by repeat constructor.
  - intros s1 s2 Hs (c & Hsim & Hun). destruct (p_step_followed s1 s2 c Hs Hsim Hun) as (os & c' & _ & _ & ?).
    exists c'. split; [done|by eapply p_step_unconnected].
Qed.

(** An invariant of the system, given the contract. *)
Lemma polling_reachable_invariant (I : polling -> Prop) :
  (forall proxy headers verify, I (new_polling proxy headers verify)) ->
  (forall s s' c, simulates s c -> unconnected s -> p_step s s' -> I s -> I s') ->
  forall s, t_reachable s -> I s.
Proof.
  intros H1 H2 s (s0 & (proxy & headers & verify & ->) & Hr).
  revert s Hr. apply (invariant_rtc_strong p_step); [done|]. intros s s' Hs Hstep Hi.
  destruct (polling_reachable_simulates s) as (c & ? & ?); [by exists (new_polling proxy headers verify); split; [exists proxy, headers, verify|]|].
  by eapply H2.
Qed.

Lemma polling_reachable_queue (s : polling) : t_reachable s -> queue_inv s.
Proof.
  apply polling_reachable_invariant; [intros; split; [by exists []; auto|done]|]. intros. by eapply p_step_queue.
Qed.

(** [C18] First in, first out: what [send] accepts is posted by one thread, in the order
    of acceptance, each message once with the body of its kind; a message accepted
    and not taken off the queue is still in it, unless the transport has failed. *)
Theorem polling_writes_in_order (s : polling) :
  t_reachable s ->
  exists rest, accepted_of (history s) = taken_of (history s) ++ rest /\
    (write_queue s = rest \/ (closing s = true /\ write_queue s = [])) /\
    post_body <$> taken_of (history s) = posted_of (history s) ++ (post_body <$> in_hand (write_at s)).
Proof. intros Hs%polling_reachable_queue. destruct Hs as [(rest & E & Hq) Hp]. by exists rest. Qed.
End queue_system.
