(* ===== verification/PollingSleep.v ===== *)
(** * The long-polling transport: sleeping and waking, closing and joining

    Who wakes the writer, and when [sync_close] returns.  [send] and [fail] cannot
    miss the writer; [close], which notifies without [mutex_], can, and that and
    one more are the only ways to block [sync_close]. *)

From S2P Require Export PollingWrites.
From stdpp Require Import options.
#[local] Set Default Proof Using "Type*".
Local Open Scope Z_scope.

(** ** Who is about to notify *)

Definition notifying (p : option fail_pc) : bool := match p with Some (FState | FClear | FNotify) => true | _ => false end.
Definition at_notify (p : option fail_pc) : bool := match p with Some FNotify => true | _ => false end.

Definition poll_fail (p : poll_pc) : option fail_pc := match p with PFail _ _ p => Some p | _ => None end.
Definition post_fail (p : option post_pc) : option fail_pc := match p with Some (PostFail _ _ p) => Some p | _ => None end.

Definition closer_notifies (c : option (thread * bool * closer_pc)) : bool :=
  match c with Some (_, _, (ClState | ClNotify)) => true | _ => false end.

(** A thread other than the writer that has set [closing_] and will notify. *)
Definition notifier (s : polling) : bool :=
  notifying (poll_fail (poll_at s)) || (notifying (post_fail (close_at s)) || closer_notifies (closer s)).
Definition fail_notifies (s : polling) : bool := at_notify (poll_fail (poll_at s)) || at_notify (post_fail (close_at s)).

Definition asleep (p : write_pc) : bool := match p with WBlocking | WSleeping => true | _ => false end.

(** The invariant, with [n] for [notifier] and [a] for [fail_notifies]. *)
Record sleep_inv (n a : bool) (s : polling) : Prop := mk_sleep_inv {
  sl_blocking : write_at s = WBlocking -> write_queue s = [];
  sl_sleeping : write_at s = WSleeping -> write_queue s <> [] -> (0 < notifies s)%nat;
  sl_notifier : closing s = true -> asleep (write_at s) = true -> n = true \/ POverlooked ∈ history s;
  sl_fail : a = true -> write_at s <> WBlocking;
  sl_overlooked : POverlooked ∈ history s -> shutdown_once s = true;
}.

Definition sleep_ok (s : polling) : Prop := sleep_inv (notifier s) (fail_notifies s) s.

(** The calls of [close] and [sync_close]. *)
Record stop_inv (s : polling) : Prop := mk_stop_inv {
  st_closer : is_Some (closer s) -> shutdown_once s = true;
  st_once : shutdown_once s = true -> closing s = true \/ exists t n, closer s = Some (t, n, ClExchange);
  st_close : shutdown_once s = false \/ closer_holds (closer s) = true -> close_at s = None;
  st_join : is_Some (joiner s) -> shutdown_once s = true /\ closer_holds (closer s) = false;
}.

(** ** Steps that change nothing of this *)

Record same_sleep (s s' : polling) : Prop := mk_same_sleep {
  ss_closing : closing s' = closing s;
  ss_write : write_at s' = write_at s;
  ss_queue : write_queue s' = write_queue s;
  ss_notifies : notifies s' = notifies s;
  ss_overlooked : POverlooked ∈ history s' <-> POverlooked ∈ history s;
  ss_once : shutdown_once s = true -> shutdown_once s' = true;
}.

Lemma same_sleep_inv n a n' a' s s' :
  same_sleep s s' -> (n = true -> n' = true) -> (a' = true -> a = true) -> sleep_inv n a s -> sleep_inv n' a' s'.
Proof.
  intros [E1 E2 E3 E4 E5 E6] Hn Ha [H1 H2 H3 H4 H5].
  split; rewrite ?E1, ?E2, ?E3, ?E4, ?E5; auto. intros Hc Hw. destruct (H3 Hc Hw); auto.
Qed.

Lemma overlooked_snoc ev evs : ev <> POverlooked -> POverlooked ∈ evs ++ [ev] <-> POverlooked ∈ evs.
Proof. intros Hne. rewrite elem_of_app, list_elem_of_singleton. naive_solver. Qed.

Lemma same_sleep_record ev s s' :
  ev <> POverlooked -> same_sleep s s' -> same_sleep s (record ev s').
Proof. intros Hne [E1 E2 E3 E4 E5 E6]. split; try done. cbn. by rewrite overlooked_snoc. Qed.

(** Waking the writer. *)
Lemma wake_sleep n a s : sleep_inv n a s -> sleep_inv n a (wake s).
Proof. intros [H1 H2 H3 H4 H5]. unfold wake. destruct (write_at s) eqn:E; split; cbn; rewrite ?E; auto; congruence. Qed.

(** After [notify_all] nobody is bound to notify for the writer's sake. *)
Lemma notify_all_sleep n a n' a' s :
  sleep_inv n a s -> (write_at s = WBlocking -> shutdown_once s = true) -> (a' = true -> a = true) ->
  sleep_inv n' a' (notify_all s).
Proof.
  intros [H1 H2 H3 H4 H5] Ho Ha. unfold notify_all, wake.
  destruct (write_at s) eqn:E; split; cbn; rewrite ?E; auto; try done.
  - intros _ _. right. rewrite elem_of_app. right. by left.
Qed.

(** A step of [fail] on any thread. *)
Lemma fail_step_sleep m p s next s' n a :
  fail_step m p s = Some (next, s') ->
  sleep_inv (notifying (Some p) || n) (at_notify (Some p) || a) s ->
  sleep_inv (notifying next || n) (at_notify next || a) s'.
Proof.
  intros Hf Hi. destruct p; cbn [fail_step] in Hf; cbn [notifying at_notify orb] in *.
  - destruct (closing s) eqn:Hc; injection Hf as <- <-; [done|]. destruct Hi as [H1 H2 H3 H4 H5].
    split; cbn; auto. by rewrite overlooked_snoc.
  - injection Hf as <- <-. revert Hi. by apply same_sleep_inv.
  - unfold locking, mutex_free in Hf. destruct Hi as [H1 H2 H3 H4 H5].
    destruct (write_at s) eqn:Hw; try done; injection Hf as <- <-; split; cbn; rewrite ?Hw; auto; done.
  - injection Hf as <- <-. cbn [notifying at_notify orb]. eapply notify_all_sleep; [done| |by intros ->].
    intros Hw. by destruct (sl_fail _ _ _ Hi eq_refl).
  - injection Hf as <- <-. revert Hi. apply same_sleep_inv; [|done..]. by apply same_sleep_record.
  - done.
  - injection Hf as <- <-. revert Hi. apply same_sleep_inv; [|done..]. by apply same_sleep_record.
  - done.
Qed.

(** ** The steps of the threads *)

Lemma awake_sleep n a s :
  asleep (write_at s) = false -> (POverlooked ∈ history s -> shutdown_once s = true) -> sleep_inv n a s.
Proof. intros Hw Ho. split; try done; destruct (write_at s); done. Qed.

Lemma notify_all_overlooked s :
  write_at s <> WBlocking -> shutdown_once (notify_all s) = shutdown_once s /\ history (notify_all s) = history s.
Proof. unfold notify_all, wake. by destruct (write_at s). Qed.

Lemma fail_step_overlooked m p s next s' :
  fail_step m p s = Some (next, s') -> write_at s <> WBlocking ->
  shutdown_once s' = shutdown_once s /\ (POverlooked ∈ history s' <-> POverlooked ∈ history s).
Proof.
  intros Hf Hw. destruct p; cbn [fail_step] in Hf; unfold locking in Hf; repeat case_match; simplify_eq; try done;
    try (split; [done|]; by apply overlooked_snoc).
  by destruct (notify_all_overlooked s Hw) as [-> ->].
Qed.

Lemma post_step_overlooked t p s p' s' :
  post_step t p s = Some (p', s') -> write_at s <> WBlocking ->
  shutdown_once s' = shutdown_once s /\ (POverlooked ∈ history s' <-> POverlooked ∈ history s).
Proof.
  intros Hs Hw. destruct p as [w| |r|w|caught m p|]; cbn [post_step] in Hs; try done.
  - unfold locking in Hs. destruct (mutex_free s); [|done]. injection Hs as <- <-. split; [done|]. by apply overlooked_snoc.
  - by injection Hs as <- <-.
  - by injection Hs as <- <-.
  - apply bind_Some in Hs as ([next s1] & Hf & [= <- <-]). by eapply fail_step_overlooked.
Qed.

Lemma write_step_sleep s s' c : simulates s c -> write_step s = Some s' -> sleep_ok s -> sleep_ok s'.
Proof.
  intros Hsim Hs Hi. unfold write_step in Hs. pose proof (sl_overlooked _ _ _ Hi) as Ho.
  destruct (write_at s) as [| | | |p|] eqn:Hw; try done.
  - injection Hs as <-. destruct (closing s) eqn:Hc; cbn [orb].
    + destruct (write_queue s); apply awake_sleep; try done. cbn. by rewrite overlooked_snoc.
    + destruct (write_queue s) as [|w queue] eqn:Hq.
      * rewrite bool_decide_true by done. split; cbn; rewrite ?Hq, ?Hc; auto; try done.
        intros Ha. exfalso. enough (closing s = true) by congruence.
        unfold fail_notifies in Ha. cbn in Ha. apply orb_true_iff in Ha as [Ha|Ha];
          apply (owing_closes OwesError s c Hsim), elem_of_owes.
        -- left. destruct (poll_at s) as [| | | | | | | | | | | |? ? []|]; try done. by left.
        -- right. right. left. destruct (close_at s) as [[| | | |? ? []|]|]; try done. by left.
      * rewrite bool_decide_false by done. apply awake_sleep; try done. cbn. by rewrite overlooked_snoc.
  - injection Hs as <-. destruct Hi as [H1 H2 H3 H4 H5]. split; cbn; auto; try done.
    + intros _ Hne. by destruct (Hne (H1 Hw)).
    + intros Hc _. apply H3; [done|]. by rewrite Hw.
  - assert (p = Posted \/ p <> Posted) as [->|Hp] by (destruct p; auto; by right).
    + injection Hs as <-. by apply awake_sleep.
    + assert (('(p, s) ← post_step TWrite p s; Some (write_goto (WPost p) s)) = Some s') as Hs' by (by destruct p).
      apply bind_Some in Hs' as ([p' s1] & Hs' & [= <-]).
      apply post_step_overlooked in Hs' as [E1 E2]; [|by rewrite Hw].
      apply awake_sleep; [done|]. cbn. by rewrite E1, E2.
Qed.

Lemma closer_step_sleep s s' : closer_step s = Some s' -> stop_inv s -> sleep_ok s -> sleep_ok s'.
Proof.
  intros Hs Hst Hi. unfold closer_step in Hs. destruct (closer s) as [[[t n] p]|] eqn:Hc; [|done]. destruct p; try done.
  - injection Hs as <-. destruct (closing s) eqn:Hcl; cbn [negb].
    + revert Hi. apply same_sleep_inv; try done. intros _. unfold notifier. cbn. by rewrite !orb_true_r.
    + destruct Hi as [H1 H2 H3 H4 H5]. split; cbn; auto.
      * intros _ _. left. unfold notifier. cbn. by rewrite !orb_true_r.
      * by rewrite overlooked_snoc.
  - injection Hs as <-. revert Hi. apply same_sleep_inv; try done. intros _. unfold notifier. cbn. by rewrite !orb_true_r.
  - injection Hs as <-.
    assert (forall n', sleep_inv n' (fail_notifies s) (notify_all s)) as Hn.
    { intros n'. eapply notify_all_sleep; [done| |done]. intros _. apply (st_closer _ Hst). by rewrite Hc. }
    unfold sleep_ok. match goal with |- sleep_inv ?n' _ _ => specialize (Hn n') end.
    revert Hn. apply same_sleep_inv; [done|done|]. unfold fail_notifies. cbn.
    by destruct (notify_frame s) as (_ & -> & -> & _).
  - unfold locking in Hs. destruct (mutex_free _); [|done]. injection Hs as <-.
    assert (close_at s = None) as Hn by (apply (st_close _ Hst); right; by rewrite Hc).
    revert Hi. destruct (negb _); apply same_sleep_inv; try done.
    all: unfold notifier, fail_notifies; cbn; by rewrite ?Hc, ?Hn.
  - destruct n; injection Hs as <-; revert Hi; apply same_sleep_inv; try done.
    all: try (unfold notifier; cbn; by rewrite ?Hc).
    split; try done. cbn. by rewrite overlooked_snoc.
Qed.

(** The poll thread goes on; it was not about to notify. *)
Lemma poll_goto_sleep p s s' :
  same_sleep s s' -> close_at s' = close_at s -> closer s' = closer s ->
  notifying (poll_fail (poll_at s)) = false -> at_notify (poll_fail p) = false -> sleep_ok s -> sleep_ok (poll_goto p s').
Proof.
  intros Hs E1 E2 Hp Hp'. apply same_sleep_inv.
  - by destruct Hs.
  - unfold notifier; cbn. rewrite E1, E2, Hp. cbn. intros ->. by rewrite orb_true_r.
  - unfold fail_notifies; cbn. rewrite E1, Hp'. cbn. intros ->. by rewrite orb_true_r.
Qed.

Section sleep_with_json.
Context `{JsonLib} `{Exceptions}.

Lemma poll_step_sleep s s' : poll_step s = Some s' -> sleep_ok s -> sleep_ok s'.
Proof.
  intros Hs. unfold poll_step in Hs.
  destruct (poll_at s) as [|hs|hs|hs r|r|r|ps|p ps|o ps|ps| |w|caught m p|] eqn:Hp;
    unfold locking, deliver_packet, poll_send in Hs.
  13: { apply bind_Some in Hs as ([next s1] & Hf & [= <-]). intros Hi. unfold sleep_ok, notifier, fail_notifies in Hi.
    rewrite Hp in Hi. cbn [poll_fail] in Hi. eapply fail_step_sleep in Hi; [|done].
    destruct (fail_step_threads _ _ _ _ _ Hf) as (_ & E1 & E2 & _).
    revert Hi. apply same_sleep_inv; [done|..]; unfold notifier, fail_notifies; cbn; rewrite E1, ?E2; by destruct next. }
  all: repeat case_match; simplify_eq; apply poll_goto_sleep; rewrite ?Hp; try done; by apply same_sleep_record.
Qed.

(** The closing thread likewise. *)
Lemma close_goto_sleep p s s' :
  same_sleep s s' -> poll_at s' = poll_at s -> closer s' = closer s ->
  notifying (post_fail (close_at s)) = false -> at_notify (post_fail p) = false ->
  sleep_ok s -> sleep_ok {| s' with close_at := p |}.
Proof.
  intros Hs E1 E2 Hp Hp'. apply same_sleep_inv.
  - by destruct Hs.
  - unfold notifier; cbn. rewrite E1, E2, Hp. cbn. intros [->| ->]%orb_true_iff; by rewrite ?orb_true_r.
  - unfold fail_notifies; cbn. rewrite E1, Hp', orb_false_r. by intros ->.
Qed.

Lemma sleep_close_first s n a :
  sleep_ok s -> n = notifying (post_fail (close_at s)) || (notifying (poll_fail (poll_at s)) || closer_notifies (closer s)) ->
  a = at_notify (post_fail (close_at s)) || at_notify (poll_fail (poll_at s)) -> sleep_inv n a s.
Proof.
  intros Hi -> ->. revert Hi. apply same_sleep_inv; [done|..]; unfold notifier, fail_notifies; rewrite !orb_true_iff; tauto.
Qed.

Lemma close_fail_sleep caught m p next s s' :
  close_at s = Some (PostFail caught m p) -> fail_step m p s = Some (next, s') -> sleep_ok s ->
  sleep_ok {| s' with close_at := Some (match next with Some p => PostFail caught m p | None => Posted end) |}.
Proof.
  intros Hp Hf Hi. eapply sleep_close_first in Hi; [|done..]. rewrite Hp in Hi. cbn [post_fail] in Hi.
  eapply fail_step_sleep in Hi; [|done]. destruct (fail_step_threads _ _ _ _ _ Hf) as (E1 & _ & E2 & _).
  revert Hi. apply same_sleep_inv; [done|..]; unfold notifier, fail_notifies; cbn; rewrite E1, ?E2, ?orb_true_iff;
    destruct next; cbn; tauto.
Qed.

Lemma close_step_sleep s s' : close_step s = Some s' -> sleep_ok s -> sleep_ok s'.
Proof.
  intros Hs Hi. unfold close_step in Hs. destruct (close_at s) as [p|] eqn:Hp; [|done].
  apply bind_Some in Hs as ([p' s1] & Hs & [= <-]).
  destruct p as [w| |r|w|caught m p|]; cbn [post_step] in Hs; try done.
  - unfold locking in Hs. destruct (mutex_free s); [|done]. injection Hs as <- <-. revert Hi.
    apply close_goto_sleep; rewrite ?Hp; try done. by apply same_sleep_record.
  - injection Hs as <- <-. revert Hi. apply close_goto_sleep; rewrite ?Hp; try done. by destruct (_ && _).
  - injection Hs as <- <-. revert Hi. apply close_goto_sleep; rewrite ?Hp; try done. by destruct (closing s).
  - apply bind_Some in Hs as ([next s2] & Hf & [= <- <-]). by eapply close_fail_sleep.
Qed.

Lemma external_sleep s s' : external s s' -> sleep_ok s -> sleep_ok s'.
Proof.
  intros Hs Hi. pose proof (sl_overlooked _ _ _ Hi) as Ho. revert Hi Ho.
  destruct Hs as [r s s' Hs|s s' _ Hs|e s s' _ Hs|r p p' s Hw Hs|p p' s Hw _ Hs|e p p' s Hw _ Hs|r p p' s Hc Hs|t n s Hc _];
    intros Hi Ho; try by apply awake_sleep.
  - unfold poll_respond in Hs. destruct (poll_at s) eqn:Hp; simplify_eq. revert Hi.
    apply poll_goto_sleep; rewrite ?Hp; try done. by destruct r.
  - unfold poll_return in Hs. revert Hi. destruct (poll_at s) eqn:Hp; simplify_eq.
    1,2: apply poll_goto_sleep; rewrite ?Hp; try done; by destruct (closing s).
    apply bind_Some in Hs as (next & Hr & [= <-]). apply poll_goto_sleep; rewrite ?Hp; try done; destruct p; by simplify_eq/=.
  - unfold poll_throw in Hs. revert Hi. destruct (poll_at s) as [| | | | | | | | | | | |caught m p|] eqn:Hp; simplify_eq.
    1,2: apply poll_goto_sleep; by rewrite ?Hp.
    destruct caught; [done|]. apply bind_Some in Hs as (next & Hr & [= <-]).
    apply poll_goto_sleep; rewrite ?Hp; try done; by destruct p.
  - revert Hi. apply close_goto_sleep; rewrite ?Hc; try done; destruct p; simplify_eq/=; try done. by destruct r.
  - revert Hi. apply same_sleep_inv; try done. unfold notifier. cbn. by rewrite Hc.
Qed.

Lemma calls_sleep s s' : calls s s' -> unconnected s -> sleep_ok s -> sleep_ok s'.
Proof.
  intros Hs Hun Hi. pose proof (sl_overlooked _ _ _ Hi) as Ho. destruct Hs as [url s s' Hc _ Hs|write s Hm|t s _|s _ _].
  - unfold polling_connect in Hs. destruct (closing s); [by injection Hs as <-|].
    apply outcome_bind_ok in Hs as (u & _ & [= <-]). by apply awake_sleep.
  - unfold polling_send. destruct (closing s || _) eqn:Hc; [done|]. apply orb_false_iff in Hc as [Hc _].
    destruct Hi as [H1 H2 H3 H4 H5]. unfold mutex_free in Hm. split; cbn; auto.
    + intros Hw. by rewrite Hw in Hm.
    + intros _ _. lia.
    + congruence.
    + by rewrite overlooked_snoc.
  - revert Hi. by apply same_sleep_inv.
  - revert Hi. by apply same_sleep_inv.
Qed.

Lemma notify_one_sleep s s' : notify_one s = Some s' -> sleep_ok s -> sleep_ok s'.
Proof.
  unfold notify_one. destruct (notifies s) as [|n] eqn:Hn; [done|]. intros [= <-] Hi. unfold wake. cbn.
  destruct (write_at s) eqn:Hw; try (apply awake_sleep; cbn; [by rewrite ?Hw|exact (sl_overlooked _ _ _ Hi)]).
  destruct Hi as [H1 H2 H3 H4 H5]. rewrite Hw in *. split; cbn; auto; congruence.
Qed.

Lemma p_step_sleep s s' c : simulates s c -> unconnected s -> p_step s s' -> stop_inv s -> sleep_ok s -> sleep_ok s'.
Proof.
  intros Hsim Hun Hstep. revert Hsim Hun.
  destruct Hstep as [s1 s1' [s2 s2' Hi|s2 s2' He|s2 s2' Hc]|s1 s1' [s2 Hw]]; intros Hsim Hun Hst Hok.
  - destruct Hi as [? ? Hs|? ? Hs|? ? Hs|? ? Hs|l1 t l2 s3 _ _|? ? Hs|? ? Hs].
    + by eapply poll_step_sleep.
    + by eapply write_step_sleep.
    + by eapply close_step_sleep.
    + by eapply closer_step_sleep.
    + revert Hok. unfold close_enter. destruct (shutdown_once s3) eqn:Ho; [by apply same_sleep_inv|].
      assert (closer s3 = None) as Hc.
      { destruct (closer s3) eqn:Hc; [|done]. rewrite (st_closer _ Hst) in Ho; [done|by rewrite Hc]. }
      apply same_sleep_inv; [by split; rewrite ?Ho|..]; unfold notifier; cbn; by rewrite ?Hc.
    + revert Hok. unfold join_step in Hs. repeat case_match; simplify_eq; apply same_sleep_inv; try done.
      by apply same_sleep_record.
    + by eapply notify_one_sleep.
  - by eapply external_sleep.
  - by eapply calls_sleep.
  - apply awake_sleep; [done|]. apply (sl_overlooked _ _ _ Hok).
Qed.

(** ** The calls of [close] and [sync_close] *)

Lemma stop_inv_same s s' :
  closer s' = closer s -> shutdown_once s' = shutdown_once s -> (closing s = true -> closing s' = true) ->
  (close_at s = None -> close_at s' = None) -> joiner s' = joiner s -> stop_inv s -> stop_inv s'.
Proof.
  intros E1 E2 E3 E4 E5 [H1 H2 H3 H4]. split; rewrite ?E1, ?E2, ?E5; auto.
  intros Ho. destruct (H2 Ho); auto.
Qed.

Lemma fail_step_stop m p s next s' : fail_step m p s = Some (next, s') -> stop_inv s -> stop_inv s'.
Proof.
  intros Hf. apply stop_inv_same; destruct p; cbn in Hf; unfold locking in Hf; repeat case_match; simplify_eq; try done;
    unfold notify_all, wake; by repeat case_match.
Qed.

Lemma post_step_stop t p s p' s' : post_step t p s = Some (p', s') -> stop_inv s -> stop_inv s'.
Proof.
  intros Hs. destruct p as [w| |r|w|caught m p|]; cbn [post_step] in Hs; try done.
  - unfold locking in Hs. destruct (mutex_free s); [|done]. injection Hs as <- <-. by apply stop_inv_same.
  - by injection Hs as <- <-.
  - by injection Hs as <- <-.
  - apply bind_Some in Hs as ([next s1] & Hf & [= <- <-]). by eapply fail_step_stop.
Qed.


Lemma notify_all_stop s : stop_inv s -> stop_inv (notify_all s).
Proof. apply stop_inv_same; unfold notify_all, wake; by repeat case_match. Qed.

Lemma closer_step_stop s s' : closer_step s = Some s' -> stop_inv s -> stop_inv s'.
Proof.
  intros Hs Hi. unfold closer_step in Hs. destruct (closer s) as [[[t n] p]|] eqn:Hc; [|done].
  pose proof (st_closer _ Hi ltac:(by rewrite Hc)) as Ho.
  assert (joiner s = None \/ closer_holds (Some (t, n, p)) = false) as Hj.
  { destruct (joiner s) eqn:Hj; [|by left]. right. rewrite <- Hc. by apply (st_join _ Hi); rewrite Hj. }
  assert (p <> ClExchange -> closing s = true) as Hcl.
  { intros Hne. destruct (st_once _ Hi Ho) as [?|(t' & n' & E)]; [done|]. congruence. }
  destruct p; try done; cbn [closer_holds] in Hj.
  - injection Hs as <-. destruct (closing s) eqn:E; cbn [negb]; split; cbn; auto.
    all: try (intros _; apply (st_close _ Hi); right; by rewrite Hc).
    all: intros [? Hjo]; destruct Hj; congruence.
  - injection Hs as <-. split; cbn; auto; [intros _; apply (st_close _ Hi); right; by rewrite Hc|].
    intros [? Hjo]; destruct Hj; congruence.
  - injection Hs as <-. apply notify_all_stop in Hi as [H1 H2 H3 H4].
    assert (closer (notify_all s) = Some (t, n, ClNotify)) as Hc' by (destruct (notify_frame s) as (_ & _ & _ & -> & _); done).
    rewrite Hc' in *. split; cbn; auto.
    intros E. destruct (H2 E) as [?|(? & ? & ?)]; [by left|congruence].
  - unfold locking in Hs. destruct (mutex_free _); [|done]. injection Hs as <-.
    destruct (negb _); split; cbn; auto; try (intros [?|?]; congruence); try (intros [? Hjo]; destruct Hj; congruence).
  - destruct n; injection Hs as <-; split; cbn; auto; try (intros [?|?]; congruence); try (intros [? ?]; done).
Qed.

Lemma write_step_stop s s' : write_step s = Some s' -> stop_inv s -> stop_inv s'.
Proof.
  intros Hs. unfold write_step in Hs. destruct (write_at s) as [| | | |p|]; try done.
  - injection Hs as <-. destruct (closing s || _); [destruct (write_queue s)|]; by apply stop_inv_same.
  - injection Hs as <-. by apply stop_inv_same.
  - assert (p = Posted \/ p <> Posted) as [->|Hp] by (destruct p; auto; by right).
    + injection Hs as <-. by apply stop_inv_same.
    + assert (('(p, s) ← post_step TWrite p s; Some (write_goto (WPost p) s)) = Some s') as Hs' by (by destruct p).
      apply bind_Some in Hs' as ([p' s1] & Hs' & [= <-]). intros Hi%(post_step_stop _ _ _ _ _ Hs').
      revert Hi. by apply stop_inv_same.
Qed.

Lemma post_step_close_at t p s p' s' : post_step t p s = Some (p', s') -> close_at s' = close_at s.
Proof.
  intros Hs. destruct p; cbn [post_step] in Hs; unfold locking in Hs; repeat case_match; simplify_eq; try done.
  apply bind_Some in Hs as ([next s1] & Hf & [= <- <-]). by destruct (fail_step_threads _ _ _ _ _ Hf) as (_ & ? & _).
Qed.

Lemma close_step_stop s s' : close_step s = Some s' -> stop_inv s -> stop_inv s'.
Proof.
  intros Hs Hi. unfold close_step in Hs. destruct (close_at s) as [p|] eqn:Hp; [|done].
  apply bind_Some in Hs as ([p' s1] & Hs & [= <-]). apply (post_step_stop _ _ _ _ _ Hs) in Hi.
  apply post_step_close_at in Hs. revert Hi. apply stop_inv_same; try done. cbn. congruence.
Qed.

Lemma poll_step_stop s s' : poll_step s = Some s' -> stop_inv s -> stop_inv s'.
Proof.
  intros Hs. unfold poll_step in Hs. destruct (poll_at s) as [|hs|hs|hs r|r|r|ps|p ps|o ps|ps| |w|caught m p|];
    unfold locking, deliver_packet, poll_send in Hs.
  13: { apply bind_Some in Hs as ([next s1] & Hf & [= <-]). intros Hi%(fail_step_stop _ _ _ _ _ Hf). revert Hi.
    by apply stop_inv_same. }
  all: repeat case_match; simplify_eq; by apply stop_inv_same.
Qed.

Lemma close_enter_stop l1 t l2 s : connect_mutex_free s = true -> stop_inv s -> stop_inv (close_enter t (l1 ++ l2) s).
Proof.
  intros Hm Hi. unfold close_enter. destruct (shutdown_once s) eqn:Ho; [revert Hi; by apply stop_inv_same|].
  unfold connect_mutex_free in Hm. apply andb_true_iff in Hm as [_ Hm].
  split; cbn; [done|by eauto|..].
  - intros _. apply (st_close _ Hi). by left.
  - destruct (joiner s); [done|]. by intros [? ?].
Qed.

Lemma join_step_stop s s' : join_step s = Some s' -> stop_inv s -> stop_inv s'.
Proof.
  intros Hs [H1 H2 H3 H4]. unfold join_step in Hs. destruct (joiner s) as [[]|] eqn:Hj; [| | |done]; case_match; try done;
    injection Hs as <-; split; cbn; auto; intros _; apply H4; by eexists.
Qed.

Lemma internal_stop s s' : internal s s' -> stop_inv s -> stop_inv s'.
Proof.
  intros Hs Hi. destruct Hs as [? ? Hs|? ? Hs|? ? Hs|? ? Hs|l1 t l2 s _ Hm|? ? Hs|s s' Hs].
  - by eapply poll_step_stop.
  - by eapply write_step_stop.
  - by eapply close_step_stop.
  - by eapply closer_step_stop.
  - by apply close_enter_stop.
  - by eapply join_step_stop.
  - unfold notify_one in Hs. destruct (notifies s) as [|n]; [done|]. injection Hs as <-. revert Hi.
    apply stop_inv_same; unfold wake; cbn; by destruct (write_at s).
Qed.

Lemma external_stop s s' : external s s' -> stop_inv s -> stop_inv s'.
Proof.
  intros Hs.
  destruct Hs as [r s s' Hs|s s' _ Hs|e s s' _ Hs|r p p' s Hw Hs|p p' s Hw _ Hs|e p p' s Hw _ Hs|r p p' s Hc Hs|t n s Hc _];
    try by apply stop_inv_same.
  - unfold poll_respond in Hs. destruct (poll_at s); simplify_eq. by apply stop_inv_same.
  - unfold poll_return in Hs. destruct (poll_at s); simplify_eq; try by apply stop_inv_same.
    apply bind_Some in Hs as (? & _ & [= <-]). by apply stop_inv_same.
  - unfold poll_throw in Hs. destruct (poll_at s) as [| | | | | | | | | | | |[]|]; simplify_eq;
      try (by apply stop_inv_same). apply bind_Some in Hs as (? & _ & [= <-]). by apply stop_inv_same.
  - apply stop_inv_same; try done. by rewrite Hc.
  - intros [H1 H2 H3 H4]. rewrite Hc in *. split; cbn.
    + by intros [].
    + intros Ho. destruct (H2 Ho) as [?|(? & ? & ?)]; [by left|done].
    + intros [?|?]; [auto|done].
    + intros Hj. by destruct (H4 Hj).
Qed.

Lemma calls_stop s s' : calls s s' -> stop_inv s -> stop_inv s'.
Proof.
  intros Hs. destruct Hs as [url s s' Hc _ Hs|write s Hm|t s _|s Ho Hm].
  - unfold polling_connect in Hs. destruct (closing s) eqn:Hcl; [by injection Hs as <-|].
    apply outcome_bind_ok in Hs as (u & _ & [= <-]). apply stop_inv_same; try done. by rewrite Hcl.
  - unfold polling_send. destruct (closing s || _); [done|]. by apply stop_inv_same.
  - by apply stop_inv_same.
  - intros [H1 H2 H3 H4]. unfold connect_mutex_free in Hm. apply andb_true_iff in Hm as [Hm _].
    split; cbn; auto. intros _. split; [done|]. by destruct (closer_holds (closer s)).
Qed.

Lemma p_step_stop s s' : p_step s s' -> stop_inv s -> stop_inv s'.
Proof.
  intros [s1 s1' [s2 s2' Hi|s2 s2' He|s2 s2' Hc]|s1 s1' [s2 Hw]].
  - by apply internal_stop.
  - by apply external_stop.
  - by apply calls_stop.
  - by apply stop_inv_same.
Qed.

Lemma reachable_sleep s : t_reachable s -> sleep_ok s /\ stop_inv s.
Proof.
  apply (polling_reachable_invariant (fun s => sleep_ok s /\ stop_inv s)).
  - intros. split; [apply awake_sleep; [done|by intros ?%elem_of_nil]|]. split; cbn; try done; by intros [].
  - intros s1 s2 c Hsim Hun Hs [Hok Hst]. split; [by eapply p_step_sleep|by eapply p_step_stop].
Qed.

(** Nobody forgets the writer but [close]: when the writer is about to sleep the
    queue is empty; when messages wait while it sleeps a [notify_one] is on its way;
    when [closing_] is set while it sleeps, or is about to, the thread that set it
    has yet to notify it, or [notify_all] came between its test and its sleep - and
    then [close] was called. *)
Theorem polling_writer_wakes (s : polling) :
  t_reachable s ->
  (write_at s = WBlocking -> write_queue s = []) /\
  (write_at s = WSleeping -> write_queue s <> [] -> (0 < notifies s)%nat) /\
  (closing s = true -> asleep (write_at s) = true -> notifier s = true \/ POverlooked ∈ history s) /\
  (POverlooked ∈ history s -> shutdown_once s = true).
Proof. intros Hs. destruct (reachable_sleep s Hs) as [[H1 H2 H3 H4 H5] _]. auto. Qed.

(** ** What can block [sync_close] *)

(** A request is in progress, or user code runs that is not inside [close]. *)
Definition awaited (s : polling) : bool :=
  match poll_at s with PWaiting _ => true | _ => false end ||
  match write_at s with WPost PostWaiting => true | _ => false end ||
  match close_at s with Some PostWaiting => true | _ => false end ||
  existsb (fun t => in_user t s && negb (calling t s)) [TPoll; TWrite; TCloser] ||
  match closer s with Some (_, _, ClInClose) => true | _ => false end.

Definition stuck (s : polling) : Prop := forall s', ~ internal s s'.

Lemma fail_step_goes m p s : mutex_free s = true -> fail_return p = None -> exists x, fail_step m p s = Some x.
Proof. intros Hm Hp. destruct p; try done; cbn; unfold locking; rewrite ?Hm; repeat case_match; eauto. Qed.

Lemma fail_user p : fail_return p = None \/ p = FInError \/ p = FInClose.
Proof. destruct p; auto. Qed.

(** A thread in the middle of [post] goes on, waits, or runs user code. *)
Lemma post_step_goes t p s :
  mutex_free s = true -> p <> Posted -> p = PostWaiting \/ post_in_user p = true \/ exists x, post_step t p s = Some x.
Proof.
  intros Hm Hp. destruct p as [w| |r|w|caught m p|]; cbn [post_step post_in_user]; unfold locking; rewrite ?Hm; eauto; try done.
  destruct (fail_user p) as [Hf|[->| ->]]; auto. destruct (fail_step_goes m p s Hm Hf) as ([next s1] & ->). cbn. eauto.
Qed.

Lemma poll_step_goes s :
  mutex_free s = true -> poll_ended (poll_at s) = false ->
  match poll_at s with PWaiting _ => true | _ => false end = true \/ in_user TPoll s = true \/ exists s', poll_step s = Some s'.
Proof.
  intros Hm Hp. unfold poll_step, in_user, locking. rewrite Hm.
  destruct (poll_at s) as [|[]|hs|[] r|r|r|[|? ps]|p ps|o ps|ps| |w|caught m p|]; try done; eauto.
  - case_decide; eauto.
  - destruct (fail_user p) as [Hf|[->| ->]]; auto. destruct (fail_step_goes m p s Hm Hf) as ([next s1] & ->). cbn. eauto.
Qed.

Lemma stuck_mutex s : stuck s -> mutex_free s = true.
Proof.
  intros Hst. unfold mutex_free. destruct (write_at s) eqn:Hw; try done. exfalso.
  apply (Hst (write_goto WSleeping s)), in_write. unfold write_step. by rewrite Hw.
Qed.

Lemma user_calls t s :
  in_user t s = true -> t <> TOther -> awaited s = false -> closer s = None -> t ∈ callers s.
Proof.
  intros Hu Ht Ha Hc. unfold awaited in Ha. apply orb_false_iff in Ha as [Ha _]. apply orb_false_iff in Ha as [_ Ha].
  assert (in_user t s && negb (calling t s) = false) as Hcall.
  { cbn in Ha. rewrite !orb_false_iff in Ha. destruct t; tauto. }
  rewrite Hu in Hcall. cbn in Hcall. unfold calling in Hcall. rewrite Hc, orb_false_r in Hcall.
  apply negb_false_iff, bool_decide_eq_true_1 in Hcall. done.
Qed.

(** Once joining, the call of [close] is over, or it runs user code. *)
Lemma joining_closed s : stop_inv s -> is_Some (joiner s) -> stuck s -> awaited s = false -> closer s = None /\ closing s = true.
Proof.
  intros Hi Hj Hst Ha. destruct (st_join _ Hi Hj) as [Ho Hh].
  assert (closer s = None) as Hc.
  { destruct (closer s) as [[[t n] p]|] eqn:Hc; [|done]. exfalso. destruct p; try done.
    - destruct n; eapply Hst, in_closer; unfold closer_step; by rewrite Hc.
    - unfold awaited in Ha. by rewrite Hc, orb_true_r in Ha. }
  split; [done|]. destruct (st_once _ Hi Ho) as [?|(t & n & E)]; [done|]. congruence.
Qed.

Lemma poll_fail_goes s p :
  poll_fail (poll_at s) = Some p -> notifying (Some p) = true -> mutex_free s = true -> exists s', poll_step s = Some s'.
Proof.
  intros Hp Hn Hm. destruct (poll_at s) as [| | | | | | | | | | | |caught m q|] eqn:E; try done. injection Hp as ->.
  destruct (poll_step_goes s Hm) as [Hx|[Hx|?]]; [by rewrite E|by rewrite E in Hx| |done].
  unfold in_user in Hx. rewrite E in Hx. by destruct p.
Qed.

Lemma post_fail_goes s p :
  post_fail (close_at s) = Some p -> notifying (Some p) = true -> mutex_free s = true -> exists s', close_step s = Some s'.
Proof.
  intros Hp Hn Hm. unfold close_step. destruct (close_at s) as [[| | | |caught m q|]|] eqn:E; try done. injection Hp as ->.
  destruct (post_step_goes TCloser (PostFail caught m p) s Hm) as [Hx|[Hx|([p' s1] & ->)]]; try done; [by destruct p|].
  cbn. eauto.
Qed.

Lemma writer_blocked s :
  sleep_ok s -> closing s = true -> closer s = None -> stuck s -> awaited s = false -> ended (write_at s) = false ->
  POverlooked ∈ history s \/ TWrite ∈ callers s.
Proof.
  intros Hok Hcl Hc Hst Ha Hw. pose proof (stuck_mutex s Hst) as Hm. destruct (write_at s) as [| | | |p|] eqn:Hp; try done.
  - exfalso. eapply Hst, in_write. unfold write_step. rewrite Hp. done.
  - unfold mutex_free in Hm. by rewrite Hp in Hm.
  - destruct (sl_notifier _ _ _ Hok Hcl) as [Hn|?]; [by rewrite Hp| |by left]. exfalso.
    unfold notifier in Hn. rewrite Hc, orb_false_r in Hn. apply orb_true_iff in Hn as [Hn|Hn].
    + destruct (poll_fail (poll_at s)) as [q|] eqn:E; [|done]. destruct (poll_fail_goes s q E Hn Hm) as (s' & Hs). by eapply Hst, in_poll.
    + destruct (post_fail (close_at s)) as [q|] eqn:E; [|done]. destruct (post_fail_goes s q E Hn Hm) as (s' & Hs). by eapply Hst, in_close_thread.
  - right. assert (p <> Posted) as Hne.
    { intros ->. eapply Hst, in_write. unfold write_step. by rewrite Hp. }
    destruct (post_step_goes TWrite p s Hm Hne) as [->|[Hu|([p' s1] & Hs)]].
    + exfalso. unfold awaited in Ha. rewrite Hp in Ha. by rewrite orb_true_r in Ha.
    + apply user_calls; try done. unfold in_user. by rewrite Hp.
    + exfalso. apply (Hst (write_goto (WPost p') s1)), in_write. unfold write_step. rewrite Hp.
      destruct p; try done; by rewrite Hs.
Qed.

(** [C19] When [sync_close] waits for the threads and nothing in the transport can go on
    - with no request in progress and no user code to wait for - then either the
    notification of [close] came between the writer's test and its sleep, or a
    handler on one of the threads called [close] and waits for the mutex
    [sync_close] holds. *)
Theorem sync_close_progress (s : polling) :
  t_reachable s -> is_Some (joiner s) -> stuck s -> awaited s = false ->
  POverlooked ∈ history s \/ exists t, t ∈ callers s /\ t <> TOther.
Proof.
  intros Hs Hj Hst Ha. destruct (reachable_sleep s Hs) as [Hok Hi].
  destruct (joining_closed s Hi Hj Hst Ha) as [Hc Hcl]. pose proof (stuck_mutex s Hst) as Hm.
  destruct (joiner s) as [[]|] eqn:Hjo; [| | |by destruct Hj].
  - destruct (ended (write_at s)) eqn:Hw.
    + exfalso. eapply Hst, in_join. unfold join_step. by rewrite Hjo, Hw.
    + destruct (writer_blocked s Hok Hcl Hc Hst Ha Hw); [by left|right; by exists TWrite].
  - right. destruct (post_ended (close_at s)) eqn:Hw.
    + exfalso. eapply Hst, in_join. unfold join_step. by rewrite Hjo, Hw.
    + destruct (close_at s) as [p|] eqn:Hp; [|done].
      destruct (post_step_goes TCloser p s Hm) as [->|[Hu|([p' s1] & Hs1)]]; [by intros ->|..].
      * exfalso. unfold awaited in Ha. rewrite Hp in Ha. by rewrite !orb_true_r in Ha.
      * exists TCloser. split; [|done]. apply user_calls; try done. unfold in_user. by rewrite Hp.
      * exfalso. eapply Hst, in_close_thread. unfold close_step. by rewrite Hp, Hs1.
  - right. destruct (poll_ended (poll_at s)) eqn:Hp.
    + exfalso. eapply Hst, in_join. unfold join_step. by rewrite Hjo, Hp.
    + destruct (poll_step_goes s Hm Hp) as [Hx|[Hu|(s1 & Hs1)]].
      * exfalso. unfold awaited in Ha. by rewrite Hx in Ha.
      * exists TPoll. split; [|done]. by apply user_calls.
      * exfalso. by eapply Hst, in_poll.
Qed.
End sleep_with_json.

(** ** Destruction

    Threads and calls in progress hold references to the transport, so that its destructor
    runs after all of them, on the thread that ends last or on another: it waits for
    nobody and calls no handler. *)
Record unreferenced (s : polling) : Prop := mk_unreferenced {
  un_callers : callers s = [];
  un_closer : closer s = None;
  un_joiner : joiner s = None;
  un_write : ended (write_at s) = true;
  un_close : post_ended (close_at s) = true;
  un_poll : poll_ended (poll_at s) = true;
}.

Lemma polling_destroy_does_not_wait (this : thread) (s : polling) :
  unreferenced s ->
  exists s', polling_destroy this s = Some s' /\ closing s' = true /\ state_ s' = transport_closed /\ history s' = history s.
Proof.
  intros [_ Hc Hj Hw Hp Hl]. unfold polling_destroy. set (s1 := {| s with closing := true; state_ := transport_closed |}).
  assert (notify_all s1 = s1) as -> by (unfold notify_all, wake; cbn; by destruct (write_at s)).
  assert (connect_mutex_free s1 = true) as -> by (unfold connect_mutex_free; cbn; by rewrite Hc, Hj).
  assert (Hover : forall t (over : bool) (u : polling), over = true -> join_thread this t over u = Some u).
  { unfold join_thread. intros t over u ->. by rewrite orb_true_r. }
  rewrite Hover by done. cbn [mbind option_bind]. rewrite Hover by done. cbn [mbind option_bind]. rewrite Hover by done. by eexists.
Qed.
