(* ===== verification/PollingDemo.v ===== *)
(** * The long-polling transport: the two deadlocks, and runs

    The states from which [sync_close] never returns, an executable version of the
    steps, and the witnesses of the transport's properties. *)

From S2P Require Export PollingSleep JsonCodec.
From stdpp Require Import options.
#[local] Set Default Proof Using "Type*".
Local Open Scope Z_scope.

(** ** A writer nobody will wake *)

(** The writer sleeps, [close] is past its notification, nobody is to notify. *)
Record hung (s : polling) : Prop := mk_hung {
  hg_closing : closing s = true;
  hg_write : write_at s = WSleeping;
  hg_notifier : notifier s = false;
  hg_notifies : notifies s = O;
  hg_once : shutdown_once s = true;
  hg_closer : forall t n, closer s <> Some (t, n, ClExchange);
}.

Definition hung_joining (s : polling) : Prop := hung s /\ joiner s = Some JWrite.

Lemma hung_parts s :
  notifier s = false ->
  notifying (poll_fail (poll_at s)) = false /\ notifying (post_fail (close_at s)) = false /\ closer_notifies (closer s) = false.
Proof. unfold notifier. rewrite !orb_false_iff. tauto. Qed.

Lemma hung_same s s' :
  closing s' = closing s -> write_at s' = write_at s -> notifier s' = false -> notifies s' = notifies s ->
  shutdown_once s' = shutdown_once s -> closer s' = closer s \/ (forall t n, closer s' <> Some (t, n, ClExchange)) ->
  joiner s' = joiner s ->
  hung_joining s -> hung_joining s'.
Proof.
  intros E1 E2 E3 E4 E5 E6 E7 [[H1 H2 H3 H4 H5 H6] H7]. split; [split|]; try congruence.
  intros t n. destruct E6 as [->|?]; auto.
Qed.

(** The members [hung] looks at, but for the pollers. *)
Definition same_hung (s s' : polling) : Prop :=
  closing s' = closing s /\ write_at s' = write_at s /\ notifies s' = notifies s /\ shutdown_once s' = shutdown_once s /\
  closer s' = closer s /\ joiner s' = joiner s.

(** [fail] returns at once, or calls a handler. *)
Lemma fail_step_hung m p s next s' :
  closing s = true -> notifying (Some p) = false -> fail_step m p s = Some (next, s') ->
  notifying next = false /\ same_hung s s' /\ poll_at s' = poll_at s /\ close_at s' = close_at s.
Proof.
  intros Hc Hn Hf. destruct p; try done; cbn in Hf.
  - rewrite Hc in Hf. by injection Hf as <- <-.
  - by injection Hf as <- <-.
  - by injection Hf as <- <-.
Qed.

(** The poll thread or the closing thread goes on. *)
Lemma goto_hung s s' :
  same_hung s s' -> notifying (poll_fail (poll_at s')) = false -> notifying (post_fail (close_at s')) = false ->
  hung_joining s -> hung_joining s'.
Proof.
  intros (E1 & E2 & E3 & E4 & E5 & E6) Hp Hc Hh. pose proof (hung_parts s (hg_notifier _ (proj1 Hh))) as (_ & _ & Hn).
  revert Hh. apply hung_same; try done.
  - unfold notifier. by rewrite Hp, Hc, E5.
  - by left.
Qed.

Section with_json.
Context `{JsonLib} `{Exceptions}.

Lemma poll_step_hung s s' : poll_step s = Some s' -> hung_joining s -> hung_joining s'.
Proof.
  intros Hs Hh. pose proof (hg_closing _ (proj1 Hh)) as Hc.
  destruct (hung_parts s (hg_notifier _ (proj1 Hh))) as (Hp & Hp' & _).
  unfold poll_step in Hs. destruct (poll_at s) as [|hs|hs|hs r|r|r|ps|p ps|o ps|ps| |w|caught m p|] eqn:E;
    unfold locking, deliver_packet, poll_send in Hs.
  13: { apply bind_Some in Hs as ([next s1] & Hf & [= <-]).
    destruct (fail_step_hung m p s next s1 Hc Hp Hf) as (Hn & Hsame & _ & E2).
    revert Hh. apply goto_hung; [done|by destruct next|]. cbn. by rewrite E2. }
  all: repeat case_match; simplify_eq; revert Hh; by apply goto_hung.
Qed.

Lemma close_step_hung s s' : close_step s = Some s' -> hung_joining s -> hung_joining s'.
Proof.
  intros Hs Hh. pose proof (hg_closing _ (proj1 Hh)) as Hc.
  destruct (hung_parts s (hg_notifier _ (proj1 Hh))) as (Hp' & Hp & _).
  unfold close_step in Hs. destruct (close_at s) as [p|] eqn:E; [|done]. apply bind_Some in Hs as ([p' s1] & Hs & [= <-]).
  destruct p as [w| |r|w|caught m p|]; cbn [post_step] in Hs; try done.
  - unfold locking in Hs. destruct (mutex_free s); [|done]. injection Hs as <- <-. revert Hh. by apply goto_hung.
  - injection Hs as <- <-. revert Hh. apply goto_hung; try done. cbn. by destruct (_ && _).
  - injection Hs as <- <-. revert Hh. apply goto_hung; try done. cbn. by destruct (closing s).
  - apply bind_Some in Hs as ([next s2] & Hf & [= <- <-]).
    destruct (fail_step_hung m p s next s2 Hc Hp Hf) as (Hn & Hsame & E1 & _).
    revert Hh. apply goto_hung; [done| |by destruct next]. cbn. by rewrite E1.
Qed.

Lemma closer_step_hung s s' : closer_step s = Some s' -> hung_joining s -> hung_joining s'.
Proof.
  intros Hs Hh. destruct (hung_parts s (hg_notifier _ (proj1 Hh))) as (Hp & Hp' & Hn).
  unfold closer_step in Hs. destruct (closer s) as [[[t n] p]|] eqn:E; [|done]. destruct p; try done.
  - by destruct (hg_closer _ (proj1 Hh) t n).
  - unfold locking in Hs. destruct (mutex_free _); [|done]. injection Hs as <-. revert Hh.
    destruct (negb _); apply hung_same; try done; try (by right); unfold notifier; cbn; by rewrite Hp, ?Hp'.
  - destruct n; injection Hs as <-; revert Hh; apply hung_same; try done; try (by right); unfold notifier; cbn; by rewrite Hp, Hp'.
Qed.

Lemma internal_hung s s' : internal s s' -> hung_joining s -> hung_joining s'.
Proof.
  intros Hs Hh. pose proof (proj1 Hh) as [H1 H2 H3 H4 H5 H6].
  destruct Hs as [? ? Hs|? ? Hs|? ? Hs|? ? Hs|l1 t l2 s2 _ Hm|? ? Hs|s2 s2' Hs].
  - by eapply poll_step_hung.
  - unfold write_step in Hs. by rewrite H2 in Hs.
  - by eapply close_step_hung.
  - by eapply closer_step_hung.
  - unfold close_enter. rewrite H5. revert Hh. apply hung_same; try done. by left.
  - unfold join_step in Hs. rewrite (proj2 Hh), H2 in Hs; done.
  - unfold notify_one in Hs. by rewrite H4 in Hs.
Qed.

Lemma external_hung s s' : external s s' -> hung_joining s -> hung_joining s'.
Proof.
  intros Hs Hh. pose proof (proj1 Hh) as [H1 H2 H3 H4 H5 H6]. destruct (hung_parts s H3) as (Hp & Hp' & Hn).
  destruct Hs as [r s2 s2' Hs|s2 s2' _ Hs|e s2 s2' _ Hs|r p p' s2 Hw Hs|p p' s2 Hw _ Hs|e p p' s2 Hw _ Hs|r p p' s2 Hc Hs|t n s2 Hc _];
    try congruence.
  - unfold poll_respond in Hs. destruct (poll_at s2); simplify_eq. revert Hh. apply goto_hung; try done. by destruct r.
  - unfold poll_return in Hs. revert Hh. destruct (poll_at s2); simplify_eq.
    + apply goto_hung; try done. by destruct (closing s2).
    + by apply goto_hung.
    + apply bind_Some in Hs as (next & Hr & [= <-]). apply goto_hung; try done. destruct p; by simplify_eq/=.
  - unfold poll_throw in Hs. revert Hh. destruct (poll_at s2) as [| | | | | | | | | | | |[] m q|]; simplify_eq; try by apply goto_hung.
    apply bind_Some in Hs as (next & Hr & [= <-]). by apply goto_hung.
  - revert Hh. apply goto_hung; try done. destruct p; simplify_eq/=; try done. by destruct r.
  - revert Hh. apply hung_same; try done; [|by right]. unfold notifier. cbn. by rewrite Hp, Hp'.
Qed.

Lemma moves_hung s s' : moves s s' -> hung_joining s -> hung_joining s'.
Proof.
  intros [s1 s1' Hi|s1 s1' He|s1 s1' Hc] Hh.
  - by eapply internal_hung.
  - by eapply external_hung.
  - destruct Hc as [url s2 s2' _ Hm _|write s2 _|t s2 _|s2 _ Hm].
    + unfold connect_mutex_free in Hm. rewrite (proj2 Hh) in Hm. by rewrite andb_false_r in Hm.
    + unfold polling_send. by rewrite (hg_closing _ (proj1 Hh)).
    + pose proof (hg_notifier _ (proj1 Hh)) as Hn. revert Hh. apply hung_same; try done. by left.
    + unfold connect_mutex_free in Hm. rewrite (proj2 Hh) in Hm. by rewrite andb_false_r in Hm.
Qed.

(** The lost notification: when the writer sleeps after [close] has notified,
    and no other notification is on its way, nothing that the transport, its
    requests, user code and further calls of its methods do wakes it, and
    [sync_close] waits for it for ever - unless the condition variable wakes it
    without reason. *)
Theorem overlooked_writer_hangs (s s' : polling) :
  hung s -> joiner s = Some JWrite -> rtc moves s s' -> write_at s' = WSleeping /\ joiner s' = Some JWrite.
Proof.
  intros Hh Hj Hs. assert (hung_joining s') as [Hh' ?].
  { revert Hs. apply (invariant_rtc moves); [done|]. apply moves_hung. }
  split; [by apply hg_write|done].
Qed.

(** ** A handler that calls [close] while [sync_close] joins *)

Record callback_blocked (s : polling) : Prop := mk_callback_blocked {
  cb_joiner : joiner s = Some JPoll;
  cb_caller : TPoll ∈ callers s;
  cb_user : in_user TPoll s = true;
}.

(** Steps that leave these alone. *)
Lemma callback_same s s' :
  joiner s' = joiner s -> (forall t, t ∈ callers s -> t ∈ callers s') -> poll_at s' = poll_at s -> callback_blocked s -> callback_blocked s'.
Proof. intros E1 E2 E3 [H1 H2 H3]. split; [congruence|auto|]. revert H3. unfold in_user. by rewrite E3. Qed.

Lemma notify_all_callers s : callers (notify_all s) = callers s /\ joiner (notify_all s) = joiner s.
Proof. unfold notify_all, wake. by destruct (write_at s). Qed.

Lemma fail_step_callers m p s next s' : fail_step m p s = Some (next, s') -> callers s' = callers s /\ joiner s' = joiner s.
Proof.
  intros Hf. destruct p; cbn in Hf; unfold locking in Hf; repeat case_match; simplify_eq; try done. apply notify_all_callers.
Qed.

Lemma post_step_callers t p s p' s' :
  post_step t p s = Some (p', s') -> callers s' = callers s /\ joiner s' = joiner s /\ poll_at s' = poll_at s.
Proof.
  intros Hs. destruct p; cbn [post_step] in Hs; unfold locking in Hs; repeat case_match; simplify_eq; try done.
  apply bind_Some in Hs as ([next s1] & Hf & [= <- <-]). destruct (fail_step_callers _ _ _ _ _ Hf) as [? ?].
  by destruct (fail_step_threads _ _ _ _ _ Hf) as (? & _).
Qed.

Lemma write_step_callback s s' : write_step s = Some s' -> callback_blocked s -> callback_blocked s'.
Proof.
  intros Hs. unfold write_step in Hs. destruct (write_at s) as [| | | |p|]; try done.
  - injection Hs as <-. destruct (closing s || _); [destruct (write_queue s)|]; by apply callback_same.
  - injection Hs as <-. by apply callback_same.
  - assert (p = Posted \/ p <> Posted) as [->|Hp] by (destruct p; auto; by right).
    + injection Hs as <-. by apply callback_same.
    + assert (('(p, s) ← post_step TWrite p s; Some (write_goto (WPost p) s)) = Some s') as Hs' by (by destruct p).
      apply bind_Some in Hs' as ([p' s1] & (E1 & E2 & E3)%post_step_callers & [= <-]).
      apply callback_same; [done| |done]. cbn. by rewrite E1.
Qed.

Lemma closer_step_callback s s' : closer_step s = Some s' -> callback_blocked s -> callback_blocked s'.
Proof.
  intros Hs. unfold closer_step in Hs. destruct (closer s) as [[[t n] p]|]; [|done]. destruct p; try done.
  - injection Hs as <-. destruct (negb (closing s)); by apply callback_same.
  - injection Hs as <-. by apply callback_same.
  - injection Hs as <-. destruct (notify_all_callers s) as [E1 E2]. destruct (notify_frame s) as (_ & E3 & _).
    apply callback_same; [done| |done]. cbn. by rewrite E1.
  - unfold locking in Hs. destruct (mutex_free _); [|done]. injection Hs as <-. destruct (negb _); by apply callback_same.
  - destruct n; injection Hs as <-; by apply callback_same.
Qed.

Lemma internal_callback s s' : internal s s' -> callback_blocked s -> callback_blocked s'.
Proof.
  intros Hs Hb. pose proof Hb as [H1 H2 H3]. unfold in_user in H3.
  destruct Hs as [? ? Hs|? ? Hs|s2 s2' Hs|? ? Hs|l1 t l2 s2 _ Hm|s2 s2' Hs|s2 s2' Hs].
  - unfold poll_step in Hs. destruct (poll_at _) as [| | | | | | | | | | | |? ? []|]; done.
  - by eapply write_step_callback.
  - unfold close_step in Hs. destruct (close_at s2) as [p|]; [|done].
    apply bind_Some in Hs as ([p' s1] & (E1 & E2 & E3)%post_step_callers & [= <-]).
    revert Hb. apply callback_same; [done| |done]. cbn. by rewrite E1.
  - by eapply closer_step_callback.
  - unfold connect_mutex_free in Hm. by rewrite H1, andb_false_r in Hm.
  - unfold join_step in Hs. rewrite H1 in Hs. by destruct (poll_at s2).
  - unfold notify_one in Hs. destruct (notifies s2) as [|n]; [done|]. injection Hs as <-. revert Hb.
    apply callback_same; unfold wake; cbn; by destruct (write_at s2).
Qed.

Lemma external_callback s s' : external s s' -> callback_blocked s -> callback_blocked s'.
Proof.
  intros Hs Hb. pose proof Hb as [H1 H2 H3].
  assert (calling TPoll s = true) as Hcall by (unfold calling; by rewrite bool_decide_true).
  destruct Hs as [r s2 s2' Hs|s2 s2' Hc _|e s2 s2' Hc _|r p p' s2 Hw Hs|p p' s2 Hw _ Hs|e p p' s2 Hw _ Hs|r p p' s2 Hc Hs|t n s2 Hc _];
    try congruence; try by revert Hb; apply callback_same.
  unfold poll_respond in Hs. unfold in_user in H3. by destruct (poll_at s2).
Qed.

Lemma p_step_callback s s' : p_step s s' -> callback_blocked s -> callback_blocked s'.
Proof.
  intros [s1 s1' [s2 s2' Hi|s2 s2' He|s2 s2' Hc]|s1 s1' [s2 Hw]] Hb.
  - by eapply internal_callback.
  - by eapply external_callback.
  - pose proof (cb_joiner _ Hb) as Hj. destruct Hc as [url s3 s3' _ Hm _|write s3 _|t s3 _|s3 _ Hm].
    + unfold connect_mutex_free in Hm. by rewrite Hj, andb_false_r in Hm.
    + unfold polling_send. destruct (closing s3 || _); [done|]. revert Hb. by apply callback_same.
    + revert Hb. apply callback_same; try done. intros u Hu. cbn. rewrite elem_of_app. by left.
    + unfold connect_mutex_free in Hm. by rewrite Hj, andb_false_r in Hm.
  - revert Hb. by apply callback_same.
Qed.

(** Closing from a callback: when [sync_close] waits for the poll thread while a
    handler on that thread calls [close], neither call ever returns. *)
Theorem close_in_callback_hangs (s s' : polling) :
  joiner s = Some JPoll -> TPoll ∈ callers s -> in_user TPoll s = true -> rtc p_step s s' ->
  joiner s' = Some JPoll /\ TPoll ∈ callers s'.
Proof.
  intros H1 H2 H3 Hs. assert (callback_blocked s') as [? ? _]; [|done].
  revert Hs. apply (invariant_rtc p_step); [done|]. apply p_step_callback.
Qed.
End with_json.

(** ** Runs *)

Inductive p_move : Type :=
  | MPoll | MWrite | MCloseThread | MCloser | MEnter | MJoinStep | MNotify
  | MPollRespond (r : outcome response) | MPollReturn
  | MWriteRespond (r : outcome response) | MCloseRespond (r : outcome response) | MCloserReturn
  | MConnect (url : bstr) | MSend (write : bstr * bool) | MClose (t : thread) | MJoin.

Section runs.
Context `{JsonLib} `{Exceptions}.

Definition guard_bool {A} (b : bool) (x : A) : option A := if b then Some x else None.

Definition p_go (m : p_move) (s : polling) : option polling :=
  match m with
  | MPoll => poll_step s
  | MWrite => write_step s
  | MCloseThread => close_step s
  | MCloser => closer_step s
  | MEnter => match callers s with t :: rest => guard_bool (connect_mutex_free s) (close_enter t rest s) | [] => None end
  | MJoinStep => join_step s
  | MNotify => notify_one s
  | MPollRespond r => poll_respond r s
  | MPollReturn => if calling TPoll s then None else poll_return s
  | MWriteRespond r =>
      match write_at s with WPost p => p' ← post_respond r p; Some (write_goto (WPost p') s) | _ => None end
  | MCloseRespond r =>
      match close_at s with Some p => p' ← post_respond r p; Some {| s with close_at := Some p' |} | None => None end
  | MCloserReturn =>
      match closer s with
      | Some (t, _, ClInClose) => guard_bool (negb (bool_decide (t ∈ callers s)) || bool_decide (t = TOther)) {| s with closer := None |}
      | _ => None
      end
  | MConnect url =>
      match polling_connect url s with
      | Ok s' => guard_bool (negb (connected s) && connect_mutex_free s) s'
      | Throw _ => None
      end
  | MSend write => guard_bool (mutex_free s) (polling_send write s)
  | MClose t => guard_bool (may_close t s) {| s with callers := callers s ++ [t] |}
  | MJoin => guard_bool (shutdown_once s && connect_mutex_free s) {| s with joiner := Some JWrite |}
  end.

Fixpoint p_run (ms : list p_move) (s : polling) : option polling :=
  match ms with [] => Some s | m :: ms' => s' ← p_go m s; p_run ms' s' end.

Lemma guard_bool_Some {A} b (x y : A) : guard_bool b x = Some y -> b = true /\ y = x.
Proof. destruct b; [|done]. by intros [= <-]. Qed.

Lemma p_go_moves m s s' : p_go m s = Some s' -> moves s s'.
Proof.
  destruct m; cbn [p_go]; intros Hs.
  - by apply moves_internal, in_poll.
  - by apply moves_internal, in_write.
  - by apply moves_internal, in_close_thread.
  - by apply moves_internal, in_closer.
  - destruct (callers s) as [|t rest] eqn:E; [done|]. apply guard_bool_Some in Hs as [Hm ->].
    by apply moves_internal, (in_enter [] t rest).
  - by apply moves_internal, in_join.
  - by apply moves_internal, in_notify.
  - by eapply moves_external, ex_poll_respond.
  - destruct (calling TPoll s) eqn:E; [done|]. by apply moves_external, ex_poll_return.
  - destruct (write_at s) as [| | | |p|] eqn:E; try done. apply bind_Some in Hs as (p' & Hp & [= <-]).
    by eapply moves_external, ex_write_respond.
  - destruct (close_at s) as [p|] eqn:E; [|done]. apply bind_Some in Hs as (p' & Hp & [= <-]).
    by eapply moves_external, ex_close_respond.
  - destruct (closer s) as [[[t n] []]|] eqn:E; try done. apply guard_bool_Some in Hs as [Hc ->].
    eapply moves_external, ex_closer_return; [done|]. apply orb_true_iff in Hc as [Hc|Hc].
    + left. by apply negb_true_iff, bool_decide_eq_false_1 in Hc.
    + right. by apply bool_decide_eq_true_1 in Hc.
  - destruct (polling_connect url s) as [s1|] eqn:E; [|done]. apply guard_bool_Some in Hs as [Hc ->].
    apply andb_true_iff in Hc as [Hc Hm]. apply negb_true_iff in Hc. by eapply moves_calls, call_connect.
  - apply guard_bool_Some in Hs as [Hm ->]. by apply moves_calls, call_send.
  - apply guard_bool_Some in Hs as [Hm ->]. by apply moves_calls, call_close.
  - apply guard_bool_Some in Hs as [Hm ->]. apply andb_true_iff in Hm as [Ho Hm]. by apply moves_calls, call_join.
Qed.

Lemma p_run_reachable proxy headers verify ms s : p_run ms (new_polling proxy headers verify) = Some s -> t_reachable s.
Proof.
  intros Hr. exists (new_polling proxy headers verify). split; [by exists proxy, headers, verify|].
  revert Hr. generalize (new_polling proxy headers verify). induction ms as [|m ms IH]; intros s0; cbn; [by intros [= <-]|].
  intros (s1 & E1 & E2)%bind_Some. eapply rtc_l; [by eapply p_moves, p_go_moves|by apply IH].
Qed.

(** A state in which no thread can go on by itself. *)
Definition stuckb (s : polling) : bool :=
  match poll_step s, write_step s, close_step s, closer_step s, join_step s, notify_one s with
  | None, None, None, None, None, None => bool_decide (callers s = []) || negb (connect_mutex_free s)
  | _, _, _, _, _, _ => false
  end.

Lemma stuckb_stuck s : stuckb s = true -> stuck s.
Proof.
  unfold stuckb. intros Hb s' Hi.
  destruct Hi as [? ? Hs|? ? Hs|? ? Hs|? ? Hs|l1 t l2 s2 Hc Hm|? ? Hs|? ? Hs]; rewrite ?Hs in Hb;
    repeat case_match; try done.
  rewrite Hm, orb_false_r in Hb. apply bool_decide_eq_true_1 in Hb. rewrite Hb in Hc. by destruct l1.
Qed.
End runs.

(** ** Examples *)

Module PollDemo.
#[local] Instance what : Exceptions := fun e =>
  match e with
  | invalid_argument w | runtime_error w | logic_error w | length_error w | json_exception w => w
  | _ => []
  end.

Definition start : polling := new_polling None [] true.
Definition url : bstr := "http://example.org/engine.io/?EIO=4&transport=polling".
Definition ok (body : bstr) : outcome response := Ok (mk_response 200 body).

(** Connected: the handler of the first message runs. *)
Definition opened : list p_move :=
  [MConnect url; MPoll; MPollRespond (ok (dq "0{'sid':'abc'}")); MPoll; MPoll; MPollReturn; MPoll; MPoll; MPoll].

(** The writer sleeps, is woken by a message and posts it. *)
Definition posted : list p_move :=
  opened ++ [MWrite; MWrite; MSend (bs "4hi", false); MSend (bs "xyz", true); MNotify; MWrite; MWrite; MWriteRespond (ok []); MWrite].

Definition closing : list p_move := [MClose TOther; MEnter; MCloser; MCloser; MCloser].
Definition closed : list p_move := [MCloser; MCloser; MCloserReturn; MCloseThread; MCloseRespond (ok []); MCloseThread].
Definition polled : list p_move := [MPollReturn; MPoll; MPoll].

(** [close] notifies between the writer's test and its sleep. *)
Definition lost : list p_move := opened ++ [MWrite] ++ closing ++ [MWrite] ++ closed ++ polled ++ [MJoin].

(** The handler closes while [sync_close] joins. *)
Definition blocked : list p_move :=
  opened ++ closing ++ closed ++ [MJoin; MWrite; MJoinStep; MJoinStep; MClose TPoll].

(** [close] during the handshake request. *)
Definition reopened : list p_move :=
  [MConnect url; MPoll] ++ closing ++ [MCloser; MCloser; MCloserReturn; MPollRespond (ok (dq "0{'sid':'abc'}")); MPoll; MPoll].
End PollDemo.

#[local] Existing Instance Codec.lib.
#[local] Existing Instance PollDemo.what.

(** The poll thread does not look at [closing_] between the end of the handshake
    request and its use: a [close] during that request is followed by the open
    notification, and leaves the state of the closed transport open. *)
Theorem polling_opens_after_close :
  exists s, t_reachable s /\ closing s = true /\ state_ s = transport_open /\
    outputs_of (history s) = [TShutdown; TClose "closed"; TOpen].
Proof.
  destruct (p_run PollDemo.reopened PollDemo.start) as [s|] eqn:E; [|by vm_compute in E].
  exists s. split; [by eapply p_run_reachable|]. vm_compute in E. injection E as <-. by split_and!.
Qed.

(** *** Witnesses *)

Lemma polling_refines_contract_witness : keeps_contract [TShutdown; TClose "closed"; TOpen].
Proof.
  assert (E : exists s, p_run PollDemo.reopened PollDemo.start = Some s /\
                        outputs_of (history s) = [TShutdown; TClose "closed"; TOpen]).
  { eexists. split; vm_compute; reflexivity. }
  destruct E as (s & Hr & <-). exact (polling_refines_contract s (p_run_reachable _ _ _ _ _ Hr)).
Defined.

Lemma polling_writes_in_order_witness :
  exists s, p_run PollDemo.posted PollDemo.start = Some s /\
    posted_of (history s) = [bs "4hi"] /\ write_queue s = [(bs "xyz", true)] /\
    exists rest, accepted_of (history s) = taken_of (history s) ++ rest /\
      (write_queue s = rest \/ (closing s = true /\ write_queue s = [])) /\
      post_body <$> taken_of (history s) = posted_of (history s) ++ (post_body <$> in_hand (write_at s)).
Proof.
  eexists. split; [vm_compute; reflexivity|]. split; [vm_compute; reflexivity|]. split; [vm_compute; reflexivity|].
  apply polling_writes_in_order. eapply (p_run_reachable None [] true PollDemo.posted). vm_compute. reflexivity.
Defined.

Lemma polling_writer_wakes_witness :
  exists s, p_run PollDemo.lost PollDemo.start = Some s /\
  (write_at s = WBlocking -> write_queue s = []) /\
  (write_at s = WSleeping -> write_queue s <> [] -> (0 < notifies s)%nat) /\
  (closing s = true -> asleep (write_at s) = true -> notifier s = true \/ POverlooked ∈ history s) /\
  (POverlooked ∈ history s -> shutdown_once s = true).
Proof.
  eexists. split; [vm_compute; reflexivity|].
  apply polling_writer_wakes. eapply (p_run_reachable None [] true PollDemo.lost). vm_compute. reflexivity.
Defined.

Lemma sync_close_progress_witness :
  exists s, p_run PollDemo.lost PollDemo.start = Some s /\
    (POverlooked ∈ history s \/ exists t, t ∈ callers s /\ t <> TOther).
Proof.
  eexists. split; [vm_compute; reflexivity|]. apply sync_close_progress.
  - eapply (p_run_reachable None [] true PollDemo.lost). vm_compute. reflexivity.
  - eexists. reflexivity.
  - apply stuckb_stuck. vm_compute. reflexivity.
  - vm_compute. reflexivity.
Defined.

Lemma overlooked_writer_hangs_witness :
  exists s, p_run PollDemo.lost PollDemo.start = Some s /\
    forall s', rtc moves s s' -> write_at s' = WSleeping /\ joiner s' = Some JWrite.
Proof.
  eexists. split; [vm_compute; reflexivity|]. intros s' Hs. refine (overlooked_writer_hangs _ s' _ _ Hs).
  - split; try reflexivity. discriminate.
  - reflexivity.
Defined.

Lemma close_in_callback_hangs_witness :
  exists s, p_run PollDemo.blocked PollDemo.start = Some s /\
    forall s', rtc p_step s s' -> joiner s' = Some JPoll /\ TPoll ∈ callers s'.
Proof.
  eexists. split; [vm_compute; reflexivity|]. intros s' Hs. refine (close_in_callback_hangs _ s' _ _ _ Hs).
  - reflexivity.
  - left.
  - reflexivity.
Defined.
