(* ===== verification/PollingStrand.v ===== *)
(** * The HTTP long-polling transport on an external [io_context]

    src/http_polling_transport.cpp with an external [io_context]: everything but
    the posting half of [connect], [send] and [close] runs on one strand.  A
    request is an operation of HttpRequest.v with one call in progress; its
    completion goes on up to the call of a user handler, and what is left of it
    is a stack of [frame]s, because user code and other threads run in between
    and [close] may be called inside a handler. *)

From S2P Require Export PollingCommon.
From stdpp Require Import options.
#[local] Set Default Proof Using "Type*".
Local Open Scope Z_scope.

(** ** State *)

(** The handlers given to [async_request]. *)
Inductive purpose : Type := ForPoll (handshake : bool) | ForWrite | ForClose.

(** An element of [external_requests_]. *)
Record operation : Type := mk_operation {
  op_purpose : purpose;
  op_request : http_request;
  op_call : io_call;
  op_cancelled : bool;
}.

Inductive strand_task : Type := TaskStart | TaskSend (write : bstr * bool) | TaskClose.

(** What is left to do: in [fail] and [close], in the completion of a failed
    tunnel, in the completion of a poll; [K...In] frames are inside user code. *)
Inductive frame : Type :=
  | KCallError (message : bstr)
  | KInError (message : bstr)
  | KCallClose (reason : bstr)
  | KInClose
  | KFinish (p : purpose) (ec : error_code)
  | KCallOpen (r : response)
  | KInOpen (r : response)
  | KDeliver (packets : list bstr)
  | KCall (o : output) (packets : list bstr)
  | KInMessage (packets : list bstr).

Inductive strand_event : Type :=
  | SOut (o : output)
  | SRequest (p : purpose) (request : http_request)
  | SAccepted (write : bstr * bool)
  | STaken (write : bstr * bool)
  | SThrown.

Record strand : Type := mk_strand {
  members : settings;
  connected : bool;
  state_ : transport_state;
  closing : bool;
  shutdown_once : bool;
  sid : bstr;
  write_queue : list (bstr * bool);
  write_in_progress : bool;
  requests : list operation;
  tasks : list strand_task;
  stack : list frame;
  history : list strand_event;
}.

Definition new_strand (proxy : option proxy_config) (headers : list (bstr * bstr)) (verify : bool) : strand :=
  mk_strand (mk_settings (mk_url [] [] [] [] false) proxy headers verify) false transport_closed false false [] [] false [] [] [] [].

Definition record (ev : strand_event) (s : strand) : strand := {| s with history := history s ++ [ev] |}.
Definition push (fs : list frame) (s : strand) : strand := {| s with stack := fs ++ stack s |}.

(** ** Requests *)

Definition first_call (c : settings) : io_call := IoResolve (host (peer c)) (port (peer c)).

(** [async_request] *)
Definition async_request (p : purpose) (method : verb) (target body : bstr) (s : strand) : strand :=
  let request := async_message (members s) method target body in
  record (SRequest p request)
    {| s with requests := requests s ++ [mk_operation p request (first_call (members s)) false] |}.

Definition cancel_operation (op : operation) : operation := {| op with op_cancelled := true |}.

(** [cancel_external_requests] *)
Definition cancel_external_requests (s : strand) : strand := {| s with requests := cancel_operation <$> requests s |}.

(** [poll_external] *)
Definition poll_external (handshake : bool) (s : strand) : strand :=
  let u := url_ (members s) in
  async_request (ForPoll handshake) verb_get (if handshake then target u else poll_target u (sid s)) [] s.

(** [start_next_external_write] *)
Definition start_next_external_write (s : strand) : strand :=
  if write_in_progress s then s
  else match write_queue s with
       | [] => s
       | write :: queue =>
           if closing s then s
           else
             let s := record (STaken write) {| s with write_in_progress := true; write_queue := queue |} in
             async_request ForWrite verb_post (poll_target (url_ (members s)) (sid s)) (post_body write) s
       end.

(** [fail], up to the error handler *)
Definition strand_fail (message : bstr) (s : strand) : strand :=
  if closing s then s
  else
    let s := record (SOut TShutdown) {| s with closing := true; state_ := transport_closed |} in
    let s := cancel_external_requests s in
    push [KCallError message] {| s with write_queue := [] |}.

(** [close] on the strand, up to the close handler *)
Definition strand_close (s : strand) : strand :=
  if shutdown_once s then s
  else
    let notify_close := negb (closing s) in
    let s := {| s with shutdown_once := true; closing := true; state_ := transport_closed |} in
    let s := if notify_close then record (SOut TShutdown) s else s in
    let s := cancel_external_requests {| s with write_queue := [] |} in
    let s := if bool_decide (sid s = []) then s
             else async_request ForClose verb_post (poll_target (url_ (members s)) (sid s)) (bs "1") s in
    if notify_close then push [KCallClose "closed"] s else s.

Section with_libraries.
Context `{JsonLib} `{Errors}.

(** ** Completions *)

(** The handler of [poll_external]. *)
Definition on_polled (handshake : bool) (result : error_code + response) (s : strand) : strand :=
  if closing s then s
  else match result with
       | inl ec => strand_fail (bs "polling transport: " ++ message ec) s
       | inr r =>
           if negb (success (status r)) then
             strand_fail (returned_http (if handshake then "polling handshake" else "polling request") (status r)) s
           else if handshake then push [KCallOpen r] {| s with state_ := transport_open |}
           else push [KDeliver (polling_split_payload (response_body r))] s
       end.

(** The handler of [start_next_external_write]. *)
Definition on_written (result : error_code + response) (s : strand) : strand :=
  let s := {| s with write_in_progress := false |} in
  if closing s then s
  else match result with
       | inl ec => strand_fail (bs "polling write: " ++ message ec) s
       | inr r =>
           if negb (success (status r)) then strand_fail (returned_http "polling write" (status r)) s
           else start_next_external_write s
       end.

Definition complete (p : purpose) (result : error_code + response) : strand -> strand :=
  match p with
  | ForPoll handshake => on_polled handshake result
  | ForWrite => on_written result
  | ForClose => fun s => s
  end.

(** A call of the operation at place [n] ends: the operation goes on, or is
    finished - removed and completed, after [fail] if its tunnel was refused. *)
Definition on_call_ended (n : nat) (op : operation) (ec sni : option error_code) (r : response) (s : strand) : strand :=
  match on_completed (members s) (op_request op) (op_call op) ec sni r with
  | Await c => {| s with requests := <[n := {| op with op_call := c |}]> (requests s) |}
  | Finish None result => complete (op_purpose op) result {| s with requests := delete n (requests s) |}
  | Finish (Some m) result =>
      strand_fail m (push [KFinish (op_purpose op) ec_operation_aborted] {| s with requests := delete n (requests s) |})
  end.

(** ** The frames *)

Definition is_user (f : frame) : bool :=
  match f with KInError _ | KInClose | KInOpen _ | KInMessage _ => true | _ => false end.

(** An exception leaves the function that runs, up to the user code that called it. *)
Fixpoint unwind (fs : list frame) : list frame :=
  match fs with
  | [] => []
  | f :: fs' => if is_user f then fs else unwind fs'
  end.

Definition throw_out (s : strand) : strand := record SThrown {| s with stack := unwind (stack s) |}.

(** The top frame goes on; the rest of the stack is that of [s]. *)
Definition run_frame (f : frame) (s : strand) : strand :=
  match f with
  | KCallError m => push [KInError m] (record (SOut (TError m)) s)
  | KCallClose reason => push [KInClose] (record (SOut (TClose reason)) s)
  | KFinish p ec => complete p (inl ec) s
  | KCallOpen r => push [KInOpen r] (record (SOut TOpen) s)
  | KDeliver [] => if closing s then s else poll_external false s
  | KDeliver (packet :: packets) =>
      if closing s then s
      else match read_sid packet (sid s) with
           | Throw e => throw_out s
           | Ok id =>
               push [match packet_call packet with Some o => KCall o packets | None => KDeliver packets end] {| s with sid := id |}
           end
  | KCall o packets => push [KInMessage packets] (record (SOut o) s)
  | KInError _ | KInClose | KInOpen _ | KInMessage _ => s
  end.

(** User code returns. *)
Definition return_frame (f : frame) (s : strand) : strand :=
  match f with
  | KInError m => push [KCallClose m] s
  | KInOpen r => if closing s then s else push [KDeliver (polling_split_payload (response_body r))] s
  | KInMessage packets => push [KDeliver packets] s
  | _ => s
  end.

(** ** Methods *)

Definition strand_connect (url : bstr) (s : strand) : outcome strand :=
  if closing s then Ok s
  else
    u ← parse_ws_url url;
    let m := members s in
    Ok {| s with members := {| m with url_ := u |}; connected := true; state_ := transport_connecting;
                 tasks := tasks s ++ [TaskStart] |}.

Definition post_task (t : strand_task) (s : strand) : strand := {| s with tasks := tasks s ++ [t] |}.

Definition run_task (t : strand_task) (s : strand) : strand :=
  match t with
  | TaskStart => poll_external true s
  | TaskSend write =>
      if closing s || negb (bool_decide (state_ s = transport_open)) then s
      else start_next_external_write (record (SAccepted write) {| s with write_queue := write_queue s ++ [write] |})
  | TaskClose => strand_close s
  end.

(** ** The system *)

Inductive st_step : strand -> strand -> Prop :=
  | st_task t ts s : stack s = [] -> tasks s = t :: ts -> st_step s (run_task t {| s with tasks := ts |})
  | st_ended n op ec sni r s :
      stack s = [] -> requests s !! n = Some op -> st_step s (on_call_ended n op ec sni r s)
  | st_frame f fs s : stack s = f :: fs -> is_user f = false -> st_step s (run_frame f {| s with stack := fs |})
  | st_return f fs s : stack s = f :: fs -> is_user f = true -> st_step s (return_frame f {| s with stack := fs |})
  | st_throw f fs s : stack s = f :: fs -> is_user f = true -> st_step s (throw_out {| s with stack := fs |})
  | st_connect url s s' : connected s = false -> strand_connect url s = Ok s' -> st_step s s'
  | st_send write s : st_step s (post_task (TaskSend write) s)
  | st_close s : st_step s (post_task TaskClose s)
  | st_close_inside f fs s : stack s = f :: fs -> is_user f = true -> st_step s (strand_close s).

Definition outputs_of (evs : list strand_event) : list output :=
  omap (fun ev => match ev with SOut o => Some o | _ => None end) evs.

#[export] Instance strand_transport : TransportSystem strand := {|
  t_initial := fun s => exists proxy headers verify, s = new_strand proxy headers verify;
  t_step := st_step;
  t_outputs := fun s => outputs_of (history s);
|}.
End with_libraries.
