(* ===== verification/PollingStrandSpec.v ===== *)
(** * The long-polling transport on a strand: contract, polls, writes *)

From S2P Require Export PollingStrand.
From stdpp Require Import options.
#[local] Set Default Proof Using "Type*".
Local Open Scope Z_scope.

(** ** The chain of polls

    The call of [connect] to come, the task that starts it, the poll in progress or
    the frames of its completion: before the open handler was called, and after. *)
Inductive stage : Type := SBefore | SOpen.

Definition purpose_stage (p : purpose) : list stage :=
  match p with ForPoll true => [SBefore] | ForPoll false => [SOpen] | ForWrite | ForClose => [] end.
Definition task_stage (t : strand_task) : list stage := match t with TaskStart => [SBefore] | _ => [] end.
Definition frame_stage (f : frame) : list stage :=
  match f with
  | KCallOpen _ => [SBefore]
  | KInOpen _ | KDeliver _ | KCall _ _ | KInMessage _ => [SOpen]
  | _ => []
  end.

Definition chain (s : strand) : list stage :=
  (if connected s then [] else [SBefore]) ++
  (requests s ≫= fun op => purpose_stage (op_purpose op)) ++ (tasks s ≫= task_stage).
Definition frames_stage (fs : list frame) : list stage := fs ≫= frame_stage.

Definition frame_owes (f : frame) : list owed :=
  match f with KCallError _ => [OwesError] | KInError _ | KCallClose _ => [OwesClose] | _ => [] end.
Definition frames_owe (fs : list frame) : list owed := fs ≫= frame_owes.

Definition stage_ok (c : contract) (st : stage) : Prop :=
  match st with SBefore => c_opened c = false | SOpen => c_opened c = true end.

(** A frame on the top: calls of the open and the message handler are made before
    shutdown.  Below it there is user code, or the end of a failed tunnel. *)
Definition top_ok (cl : bool) (f : frame) : Prop :=
  match f with KCallOpen _ => cl = false | KCall o _ => cl = false /\ is_message o = true | _ => True end.
Definition is_finish (f : frame) : bool := match f with KFinish _ _ => true | _ => false end.
Definition below_ok (f : frame) : Prop := is_user f = true \/ exists p ec, f = KFinish p ec.

(** The relation, on the parts of the state it depends on. *)
Record follows (cl : bool) (ch : list stage) (fs : list frame) (c : contract) : Prop := mk_follows {
  f_owes : owes_ok c cl (frames_owe fs);
  f_late : c_late c = false;
  f_one : (length (ch ++ frames_stage fs) <= 1)%nat;
  f_stage : Forall (stage_ok c) (ch ++ frames_stage fs);
  f_top : match fs with [] => True | f :: _ => top_ok cl f end;
  f_below : Forall below_ok (tail fs);
  f_finish : cl = false -> Forall (fun f => is_finish f = false) fs;
}.

#[export] Instance follows_perm cl : Proper (Permutation ==> eq ==> eq ==> iff) (follows cl).
Proof.
  assert (forall l l' fs c, Permutation l l' -> follows cl l fs c -> follows cl l' fs c) as Hone.
  { intros l l' fs c Hp [H1 H2 H3 H4 H5 H6 H7]. split; try done; by rewrite <- Hp. }
  intros l l' Hp ? fs -> ? c ->. split; apply Hone; [done|by symmetry].
Qed.

(** A member of the chain goes on as another one. *)
Lemma follows_push x y f cl ch fs c :
  follows cl (x ++ ch) fs c -> frame_stage f = y -> frame_owes f = [] -> length y = length x ->
  (Forall (stage_ok c) x -> Forall (stage_ok c) y) -> top_ok cl f -> is_finish f = false -> Forall below_ok fs ->
  follows cl ch (f :: fs) c.
Proof.
  intros [H1 H2 H3 H4 H5 H6 H7] E Ho Hl Hs Ht Hn Hb. unfold frames_stage, frames_owe in *.
  rewrite !length_app in H3. rewrite !Forall_app in H4.
  split; cbn; rewrite ?E, ?Ho; try done.
  - rewrite !length_app. lia.
  - rewrite !Forall_app. naive_solver.
  - intros Hc. constructor; auto.
Qed.

Lemma follows_drop x cl ch fs c : follows cl (x ++ ch) fs c -> follows cl ch fs c.
Proof.
  intros [H1 H2 H3 H4 H5 H6 H7]. rewrite <- app_assoc, length_app in H3. rewrite <- app_assoc, Forall_app in H4.
  split; try done; [lia|tauto].
Qed.

(** The top frame is popped, and with it frames below. *)
Lemma follows_suffix f pre cl ch fs c : follows cl ch (f :: pre ++ fs) c -> follows cl (frame_stage f ++ ch) fs c.
Proof.
  intros [H1 H2 H3 H4 H5 H6 H7]. unfold frames_stage, frames_owe in *. cbn in *.
  rewrite bind_app in H1. rewrite bind_app in H3. rewrite bind_app in H4. rewrite app_assoc in H1. apply owes_ok_drop in H1.
  rewrite !length_app in H3. rewrite !Forall_app in H4. apply Forall_app in H6 as [_ H6].
  split; try done.
  - unfold frames_stage. rewrite !length_app. lia.
  - unfold frames_stage. rewrite !Forall_app. tauto.
  - destruct fs as [|g fs]; [done|]. apply Forall_cons in H6 as [[Hu|(p & ec & ->)] _]; [|done]. by destruct g.
  - destruct fs as [|g fs]; [done|]. by apply Forall_cons in H6 as [_ ?].
  - intros Hc. specialize (H7 Hc). apply Forall_cons in H7 as [_ H7]. by apply Forall_app in H7 as [_ ?].
Qed.

(** [fail] and the first call of [close], with the end of a failed tunnel below it
    or not. *)
Lemma follows_shutdown f o extra ch fs c :
  follows false ch fs c -> frame_stage f = [] -> frame_owes f = [o] -> top_ok true f -> Forall below_ok fs ->
  Forall (fun f => is_finish f = true) extra ->
  exists c', contract_run c [TShutdown] = Some c' /\ follows true ch (f :: extra ++ fs) c'.
Proof.
  intros [H1 H2 H3 H4 H5 H6 H7] E Ho Ht Hb Hx. destruct (owes_shutdown c _ o H1) as (c' & Es & Ho' & E1 & E2).
  exists c'. cbn [contract_run]. rewrite Es. split; [done|]. destruct (ok_quiet _ _ _ H1 eq_refl) as [E0 _].
  assert (frames_stage extra = [] /\ frames_owe extra = [] /\ Forall below_ok extra) as (X1 & X2 & X3).
  { clear -Hx. induction Hx as [|g extra Hg _ (IH1 & IH2 & IH3)]; [done|]. destruct g; try done. cbn. split_and!; try done.
    constructor; [right; by eexists _, _|done]. }
  unfold frames_stage, frames_owe in *.
  split; cbn; rewrite ?bind_app, ?E, ?Ho, ?X1, ?X2, ?E0; try done; [by rewrite E2| |by apply Forall_app].
  eapply Forall_impl; [exact H4|]. intros []; cbn; by rewrite E1.
Qed.

(** A call that is owed. *)
Lemma follows_owed f f' o c' cl ch fs c :
  follows cl ch (f :: fs) c -> contract_step c o = Some c' -> owes_ok c' cl (frames_owe (f' :: fs)) ->
  c_opened c' = c_opened c -> c_late c' = c_late c -> frame_stage f = [] -> frame_stage f' = [] -> top_ok cl f' ->
  is_finish f' = false ->
  exists c', contract_run c [o] = Some c' /\ follows cl ch (f' :: fs) c'.
Proof.
  intros [H1 H2 H3 H4 H5 H6 H7] Es Ho E1 E2 Ef Ef' Ht Hn. exists c'. cbn [contract_run]. rewrite Es. split; [done|].
  unfold frames_stage in *. cbn in *. rewrite Ef in *. split; cbn; rewrite ?Ef'; try done; [by rewrite E2| |].
  - eapply Forall_impl; [exact H4|]. intros []; cbn; by rewrite E1.
  - intros Hc. specialize (H7 Hc). apply Forall_cons in H7 as [_ ?]. by constructor.
Qed.

(** A call of the open or the message handler: it is the chain's. *)
Lemma follows_call f f' o c' cl ch fs c :
  follows cl ch (f :: fs) c -> contract_step c o = Some c' -> cl = false -> c_opened c' = true ->
  c_closing c' = c_closing c -> c_late c' = false -> c_late_error c' = c_late_error c -> c_closed c' = c_closed c ->
  length (frame_stage f) = 1%nat -> frame_stage f' = [SOpen] -> frame_owes f = [] -> frame_owes f' = [] ->
  top_ok cl f' -> is_finish f' = false ->
  exists c', contract_run c [o] = Some c' /\ follows cl ch (f' :: fs) c'.
Proof.
  intros [H1 H2 H3 H4 H5 H6 H7] Es Hcl E0 E1 E2 E3 E4 Ef Ef' Eo Eo' Ht Hn. exists c'. cbn [contract_run]. rewrite Es.
  split; [done|]. unfold frames_stage, frames_owe in *. cbn in *. rewrite !length_app, Ef in H3.
  assert (ch = []) as -> by (destruct ch; [done|cbn in H3; lia]).
  destruct (fs ≫= frame_stage) as [|? ?] eqn:Efs; [|cbn in H3; lia].
  split; cbn; rewrite ?Ef', ?Eo', ?Efs; unfold frames_stage; rewrite ?Efs; try done.
  - rewrite Eo in H1. cbn in H1. destruct H1 as [A1 A2 A3 A4]. split; [congruence| |done|].
    + intros Hc. destruct (A2 Hc) as (? & ? & ? & ?). split_and!; try done; congruence.
    + eapply Forall_impl; [exact A4|]. intros []; cbn; by rewrite E3, E4 || rewrite E4.
  - by repeat constructor.
  - intros Hc. specialize (H7 Hc). apply Forall_cons in H7 as [_ ?]. by constructor.
Qed.

(** ** States *)

Definition simulates (s : strand) (c : contract) : Prop := follows (closing s) (chain s) (stack s) c.

Definition followed (s s' : strand) (c : contract) : Prop :=
  exists os c', outputs_of (history s') = outputs_of (history s) ++ os /\ contract_run c os = Some c' /\
    follows (closing s') (chain s') (stack s') c'.

Lemma strand_followed_silently s s' c :
  outputs_of (history s') = outputs_of (history s) -> follows (closing s') (chain s') (stack s') c -> followed s s' c.
Proof. intros E Hs. exists [], c. by rewrite app_nil_r. Qed.

Lemma strand_outputs_snoc o evs : outputs_of (evs ++ [SOut o]) = outputs_of evs ++ [o].
Proof. unfold outputs_of. by rewrite omap_app. Qed.

Lemma strand_outputs_other ev evs : (forall o, ev <> SOut o) -> outputs_of (evs ++ [ev]) = outputs_of evs.
Proof. unfold outputs_of. rewrite omap_app. intros Hn. destruct ev; cbn; rewrite ?app_nil_r; [by destruct (Hn o)|done..]. Qed.

(** What a step adds to the chain, leaving the frames and the calls alone. *)
Record adds (x : list stage) (s s' : strand) : Prop := mk_adds {
  a_chain : chain s' ≡ₚ x ++ chain s;
  a_closing : closing s' = closing s;
  a_stack : stack s' = stack s;
  a_outputs : outputs_of (history s') = outputs_of (history s);
}.

#[export] Instance adds_refl : Reflexive (adds []).
Proof. intros s. by split. Qed.

Lemma adds_trans x y s1 s2 s3 : adds x s1 s2 -> adds y s2 s3 -> adds (y ++ x) s1 s3.
Proof.
  intros [A1 A2 A3 A4] [B1 B2 B3 B4]. split; try congruence. by rewrite B1, A1, app_assoc.
Qed.

Lemma chain_cancel s : chain (cancel_external_requests s) = chain s.
Proof. unfold chain. cbn. do 2 f_equal. induction (requests s) as [|op ops IH]; [done|]. cbn. by rewrite IH. Qed.

Lemma async_request_adds p m t b s : adds (purpose_stage p) s (async_request p m t b s).
Proof.
  split; try done; [|by apply (strand_outputs_other _ (history s))].
  unfold chain. cbn. rewrite bind_app. cbn. rewrite app_nil_r, (Permutation_app_comm _ (purpose_stage p)), <- app_assoc.
  apply Permutation_app_swap_app.
Qed.

Lemma poll_external_adds hs s : adds (purpose_stage (ForPoll hs)) s (poll_external hs s).
Proof. apply async_request_adds. Qed.

Lemma start_next_adds s : adds [] s (start_next_external_write s).
Proof.
  unfold start_next_external_write. destruct (write_in_progress s); [done|].
  destruct (write_queue s) as [|w queue]; [done|]. destruct (closing s) eqn:Hc; [done|].
  eapply (adds_trans [] []); [|apply (async_request_adds ForWrite)].
  split; try done; by apply (strand_outputs_other _ (history s)).
Qed.

Lemma adds_followed x s s1 s' c :
  adds x s1 s' -> outputs_of (history s1) = outputs_of (history s) ->
  follows (closing s1) (x ++ chain s1) (stack s1) c -> followed s s' c.
Proof.
  intros [A1 A2 A3 A4] E Hf. apply strand_followed_silently; [congruence|]. by rewrite A1, A2, A3.
Qed.

(** [fail]; below it nothing, or the end of a failed tunnel. *)
Lemma strand_fail_followed m s s1 c :
  outputs_of (history s1) = outputs_of (history s) -> follows (closing s1) (chain s1) (stack s1) c ->
  Forall below_ok (stack s1) -> followed s (strand_fail m s1) c.
Proof.
  intros E Hf Hb. unfold strand_fail. destruct (closing s1) eqn:Hc; [apply strand_followed_silently; by rewrite ?Hc|].
  destruct (follows_shutdown (KCallError m) OwesError [] _ _ _ Hf eq_refl eq_refl I Hb (Forall_nil_2 _)) as (c' & Hc' & Hf').
  exists [TShutdown], c'. split_and!; [cbn; by rewrite <- E, <- strand_outputs_snoc|done|].
  by rewrite <- (chain_cancel s1) in Hf'.
Qed.

(** The same for a tunnel that was refused. *)
Lemma strand_fail_tunnel m p ec s s1 c :
  outputs_of (history s1) = outputs_of (history s) -> follows (closing s1) (chain s1) (stack s1) c -> stack s1 = [] ->
  followed s (strand_fail m (push [KFinish p ec] s1)) c.
Proof.
  intros E Hf Hst. rewrite Hst in Hf. unfold strand_fail. cbn [closing push]. destruct (closing s1) eqn:Hc.
  - apply strand_followed_silently; [done|]. cbn [closing push stack]. rewrite Hc, Hst. destruct Hf as [H1 H2 H3 H4 _ _ _]. by split.
  - destruct (follows_shutdown (KCallError m) OwesError [KFinish p ec] _ _ _ Hf eq_refl eq_refl I (Forall_nil_2 _))
      as (c' & Hc' & Hf'); [by repeat constructor|].
    exists [TShutdown], c'. split_and!; [cbn; by rewrite <- E, <- strand_outputs_snoc|done|].
    rewrite <- (chain_cancel s1) in Hf'. cbn. by rewrite Hst.
Qed.

(** [close]; it is called from the strand's loop or from user code. *)
Lemma strand_close_followed s c :
  follows (closing s) (chain s) (stack s) c -> Forall below_ok (stack s) -> followed s (strand_close s) c.
Proof.
  intros Hf Hb. unfold strand_close. destruct (shutdown_once s); [by apply strand_followed_silently|].
  set (s1 := cancel_external_requests _).
  assert (outputs_of (history s1) = outputs_of (history s) ++ (if closing s then [] else [TShutdown]) /\
          chain s1 = chain s /\ stack s1 = stack s /\ closing s1 = true) as (E1 & E2 & E3 & E4).
  { unfold s1. rewrite chain_cancel. destruct (closing s); cbn; rewrite ?app_nil_r; split_and!; try done. apply strand_outputs_snoc. }
  clearbody s1.
  set (s2 := if bool_decide (sid s1 = []) then s1 else _).
  assert (adds [] s1 s2) as [A1 A2 A3 A4].
  { unfold s2. destruct (bool_decide (sid s1 = [])); [done|]. apply (async_request_adds ForClose). }
  clearbody s2. destruct (closing s) eqn:Hc; cbn [negb].
  - apply strand_followed_silently; [by rewrite A4, E1, app_nil_r|]. by rewrite A1, A2, A3, E2, E3, E4.
  - destruct (follows_shutdown (KCallClose "closed") OwesClose [] _ _ _ Hf eq_refl eq_refl I Hb (Forall_nil_2 _)) as (c' & Hc' & Hf').
    exists [TShutdown], c'. split_and!; [change (outputs_of (history s2) = outputs_of (history s) ++ [TShutdown]); by rewrite A4|done|]. cbn [push closing stack].
    change (chain (push [KCallClose "closed"] s2)) with (chain s2). by rewrite A1, A2, A3, E2, E3, E4.
Qed.

Section with_libraries.
Context `{JsonLib} `{Errors}.

(** *** Completions *)

Lemma on_polled_followed hs result s s1 c :
  outputs_of (history s1) = outputs_of (history s) ->
  follows (closing s1) (purpose_stage (ForPoll hs) ++ chain s1) (stack s1) c -> Forall below_ok (stack s1) ->
  followed s (on_polled hs result s1) c.
Proof.
  intros E Hf Hb. pose proof (follows_drop _ _ _ _ _ Hf) as Hd. unfold on_polled.
  destruct (closing s1) eqn:Hc; [apply strand_followed_silently; by rewrite ?Hc|]. rewrite <- Hc in Hd.
  destruct result as [ec|r]; [by apply strand_fail_followed|].
  destruct (negb (success (status r))); [by apply strand_fail_followed|].
  destruct hs; apply strand_followed_silently; try done; cbn [push closing stack chain app]; rewrite ?Hc;
    (eapply follows_push; [exact Hf|done..]).
Qed.

Lemma on_written_followed result s s1 c :
  outputs_of (history s1) = outputs_of (history s) -> follows (closing s1) (chain s1) (stack s1) c ->
  Forall below_ok (stack s1) -> followed s (on_written result s1) c.
Proof.
  intros E Hf Hb. unfold on_written. set (s2 := {| s1 with write_in_progress := false |}).
  change (closing s1) with (closing s2) in Hf. change (chain s1) with (chain s2) in Hf.
  change (stack s1) with (stack s2) in Hf, Hb. change (history s1) with (history s2) in E. clearbody s2.
  destruct (closing s2) eqn:Hc; [apply strand_followed_silently; by rewrite ?Hc|]. rewrite <- Hc in Hf.
  destruct result as [ec|r]; [by apply strand_fail_followed|].
  destruct (negb (success (status r))); [by apply strand_fail_followed|].
  by apply (adds_followed [] s s2); [apply start_next_adds|..].
Qed.

Lemma complete_followed p result s s1 c :
  outputs_of (history s1) = outputs_of (history s) ->
  follows (closing s1) (purpose_stage p ++ chain s1) (stack s1) c -> Forall below_ok (stack s1) ->
  followed s (complete p result s1) c.
Proof.
  intros E Hf Hb. destruct p.
  - by apply on_polled_followed.
  - by apply on_written_followed.
  - by apply strand_followed_silently.
Qed.

Lemma chain_delete n op s :
  requests s !! n = Some op -> chain s ≡ₚ purpose_stage (op_purpose op) ++ chain {| s with requests := delete n (requests s) |}.
Proof.
  intros Hn. unfold chain. cbn. apply delete_Permutation in Hn. rewrite Hn at 1. cbn. rewrite <- app_assoc.
  apply Permutation_app_swap_app.
Qed.

Lemma chain_insert n op op' s :
  requests s !! n = Some op -> op_purpose op' = op_purpose op ->
  chain {| s with requests := <[n := op']> (requests s) |} = chain s.
Proof.
  intros Hn E. unfold chain. cbn. do 2 f_equal. revert n Hn. induction (requests s) as [|o ops IH]; intros [|n] Hn; try done; cbn in *.
  - injection Hn as ->. by rewrite E.
  - by rewrite IH.
Qed.

Lemma on_call_ended_followed n op ec sni r s c :
  simulates s c -> stack s = [] -> requests s !! n = Some op -> followed s (on_call_ended n op ec sni r s) c.
Proof.
  intros Hf Hst Hn. unfold simulates in Hf. unfold on_call_ended.
  destruct (on_completed _ _ _ _ _ _) as [call|[m|] result].
  - apply strand_followed_silently; [done|]. by rewrite (chain_insert n op).
  - rewrite (chain_delete n op s Hn) in Hf. apply follows_drop in Hf. by apply strand_fail_tunnel.
  - apply complete_followed; [done|by rewrite <- (chain_delete n op s Hn)|cbn; by rewrite Hst].
Qed.

(** *** Frames *)

Lemma unwind_suffix fs : exists pre, fs = pre ++ unwind fs.
Proof.
  induction fs as [|f fs (pre & IH)]; [by exists []|]. cbn. destruct (is_user f); [by exists []|].
  exists (f :: pre). cbn. by rewrite <- IH.
Qed.

(** In the lemmas that follow the top frame [f] of [s] is popped in [s1]. *)
Lemma throw_followed f s s1 c :
  outputs_of (history s1) = outputs_of (history s) -> follows (closing s1) (chain s1) (f :: stack s1) c ->
  followed s (throw_out s1) c.
Proof.
  intros E Hf. apply strand_followed_silently; [by rewrite <- E; apply (strand_outputs_other _ (history s1))|]. cbn.
  destruct (unwind_suffix (stack s1)) as (pre & Es). rewrite Es in Hf. by apply follows_suffix, follows_drop in Hf.
Qed.

(** A call of a handler. *)
Lemma strand_call_followed o f' s s1 c :
  outputs_of (history s1) = outputs_of (history s) ->
  (exists c', contract_run c [o] = Some c' /\ follows (closing s1) (chain s1) (f' :: stack s1) c') ->
  followed s (push [f'] (record (SOut o) s1)) c.
Proof. intros E (c' & Hc & Hf). exists [o], c'. split_and!; [by rewrite <- E; apply (strand_outputs_snoc _ (history s1))|done|done]. Qed.

Lemma push_followed x f s s1 c :
  outputs_of (history s1) = outputs_of (history s) -> follows (closing s1) (x ++ chain s1) (stack s1) c ->
  frame_stage f = x -> frame_owes f = [] -> top_ok (closing s1) f -> is_finish f = false -> Forall below_ok (stack s1) ->
  followed s (push [f] s1) c.
Proof. intros E Hf <- Ho Ht Hn Hb. apply strand_followed_silently; [done|]. by eapply follows_push. Qed.

Lemma deliver_packet_open packet packets s :
  closing s = false ->
  run_frame (KDeliver (packet :: packets)) s =
  match read_sid packet (sid s) with
  | Throw e => throw_out s
  | Ok id => push [match packet_call packet with Some o => KCall o packets | None => KDeliver packets end] {| s with sid := id |}
  end.
Proof. intros Hc. cbn. by rewrite Hc. Qed.

Lemma deliver_packet_closing packet packets s : closing s = true -> run_frame (KDeliver (packet :: packets)) s = s.
Proof. intros Hc. cbn. by rewrite Hc. Qed.

Lemma strand_deliver_followed packets s s1 c :
  outputs_of (history s1) = outputs_of (history s) -> follows (closing s1) (chain s1) (KDeliver packets :: stack s1) c ->
  followed s (run_frame (KDeliver packets) s1) c.
Proof.
  intros E Hf. pose proof (follows_suffix _ [] _ _ _ _ Hf) as Hp. cbn [frame_stage] in Hp.
  pose proof (follows_drop _ _ _ _ _ Hp) as Hd. pose proof (f_below _ _ _ _ Hf) as Hb. cbn [tail] in Hb.
  destruct packets as [|packet packets].
  - cbn [run_frame]. destruct (closing s1) eqn:Hc; [by apply strand_followed_silently; rewrite ?Hc|]. rewrite <- Hc in Hp.
    apply (adds_followed [SOpen] s s1); [apply (poll_external_adds false)|done..].
  - assert (closing s1 = true \/ closing s1 = false) as [Hc|Hc] by (destruct (closing s1); auto).
    { rewrite deliver_packet_closing by done. by apply strand_followed_silently. }
    rewrite deliver_packet_open by done.
    destruct (read_sid packet (sid s1)) as [id|e]; [|by eapply throw_followed]. destruct (packet_call packet) as [o|] eqn:Ho; eapply push_followed; try done.
    unfold packet_call in Ho. repeat case_match; by simplify_eq/=.
Qed.

Lemma run_frame_followed f s s1 c :
  outputs_of (history s1) = outputs_of (history s) -> follows (closing s1) (chain s1) (f :: stack s1) c -> is_user f = false ->
  followed s (run_frame f s1) c.
Proof.
  intros E Hf Hu. destruct f as [m|m|reason| |p ec|r|r|packets|o packets|packets]; try done.
  - apply strand_call_followed; [done|]. destruct (owes_error c (closing s1) m _ (f_owes _ _ _ _ Hf)) as (c' & Es & Ho & E1 & E2).
    by eapply follows_owed.
  - apply strand_call_followed; [done|]. destruct (owes_close c (closing s1) reason _ (f_owes _ _ _ _ Hf)) as (c' & Es & Ho & E1 & E2).
    by eapply follows_owed.
  - cbn [run_frame].
    assert (closing s1 = true) as Hc.
    { pose proof (f_finish _ _ _ _ Hf) as Hn. destruct (closing s1); [done|]. by destruct (Forall_cons_1 _ _ _ (Hn eq_refl)). }
    apply (follows_suffix _ []), follows_drop in Hf.
    destruct p; cbn [complete]; unfold on_polled, on_written; cbn [closing]; rewrite ?Hc;
      (apply strand_followed_silently; [done|]); cbn; rewrite Hc in Hf; by rewrite ?Hc.
  - pose proof (f_top _ _ _ _ Hf) as Hc. cbn in Hc. pose proof (f_late _ _ _ _ Hf) as Hl.
    destruct (f_owes _ _ _ _ Hf) as [Hcl _ _ _]. pose proof (f_stage _ _ _ _ Hf) as Hst.
    apply Forall_app in Hst as [_ Hst]. apply Forall_cons in Hst as [Ho _]. cbn in Ho.
    apply strand_call_followed; [done|].
    eapply (follows_call _ _ _ {| c with c_opened := true; c_late := c_closing c |}); try done; cbn; [by rewrite Ho, Hl, andb_false_r|congruence].
  - by apply strand_deliver_followed.
  - destruct (f_top _ _ _ _ Hf) as [Hc Hm]. pose proof (f_late _ _ _ _ Hf) as Hl.
    destruct (f_owes _ _ _ _ Hf) as [Hcl _ _ _]. pose proof (f_stage _ _ _ _ Hf) as Hst.
    apply Forall_app in Hst as [_ Hst]. apply Forall_cons in Hst as [Ho _]. cbn in Ho.
    destruct o as [| |payload is_binary| |]; try done. apply strand_call_followed; [done|].
    eapply (follows_call _ _ _ {| c with c_late := c_closing c |}); try done; cbn; [by rewrite Ho, Hl, andb_false_r|congruence].
Qed.

Lemma return_frame_followed f s s1 c :
  outputs_of (history s1) = outputs_of (history s) -> follows (closing s1) (chain s1) (f :: stack s1) c -> is_user f = true ->
  followed s (return_frame f s1) c.
Proof.
  intros E Hf Hu. pose proof (follows_suffix _ [] _ _ _ _ Hf) as Hp. pose proof (follows_drop _ _ _ _ _ Hp) as Hd.
  pose proof (f_below _ _ _ _ Hf) as Hb. cbn [tail] in Hb.
  destruct f as [m|m|reason| |p ec|r|r|packets|o packets|packets]; try done; cbn [return_frame].
  - apply strand_followed_silently; [done|]. cbn. destruct Hf as [H1 H2 H3 H4 _ _ H7]. split; try done.
    intros Hc. specialize (H7 Hc). apply Forall_cons in H7 as [_ ?]. by constructor.
  - by apply strand_followed_silently.
  - destruct (closing s1) eqn:Hc; [apply strand_followed_silently; by rewrite ?Hc|]. rewrite <- Hc in Hp. by eapply push_followed.
  - by eapply push_followed.
Qed.

(** *** Steps *)

Lemma chain_task t ts s : tasks s = t :: ts -> chain s ≡ₚ task_stage t ++ chain {| s with tasks := ts |}.
Proof.
  intros Ht. unfold chain. cbn. rewrite Ht. cbn.
  rewrite (Permutation_app_swap_app (requests s ≫= _) (task_stage t)). apply Permutation_app_swap_app.
Qed.

Lemma run_task_followed t ts s c :
  simulates s c -> stack s = [] -> tasks s = t :: ts -> followed s (run_task t {| s with tasks := ts |}) c.
Proof.
  intros Hf Hst Ht. unfold simulates in Hf. rewrite (chain_task t ts s Ht) in Hf.
  set (s1 := {| s with tasks := ts |}) in *. change (stack s) with (stack s1) in Hf, Hst. change (closing s) with (closing s1) in Hf.
  change (followed s) with (followed s1). clearbody s1. destruct t as [|write|]; cbn [run_task].
  - apply (adds_followed [SBefore] s1 s1); [apply (poll_external_adds true)|done..].
  - destruct (closing s1 || _) eqn:Hc; [by apply strand_followed_silently|].
    apply (adds_followed [] s1 s1); [|done..]. eapply (adds_trans [] []); [|apply start_next_adds].
    split; try done. by apply (strand_outputs_other _ (history s1)).
  - apply strand_close_followed; [done|]. by rewrite Hst.
Qed.

Lemma chain_connect url s s' c :
  simulates s c -> connected s = false -> strand_connect url s = Ok s' -> followed s s' c.
Proof.
  intros Hf Hc Hs. unfold strand_connect in Hs. destruct (closing s) eqn:Hcl.
  { injection Hs as <-. by apply strand_followed_silently. }
  apply outcome_bind_ok in Hs as (u & _ & [= <-]). apply strand_followed_silently; [done|]. revert Hf. unfold simulates.
  cbn [closing stack]. rewrite Hcl.
  match goal with |- follows _ ?l _ _ -> follows _ ?l' _ _ => assert (l' ≡ₚ l) as -> end; [|done].
  unfold chain. cbn. rewrite Hc, bind_app. cbn. rewrite app_assoc. apply Permutation_app_comm.
Qed.

Lemma post_task_followed t s c : simulates s c -> task_stage t = [] -> followed s (post_task t s) c.
Proof.
  intros Hf Ht. apply strand_followed_silently; [done|]. cbn. unfold chain. cbn. rewrite bind_app. cbn. by rewrite Ht, !app_nil_r.
Qed.

Lemma st_step_followed s s' c : st_step s s' -> simulates s c -> followed s s' c.
Proof.
  intros Hs Hf. destruct Hs.
  - by apply run_task_followed.
  - by apply on_call_ended_followed.
  - apply run_frame_followed; try done. cbn. unfold simulates in Hf. by rewrite H1 in Hf.
  - apply return_frame_followed; try done. cbn. unfold simulates in Hf. by rewrite H1 in Hf.
  - eapply throw_followed; [done|]. cbn. unfold simulates in Hf. rewrite H1 in Hf. exact Hf.
  - by eapply chain_connect.
  - by apply post_task_followed.
  - by apply post_task_followed.
  - apply strand_close_followed; [done|]. pose proof (f_below _ _ _ _ Hf) as Hb. rewrite H1 in *.
    constructor; [by left|done].
Qed.

#[export] Instance strand_contract : Transport strand.
Proof.
  apply (simulation_transport simulates).
  - intros s (proxy & headers & verify & ->). split; [done|].
    split; cbn; try done; [|by repeat constructor]. split; cbn; try done. lia.
  - intros s s' c Hs Hf. by apply (st_step_followed s s' c).
Qed.

(** [C20] On a strand the transport refines the contract of the interface too: whatever
    the results of its requests, what user handlers do - [close] called inside
    them, exceptions - and whatever other threads call. *)
Theorem strand_refines_contract (s : strand) : t_reachable s -> keeps_contract (outputs_of (history s)).
Proof. apply strand_contract. Qed.
End with_libraries.
