(* ===== verification/PollingStrandWrites.v ===== *)
(** * The long-polling transport on a strand: its queue, and that it goes on polling *)

From S2P Require Export PollingStrandSpec JsonCodec.
From stdpp Require Import options.
#[local] Set Default Proof Using "Type*".
Local Open Scope Z_scope.

(** ** The queue *)

Definition accepted_of (evs : list strand_event) : list (bstr * bool) :=
  omap (fun ev => match ev with SAccepted w => Some w | _ => None end) evs.
Definition taken_of (evs : list strand_event) : list (bstr * bool) :=
  omap (fun ev => match ev with STaken w => Some w | _ => None end) evs.
Definition posted_of (evs : list strand_event) : list bstr :=
  omap (fun ev => match ev with SRequest ForWrite r => Some (body r) | _ => None end) evs.

(** The writes in progress, and the failed ones whose completion is still to come. *)
Definition write_mark (p : purpose) : list unit := match p with ForWrite => [tt] | _ => [] end.
Definition frame_mark (f : frame) : list unit := match f with KFinish p _ => write_mark p | _ => [] end.
Definition writes (ops : list operation) : nat := length (ops ≫= fun op => write_mark (op_purpose op)).
Definition finishing (fs : list frame) : nat := length (fs ≫= frame_mark).

Arguments writes : simpl never.
Arguments finishing : simpl never.

Definition in_progress (s : strand) : nat := if write_in_progress s then 1 else 0.

Record queue_safe (s : strand) : Prop := mk_queue_safe {
  v_order : exists rest, accepted_of (history s) = taken_of (history s) ++ rest /\
    (write_queue s = rest \/ (closing s = true /\ write_queue s = []));
  v_posted : posted_of (history s) = post_body <$> taken_of (history s);
  v_one : (writes (requests s) + finishing (stack s) <= in_progress s)%nat;
}.

Definition live (s : strand) : Prop := closing s = false -> writes (requests s) = in_progress s.
Definition queue_base (s : strand) : Prop := queue_safe s /\ live s.

(** Between two steps a write is in progress when there is something to write. *)
Definition busy (s : strand) : Prop := closing s = false -> write_queue s <> [] -> write_in_progress s = true.
Definition queue_inv (s : strand) : Prop := queue_base s /\ busy s.

(** Steps that do not concern the queue; [k] marks are taken off the stack. *)
Record same_queue (s s' : strand) : Prop := mk_same_queue {
  sq_accepted : accepted_of (history s') = accepted_of (history s);
  sq_taken : taken_of (history s') = taken_of (history s);
  sq_posted : posted_of (history s') = posted_of (history s);
  sq_queue : write_queue s' = write_queue s \/ (closing s' = true /\ write_queue s' = []);
  sq_closing : closing s = true -> closing s' = true;
  sq_writes : writes (requests s') = writes (requests s);
  sq_finishing : (finishing (stack s') <= finishing (stack s))%nat;
  sq_progress : write_in_progress s' = write_in_progress s;
}.

#[export] Instance same_queue_refl : Reflexive same_queue.
Proof. intros s. split; auto. Qed.

#[export] Instance same_queue_trans : Transitive same_queue.
Proof.
  intros s1 s2 s3 [A1 A2 A3 A4 A5 A6 A7 A8] [B1 B2 B3 B4 B5 B6 B7 B8]. split; try congruence; [|auto|lia].
  destruct B4 as [->|?]; [|by right]. destruct A4 as [?|[? ?]]; [by left|right; auto].
Qed.

Lemma same_queue_safe s s' : same_queue s s' -> queue_safe s -> queue_safe s'.
Proof.
  intros [A1 A2 A3 A4 A5 A6 A7 A8] [(rest & E & Hq) Hp Ho]. unfold in_progress in *. split; unfold in_progress.
  - exists rest. rewrite A1, A2. split; [done|]. destruct A4 as [->|?]; [|by right].
    destruct Hq as [?|[? ?]]; [by left|right; auto].
  - by rewrite A3, A2.
  - rewrite A6, A8. lia.
Qed.

Lemma same_queue_base s s' : same_queue s s' -> queue_base s -> queue_base s'.
Proof.
  intros Hs [Hb Hl]. split; [by eapply same_queue_safe|]. destruct Hs as [_ _ _ _ A5 A6 _ A8]. unfold live, in_progress in *.
  intros Hc. rewrite A6, A8. apply Hl. destruct (closing s); [by rewrite (A5 eq_refl) in Hc|done].
Qed.

Lemma strand_same_queue_inv s s' : same_queue s s' -> queue_inv s -> queue_inv s'.
Proof.
  intros Hs [Hb Hi]. split; [by eapply same_queue_base|]. destruct Hs as [_ _ _ A4 A5 _ _ A8]. intros Hc Hne.
  rewrite A8. apply Hi; [destruct (closing s); [by rewrite (A5 eq_refl) in Hc|done]|].
  destruct A4 as [<-|[? _]]; [done|congruence].
Qed.

Lemma same_queue_events s s' evs :
  history s' = history s ++ evs -> accepted_of evs = [] -> taken_of evs = [] -> posted_of evs = [] ->
  write_queue s' = write_queue s \/ (closing s' = true /\ write_queue s' = []) ->
  (closing s = true -> closing s' = true) -> writes (requests s') = writes (requests s) ->
  (finishing (stack s') <= finishing (stack s))%nat -> write_in_progress s' = write_in_progress s -> same_queue s s'.
Proof.
  intros E A T P. unfold accepted_of, taken_of, posted_of in *. split; try done;
    unfold accepted_of, taken_of, posted_of; rewrite E, omap_app, ?A, ?T, ?P; apply app_nil_r.
Qed.

Lemma writes_app ops1 ops2 : writes (ops1 ++ ops2) = (writes ops1 + writes ops2)%nat.
Proof. unfold writes. by rewrite bind_app, length_app. Qed.

Lemma writes_cancel ops : writes (cancel_operation <$> ops) = writes ops.
Proof. unfold writes. f_equal. induction ops as [|op ops IH]; [done|]. cbn. by rewrite IH. Qed.

Lemma finishing_cons f fs : finishing (f :: fs) = (length (frame_mark f) + finishing fs)%nat.
Proof. unfold finishing. cbn. by rewrite length_app. Qed.

Lemma writes_delete n op ops : ops !! n = Some op -> writes ops = (length (write_mark (op_purpose op)) + writes (delete n ops))%nat.
Proof. intros Hn%delete_Permutation. unfold writes. rewrite Hn at 1. cbn. by rewrite length_app. Qed.

Lemma writes_insert n op op' ops : ops !! n = Some op -> op_purpose op' = op_purpose op -> writes (<[n := op']> ops) = writes ops.
Proof.
  intros Hn E. unfold writes. f_equal. revert n Hn. induction ops as [|o ops IH]; intros [|n] Hn; try done; cbn in *.
  - injection Hn as ->. by rewrite E.
  - by rewrite IH.
Qed.

(** ** Operations *)

Lemma async_request_queue p m t b s : p <> ForWrite -> same_queue s (async_request p m t b s).
Proof.
  intros Hp. apply (same_queue_events _ _ [SRequest p (async_message (members s) m t b)]); try done; try (by destruct p); [by left|].
  unfold async_request. cbn [requests record]. rewrite writes_app. destruct p; cbn; lia || done.
Qed.

Lemma poll_external_queue hs s : same_queue s (poll_external hs s).
Proof. by apply async_request_queue. Qed.

Lemma strand_fail_queue m s : same_queue s (strand_fail m s).
Proof.
  unfold strand_fail. destruct (closing s) eqn:Hc; [done|].
  apply (same_queue_events _ _ [SOut TShutdown]); cbn; auto. apply writes_cancel.
Qed.

Lemma strand_close_queue s : same_queue s (strand_close s).
Proof.
  unfold strand_close. destruct (shutdown_once s); [done|].
  set (s1 := cancel_external_requests _).
  assert (same_queue s s1) as H1.
  { unfold s1. destruct (closing s) eqn:Hc; cbn [negb].
    - apply (same_queue_events _ _ []); cbn; rewrite ?app_nil_r; auto. apply writes_cancel.
    - apply (same_queue_events _ _ [SOut TShutdown]); cbn; auto. apply writes_cancel. }
  clearbody s1. transitivity s1; [done|].
  set (s2 := if bool_decide (sid s1 = []) then s1 else _).
  assert (same_queue s1 s2) as H2 by (unfold s2; destruct (bool_decide (sid s1 = [])); [done|by apply async_request_queue]).
  clearbody s2. transitivity s2; [done|]. destruct (negb (closing s)); [|done].
  apply (same_queue_events _ _ []); cbn; rewrite ?app_nil_r; auto.
Qed.

(** Starting a write, or finding that there is none to start. *)
Lemma start_next_inv s : queue_base s -> queue_inv (start_next_external_write s).
Proof.
  intros Hb. unfold start_next_external_write. destruct (write_in_progress s) eqn:Hw; [by split; [|intros _ _]|].
  destruct (write_queue s) as [|w queue] eqn:Hq; [split; [done|]; intros _ Hne; congruence|].
  destruct (closing s) eqn:Hc; [split; [done|]; intros Hc'; congruence|].
  destruct Hb as [[(rest & E & Hr) Hp Ho] Hl]. destruct Hr as [Hr|[? _]]; [|congruence]. rewrite Hq in Hr. subst rest.
  specialize (Hl Hc). unfold in_progress in *. rewrite Hw in *.
  split; [split|done]; [split|]; unfold live, in_progress, accepted_of, taken_of, posted_of in *; cbn.
  - exists queue. rewrite !omap_app. cbn. rewrite !app_nil_r, E, <- app_assoc. auto.
  - rewrite !omap_app. cbn. rewrite !app_nil_r, Hp, fmap_app. done.
  - rewrite writes_app. unfold writes in *. cbn. lia.
  - intros _. rewrite writes_app, Hl. done.
Qed.

Lemma strand_fail_closing m s : closing (strand_fail m s) = true.
Proof. unfold strand_fail. by destruct (closing s) eqn:Hc. Qed.

Lemma strand_fail_inv m s : queue_safe s -> queue_inv (strand_fail m s).
Proof.
  intros Hb. pose proof (strand_fail_closing m s) as Hc. split; [split; [eapply same_queue_safe; [apply strand_fail_queue|done]|]|];
    intros Hc'; congruence.
Qed.

Section with_libraries.
Context `{JsonLib} `{Errors}.

(** *** Completions *)

Lemma push_queue f s : frame_mark f = [] -> same_queue s (push [f] s).
Proof.
  intros Hf. apply (same_queue_events _ _ []); cbn [push history requests stack write_queue write_in_progress closing];
    rewrite ?app_nil_r; auto. cbn [app]. rewrite finishing_cons, Hf. done.
Qed.

Lemma on_polled_queue hs result s : same_queue s (on_polled hs result s).
Proof.
  unfold on_polled. destruct (closing s) eqn:Hc; [done|]. destruct result as [ec|r]; [apply strand_fail_queue|].
  destruct (negb (success (status r))); [apply strand_fail_queue|]. destruct hs; [|by apply push_queue].
  apply (same_queue_events _ _ []); cbn [push history requests stack write_queue write_in_progress closing app];
    rewrite ?app_nil_r, ?finishing_cons, ?Hc; auto.
Qed.

(** [s] with the write in progress over. *)
Definition write_over (s : strand) : strand := {| s with write_in_progress := false |}.

Lemma on_written_inv result s : queue_base (write_over s) -> queue_inv (on_written result s).
Proof.
  intros Hb. unfold on_written. change ({| s with write_in_progress := false |}) with (write_over s).
  destruct (closing (write_over s)) eqn:Hc; [split; [done|]; intros Hc'; congruence|].
  destruct result as [ec|r]; [by apply strand_fail_inv, Hb|].
  destruct (negb (success (status r))); [by apply strand_fail_inv, Hb|by apply start_next_inv].
Qed.

(** The state without a write, or the end of one. *)
Lemma write_over_base s s1 :
  queue_base s -> accepted_of (history s1) = accepted_of (history s) -> taken_of (history s1) = taken_of (history s) ->
  posted_of (history s1) = posted_of (history s) -> write_queue s1 = write_queue s -> closing s1 = closing s ->
  (writes (requests s1) + finishing (stack s1) < writes (requests s) + finishing (stack s))%nat -> queue_base (write_over s1).
Proof.
  intros [[(rest & E & Hq) Hp Ho] Hl] E1 E2 E3 E4 E5 Hlt. unfold in_progress in *.
  assert (writes (requests s1) = 0 /\ finishing (stack s1) = 0)%nat as [W F] by (destruct (write_in_progress s); lia).
  split; [split|]; unfold live, in_progress.
  - exists rest. change (accepted_of (history s1) = taken_of (history s1) ++ rest /\
      (write_queue s1 = rest \/ (closing s1 = true /\ write_queue s1 = []))). by rewrite E1, E2, E4, E5.
  - change (posted_of (history s1) = post_body <$> taken_of (history s1)). by rewrite E3, E2.
  - cbn. lia.
  - by intros _.
Qed.

Lemma remove_queue n op s :
  requests s !! n = Some op -> op_purpose op <> ForWrite -> same_queue s {| s with requests := delete n (requests s) |}.
Proof.
  intros Hn Hp. apply (same_queue_events _ _ []); cbn; rewrite ?app_nil_r; auto.
  rewrite (writes_delete n op _ Hn). by destruct (op_purpose op).
Qed.

Lemma on_call_ended_inv n op ec sni r s :
  queue_inv s -> requests s !! n = Some op -> queue_inv (on_call_ended n op ec sni r s).
Proof.
  intros Hi Hn. pose proof Hi as [Hb Hbusy]. pose proof (writes_delete n op _ Hn) as Hw. unfold on_call_ended.
  destruct (on_completed _ _ _ _ _ _) as [call|[m|] result].
  - revert Hi. apply strand_same_queue_inv, (same_queue_events _ _ []); cbn; rewrite ?app_nil_r; auto. by apply (writes_insert n op).
  - apply strand_fail_inv. destruct Hb as [[Ho Hp H1] _]. split; try done. cbn [push app requests stack].
    rewrite finishing_cons. cbn [frame_mark]. unfold in_progress in *. cbn [write_in_progress push]. lia.
  - destruct (op_purpose op) eqn:Hp; cbn [complete].
    + revert Hi. apply strand_same_queue_inv. transitivity {| s with requests := delete n (requests s) |}; [|apply on_polled_queue].
      apply (remove_queue n op); [done|by rewrite Hp].
    + apply on_written_inv. eapply write_over_base; [done..|]. rewrite ?Hp in Hw. cbn in Hw |- *. lia.
    + revert Hi. apply strand_same_queue_inv. apply (remove_queue n op); [done|by rewrite Hp].
Qed.

(** *** Frames *)

Lemma pop_queue f fs fs' s :
  stack s = f :: fs -> (finishing fs' <= finishing fs)%nat -> same_queue s {| s with stack := fs' |}.
Proof.
  intros Hst Hle. apply (same_queue_events _ _ []); cbn; rewrite ?app_nil_r; auto. rewrite Hst, finishing_cons. lia.
Qed.

Lemma unwind_finishing fs : (finishing (unwind fs) <= finishing fs)%nat.
Proof.
  destruct (unwind_suffix fs) as (pre & E). rewrite E at 2. unfold finishing. rewrite bind_app, length_app. lia.
Qed.

Lemma record_queue ev s :
  (forall w, ev <> SAccepted w) -> (forall w, ev <> STaken w) -> (forall p r, ev <> SRequest p r) -> same_queue s (record ev s).
Proof.
  intros H1 H2 H3. apply (same_queue_events _ _ [ev]); auto; destruct ev as [| | | |]; try done; exfalso; first [by eapply H1|by eapply H2|by eapply H3].
Qed.

Lemma throw_queue f fs s : stack s = f :: fs -> same_queue s (throw_out {| s with stack := fs |}).
Proof.
  intros Hst. transitivity {| s with stack := unwind fs |}; [apply (pop_queue f fs); [done|apply unwind_finishing]|].
  by apply (record_queue SThrown {| s with stack := unwind fs |}).
Qed.

Lemma run_frame_inv f fs s :
  queue_inv s -> stack s = f :: fs -> is_user f = false -> queue_inv (run_frame f {| s with stack := fs |}).
Proof.
  intros Hi Hst Hu. pose proof (pop_queue f fs fs s Hst (le_n _)) as Hp. set (s1 := {| s with stack := fs |}) in *.
  assert (forall o f', frame_mark f' = [] -> same_queue s (push [f'] (record (SOut o) s1))) as Hcall.
  { intros o f' Hf'. transitivity s1; [done|]. transitivity (record (SOut o) s1); [by apply record_queue|by apply push_queue]. }
  destruct f as [m|m|reason| |p ec|r|r|packets|o packets|packets]; try done; cbn [run_frame].
  - revert Hi. by apply strand_same_queue_inv, Hcall.
  - revert Hi. by apply strand_same_queue_inv, Hcall.
  - destruct p; cbn [complete].
    + revert Hi. apply strand_same_queue_inv. transitivity s1; [done|apply on_polled_queue].
    + apply on_written_inv. eapply write_over_base; [exact (proj1 Hi)|done..|]. cbn. rewrite Hst, finishing_cons. cbn. lia.
    + revert Hi. by apply strand_same_queue_inv.
  - revert Hi. by apply strand_same_queue_inv, Hcall.
  - revert Hi. apply strand_same_queue_inv. destruct packets as [|packet packets].
    + destruct (closing s1); [done|]. transitivity s1; [done|apply poll_external_queue].
    + assert (closing s1 = true \/ closing s1 = false) as [Hc|Hc] by (destruct (closing s1); auto).
      * by rewrite Hc.
      * pose proof (deliver_packet_open packet packets s1 Hc) as E. cbn [run_frame] in E. rewrite E.
        destruct (read_sid packet (sid s1)) as [id|e]; [|by eapply throw_queue].
        transitivity s1; [done|]. transitivity {| s1 with sid := id |};
          [apply (same_queue_events _ _ []); cbn; rewrite ?app_nil_r; auto|].
        apply push_queue. by destruct (packet_call packet).
  - revert Hi. by apply strand_same_queue_inv, Hcall.
Qed.

Lemma return_frame_queue f fs s : stack s = f :: fs -> same_queue s (return_frame f {| s with stack := fs |}).
Proof.
  intros Hst. pose proof (pop_queue f fs fs s Hst (le_n _)) as Hp. set (s1 := {| s with stack := fs |}) in *.
  transitivity s1; [done|]. destruct f; cbn [return_frame]; try done; try by apply push_queue.
  destruct (closing s1); [done|by apply push_queue].
Qed.

(** *** Steps *)

Lemma strand_send_inv write s :
  queue_inv s -> closing s = false ->
  queue_inv (start_next_external_write (record (SAccepted write) {| s with write_queue := write_queue s ++ [write] |})).
Proof.
  intros [[[(rest & E & Hq) Hp Ho] Hl] _] Hc. apply start_next_inv. destruct Hq as [<-|[? _]]; [|congruence].
  unfold accepted_of, taken_of, posted_of in *. split; [split|]; try done.
  - exists (write_queue s ++ [write]). unfold accepted_of, taken_of. cbn. rewrite !omap_app. cbn.
    rewrite app_nil_r, E, <- app_assoc. auto.
  - unfold taken_of, posted_of. cbn. rewrite !omap_app. cbn. by rewrite !app_nil_r.
Qed.

Lemma run_task_inv t ts s : queue_inv s -> queue_inv (run_task t {| s with tasks := ts |}).
Proof.
  intros Hi. assert (queue_inv {| s with tasks := ts |}) as Hi'.
  { revert Hi. apply strand_same_queue_inv, (same_queue_events _ _ []); cbn; rewrite ?app_nil_r; auto. }
  revert Hi'. generalize ({| s with tasks := ts |}). clear s Hi. intros s Hi. destruct t as [|write|]; cbn [run_task].
  - revert Hi. apply strand_same_queue_inv, poll_external_queue.
  - destruct (closing s) eqn:Hc; cbn [orb]; [done|]. destruct (negb _); [done|by rewrite <- Hc; apply strand_send_inv].
  - revert Hi. apply strand_same_queue_inv, strand_close_queue.
Qed.

Lemma st_step_inv s s' : st_step s s' -> queue_inv s -> queue_inv s'.
Proof.
  intros Hs Hi. destruct Hs as [t ts s Hst Ht|n op ec sni r s Hst Hn|f fs s Hst Hu|f fs s Hst Hu|f fs s Hst Hu|url s s' Hc Hs|write s|s|f fs s Hst Hu].
  - by apply run_task_inv.
  - by apply on_call_ended_inv.
  - by apply run_frame_inv.
  - revert Hi. by apply strand_same_queue_inv, return_frame_queue.
  - revert Hi. by eapply strand_same_queue_inv, throw_queue.
  - unfold strand_connect in Hs. destruct (closing s) eqn:Hcl; [by injection Hs as <-|].
    apply outcome_bind_ok in Hs as (u & _ & [= <-]). revert Hi.
    apply strand_same_queue_inv, (same_queue_events _ _ []); cbn; rewrite ?app_nil_r, ?Hcl; auto.
  - revert Hi. apply strand_same_queue_inv, (same_queue_events _ _ []); cbn; rewrite ?app_nil_r; auto.
  - revert Hi. apply strand_same_queue_inv, (same_queue_events _ _ []); cbn; rewrite ?app_nil_r; auto.
  - revert Hi. apply strand_same_queue_inv, strand_close_queue.
Qed.

Lemma strand_reachable_queue (s : strand) : t_reachable s -> queue_inv s.
Proof.
  intros (s0 & (proxy & headers & verify & ->) & Hr). revert Hr. apply (invariant_rtc st_step); [|apply st_step_inv].
  split; [split; [split|]|]; [by exists []; auto|done|exact (le_n 0)|by intros _|by intros _].
Qed.

(** On a strand as well messages are posted in the order of their acceptance,
    each once with the body of its kind, one request at a time; and as long as the
    transport is not closing a waiting message has a write in progress before it. *)
Theorem strand_writes_in_order (s : strand) :
  t_reachable s ->
  (exists rest, accepted_of (history s) = taken_of (history s) ++ rest /\
     (write_queue s = rest \/ (closing s = true /\ write_queue s = []))) /\
  posted_of (history s) = post_body <$> taken_of (history s) /\
  (writes (requests s) <= 1)%nat /\
  (closing s = false -> write_queue s <> [] -> writes (requests s) = 1%nat).
Proof.
  intros Hs%strand_reachable_queue. destruct Hs as [[[Ho Hp H1] Hl] Hb]. unfold live, busy, in_progress in *. split_and!; [done|done| |].
  - destruct (write_in_progress s); lia.
  - intros Hc Hne. by rewrite (Hl Hc), (Hb Hc Hne).
Qed.

(** ** Polling *)

(** The tasks, requests and frames of the chain of polls. *)
Definition polls (s : strand) : nat := length (chain s ++ frames_stage (stack s)).

Definition thrown (s : strand) : Prop := SThrown ∈ history s.

(** A step neither ends the chain nor starts a second one, while the transport is
    not closing and no exception leaves a handler. *)
Definition goes_on (s s' : strand) : Prop :=
  closing s' = false -> closing s = false /\ (~ thrown s' -> ~ thrown s /\ polls s' = polls s).

Lemma polls_stack f fs s :
  stack s = f :: fs -> polls s = (length (frame_stage f) + polls {| s with stack := fs |})%nat.
Proof.
  intros Hst. unfold polls. rewrite Hst. change (frames_stage (f :: fs)) with (frame_stage f ++ frames_stage fs).
  change (chain {| s with stack := fs |}) with (chain s). rewrite !length_app. cbn [stack]. lia.
Qed.

Lemma polls_push f s : polls (push [f] s) = (length (frame_stage f) + polls s)%nat.
Proof. by rewrite (polls_stack f (stack s)). Qed.

Lemma polls_adds x s s' : adds x s s' -> polls s' = (length x + polls s)%nat.
Proof. intros [A1 _ A3 _]. unfold polls. rewrite !length_app, A1, A3, length_app. lia. Qed.

(** What the steps below do to the events and to [closing_]. *)
Definition quiet (s s' : strand) : Prop := closing s' = closing s /\ (thrown s' <-> thrown s).

Lemma quiet_polls s s' : quiet s s' -> polls s' = polls s -> goes_on s s'.
Proof. intros [E1 E2] E3 Hc. split; [congruence|]. intros Ht. by rewrite <- E2. Qed.

Lemma closing_goes_on s s' : closing s' = true -> goes_on s s'.
Proof. intros E Hc. congruence. Qed.

Lemma thrown_snoc ev evs : ev <> SThrown -> SThrown ∈ evs ++ [ev] <-> SThrown ∈ evs.
Proof. intros Hne. rewrite elem_of_app, list_elem_of_singleton. naive_solver. Qed.

Lemma record_quiet ev s : ev <> SThrown -> quiet s (record ev s).
Proof. intros Hne. split; [done|]. by apply thrown_snoc. Qed.

Lemma async_request_quiet p m t b s : quiet s (async_request p m t b s).
Proof. split; [done|]. by apply thrown_snoc. Qed.

Lemma quiet_trans s1 s2 s3 : quiet s1 s2 -> quiet s2 s3 -> quiet s1 s3.
Proof. intros [A1 A2] [B1 B2]. split; [congruence|]. by rewrite B2. Qed.

Lemma start_next_quiet s : quiet s (start_next_external_write s).
Proof.
  unfold start_next_external_write. destruct (write_in_progress s); [done|]. destruct (write_queue s) as [|w queue]; [done|].
  destruct (closing s) eqn:Hc; [done|]. eapply quiet_trans; [|apply async_request_quiet].
  split; [done|]. by apply thrown_snoc.
Qed.

Lemma start_next_polls s : polls (start_next_external_write s) = polls s.
Proof. apply (polls_adds []), start_next_adds. Qed.

(** A poll ends: it goes on in a frame. *)
Lemma on_polled_polls hs result s :
  closing (on_polled hs result s) = false ->
  quiet s (on_polled hs result s) /\ polls (on_polled hs result s) = S (polls s).
Proof.
  unfold on_polled. intros Hc.
  destruct (closing s) eqn:Hcs; [congruence|].
  destruct result as [ec|r]; [by rewrite strand_fail_closing in Hc|].
  destruct (negb (success (status r))); [by rewrite strand_fail_closing in Hc|].
  destruct hs; rewrite polls_push; (split; [|done]); by split.
Qed.

Lemma on_written_polls result s :
  closing (on_written result s) = false -> quiet s (on_written result s) /\ polls (on_written result s) = polls s.
Proof.
  unfold on_written. set (s1 := {| s with write_in_progress := false |}).
  assert (quiet s s1 /\ polls s1 = polls s) as [Hq Hp] by done. clearbody s1. intros Hc.
  destruct (closing s1) eqn:Hcs; [congruence|].
  destruct result as [ec|r]; [by rewrite strand_fail_closing in Hc|].
  destruct (negb (success (status r))); [by rewrite strand_fail_closing in Hc|].
  split; [eapply quiet_trans; [done|apply start_next_quiet]|by rewrite start_next_polls].
Qed.

Lemma complete_polls p result s :
  closing (complete p result s) = false ->
  quiet s (complete p result s) /\ polls (complete p result s) = (length (purpose_stage p) + polls s)%nat.
Proof.
  destruct p as [hs| |]; cbn [complete]; intros Hc.
  - destruct (on_polled_polls hs result s Hc) as [? ->]. by destruct hs.
  - by destruct (on_written_polls result s Hc) as [? ->].
  - done.
Qed.

Lemma polls_delete n op s :
  requests s !! n = Some op ->
  polls s = (length (purpose_stage (op_purpose op)) + polls {| s with requests := delete n (requests s) |})%nat.
Proof. intros Hn. unfold polls. rewrite !length_app, (chain_delete n op s Hn), length_app. cbn [stack]. lia. Qed.

Lemma on_call_ended_polls n op ec sni r s :
  requests s !! n = Some op -> goes_on s (on_call_ended n op ec sni r s).
Proof.
  intros Hn. unfold on_call_ended. destruct (on_completed _ _ _ _ _ _) as [call|[m|] result].
  - apply quiet_polls; [done|]. unfold polls. by rewrite (chain_insert n op).
  - apply closing_goes_on, strand_fail_closing.
  - intros Hc. destruct (complete_polls _ _ _ Hc) as [[E1 E2] E3]. split; [exact (eq_trans (eq_sym E1) Hc)|].
    intros Ht. rewrite E3, (polls_delete n op s Hn). split; [exact (fun h => Ht (proj2 E2 h))|done].
Qed.

Lemma run_frame_polls f fs s c :
  simulates s c -> stack s = f :: fs -> is_user f = false -> goes_on s (run_frame f {| s with stack := fs |}).
Proof.
  intros Hsim Hst Hu. pose proof (polls_stack f fs s Hst) as Hp.
  pose proof (f_finish _ _ _ _ Hsim) as Hn. rewrite Hst in Hn.
  assert (quiet s {| s with stack := fs |}) as Hq by done. revert Hp Hq. generalize ({| s with stack := fs |}). intros s1 Hp Hq.
  assert (forall o f', length (frame_stage f') = length (frame_stage f) -> goes_on s (push [f'] (record (SOut o) s1))) as Hcall.
  { intros o f' El. apply quiet_polls; [by eapply quiet_trans; [|apply (record_quiet (SOut o))]|].
    rewrite polls_push, Hp, El. done. }
  destruct f as [m|m|reason| |p ec|r|r|packets|o packets|packets]; try done; try by apply Hcall.
  - cbn [run_frame]. intros Hc. destruct (complete_polls p (inl ec) s1 Hc) as [[E1 _] _]. destruct Hq as [Q1 _].
    assert (closing s = false) as Hcs by congruence. by destruct (Forall_cons_1 _ _ _ (Hn Hcs)).
  - cbn [frame_stage length] in Hp. destruct packets as [|packet packets].
    + cbn [run_frame]. destruct (closing s1) eqn:Hc1; [by apply closing_goes_on|]. apply quiet_polls.
      * eapply quiet_trans; [done|]. apply async_request_quiet.
      * by rewrite (polls_adds [SOpen] s1) by apply (poll_external_adds false).
    + assert (closing s1 = true \/ closing s1 = false) as [Hc1|Hc1] by (destruct (closing s1); auto).
      { rewrite deliver_packet_closing by done. by apply closing_goes_on. }
      rewrite deliver_packet_open by done. destruct (read_sid packet (sid s1)) as [id|e].
      * apply quiet_polls; [done|]. rewrite polls_push, Hp. by destruct (packet_call packet).
      * intros Hc. destruct Hq as [Q1 _]. split; [congruence|]. intros Ht. destruct Ht. unfold thrown. cbn.
        rewrite elem_of_app. right. by left.
Qed.

Lemma return_frame_polls f fs s : stack s = f :: fs -> is_user f = true -> goes_on s (return_frame f {| s with stack := fs |}).
Proof.
  intros Hst Hu. pose proof (polls_stack f fs s Hst) as Hp.
  assert (quiet s {| s with stack := fs |}) as Hq by done. revert Hp Hq. generalize ({| s with stack := fs |}). intros s1 Hp Hq.
  destruct f as [m|m|reason| |p ec|r|r|packets|o packets|packets]; try done; cbn [return_frame].
  - apply quiet_polls; [done|]. by rewrite polls_push, Hp.
  - by apply quiet_polls.
  - destruct (closing s1) eqn:Hc; [by apply closing_goes_on|]. apply quiet_polls; [done|]. by rewrite polls_push, Hp.
  - apply quiet_polls; [done|]. by rewrite polls_push, Hp.
Qed.

Lemma strand_close_polls s : goes_on s (strand_close s).
Proof.
  unfold strand_close. destruct (shutdown_once s); [by apply quiet_polls|]. apply closing_goes_on.
  destruct (closing s); cbn; by case_bool_decide.
Qed.

Lemma run_task_polls t ts s : tasks s = t :: ts -> goes_on s (run_task t {| s with tasks := ts |}).
Proof.
  intros Ht.
  assert (polls s = length (task_stage t) + polls {| s with tasks := ts |})%nat as Hp.
  { unfold polls. rewrite !length_app, (chain_task t ts s Ht), length_app. cbn [stack]. lia. }
  assert (quiet s {| s with tasks := ts |}) as Hq by done. revert Hp Hq. generalize ({| s with tasks := ts |}). intros s1 Hp Hq.
  destruct t as [|write|]; cbn [run_task].
  - apply quiet_polls; [eapply quiet_trans; [done|apply async_request_quiet]|].
    by rewrite (polls_adds [SBefore] s1) by apply (poll_external_adds true).
  - destruct (closing s1 || _); [by apply quiet_polls|]. apply quiet_polls.
    + eapply quiet_trans; [exact Hq|]. eapply quiet_trans; [|apply start_next_quiet]. split; [done|]. by apply thrown_snoc.
    + by rewrite start_next_polls, Hp.
  - destruct Hq as [Q1 Q2]. intros Hc. destruct (strand_close_polls s1 Hc) as [E1 E2]. split; [congruence|].
    intros Hth. destruct (E2 Hth) as [E3 E4]. split; [by rewrite <- Q2|]. by rewrite E4, Hp.
Qed.

Lemma st_step_polls s s' c : simulates s c -> st_step s s' -> goes_on s s'.
Proof.
  intros Hsim Hs. destruct Hs as [t ts s Hst Ht|n op ec sni r s Hst Hn|f fs s Hst Hu|f fs s Hst Hu|f fs s Hst Hu|url s s' Hc Hs|write s|s|f fs s Hst Hu].
  - by apply run_task_polls.
  - by apply on_call_ended_polls.
  - by eapply run_frame_polls.
  - by apply return_frame_polls.
  - intros Hc. split; [done|]. intros Ht. destruct Ht. unfold thrown. cbn. rewrite elem_of_app. right. by left.
  - unfold strand_connect in Hs. destruct (closing s) eqn:Hcl; [injection Hs as <-; by apply quiet_polls|].
    apply outcome_bind_ok in Hs as (u & _ & [= <-]). apply quiet_polls; [by split|].
    unfold polls, chain, frames_stage. cbn. rewrite Hc, bind_app, !length_app. cbn. lia.
  - apply quiet_polls; [done|]. unfold polls, chain, frames_stage. cbn. rewrite bind_app, !length_app. cbn. lia.
  - apply quiet_polls; [done|]. unfold polls, chain, frames_stage. cbn. rewrite bind_app, !length_app. cbn. lia.
  - apply strand_close_polls.
Qed.

Lemma strand_reachable_simulates s : t_reachable s -> exists c, simulates s c.
Proof.
  intros (s0 & (proxy & headers & verify & ->) & Hr).
  apply (invariant_rtc st_step (fun s => exists c, simulates s c) (new_strand proxy headers verify)); [| |done].
  - exists fresh_contract. split; cbn; try done; [|by repeat constructor]. split; cbn; try done. lia.
  - intros s1 s2 Hs (c & Hf). destruct (st_step_followed s1 s2 c Hs Hf) as (os & c' & _ & _ & ?). by exists c'.
Qed.

(** [C21] The session is never left without a poll: on a connected transport that is not
    closing there is exactly one of the first task, a poll in progress and a poll
    whose response is being delivered - unless an exception has left a handler,
    which ends the polling although the transport stays open. *)
Theorem strand_goes_on_polling (s : strand) :
  t_reachable s -> connected s = true -> closing s = false -> SThrown ∉ history s ->
  length ((tasks s ≫= task_stage) ++ (requests s ≫= fun op => purpose_stage (op_purpose op)) ++ frames_stage (stack s)) = 1%nat.
Proof.
  intros Hr Hconn Hc Ht.
  assert (closing s = false -> ~ thrown s -> polls s = 1%nat) as Hp.
  { destruct Hr as (s0 & Hi0 & Hr). revert s Hr Hconn Hc Ht. intros s Hr _ _ _. revert s Hr.
    apply (invariant_rtc_strong st_step (fun s => closing s = false -> ~ thrown s -> polls s = 1%nat)); [by destruct Hi0 as (? & ? & ? & ->)|].
    intros s s' Hs Hstep Hi Hc Ht. destruct (strand_reachable_simulates s) as (c & Hsim); [by exists s0|].
    destruct (st_step_polls s s' c Hsim Hstep Hc) as [Hcs E]. destruct (E Ht) as [Hts ->]. by apply Hi. }
  specialize (Hp Hc Ht). unfold polls, chain in Hp. rewrite Hconn in Hp. rewrite !length_app in *. cbn in Hp. lia.
Qed.
End with_libraries.

(** ** Runs *)

Inductive st_move : Type :=
  | NTask
  | NEnd (n : nat) (ec : option error_code) (r : response)
  | NFrame | NReturn | NThrow
  | NConnect (url : bstr) | NSend (write : bstr * bool) | NClose | NCloseInside.

Section runs.
Context `{JsonLib} `{Errors}.

Definition top_frame (user : bool) (s : strand) : option (frame * list frame) :=
  match stack s with f :: fs => if bool_decide (is_user f = user) then Some (f, fs) else None | [] => None end.
Definition idle (s : strand) : bool := match stack s with [] => true | _ => false end.

Definition st_go (m : st_move) (s : strand) : option strand :=
  match m with
  | NTask => if idle s then match tasks s with t :: ts => Some (run_task t {| s with tasks := ts |}) | [] => None end else None
  | NEnd n ec r => if idle s then op ← requests s !! n; Some (on_call_ended n op ec None r s) else None
  | NFrame => '(f, fs) ← top_frame false s; Some (run_frame f {| s with stack := fs |})
  | NReturn => '(f, fs) ← top_frame true s; Some (return_frame f {| s with stack := fs |})
  | NThrow => '(f, fs) ← top_frame true s; Some (throw_out {| s with stack := fs |})
  | NConnect url => match connected s, strand_connect url s with false, Ok s' => Some s' | _, _ => None end
  | NSend write => Some (post_task (TaskSend write) s)
  | NClose => Some (post_task TaskClose s)
  | NCloseInside => _ ← top_frame true s; Some (strand_close s)
  end.

Fixpoint st_run (ms : list st_move) (s : strand) : option strand :=
  match ms with [] => Some s | m :: ms' => s' ← st_go m s; st_run ms' s' end.

Lemma top_frame_Some user s f fs : top_frame user s = Some (f, fs) -> stack s = f :: fs /\ is_user f = user.
Proof. unfold top_frame. destruct (stack s) as [|g gs]; [done|]. case_bool_decide; [|done]. by intros [= -> ->]. Qed.

Lemma idle_stack s : idle s = true -> stack s = [].
Proof. unfold idle. by destruct (stack s). Qed.

Lemma st_go_step m s s' : st_go m s = Some s' -> st_step s s'.
Proof.
  destruct m; cbn [st_go]; intros Hs.
  - destruct (idle s) eqn:Hi; [|done]. destruct (tasks s) as [|t ts] eqn:Ht; [done|]. injection Hs as <-.
    apply st_task; [by apply idle_stack|done].
  - destruct (idle s) eqn:Hi; [|done]. apply bind_Some in Hs as (op & Hn & [= <-]). apply st_ended; [by apply idle_stack|done].
  - apply bind_Some in Hs as ([f fs] & [Hst Hu]%top_frame_Some & [= <-]). by apply st_frame.
  - apply bind_Some in Hs as ([f fs] & [Hst Hu]%top_frame_Some & [= <-]). by apply st_return.
  - apply bind_Some in Hs as ([f fs] & [Hst Hu]%top_frame_Some & [= <-]). by eapply st_throw.
  - destruct (connected s) eqn:Hc; [done|]. destruct (strand_connect url s) eqn:E; [|done]. injection Hs as <-. by eapply st_connect.
  - injection Hs as <-. apply st_send.
  - injection Hs as <-. apply st_close.
  - apply bind_Some in Hs as ([f fs] & [Hst Hu]%top_frame_Some & [= <-]). by eapply st_close_inside.
Qed.

Lemma st_run_reachable proxy headers verify ms s : st_run ms (new_strand proxy headers verify) = Some s -> t_reachable s.
Proof.
  intros Hr. exists (new_strand proxy headers verify). split; [by exists proxy, headers, verify|].
  revert Hr. generalize (new_strand proxy headers verify). induction ms as [|m ms IH]; intros s0; cbn; [by intros [= <-]|].
  intros (s1 & E1 & E2)%bind_Some. eapply rtc_l; [by eapply st_go_step|by apply IH].
Qed.
End runs.

Module StrandDemo.
Definition start : strand := new_strand None [] true.
Definition url : bstr := "http://example.org/engine.io/?EIO=4&transport=polling".
Definition silent : response := mk_response 200 [].

(** The calls of a request on place [n], all successful. *)
Definition request (n : nat) (body : string) : list st_move :=
  [NEnd n None silent; NEnd n None silent; NEnd n None silent; NEnd n None (mk_response 200 (dq body))].

(** Connected, the first message delivered, the next poll under way. *)
Definition polling : list st_move :=
  [NConnect url; NTask] ++ request 0 "0{'sid':'abc'}" ++ [NFrame; NReturn; NFrame; NFrame; NReturn; NFrame].

(** Two messages: one is posted, the other waits. *)
Definition writing : list st_move := polling ++ [NSend (bs "4hi", false); NSend (bs "xyz", true); NTask; NTask].

(** The handler closes and the close handler throws. *)
Definition closed_inside : list st_move :=
  polling ++ request 0 "4hi" ++ [NFrame; NFrame; NCloseInside; NFrame; NThrow; NReturn; NFrame].
End StrandDemo.

#[local] Existing Instances Codec.lib HttpDemo.messages.

Lemma strand_refines_contract_witness :
  keeps_contract [TOpen; TMessage (dq "0{'sid':'abc'}") false; TMessage "4hi" false; TShutdown; TClose "closed"].
Proof.
  assert (E : exists s, st_run StrandDemo.closed_inside StrandDemo.start = Some s /\ outputs_of (history s) =
    [TOpen; TMessage (dq "0{'sid':'abc'}") false; TMessage "4hi" false; TShutdown; TClose "closed"]).
  { eexists. split; vm_compute; reflexivity. }
  destruct E as (s & Hr & <-). exact (strand_refines_contract s (st_run_reachable _ _ _ _ _ Hr)).
Defined.

Lemma strand_writes_in_order_witness :
  exists s, st_run StrandDemo.writing StrandDemo.start = Some s /\
    posted_of (history s) = [bs "4hi"] /\ write_queue s = [(bs "xyz", true)] /\
    (exists rest, accepted_of (history s) = taken_of (history s) ++ rest /\
       (write_queue s = rest \/ (closing s = true /\ write_queue s = []))) /\
    posted_of (history s) = post_body <$> taken_of (history s) /\
    (writes (requests s) <= 1)%nat /\
    (closing s = false -> write_queue s <> [] -> writes (requests s) = 1%nat).
Proof.
  eexists. split; [vm_compute; reflexivity|]. split; [vm_compute; reflexivity|]. split; [vm_compute; reflexivity|].
  apply strand_writes_in_order. eapply (st_run_reachable None [] true StrandDemo.writing). vm_compute. reflexivity.
Defined.

Lemma strand_goes_on_polling_witness :
  exists s, st_run StrandDemo.polling StrandDemo.start = Some s /\
    length ((tasks s ≫= task_stage) ++ (requests s ≫= fun op => purpose_stage (op_purpose op)) ++ frames_stage (stack s)) = 1%nat.
Proof.
  eexists. split; [vm_compute; reflexivity|]. apply strand_goes_on_polling.
  - eapply (st_run_reachable None [] true StrandDemo.polling). vm_compute. reflexivity.
  - reflexivity.
  - reflexivity.
  - cbn. intros Hin. repeat (apply elem_of_cons in Hin as [Hin|Hin]; [discriminate Hin|]). by apply elem_of_nil in Hin.
Defined.
