(* ===== verification/Reconnect.v ===== *)
(** * The reconnect thread

    The part of src/client.cpp that works with [reconnect_mutex_],
    [reconnect_condition_] and [reconnect_thread_]: the end of
    [schedule_reconnect], the wait of the thread it starts, and
    [stop_reconnect_thread].  Each runs on threads of its own; a program counter
    says where a thread is, a step moves one thread to its next synchronisation
    point.  What the reconnect thread does after its wait is [reconnect_now] of
    Client.v; here it may make calls of its own, since it runs user code: a listener
    may call [sync_close] or [connect], which stop the reconnect thread, and a session
    it closes may schedule another attempt. *)

From S2P Require Export Prelude.
From stdpp Require Import options.
#[local] Set Default Proof Using "Type*".

(** ** State *)

(** The reconnect thread.  [WCheck] and [WEnter] hold the mutex: the predicate of
    [wait_for] is evaluated, then the wait is entered; [WWait] waits with the mutex
    released; [WWake] has been woken, [expired] if by the clock, and needs the
    mutex again.  [WBody] is what comes after the wait, [WCall c] call [c] made there. *)
Inductive wpc : Type :=
  | WLock | WCheck (expired : bool) | WEnter | WWait | WWake (expired : bool) | WRun | WBody | WCall (c : nat) | WDone.

(** A call of [schedule_reconnect] (from its lock on) or of
    [stop_reconnect_thread]: [SHold], [SJoin] and [THold] hold the mutex, [SJoin]
    and [TJoin] wait for the end of a reconnect thread.  A call is over at [COut], or at
    [SThrown]: a thread that joins itself is refused by [std::thread::join] with a
    [std::system_error]. *)
Inductive cpc : Type :=
  | SLock | SHold | SJoin (w : nat) | SThrown
  | TNotify | TLock | THold | TJoin (w : nat)
  | COut.

Definition ended (p : cpc) : bool := match p with COut | SThrown => true | _ => false end.

Inductive holder : Type := HWorker (i : nat) | HCaller (i : nat).

#[export] Instance wpc_eq_dec : EqDecision wpc.
Proof. solve_decision. Defined.
#[export] Instance cpc_eq_dec : EqDecision cpc.
Proof. solve_decision. Defined.
#[export] Instance holder_eq_dec : EqDecision holder.
Proof. solve_decision. Defined.

(** [thread] is [reconnect_thread_] when it is joinable. *)
Record rstate : Type := mk_rstate {
  mutex : option holder;
  thread : option nat;
  workers : list wpc;
  callers : list cpc;
  shutdown : bool; (* [intentional_close_] *)
}.

Definition start : rstate := mk_rstate None None [] [] false.

(** ** Steps *)

Definition set_worker (i : nat) (p : wpc) (s : rstate) : rstate := {| s with workers := <[i := p]> (workers s) |}.
Definition set_caller (i : nat) (p : cpc) (s : rstate) : rstate := {| s with callers := <[i := p]> (callers s) |}.
Definition set_mutex (m : option holder) (s : rstate) : rstate := {| s with mutex := m |}.

(** Taking the mutex, when it is free. *)
Definition acquire (h : holder) (s : rstate) : option rstate :=
  match mutex s with None => Some (set_mutex (Some h) s) | Some _ => None end.

(** A step of reconnect thread [i]; [expired] says why a wait ends. *)
Definition worker_step (expired : bool) (i : nat) (s : rstate) : option rstate :=
  p ← workers s !! i;
  match p with
  | WLock => set_worker i (WCheck false) <$> acquire (HWorker i) s
  | WCheck e =>
      if shutdown s then Some (set_mutex None (set_worker i WDone s))
      else if e : bool then Some (set_mutex None (set_worker i WRun s))
      else Some (set_worker i WEnter s)
  | WEnter => Some (set_mutex None (set_worker i WWait s))
  | WWait => Some (set_worker i (WWake expired) s)
  | WWake e => set_worker i (WCheck e) <$> acquire (HWorker i) s
  | WRun => Some (set_worker i (if shutdown s then WDone else WBody) s)
  | WBody => Some (set_worker i WDone s)
  | WCall c => q ← callers s !! c; if ended q then Some (set_worker i WBody s) else None
  | WDone => None
  end.

(** A new reconnect thread takes the place of the one that was reaped. *)
Definition start_thread (s : rstate) : rstate :=
  {| s with thread := Some (length (workers s)); workers := workers s ++ [WLock] |}.

Definition notify_all (s : rstate) : rstate :=
  {| s with workers := (fun p => match p with WWait => WWake false | _ => p end) <$> workers s |}.

Definition finished (w : nat) (s : rstate) : bool := bool_decide (workers s !! w = Some WDone).

(** [reconnect_thread_.get_id() == std::this_thread::get_id()] in call [i], where
    [reconnect_thread_] is [w]. *)
Definition on_itself (w i : nat) (s : rstate) : bool := bool_decide (workers s !! w = Some (WCall i)).

(** A step of call [i]. *)
Definition caller_step (i : nat) (s : rstate) : option rstate :=
  p ← callers s !! i;
  match p with
  | SLock => set_caller i SHold <$> acquire (HCaller i) s
  | SHold =>
      if shutdown s then Some (set_mutex None (set_caller i COut s))
      else match thread s with
           | Some w =>
               if on_itself w i s then Some (set_mutex None (set_caller i SThrown s))
               else Some (set_caller i (SJoin w) s)
           | None => Some (set_mutex None (set_caller i COut (start_thread s)))
           end
  | SJoin w => if finished w s then Some (set_mutex None (set_caller i COut (start_thread s))) else None
  | TNotify => Some (set_caller i TLock (notify_all s))
  | TLock => set_caller i THold <$> acquire (HCaller i) s
  | THold =>
      match thread s with
      | Some w =>
          if on_itself w i s then Some (set_mutex None (set_caller i COut s))
          else Some (set_mutex None (set_caller i (TJoin w) {| s with thread := None |}))
      | None => Some (set_mutex None (set_caller i COut s))
      end
  | TJoin w => if finished w s then Some (set_caller i COut s) else None
  | COut | SThrown => None
  end.

(** A thread goes on. *)
Inductive moves : rstate -> rstate -> Prop :=
  | moves_worker expired i s s' : worker_step expired i s = Some s' -> moves s s'
  | moves_caller i s s' : caller_step i s = Some s' -> moves s s'.

(** Call [p] begins on reconnect thread [i]. *)
Definition body_call (i : nat) (p : cpc) (s : rstate) : rstate :=
  set_worker i (WCall (length (callers s))) {| s with callers := callers s ++ [p] |}.

(** Steps of the system: a thread goes on, a call begins on some other thread or on a
    reconnect thread, shutdown begins or is taken back by [connect]. *)
Inductive rstep : rstate -> rstate -> Prop :=
  | rstep_moves s s' : moves s s' -> rstep s s'
  | rstep_call p s : p = SLock \/ p = TNotify -> rstep s {| s with callers := callers s ++ [p] |}
  | rstep_body_call i p s : p = SLock \/ p = TNotify -> workers s !! i = Some WBody -> rstep s (body_call i p s)
  | rstep_shutdown b s : rstep s {| s with shutdown := b |}.

Definition rreachable (s : rstate) : Prop := rtc rstep start s.

(** ** Invariant: the mutex is held by the thread whose program counter says so

    [reconnect_thread_] is the thread that was started last, and a reconnect thread
    that joins another joins a later one. *)

Definition w_holds (p : wpc) : bool := match p with WCheck _ | WEnter => true | _ => false end.
Definition c_holds (p : cpc) : bool := match p with SHold | SJoin _ | THold => true | _ => false end.
Definition joins (p : cpc) : option nat := match p with SJoin w | TJoin w => Some w | _ => None end.
Definition in_call (p : wpc) : bool := match p with WCall _ => true | _ => false end.

Record rinv (s : rstate) : Prop := mk_rinv {
  inv_worker : forall i p, workers s !! i = Some p -> w_holds p = true -> mutex s = Some (HWorker i);
  inv_caller : forall i p, callers s !! i = Some p -> c_holds p = true -> mutex s = Some (HCaller i);
  inv_holder : forall h, mutex s = Some h ->
    match h with
    | HWorker i => exists p, workers s !! i = Some p /\ w_holds p = true
    | HCaller i => exists p, callers s !! i = Some p /\ c_holds p = true
    end;
  inv_thread : forall w, thread s = Some w -> S w = length (workers s);
  inv_sjoin : forall i w, callers s !! i = Some (SJoin w) -> thread s = Some w;
  inv_tjoin : forall i w, callers s !! i = Some (TJoin w) -> (w < length (workers s))%nat;
  inv_call : forall a c, workers s !! a = Some (WCall c) -> (c < length (callers s))%nat;
  inv_order : forall a c p w, workers s !! a = Some (WCall c) -> callers s !! c = Some p -> joins p = Some w -> (a < w)%nat;
}.

(** Reading a list after the change of one element, of all, or at the end. *)
Ltac lookups :=
  repeat match goal with
  | H : <[_ := _]> _ !! _ = Some _ |- _ => apply list_lookup_insert_Some in H as [(? & ? & ?)|(? & ?)]
  | H : (_ ++ [_]) !! _ = Some _ |- _ => apply lookup_app_Some in H as [?|(? & ?)]
  | H : [_] !! _ = Some _ |- _ => apply list_lookup_singleton_Some in H as (? & ?)
  | H : (_ <$> _) !! _ = Some _ |- _ => apply list_lookup_fmap_Some in H as (? & ? & ?)
  end; simplify_eq/=.

Lemma rinv_start : rinv start.
Proof. split; cbn; intros; simplify_eq. Qed.

(** A worker's program counter changes and the mutex is as before. *)
Lemma rinv_set_worker i p p' s :
  rinv s -> workers s !! i = Some p -> w_holds p = w_holds p' -> in_call p' = false -> rinv (set_worker i p' s).
Proof.
  intros [I1 I2 I3 I4 I5 I6 I7 I8] Hi Hp Hc. split; cbn; rewrite ?length_insert; try done.
  - intros j q Hj Hq. lookups; [|by eapply I1]. rewrite <-Hp in Hq. by eapply I1.
  - intros [j|j] Hm; [|by apply (I3 (HCaller j))].
    destruct (I3 _ Hm) as (q & Hj & Hq). destruct (decide (i = j)) as [->|].
    + exists p'. rewrite list_lookup_insert_eq by by eapply lookup_lt_Some. split; [done|]. congruence.
    + exists q. by rewrite list_lookup_insert_ne.
  - intros a c Ha. lookups. by eapply I7.
  - intros a c q w Ha. lookups. by eapply I8.
Qed.

(** A worker takes the mutex, or gives it back. *)
Lemma rinv_worker_acquire i p p' s :
  rinv s -> workers s !! i = Some p -> mutex s = None -> w_holds p' = true ->
  rinv (set_worker i p' (set_mutex (Some (HWorker i)) s)).
Proof.
  intros [I1 I2 I3 I4 I5 I6 I7 I8] Hi Hm Hp. split; cbn; rewrite ?length_insert; try done.
  - intros j q Hj Hq. lookups; [done|]. by rewrite (I1 _ _ ltac:(eassumption) Hq) in Hm.
  - intros j q Hj Hq. by rewrite (I2 _ _ Hj Hq) in Hm.
  - intros h [= <-]. exists p'. by rewrite list_lookup_insert_eq by by eapply lookup_lt_Some.
  - intros a c Ha. lookups. by eapply I7.
  - intros a c q w Ha. lookups. by eapply I8.
Qed.

Lemma rinv_worker_release i p p' s :
  rinv s -> workers s !! i = Some p -> w_holds p = true -> w_holds p' = false -> in_call p' = false ->
  rinv (set_mutex None (set_worker i p' s)).
Proof.
  intros [I1 I2 I3 I4 I5 I6 I7 I8] Hi Hp Hp' Hc. pose proof (I1 _ _ Hi Hp) as Hm.
  split; cbn; rewrite ?length_insert; try done.
  - intros j q Hj Hq. lookups; [congruence|]. rewrite (I1 _ _ ltac:(eassumption) Hq) in Hm. congruence.
  - intros j q Hj Hq. rewrite (I2 _ _ Hj Hq) in Hm. congruence.
  - intros a c Ha. lookups. by eapply I7.
  - intros a c q w Ha. lookups. by eapply I8.
Qed.

Lemma rinv_worker_step expired i s s' : rinv s -> worker_step expired i s = Some s' -> rinv s'.
Proof.
  intros Hinv. unfold worker_step. intros (p & Hp & E)%bind_Some. destruct p; unfold acquire in E.
  - destruct (mutex s) eqn:Hm; [done|]. injection E as <-. by eapply rinv_worker_acquire.
  - destruct (shutdown s); [|destruct expired0]; injection E as <-;
      [by eapply rinv_worker_release..|by eapply rinv_set_worker].
  - injection E as <-. by eapply rinv_worker_release.
  - injection E as <-. by eapply rinv_set_worker.
  - destruct (mutex s) eqn:Hm; [done|]. injection E as <-. by eapply rinv_worker_acquire.
  - injection E as <-. eapply rinv_set_worker; [done..| |]; by destruct (shutdown s).
  - injection E as <-. by eapply rinv_set_worker.
  - apply bind_Some in E as (q & _ & E). destruct (ended q); [|done]. injection E as <-. by eapply rinv_set_worker.
  - done.
Qed.

(** The same for calls. *)
Lemma rinv_set_caller i p p' s :
  rinv s -> callers s !! i = Some p -> c_holds p = c_holds p' ->
  (forall w, joins p' = Some w -> thread s = Some w /\ on_itself w i s = false) -> rinv (set_caller i p' s).
Proof.
  intros [I1 I2 I3 I4 I5 I6 I7 I8] Hi Hp Hs. split; cbn; rewrite ?length_insert; try done.
  - intros j q Hj Hq. lookups; [|by eapply I2]. rewrite <-Hp in Hq. by eapply I2.
  - intros [j|j] Hm; [by apply (I3 (HWorker j))|].
    destruct (I3 _ Hm) as (q & Hj & Hq). destruct (decide (i = j)) as [->|].
    + exists p'. rewrite list_lookup_insert_eq by by eapply lookup_lt_Some. split; [done|]. congruence.
    + exists q. by rewrite list_lookup_insert_ne.
  - intros j w Hj. lookups; [by apply Hs|by eapply I5].
  - intros j w Hj. lookups; [|by eapply I6]. destruct (Hs w eq_refl) as [Ht _]. specialize (I4 _ Ht). lia.
  - intros a c q w Ha Hq Hw. lookups; [|by eapply I8]. destruct (Hs w Hw) as [Ht Hne]. specialize (I4 _ Ht).
    apply bool_decide_eq_false in Hne. pose proof (lookup_lt_Some _ _ _ Ha). destruct (decide (a = w)) as [->|]; [done|lia].
Qed.

Lemma rinv_caller_acquire i p p' s :
  rinv s -> callers s !! i = Some p -> mutex s = None -> p' = SHold \/ p' = THold ->
  rinv (set_caller i p' (set_mutex (Some (HCaller i)) s)).
Proof.
  intros [I1 I2 I3 I4 I5 I6 I7 I8] Hi Hm Hp. split; cbn; rewrite ?length_insert; try done.
  - intros j q Hj Hq. by rewrite (I1 _ _ Hj Hq) in Hm.
  - intros j q Hj Hq. lookups; [done|]. by rewrite (I2 _ _ ltac:(eassumption) Hq) in Hm.
  - intros h [= <-]. exists p'. rewrite list_lookup_insert_eq by by eapply lookup_lt_Some.
    split; [done|]. by destruct Hp as [->| ->].
  - intros j w Hj. lookups; [by destruct Hp|by eapply I5].
  - intros j w Hj. lookups; [by destruct Hp|by eapply I6].
  - intros a c q w Ha Hq Hw. lookups; [by destruct Hp as [->| ->]|by eapply I8].
Qed.

(** The holder gives the mutex back, having reaped or started a thread. *)
Lemma rinv_caller_release i p p' s t ws :
  rinv s -> callers s !! i = Some p -> c_holds p = true -> c_holds p' = false ->
  ws = workers s \/ ws = workers s ++ [WLock] ->
  (forall w, t = Some w -> S w = length ws) ->
  (forall w, joins p' = Some w -> thread s = Some w /\ on_itself w i s = false) ->
  rinv (mk_rstate None t ws (<[i := p']> (callers s)) (shutdown s)).
Proof.
  intros [I1 I2 I3 I4 I5 I6 I7 I8] Hi Hp Hp' Hws Ht Hj. pose proof (I2 _ _ Hi Hp) as Hm.
  assert (Hlen : (length (workers s) <= length ws)%nat) by (destruct Hws as [->| ->]; rewrite ?length_app; lia).
  assert (Hold : forall a c, ws !! a = Some (WCall c) -> workers s !! a = Some (WCall c)).
  { intros a c Ha. destruct Hws as [->| ->]; [done|]. by lookups. }
  split; cbn; rewrite ?length_insert; try done.
  - intros j q Hq Hh. destruct Hws as [->| ->]; lookups; rewrite (I1 _ _ ltac:(eassumption) Hh) in Hm; congruence.
  - intros j q Hq Hh. lookups; [congruence|]. rewrite (I2 _ _ ltac:(eassumption) Hh) in Hm. congruence.
  - intros j w Hw. lookups. rewrite (I2 _ _ ltac:(eassumption) eq_refl) in Hm. congruence.
  - intros j w Hw. lookups; [|specialize (I6 _ _ ltac:(eassumption)); lia].
    destruct (Hj w eq_refl) as [Hw _]. specialize (I4 _ Hw). lia.
  - intros a c Ha%Hold. by eapply I7.
  - intros a c q w Ha%Hold Hq Hw. lookups; [|by eapply I8]. destruct (Hj w Hw) as [Hth Hne]. specialize (I4 _ Hth).
    apply bool_decide_eq_false in Hne. pose proof (lookup_lt_Some _ _ _ Ha). destruct (decide (a = w)) as [->|]; [done|lia].
Qed.

Lemma rinv_notify s : rinv s -> rinv (notify_all s).
Proof.
  intros [I1 I2 I3 I4 I5 I6 I7 I8]. split; cbn; rewrite ?length_fmap; try done.
  - intros i p Hp Hh. lookups. eapply I1; [done|]. by destruct x.
  - intros [i|i] Hm; [|by apply (I3 (HCaller i))]. destruct (I3 _ Hm) as (p & Hp & Hh).
    exists p. rewrite list_lookup_fmap, Hp. cbn. by destruct p.
  - intros a c Ha. lookups. destruct x; simplify_eq. by eapply I7.
  - intros a c q w Ha. lookups. destruct x; simplify_eq. by eapply I8.
Qed.

Lemma rinv_caller_step i s s' : rinv s -> caller_step i s = Some s' -> rinv s'.
Proof.
  intros Hinv. unfold caller_step. intros (p & Hp & E)%bind_Some.
  assert (Hnew : forall w, thread (start_thread s) = Some w -> S w = length (workers (start_thread s))).
  { intros w [= <-]. cbn. rewrite length_app. cbn. lia. }
  destruct p; unfold acquire in E.
  - destruct (mutex s) eqn:Hm; [done|]. injection E as <-. eapply rinv_caller_acquire; by auto.
  - destruct (shutdown s) eqn:Hs; [|destruct (thread s) as [w|] eqn:Ht; [destruct (on_itself w i s) eqn:Hi|]]; injection E as <-.
    + apply (rinv_caller_release i SHold COut s (thread s) (workers s)); try done; [by left|apply Hinv].
    + apply (rinv_caller_release i SHold SThrown s (thread s) (workers s)); try done; [by left|apply Hinv].
    + eapply rinv_set_caller; [done..|]. by intros w' [= <-].
    + apply (rinv_caller_release i SHold COut s _ (workers s ++ [WLock])); try done. by right.
  - destruct (finished w s); [|done]. injection E as <-.
    apply (rinv_caller_release i (SJoin w) COut s _ (workers s ++ [WLock])); try done. by right.
  - done.
  - injection E as <-. by eapply rinv_set_caller; [apply rinv_notify| |..].
  - destruct (mutex s) eqn:Hm; [done|]. injection E as <-. eapply rinv_caller_acquire; by auto.
  - destruct (thread s) as [w|] eqn:Ht; [destruct (on_itself w i s) eqn:Hi|]; injection E as <-.
    + apply (rinv_caller_release i THold COut s (thread s) (workers s)); try done; [by left|apply Hinv].
    + apply (rinv_caller_release i THold (TJoin w) s None (workers s)); try done; [by left|]. by intros w' [= <-].
    + apply (rinv_caller_release i THold COut s (thread s) (workers s)); try done; [by left|by rewrite Ht].
  - destruct (finished w s); [|done]. injection E as <-. by eapply rinv_set_caller.
  - done.
Qed.

Lemma rinv_new_call p s : rinv s -> p = SLock \/ p = TNotify -> rinv {| s with callers := callers s ++ [p] |}.
Proof.
  intros [I1 I2 I3 I4 I5 I6 I7 I8] Hp. split; cbn; rewrite ?length_app; try done.
  - intros j q Hj Hq. lookups; [by eapply I2|]. by destruct Hp as [->| ->].
  - intros [j|j] Hm; [by apply (I3 (HWorker j))|]. destruct (I3 _ Hm) as (q & Hq & Hh).
    exists q. by rewrite lookup_app_l by by eapply lookup_lt_Some.
  - intros j w Hj. lookups; [by eapply I5|by destruct Hp].
  - intros j w Hj. lookups; [by eapply I6|by destruct Hp].
  - intros a c Ha. specialize (I7 _ _ Ha). lia.
  - intros a c q w Ha Hq Hw. lookups; [by eapply I8|by destruct Hp as [->| ->]].
Qed.

Lemma rinv_body_call i p s : rinv s -> p = SLock \/ p = TNotify -> workers s !! i = Some WBody -> rinv (body_call i p s).
Proof.
  intros Hinv Hp Hi. destruct (rinv_new_call p s Hinv Hp) as [I1 I2 I3 I4 I5 I6 I7 I8]. cbn in *.
  split; cbn; rewrite ?length_insert; try done.
  - intros j q Hj Hq. lookups. by eapply I1.
  - intros [j|j] Hm; [|by apply (I3 (HCaller j))]. destruct (I3 _ Hm) as (q & Hj & Hq). exists q.
    rewrite list_lookup_insert_ne; [done|]. intros ->. by simplify_eq.
  - intros a c Ha. lookups; [rewrite length_app; cbn; lia|by eapply I7].
  - intros a c q w Ha Hq Hw. apply list_lookup_insert_Some in Ha as [(<- & E & _)|(? & Ha)]; [|by eapply I8]. simplify_eq.
    rewrite lookup_app_r, Nat.sub_diag in Hq by lia. cbn in Hq. simplify_eq. by destruct Hp as [->| ->].
Qed.

Lemma rinv_step s s' : rstep s s' -> rinv s -> rinv s'.
Proof.
  intros [? ? []|p ? Hp|i p ? Hp Hi|b ?] Hinv; [by eapply rinv_worker_step|by eapply rinv_caller_step|by apply rinv_new_call|by apply rinv_body_call|].
  by destruct Hinv.
Qed.

Lemma rinv_reachable s : rreachable s -> rinv s.
Proof. apply invariant_rtc; [apply rinv_start|]. intros ??; apply rinv_step. Qed.

(** ** The deadlock *)

(** The thread has not passed its wait. *)
Definition waits (p : wpc) : bool := match p with WLock | WWait | WWake _ => true | _ => false end.

(** The call has not had the mutex yet. *)
Definition asks (p : cpc) : bool := match p with SLock | TNotify | TLock => true | _ => false end.

(** Call [c] holds the mutex and waits for thread [w]. *)
Definition joining (c w : nat) (s : rstate) : Prop := mutex s = Some (HCaller c) /\ callers s !! c = Some (SJoin w).

(** Thread [w] needs the mutex: to get past its wait, or for a call it makes itself. *)
Definition at_wait (w : nat) (s : rstate) : Prop := exists p, workers s !! w = Some p /\ waits p = true.
Definition in_own_call (w : nat) (s : rstate) : Prop :=
  exists c p, workers s !! w = Some (WCall c) /\ callers s !! c = Some p /\ asks p = true.

(** Call [c] holds the mutex and waits for thread [w], which needs the mutex. *)
Definition jammed (c w : nat) (s : rstate) : Prop := joining c w s /\ (at_wait w s \/ in_own_call w s).

Lemma not_finished w s : at_wait w s \/ in_own_call w s -> workers s !! w <> Some WDone.
Proof. intros [(p & Hp & Hw)|(c & p & Hp & _)] E; rewrite E in Hp; simplify_eq. Qed.

(** What another call does meanwhile. *)
Lemma joining_caller_step c w i s s' :
  rinv s -> joining c w s -> workers s !! w <> Some WDone -> caller_step i s = Some s' ->
  i <> c /\ (callers s !! i = Some TNotify /\ s' = set_caller i TLock (notify_all s) \/
            (exists v, callers s !! i = Some (TJoin v)) /\ s' = set_caller i COut s).
Proof.
  intros Hinv (Hm & Hc) Hw. unfold caller_step. intros (q & Hq & E)%bind_Some.
  assert (Hne : c_holds q = true -> i = c).
  { intros Hh. pose proof (inv_caller s Hinv _ _ Hq Hh). congruence. }
  destruct (decide (i = c)) as [->|Hic].
  - simplify_eq. cbn in E. unfold finished in E. by rewrite bool_decide_eq_false_2 in E.
  - split; [done|]. destruct q; unfold acquire in E; rewrite ?Hm in E; try done; try (by destruct (Hic (Hne eq_refl))).
    + injection E as <-. by left.
    + destruct (finished w0 s); [|done]. injection E as <-. right. eauto.
Qed.

(** What a reconnect thread does meanwhile. *)
Lemma joining_worker_step c w e i s s' :
  rinv s -> joining c w s -> worker_step e i s = Some s' ->
  exists p p', workers s !! i = Some p /\ s' = set_worker i p' s /\ (waits p = true -> waits p' = true) /\
    forall c' q, p = WCall c' -> callers s !! c' = Some q -> asks q = false.
Proof.
  intros Hinv (Hm & Hc). unfold worker_step. intros (q & Hq & E)%bind_Some. exists q.
  assert (Hh : w_holds q = false).
  { destruct (w_holds q) eqn:Hh; [|done]. pose proof (inv_worker s Hinv _ _ Hq Hh). congruence. }
  destruct q; unfold acquire in E; rewrite ?Hm in E; try done.
  4: { apply bind_Some in E as (q & Hc' & E). destruct (ended q) eqn:Hend; [|done]. injection E as <-.
    eexists. split_and!; [done..|]. intros c' q' [= <-] Hq'. rewrite Hc' in Hq'. simplify_eq. by destruct q'. }
  all: injection E as <-; eexists; split_and!; done.
Qed.

Lemma joining_notify c w i s : i <> c -> joining c w s -> joining c w (set_caller i TLock (notify_all s)).
Proof. intros Hi (Hm & Hc). split; cbn; [done|]. by rewrite list_lookup_insert_ne. Qed.

Lemma at_wait_notify w s : at_wait w s -> at_wait w (notify_all s).
Proof. intros (p & Hp & Hw). unfold at_wait. cbn. rewrite list_lookup_fmap, Hp. destruct p; try done; by eexists. Qed.

(** Both ways of being jammed last. *)
Lemma at_wait_step c w s s' : rinv s -> joining c w s -> at_wait w s -> rstep s s' -> joining c w s' /\ at_wait w s'.
Proof.
  intros Hinv Hj Hw Hs. assert (Hd : workers s !! w <> Some WDone) by (apply not_finished; by left).
  destruct Hs as [s s1 Hs1|p s Hp|i p s Hp Hi|b s]; [destruct Hs1 as [e i s s1 E|i s s1 E]|..].
  - destruct (joining_worker_step _ _ _ _ _ _ Hinv Hj E) as (p & p' & Hp & -> & Hpp & _). split; [done|].
    destruct Hw as (q & Hq & Hw). unfold at_wait; cbn. destruct (decide (i = w)) as [->|].
    + rewrite list_lookup_insert_eq by by eapply lookup_lt_Some. exists p'. split; [done|]. apply Hpp. congruence.
    + rewrite list_lookup_insert_ne by done. eauto.
  - destruct (joining_caller_step _ _ _ _ _ Hinv Hj Hd E) as (Hi & [[_ ->]|[_ ->]]).
    + split; [by apply joining_notify|]. by apply at_wait_notify.
    + split; [|done]. destruct Hj. split; cbn; [done|]. by rewrite list_lookup_insert_ne.
  - split; [|done]. destruct Hj. split; cbn; [done|]. by rewrite lookup_app_l by by eapply lookup_lt_Some.
  - destruct Hw as (q & Hq & Hw). split; [destruct Hj; split; cbn; [done|by rewrite lookup_app_l by by eapply lookup_lt_Some]|].
    exists q. cbn. split; [|done]. rewrite list_lookup_insert_ne; [done|]. intros ->. by simplify_eq.
  - by split.
Qed.

Lemma in_own_call_step c w s s' : rinv s -> joining c w s -> in_own_call w s -> rstep s s' -> joining c w s' /\ in_own_call w s'.
Proof.
  intros Hinv Hj Hw Hs. assert (Hd : workers s !! w <> Some WDone) by (apply not_finished; by right).
  destruct Hw as (c1 & q & Hq & Hc1 & Ha).
  destruct Hs as [s s1 Hs1|p s Hp|i p s Hp Hi|b s]; [destruct Hs1 as [e i s s1 E|i s s1 E]|..].
  - destruct (joining_worker_step _ _ _ _ _ _ Hinv Hj E) as (p & p' & Hp & -> & _ & Hc). split; [done|].
    exists c1, q. cbn. split; [|done]. rewrite list_lookup_insert_ne; [done|]. intros ->. simplify_eq.
    by rewrite (Hc _ _ eq_refl Hc1) in Ha.
  - destruct (joining_caller_step _ _ _ _ _ Hinv Hj Hd E) as (Hi & [[Hn ->]|[(v & Hn) ->]]).
    + split; [by apply joining_notify|]. unfold in_own_call; cbn. rewrite list_lookup_fmap, Hq. cbn.
      destruct (decide (i = c1)) as [->|]; [exists c1, TLock|exists c1, q]; split_and!; try done.
      * by rewrite list_lookup_insert_eq by by eapply lookup_lt_Some.
      * by rewrite list_lookup_insert_ne.
    + split; [destruct Hj; split; cbn; [done|by rewrite list_lookup_insert_ne]|]. exists c1, q. cbn. split_and!; try done.
      rewrite list_lookup_insert_ne; [done|]. intros ->. by simplify_eq.
  - split; [destruct Hj; split; cbn; [done|by rewrite lookup_app_l by by eapply lookup_lt_Some]|].
    exists c1, q. cbn. by rewrite lookup_app_l by by eapply lookup_lt_Some.
  - split; [destruct Hj; split; cbn; [done|by rewrite lookup_app_l by by eapply lookup_lt_Some]|].
    exists c1, q. cbn. rewrite lookup_app_l by by eapply lookup_lt_Some. split; [|done].
    rewrite list_lookup_insert_ne; [done|]. intros ->. by simplify_eq.
  - split; [done|]. by exists c1, q.
Qed.

(** An invariant of the steps from a state with [rinv] holds for ever. *)
Lemma forever (I : rstate -> Prop) s s' :
  (forall s s', rinv s -> I s -> rstep s s' -> I s') -> rinv s -> I s -> rtc rstep s s' -> I s'.
Proof. intros Hstep Hinv Hi Hs. revert Hinv Hi. induction Hs; eauto using rinv_step. Qed.

Lemma at_wait_forever c w s s' : rinv s -> joining c w s -> at_wait w s -> rtc rstep s s' -> joining c w s' /\ at_wait w s'.
Proof.
  intros Hinv Hj Hw. apply (forever (fun s => joining c w s /\ at_wait w s)); [|done|done].
  intros s1 s2 Hi [? ?]. by apply at_wait_step.
Qed.

Lemma jammed_forever c w s s' : rinv s -> jammed c w s -> rtc rstep s s' -> jammed c w s'.
Proof.
  intros Hinv Hj. apply forever; [|done|done]. intros s1 s2 Hi [Hj1 [Hw|Hw]] Hs.
  - destruct (at_wait_step _ _ _ _ Hi Hj1 Hw Hs). by split; [|left].
  - destruct (in_own_call_step _ _ _ _ Hi Hj1 Hw Hs). by split; [|right].
Qed.

(** Thread [i] or call [i] has something left to do. *)
Definition unfinished (s : rstate) : Prop :=
  (exists i p, workers s !! i = Some p /\ p <> WDone) \/ (exists i p, callers s !! i = Some p /\ ended p = false).

Lemma worker_moves i p s :
  workers s !! i = Some p -> p <> WDone -> in_call p = false -> mutex s = None \/ w_holds p = true \/ p = WRun \/ p = WBody ->
  exists s', moves s s'.
Proof.
  intros Hi Hp Hc Hm. assert (exists s', worker_step true i s = Some s') as [s' E]; [|by exists s'; eapply moves_worker].
  unfold worker_step. rewrite Hi. cbn. unfold acquire.
  destruct p; try done; try (by eexists); try (by destruct (shutdown s), expired; eexists);
    destruct Hm as [->|[|[|]]]; done || by eexists.
Qed.

Lemma caller_moves i s s' : caller_step i s = Some s' -> exists s', moves s s'.
Proof. intros E. exists s'. by eapply moves_caller. Qed.

(** A call that waits for a thread that has ended, one that is not waiting, and one that
    wants a mutex that is free. *)
Lemma join_moves i p w s : callers s !! i = Some p -> joins p = Some w -> workers s !! w = Some WDone -> exists s', moves s s'.
Proof.
  intros Hp Hj Hw. assert (Hf : finished w s = true) by (by apply bool_decide_eq_true_2).
  destruct p; try done; injection Hj as ->; eapply (caller_moves i); unfold caller_step; rewrite Hp; cbn; by rewrite Hf.
Qed.

Lemma call_moves i p s :
  callers s !! i = Some p -> ended p = false -> joins p = None -> mutex s = None \/ c_holds p = true \/ p = TNotify ->
  exists s', moves s s'.
Proof.
  intros Hp He Hj Hm. assert (exists s', caller_step i s = Some s') as [s' E]; [|by eapply caller_moves].
  unfold caller_step. rewrite Hp. cbn. unfold acquire.
  destruct p; try done; try (destruct Hm as [->|[|]]; done || by eexists); try (by eexists).
  - destruct (shutdown s); [by eexists|]. destruct (thread s); [|by eexists]. destruct (on_itself n i s); by eexists.
  - destruct (thread s); [|by eexists]. destruct (on_itself n i s); by eexists.
Qed.

Lemma returned_moves a c p s : workers s !! a = Some (WCall c) -> callers s !! c = Some p -> ended p = true -> exists s', moves s s'.
Proof.
  intros Ha Hc Hp. exists (set_worker a WBody s). apply (moves_worker true a). unfold worker_step. rewrite Ha. cbn. rewrite Hc. cbn. by rewrite Hp.
Qed.

(** With the mutex free somebody can go on: of the threads that join one another the
    last one does not. *)
Lemma free_thread_moves k w s :
  rinv s -> mutex s = None -> (w < length (workers s))%nat -> (length (workers s) <= w + k)%nat ->
  workers s !! w <> Some WDone -> exists s', moves s s'.
Proof.
  intros Hinv Hm. revert w. induction k as [|k IH]; intros w Hw Hk Hd; [lia|].
  destruct (lookup_lt_is_Some_2 _ _ Hw) as [p Hp]. destruct (in_call p) eqn:Hin; [|eapply worker_moves; eauto; congruence].
  destruct p as [| | | | | | |c|]; try done. destruct (lookup_lt_is_Some_2 _ _ (inv_call s Hinv _ _ Hp)) as [q Hq].
  destruct (ended q) eqn:He; [by eapply returned_moves|].
  destruct (joins q) as [v|] eqn:Hj; [|eapply call_moves; eauto].
  destruct (decide (workers s !! v = Some WDone)) as [Hv|Hv]; [by eapply join_moves|].
  pose proof (inv_order s Hinv _ _ _ _ Hp Hq Hj) as Hlt. apply (IH v); [|lia|done].
  destruct q; try done; injection Hj as ->; [|by eapply inv_tjoin].
  pose proof (inv_thread s Hinv _ (inv_sjoin s Hinv _ _ Hq)). lia.
Qed.

(** The holder of the mutex goes on, or it is jammed. *)
Lemma holder_moves h s :
  rinv s -> mutex s = Some h -> (exists s', moves s s') \/ exists c w, jammed c w s.
Proof.
  intros Hinv Hm. pose proof (inv_holder s Hinv h Hm) as Hh. destruct h as [i|i], Hh as (p & Hp & Hh).
  { left. eapply worker_moves; [done|by intros ->|by destruct p|by auto]. }
  destruct (joins p) as [w|] eqn:Hj; [|left; eapply call_moves; eauto; by destruct p].
  destruct p; try done. injection Hj as ->.
  pose proof (inv_thread s Hinv w (inv_sjoin s Hinv _ _ Hp)) as Hlast.
  destruct (lookup_lt_is_Some_2 (workers s) w) as [q Hq]; [lia|].
  destruct (decide (q = WDone)) as [->|Hne]; [left; by eapply join_moves|].
  destruct (waits q) eqn:Hw; [right; exists i, w; split; [done|left; by exists q]|].
  destruct (in_call q) eqn:Hin.
  2: { left. eapply (worker_moves w q); [done..|]. destruct q; auto. }
  destruct q as [| | | | | | |c|]; try done. destruct (lookup_lt_is_Some_2 _ _ (inv_call s Hinv _ _ Hq)) as [q Hq'].
  destruct (ended q) eqn:He; [left; by eapply returned_moves|].
  destruct (asks q) eqn:Ha; [right; exists i, w; split; [done|right; by exists c, q]|]. exfalso.
  destruct (joins q) as [v|] eqn:Hj.
  - pose proof (inv_order s Hinv _ _ _ _ Hq Hq' Hj). destruct q; try done; injection Hj as ->.
    + pose proof (inv_caller s Hinv _ _ Hq' eq_refl). simplify_eq. lia.
    + pose proof (inv_tjoin s Hinv _ _ Hq'). lia.
  - assert (c_holds q = true) as Hc by (by destruct q). pose proof (inv_caller s Hinv _ _ Hq' Hc). simplify_eq.
Qed.

(** ** Properties *)

(** [C32] A second close notification: when a call of [schedule_reconnect] holds
    the mutex while the previous reconnect thread still waits out its delay, the
    call goes on to wait for that thread, and from then on, whatever happens - the
    delay expires, shutdown begins, [connect] is called - that thread never gets
    past its wait, the call never returns, and nobody else gets the mutex. *)
Theorem second_close_deadlocks (s : rstate) (c w : nat) (p : wpc) :
  rreachable s -> callers s !! c = Some SHold -> shutdown s = false ->
  thread s = Some w -> workers s !! w = Some p -> waits p = true ->
  exists s1, caller_step c s = Some s1 /\
    forall s', rtc rstep s1 s' ->
      mutex s' = Some (HCaller c) /\ callers s' !! c = Some (SJoin w) /\
      exists p', workers s' !! w = Some p' /\ waits p' = true.
Proof.
  intros Hs Hc Hsd Ht Hw Hp. pose proof (rinv_reachable s Hs) as Hinv.
  exists (set_caller c (SJoin w) s).
  assert (E : caller_step c s = Some (set_caller c (SJoin w) s)).
  { unfold caller_step. rewrite Hc. cbn. rewrite Hsd, Ht. unfold on_itself.
    rewrite bool_decide_eq_false_2; [done|]. rewrite Hw. by intros [= ->]. }
  split; [done|]. intros s' Hs'. destruct (at_wait_forever c w _ s' (rinv_caller_step _ _ _ Hinv E)) as [[Hm Hj] Hwait]; [|by exists p|done|by split_and!].
  split; cbn; [by eapply inv_caller|]. by rewrite list_lookup_insert_eq by by eapply lookup_lt_Some.
Qed.

(** [C33] The only deadlock of the reconnect threads, the calls of [schedule_reconnect]
    and those of [stop_reconnect_thread], made by other threads or on the reconnect
    threads themselves: in every reachable state where one of them is unfinished, one can go on, or a call
    of [schedule_reconnect] holds the mutex and joins a reconnect thread that needs it -
    to get past its wait, or for a call of its own, as when a listener it runs calls [sync_close].
    Such a state lasts for ever.  A listener is taken to return once the calls it makes
    have returned. *)
Theorem only_deadlock (s : rstate) :
  rreachable s -> unfinished s ->
  ((exists s', moves s s') \/ exists c w, jammed c w s) /\
  (forall c w, jammed c w s -> forall s', rtc rstep s s' -> jammed c w s').
Proof.
  intros Hs Hun. pose proof (rinv_reachable s Hs) as Hinv. split; [|intros c w Hj s'; by apply jammed_forever].
  destruct (mutex s) as [h|] eqn:Hm; [by eapply holder_moves|]. left.
  destruct Hun as [(i & p & Hp & Hne)|(i & p & Hp & Hne)].
  { eapply (free_thread_moves (length (workers s)) i); [done|done|by eapply lookup_lt_Some|lia|congruence]. }
  destruct (joins p) as [w|] eqn:Hj; [|eapply call_moves; eauto].
  destruct (decide (workers s !! w = Some WDone)) as [Hw|Hw]; [by eapply join_moves|].
  eapply (free_thread_moves (length (workers s)) w); [done|done| |lia|done].
  destruct p; try done; injection Hj as ->; [|by eapply inv_tjoin].
  pose proof (inv_thread s Hinv _ (inv_sjoin s Hinv _ _ Hp)). lia.
Qed.

(** ** Witnesses *)

(** A run: each element names the thread that goes on. *)
Inductive mover : Type :=
  | Worker (expired : bool) (i : nat) | Caller (i : nat) | NewCall (p : cpc) | BodyCall (i : nat) (p : cpc) | Flag (b : bool).

Definition begins (p : cpc) : bool := match p with SLock | TNotify => true | _ => false end.

Definition go (m : mover) (s : rstate) : option rstate :=
  match m with
  | Worker e i => worker_step e i s
  | Caller i => caller_step i s
  | NewCall p => if begins p then Some {| s with callers := callers s ++ [p] |} else None
  | BodyCall i p => if begins p && bool_decide (workers s !! i = Some WBody) then Some (body_call i p s) else None
  | Flag b => Some {| s with shutdown := b |}
  end.

Fixpoint run (ms : list mover) (s : rstate) : option rstate :=
  match ms with [] => Some s | m :: ms' => s' ← go m s; run ms' s' end.

Lemma begins_calls p : begins p = true -> p = SLock \/ p = TNotify.
Proof. destruct p; auto; done. Qed.

Lemma run_reachable ms s s' : rreachable s -> run ms s = Some s' -> rreachable s'.
Proof.
  revert s. induction ms as [|m ms IH]; intros s Hs; cbn; [by intros [= <-]|].
  intros (s1 & E1 & E2)%bind_Some. eapply IH; [|done]. eapply rtc_r; [done|].
  destruct m; cbn in E1.
  - eapply rstep_moves, moves_worker; done.
  - eapply rstep_moves, moves_caller; done.
  - destruct (begins p) eqn:Hp; [|done]. injection E1 as <-. by apply rstep_call, begins_calls.
  - destruct (begins p && _) eqn:Hp; [|done]. injection E1 as <-. apply andb_true_iff in Hp as [Hp Hi%bool_decide_eq_true_1].
    apply rstep_body_call; [by apply begins_calls|done].
  - injection E1 as <-. apply rstep_shutdown.
Qed.

(** The server's close packet schedules a reconnection, its thread waits out the
    delay, and the close of the connection is reported. *)
Definition two_closes : list mover :=
  [NewCall SLock; Caller 0; Caller 0; Worker false 0; Worker false 0; Worker false 0; NewCall SLock; Caller 1].

Lemma second_close_deadlocks_witness :
  exists s, run two_closes start = Some s /\
  exists s1, caller_step 1 s = Some s1 /\
    forall s', rtc rstep s1 s' ->
      mutex s' = Some (HCaller 1) /\ callers s' !! 1 = Some (SJoin 0) /\
      exists p', workers s' !! 0 = Some p' /\ waits p' = true.
Proof.
  eexists. split; [vm_compute; reflexivity|].
  eapply (second_close_deadlocks _ 1 0 WWait); try reflexivity.
  by apply (run_reachable two_closes start); [apply rtc_refl|vm_compute; reflexivity].
Defined.

(** A listener on the reconnect thread calls [sync_close] while a second close is reported. *)
Definition listener_stops : list mover :=
  [NewCall SLock; Caller 0; Caller 0; Worker false 0; Worker false 0; Worker false 0; Worker true 0; Worker false 0; Worker false 0;
   Worker false 0; BodyCall 0 TNotify; Caller 1; NewCall SLock; Caller 2; Caller 2].

(** That is jammed for ever, though the thread is long past its wait. *)
Lemma only_deadlock_witness :
  exists s, run listener_stops start = Some s /\ workers s = [WCall 1] /\ callers s = [COut; TLock; SJoin 0] /\
    forall s', rtc rstep s s' -> jammed 2 0 s'.
Proof.
  eexists. split; [vm_compute; reflexivity|]. split; [reflexivity|]. split; [reflexivity|].
  apply only_deadlock.
  - by apply (run_reachable listener_stops start); [apply rtc_refl|vm_compute; reflexivity].
  - left. exists 0, (WCall 1). by split.
  - split; [by split|]. right. by exists 1, TLock.
Defined.

(** A listener on the reconnect thread that stops it does not join its own thread; if it makes
    the client schedule an attempt there, the join is refused. *)
Example listener_on_itself :
  exists s1 s2, run (take 10 listener_stops ++ [BodyCall 0 TNotify; Caller 1; Caller 1; Caller 1; Worker false 0; Worker false 0]) start = Some s1 /\
  workers s1 = [WDone] /\ callers s1 = [COut; COut] /\
  run (take 10 listener_stops ++ [BodyCall 0 SLock; Caller 1; Caller 1; Worker false 0; Worker false 0]) start = Some s2 /\
  workers s2 = [WDone] /\ callers s2 = [COut; SThrown] /\ mutex s2 = None.
Proof. do 2 eexists. by vm_compute. Qed.

(** Shutdown sets its flag and notifies without the mutex: between the test of
    the predicate and the wait both are missed, and the call that stops the thread
    waits until the delay is over. *)
Example missed_notification :
  exists s, run [NewCall SLock; Caller 0; Caller 0; Worker false 0; Worker false 0; Flag true;
                 NewCall TNotify; Caller 1; Worker false 0; Caller 1; Caller 1] start = Some s /\
  shutdown s = true /\ workers s = [WWait] /\ callers s = [COut; TJoin 0].
Proof. eexists. split; [vm_compute; reflexivity|]. done. Qed.
