(* ===== verification/ClientLocks.v ===== *)
(** * The mutexes of the client

    Which mutexes src/client.cpp and src/socket.cpp hold at which point, and what
    they call there.  A method is a piece of [code]: the critical sections and calls
    of its body in their order; a test of a value that other threads may change is a
    choice.  [reconnect_mutex_] and the threads joined under it are the subject of
    Reconnect.v.  Threads run code, one step of one thread at a time. *)

From S2P Require Export Bytes.
From stdpp Require Import options.

(** ** Mutexes *)

Inductive mutex : Type :=
  | Sockets                 (* client_impl::sockets_mutex_ *)
  | Send                    (* client_impl::send_mutex_ *)
  | Engine                  (* client_impl::engineio_mutex_ *)
  | Handlers                (* client_impl::handler_mutex_ *)
  | Sock (nsp : bstr)       (* socket::mutex_ *)
  | Deadlines (nsp : bstr). (* ack_scheduler::state::mutex of the socket *)

#[export] Instance mutex_eq_dec : EqDecision mutex.
Proof. solve_decision. Defined.

(** The order in which a thread takes them. *)
Definition rank (m : mutex) : nat :=
  match m with Sockets => 0 | Send => 1 | Engine => 2 | Handlers => 3 | Sock _ => 4 | Deadlines _ => 5 end.

(** ** Code *)

(** The bodies of the loops over [sockets_]. *)
Inductive socket_body : Type := BodyConnect | BodyResume | BodyDisconnected | BodyShutDown | BodyWait.

Inductive code : Type :=
  | Skip
  | Seq (a b : code)
  | Locked (m : mutex) (body : code)       (* a scope with a lock_guard *)
  | Choose (a b : code)                    (* a test *)
  | Loop (body : code)
  | Try (body handler : code)              (* try { body } catch (...) { handler } *)
  | Raise
  | Quiet                                  (* a call that comes back *)
  | Library                                (* a call that comes back, or throws *)
  | Outside                                (* a call that may call the client in turn *)
  | IfSocket (nsp : bstr) (a b : code)     (* sockets_.find(nsp) != sockets_.end() *)
  | AddSocket (nsp : bstr)                 (* sockets_[nsp] = sock *)
  | EachSocket (body : socket_body)        (* for (auto& entry : sockets_) *)
  | EachSnapshot (body : socket_body)      (* for (const auto& sock : sockets_snapshot()) *)
  | Each (nsps : list bstr) (body : socket_body).

Declare Scope code_scope.
Delimit Scope code_scope with code.
Bind Scope code_scope with code.
Notation "a ;; b" := (Seq a b) (at level 100, right associativity, format "a  ;;  b") : code_scope.
Open Scope code_scope.

Definition may (c : code) : code := Choose c Skip.

(** ** Sockets *)

Section socket.
Context (nsp : bstr).

Definition set_auth : code := Locked (Sock nsp) Skip.
Definition auth : code := Locked (Sock nsp) Skip.
Definition is_connected : code := Locked (Sock nsp) Skip.

(** The registration of a listener destroys the one it replaces, [off] those it erases. *)
Definition set_listener : code := Locked (Sock nsp) Outside.
Definition off : code := Locked (Sock nsp) Outside.

(** [client_impl::send_packet]; there is nothing to send on before the first [connect].
    [encode] calls the parser of the application and [engineio->send]. *)
Definition send_packet : code := Locked Send (Locked Engine Skip ;; may Library).

(** [if (auto c = client_.lock()) c->send_packet(packet)] *)
Definition client_send : code := may send_packet.

Definition socket_connect : code := auth ;; client_send.
Definition socket_disconnect : code := client_send ;; Locked (Sock nsp) Skip.

Definition send_or_buffer : code := Locked (Sock nsp) Skip ;; may client_send.
Definition emit : code := send_or_buffer.
Definition emit_ack : code := Locked (Sock nsp) Skip ;; send_or_buffer.

(** [ack_scheduler::add], [expired], [remove] and [clear] *)
Definition scheduler : code := Locked (Deadlines nsp) Skip.

Definition register_timed_ack : code := may Raise ;; Try scheduler Raise.
Definition emit_timed : code :=
  may Raise ;;
  Locked (Sock nsp) (register_timed_ack ;; scheduler) ;;
  may client_send.

Definition finish_timed_ack : code := Locked (Sock nsp) Skip.
Definition invoke_timed_ack : code := Try Outside (finish_timed_ack ;; Raise) ;; finish_timed_ack.
Definition expire_ack : code := Locked (Sock nsp) Skip ;; may invoke_timed_ack.

Definition flush_send_buffer : code :=
  Loop (Locked (Sock nsp) (may scheduler) ;; Choose expire_ack client_send) ;;
  Locked (Sock nsp) Skip.

Definition dispatch_event : code := Locked (Sock nsp) Skip ;; may Outside ;; may Outside.
Definition send_ack : code := client_send.
Definition dispatch_ack : code :=
  Locked (Sock nsp) (may scheduler) ;; Choose invoke_timed_ack (may Outside).

(** [cancelled.clear()] destroys callbacks, after the lock. *)
Definition cancel_timed_acks : code := Locked (Sock nsp) (may scheduler) ;; Outside.
(** The same call in [client_impl::socket], on a socket that has no callbacks yet. *)
Definition cancel_no_acks : code := Locked (Sock nsp) Skip ;; Library.

(** Each turn of the loop is a wake-up with [active_timed_acks_] not zero. *)
Definition wait_for_timed_acks : code := Loop (Locked (Sock nsp) Skip) ;; Locked (Sock nsp) Skip.
Definition resume_timed_acks : code := Locked (Sock nsp) Skip.

Definition mark_connected (connected : bool) : code :=
  Locked (Sock nsp) Skip ;;
  may (if connected then may flush_send_buffer ;; may Outside else may Outside).

(** The worker of the [ack_scheduler]. *)
Definition deadline_worker : code := Loop (scheduler ;; may expire_ack).
End socket.

(** ** The client *)

Definition current_engineio : code := Locked Engine Skip.
Definition is_current_engineio : code := Locked Engine Skip.

(** [if (auto handler = current_handler(on_...)) handler(...)] *)
Definition notify : code := Locked Handlers Skip ;; may Outside.
(** [set_handler]; the assignment destroys the former handler. *)
Definition set_handler : code := Locked Handlers Outside.

Definition socket_code (body : socket_body) (nsp : bstr) : code :=
  match body with
  | BodyConnect => socket_connect nsp
  | BodyResume => resume_timed_acks nsp
  | BodyDisconnected => mark_connected nsp false
  | BodyShutDown =>
      cancel_timed_acks nsp ;;
      Try (is_connected nsp ;; may (socket_disconnect nsp)) Skip
  | BodyWait => wait_for_timed_acks nsp
  end.

(** The replaced session is destroyed after the lock. *)
Definition ensure_engineio : code :=
  Library ;; (* make_shared, set_transport(make_configured_transport(...)), bind_engineio_callbacks *)
  Locked Engine Skip ;;
  Outside.

Definition connect : code :=
  may Outside ;; (* stop_reconnect_thread() *)
  Locked Sockets (EachSocket BodyResume) ;;
  ensure_engineio ;;
  may Outside. (* engineio->open(...) *)

Definition activate_polling_fallback : code := may (notify ;; ensure_engineio ;; may Outside).

Definition on_engineio_open : code := Locked Sockets (EachSocket BodyConnect) ;; notify.

(** Its own lock is [reconnect_mutex_]. *)
Definition schedule_reconnect : code := Choose notify (notify ;; Outside).

Definition on_engineio_close : code :=
  Locked Sockets (EachSocket BodyDisconnected) ;;
  notify ;;
  may schedule_reconnect.

(** What the thread of [schedule_reconnect] does after its wait. *)
Definition reconnect_worker : code :=
  may (Try (ensure_engineio ;; may (notify ;; may Outside)) notify).

(** The parser runs without a lock; a packet names its namespace. *)
Definition on_engineio_frame (nsp : bstr) : code :=
  Library ;;
  may (Locked Sockets Skip ;;
       IfSocket nsp
         (Choose (mark_connected nsp true)
            (Choose (mark_connected nsp false)
               (Choose (dispatch_event nsp) (may (dispatch_ack nsp)))))
         Skip).

Definition when_current (c : code) : code := may (is_current_engineio ;; may c).
Definition handle_engineio_open : code := when_current on_engineio_open.
Definition handle_engineio_close : code := when_current on_engineio_close.
Definition handle_engineio_frame (nsp : bstr) : code := when_current (on_engineio_frame nsp).
Definition handle_engineio_error : code :=
  when_current (may activate_polling_fallback ;; notify).

Definition get_socket (nsp : bstr) : code :=
  Locked Sockets
    (IfSocket nsp (may (set_auth nsp))
       (Quiet ;; (* make_shared *)
        may (cancel_no_acks nsp) ;;
        AddSocket nsp ;;
        current_engineio ;;
        may (socket_connect nsp))).

Definition close : code :=
  Quiet ;; (* reconnect_condition_.notify_all() *)
  EachSnapshot BodyShutDown ;;
  Try (current_engineio ;; may Outside) Skip ;;
  may Raise.

Definition sync_close : code :=
  Try close Skip ;;
  Try Outside Skip ;; (* stop_reconnect_thread() *)
  Try (current_engineio ;; may Outside) Skip ;;
  EachSnapshot BodyWait ;;
  may Raise.

Definition opened : code := Locked Engine Library.
Definition get_sessionid : code := Locked Engine Library.

(** ** Entry points

    What an application thread, a thread of a session or a callback may call. *)
Inductive entry : Type :=
  | CConnect | CClose | CSyncClose | COpened | CGetSessionid | CSocket (nsp : bstr) | CSetHandler
  | HOpen | HClose | HError | HFrame (nsp : bstr) | TReconnect
  | SSetAuth (nsp : bstr) | SAuth (nsp : bstr) | SConnected (nsp : bstr)
  | SOn (nsp : bstr) | SOff (nsp : bstr) | SConnect (nsp : bstr) | SDisconnect (nsp : bstr)
  | SEmit (nsp : bstr) | SEmitAck (nsp : bstr) | SEmitTimed (nsp : bstr) | SSendAck (nsp : bstr)
  | SDispatchEvent (nsp : bstr) | SDispatchAck (nsp : bstr) | SMarkConnected (nsp : bstr) (connected : bool)
  | SCancelTimedAcks (nsp : bstr) | SWaitTimedAcks (nsp : bstr) | SResumeTimedAcks (nsp : bstr) (* by the client *)
  | TDeadlines (nsp : bstr).

Definition entry_code (e : entry) : code :=
  match e with
  | CConnect => connect
  | CClose => close
  | CSyncClose => sync_close
  | COpened => opened
  | CGetSessionid => get_sessionid
  | CSocket nsp => get_socket nsp
  | CSetHandler => set_handler
  | HOpen => handle_engineio_open
  | HClose => handle_engineio_close
  | HError => handle_engineio_error
  | HFrame nsp => handle_engineio_frame nsp
  | TReconnect => reconnect_worker
  | SSetAuth nsp => set_auth nsp
  | SAuth nsp => auth nsp
  | SConnected nsp => is_connected nsp
  | SOn nsp => set_listener nsp
  | SOff nsp => off nsp
  | SConnect nsp => socket_connect nsp
  | SDisconnect nsp => socket_disconnect nsp
  | SEmit nsp => emit nsp
  | SEmitAck nsp => emit_ack nsp
  | SEmitTimed nsp => emit_timed nsp
  | SSendAck _ => send_ack
  | SDispatchEvent nsp => dispatch_event nsp
  | SDispatchAck nsp => dispatch_ack nsp
  | SMarkConnected nsp connected => mark_connected nsp connected
  | SCancelTimedAcks nsp => cancel_timed_acks nsp
  | SWaitTimedAcks nsp => wait_for_timed_acks nsp
  | SResumeTimedAcks nsp => resume_timed_acks nsp
  | TDeadlines nsp => deadline_worker nsp
  end.

(** ** Threads

    A thread is what it still has to do, the next first: code, the end of a critical
    section, the handler of a [try] block it is in, and [Caller] where code outside of the
    client has called one of the entry points. *)
Inductive item : Type :=
  | Do (c : code)
  | Unlock (m : mutex)
  | Catch (handler : code)
  | Caller.

Abbreviation thread := (list item).

Record locks : Type := mk_locks { namespaces : list bstr; threads : list thread }.

Definition holds (m : mutex) (t : thread) : Prop := Unlock m ∈ t.
Definition free (m : mutex) (ts : list thread) : Prop := Forall (fun t => ~ holds m t) ts.

#[export] Instance unlock_dec (m : mutex) (i : item) : Decision (Unlock m = i).
Proof. refine (match i with Unlock m' => cast_if (decide (m = m')) | _ => right _ end); congruence. Defined.
#[export] Instance holds_dec m t : Decision (holds m t).
Proof.
  unfold holds. induction t as [|i t IH]; [right; by intros ?%elem_of_nil|].
  destruct (decide (Unlock m = i)) as [E|E]; [left; rewrite E; left|].
  destruct IH as [IH|IH]; [left; by right|right]. intros [?|?]%elem_of_cons; done.
Defined.

(** The mutex some code asks for first, what it does with it and what afterwards. *)
Definition locking (nsps : list bstr) (c : code) : option (mutex * thread * thread) :=
  match c with
  | Locked m body => Some (m, [Do body], [])
  | EachSnapshot body => Some (Sockets, [], [Do (Each nsps body)])
  | _ => None
  end.

(** The rest of a thread when an exception leaves the code on top.  The caller outside
    of the client gets it, and may go on or not. *)
Fixpoint unwind (t : thread) : thread :=
  match t with
  | [] => []
  | Do _ :: t => unwind t
  | Unlock m :: t => Unlock m :: unwind t
  | Catch handler :: t => Do handler :: t
  | Caller :: _ => t
  end.

(** The steps that need no mutex. *)
Inductive thread_step (nsps : list bstr) : thread -> list bstr -> thread -> Prop :=
  | step_skip t : thread_step nsps (Do Skip :: t) nsps t
  | step_seq a b t : thread_step nsps (Do (a ;; b) :: t) nsps (Do a :: Do b :: t)
  | step_choose_left a b t : thread_step nsps (Do (Choose a b) :: t) nsps (Do a :: t)
  | step_choose_right a b t : thread_step nsps (Do (Choose a b) :: t) nsps (Do b :: t)
  | step_again c t : thread_step nsps (Do (Loop c) :: t) nsps (Do c :: Do (Loop c) :: t)
  | step_break c t : thread_step nsps (Do (Loop c) :: t) nsps t
  | step_try c h t : thread_step nsps (Do (Try c h) :: t) nsps (Do c :: Catch h :: t)
  | step_tried h t : thread_step nsps (Catch h :: t) nsps t
  | step_raise t : thread_step nsps (Do Raise :: t) nsps (unwind t)
  | step_quiet t : thread_step nsps (Do Quiet :: t) nsps t
  | step_library t : thread_step nsps (Do Library :: t) nsps t
  | step_library_throws t : thread_step nsps (Do Library :: t) nsps (unwind t)
  | step_outside t : thread_step nsps (Do Outside :: t) nsps t
  | step_outside_throws t : thread_step nsps (Do Outside :: t) nsps (unwind t)
  | step_if nsp a b t :
      thread_step nsps (Do (IfSocket nsp a b) :: t) nsps (Do (if decide (nsp ∈ nsps) then a else b) :: t)
  | step_add nsp t : thread_step nsps (Do (AddSocket nsp) :: t) (insert_nsp nsp nsps) t
  | step_each body t : thread_step nsps (Do (EachSocket body) :: t) nsps (Do (Each nsps body) :: t)
  | step_next nsp rest body t :
      thread_step nsps (Do (Each (nsp :: rest) body) :: t) nsps (Do (socket_code body nsp) :: Do (Each rest body) :: t)
  | step_last body t : thread_step nsps (Do (Each [] body) :: t) nsps t
  | step_unlock m t : thread_step nsps (Unlock m :: t) nsps t
  | step_return t : thread_step nsps (Caller :: t) nsps t.

(** A step without a new call or thread. *)
Inductive own_step : locks -> locks -> Prop :=
  | own_local s i t nsps' t' :
      threads s !! i = Some t -> thread_step (namespaces s) t nsps' t' ->
      own_step s (mk_locks nsps' (<[i := t']> (threads s)))
  | own_lock s i c t m body after :
      threads s !! i = Some (Do c :: t) -> locking (namespaces s) c = Some (m, body, after) ->
      free m (threads s) ->
      own_step s (mk_locks (namespaces s) (<[i := body ++ Unlock m :: after ++ t]> (threads s))).

Inductive lock_step : locks -> locks -> Prop :=
  | lock_own s s' : own_step s s' -> lock_step s s'
  | lock_call s i t e :
      threads s !! i = Some (Do Outside :: t) ->
      lock_step s (mk_locks (namespaces s) (<[i := Do (entry_code e) :: Caller :: Do Outside :: t]> (threads s)))
  | lock_spawn s : lock_step s (mk_locks (namespaces s) (threads s ++ [[Do Outside]])).

(** A client without sockets and threads. *)
Definition no_threads : locks := mk_locks [] [].
Definition locks_reachable (s : locks) : Prop := rtc lock_step no_threads s.
