(* ===== verification/ClientLocksSpec.v ===== *)
(** * The mutexes of the client: order and progress

    Each entry point takes the mutexes in the order of their ranks, as long as a call
    from within a critical section does not come back into the client.  Then whoever waits
    for a mutex can get it. *)

From S2P Require Export ClientLocks.
From stdpp Require Import options.
#[local] Set Default Proof Using "Type*".
Local Open Scope nat_scope.
Local Open Scope code_scope.

(** ** The lock order

    [ok r c]: the mutexes that [c] takes have at least the rank [r], and more within the
    critical section of another. *)
Inductive ok : nat -> code -> Prop :=
  | ok_skip r : ok r Skip
  | ok_seq r a b : ok r a -> ok r b -> ok r (a ;; b)
  | ok_locked r m body : r <= rank m -> ok (S (rank m)) body -> ok r (Locked m body)
  | ok_choose r a b : ok r a -> ok r b -> ok r (Choose a b)
  | ok_loop r body : ok r body -> ok r (Loop body)
  | ok_try r body handler : ok r body -> ok r handler -> ok r (Try body handler)
  | ok_raise r : ok r Raise
  | ok_quiet r : ok r Quiet
  | ok_library r : ok r Library
  | ok_outside r : ok r Outside
  | ok_if r nsp a b : ok r a -> ok r b -> ok r (IfSocket nsp a b)
  | ok_add r nsp : ok r (AddSocket nsp)
  | ok_each_socket r body : (forall nsp, ok r (socket_code body nsp)) -> ok r (EachSocket body)
  | ok_snapshot r body : r <= rank Sockets -> (forall nsp, ok r (socket_code body nsp)) -> ok r (EachSnapshot body)
  | ok_each r nsps body : (forall nsp, ok r (socket_code body nsp)) -> ok r (Each nsps body).

Create HintDb locks.
#[export] Hint Constructors ok : locks.
Ltac lock_order := repeat first [done | progress intros | (cbn; lia) | constructor].

Lemma entry_ok e : ok 0 (entry_code e).
Proof. destruct e; try destruct connected; lock_order. Qed.

(** ** What threads hold *)

(** The least rank a thread may take next, with what it has locked since it was last called. *)
Fixpoint level (t : thread) : nat :=
  match t with
  | [] | Caller :: _ => 0
  | Unlock m :: _ => S (rank m)
  | _ :: t => level t
  end.

Fixpoint well_ordered (t : thread) : Prop :=
  match t with
  | [] => True
  | Do c :: t => ok (level t) c /\ well_ordered t
  | Catch handler :: t => ok (level t) handler /\ well_ordered t
  | Unlock m :: t => level t <= rank m /\ well_ordered t
  | Caller :: t => well_ordered t
  end.

(** No call is made from within a critical section. *)
Fixpoint not_reentered (t : thread) : Prop :=
  match t with
  | [] => True
  | Caller :: t => (forall m, ~ holds m t) /\ not_reentered t
  | _ :: t => not_reentered t
  end.

Definition exclusive (ts : list thread) : Prop :=
  forall m i j t u, ts !! i = Some t -> ts !! j = Some u -> holds m t -> holds m u -> i = j.

Record ordered (s : locks) : Prop := mk_ordered {
  or_order : Forall well_ordered (threads s);
  or_exclusive : exclusive (threads s);
}.

Lemma holds_cons m i t : holds m (i :: t) <-> Unlock m = i \/ holds m t.
Proof. apply elem_of_cons. Qed.
Lemma holds_app m t u : holds m (t ++ u) <-> holds m t \/ holds m u.
Proof. apply elem_of_app. Qed.

Lemma held_below_level t m : well_ordered t -> not_reentered t -> holds m t -> rank m < level t.
Proof.
  induction t as [|[c|m'|h|] t IH]; cbn; rewrite ?holds_cons; [by intros _ _ ?%elem_of_nil|..].
  - intros [_ ?] ? [|?]; [done|auto].
  - intros [Hl ?] ? [[= ->]|Hm]; [lia|]. specialize (IH ltac:(done) ltac:(done) Hm). lia.
  - intros [_ ?] ? [|?]; [done|auto].
  - intros _ [Hn _] [|?%Hn]; done.
Qed.

Lemma level_unwind t : level (unwind t) = level t.
Proof. by induction t as [|[] t IH]. Qed.
Lemma holds_unwind m t : holds m (unwind t) <-> holds m t.
Proof. induction t as [|[] t IH]; cbn; rewrite ?holds_cons, ?IH; naive_solver. Qed.
Lemma well_ordered_unwind t : well_ordered t -> well_ordered (unwind t).
Proof. induction t as [|[] t IH]; cbn; rewrite ?level_unwind; naive_solver. Qed.
Lemma not_reentered_unwind t : not_reentered t -> not_reentered (unwind t).
Proof. induction t as [|[] t IH]; cbn; auto. Qed.
#[export] Hint Resolve well_ordered_unwind not_reentered_unwind : locks.

Lemma step_holds nsps t nsps' t' m : thread_step nsps t nsps' t' -> holds m t' -> holds m t.
Proof. destruct 1; rewrite ?holds_cons, ?holds_unwind; naive_solver. Qed.

Lemma step_well_ordered nsps t nsps' t' : thread_step nsps t nsps' t' -> well_ordered t -> well_ordered t'.
Proof. destruct 1; cbn; intros; inv_hyps; auto with locks; try (by repeat case_decide); match goal with H : ok _ _ |- _ => inversion H; subst end; try case_decide; auto with locks. Qed.

Lemma step_not_reentered nsps t nsps' t' : thread_step nsps t nsps' t' -> not_reentered t -> not_reentered t'.
Proof. destruct 1; cbn; intros; inv_hyps; auto with locks. Qed.

(** ** The invariant *)

Lemma Forall_insert_thread (Q : thread -> Prop) ts i t : Forall Q ts -> Q t -> Forall Q (<[i := t]> ts).
Proof. intros. by apply Forall_insert. Qed.

Lemma thread_at {ts : list thread} {i t} (Q : thread -> Prop) : Forall Q ts -> ts !! i = Some t -> Q t.
Proof. rewrite Forall_lookup. eauto. Qed.

(** A thread that holds nothing new, or one mutex that was free. *)
Lemma exclusive_insert ts i t t' :
  exclusive ts -> ts !! i = Some t -> (forall m, holds m t' -> holds m t \/ free m ts) -> exclusive (<[i := t']> ts).
Proof.
  intros Hx Ei Hh m j k u v Ej Ek Hu Hv.
  assert (Hother : forall n w, n <> i -> ts !! n = Some w -> holds m w -> holds m t' -> False).
  { intros n w Hn En Hw Ht. destruct (Hh m Ht) as [Ht0|Hf]; [exact (Hn (Hx m n i w t En Ei Hw Ht0))|].
    exact (thread_at _ Hf En Hw). }
  rewrite list_lookup_insert in Ej, Ek. repeat case_decide; inv_hyps; eauto; exfalso; [apply (Hother k v)|apply (Hother j u)]; naive_solver.
Qed.

Lemma locking_holds nsps c m body after m' t :
  locking nsps c = Some (m, body, after) -> holds m' (body ++ Unlock m :: after ++ t) -> m' = m \/ holds m' t.
Proof. destruct c; intros [= <- <- <-]; cbn; rewrite ?holds_cons; naive_solver. Qed.

Lemma locking_ordered nsps c m body after t :
  locking nsps c = Some (m, body, after) -> well_ordered (Do c :: t) ->
  level t <= rank m /\ well_ordered (body ++ Unlock m :: after ++ t).
Proof. destruct c; intros [= <- <- <-]; cbn; intros [Hok Ht]; inversion Hok; subst; auto with locks. Qed.

Lemma locking_not_reentered nsps c m body after t :
  locking nsps c = Some (m, body, after) -> not_reentered t -> not_reentered (body ++ Unlock m :: after ++ t).
Proof. by destruct c; intros [= <- <- <-]. Qed.

Lemma own_step_ordered s s' : own_step s s' -> ordered s -> ordered s'.
Proof.
  intros [s0 i t nsps' t' Ei Hs|s0 i c t m body after Ei El Hf] [Ho Hx]; split; cbn.
  - eapply Forall_insert_thread, step_well_ordered, (thread_at _ Ho Ei); done.
  - eapply exclusive_insert; [done..|]. intros m Hm. left. eapply step_holds; eauto.
  - eapply Forall_insert_thread, locking_ordered, (thread_at _ Ho Ei); done.
  - eapply exclusive_insert; [done..|]. intros m' Hm. destruct (locking_holds _ _ _ _ _ _ _ El Hm) as [->|?]; [by right|].
    left. by right.
Qed.

Lemma lock_step_ordered s s' : lock_step s s' -> ordered s -> ordered s'.
Proof.
  intros [s0 s1 H|s0 i t e Ei|s0] Ho; [by eapply own_step_ordered|..]; destruct Ho as [Ho Hx]; split; cbn.
  - apply Forall_insert_thread; [done|]. pose proof (thread_at _ Ho Ei) as Ht. cbn in *. auto using entry_ok.
  - eapply exclusive_insert; [done..|]. intros m. rewrite !holds_cons. naive_solver.
  - apply Forall_app. repeat constructor; done.
  - assert (Hn : forall j t m, (threads s0 ++ [[Do Outside]]) !! j = Some t -> holds m t -> threads s0 !! j = Some t).
    { intros j t m [?|[_ E]]%lookup_app_Some; [done|]. destruct (j - _); [|done]. injection E as <-.
      rewrite holds_cons. by intros [|?%elem_of_nil]. }
    intros m i j t u Ei Ej Ht Hu. eapply Hx; eauto.
Qed.

Lemma locks_ordered s : locks_reachable s -> ordered s.
Proof.
  intros Hs. apply (invariant_rtc lock_step ordered no_threads); [|exact lock_step_ordered|done].
  split; [constructor|]. by intros ??? ???.
Qed.

(** Threads that came to no callback from within a critical section. *)
Definition calm (s : locks) : Prop := Forall not_reentered (threads s).

Lemma own_step_calm s s' : own_step s s' -> calm s -> calm s'.
Proof.
  unfold calm. intros [s0 i t nsps' t' Ei Hs|s0 i c t m body after Ei El Hf] Hc; cbn.
  - eapply Forall_insert_thread, step_not_reentered, (thread_at _ Hc Ei); done.
  - eapply Forall_insert_thread, locking_not_reentered; [done..|]. exact (thread_at _ Hc Ei).
Qed.

(** ** Progress *)

Definition settled_state (s : locks) : Prop := ordered s /\ calm s.

Lemma own_steps_settled s s' : rtc own_step s s' -> settled_state s -> settled_state s'.
Proof. intros Hr [Ho Hc]. split; eapply (invariant_rtc own_step); eauto using own_step_ordered, own_step_calm. Qed.

(** Every mutex of the thread has a lower rank. *)
Definition low (r : nat) (t : thread) : Prop := forall m, holds m t -> rank m < r.

Lemma low_mono r r' t : low r t -> r <= r' -> low r' t.
Proof. intros Hl Hr m Hm. specialize (Hl m Hm). lia. Qed.

(** The threads of low rank, but for [but], stand where they stood. *)
Definition keeps (r : nat) (but : nat -> Prop) (s s' : locks) : Prop :=
  forall j u, ~ but j -> threads s !! j = Some u -> low r u -> threads s' !! j = Some u.

Lemma keeps_trans r but s1 s2 s3 : keeps r but s1 s2 -> keeps r but s2 s3 -> keeps r but s1 s3.
Proof. intros H1 H2 j u Hj Ej Hu. eauto. Qed.

Lemma keeps_mono r r' but but' s s' : r <= r' -> (forall j, but j -> but' j) -> keeps r' but s s' -> keeps r but' s s'.
Proof. intros Hr Hb Hk j u Hj Ej Hu. apply Hk; eauto using low_mono. Qed.

(** A thread that stands at [t] can be brought to one of [Q]. *)
Definition brings (r : nat) (t : thread) (Q : thread -> Prop) : Prop := forall s i,
  settled_state s -> threads s !! i = Some t ->
  exists s' t', rtc own_step s s' /\ settled_state s' /\ threads s' !! i = Some t' /\ Q t' /\ keeps r (.= i) s s'.

Lemma brings_here r t (Q : thread -> Prop) : Q t -> brings r t Q.
Proof. intros HQ s i Hs Ei. exists s, t. split_and!; auto; [constructor|by intros ???]. Qed.

Lemma brings_trans r t (Q R : thread -> Prop) : brings r t Q -> (forall u, Q u -> brings r u R) -> brings r t R.
Proof.
  intros H1 H2 s i Hs Ei. destruct (H1 s i Hs Ei) as (s1 & u & Hr1 & Hs1 & Ei1 & Hu & Hk1).
  destruct (H2 u Hu s1 i Hs1 Ei1) as (s2 & v & Hr2 & Hs2 & Ei2 & Hv & Hk2).
  exists s2, v. split_and!; auto; [by etrans|by eapply keeps_trans].
Qed.

Lemma brings_own r s i t s' :
  settled_state s -> threads s !! i = Some t -> own_step s s' -> (forall j, j <> i -> threads s' !! j = threads s !! j) ->
  settled_state s' /\ keeps r (.= i) s s'.
Proof.
  intros Hs Ei Hst Hj. split; [eapply own_steps_settled; [by apply rtc_once|done]|]. intros j u Hn Ej _. by rewrite Hj.
Qed.

Lemma brings_step r t (Q : thread -> Prop) :
  (forall nsps, exists nsps' t', thread_step nsps t nsps' t' /\ brings r t' Q) -> brings r t Q.
Proof.
  intros H s i Hs Ei. destruct (H (namespaces s)) as (nsps' & t' & Hst & Hb).
  set (s1 := mk_locks nsps' (<[i := t']> (threads s))).
  assert (H1 : own_step s s1) by by eapply own_local.
  destruct (brings_own r s i t s1 Hs Ei H1) as [Hs1 Hk1]; [intros; by apply list_lookup_insert_ne|].
  destruct (Hb s1 i Hs1) as (s2 & u & Hr & Hs2 & Ei2 & Hu & Hk2); [by apply list_lookup_insert_eq, (lookup_lt_Some _ _ t)|].
  exists s2, u. split_and!; auto; [by eapply rtc_l|by eapply keeps_trans].
Qed.

(** The mutex can come free while the threads of low rank stand still. *)
Definition comes_free (m : mutex) : Prop := forall s,
  settled_state s -> exists s', rtc own_step s s' /\ settled_state s' /\ free m (threads s') /\ keeps (rank m) (fun _ => False) s s'.

Lemma waiting_low s i c t m body after :
  settled_state s -> threads s !! i = Some (Do c :: t) -> locking (namespaces s) c = Some (m, body, after) -> low (rank m) (Do c :: t).
Proof.
  intros [[Ho _] Hc] Ei El m' [E|Hm]%holds_cons; [done|].
  destruct (locking_ordered _ _ _ _ _ _ El (thread_at _ Ho Ei)) as [Hl _].
  pose proof (thread_at _ Ho Ei) as [_ Ht]. pose proof (thread_at _ Hc Ei) as Hn.
  pose proof (held_below_level t m' Ht Hn Hm). lia.
Qed.

(** Code that asks for a mutex gets it, at the namespaces of that moment. *)
Lemma brings_lock r t c m (Q : thread -> Prop) :
  (forall nsps, exists body after, locking nsps c = Some (m, body, after) /\ brings r (body ++ Unlock m :: after ++ t) Q) ->
  r <= rank m -> comes_free m -> brings r (Do c :: t) Q.
Proof.
  intros H Hr Hm s i Hs Ei. destruct (Hm s Hs) as (s1 & Hr1 & Hs1 & Hf & Hk1).
  destruct (H (namespaces s)) as (body0 & after0 & El0 & _).
  assert (Ei1 : threads s1 !! i = Some (Do c :: t))
    by exact (Hk1 i _ (fun F => F) Ei (waiting_low s i c t m _ _ Hs Ei El0)).
  destruct (H (namespaces s1)) as (body & after & El & Hb).
  set (s2 := mk_locks (namespaces s1) (<[i := body ++ Unlock m :: after ++ t]> (threads s1))).
  assert (H2 : own_step s1 s2) by by eapply own_lock.
  destruct (brings_own r s1 i _ s2 Hs1 Ei1 H2) as [Hs2 Hk2]; [intros; by apply list_lookup_insert_ne|].
  destruct (Hb s2 i Hs2) as (s3 & u & Hr3 & Hs3 & Ei3 & Hu & Hk3); [by eapply list_lookup_insert_eq, lookup_lt_Some|].
  exists s3, u. split_and!; auto; [etrans; [done|by eapply rtc_l]|].
  eapply keeps_trans; [eapply (keeps_mono r (rank m)); [done| |exact Hk1]; done|by eapply keeps_trans].
Qed.

(** Code that has run to its end or has thrown. *)
Definition finished (t t' : thread) : Prop := t' = t \/ t' = unwind t.

Section drain.
Context (r : nat) (Hfree : forall m, r <= rank m -> comes_free m).

Local Ltac step := apply brings_step; intros; do 2 eexists; split; [constructor|].

Lemma brings_then c t (Q : thread -> Prop) :
  brings r (Do c :: t) (finished t) -> brings r t Q -> brings r (unwind t) Q -> brings r (Do c :: t) Q.
Proof. intros H1 H2 H3. eapply brings_trans; [exact H1|]. by intros ? [-> | ->]. Qed.

Lemma brings_unwind_idem t : brings r (unwind t) (finished t).
Proof. apply brings_here. by right. Qed.
Lemma brings_end t : brings r t (finished t).
Proof. apply brings_here. by left. Qed.
#[local] Hint Resolve brings_unwind_idem brings_end : locks.

(** The end of a critical section. *)
Lemma brings_leave m t :
  brings r (Unlock m :: t) (finished t) /\ brings r (unwind (Unlock m :: t)) (finished t).
Proof. cbn. split; step; auto with locks. Qed.

Lemma each_drains nsps body t :
  (forall nsp t, brings r (Do (socket_code body nsp) :: t) (finished t)) -> brings r (Do (Each nsps body) :: t) (finished t).
Proof.
  intros H. induction nsps as [|nsp nsps IH]; step; [auto with locks|]. apply brings_then; cbn [unwind]; auto with locks.
Qed.

(** Code that keeps the order comes to its end. *)
Lemma code_drains r' c : ok r' c -> r <= r' -> forall t, brings r (Do c :: t) (finished t).
Proof.
  induction 1 as [| r' a b _ IHa _ IHb|r' m body Hm _ IH| r' a b _ IHa _ _| |r' body handler _ IH _ IHh| | | | |r' nsp a b _ IHa _ IHb|
    |r' body _ IH|r' body Hm _ IH|r' nsps body _ IH]; intros Hr t; try (step; solve [auto with locks]).
  - step. apply brings_then; cbn [unwind]; auto with locks.
  - destruct (brings_leave m t). apply (brings_lock _ _ _ m); [|lia|apply Hfree; lia]. intros nsps.
    do 2 eexists. split; [done|]. apply brings_then; [apply IH; lia|done|done].
  - step. apply brings_then; [auto|step; auto with locks|]. cbn. auto.
  - step. case_decide; auto.
  - step. by apply each_drains; auto.
  - apply (brings_lock _ _ _ Sockets); [|lia|apply Hfree; lia]. intros nsps. do 2 eexists. split; [done|].
    cbn [app]. step. by apply each_drains; auto.
  - by apply each_drains; auto.
Qed.
End drain.

(** ** Critical sections end *)

Lemma brings_settled r t Q : (well_ordered t -> not_reentered t -> brings r t Q) -> brings r t Q.
Proof. intros H s i Hs Ei. apply H; [| |done..]; [exact (thread_at _ (or_order s (proj1 Hs)) Ei)|exact (thread_at _ (proj2 Hs) Ei)]. Qed.

(** An exception does not skip the end of a critical section. *)
Lemma unwind_inside m above below :
  Caller ∉ above -> exists above' below', unwind (above ++ Unlock m :: below) = above' ++ Unlock m :: below' /\
    Caller ∉ above' /\ length above' <= length above.
Proof.
  induction above as [|[c|m'|h|] above IH]; cbn; intros Hn.
  - exists [], (unwind below). split_and!; auto with lia.
  - destruct IH as (a & b & -> & ? & ?); [set_solver|]. exists a, b. auto with lia.
  - destruct IH as (a & b & -> & ? & ?); [set_solver|]. exists (Unlock m' :: a), b. cbn. split_and!; [done|set_solver|lia].
  - exists (Do h :: above), below. split_and!; [done|set_solver|done].
  - set_solver.
Qed.

Definition at_unlock (m : mutex) (t : thread) : Prop := exists below, t = Unlock m :: below.

(** The code inside a critical section comes to the end of it. *)
Lemma section_ends m above below :
  (forall m', S (rank m) <= rank m' -> comes_free m') -> Caller ∉ above ->
  brings (S (rank m)) (above ++ Unlock m :: below) (at_unlock m).
Proof.
  intros Hfree. remember (length above) as n eqn:En. assert (Hn : length above <= n) by lia. clear En.
  revert above below Hn. induction n as [|n IH]; intros above below Hlen Hcaller.
  - destruct above; [|cbn in Hlen; lia]. apply brings_here. by eexists.
  - destruct above as [|[c|m'|h|] above]; cbn in Hlen.
    + apply brings_here. by eexists.
    + assert (Caller ∉ above) as Ha by set_solver. apply brings_settled. cbn. intros [Hok Hwo] Hnr.
      assert (Hm : rank m < level (above ++ Unlock m :: below)).
      { apply held_below_level; auto. apply holds_app. right. apply holds_cons. by left. }
      eapply brings_trans; [eapply code_drains; [done..|lia]|]. intros ? [-> | ->]; [apply IH; [lia|done]|].
      destruct (unwind_inside m above below Ha) as (a & b & -> & ? & ?). apply IH; [lia|done].
    + apply brings_step. intros. do 2 eexists. split; [constructor|]. apply IH; [lia|set_solver].
    + apply brings_step. intros. do 2 eexists. split; [constructor|]. apply IH; [lia|set_solver].
    + set_solver.
Qed.

Lemma calm_section m t : not_reentered t -> holds m t -> exists above below, t = above ++ Unlock m :: below /\ Caller ∉ above.
Proof.
  induction t as [|[c|m'|h|] t IH]; cbn; [by intros _ ?%elem_of_nil|..]; intros Hn [E|Hm]%holds_cons; try done.
  - destruct IH as (a & b & -> & ?); [done..|]. exists (Do c :: a), b. split; [done|set_solver].
  - injection E as ->. exists [], t. split; [done|set_solver].
  - destruct IH as (a & b & -> & ?); [done..|]. exists (Unlock m' :: a), b. split; [done|set_solver].
  - destruct IH as (a & b & -> & ?); [done..|]. exists (Catch h :: a), b. split; [done|set_solver].
  - destruct Hn as [Hn _]. by destruct (Hn m).
Qed.

Lemma leaving_frees s j m below :
  settled_state s -> threads s !! j = Some (Unlock m :: below) -> free m (<[j := below]> (threads s)).
Proof.
  intros [[Ho Hx] Hc] Ej. apply Forall_lookup. intros k u Ek Hu. rewrite list_lookup_insert in Ek. case_decide.
  - injection Ek as <-. destruct (thread_at _ Ho Ej) as [Hl Hw]. pose proof (held_below_level below m Hw (thread_at _ Hc Ej) Hu). lia.
  - assert (j = k) as ->; [|by destruct H; eauto using lookup_lt_Some]. eapply (Hx m); [done..| |done]. apply holds_cons. by left.
Qed.

Lemma mutex_comes_free m : comes_free m.
Proof.
  remember (5 - rank m) as n eqn:En. assert (Hn : 5 - rank m <= n) by lia. clear En.
  assert (rank m <= 5) by (destruct m; cbn; lia).
  revert m Hn H. induction n as [n IH] using lt_wf_ind. intros m Hn Hm s Hs.
  destruct (decide (free m (threads s))) as [Hf|Hf].
  { exists s. split_and!; [constructor|done|done|by intros ???]. }
  apply not_Forall_Exists, Exists_exists in Hf as (u & Hin & Hu); [|intros ?; apply _].
  apply list_elem_of_lookup in Hin as [j Ej]. apply dec_stable in Hu.
  destruct (calm_section m u (thread_at _ (proj2 Hs) Ej) Hu) as (above & below & -> & Ha).
  assert (Hhigher : forall m', S (rank m) <= rank m' -> comes_free m').
  { intros m' Hm'. assert (rank m' <= 5) by (destruct m'; cbn; lia). apply (IH (5 - rank m')); lia. }
  destruct (section_ends m above below Hhigher Ha s j Hs Ej) as (s1 & t1 & Hr1 & Hs1 & Ej1 & [b ->] & Hk1).
  set (s2 := mk_locks (namespaces s1) (<[j := b]> (threads s1))).
  assert (H2 : own_step s1 s2) by by eapply own_local; [|constructor].
  exists s2. split_and!; [by eapply rtc_r|eapply own_steps_settled; [by apply rtc_once|done]|by apply leaving_frees|].
  intros k v _ Ek Hv. assert (k <> j) as Hkj.
  { intros ->. rewrite Ej in Ek. injection Ek as <-. specialize (Hv m Hu). lia. }
  cbn. rewrite list_lookup_insert_ne by done. apply Hk1; [done..|]. eapply low_mono; [done|lia].
Qed.

(** [C36] No deadlock of the mutexes of the client: as long as no thread has called the client
    again from a callback that the client runs inside a critical section, whatever the
    threads are doing, each thread that asks for a mutex can get it: those that hold it
    come to the end of their critical sections by themselves, when what they call there
    comes back. *)
Theorem lock_granted (s : locks) (i : nat) (c : code) (t : thread) (m : mutex) (body after : thread) :
  locks_reachable s -> calm s ->
  threads s !! i = Some (Do c :: t) -> locking (namespaces s) c = Some (m, body, after) ->
  exists s' body' after', rtc own_step s s' /\ locking (namespaces s') c = Some (m, body', after') /\
    threads s' !! i = Some (body' ++ Unlock m :: after' ++ t).
Proof.
  intros Hr Hc Ei El. assert (Hs : settled_state s) by (split; [by apply locks_ordered|done]).
  destruct (mutex_comes_free m s Hs) as (s' & Hr' & Hs' & Hf & Hk).
  assert (Ei' : threads s' !! i = Some (Do c :: t)) by exact (Hk i _ (fun F => F) Ei (waiting_low s i c t m _ _ Hs Ei El)).
  assert (exists b a, locking (namespaces s') c = Some (m, b, a)) as (b & a & El') by (destruct c; naive_solver).
  eexists (mk_locks _ _), b, a. split_and!; [eapply rtc_r; [done|by eapply own_lock]|done|].
  by eapply list_lookup_insert_eq, lookup_lt_Some.
Qed.

(** ** Calls from within a critical section

    [hangs m base t]: the thread has the mutex [m] to give back after [base], it is going to
    ask for it before that, and nothing it does on the way can fail or call back. *)
Inductive hangs (m : mutex) (base : thread) : thread -> Prop :=
  | hangs_here c above :
      (forall nsps, exists body after, locking nsps c = Some (m, body, after)) -> hangs m base (Do c :: above ++ base)
  | hangs_next c above :
      (forall nsps, locking nsps c = None) -> c <> Outside ->
      (forall nsps nsps' t, thread_step nsps (Do c :: above ++ base) nsps' t -> hangs m base t) ->
      hangs m base (Do c :: above ++ base).

Lemma hangs_base m base t : hangs m base t -> exists above, t = above ++ base.
Proof. intros []; by exists (Do c :: above). Qed.

Lemma hangs_step m base s s' i t :
  holds m base -> lock_step s s' -> threads s !! i = Some t -> hangs m base t ->
  exists t', threads s' !! i = Some t' /\ hangs m base t'.
Proof.
  intros Hm Hst Ei Ht. assert (Hf : ~ free m (threads s)).
  { destruct (hangs_base m base t Ht) as [above ->]. intros Hf. apply (thread_at _ Hf Ei), holds_app. by right. }
  assert (Hsame : threads s' !! i = Some t -> exists t', threads s' !! i = Some t' /\ hangs m base t') by eauto.
  pose proof (lookup_lt_Some _ _ _ Ei).
  destruct Hst as [s0 s1 [s2 j u nsps' u' Ej Hs|s2 j c' u m' b a Ej El' Hf']|s0 j u e Ej|s0]; cbn in *;
    try (apply Hsame, lookup_app_l_Some; done);
    (destruct (decide (j = i)) as [->|]; [|by apply Hsame; rewrite list_lookup_insert_ne]);
    rewrite Ei in Ej; injection Ej as ->; rewrite list_lookup_insert_eq by done; inversion Ht as [c above Hc|c above Hc Ho Hn]; subst.
  - destruct (Hc (namespaces s2)) as (? & ? & El). inversion Hs; subst; discriminate El.
  - eauto.
  - destruct (Hc (namespaces s2)) as (? & ? & El). congruence.
  - by rewrite Hc in El'.
  - destruct (Hc []) as (? & ? & El). discriminate El.
  - done.
Qed.

Lemma hangs_forever m base s i t :
  holds m base -> threads s !! i = Some t -> hangs m base t ->
  forall s', rtc lock_step s s' -> ~ free m (threads s') /\ exists above, threads s' !! i = Some (above ++ base).
Proof.
  intros Hm Ei Ht s' Hr.
  assert (exists t', threads s' !! i = Some t' /\ hangs m base t') as (t' & Ei' & Ht').
  { refine (invariant_rtc lock_step (fun x => exists t', threads x !! i = Some t' /\ hangs m base t') s _ _ s' Hr); [by eauto|].
    intros x y Hst (u & Eu & Hu). by eapply hangs_step. }
  destruct (hangs_base m base t' Ht') as [above ->]. split; [|by eauto].
  intros Hf. apply (thread_at _ Hf Ei'), holds_app. by right.
Qed.
