(* ===== verification/ClientLocksDemo.v ===== *)
(** * The mutexes of the client: runs

    An executable scheduler for the threads of ClientLocks.v, a state with contention,
    and the callbacks that call the client from within a critical section. *)

From S2P Require Export ClientLocksSpec.
From stdpp Require Import options.
Local Open Scope nat_scope.
Local Open Scope code_scope.

(** ** A scheduler *)

(** The next step that needs no mutex; [first] decides where there are two. *)
Definition next_step (first : bool) (nsps : list bstr) (t : thread) : option (list bstr * thread) :=
  match t with
  | [] => None
  | Unlock _ :: t | Catch _ :: t | Caller :: t => Some (nsps, t)
  | Do c :: t =>
      match c with
      | Skip => Some (nsps, t)
      | Seq a b => Some (nsps, Do a :: Do b :: t)
      | Choose a b => Some (nsps, Do (if first then a else b) :: t)
      | Loop body => Some (nsps, if first then Do body :: Do (Loop body) :: t else t)
      | Try body handler => Some (nsps, Do body :: Catch handler :: t)
      | Raise => Some (nsps, unwind t)
      | Quiet => Some (nsps, t)
      | Library | Outside => Some (nsps, if first then t else unwind t)
      | IfSocket nsp a b => Some (nsps, Do (if decide (nsp ∈ nsps) then a else b) :: t)
      | AddSocket nsp => Some (insert_nsp nsp nsps, t)
      | EachSocket body => Some (nsps, Do (Each nsps body) :: t)
      | Each (nsp :: rest) body => Some (nsps, Do (socket_code body nsp) :: Do (Each rest body) :: t)
      | Each [] _ => Some (nsps, t)
      | Locked _ _ | EachSnapshot _ => None
      end
  end.

Lemma next_step_sound first nsps t nsps' t' : next_step first nsps t = Some (nsps', t') -> thread_step nsps t nsps' t'.
Proof.
  destruct t as [|[c| | |] t]; cbn; [done| |by intros [= <- <-]; constructor..].
  destruct c, first; try done; try (by intros [= <- <-]; constructor); destruct nsps0; intros [= <- <-]; constructor.
Qed.

Inductive command : Type := Go (i : nat) (first : bool) | Enter (i : nat) (e : entry) | Spawn.

#[export] Instance free_dec m ts : Decision (free m ts).
Proof. apply Forall_dec. intros t. apply _. Defined.

Definition obey (k : command) (s : locks) : option locks :=
  match k with
  | Spawn => Some (mk_locks (namespaces s) (threads s ++ [[Do Outside]]))
  | Enter i e =>
      match threads s !! i with
      | Some (Do Outside :: t) =>
          Some (mk_locks (namespaces s) (<[i := Do (entry_code e) :: Caller :: Do Outside :: t]> (threads s)))
      | _ => None
      end
  | Go i first =>
      t ← threads s !! i;
      match t with
      | Do c :: t' =>
          match locking (namespaces s) c with
          | Some (m, body, after) =>
              if decide (free m (threads s))
              then Some (mk_locks (namespaces s) (<[i := body ++ Unlock m :: after ++ t']> (threads s)))
              else None
          | None => r ← next_step first (namespaces s) t; Some (mk_locks r.1 (<[i := r.2]> (threads s)))
          end
      | _ => r ← next_step first (namespaces s) t; Some (mk_locks r.1 (<[i := r.2]> (threads s)))
      end
  end.

Fixpoint obey_all (ks : list command) (s : locks) : option locks :=
  match ks with [] => Some s | k :: ks => s' ← obey k s; obey_all ks s' end.

Lemma obey_sound k s s' : obey k s = Some s' -> lock_step s s'.
Proof.
  destruct k as [i first|i e|]; cbn.
  - destruct (threads s !! i) as [t|] eqn:Ei; cbn; [|done].
    assert (Hl : (r ← next_step first (namespaces s) t; Some (mk_locks r.1 (<[i := r.2]> (threads s)))) = Some s' -> lock_step s s').
    { destruct (next_step _ _ _) as [[nsps' t']|] eqn:E; [|done]. intros [= <-]. apply lock_own.
      eapply own_local; [done|by eapply next_step_sound]. }
    destruct t as [|[c| | |] t]; auto. destruct (locking _ c) as [[[m body] after]|] eqn:El; [|done].
    case_decide; [|done]. intros [= <-]. by eapply lock_own, own_lock.
  - destruct (threads s !! i) as [[|[[]| | |] t]|] eqn:Ei; intros [= <-]. by apply lock_call.
  - intros [= <-]. apply lock_spawn.
Qed.

Lemma obey_all_sound ks s s' : obey_all ks s = Some s' -> rtc lock_step s s'.
Proof.
  revert s. induction ks as [|k ks IH]; cbn; intros s; [intros [= <-]; constructor|].
  destruct (obey k s) as [s1|] eqn:E; [|done]. cbn. intros. eapply rtc_l; [by eapply obey_sound|auto].
Qed.

Lemma obeyed_reachable ks s : obey_all ks no_threads = Some s -> locks_reachable s.
Proof. apply obey_all_sound. Qed.

(** ** A disconnect listener

    The thread of a session, which has created the socket of the root namespace, reports
    the end of the session, and is in the disconnect listener of that socket. *)
Definition root_nsp : bstr := bs "/".

(** One thread along a list of decisions. *)
Definition along (i : nat) (decisions : list bool) : list command := Go i <$> decisions.

Definition create_socket (i : nat) : list command :=
  Enter i (CSocket root_nsp) ::
  along i [true; true; true; true; true; false; true; true; true; true; true; true; true; false; true; true; true].

Definition to_listener : list command := Spawn :: create_socket 0 ++ Enter 0 HClose :: along 0 (repeat true 16).

(** What is left to do after the listener: to the end of [sockets_mutex_], and after it. *)
Definition after_listener : thread :=
  [Do (Each [] BodyDisconnected); Unlock Sockets; Do (notify ;; may schedule_reconnect); Caller; Do Outside].

Definition in_listener : locks := mk_locks [root_nsp] [Do Outside :: after_listener].

Lemma in_listener_reachable : locks_reachable in_listener.
Proof. apply (obeyed_reachable to_listener). vm_compute. reflexivity. Qed.

Lemma called_reachable s e t :
  locks_reachable s -> threads s !! 0 = Some (Do Outside :: t) ->
  exists s', locks_reachable s' /\ threads s' !! 0 = Some (Do (entry_code e) :: Caller :: Do Outside :: t).
Proof.
  intros Hs E. eexists. split; [by eapply rtc_r, lock_call|]. by eapply list_lookup_insert_eq, lookup_lt_Some.
Qed.

(** The thread is in a call and never gets to [base]; the mutex is never given back. *)
Definition stuck_before (base : thread) (m : mutex) (i : nat) (s : locks) : Prop := forall s',
  rtc lock_step s s' -> ~ free m (threads s') /\ exists above, threads s' !! i = Some (above ++ base).

(** Follow the one way the code can go, to the request. *)
Local Ltac on_the_way rule :=
  first [apply (rule _ _ _ []) | eapply (rule _ _ _ [_]) | eapply (rule _ _ _ [_; _]) | eapply (rule _ _ _ [_; _; _])].
Local Ltac hang :=
  repeat first
    [ solve [on_the_way hangs_here; intros; by do 2 eexists]
    | on_the_way hangs_next; [done|done|]; let H := fresh in intros ??? H; inversion H; subst; clear H ].

Lemma shutdown_calls_hang nsp (t : thread) :
  Forall (fun e => hangs Sockets (Caller :: t) (Do (entry_code e) :: Caller :: t)) [CClose; CSyncClose; CSocket nsp].
Proof. repeat constructor; hang. Qed.

(** [C37] A disconnect listener that calls the client hangs: [on_engineio_close] calls the listener with
    [sockets_mutex_] held, so that [close], [sync_close] or [socket] never comes back to
    it, whatever the other threads do, and none of these ever gets the mutex again. *)
Theorem disconnect_listener_hangs (nsp : bstr) :
  Forall (fun e => exists s, locks_reachable s /\
      threads s !! 0 = Some (Do (entry_code e) :: Caller :: Do Outside :: after_listener) /\
      stuck_before (Caller :: Do Outside :: after_listener) Sockets 0 s)
    [CClose; CSyncClose; CSocket nsp].
Proof.
  eapply Forall_impl; [apply (shutdown_calls_hang nsp (Do Outside :: after_listener))|].
  intros e He. destruct (called_reachable in_listener e after_listener in_listener_reachable eq_refl) as (s & Hs & E).
  exists s. split_and!; [done..|]. intros s'. eapply hangs_forever; [|done..]. unfold holds, after_listener. set_solver.
Qed.

(** ** A listener that is replaced

    [on] and [off] destroy listeners with the mutex of the socket held: what a captured
    object does in its destructor runs there, although [cancel_timed_acks] destroys
    callbacks after the lock, because they may release objects of the application. *)
Definition replacing_listener : locks := mk_locks [] [[Do Outside; Unlock (Sock root_nsp); Caller; Do Outside]].

Lemma replacing_listener_reachable : locks_reachable replacing_listener.
Proof. apply (obeyed_reachable [Spawn; Enter 0 (SOn root_nsp); Go 0 true]). vm_compute. reflexivity. Qed.

Lemma destroyed_listener_hangs :
  exists s, locks_reachable s /\
    threads s !! 0 = Some (Do (entry_code (SEmit root_nsp)) :: Caller :: Do Outside :: [Unlock (Sock root_nsp); Caller; Do Outside]) /\
    stuck_before (Caller :: Do Outside :: [Unlock (Sock root_nsp); Caller; Do Outside]) (Sock root_nsp) 0 s.
Proof.
  destruct (called_reachable replacing_listener (SEmit root_nsp) _ replacing_listener_reachable eq_refl) as (s & Hs & E).
  exists s. split_and!; [done..|]. intros s'. eapply hangs_forever; [|done|hang]. unfold holds. set_solver.
Qed.

(** ** Contention

    One thread holds [sockets_mutex_] in [socket] and waits in [send_packet] for
    [send_mutex_], another holds this one, and a third reports the end of the session. *)
Definition to_contention : list command :=
  [Spawn; Spawn; Spawn; Enter 0 (CSocket root_nsp)] ++
  along 0 [true; true; true; true; true; false; true; true; true; true; true; true; true; true; true; true; true; true; true] ++
  [Enter 1 (SDisconnect root_nsp)] ++ along 1 [true; true; true] ++
  Enter 2 HClose :: along 2 [true; true; true; true; true; true; true].

Definition waiting_thread : thread := [Do (notify ;; may schedule_reconnect); Caller; Do Outside].

Definition contention : locks := mk_locks [root_nsp]
  [ [Do send_packet; Unlock Sockets; Caller; Do Outside];
    [Do (Locked Engine Skip ;; may Library); Unlock Send; Do (Locked (Sock root_nsp) Skip); Caller; Do Outside];
    Do (Locked Sockets (EachSocket BodyDisconnected)) :: waiting_thread ].

Lemma contention_reachable : locks_reachable contention.
Proof. apply (obeyed_reachable to_contention). vm_compute. reflexivity. Qed.

Lemma contention_calm : calm contention.
Proof. repeat constructor; by intros m ?%list_elem_of_singleton. Qed.

Lemma lock_granted_witness :
  calm contention /\ ~ free Sockets (threads contention) /\
  exists s' body' after', rtc own_step contention s' /\
    locking (namespaces s') (Locked Sockets (EachSocket BodyDisconnected)) = Some (Sockets, body', after') /\
    threads s' !! 2 = Some (body' ++ Unlock Sockets :: after' ++ waiting_thread).
Proof.
  split_and!; [exact contention_calm|by apply (bool_decide_unpack (~ free Sockets (threads contention)))|].
  by apply (lock_granted contention 2 _ _ Sockets [Do (EachSocket BodyDisconnected)] [] contention_reachable contention_calm).
Defined.
