(* ===== verification/Client.v ===== *)
(** * The client: routing, connection life cycle, shutdown

    src/client.cpp and src/client_impl.hpp.  The members of [client_impl] are a
    record; a method is a program of a small monad over it: it reads and assigns
    members, makes calls that are recorded in order, and returns or throws.
    Sockets are named by their namespace (their own state is the subject of
    Socket.v), Engine.IO sessions by the number of their creation.

    A call runs other code - user handlers, listeners, another thread while a
    lock is waited for.  What that code does to the members, and what it throws,
    is a parameter, the record [world]; the members are read again after each
    call exactly where the source reads them again. *)

From S2P Require Export Socket Engineio TransportConfig Reconnection JsonParserFacts MsgpackParser.
From stdpp Require Import options.
#[local] Set Default Proof Using "Type*".
Local Open Scope Z_scope.

(** ** Options

    src/include/sioxx/client_options.hpp. *)

Inductive parser_kind : Type := parser_json | parser_msgpack.

Record proxy_options : Type := mk_proxy_options { proxy_uri : bstr; proxy_username : bstr; proxy_password : bstr }.

Record client_options : Type := mk_options {
  parser_choice : parser_kind;
  parser_factory : option bool; (* a custom factory: whether it returns a parser *)
  verify_tls : bool;
  force_http_polling : bool;
  extra_headers : list (bstr * bstr);
  proxy : option proxy_options;
  engineio_path : bstr;
  query : list (bstr * bstr);
  reconnect_attempts : Z;
  reconnect_delay : Z;
  reconnect_delay_max : Z;
  reconnect_randomization_factor : Q;
}.

Definition default_options : client_options :=
  mk_options parser_json None true false [] None "/socket.io/" [] 0 2000 30000 (1 # 2).

(** [make_configured_transport<Transport>]; [polling] tells the class. *)
Definition make_configured_transport (polling : bool) (o : client_options) : outcome transport_config :=
  let transport := set_verify_tls (verify_tls o) (new_transport_config polling) in
  let transport := if decide (extra_headers o = []) then transport else set_extra_headers (extra_headers o) transport in
  match proxy o with
  | Some p => set_proxy (proxy_uri p) (proxy_username p) (proxy_password p) transport
  | None => Ok transport
  end.

Inductive chosen_parser : Type := ChoseCustom | ChoseJson | ChoseMsgpack.

(** The constructor's choice of a parser. *)
Definition choose_parser (o : client_options) : outcome chosen_parser :=
  match parser_factory o with
  | Some true => Ok ChoseCustom
  | Some false => Throw (invalid_argument "client_options::parser_factory returned null")
  | None => match parser_choice o with parser_msgpack => Ok ChoseMsgpack | parser_json => Ok ChoseJson end
  end.

(** ** Routing of packets *)

(** What a received packet asks of the socket of its namespace. *)
Definition route (p : packet) : option method :=
  match p_type p with
  | pt_connect => Some (MMarkConnected true [])
  | pt_disconnect => Some (MMarkConnected false [])
  | pt_connect_error => Some (MDispatchEvent "connect_error" (p_data p) (-1))
  | pt_event | pt_binary_event =>
      match p_data p with
      | JArray (name :: args) =>
          let event_name := match name with JString s => s | _ => [] end in
          Some (MDispatchEvent event_name (fold_left push_back args (JArray [])) (p_id p))
      | _ => None
      end
  | pt_ack | pt_binary_ack => if 0 <=? p_id p then Some (MDispatchAck (p_id p) (p_data p)) else None
  | pt_unnamed _ => None
  end.

(** ** State *)

(** [options_] is [options], [engineio_] is [engineio], and so on; [sockets] lists
    the keys in the order of the map.  [sessions_made] numbers the sessions. *)
Record impl {P : Type} : Type := mk_impl {
  options : client_options;
  parser : P;
  sessions_made : nat;
  engineio : option nat;
  base_uri : bstr;
  sockets : list bstr;
  reconnect_attempts_used : Z;
  intentional_close : bool;
  using_polling : bool;
}.
Arguments impl : clear implicits.
Arguments mk_impl {_} _ _ _ _ _ _ _ _ _.

Definition new_impl {P} (o : client_options) (parser : P) : impl P :=
  mk_impl o parser 0 None [] [] 0 false false.

(** The calls a method makes. *)
Inductive client_event : Type :=
  | CallSocket (nsp : bstr) (m : method)
  | CreateSocket (nsp : bstr) (auth : json)
  | NewSession (session : nat) (transport : transport_config)
  | ReleaseSession (session : nat)
  | OpenSession (session : nat) (url : bstr)
  | SendFrame (session : nat) (payload : bstr) (is_binary : bool)
  | CloseSession (session : nat)
  | SyncCloseSession (session : nat)
  | WakeReconnectThread
  | StopReconnectThread
  | StartReconnectThread (delay : Z) (uri : bstr)
  | HandlerOpen
  | HandlerClose (reason : bstr)
  | HandlerFail
  | HandlerReconnecting
  | HandlerReconnect (attempt delay : Z)
  | HandlerError (message : bstr).

(** The code around the client. *)
Record world {P : Type} : Type := mk_world {
  during : client_event -> impl P -> impl P; (* the members after the call *)
  raises : client_event -> option exn;
  socket_connected : bstr -> bool;
  session_of : nat -> engine;
  sample : Q; (* of the distribution on [0, 1] *)
  rounding : Q -> Q;
}.
Arguments world : clear implicits.
Arguments mk_world {_} _ _ _ _ _ _.

(** ** Programs *)

Definition prog (P A : Type) : Type := impl P -> impl P * list client_event * outcome A.

#[export] Instance prog_ret {P} : MRet (prog P) := fun A a s => (s, [], Ok a).
#[export] Instance prog_bind {P} : MBind (prog P) := fun A B k m s =>
  match m s with
  | (s1, evs1, Ok a) => let '(s2, evs2, r) := k a s1 in (s2, evs1 ++ evs2, r)
  | (s1, evs1, Throw x) => (s1, evs1, Throw x)
  end.

Section programs.
Context {P : Type}.

Definition gets {A} (f : impl P -> A) : prog P A := fun s => (s, [], Ok (f s)).
Definition modify (f : impl P -> impl P) : prog P unit := fun s => (f s, [], Ok tt).
Definition raise {A} (x : exn) : prog P A := fun s => (s, [], Throw x).
Definition lift {A} (m : outcome A) : prog P A := fun s => (s, [], m).

(** A call that may throw, and one that does not. *)
Definition act (w : world P) (ev : client_event) : prog P unit := fun s =>
  (during w ev s, [ev], match raises w ev with Some x => Throw x | None => Ok tt end).
Definition quietly (w : world P) (ev : client_event) : prog P unit := fun s => (during w ev s, [ev], Ok tt).

Definition try_catch (m : prog P unit) (handler : exn -> prog P unit) : prog P unit := fun s =>
  match m s with
  | (s1, evs1, Throw x) => let '(s2, evs2, r) := handler x s1 in (s2, evs1 ++ evs2, r)
  | r => r
  end.

(** [capture_shutdown_error]: the exception of the operation, if it throws and
    no earlier one is kept. *)
Definition capture (first_error : option exn) (m : prog P unit) : prog P (option exn) := fun s =>
  match m s with
  | (s1, evs1, Ok tt) => (s1, evs1, Ok first_error)
  | (s1, evs1, Throw x) => (s1, evs1, Ok (match first_error with Some y => Some y | None => Some x end))
  end.

(** [if (first_error) std::rethrow_exception(first_error)] *)
Definition rethrow (first_error : option exn) : prog P unit :=
  match first_error with Some x => raise x | None => mret tt end.

Definition when (b : bool) (m : prog P unit) : prog P unit := if b then m else mret tt.

Fixpoint for_each {A} (f : A -> prog P unit) (l : list A) : prog P unit :=
  match l with [] => mret tt | x :: l' => f x ;; for_each f l' end.

(** A loop that carries the first error. *)
Fixpoint fold_each {A B} (f : B -> A -> prog P B) (b : B) (l : list A) : prog P B :=
  match l with [] => mret b | x :: l' => b' ← f b x; fold_each f b' l' end.
End programs.

(** [what()] of an exception derived from [std::exception]. *)
Definition what_of (x : exn) : option bstr :=
  match x with
  | invalid_argument m | runtime_error m | logic_error m | length_error m | json_exception m => Some m
  | undefined_behaviour | user_exception _ => None
  end.

Definition transport_name (polling : bool) : bstr := if polling then bs "polling" else bs "websocket".
Definition uint_max : Z := 2 ^ 32 - 1.

Section methods.
Context {P : Type} `{ParserBase P} (w : world P).

(** ** Sessions *)

(** A new session becomes the current one unless shutdown has begun; the one it
    replaces is released. *)
Definition ensure_engineio : prog P (option nat) :=
  id ← gets sessions_made;
  modify (fun s => {| s with sessions_made := S id |}) ;;
  polling ← gets using_polling;
  o ← gets options;
  transport ← lift (make_configured_transport polling o);
  quietly w (NewSession id transport) ;;
  shutdown ← gets intentional_close;
  if shutdown : bool then quietly w (ReleaseSession id) ;; mret None
  else
    previous ← gets engineio;
    modify (fun s => {| s with engineio := Some id |}) ;;
    (match previous with Some old => quietly w (ReleaseSession old) | None => mret tt end) ;;
    mret (Some id).

(** [engineio->open(detail::build_engineio_url(uri, ..., transport))] *)
Definition open_session (id : nat) (uri transport : bstr) : prog P unit :=
  o ← gets options;
  url ← lift (build_engineio_url uri (engineio_path o) (query o) transport);
  act w (OpenSession id url).

Definition connect (uri : bstr) : prog P unit :=
  closed ← gets intentional_close;
  when closed (quietly w StopReconnectThread) ;;
  modify (fun s => {| s with base_uri := uri |}) ;;
  modify (fun s => {| s with intentional_close := false |}) ;;
  l ← gets sockets;
  for_each (fun nsp => quietly w (CallSocket nsp MResumeTimedAcks)) l ;;
  modify (fun s => {| s with using_polling := force_http_polling (options s) |}) ;;
  modify (fun s => {| s with reconnect_attempts_used := 0 |}) ;;
  id ← ensure_engineio;
  match id with
  | None => mret tt
  | Some id => polling ← gets using_polling; open_session id uri (transport_name polling)
  end.

Definition activate_polling_fallback : prog P unit :=
  closed ← gets intentional_close;
  polling ← gets using_polling;
  if closed || polling then mret tt
  else
    modify (fun s => {| s with using_polling := true |}) ;;
    act w (HandlerError "WebSocket connection failed; switching to HTTP long-polling") ;;
    id ← ensure_engineio;
    match id with
    | None => mret tt
    | Some id => uri ← gets base_uri; open_session id uri "polling"
    end.

(** ** Handlers of the session *)

Definition on_engineio_open : prog P unit :=
  l ← gets sockets;
  for_each (fun nsp => act w (CallSocket nsp MConnect)) l ;;
  act w HandlerOpen.

(** [StartReconnectThread] stands for reaping the previous thread and starting
    the new one, see Reconnect.v. *)
Definition schedule_reconnect : prog P unit :=
  attempt ← gets reconnect_attempts_used;
  o ← gets options;
  if reconnect_attempts o <=? attempt then act w HandlerFail
  else
    modify (fun s => {| s with reconnect_attempts_used := attempt + 1 |}) ;;
    used ← gets reconnect_attempts_used;
    let delay := reconnect_delay_for_attempt (rounding w) (reconnect_delay o) (reconnect_delay_max o)
                   (reconnect_randomization_factor o) used (sample w) in
    act w (HandlerReconnect attempt (Z.min delay uint_max)) ;;
    uri ← gets base_uri;
    closed ← gets intentional_close;
    when (negb closed) (quietly w (StartReconnectThread delay uri)).

Definition on_engineio_close (reason : bstr) : prog P unit :=
  l ← gets sockets;
  for_each (fun nsp => act w (CallSocket nsp (MMarkConnected false []))) l ;;
  act w (HandlerClose reason) ;;
  closed ← gets intentional_close;
  o ← gets options;
  when (negb closed && (0 <? reconnect_attempts o)) schedule_reconnect.

(** The body of the reconnect thread after its delay. *)
Definition reconnect_now (uri : bstr) : prog P unit :=
  closed ← gets intentional_close;
  if closed : bool then mret tt
  else
    try_catch
      (id ← ensure_engineio;
       match id with
       | None => mret tt
       | Some id =>
           act w HandlerReconnecting ;;
           closed ← gets intentional_close;
           if closed : bool then mret tt
           else polling ← gets using_polling; open_session id uri (transport_name polling)
       end)
      (fun x => act w (HandlerError match what_of x with
                                    | Some what => bs "sioxx reconnect: " ++ what
                                    | None => bs "sioxx reconnect failed"
                                    end)).

(** [on_engineio_frame] *)
Definition on_engineio_frame (payload : bstr) (is_binary : bool) : prog P unit :=
  d ← gets parser;
  '(d', p, complete) ← lift (parser_decode d payload is_binary default_packet);
  modify (fun s => {| s with parser := d' |}) ;;
  if negb complete then mret tt
  else
    l ← gets sockets;
    if decide (p_nsp p ∈ l) then
      match route p with Some m => act w (CallSocket (p_nsp p) m) | None => mret tt end
    else mret tt.

(** Handlers bound to a session act only while it is the current one. *)
Definition when_current (id : nat) (m : prog P unit) : prog P unit :=
  current ← gets engineio;
  when (bool_decide (current = Some id)) m.

Definition handle_engineio_open (id : nat) : prog P unit := when_current id on_engineio_open.
Definition handle_engineio_close (id : nat) (reason : bstr) : prog P unit :=
  when_current id (on_engineio_close reason).
Definition handle_engineio_frame (id : nat) (payload : bstr) (is_binary : bool) : prog P unit :=
  when_current id (on_engineio_frame payload is_binary).
Definition handle_engineio_error (id : nat) (message : bstr) : prog P unit :=
  when_current id
    (polling ← gets using_polling;
     when (negb polling && negb (open_ (session_of w id))) activate_polling_fallback ;;
     act w (HandlerError message)).

(** ** Sockets, sending, shutdown *)

Definition get_socket (nsp : bstr) (auth : json) : prog P unit :=
  let norm_nsp := match nsp with [] => bs "/" | _ => nsp end in
  l ← gets sockets;
  if decide (norm_nsp ∈ l) then when (negb (is_null auth)) (quietly w (CallSocket norm_nsp (MSetAuth auth)))
  else
    quietly w (CreateSocket norm_nsp auth) ;;
    closed ← gets intentional_close;
    when closed (quietly w (CallSocket norm_nsp MCancelTimedAcks)) ;;
    modify (fun s => {| s with sockets := insert_nsp norm_nsp (sockets s) |}) ;;
    current ← gets engineio;
    match current with
    | Some id => when (open_ (session_of w id)) (act w (CallSocket norm_nsp MConnect))
    | None => mret tt
    end.

(** All frames of a packet go to the session one after the other, under [send_mutex_]. *)
Definition send_packet (p : packet) : prog P unit :=
  current ← gets engineio;
  match current with
  | None => mret tt
  | Some id =>
      d ← gets parser;
      frames ← lift (parser_encode d p);
      for_each (fun '(payload, is_binary) => act w (SendFrame id payload is_binary)) frames
  end.

Definition close_socket (first_error : option exn) (nsp : bstr) : prog P (option exn) :=
  quietly w (CallSocket nsp MCancelTimedAcks) ;;
  capture first_error (when (socket_connected w nsp) (act w (CallSocket nsp MDisconnect))).

Definition if_session (call : nat -> client_event) : prog P unit :=
  current ← gets engineio;
  match current with Some id => act w (call id) | None => mret tt end.

Definition close : prog P unit :=
  modify (fun s => {| s with intentional_close := true |}) ;;
  quietly w WakeReconnectThread ;;
  l ← gets sockets;
  first_error ← fold_each close_socket None l;
  first_error ← capture first_error (if_session CloseSession);
  rethrow first_error.

Definition sync_close : prog P unit :=
  first_error ← capture None close;
  first_error ← capture first_error (act w StopReconnectThread);
  first_error ← capture first_error (if_session SyncCloseSession);
  l ← gets sockets;
  for_each (fun nsp => quietly w (CallSocket nsp MWaitTimedAcks)) l ;;
  rethrow first_error.

Definition opened (s : impl P) : bool :=
  match engineio s with Some id => open_ (session_of w id) | None => false end.
Definition get_sessionid (s : impl P) : bstr :=
  match engineio s with Some id => session_id (session_of w id) | None => [] end.
End methods.

(** ** The operations of the client, for sequences of them *)

Inductive client_op : Type :=
  | OConnect (uri : bstr)
  | OSocket (nsp : bstr) (auth : json)
  | OSendPacket (p : packet)
  | OSessionOpen (id : nat)
  | OSessionClose (id : nat) (reason : bstr)
  | OSessionFrame (id : nat) (payload : bstr) (is_binary : bool)
  | OSessionError (id : nat) (message : bstr)
  | OReconnectThread (uri : bstr)
  | OClose
  | OSyncClose.

Section operations.
Context {P : Type} `{ParserBase P} (w : world P).

Definition run_op (op : client_op) : prog P unit :=
  match op with
  | OConnect uri => connect w uri
  | OSocket nsp auth => get_socket w nsp auth
  | OSendPacket p => send_packet w p
  | OSessionOpen id => handle_engineio_open w id
  | OSessionClose id reason => handle_engineio_close w id reason
  | OSessionFrame id payload is_binary => handle_engineio_frame w id payload is_binary
  | OSessionError id message => handle_engineio_error w id message
  | OReconnectThread uri => reconnect_now w uri
  | OClose => close w
  | OSyncClose => sync_close w
  end.

(** Operations one after the other; an exception ends the one that raised it. *)
Fixpoint run_ops (ops : list client_op) (s : impl P) : impl P * list client_event :=
  match ops with
  | [] => (s, [])
  | op :: ops' =>
      let '(s1, evs1, _) := run_op op s in
      let '(s2, evs2) := run_ops ops' s1 in (s2, evs1 ++ evs2)
  end.
End operations.
