(* ===== verification/ClientSpec.v ===== *)
(** * The client: properties

    What a program does to the members and which calls it makes, as a relation
    proved along its structure; from it the life of sessions and the number of
    reconnection attempts.  Then shutdown, and the way of packets from one
    client to another. *)

From S2P Require Export Client.
From stdpp Require Import options.
#[local] Set Default Proof Using "Type*".
Local Open Scope Z_scope.

(** ** Relations that hold along a program *)

Section traced.
Context {P : Type} (R : impl P -> list client_event -> impl P -> Prop).
Context (R_nil : forall s, R s [] s).
Context (R_app : forall s1 evs1 s2 evs2 s3, R s1 evs1 s2 -> R s2 evs2 s3 -> R s1 (evs1 ++ evs2) s3).

Definition traced {A} (m : prog P A) : Prop := forall s, R s (m s).1.2 (m s).1.1.

Lemma traced_ret {A} (a : A) : traced (mret a).
Proof. intros s. apply R_nil. Qed.

Lemma traced_lift {A} (o : outcome A) : traced (lift o).
Proof. intros s. apply R_nil. Qed.

Lemma traced_bind_at {A B} (m : prog P A) (k : A -> prog P B) s :
  R s (m s).1.2 (m s).1.1 -> (forall a, (m s).2 = Ok a -> R (m s).1.1 (k a (m s).1.1).1.2 (k a (m s).1.1).1.1) ->
  R s ((m ≫= k) s).1.2 ((m ≫= k) s).1.1.
Proof.
  unfold mbind, prog_bind. destruct (m s) as [[s1 evs1] [a|x]]; cbn; [|done]. intros H1 H2.
  specialize (H2 a eq_refl). destruct (k a s1) as [[s2 evs2] r]; cbn in *. by apply R_app with s1.
Qed.

Lemma traced_bind {A B} (m : prog P A) (k : A -> prog P B) :
  traced m -> (forall a, traced (k a)) -> traced (m ≫= k).
Proof. intros Hm Hk s. apply traced_bind_at; [apply Hm|]. intros a _. apply Hk. Qed.

Lemma traced_gets {A B} (f : impl P -> A) (k : A -> prog P B) : (forall a, traced (k a)) -> traced (a ← gets f; k a).
Proof. intros Hk. apply traced_bind; [|done]. intros s. apply R_nil. Qed.

Lemma traced_when b m : traced m -> traced (when b m).
Proof. destruct b; [done|]. intros _. apply traced_ret. Qed.

Lemma traced_for_each {A} (f : A -> prog P unit) l : (forall a, traced (f a)) -> traced (for_each f l).
Proof. intros Hf. induction l; simpl; [apply traced_ret|]. by apply traced_bind. Qed.

Lemma traced_fold_each {A B} (f : B -> A -> prog P B) b l : (forall b a, traced (f b a)) -> traced (fold_each f b l).
Proof. intros Hf. revert b. induction l; intros b; simpl; [apply traced_ret|]. by apply traced_bind. Qed.

Lemma traced_capture e m : traced m -> traced (capture e m).
Proof. intros Hm s. specialize (Hm s). unfold capture. by destruct (m s) as [[s1 evs1] [[]|x]]. Qed.

Lemma traced_rethrow e : traced (rethrow e).
Proof. destruct e; intros s; apply R_nil. Qed.

Lemma traced_try m h : traced m -> (forall x, traced (h x)) -> traced (try_catch m h).
Proof.
  intros Hm Hh s. specialize (Hm s). unfold try_catch. destruct (m s) as [[s1 evs1] [[]|x]]; cbn in *; [done|].
  specialize (Hh x s1). destruct (h x s1) as [[s2 evs2] r]; cbn in *. by apply R_app with s1.
Qed.

Lemma traced_act w ev : (forall s, R s [ev] (during w ev s)) -> traced (act w ev).
Proof using Type. intros H s. apply H. Qed.

Lemma traced_quietly w ev : (forall s, R s [ev] (during w ev s)) -> traced (quietly w ev).
Proof using Type. intros H s. apply H. Qed.

Lemma traced_modify f : (forall s, R s [] (f s)) -> traced (modify f).
Proof using Type. intros H s. apply H. Qed.
End traced.

(** The structural rules, until a goal on a call, an assignment or a named method is left. *)
Ltac trace_rules :=
  repeat first
    [ eassumption | apply traced_ret | apply traced_lift | apply traced_rethrow
    | apply traced_gets; [..|intros ?] | apply traced_when | apply traced_capture
    | apply traced_for_each; [..|intros ?] | apply traced_fold_each; [..|intros ? ?]
    | apply traced_try; [..|intros ?] | apply traced_bind; [..|intros ?] | case_match ]; try done.

(** A relation that holds along the parts of the methods holds along sequences of
    operations. *)
Section traced_operations.
Context {P : Type} `{ParserBase P} (w : world P).
Context (R : impl P -> list client_event -> impl P -> Prop).
Context (R_nil : forall s, R s [] s).
Context (R_app : forall s1 evs1 s2 evs2 s3, R s1 evs1 s2 -> R s2 evs2 s3 -> R s1 (evs1 ++ evs2) s3).
Context (R_call : forall ev s, (forall attempt delay, ev <> HandlerReconnect attempt delay) -> ev <> HandlerFail ->
                   (forall id transport, ev <> NewSession id transport) -> (forall id, ev <> ReleaseSession id) ->
                   R s [ev] (during w ev s)).
Context (R_parser : forall s d, R s [] {| s with parser := d |}).
Context (R_sockets : forall s l, R s [] {| s with sockets := l |}).
Context (R_closed : forall s, R s [] {| s with intentional_close := true |}).
Context (R_polling : forall s, R s [] {| s with using_polling := true |}).
Context (R_ensure : traced R (ensure_engineio w)) (R_schedule : traced R (schedule_reconnect w)).

Local Ltac trace :=
  trace_rules; try (apply traced_act || apply traced_quietly); try (intros ?; apply R_call; congruence);
  try (apply traced_modify; eauto).

Lemma traced_open_session id uri tr : traced R (open_session w id uri tr).
Proof. unfold open_session. trace. Qed.

Lemma traced_fallback : traced R (activate_polling_fallback w).
Proof. unfold activate_polling_fallback. trace; apply traced_open_session. Qed.

Lemma traced_close : traced R (close w).
Proof. unfold close, close_socket, if_session. trace. Qed.

Lemma traced_operation op :
  (forall uri, op = OConnect uri -> traced R (connect w uri)) -> traced R (run_op w op).
Proof.
  intros Hconnect. destruct op; cbn [run_op]; [by eapply Hconnect|..];
    unfold get_socket, send_packet, handle_engineio_open, handle_engineio_close, handle_engineio_frame,
      handle_engineio_error, when_current, on_engineio_open, on_engineio_close, on_engineio_frame,
      reconnect_now, sync_close, if_session; trace;
    first [apply traced_fallback | apply traced_open_session | apply traced_close].
Qed.

Lemma traced_operations ops s :
  (forall uri, OConnect uri ∈ ops -> traced R (connect w uri)) -> R s (run_ops w ops s).2 (run_ops w ops s).1.
Proof.
  revert s. induction ops as [|op ops IH]; intros s Hconnect; cbn [run_ops]; [apply R_nil|].
  assert (Hop : traced R (run_op w op)).
  { apply traced_operation. intros uri ->. apply Hconnect. by left. }
  specialize (Hop s). destruct (run_op w op s) as [[s1 evs1] r]; cbn in Hop.
  specialize (IH s1). destruct (run_ops w ops s1) as [s2 evs2]; cbn in *.
  apply R_app with s1; [done|]. apply IH. intros uri Hu. apply Hconnect. by right.
Qed.
End traced_operations.

(** ** Sessions *)

Section sessions.
Context {P : Type} `{ParserBase P}.

(** What may become of the current session: it stays, or a session made since
    takes its place. *)
Definition session_step (s : impl P) (_ : list client_event) (s' : impl P) : Prop :=
  (sessions_made s <= sessions_made s')%nat /\
  (engineio s' = engineio s \/
   exists id, engineio s' = Some id /\ (sessions_made s <= id < sessions_made s')%nat).

Lemma session_step_refl s evs : session_step s evs s.
Proof. split; [done|by left]. Qed.

Lemma session_step_app s1 evs1 s2 evs2 s3 :
  session_step s1 evs1 s2 -> session_step s2 evs2 s3 -> session_step s1 (evs1 ++ evs2) s3.
Proof.
  intros [L1 E1] [L2 E2]. split; [lia|].
  destruct E2 as [->|(id & -> & ?)].
  - destruct E1 as [->|(id & -> & ?)]; [by left|]. right. exists id. split; [done|lia].
  - right. exists id. split; [done|lia].
Qed.

(** Code that runs during a call uses the client through its methods. *)
Definition world_sessions (w : world P) : Prop := forall ev s, session_step s [ev] (during w ev s).

Section with_world.
Context (w : world P) (Hw : world_sessions w).

Lemma ensure_engineio_sessions : traced session_step (ensure_engineio w).
Proof.
  intros s. unfold ensure_engineio, mbind, prog_bind, gets, modify, lift, quietly, mret, prog_ret. cbn.
  set (s1 := {| s with sessions_made := S (sessions_made s) |}).
  destruct (make_configured_transport _ _) as [transport|x]; [|split; cbn; [lia|by left]].
  pose proof (Hw (NewSession (sessions_made s) transport) s1) as [L E]. cbn in L, E.
  set (s2 := during w _ s1) in *.
  destruct (intentional_close s2).
  - cbn. destruct (Hw (ReleaseSession (sessions_made s)) s2) as [L' E'].
    apply (session_step_app s [] s2 [ReleaseSession (sessions_made s)]); [|done].
    split; [lia|]. destruct E as [->|(id & -> & ?)]; [by left|]. right. exists id. split; [done|lia].
  - assert (Hset : session_step s [] {| s2 with engineio := Some (sessions_made s) |}).
    { split; cbn; [lia|]. right. eexists. split; [done|lia]. }
    destruct (engineio s2) as [old|]; cbn; [|done].
    eapply (session_step_app s []); [exact Hset|apply (Hw (ReleaseSession old))].
Qed.

Local Ltac sessions :=
  trace_rules; try apply session_step_app; try (intros; apply session_step_refl);
  try apply ensure_engineio_sessions;
  try (apply traced_act || apply traced_quietly || apply traced_modify); try (by intros; apply Hw);
  try (by intros; split; [done|left]).

Lemma operations_sessions ops s : session_step s (run_ops w ops s).2 (run_ops w ops s).1.
Proof.
  apply traced_operations; try (intros; apply session_step_refl); try apply session_step_app;
    try (by intros; apply Hw); try (by intros; split; [done|left]); try apply ensure_engineio_sessions.
  - unfold schedule_reconnect. sessions.
  - intros uri _. pose proof ensure_engineio_sessions. unfold connect, open_session. sessions.
Qed.
End with_world.

(** A session that was replaced. *)
Definition superseded (id : nat) (s : impl P) : Prop := (id < sessions_made s)%nat /\ engineio s <> Some id.

Lemma session_step_superseded id s evs s' : session_step s evs s' -> superseded id s -> superseded id s'.
Proof.
  intros [L E] [Hid Hne]. split; [lia|].
  destruct E as [->|(id' & -> & ?)]; [done|]. intros [= ->]. lia.
Qed.

(** The current session is one that was made. *)
Definition sessions_ok (s : impl P) : Prop := forall id, engineio s = Some id -> (id < sessions_made s)%nat.

Lemma session_step_ok s evs s' : session_step s evs s' -> sessions_ok s -> sessions_ok s'.
Proof.
  intros [L E] Hs id Hid. destruct E as [E|(id' & E & ?)]; [|rewrite E in Hid; simplify_eq; lia].
  rewrite E in Hid. apply Hs in Hid. lia.
Qed.

Lemma when_current_superseded id m s : superseded id s -> when_current id m s = (s, [], Ok tt).
Proof.
  intros [_ Hne]. unfold when_current, mbind, prog_bind, gets. by rewrite bool_decide_eq_false_2.
Qed.
End sessions.

(** ** Attempts *)

Section attempts.
Context {P : Type} `{ParserBase P}.

(** The numbers of the attempts that were announced. *)
Definition attempt_numbers (evs : list client_event) : list Z :=
  omap (fun ev => match ev with HandlerReconnect attempt _ => Some attempt | _ => None end) evs.

(** The calls that stand for giving up. *)
Definition gave_up (evs : list client_event) : Prop := HandlerFail ∈ evs.

Definition attempts_step (s : impl P) (evs : list client_event) (s' : impl P) : Prop :=
  options s' = options s /\
  reconnect_attempts_used s <= reconnect_attempts_used s' /\
  attempt_numbers evs = seqZ (reconnect_attempts_used s) (reconnect_attempts_used s' - reconnect_attempts_used s) /\
  (reconnect_attempts_used s' <= reconnect_attempts_used s \/
   reconnect_attempts_used s' <= reconnect_attempts (options s)) /\
  (gave_up evs -> reconnect_attempts (options s) <= reconnect_attempts_used s').

Definition same_attempts (s s' : impl P) : Prop :=
  options s' = options s /\ reconnect_attempts_used s' = reconnect_attempts_used s.

Lemma attempts_step_same s evs s' :
  same_attempts s s' -> attempt_numbers evs = [] -> ~ gave_up evs -> attempts_step s evs s'.
Proof.
  intros [Ho Hu] He Hg. unfold attempts_step. rewrite Ho, Hu, He, Z.sub_diag. split_and!; done || lia || auto.
Qed.

Lemma attempts_step_app s1 evs1 s2 evs2 s3 :
  attempts_step s1 evs1 s2 -> attempts_step s2 evs2 s3 -> attempts_step s1 (evs1 ++ evs2) s3.
Proof.
  intros (O1 & L1 & N1 & U1 & G1) (O2 & L2 & N2 & U2 & G2). unfold attempts_step, gave_up in *.
  rewrite O1 in *. split_and!; [congruence|lia| |lia|].
  - unfold attempt_numbers in *. rewrite omap_app, N1, N2.
    replace (reconnect_attempts_used s2) with
      (reconnect_attempts_used s1 + (reconnect_attempts_used s2 - reconnect_attempts_used s1)) at 2 by lia.
    rewrite <-seqZ_app by lia. f_equal. lia.
  - rewrite elem_of_app. intros [?%G1|?%G2]; lia.
Qed.

Section with_world.
Context (w : world P) (Hw : forall ev s, same_attempts s (during w ev s)).

Lemma attempts_step_call ev s :
  (forall attempt delay, ev <> HandlerReconnect attempt delay) -> ev <> HandlerFail ->
  attempts_step s [ev] (during w ev s).
Proof.
  intros Hr Hf. apply attempts_step_same; [apply Hw| |].
  - unfold attempt_numbers; cbn. destruct ev; try done. by destruct (Hr attempt delay).
  - unfold gave_up. intros Hin%list_elem_of_singleton. congruence.
Qed.

Lemma attempts_step_refl s : attempts_step s [] s.
Proof. by apply attempts_step_same; [| |intros ?%elem_of_nil]. Qed.

Lemma schedule_reconnect_attempts : traced attempts_step (schedule_reconnect w).
Proof.
  intros s. unfold schedule_reconnect, mbind, prog_bind, gets, modify, act, quietly, when, mret, prog_ret.
  cbn -[reconnect_delay_for_attempt].
  destruct (Z.leb_spec (reconnect_attempts (options s)) (reconnect_attempts_used s)) as [Hle|Hlt];
    cbn -[reconnect_delay_for_attempt].
  - destruct (Hw HandlerFail s) as [Ho Hu]. unfold attempts_step. rewrite Ho, Hu, Z.sub_diag. by split_and!; try lia.
  - set (s1 := {| s with reconnect_attempts_used := reconnect_attempts_used s + 1 |}).
    set (ev := HandlerReconnect _ _).
    assert (Hs2 : attempts_step s [ev] (during w ev s1)).
    { destruct (Hw ev s1) as [Ho Hu]. cbn in Ho, Hu. unfold attempts_step. rewrite Ho, Hu.
      replace (reconnect_attempts_used s + 1 - reconnect_attempts_used s) with 1 by lia.
      split_and!; try done; try lia. by intros Hin%list_elem_of_singleton. }
    destruct (raises w ev); [done|]. cbn -[reconnect_delay_for_attempt ev].
    destruct (intentional_close (during w ev s1)); [done|]. cbn -[reconnect_delay_for_attempt ev].
    eapply (attempts_step_app s [ev] (during w ev s1) [_]); [done|]. by apply attempts_step_call.
Qed.

Lemma operations_attempts ops s :
  (forall uri, OConnect uri ∉ ops) -> attempts_step s (run_ops w ops s).2 (run_ops w ops s).1.
Proof.
  intros Hno. assert (Hset : forall s s', same_attempts s s' -> attempts_step s [] s').
  { intros s1 s2 Hs. by apply attempts_step_same; [| |intros ?%elem_of_nil]. }
  apply traced_operations; try apply attempts_step_refl; try apply attempts_step_app;
    try (by intros; apply attempts_step_call); try (by intros; apply Hset); try apply schedule_reconnect_attempts.
  - unfold ensure_engineio. trace_rules; try apply attempts_step_refl; try apply attempts_step_app;
      try (apply traced_quietly || apply traced_modify); try (by intros; apply Hset);
      by intros; apply attempts_step_call.
  - intros uri Hu. by destruct (Hno uri).
Qed.
End with_world.
End attempts.

(** ** Properties: sessions and attempts *)

Section properties.
Context {P : Type} `{ParserBase P} (w : world P).

(** Once the client has replaced a session, that session stays replaced
    whatever operations follow, and everything it still reports - its opening, a
    frame, an error, its close - changes nothing and calls nobody. *)
Theorem superseded_sessions_silent (ops : list client_op) (s : impl P) (id : nat) :
  world_sessions w -> superseded id s ->
  let s' := (run_ops w ops s).1 in
  superseded id s' /\
  forall payload is_binary reason message,
    handle_engineio_open w id s' = (s', [], Ok tt) /\
    handle_engineio_frame w id payload is_binary s' = (s', [], Ok tt) /\
    handle_engineio_error w id message s' = (s', [], Ok tt) /\
    handle_engineio_close w id reason s' = (s', [], Ok tt).
Proof.
  intros Hw Hid s'.
  assert (superseded id s') by (by eapply session_step_superseded; [apply operations_sessions|]).
  split; [done|]. intros. split_and!; by apply when_current_superseded.
Qed.

(** [C34] Between two calls of [connect], whatever else happens - a successful
    reconnection included - the attempts are announced with consecutive numbers,
    there are never more than [reconnect_attempts] of them, and the client gives
    up only when all are used. *)
Theorem reconnect_budget (ops : list client_op) (s : impl P) :
  (forall ev s, same_attempts s (during w ev s)) -> (forall uri, OConnect uri ∉ ops) ->
  reconnect_attempts_used s = 0 -> 0 <= reconnect_attempts (options s) ->
  let '(s', evs) := run_ops w ops s in
  attempt_numbers evs = seqZ 0 (reconnect_attempts_used s') /\
  reconnect_attempts_used s' <= reconnect_attempts (options s) /\
  (gave_up evs -> reconnect_attempts_used s' = reconnect_attempts (options s)).
Proof.
  intros Hw Hno H0 Hn. pose proof (operations_attempts w Hw ops s Hno) as (Ho & L & N & U & G).
  destruct (run_ops w ops s) as [s' evs]; cbn [fst snd] in *. rewrite H0, Z.sub_0_r in *.
  split_and!; [done|lia|]. intros Hg%G. lia.
Qed.
End properties.

(** ** Shutdown *)

Section shutdown.
Context {P : Type} `{ParserBase P} (w : world P).

(** The calls of shutdown that may throw. *)
Definition guarded (ev : client_event) : bool :=
  match ev with
  | CallSocket _ MDisconnect | CloseSession _ | StopReconnectThread | SyncCloseSession _ => true
  | _ => false
  end.

(** What they threw, in order. *)
Definition thrown (evs : list client_event) : list exn :=
  omap (fun ev => if guarded ev then raises w ev else None) evs.

(** How an operation that made these calls and reports the first error ends. *)
Definition first_thrown (evs : list client_event) : outcome unit :=
  match thrown evs with [] => Ok tt | x :: _ => Throw x end.

(** Neither the sockets nor the current session change meanwhile. *)
Definition settled : Prop := forall ev s,
  sockets (during w ev s) = sockets s /\ engineio (during w ev s) = engineio s /\
  (intentional_close s = true -> intentional_close (during w ev s) = true).

Definition shutdown_frame (s : impl P) (_ : list client_event) (s' : impl P) : Prop :=
  sockets s' = sockets s /\ engineio s' = engineio s /\
  (intentional_close s = true -> intentional_close s' = true).

(** The first error with those of more calls. *)
Definition kept (first_error : option exn) (evs : list client_event) : option exn :=
  match first_error with Some x => Some x | None => head (thrown evs) end.

Lemma thrown_app evs1 evs2 : thrown (evs1 ++ evs2) = thrown evs1 ++ thrown evs2.
Proof. apply omap_app. Qed.

Lemma kept_app e evs1 evs2 : kept (kept e evs1) evs2 = kept e (evs1 ++ evs2).
Proof. unfold kept. rewrite thrown_app. destruct e; [done|]. by destruct (thrown evs1). Qed.

Definition session_calls (call : nat -> client_event) (s : impl P) : list client_event :=
  match engineio s with Some id => [call id] | None => [] end.

Definition socket_calls (nsp : bstr) : list client_event :=
  CallSocket nsp MCancelTimedAcks :: if socket_connected w nsp then [CallSocket nsp MDisconnect] else [].

Context (Hw : settled).

Lemma frame_call ev s : shutdown_frame s [ev] (during w ev s).
Proof. apply Hw. Qed.

(** A captured call: it is made, its error kept if it is the first. *)
Lemma capture_act e ev s :
  guarded ev = true -> capture e (act w ev) s = (during w ev s, [ev], Ok (kept e [ev])).
Proof.
  intros Hg. unfold capture, act, kept, thrown; cbn. rewrite Hg. destruct (raises w ev), e; done.
Qed.

Lemma capture_session e call s :
  (forall id, guarded (call id) = true) ->
  exists s', capture e (if_session w call) s = (s', session_calls call s, Ok (kept e (session_calls call s)))
             /\ shutdown_frame s [] s'.
Proof.
  intros Hg. unfold if_session, session_calls.
  assert (E : forall m, capture e ((current ← gets engineio;
            match current with Some id => act w (call id) | None => m end) : prog P unit) s
          = capture e (match engineio s with Some id => act w (call id) | None => m end) s).
  { intros m. unfold capture, mbind, prog_bind, gets. destruct (engineio s); cbn; [|by destruct (m s) as [[? ?] ?]].
    by destruct (raises w (call n)). }
  rewrite E. destruct (engineio s) as [id|].
  - rewrite capture_act by done. eexists. split; [done|]. apply frame_call.
  - exists s. unfold kept; cbn. split; [by destruct e|done].
Qed.

Lemma close_socket_calls e nsp s :
  exists s', close_socket w e nsp s = (s', socket_calls nsp, Ok (kept e (socket_calls nsp))) /\ shutdown_frame s [] s'.
Proof.
  unfold close_socket, socket_calls. unfold mbind, prog_bind, quietly. unfold when.
  destruct (socket_connected w nsp).
  - rewrite capture_act by done. eexists. split; [reflexivity|].
    destruct (frame_call (CallSocket nsp MCancelTimedAcks) s) as (E1 & E2 & E3).
    destruct (frame_call (CallSocket nsp MDisconnect) (during w (CallSocket nsp MCancelTimedAcks) s)) as (E4 & E5 & E6).
    split_and!; [congruence..|auto].
  - eexists. unfold capture, mret, prog_ret, kept; cbn. split; [by destruct e|]. apply frame_call.
Qed.

Lemma shutdown_frame_trans s1 s2 s3 : shutdown_frame s1 [] s2 -> shutdown_frame s2 [] s3 -> shutdown_frame s1 [] s3.
Proof. intros (E1 & E2 & E3) (E4 & E5 & E6). split_and!; [congruence..|auto]. Qed.

Lemma close_sockets_calls e l s :
  exists s', fold_each (close_socket w) e l s = (s', l ≫= socket_calls, Ok (kept e (l ≫= socket_calls)))
             /\ shutdown_frame s [] s'.
Proof.
  revert e s. induction l as [|nsp l IH]; intros e s; cbn [fold_each].
  - exists s. unfold kept; cbn. split; [by destruct e|done].
  - destruct (close_socket_calls e nsp s) as (s1 & E1 & F1).
    destruct (IH (kept e (socket_calls nsp)) s1) as (s2 & E2 & F2).
    exists s2. split; [|by eapply shutdown_frame_trans].
    unfold mbind at 1, prog_bind at 1. rewrite E1, E2. by rewrite kept_app.
Qed.

Lemma rethrow_kept evs (s : impl P) : rethrow (kept None evs) s = (s, [], first_thrown evs).
Proof. unfold first_thrown, kept, rethrow. by destruct (thrown evs). Qed.

Definition close_calls (s : impl P) : list client_event :=
  WakeReconnectThread :: (sockets s ≫= socket_calls) ++ session_calls CloseSession s.

Definition sync_close_calls (s : impl P) : list client_event :=
  close_calls s ++ [StopReconnectThread] ++ session_calls SyncCloseSession s ++
  ((fun nsp => CallSocket nsp MWaitTimedAcks) <$> sockets s).

Lemma close_runs s :
  exists s', close w s = (s', close_calls s, first_thrown (close_calls s)) /\
             sockets s' = sockets s /\ engineio s' = engineio s /\ intentional_close s' = true.
Proof.
  unfold close, close_calls. set (s0 := {| s with intentional_close := true |}).
  set (s1 := during w WakeReconnectThread s0).
  destruct (frame_call WakeReconnectThread s0) as (F1 & F2 & F3). fold s1 in F1, F2, F3. cbn in F1, F2, F3.
  destruct (close_sockets_calls None (sockets s1) s1) as (s2 & E2 & F4 & F5 & F6).
  set (evs2 := sockets s1 ≫= socket_calls) in *.
  destruct (capture_session (kept None evs2) CloseSession s2) as (s3 & E3 & F7 & F8 & F9); [done|].
  exists s3. unfold mbind, prog_bind, modify, quietly, gets. fold s0 s1. rewrite E2, E3, kept_app, rethrow_kept.
  assert (session_calls CloseSession s2 = session_calls CloseSession s) as Es.
  { unfold session_calls. by rewrite F5, F2. }
  subst evs2. rewrite Es, F1, app_nil_r. split; [done|]. split_and!; [congruence..|auto].
Qed.

Lemma for_each_quietly {A} (f : A -> client_event) l s :
  (for_each (fun a => quietly w (f a)) l s).1.2 = f <$> l /\ (for_each (fun a => quietly w (f a)) l s).2 = Ok tt.
Proof.
  revert s. induction l as [|a l IH]; intros s; [done|]. cbn [for_each].
  unfold mbind, prog_bind, quietly at 1 3. specialize (IH (during w (f a) s)).
  destruct (for_each _ l _) as [[s' evs] r]; cbn in *. destruct IH as [-> ->]. done.
Qed.
End shutdown.

Section shutdown_properties.
Context {P : Type} `{ParserBase P} (w : world P).

Lemma prog_bind_ok {A B} (m : prog P A) (k : A -> prog P B) s s1 evs1 a :
  m s = (s1, evs1, Ok a) -> (m ≫= k) s = let '(s2, evs2, r) := k a s1 in (s2, evs1 ++ evs2, r).
Proof. intros E. unfold mbind, prog_bind. by rewrite E. Qed.

Lemma thrown_waits l : thrown w ((fun nsp => CallSocket nsp MWaitTimedAcks) <$> l) = [].
Proof. by induction l. Qed.

Lemma sync_close_runs (s : impl P) :
  settled w -> exists s', sync_close w s = (s', sync_close_calls w s, first_thrown w (sync_close_calls w s)).
Proof.
  intros Hw. destruct (close_runs w Hw s) as (s1 & E1 & F1 & F2 & F3).
  unfold sync_close, sync_close_calls.
  assert (Ec : capture None (close w) s = (s1, close_calls w s, Ok (kept w None (close_calls w s)))).
  { unfold capture. rewrite E1. unfold kept, first_thrown. by destruct (thrown w (close_calls w s)). }
  set (s2 := during w StopReconnectThread s1).
  destruct (frame_call w Hw StopReconnectThread s1) as (F4 & F5 & F6). fold s2 in F4, F5, F6.
  destruct (capture_session w Hw (kept w None (close_calls w s ++ [StopReconnectThread])) SyncCloseSession s2)
    as (s3 & E3 & F7 & F8 & F9); [done|].
  pose proof (for_each_quietly w Hw (fun nsp => CallSocket nsp MWaitTimedAcks) (sockets s3) s3) as [Ew Rw].
  assert (Es : session_calls SyncCloseSession s2 = session_calls SyncCloseSession s).
  { unfold session_calls. by rewrite F5, F2. }
  rewrite Es in E3. rewrite F7, F4, F1 in Ew, Rw.
  rewrite (prog_bind_ok _ _ _ _ _ _ Ec), (prog_bind_ok _ _ _ _ _ _ (capture_act w Hw _ StopReconnectThread s1 eq_refl)).
  fold s2. rewrite (kept_app w), (prog_bind_ok _ _ _ _ _ _ E3), (kept_app w).
  rewrite (prog_bind_ok (gets sockets) _ s3 s3 [] (sockets s3) eq_refl), F7, F4, F1.
  destruct (for_each _ (sockets s) s3) as [[s4 evs4] r4] eqn:E4. cbn [fst snd] in Ew, Rw. subst evs4 r4.
  rewrite (prog_bind_ok _ _ _ _ _ _ E4), (rethrow_kept w Hw).
  exists s4. rewrite app_nil_r, app_nil_l, <-!app_assoc. f_equal. unfold first_thrown.
  by rewrite !thrown_app, thrown_waits, app_nil_r.
Qed.

(** [C30] Shutdown runs to its end whatever is thrown on the way: timed
    acknowledgements of every socket are cancelled, every connected socket is told to
    disconnect, the session is closed, the reconnect thread is stopped and every
    socket is waited for; the exception reported is the first that was thrown. *)
Theorem shutdown_completes (s : impl P) :
  settled w ->
  (exists s', close w s = (s', close_calls w s, first_thrown w (close_calls w s)) /\ intentional_close s' = true) /\
  (exists s', sync_close w s = (s', sync_close_calls w s, first_thrown w (sync_close_calls w s))).
Proof.
  intros Hw. split; [|by apply sync_close_runs]. destruct (close_runs w Hw s) as (s1 & E1 & _ & _ & F3). by exists s1.
Qed.
End shutdown_properties.

(** ** The way of packets *)

(** What a session writes for the frames the client gives it. *)
Definition written (e : engine) (evs : list client_event) : list frame :=
  evs ≫= (fun ev =>
    match ev with
    | SendFrame _ payload is_binary =>
        omap (fun ev => match ev with TransportSend m b => Some (m, b) | _ => None end) (engine_send payload is_binary e)
    | _ => []
    end).

(** What a session hands to its client for the messages of its transport. *)
Fixpoint handed_over `{JsonLib} (now : Z) (e : engine) (messages : list frame) : list frame :=
  match messages with
  | [] => []
  | (payload, is_binary) :: messages' =>
      let '(e', evs, _) := handle_transport_message now payload is_binary e in
      omap (fun ev => match ev with OnFrame m b => Some (m, b) | _ => None end) evs
      ++ handed_over now e' messages'
  end.

Section delivery.
Context {P : Type} `{ParserLaws P}.

(** The call a packet causes at its receiver. *)
Definition delivery (p : packet) : option client_event := CallSocket (p_nsp p) <$> route p.

(** Listeners return and leave session and parser alone; they may ask for more sockets. *)
Definition well_behaved (w : world P) : Prop :=
  (forall ev s, parser (during w ev s) = parser s /\ engineio (during w ev s) = engineio s /\
                (forall nsp, nsp ∈ sockets s -> nsp ∈ sockets (during w ev s))) /\
  (forall ev, raises w ev = None).

Definition deliver (w : world P) (id : nat) (frames : list frame) : prog P unit :=
  for_each (fun '(payload, is_binary) => handle_engineio_frame w id payload is_binary) frames.

(** A frame: what the parser makes of it, and the call for a completed packet. *)
Lemma frame_delivered w id s payload is_binary d p complete :
  well_behaved w -> engineio s = Some id ->
  parser_decode (parser s) payload is_binary default_packet = Ok (d, p, complete) ->
  (complete = true -> p_nsp p ∈ sockets s) ->
  exists s', handle_engineio_frame w id payload is_binary s
             = (s', if complete then option_list (delivery p) else [], Ok tt)
             /\ parser s' = d /\ engineio s' = Some id /\ (forall nsp, nsp ∈ sockets s -> nsp ∈ sockets s').
Proof.
  intros [Hd Hr] Hid E Hn. unfold handle_engineio_frame, when_current, on_engineio_frame.
  unfold mbind, prog_bind, gets. rewrite bool_decide_eq_true_2 by done. cbn [when]. unfold lift, modify.
  rewrite E. destruct complete; cbn; [|by eexists].
  rewrite decide_True by auto. unfold delivery. destruct (route p) as [m|]; cbn; [|by eexists].
  rewrite Hr. eexists. split; [reflexivity|].
  destruct (Hd (CallSocket (p_nsp p) m) {| s with parser := d |}) as (E1 & E2 & E3).
  by rewrite E1, E2.
Qed.

Lemma frames_delivered w id frames s out d out' ps :
  well_behaved w -> engineio s = Some id ->
  decode_frames (parser s) frames out = Ok (d, out', ps) -> Forall (fun p => p_nsp p ∈ sockets s) ps ->
  exists s', deliver w id frames s = (s', omap delivery ps, Ok tt) /\ parser s' = d /\ engineio s' = Some id.
Proof.
  intros Hw. revert s out ps. induction frames as [|[payload is_binary] frames IH]; intros s out ps Hid.
  - intros [= <- <- <-] _. by exists s.
  - cbn [decode_frames]. intros ([[d1 p1] complete] & E1 & E2)%outcome_bind_ok Hns. cbn beta iota in E2.
    apply outcome_bind_ok in E2 as ([[d2 p2] ps2] & E2 & E3). injection E3 as -> -> E3.
    destruct (decode_out_irrelevant _ _ _ _ default_packet _ _ _ E1) as (p1' & E1' & Hp1).
    destruct (frame_delivered w id s payload is_binary d1 p1' complete) as (s1 & R1 & F1 & F2 & F3); [done..| |].
    { intros ->. rewrite Hp1 by done. subst ps. by apply Forall_cons in Hns as [? _]. }
    destruct (IH s1 p1 ps2 F2) as (s2 & R2 & F4 & F5).
    { by rewrite F1. }
    { destruct complete; subst ps; [apply Forall_cons in Hns as [_ Hns]|];
        (eapply Forall_impl; [exact Hns|]); intros; by apply F3. }
    exists s2. split; [|done]. unfold deliver in *. cbn [for_each]. unfold mbind, prog_bind. rewrite R1, R2.
    f_equal. f_equal. destruct complete; subst ps; [|done]. rewrite Hp1 by done. cbn. by destruct (delivery p1).
Qed.

Definition send_frames (id : nat) (frames : list frame) : list client_event :=
  (fun '(payload, is_binary) => SendFrame id payload is_binary) <$> frames.

Lemma frames_sent w id frames s :
  well_behaved w ->
  exists s', for_each (fun '(payload, is_binary) => act w (SendFrame id payload is_binary)) frames s
             = (s', send_frames id frames, Ok tt) /\ parser s' = parser s /\ engineio s' = engineio s.
Proof.
  intros [Hd Hr]. revert s. induction frames as [|[payload is_binary] frames IH]; intros s; [by exists s|].
  cbn [for_each]. unfold mbind, prog_bind, act at 1. rewrite Hr.
  destruct (Hd (SendFrame id payload is_binary) s) as (E1 & E2 & _).
  destruct (IH (during w (SendFrame id payload is_binary) s)) as (s' & -> & E3 & E4).
  exists s'. split; [done|]. by rewrite E3, E4, E1, E2.
Qed.

Lemma packets_sent w id ps fss s :
  well_behaved w -> engineio s = Some id -> Forall2 (fun p fs => parser_encode (parser s) p = Ok fs) ps fss ->
  exists s', for_each (send_packet w) ps s = (s', send_frames id (concat fss), Ok tt).
Proof.
  intros Hw Hid Henc. revert s Hid Henc. revert fss. induction ps as [|p ps IH]; intros fss s Hid Henc.
  - apply Forall2_nil_inv_l in Henc as ->. by exists s.
  - apply Forall2_cons_inv_l in Henc as (fs & fss' & Ep & Henc & ->). cbn [for_each concat].
    destruct (frames_sent w id fs s Hw) as (s1 & E1 & F1 & F2).
    assert (Es : send_packet w p s = (s1, send_frames id fs, Ok tt)).
    { unfold send_packet. unfold mbind, prog_bind, gets, lift. rewrite Hid, Ep. by rewrite E1. }
    destruct (IH fss' s1) as (s2 & E2); [by rewrite F2|by rewrite F1|].
    exists s2. unfold mbind, prog_bind. rewrite Es, E2. unfold send_frames. by rewrite fmap_app.
Qed.

Lemma handed_over_frame `{JsonLib} now receiver payload is_binary messages :
  handed_over now receiver ((if is_binary : bool then payload else "4"%char :: payload, is_binary) :: messages)
  = (payload, is_binary) :: handed_over now receiver messages.
Proof. by destruct is_binary. Qed.

Lemma written_frame e id payload is_binary evs :
  open_ e = true -> has_transport e = true ->
  written e (SendFrame id payload is_binary :: evs)
  = (if is_binary : bool then payload else "4"%char :: payload, is_binary) :: written e evs.
Proof. intros Ho Ht. unfold written. cbn. unfold engine_send at 1. rewrite Ho, Ht. by destruct is_binary. Qed.

(** An open session and the one at the other end carry the frames unchanged. *)
Lemma carried `{JsonLib} id e now receiver frames :
  open_ e = true -> has_transport e = true ->
  handed_over now receiver (written e (send_frames id frames)) = frames.
Proof.
  intros Ho Ht. induction frames as [|[payload is_binary] frames IH]; [done|].
  change (send_frames id ((payload, is_binary) :: frames))
    with (SendFrame id payload is_binary :: send_frames id frames).
  by rewrite written_frame, handed_over_frame, IH.
Qed.
End delivery.

Section delivery_property.
Context {P : Type} `{ParserLaws P} `{JsonLib}.

(** End to end: packets one client sends over an open session reach the
    sockets of the client at the other end, each exactly once and in order: the
    calls made there are those the received packets ask for, and the parser is
    ready for the next packet.  Client, parser and session are the definitions of
    the components; the wire carries the messages in order. *)
Theorem packets_delivered (w_sender w_receiver : world P) (sender receiver : impl P) (from to : nat) (e : engine)
    (now : Z) (ps : list packet) (fss : list (list frame)) :
  well_behaved w_sender -> well_behaved w_receiver ->
  engineio sender = Some from -> engineio receiver = Some to ->
  open_ (session_of w_sender from) = true -> has_transport (session_of w_sender from) = true ->
  Forall encodable ps -> Forall2 (fun p fs => parser_encode (parser sender) p = Ok fs) ps fss ->
  at_rest (parser receiver) -> Forall (fun p => p_nsp (received p) ∈ sockets receiver) ps ->
  exists sender' sent receiver',
    for_each (send_packet w_sender) ps sender = (sender', sent, Ok tt) /\
    deliver w_receiver to (handed_over now e (written (session_of w_sender from) sent)) receiver
    = (receiver', omap (fun p => delivery (received p)) ps, Ok tt) /\
    at_rest (parser receiver').
Proof.
  intros Hs Hr Hfrom Hto Ho Ht Hps Henc Hrest Hns.
  destruct (packets_sent w_sender from ps fss sender Hs Hfrom Henc) as (sender' & E1).
  destruct (stream_decodes (parser sender) (parser receiver) ps fss default_packet Hps Hrest Henc)
    as (d & out' & E2 & Hd).
  destruct (frames_delivered w_receiver to (concat fss) receiver default_packet d out' (received <$> ps) Hr Hto E2)
    as (receiver' & E3 & F1 & _).
  { by apply Forall_fmap. }
  exists sender', (send_frames from (concat fss)), receiver'. split; [done|].
  rewrite carried by done. rewrite E3, F1. split; [|done]. f_equal. f_equal.
  clear. induction ps as [|p ps IH]; [done|]. cbn. rewrite IH. by destruct (delivery (received p)).
Qed.
End delivery_property.

(** ** An event, from [emit] to the listener *)

(** The arguments an emission passes. *)
Definition event_args (data : json) : list json :=
  match data with JArray l => l | JNull => [] | _ => [data] end.

(** An event emitted on a namespace asks the peer's socket to dispatch an
    event of the same name with the same arguments, binary values included (their
    subtype is not transmitted), and with the id exactly if an acknowledgement
    was asked for. *)
Theorem event_routed (nsp event : bstr) (id : Z) (data : json) :
  route (json_received (event_packet nsp id event data))
  = Some (MDispatchEvent event (JArray (wire_norm <$> event_args data)) (id_received id)).
Proof.
  assert (E : event_payload event data = JArray (JString event :: event_args data)).
  { unfold event_payload. destruct data; try done. apply (fold_push_back l). }
  unfold event_packet. rewrite E. unfold json_received, prepare_encoded. cbn [p_type p_data p_nsp p_id has_payload_type].
  destruct (deconstruct_binary _ []) as [d atts]. cbn [p_type p_data p_nsp p_id].
  change (wire_norm (JArray (JString event :: event_args data)))
    with (JArray (JString event :: List.map wire_norm (event_args data))).
  unfold route. cbn [p_type p_data p_nsp p_id]. rewrite (fold_push_back _ []).
  by destruct (bool_decide (atts = [])).
Qed.

(** ** Witnesses: a client of the text protocol *)

Module ClientDemo.
#[local] Existing Instances Codec.lib Codec.laws.

Definition uri : bstr := "http://localhost:3000".
Definition open_engine : engine := mk_engine true true false false "sid" 25000 20000 true 0.

(** Handlers and listeners return and touch nothing; the socket "/a" cannot be
    told to disconnect, nor the session be closed. *)
Definition calm : world json_parser :=
  mk_world (fun _ s => s) (fun _ => None) (fun _ => true) (fun _ => open_engine) (1 # 2) (fun q => q).
Definition failing : world json_parser :=
  mk_world (fun _ s => s)
    (fun ev => match ev with
               | CallSocket nsp MDisconnect => if decide (nsp = bs "/a") then Some (user_exception 1) else None
               | CloseSession _ => Some (runtime_error "close")
               | _ => None
               end)
    (fun nsp => bool_decide (nsp <> bs "/c")) (fun _ => open_engine) (1 # 2) (fun q => q).

Definition options_with (attempts : Z) : client_options :=
  mk_options parser_json None true false [] None "/socket.io/" [] attempts 2000 30000 (1 # 2).

(** Connected, with three sockets. *)
Definition connected_client (attempts : Z) : impl json_parser :=
  (run_ops calm [OSocket "/b" JNull; OSocket "/a" JNull; OSocket "/c" JNull; OConnect uri]
     (new_impl (options_with attempts) idle_parser)).1.

(** The connection is lost, found again by the reconnect thread, and lost again. *)
Definition two_losses : list client_op :=
  [OSessionOpen 0; OSessionClose 0 "lost"; OReconnectThread uri; OSessionOpen 1; OSessionClose 1 "lost"].

Example lifecycle :
  (run_ops calm two_losses (connected_client 1)).2 =
  [CallSocket "/a" MConnect; CallSocket "/b" MConnect; CallSocket "/c" MConnect; HandlerOpen;
   CallSocket "/a" (MMarkConnected false []); CallSocket "/b" (MMarkConnected false []);
   CallSocket "/c" (MMarkConnected false []); HandlerClose "lost"; HandlerReconnect 0 2000;
   StartReconnectThread 2000 uri; NewSession 1 (new_transport_config false); ReleaseSession 0; HandlerReconnecting;
   OpenSession 1 "ws://localhost:3000/socket.io/?EIO=4&transport=websocket";
   CallSocket "/a" MConnect; CallSocket "/b" MConnect; CallSocket "/c" MConnect; HandlerOpen;
   CallSocket "/a" (MMarkConnected false []); CallSocket "/b" (MMarkConnected false []);
   CallSocket "/c" (MMarkConnected false []); HandlerClose "lost"; HandlerFail].
Proof. vm_compute. reflexivity. Qed.

Definition conversation : list packet :=
  [event_packet "/a" 7 "greet" (JString "hello");
   event_packet "/b" (-1) "upload" (JArray [JBinary (bs "abc") (Some 4)])].

Lemma conversation_encodable : Forall (encodable (P := json_parser)) conversation.
Proof.
  assert (Hnsp : forall c, c <> ","%char -> nsp_ok ["/"%char; c]).
  { intros c Hc. right. exists [c]. split; [done|]. intros Hin%list_elem_of_singleton. congruence. }
  apply Forall_cons; split; [|apply Forall_cons; split; [|constructor]];
    (split_and!; [done|by apply Hnsp|unfold int_max; cbn; lia|by right; left|vm_compute; reflexivity..]).
Qed.

Lemma calm_well_behaved : well_behaved calm.
Proof. by split. Qed.

Lemma calm_sessions : world_sessions calm.
Proof. intros ev s. apply session_step_refl. Qed.
End ClientDemo.

#[local] Existing Instances Codec.lib Codec.laws.

(** The client gives up although its only attempt succeeded. *)
Lemma reconnect_budget_witness :
  let '(s', evs) := run_ops ClientDemo.calm ClientDemo.two_losses (ClientDemo.connected_client 1) in
  gave_up evs /\ attempt_numbers evs = seqZ 0 (reconnect_attempts_used s').
Proof.
  pose proof (reconnect_budget ClientDemo.calm ClientDemo.two_losses (ClientDemo.connected_client 1)
                (fun _ _ => conj eq_refl eq_refl)) as T.
  assert (Hno : forall u, OConnect u ∉ ClientDemo.two_losses).
  { intros u Hu. unfold ClientDemo.two_losses in Hu. repeat (apply elem_of_cons in Hu as [Hu|Hu]; [discriminate Hu|]).
    by apply elem_of_nil in Hu. }
  specialize (T Hno ltac:(vm_compute; reflexivity) ltac:(vm_compute; discriminate)).
  destruct (run_ops _ _ _) as [s' evs] eqn:E. destruct T as (T1 & _ & _). split; [|exact T1].
  apply (f_equal snd) in E. rewrite ClientDemo.lifecycle in E. cbn [snd] in E. subst evs.
  unfold gave_up. repeat (apply elem_of_cons; (left; reflexivity) || right).
Defined.

Lemma superseded_sessions_silent_witness :
  let s' := (run_ops ClientDemo.calm [OSocket "/d" JNull; OSessionFrame 0 "0" false]
               (run_ops ClientDemo.calm ClientDemo.two_losses (ClientDemo.connected_client 1)).1).1 in
  handle_engineio_close ClientDemo.calm 0 "late" s' = (s', [], Ok tt).
Proof.
  assert (Hid : superseded 0 (run_ops ClientDemo.calm ClientDemo.two_losses (ClientDemo.connected_client 1)).1).
  { vm_compute. split; [lia|discriminate]. }
  intros s'.
  destruct (superseded_sessions_silent ClientDemo.calm [OSocket "/d" JNull; OSessionFrame 0 "0" false] _ 0
              ClientDemo.calm_sessions Hid) as [_ T].
  apply (T [] false (bs "late") []).
Defined.

(** The disconnect of "/a" fails first; "/b" and the session are still closed. *)
Lemma shutdown_completes_witness :
  (exists s', close ClientDemo.failing (ClientDemo.connected_client 0) =
     (s', [WakeReconnectThread; CallSocket "/a" MCancelTimedAcks; CallSocket "/a" MDisconnect;
           CallSocket "/b" MCancelTimedAcks; CallSocket "/b" MDisconnect; CallSocket "/c" MCancelTimedAcks;
           CloseSession 0], Throw (user_exception 1)) /\ intentional_close s' = true).
Proof.
  destruct (shutdown_completes ClientDemo.failing (ClientDemo.connected_client 0)) as [T _]; [|exact T].
  intros ev s. by split_and!.
Defined.

Lemma packets_delivered_witness :
  exists sender' sent receiver',
    for_each (send_packet ClientDemo.calm) ClientDemo.conversation (ClientDemo.connected_client 0)
    = (sender', sent, Ok tt) /\
    deliver ClientDemo.calm 0 (handed_over 0 ClientDemo.open_engine (written ClientDemo.open_engine sent))
      (ClientDemo.connected_client 0)
    = (receiver', [CallSocket "/a" (MDispatchEvent "greet" (JArray [JString "hello"]) 7);
                   CallSocket "/b" (MDispatchEvent "upload" (JArray [JBinary (bs "abc") None]) (-1))], Ok tt) /\
    at_rest (parser receiver').
Proof.
  assert (E : omap (fun p => delivery (received (P := json_parser) p)) ClientDemo.conversation =
              [CallSocket "/a" (MDispatchEvent "greet" (JArray [JString "hello"]) 7);
               CallSocket "/b" (MDispatchEvent "upload" (JArray [JBinary (bs "abc") None]) (-1))]).
  { vm_compute. reflexivity. }
  rewrite <-E.
  apply (packets_delivered (P := json_parser) ClientDemo.calm ClientDemo.calm (ClientDemo.connected_client 0)
           (ClientDemo.connected_client 0) 0 0 ClientDemo.open_engine 0 ClientDemo.conversation
           [[(dq "2/a,7['greet','hello']", false)];
            [(dq "51-/b,['upload',{'_placeholder':true,'num':0}]", false); (bs "abc", true)]]).
  1-2: exact ClientDemo.calm_well_behaved.
  1-2: vm_compute; reflexivity.
  1-2: reflexivity.
  - exact ClientDemo.conversation_encodable.
  - constructor; [vm_compute; reflexivity|]. constructor; [vm_compute; reflexivity|constructor].
  - vm_compute; reflexivity.
  - apply (bool_decide_unpack _). vm_compute. exact I.
Defined.
