(* ===== verification/ClientCode.v ===== *)
(** * The programs of the client as code with mutexes

    Client.v gives the methods of src/client.cpp as programs over the members, with the
    calls they make; ClientLocks.v as code over the mutexes, with the data
    forgotten.  Here the two are one program: each run of a method in Client.v is a run of
    its code, with the same calls in the same order and the same outcome, and with
    known mutexes held at each call. *)

From S2P Require Export ClientSpec.
From S2P Require Export ClientLocks.
From stdpp Require Import options.
#[local] Set Default Proof Using "Type*".
Local Open Scope nat_scope.

(** ** Calls in code *)

(** Calls that may come back to the client, and others. *)
Definition may_call_back (ev : client_event) : bool :=
  match ev with
  | ReleaseSession _ | OpenSession _ _ | CloseSession _ | SyncCloseSession _ | StopReconnectThread | StartReconnectThread _ _
  | HandlerOpen | HandlerClose _ | HandlerFail | HandlerReconnecting | HandlerReconnect _ _ | HandlerError _ => true
  | CallSocket _ _ | CreateSocket _ _ | NewSession _ _ | SendFrame _ _ _ | WakeReconnectThread => false
  end.
Definition comes_back (ev : client_event) : bool :=
  match ev with CreateSocket _ _ | WakeReconnectThread => true | _ => false end.
Definition library_call (ev : client_event) : bool :=
  match ev with NewSession _ _ | SendFrame _ _ _ => true | _ => false end.

(** The code of the methods of a socket that the client calls. *)
Inductive method_code (nsp : bstr) : method -> code -> Prop :=
  | mc_connect : method_code nsp MConnect (socket_connect nsp)
  | mc_disconnect : method_code nsp MDisconnect (socket_disconnect nsp)
  | mc_set_auth auth : method_code nsp (MSetAuth auth) (set_auth nsp)
  | mc_event event data id : method_code nsp (MDispatchEvent event data id) (dispatch_event nsp)
  | mc_ack id data : method_code nsp (MDispatchAck id data) (dispatch_ack nsp)
  | mc_mark connected reason : method_code nsp (MMarkConnected connected reason) (mark_connected nsp connected)
  | mc_cancel : method_code nsp MCancelTimedAcks (cancel_timed_acks nsp)
  | mc_cancel_new : method_code nsp MCancelTimedAcks (cancel_no_acks nsp)
  | mc_wait : method_code nsp MWaitTimedAcks (wait_for_timed_acks nsp)
  | mc_resume : method_code nsp MResumeTimedAcks (resume_timed_acks nsp).

(** A call and the mutexes of the client held during it, the last taken first. *)
Abbreviation call := (list mutex * client_event)%type.

(** [runs nsps held c calls threw nsps']: undisturbed, with the mutexes [held], the code makes these
    calls and returns, or throws.  It has the namespaces [nsps] at first, [nsps'] in the end. *)
Inductive runs : list bstr -> list mutex -> code -> list call -> bool -> list bstr -> Prop :=
  | run_skip nsps held : runs nsps held Skip [] false nsps
  | run_seq nsps held a b calls1 nsps1 calls2 threw nsps2 :
      runs nsps held a calls1 false nsps1 -> runs nsps1 held b calls2 threw nsps2 ->
      runs nsps held (a ;; b) (calls1 ++ calls2) threw nsps2
  | run_seq_throws nsps held a b calls nsps' : runs nsps held a calls true nsps' -> runs nsps held (a ;; b) calls true nsps'
  | run_locked nsps held m body calls threw nsps' :
      m ∉ held -> runs nsps (m :: held) body calls threw nsps' -> runs nsps held (Locked m body) calls threw nsps'
  | run_left nsps held a b calls threw nsps' : runs nsps held a calls threw nsps' -> runs nsps held (Choose a b) calls threw nsps'
  | run_right nsps held a b calls threw nsps' : runs nsps held b calls threw nsps' -> runs nsps held (Choose a b) calls threw nsps'
  | run_break nsps held body : runs nsps held (Loop body) [] false nsps
  | run_again nsps held body calls1 nsps1 calls2 threw nsps2 :
      runs nsps held body calls1 false nsps1 -> runs nsps1 held (Loop body) calls2 threw nsps2 ->
      runs nsps held (Loop body) (calls1 ++ calls2) threw nsps2
  | run_again_throws nsps held body calls nsps' : runs nsps held body calls true nsps' -> runs nsps held (Loop body) calls true nsps'
  | run_try nsps held body handler calls nsps' :
      runs nsps held body calls false nsps' -> runs nsps held (Try body handler) calls false nsps'
  | run_caught nsps held body handler calls1 nsps1 calls2 threw nsps2 :
      runs nsps held body calls1 true nsps1 -> runs nsps1 held handler calls2 threw nsps2 ->
      runs nsps held (Try body handler) (calls1 ++ calls2) threw nsps2
  | run_raise nsps held : runs nsps held Raise [] true nsps
  | run_quiet nsps held evs :
      Forall (fun ev => comes_back ev = true) evs -> runs nsps held Quiet (pair held <$> evs) false nsps
  | run_library nsps held evs threw :
      Forall (fun ev => library_call ev = true) evs -> runs nsps held Library (pair held <$> evs) threw nsps
  | run_outside nsps held ev threw : may_call_back ev = true -> runs nsps held Outside [(held, ev)] threw nsps
  | run_outside_other nsps held threw : runs nsps held Outside [] threw nsps
  | run_if nsps held nsp a b calls threw nsps' :
      runs nsps held (if decide (nsp ∈ nsps) then a else b) calls threw nsps' ->
      runs nsps held (IfSocket nsp a b) calls threw nsps'
  | run_add nsps held nsp : runs nsps held (AddSocket nsp) [] false (insert_nsp nsp nsps)
  | run_each_socket nsps held body calls threw nsps' :
      runs nsps held (Each nsps body) calls threw nsps' -> runs nsps held (EachSocket body) calls threw nsps'
  | run_snapshot nsps held body calls threw nsps' :
      Sockets ∉ held -> runs nsps held (Each nsps body) calls threw nsps' -> runs nsps held (EachSnapshot body) calls threw nsps'
  | run_last nsps held body : runs nsps held (Each [] body) [] false nsps
  | run_next nsps held nsp rest body calls1 nsps1 calls2 threw nsps2 :
      runs nsps held (socket_code body nsp) calls1 false nsps1 -> runs nsps1 held (Each rest body) calls2 threw nsps2 ->
      runs nsps held (Each (nsp :: rest) body) (calls1 ++ calls2) threw nsps2
  | run_next_throws nsps held nsp rest body calls nsps' :
      runs nsps held (socket_code body nsp) calls true nsps' -> runs nsps held (Each (nsp :: rest) body) calls true nsps'
  | run_method nsps held nsp m c threw :
      method_code nsp m c -> runs nsps held c [] threw nsps -> runs nsps held c [(held, CallSocket nsp m)] threw nsps.

Create HintDb runs.
#[export] Hint Constructors runs method_code : runs.

(** ** Runs of code are runs of a thread *)

Definition leaving (threw : bool) (t : thread) : thread := if threw then unwind t else t.

Definition quiet (t : thread) : Prop := forall m, ~ holds m t.

(** One thread among others that hold no mutex. *)
Section among.
Context (ts : list thread) (i : nat) (Hi : i < length ts) (Hothers : forall j u, j <> i -> ts !! j = Some u -> quiet u).

Definition among (nsps : list bstr) (t : thread) : locks := mk_locks nsps (<[i := t]> ts).

Lemma among_at nsps t : threads (among nsps t) !! i = Some t.
Proof. by apply list_lookup_insert_eq. Qed.

Lemma among_insert nsps nsps' t t' : mk_locks nsps' (<[i := t']> (threads (among nsps t))) = among nsps' t'.
Proof. unfold among. cbn. by rewrite list_insert_insert_eq. Qed.

Lemma among_step nsps t nsps' t' : thread_step nsps t nsps' t' -> own_step (among nsps t) (among nsps' t').
Proof. intros H. rewrite <- (among_insert nsps nsps' t t'). eapply own_local; [apply among_at|done]. Qed.

Lemma among_lock nsps c t m body rest :
  locking nsps c = Some (m, body, rest) -> ~ holds m t -> own_step (among nsps (Do c :: t)) (among nsps (body ++ Unlock m :: rest ++ t)).
Proof.
  intros E Hm. rewrite <- (among_insert nsps nsps (Do c :: t) (body ++ Unlock m :: rest ++ t)). eapply own_lock; [apply among_at|done|].
  apply Forall_lookup. cbn. intros j u Ej Hu. apply list_lookup_insert_Some in Ej as [(-> & <- & _)|[Hj Ej]]; [|exact (Hothers j u (not_eq_sym Hj) Ej m Hu)].
  apply elem_of_cons in Hu as [?|?]; done.
Qed.

Lemma among_rtc nsps t nsps' t' s : thread_step nsps t nsps' t' -> rtc own_step (among nsps' t') s -> rtc own_step (among nsps t) s.
Proof. intros. eapply rtc_l; [by apply among_step|done]. Qed.

(** The thread holds no other mutex than these. *)
Definition holds_only (held : list mutex) (t : thread) : Prop := forall m, holds m t -> m ∈ held.

Lemma holds_only_unlock held m t : holds_only held t -> holds_only (m :: held) (Unlock m :: t).
Proof. intros H m' [[= ->]|?]%elem_of_cons; [by left|right; auto]. Qed.
Lemma holds_only_item held it t : (forall m, it <> Unlock m) -> holds_only held t -> holds_only held (it :: t).
Proof. intros Hit H m [E|?]%elem_of_cons; [by destruct (Hit m)|auto]. Qed.

Lemma code_runs nsps held c calls threw nsps' t :
  runs nsps held c calls threw nsps' -> holds_only held t ->
  rtc own_step (among nsps (Do c :: t)) (among nsps' (leaving threw t)).
Proof.
  intros H. revert t. induction H; intros t Ht; cbn [leaving];
    try (eapply among_rtc; [econstructor|]; first [apply rtc_refl | by eauto]).
  - eapply among_rtc; [constructor|]. etrans; [apply IHruns1, holds_only_item; done|]. by apply IHruns2.
  - eapply among_rtc; [constructor|]. by apply (IHruns (Do b :: t)), holds_only_item.
  - eapply rtc_l; [by apply among_lock; [|intros ?%Ht]|]. etrans; [apply IHruns, holds_only_unlock; done|].
    destruct threw; apply rtc_once, among_step; constructor.
  - eapply among_rtc; [apply step_again|]. etrans; [apply IHruns1, holds_only_item; done|]. by apply IHruns2.
  - eapply among_rtc; [apply step_again|]. by apply (IHruns (Do (Loop body) :: t)), holds_only_item.
  - eapply among_rtc; [constructor|]. etrans; [apply IHruns, holds_only_item; done|]. apply rtc_once, among_step. constructor.
  - eapply among_rtc; [constructor|]. etrans; [apply IHruns1, holds_only_item; done|]. by apply IHruns2.
  - destruct threw; apply rtc_once, among_step; constructor.
  - destruct threw; apply rtc_once, among_step; constructor.
  - destruct threw; apply rtc_once, among_step; constructor.
  - eapply rtc_l; [by apply among_lock; [|intros ?%Ht]|]. eapply among_rtc; [constructor|]. by apply IHruns.
  - eapply among_rtc; [constructor|]. etrans; [apply IHruns1, holds_only_item; done|]. by apply IHruns2.
  - eapply among_rtc; [constructor|]. by apply (IHruns (Do (Each rest body) :: t)), holds_only_item.
  - by apply IHruns.
Qed.
End among.

(** ** Programs follow code *)

(** The mutexes of the client that may be held at a call. *)
Definition held_at (ev : client_event) : list (list mutex) :=
  match ev with
  | CallSocket _ (MSetAuth _ | MConnect | MResumeTimedAcks) | CreateSocket _ _ => [[Sockets]]
  | CallSocket _ (MMarkConnected false _ | MCancelTimedAcks) => [[]; [Sockets]]
  | SendFrame _ _ _ => [[Send]]
  | _ => [[]]
  end.

Definition disciplined (c : call) : Prop := c.1 ∈ held_at c.2.

Section follows.
Context {P : Type}.

(** From the members [s] the program makes the calls of a run of the code, with its outcome. *)
Definition follows {A} (s : Client.impl P) (held : list mutex) (c : code) (m : prog P A) : Prop :=
  exists calls, runs (sockets s) held c calls (negb (is_ok (m s).2)) (sockets (m s).1.1) /\
    calls.*2 = (m s).1.2 /\ Forall disciplined calls.

(** Code [c] that goes on with [b] when [a] has returned. *)
Definition goes_on (held : list mutex) (a b c : code) : Prop := forall nsps,
  (forall calls1 nsps1 calls2 threw nsps2, runs nsps held a calls1 false nsps1 -> runs nsps1 held b calls2 threw nsps2 ->
    runs nsps held c (calls1 ++ calls2) threw nsps2) /\
  (forall calls nsps', runs nsps held a calls true nsps' -> runs nsps held c calls true nsps').

Lemma goes_on_seq held a b : goes_on held a b (a ;; b)%code.
Proof. split; eauto with runs. Qed.
Lemma goes_on_each held nsp rest body : goes_on held (socket_code body nsp) (Each rest body) (Each (nsp :: rest) body).
Proof. split; eauto with runs. Qed.

Lemma follows_bind_by {A B} s held a b c (m : prog P A) (k : A -> prog P B) :
  goes_on held a b c -> follows s held a m -> (forall x, follows (m s).1.1 held b (k x)) -> follows s held c (m ≫= k).
Proof.
  unfold follows, mbind, prog_bind. intros Hc (calls1 & H1 & E1 & D1) Hk. destruct (Hc (sockets s)) as [Hon Hthrows].
  destruct (m s) as [[s1 evs1] [x|e]]; cbn in *.
  - destruct (Hk x) as (calls2 & H2 & E2 & D2). destruct (k x s1) as [[s2 evs2] r]; cbn in *.
    exists (calls1 ++ calls2). split_and!; [by eapply Hon|by rewrite fmap_app, E1, E2|by apply Forall_app].
  - exists calls1. split_and!; [by apply Hthrows|done..].
Qed.

Lemma follows_bind {A B} s held a b (m : prog P A) (k : A -> prog P B) :
  follows s held a m -> (forall x, follows (m s).1.1 held b (k x)) -> follows s held (a ;; b)%code (m ≫= k).
Proof. apply follows_bind_by, goes_on_seq. Qed.

Lemma follows_gets {A B} s held c (f : Client.impl P -> A) (k : A -> prog P B) :
  follows s held c (k (f s)) -> follows s held c (a ← gets f; k a)%stdpp.
Proof. unfold follows, mbind, prog_bind, gets. by destruct (k (f s) s) as [[s2 evs2] r]. Qed.

Lemma follows_modify {B} s held c f (k : unit -> prog P B) :
  sockets (f s) = sockets s -> follows (f s) held c (k tt) -> follows s held c (modify f ≫= k).
Proof. unfold follows, mbind, prog_bind, modify. intros E. destruct (k tt (f s)) as [[s2 evs2] r]. by rewrite E. Qed.

(** Code that makes no call the program knows of. *)
Lemma follows_silent {A} s held a b (m : prog P A) :
  runs (sockets s) held a [] false (sockets s) -> follows s held b m -> follows s held (a ;; b)%code m.
Proof. intros Ha (calls & H & ? & ?). exists calls. split_and!; [by apply (run_seq _ _ _ _ [] (sockets s) calls)|done..]. Qed.

Lemma follows_ret {A} s held c (a : A) : runs (sockets s) held c [] false (sockets s) -> follows s held c (mret a).
Proof. intros. by exists []. Qed.

Lemma follows_add {B} s held c nsp f (k : unit -> prog P B) :
  sockets (f s) = insert_nsp nsp (sockets s) -> follows (f s) held c (k tt) -> follows s held (AddSocket nsp ;; c)%code (modify f ≫= k).
Proof.
  unfold follows, mbind, prog_bind, modify. intros E (calls & Hr & Ec & D). destruct (k tt (f s)) as [[s2 evs2] r]. cbn in *.
  exists calls. split_and!; [|done..]. rewrite E in Hr. eapply (run_seq _ _ _ _ [] _ calls); [apply run_add|done].
Qed.

Lemma follows_raise s held c x : runs (sockets s) held c [] true (sockets s) -> follows s held c (raise (P := P) (A := unit) x).
Proof. intros. by exists []. Qed.

Lemma follows_left {A} s held a b (m : prog P A) : follows s held a m -> follows s held (Choose a b) m.
Proof. intros (calls & ? & ? & ?). exists calls. auto with runs. Qed.
Lemma follows_right {A} s held a b (m : prog P A) : follows s held b m -> follows s held (Choose a b) m.
Proof. intros (calls & ? & ? & ?). exists calls. auto with runs. Qed.

Lemma follows_locked {A} s held mu body (m : prog P A) :
  mu ∉ held -> follows s (mu :: held) body m -> follows s held (Locked mu body) m.
Proof. intros ? (calls & ? & ? & ?). exists calls. auto with runs. Qed.

Lemma follows_if {A} s held nsp a b (m : prog P A) :
  follows s held (if decide (nsp ∈ sockets s) then a else b) m -> follows s held (IfSocket nsp a b) m.
Proof. intros (calls & ? & ? & ?). exists calls. auto with runs. Qed.

Lemma follows_try s held body handler (m : prog P unit) (h : exn -> prog P unit) :
  follows s held body m -> (forall x, (m s).2 = Throw x -> follows (m s).1.1 held handler (h x)) ->
  follows s held (Try body handler) (try_catch m h).
Proof.
  unfold follows, try_catch. intros (calls1 & H1 & E1 & D1) Hh. destruct (m s) as [[s1 evs1] [[]|x]]; cbn in *; [by eauto with runs|].
  destruct (Hh x eq_refl) as (calls2 & H2 & E2 & D2). destruct (h x s1) as [[s2 evs2] r]; cbn in *.
  exists (calls1 ++ calls2). split_and!; [by eapply run_caught|by rewrite fmap_app, E1, E2|by apply Forall_app].
Qed.

Lemma follows_capture s held body e (m : prog P unit) :
  follows s held body m -> follows s held (Try body Skip) (capture e m).
Proof.
  unfold follows, capture. intros (calls & H & E & D). destruct (m s) as [[s1 evs1] [[]|x]]; cbn in *; exists calls; split_and!; auto with runs.
  rewrite <- (app_nil_r calls). by eapply run_caught; [|constructor].
Qed.

Lemma follows_lift {A B} s held c (o : outcome A) (k : A -> prog P B) :
  (forall a, o = Ok a -> follows s held c (k a)) -> runs (sockets s) held c [] true (sockets s) -> follows s held c (lift o ≫= k).
Proof.
  unfold follows, mbind, prog_bind, lift. intros Hk Ht. destruct o as [a|x]; [|by exists []].
  specialize (Hk a eq_refl). by destruct (k a s) as [[s2 evs2] r].
Qed.

Lemma follows_then_ret {A B} s held c (m : prog P A) (b : B) : follows s held c m -> follows s held c (m ≫= fun _ => mret b).
Proof.
  unfold follows, mbind, prog_bind, mret, prog_ret. intros (calls & H & E & D). destruct (m s) as [[s1 evs1] [a|x]]; cbn in *; [|by eauto].
  exists calls. by rewrite app_nil_r.
Qed.
(** ** Calls *)

Context (w : world P).

Lemma follows_act s held c ev :
  (forall threw, runs (sockets s) held c [(held, ev)] threw (sockets (during w ev s))) -> held ∈ held_at ev -> follows s held c (act w ev).
Proof. intros Hc Hd. exists [(held, ev)]. split_and!; [apply Hc|done|by constructor]. Qed.

Lemma follows_quietly s held c ev :
  runs (sockets s) held c [(held, ev)] false (sockets (during w ev s)) -> held ∈ held_at ev -> follows s held c (quietly w ev).
Proof. intros Hc Hd. exists [(held, ev)]. by split_and!; [|..|constructor]. Qed.
End follows.

(** ** The methods of a socket *)

(** Code that comes to its end, or throws, without a call that Client.v knows of. *)
Lemma silent_seq nsps held a b threw :
  runs nsps held a [] false nsps -> runs nsps held b [] threw nsps -> runs nsps held (a ;; b)%code [] threw nsps.
Proof. intros. by apply (run_seq _ _ _ _ [] nsps []). Qed.

Lemma silent_library nsps held threw : runs nsps held Library [] threw nsps.
Proof. by apply (run_library nsps held []). Qed.
Lemma silent_quiet nsps held : runs nsps held Quiet [] false nsps.
Proof. by apply (run_quiet nsps held []). Qed.

Ltac silent :=
  repeat first
    [ apply silent_seq | apply run_skip | apply run_break | apply run_try | apply silent_quiet
    | apply run_locked; [solve [repeat (apply not_elem_of_cons; split; [discriminate|]); apply not_elem_of_nil]|]
    | apply run_right; apply run_skip ].

Definition method_throws (m : method) : bool :=
  match m with MConnect | MDisconnect | MDispatchEvent _ _ _ | MDispatchAck _ _ | MMarkConnected _ _ => true | _ => false end.

Lemma method_silent nsps held nsp m c threw :
  method_code nsp m c -> held ∈ held_at (CallSocket nsp m) -> (threw = true -> method_throws m = true) ->
  runs nsps held c [] threw nsps.
Proof.
  intros Hc Hh Ht. assert (held = [] \/ held = [Sockets]) as Hheld.
  { destruct Hc; cbn in Hh; repeat case_match; repeat (apply elem_of_cons in Hh as [->|Hh]; [by auto|]); by apply elem_of_nil in Hh. }
  clear Hh. destruct Hc; cbn in Ht; try (destruct threw; [by specialize (Ht eq_refl)|]); clear Ht;
    destruct Hheld as [-> | ->].
  1-2: unfold socket_connect, auth, client_send, send_packet; silent; apply run_left; silent; apply run_left, silent_library.
  1-2: unfold socket_disconnect, client_send, send_packet; destruct threw; [apply run_seq_throws, run_left; silent; apply run_left, silent_library|by silent].
  1-2: unfold set_auth; by silent.
  1-2: unfold dispatch_event; silent; apply run_left, run_outside_other.
  1-2: unfold dispatch_ack; silent; apply run_right, run_left, run_outside_other.
  1-2: unfold mark_connected; silent; apply run_left; destruct connected; silent; apply run_left, run_outside_other.
  1-2: unfold cancel_timed_acks; silent; apply run_outside_other.
  1-2: unfold cancel_no_acks; silent; apply silent_library.
  1-2: unfold wait_for_timed_acks; by silent.
  1-2: unfold resume_timed_acks; by silent.
Qed.

(** ** The programs of Client.v *)

Section methods.
Context {P : Type} `{ParserBase P} (w : world P).
(** What runs during a call adds no socket. *)
Context (Hw : forall ev s, sockets (during w ev s) = sockets s).

Lemma follows_method s held nsp m c :
  method_code nsp m c -> method_throws m = true -> held ∈ held_at (CallSocket nsp m) -> follows s held c (act w (CallSocket nsp m)).
Proof. intros Hc Ht Hh. apply follows_act; [|done]. intros threw. rewrite Hw. apply run_method; [done|]. by eapply method_silent. Qed.

Lemma follows_method_quietly s held nsp m c :
  method_code nsp m c -> held ∈ held_at (CallSocket nsp m) -> follows s held c (quietly w (CallSocket nsp m)).
Proof. intros Hc Hh. apply follows_quietly; [|done]. rewrite Hw. apply run_method; [done|]. by eapply method_silent. Qed.

Lemma follows_outside s ev : may_call_back ev = true -> follows s [] Outside (act w ev).
Proof. intros He. apply follows_act; [intros; rewrite Hw; by apply run_outside|]. destruct ev; try done; by left. Qed.
Lemma follows_outside_quietly s ev : may_call_back ev = true -> follows s [] Outside (quietly w ev).
Proof. intros He. apply follows_quietly; [rewrite Hw; by apply run_outside|]. destruct ev; try done; by left. Qed.

Lemma follows_notify s ev : may_call_back ev = true -> follows s [] notify (act w ev).
Proof. intros He. apply follows_silent; [by silent|]. by apply follows_left, follows_outside. Qed.

Lemma follows_each s held body (f : bstr -> prog P unit) l :
  (forall s nsp, follows s held (socket_code body nsp) (f nsp)) -> follows s held (Each l body) (for_each f l).
Proof.
  intros Hf. revert s. induction l as [|nsp l IH]; intros s; cbn [for_each]; [apply follows_ret, run_last|].
  by eapply follows_bind_by; [apply goes_on_each|..].
Qed.
Lemma follows_fold {B} s held body (f : B -> bstr -> prog P B) b l :
  (forall s b nsp, follows s held (socket_code body nsp) (f b nsp)) -> follows s held (Each l body) (fold_each f b l).
Proof.
  intros Hf. revert s b. induction l as [|nsp l IH]; intros s b; cbn [fold_each]; [apply follows_ret, run_last|].
  by eapply follows_bind_by; [apply goes_on_each|..].
Qed.

Lemma follows_each_socket s held body (f : bstr -> prog P unit) :
  (forall s nsp, follows s held (socket_code body nsp) (f nsp)) -> follows s held (EachSocket body) (for_each f (sockets s)).
Proof. intros Hf. destruct (follows_each s held body f (sockets s) Hf) as (calls & ? & ? & ?). exists calls. auto with runs. Qed.

Lemma follows_snapshot {A} s body (m : prog P A) : follows s [] (Each (sockets s) body) m -> follows s [] (EachSnapshot body) m.
Proof. intros (calls & ? & ? & ?). exists calls. split_and!; [|done..]. by apply run_snapshot; [apply not_elem_of_nil|]. Qed.

Lemma follows_ensure s : follows s [] ensure_engineio (Client.ensure_engineio w).
Proof.
  unfold Client.ensure_engineio. apply follows_gets, follows_modify; [done|]. do 2 apply follows_gets.
  apply follows_lift; [|apply run_seq_throws, silent_library]. intros t _.
  apply follows_bind; [apply follows_quietly; [rewrite Hw; apply (run_library _ _ [NewSession _ t]); by constructor|by left]|intros _].
  apply follows_silent; [by silent|]. apply follows_gets. case_match; [apply follows_then_ret; by apply follows_outside_quietly|].
  apply follows_gets, follows_modify; [done|]. apply follows_then_ret.
  case_match; [by apply follows_outside_quietly|apply follows_ret, run_outside_other].
Qed.

Lemma follows_open s id uri transport : follows s [] Outside (open_session w id uri transport).
Proof.
  unfold open_session. apply follows_gets, follows_lift; [|apply run_outside_other]. intros. by apply follows_outside.
Qed.

Lemma follows_connect s uri : follows s [] connect (Client.connect w uri).
Proof.
  unfold Client.connect, connect. apply follows_gets. apply follows_bind; [|intros _].
  { unfold when. case_match; [by apply follows_left, follows_outside_quietly|]. apply follows_right, follows_ret, run_skip. }
  do 2 (apply follows_modify; [done|]). apply follows_gets. apply follows_bind; [|intros _].
  { apply follows_locked; [apply not_elem_of_nil|]. apply follows_each_socket. intros. apply follows_method_quietly; [constructor|by left]. }
  do 2 (apply follows_modify; [done|]). apply follows_bind; [apply follows_ensure|]. intros [id|].
  - apply follows_gets, follows_left, follows_open.
  - apply follows_right, follows_ret, run_skip.
Qed.

Lemma follows_fallback s : follows s [] activate_polling_fallback (Client.activate_polling_fallback w).
Proof.
  unfold Client.activate_polling_fallback, activate_polling_fallback. do 2 apply follows_gets.
  case_match; [apply follows_right, follows_ret, run_skip|]. apply follows_left, follows_modify; [done|].
  apply follows_bind; [by apply follows_notify|intros _]. apply follows_bind; [apply follows_ensure|]. intros [id|].
  - apply follows_gets, follows_left, follows_open.
  - apply follows_right, follows_ret, run_skip.
Qed.

Lemma follows_on_open s : follows s [] on_engineio_open (Client.on_engineio_open w).
Proof.
  unfold Client.on_engineio_open, on_engineio_open. apply follows_gets. apply follows_bind; [|intros _; by apply follows_notify].
  apply follows_locked; [apply not_elem_of_nil|]. apply follows_each_socket. intros. apply follows_method; [constructor|done|by left].
Qed.

Lemma follows_schedule s : follows s [] schedule_reconnect (Client.schedule_reconnect w).
Proof.
  unfold Client.schedule_reconnect, schedule_reconnect. do 2 apply follows_gets. case_match; [by apply follows_left, follows_notify|].
  apply follows_right, follows_modify; [done|]. apply follows_gets. apply follows_bind; [by apply follows_notify|intros _].
  do 2 apply follows_gets. unfold when. case_match; [by apply follows_outside_quietly|apply follows_ret, run_outside_other].
Qed.

Lemma follows_on_close s reason : follows s [] on_engineio_close (Client.on_engineio_close w reason).
Proof.
  unfold Client.on_engineio_close, on_engineio_close. apply follows_gets. apply follows_bind; [|intros _].
  { apply follows_locked; [apply not_elem_of_nil|]. apply follows_each_socket. intros. apply follows_method; [constructor|done|]. by right; left. }
  apply follows_bind; [by apply follows_notify|intros _]. do 2 apply follows_gets. unfold when. case_match.
  - apply follows_left, follows_schedule.
  - apply follows_right, follows_ret, run_skip.
Qed.

Lemma follows_reconnect s uri : follows s [] reconnect_worker (reconnect_now w uri).
Proof.
  unfold reconnect_now, reconnect_worker. apply follows_gets. case_match; [apply follows_right, follows_ret, run_skip|].
  apply follows_left, follows_try; [|intros; by apply follows_notify]. apply follows_bind; [apply follows_ensure|]. intros [id|].
  - apply follows_left, follows_bind; [by apply follows_notify|intros _]. apply follows_gets. case_match.
    + apply follows_right, follows_ret, run_skip.
    + apply follows_gets, follows_left, follows_open.
  - apply follows_right, follows_ret, run_skip.
Qed.
(** The namespace of the packet in a frame. *)
Definition frame_nsp (s : Client.impl P) (payload : bstr) (is_binary : bool) : bstr :=
  match parser_decode (parser s) payload is_binary default_packet with Ok (_, p, _) => p_nsp p | Throw _ => [] end.

(** What a packet asks of its socket, among the branches of the code. *)
Lemma follows_route s nsp m p :
  route p = Some m ->
  follows s [] (Choose (mark_connected nsp true)
            (Choose (mark_connected nsp false)
               (Choose (dispatch_event nsp) (may (dispatch_ack nsp))))) (act w (CallSocket nsp m)).
Proof.
  assert (H1 : forall b r, follows s [] (mark_connected nsp b) (act w (CallSocket nsp (MMarkConnected b r)))).
  { intros b r. apply follows_method; [constructor|done|]. destruct b; by left. }
  assert (H2 : forall e d i, follows s [] (dispatch_event nsp) (act w (CallSocket nsp (MDispatchEvent e d i)))).
  { intros. apply follows_method; [constructor|done|by left]. }
  assert (H3 : forall i d, follows s [] (dispatch_ack nsp) (act w (CallSocket nsp (MDispatchAck i d)))).
  { intros. apply follows_method; [constructor|done|by left]. }
  unfold route, may. repeat case_match; intros [= <-];
    first [by apply follows_left | by do 1 apply follows_right; apply follows_left | by do 2 apply follows_right; apply follows_left | by do 3 apply follows_right; apply follows_left].
Qed.

Lemma follows_frame s payload is_binary :
  follows s [] (on_engineio_frame (frame_nsp s payload is_binary)) (Client.on_engineio_frame w payload is_binary).
Proof.
  unfold Client.on_engineio_frame, on_engineio_frame, frame_nsp. apply follows_gets.
  apply follows_lift; [|apply run_seq_throws, silent_library]. intros [[d p] complete] E. rewrite E.
  apply follows_modify; [done|]. apply follows_silent; [apply silent_library|].
  destruct complete; cbn [negb]; [|apply follows_right, follows_ret, run_skip].
  apply follows_left, follows_silent; [by silent|]. apply follows_gets, follows_if. cbn [sockets].
  case_decide; [|apply follows_ret, run_skip]. destruct (route p) as [m|] eqn:Em; [by eapply follows_route|].
  do 3 apply follows_right. apply follows_right, follows_ret, run_skip.
Qed.

Lemma follows_current s id (m : prog P unit) c : follows s [] c m -> follows s [] (when_current c) (Client.when_current id m).
Proof.
  intros Hc. unfold Client.when_current, when_current, when. apply follows_gets. case_match.
  - apply follows_left, follows_silent; [by silent|]. by apply follows_left.
  - apply follows_right, follows_ret, run_skip.
Qed.

Lemma follows_error s id message : follows s [] handle_engineio_error (Client.handle_engineio_error w id message).
Proof.
  apply follows_current. apply follows_gets. apply follows_bind; [|intros _; by apply follows_notify]. unfold when. case_match.
  - apply follows_left, follows_fallback.
  - apply follows_right, follows_ret, run_skip.
Qed.

Definition norm_nsp (nsp : bstr) : bstr := match nsp with [] => bs "/" | _ => nsp end.

(** What follows does so from every state of the members. *)
Local Ltac any_state s := match goal with |- follows ?st _ _ _ => generalize st; intros s end.

Lemma follows_get_socket s nsp auth : follows s [] (get_socket (norm_nsp nsp)) (Client.get_socket w nsp auth).
Proof.
  unfold Client.get_socket, get_socket. fold (norm_nsp nsp). generalize (norm_nsp nsp). clear nsp. intros nsp.
  apply follows_gets, follows_locked; [apply not_elem_of_nil|]. apply follows_if. case_decide; unfold when.
  - case_match; [|apply follows_right, follows_ret, run_skip]. apply follows_left, follows_method_quietly; [constructor|by left].
  - apply follows_bind; [|intros _].
    { apply follows_quietly; [rewrite Hw; apply (run_quiet _ _ [CreateSocket nsp auth]); by constructor|by left]. }
    any_state s1. apply follows_gets. apply follows_bind; [|intros _].
    { case_match; [|apply follows_right, follows_ret, run_skip]. apply follows_left, follows_method_quietly; [constructor|by right; left]. }
    any_state s2. apply follows_add; [done|]. any_state s3. apply follows_gets, follows_silent; [by silent|].
    case_match; [|apply follows_right, follows_ret, run_skip]. case_match; [|apply follows_right, follows_ret, run_skip].
    apply follows_left, follows_method; [constructor|done|by left].
Qed.

Lemma follows_frames s id (frames : list (bstr * bool)) :
  follows s [Send] Library (for_each (fun '(payload, is_binary) => act w (SendFrame id payload is_binary)) frames).
Proof.
  enough (exists evs, Forall (fun ev => library_call ev = true /\ held_at ev = [[Send]]) evs /\
    (for_each (fun '(payload, is_binary) => act w (SendFrame id payload is_binary)) frames s).1.2 = evs /\
    sockets (for_each (fun '(payload, is_binary) => act w (SendFrame id payload is_binary)) frames s).1.1 = sockets s) as (evs & Hall & E & Es).
  { exists (pair [Send] <$> evs). rewrite Es. split_and!.
    - apply run_library. eapply Forall_impl; [done|]. by intros ? [].
    - by rewrite E, <- list_fmap_compose, list_fmap_id.
    - apply Forall_fmap. eapply Forall_impl; [done|]. unfold disciplined. cbn. intros ev [_ ->]. by left. }
  revert s. induction frames as [|[payload is_binary] frames IH]; intros s; cbn [for_each]; [by exists []|].
  unfold mbind, prog_bind, act. cbn. destruct (raises w _); cbn; [exists [SendFrame id payload is_binary]; rewrite Hw; by repeat constructor|].
  destruct (IH (during w (SendFrame id payload is_binary) s)) as (evs & Hall & E & Es). destruct (for_each _ _ _) as [[s2 evs2] r]. cbn in *.
  exists (SendFrame id payload is_binary :: evs). rewrite Es, Hw, E. by repeat constructor.
Qed.

Lemma follows_send s p : follows s [] send_packet (Client.send_packet w p).
Proof.
  unfold Client.send_packet, send_packet. apply follows_locked; [apply not_elem_of_nil|]. apply follows_gets, follows_silent; [by silent|].
  case_match; [|apply follows_right, follows_ret, run_skip]. apply follows_gets, follows_left, follows_lift; [|apply silent_library].
  intros frames _. apply follows_frames.
Qed.

(** ** Shutdown *)

Lemma follows_rethrow s e : follows s [] (may Raise) (rethrow (P := P) e).
Proof.
  destruct e as [x|]; [apply follows_left, follows_raise, run_raise|apply follows_right, follows_ret, run_skip].
Qed.

Lemma follows_session s e (call : nat -> client_event) :
  (forall id, may_call_back (call id) = true) -> follows s [] (Try (current_engineio ;; may Outside) Skip) (capture e (if_session w call)).
Proof.
  intros Hc. apply follows_capture, follows_gets, follows_silent; [by silent|].
  case_match; [by apply follows_left, follows_outside|apply follows_right, follows_ret, run_skip].
Qed.

Lemma follows_close s : follows s [] close (Client.close w).
Proof.
  unfold Client.close, close. apply follows_modify; [done|]. apply follows_bind; [|intros _].
  { apply follows_quietly; [rewrite Hw; apply (run_quiet _ _ [WakeReconnectThread]); by constructor|by left]. }
  apply follows_gets. apply follows_bind; [|intros e].
  { apply follows_snapshot, follows_fold. clear s. intros s e nsp. unfold close_socket.
    apply follows_bind; [apply follows_method_quietly; [constructor|by left]|intros _].
    apply follows_capture, follows_silent; [by silent|]. unfold when. case_match; [|apply follows_right, follows_ret, run_skip].
    apply follows_left, follows_method; [constructor|done|by left]. }
  apply follows_bind; [by apply follows_session|]. intros. apply follows_rethrow.
Qed.

Lemma follows_sync_close s : follows s [] sync_close (Client.sync_close w).
Proof.
  unfold Client.sync_close, sync_close. apply follows_bind; [apply follows_capture, follows_close|intros e1].
  apply follows_bind; [by apply follows_capture, follows_outside|intros e2]. apply follows_bind; [by apply follows_session|intros e3].
  apply follows_gets. apply follows_bind; [|intros _; apply follows_rethrow].
  apply follows_snapshot, follows_each. intros. apply follows_method_quietly; [constructor|by left].
Qed.

(** ** Every operation *)

Definition op_code (s : Client.impl P) (op : client_op) : code :=
  match op with
  | OConnect _ => connect
  | OSocket nsp _ => get_socket (norm_nsp nsp)
  | OSendPacket _ => send_packet
  | OSessionOpen _ => handle_engineio_open
  | OSessionClose _ _ => handle_engineio_close
  | OSessionFrame _ payload is_binary => handle_engineio_frame (frame_nsp s payload is_binary)
  | OSessionError _ _ => handle_engineio_error
  | OReconnectThread _ => reconnect_worker
  | OClose => close
  | OSyncClose => sync_close
  end.

Lemma operation_follows s op : follows s [] (op_code s op) (run_op w op).
Proof.
  destruct op; cbn [op_code run_op].
  - apply follows_connect.
  - apply follows_get_socket.
  - apply follows_send.
  - apply follows_current, follows_on_open.
  - apply follows_current, follows_on_close.
  - apply follows_current, follows_frame.
  - apply follows_error.
  - apply follows_reconnect.
  - apply follows_close.
  - apply follows_sync_close.
Qed.
End methods.

(** The code is that of an entry point of ClientLocks.v, or [send_packet], which sockets call. *)
Lemma op_entry {P} `{ParserBase P} s op : (exists e, op_code s op = entry_code e) \/ op_code s op = send_packet.
Proof.
  destruct op as [uri|nsp auth|p|id|id reason|id payload is_binary|id message|uri| |]; [left|left|by right|left..].
  - by exists CConnect.
  - by exists (CSocket (norm_nsp nsp)).
  - by exists HOpen.
  - by exists HClose.
  - by exists (HFrame (frame_nsp s payload is_binary)).
  - by exists HError.
  - by exists TReconnect.
  - by exists CClose.
  - by exists CSyncClose.
Qed.

(** [C35] The two models of the client agree: whatever is called, and whatever is thrown, each run of
    a method in Client.v is a run of its code in ClientLocks.v, with the same calls in
    the same order, the same outcome and the same sockets in the end.  It never asks for a
    mutex it holds.  [sockets_mutex_] is held at the calls of sockets in [connect],
    [socket] and the handlers of the session's begin and end, [send_mutex_] at each frame,
    and no mutex of the client at any other call, the life-cycle handlers among them. *)
Theorem client_runs_its_code {P} `{ParserBase P} (w : world P) (s : Client.impl P) (op : client_op) (t : thread) :
  (forall ev s, sockets (during w ev s) = sockets s) -> quiet t ->
  let '(s', evs, r) := run_op w op s in
  let threw := negb (is_ok r) in
  (exists calls, calls.*2 = evs /\ Forall disciplined calls /\ runs (sockets s) [] (op_code s op) calls threw (sockets s')) /\
  (forall ts i, i < length ts -> (forall j u, j <> i -> ts !! j = Some u -> quiet u) ->
    rtc own_step (among ts i (sockets s) (Do (op_code s op) :: t)) (among ts i (sockets s') (leaving threw t))).
Proof.
  intros Hw Ht. destruct (operation_follows w Hw s op) as (calls & Hr & E & D). destruct (run_op w op s) as [[s' evs] r].
  cbn [fst snd] in *. split; [by exists calls|]. intros ts i Hi Hothers. eapply code_runs; [done..|exact Hr|]. by intros m ?%Ht.
Qed.

(** ** Example: the connection is lost, with three sockets and an attempt to reconnect left. *)
#[local] Existing Instances Codec.lib Codec.laws.

Module CodeDemo.
Definition lost : client_op := OSessionClose 0 "lost".

Lemma lost_calls :
  (run_op ClientDemo.calm lost (ClientDemo.connected_client 1)).1.2 =
  [CallSocket "/a" (MMarkConnected false []); CallSocket "/b" (MMarkConnected false []); CallSocket "/c" (MMarkConnected false []);
   HandlerClose "lost"; HandlerReconnect 0 2000; StartReconnectThread 2000 ClientDemo.uri].
Proof. vm_compute. reflexivity. Qed.
End CodeDemo.

Lemma client_runs_its_code_witness :
  (exists calls, calls.*2 = (run_op ClientDemo.calm CodeDemo.lost (ClientDemo.connected_client 1)).1.2 /\ Forall disciplined calls) /\
  rtc own_step
    (mk_locks (sockets (ClientDemo.connected_client 1)) [[Do Outside]; [Do handle_engineio_close; Caller; Do Outside]])
    (mk_locks (sockets (ClientDemo.connected_client 1)) [[Do Outside]; [Caller; Do Outside]]).
Proof.
  pose proof (client_runs_its_code ClientDemo.calm (ClientDemo.connected_client 1) CodeDemo.lost [Caller; Do Outside]
    (fun _ _ => eq_refl) ltac:(intros m Hm; repeat (apply elem_of_cons in Hm as [Hm|Hm]; [discriminate Hm|]); by apply elem_of_nil in Hm)) as T.
  assert (E : (run_op ClientDemo.calm CodeDemo.lost (ClientDemo.connected_client 1)).2 = Ok tt) by (vm_compute; reflexivity).
  assert (Es : sockets (run_op ClientDemo.calm CodeDemo.lost (ClientDemo.connected_client 1)).1.1 = sockets (ClientDemo.connected_client 1))
    by (vm_compute; reflexivity).
  destruct (run_op _ _ _) as [[s' evs] r]. cbn [fst snd] in *. subst r. rewrite Es in T. destruct T as ((calls & H1 & H2 & _) & T2).
  split; [by exists calls|]. apply (T2 [[Do Outside]; []] 1); [cbn; lia|].
  intros [|[|j]] u Hj; [intros [= <-] m Hm; apply elem_of_cons in Hm as [Hm|Hm]; [discriminate Hm|by apply elem_of_nil in Hm]|done|done].
Defined.
