(* ===== verification/SocketCode.v ===== *)
(** * The socket as code with mutexes

    Socket.v and SocketSystem.v give the methods of src/socket.cpp as critical sections
    on the members, with stacks of actions as what threads still have to do; ClientLocks.v
    as code over the mutexes, with the data forgotten.  Here each step of the former
    is a sequence of steps of the latter. *)

From S2P Require Export SocketSpec.
From S2P Require Export ClientCode.
From stdpp Require Import options.
#[local] Set Default Proof Using "Type*".
Local Open Scope nat_scope.

Section simulation.
Context (n : bstr). (* the namespace *)

(** ** What stands for what *)

Definition method_entry (m : method) : entry :=
  match m with
  | MSetAuth _ => SSetAuth n
  | MOn _ _ | MOnAck _ _ | MOnAny _ | MOnAnyAck _ | MOnConnect _ | MOnDisconnect _ => SOn n
  | MOff _ | MOffAll => SOff n
  | MConnect => SConnect n
  | MDisconnect => SDisconnect n
  | MEmit _ _ => SEmit n
  | MEmitAck _ _ _ => SEmitAck n
  | MEmitTimed _ _ _ _ => SEmitTimed n
  | MAcknowledge _ _ => SSendAck n
  | MDispatchEvent _ _ _ => SDispatchEvent n
  | MDispatchAck _ _ => SDispatchAck n
  | MMarkConnected up _ => SMarkConnected n up
  | MCancelTimedAcks => SCancelTimedAcks n
  | MWaitTimedAcks => SWaitTimedAcks n
  | MResumeTimedAcks => SResumeTimedAcks n
  end.

Definition flush_loop : code := Loop (Locked (Sock n) (may (scheduler n)) ;; Choose (expire_ack n) client_send).

(** An action and code that does it. *)
Inductive action_code : action -> code -> Prop :=
  | ac_do m : action_code (ADo m) (entry_code (method_entry m))
  | ac_send fl p : action_code (ASend fl p) client_send
  | ac_may_send fl p : action_code (ASend fl p) (may client_send)
  | ac_send_ack k p : action_code (ASendAck k p) client_send
  | ac_send_or_buffer p : action_code (ASendOrBuffer p) (send_or_buffer n)
  | ac_register d p f :
      action_code (ARegister d p f) (Locked (Sock n) (register_timed_ack n ;; scheduler n) ;; may client_send)
  | ac_flush : action_code AFlush (flush_send_buffer n)
  | ac_expire id : action_code (AExpire id) (expire_ack n)
  | ac_call c : action_code (ACall c) Outside
  | ac_may_call c : action_code (ACall c) (may Outside)
  | ac_set : action_code ASetDisconnected (Locked (Sock n) Skip).

(** What a thread goes back to in the end: nothing, or the loop of the deadline worker. *)
Definition worker_loop : thread := [Do (deadline_worker n); Caller; Do Outside].
Definition base (worker : bool) (t : thread) : Prop :=
  if worker then t = worker_loop \/ t = [Caller; Do Outside] else t = [].

(** A stack of actions and a thread; user code under a call is a [Caller]. *)
Inductive stands (worker : bool) : list action -> thread -> Prop :=
  | st_base t : base worker t -> stands worker [] t
  | st_user rest t : stands worker rest t -> stands worker (AUser :: rest) (Caller :: Do Outside :: t)
  | st_action a c rest t : action_code a c -> stands worker rest t -> stands worker (a :: rest) (Do c :: t)
  | st_flushing rest t : stands worker rest t -> stands worker (AFlush :: rest) (Do flush_loop :: Do (Locked (Sock n) Skip) :: t)
  | st_invoke c rest t : stands worker rest t -> stands worker (ACall c :: AFinish :: rest) (Do (invoke_timed_ack n) :: t)
  | st_finish rest t :
      stands worker rest t -> stands worker (AFinish :: rest) (Catch (finish_timed_ack n ;; Raise) :: Do (finish_timed_ack n) :: t)
  | st_pass c st t : (forall nsps, runs nsps [] c [] false nsps) -> stands worker st t -> stands worker st (Do c :: t).

(** The same with user code that is running on top. *)
Definition matches (worker : bool) (st : list action) (t : thread) : Prop :=
  stands worker st t \/ exists rest t', st = AUser :: rest /\ t = Do Outside :: t' /\ stands worker rest t'.

Lemma stands_quiet worker st t : stands worker st t -> quiet t.
Proof.
  induction 1 as [t Hb| | | | | |]; intros m; unfold holds;
    [|rewrite !elem_of_cons; specialize (IHstands m); unfold holds in *; naive_solver..].
  destruct worker; [destruct Hb as [-> | ->]|rewrite Hb]; unfold worker_loop; rewrite ?elem_of_cons, elem_of_nil; naive_solver.
Qed.

(** ** Steps of one thread *)

(** The thread comes from the one to the other, whatever the others are that hold no mutex. *)
Definition goes (t t' : thread) : Prop := forall ts i nsps,
  i < length ts -> (forall j u, j <> i -> ts !! j = Some u -> quiet u) -> rtc own_step (among ts i nsps t) (among ts i nsps t').

Lemma goes_refl t : goes t t.
Proof. intros ?????. constructor. Qed.

Lemma goes_trans t1 t2 t3 : goes t1 t2 -> goes t2 t3 -> goes t1 t3.
Proof. intros H1 H2 ts i nsps Hi Hj. etrans; [by apply H1|by apply H2]. Qed.

Lemma goes_step t t' : (forall nsps, thread_step nsps t nsps t') -> goes t t'.
Proof. intros H ts i nsps Hi Hj. by apply rtc_once, among_step. Qed.

Lemma goes_code c t threw : (forall nsps, runs nsps [] c [] threw nsps) -> quiet t -> goes (Do c :: t) (leaving threw t).
Proof. intros H Ht ts i nsps Hi Hj. eapply code_runs; [done..|]. by intros m ?%Ht. Qed.

(** The thread comes to one that matches the stack. *)
Definition reaches (worker : bool) (t : thread) (st : list action) : Prop := exists t', goes t t' /\ matches worker st t'.

Lemma reaches_goes worker t t' st : goes t t' -> reaches worker t' st -> reaches worker t st.
Proof. intros H (u & Hu & Hst). exists u. split; [by eapply goes_trans|done]. Qed.

Lemma reaches_here worker t st : stands worker st t -> reaches worker t st.
Proof. intros H. exists t. split; [apply goes_refl|by left]. Qed.

Lemma reaches_user worker t st : stands worker st t -> reaches worker (Do Outside :: t) (AUser :: st).
Proof. intros H. exists (Do Outside :: t). split; [apply goes_refl|right; eauto]. Qed.

Lemma reaches_seq worker a b t st : reaches worker (Do a :: Do b :: t) st -> reaches worker (Do (a ;; b)%code :: t) st.
Proof. apply reaches_goes, goes_step. constructor. Qed.
Lemma reaches_left worker a b t st : reaches worker (Do a :: t) st -> reaches worker (Do (Choose a b) :: t) st.
Proof. apply reaches_goes, goes_step. constructor. Qed.
Lemma reaches_right worker a b t st : reaches worker (Do b :: t) st -> reaches worker (Do (Choose a b) :: t) st.
Proof. apply reaches_goes, goes_step. constructor. Qed.
Lemma reaches_pass worker c t st : (forall nsps, runs nsps [] c [] false nsps) -> quiet t -> reaches worker t st -> reaches worker (Do c :: t) st.
Proof. intros Hc Ht. by apply reaches_goes, (goes_code c t false). Qed.

(** ** Exceptions *)

Lemma unwinding worker rest t s s' rest' :
  stands worker rest t -> SocketSystem.unwind s rest = (s', rest') -> exists t', goes (unwind t) t' /\ stands worker rest' t'.
Proof.
  intros H. revert s. induction H as [t Hb|rest t Hst _|a c rest t Ha _ IH|rest t _ IH|c rest t _ IH|rest t Hst IH|c st t _ _ IH]; intros s Hu.
  - injection Hu as <- <-. exists (unwind t). split; [apply goes_refl|]. constructor.
    destruct worker; [destruct Hb as [-> | ->]; by right|by rewrite Hb].
  - injection Hu as <- <-. exists (Caller :: Do Outside :: t). split; [apply goes_refl|by constructor].
  - destruct Ha; by eapply IH.
  - by eapply IH.
  - by eapply IH.
  - destruct (IH _ Hu) as (t' & Hg & Ht). exists t'. split; [|done]. cbn [unwind]. eapply goes_trans; [|exact Hg].
    apply (goes_code _ (Do (finish_timed_ack n) :: t) true); [|intros m Hm; apply elem_of_cons in Hm as [?|?]; [done|by eapply (stands_quiet worker rest t Hst m)]].
    intros nsps. apply silent_seq; [unfold finish_timed_ack; by silent|constructor].
  - by eapply IH.
Qed.

(** ** Actions *)

(** What a method leaves to be called, if anything. *)
Inductive calls_one : list action -> Prop :=
  | calls_none : calls_one []
  | calls_some c : calls_one [ACall c].

Lemma call_if_one f c : calls_one (call_if f c).
Proof. destruct f; constructor. Qed.
#[local] Hint Resolve call_if_one : core.
#[local] Hint Constructors calls_one : core.

Lemma stands_call worker l st t : calls_one l -> stands worker st t -> stands worker (l ++ st) (Do (may Outside) :: t).
Proof.
  intros [|c] Hst; cbn; [|by apply st_action; [constructor|]]. apply st_pass; [|done]. intros nsps. apply run_right, run_skip.
Qed.

Lemma stands_send worker fl p (b : bool) st t :
  stands worker st t -> stands worker ((if b then [ASend fl p] else []) ++ st) (Do (may client_send) :: t).
Proof.
  intros Hst. destruct b; cbn; [by apply st_action; [constructor|]|]. apply st_pass; [|done]. intros nsps. apply run_right, run_skip.
Qed.

Lemma quiet_do c t : quiet t -> quiet (Do c :: t).
Proof. intros Ht m Hm. apply elem_of_cons in Hm as [?|?]; [done|by apply (Ht m)]. Qed.

(** The code on top has nothing for the stack to do. *)
Local Ltac pass := apply reaches_pass; [intros nsps; solve [by silent | silent; apply run_outside_other | silent; apply silent_library]|by repeat apply quiet_do|].
Local Ltac here := apply reaches_here; repeat (apply st_action; [constructor|]); try done.

Lemma method_reaches worker now m s s' acts evs rest t :
  call_method now m s = Ok (s', acts, evs) -> stands worker rest t ->
  reaches worker (Do (entry_code (method_entry m)) :: t) (acts ++ rest).
Proof.
  intros Hrun Hst. pose proof (stands_quiet _ _ _ Hst) as Hq.
  destruct m; cbn in Hrun |- *; try (injection Hrun as <- <- <-).
  1,6,7,19-21: by pass; here.
  1-4,5,6: by pass; here.
  - apply reaches_seq. pass. here.
  - apply reaches_seq. here.
  - here.
  - unfold emit_ack in Hrun. apply outcome_bind_ok in Hrun as ([id s1] & _ & [= <- <- <-]). apply reaches_seq. pass. here.
  - unfold Socket.emit_timed in Hrun. repeat case_match; simplify_eq/=. apply reaches_seq. pass. here.
  - unfold acknowledge in Hrun. destruct (sent_flags s !! ack_flag ack) as [[]|]; injection Hrun as <- <- <-; [by pass; here|here|by pass; here].
  - apply reaches_seq. pass. apply reaches_seq. apply reaches_here. rewrite <- (assoc_L (++)). apply stands_call; [case_match; auto|].
    apply stands_call; [case_match; auto|done].
  - unfold Socket.dispatch_ack in Hrun. apply reaches_seq. pass.
    destruct (timed_acks s !! id) as [f|]; [|destruct (pending_acks s !! id) as [[f|]|]; injection Hrun as <- <- <-;
      apply reaches_right; [here|by pass; here..]].
    apply outcome_bind_ok in Hrun as ([expired sched] & _ & [= <- <- <-]). apply reaches_left, reaches_here. by apply st_invoke.
  - unfold Socket.mark_connected in Hrun. cbn in Hrun. apply reaches_seq. pass. destruct up, (connected s); cbn in Hrun; injection Hrun as <- <- <-;
      try (by pass; here); apply reaches_left.
    + apply reaches_seq. destruct (flushing_send_buffer s); cbn; [pass; by apply reaches_here, stands_call|].
      apply reaches_left, reaches_here, st_action; [constructor|by apply stands_call].
    + by apply reaches_here, stands_call.
Qed.

(** One turn of the loop in [flush_send_buffer]. *)
Lemma flush_reaches worker now s s' acts evs rest t :
  flush_turn now s = Ok (s', acts, evs) -> stands worker rest t ->
  reaches worker (Do flush_loop :: Do (Locked (Sock n) Skip) :: t) (acts ++ rest).
Proof.
  intros Hrun Hst. pose proof (stands_quiet _ _ _ Hst) as Hq.
  assert (acts = [] \/ (exists id, acts = [AExpire id; AFlush]) \/ exists p, acts = [ASend true p; AFlush]) as Hacts.
  { unfold flush_turn in Hrun. destruct (send_buffer s) as [|p buffer]; [injection Hrun as <- <- <-; by left|].
    destruct (negb (connected s)); [injection Hrun as <- <- <-; by left|].
    destruct (timed_acks _ !! p_id p); [|injection Hrun as <- <- <-; eauto].
    apply outcome_bind_ok in Hrun as (expired & _ & [= <- <- <-]). destruct expired; eauto. }
  destruct Hacts as [->|Hacts]; [by pass; pass; here|].
  apply (reaches_goes _ _ (Do (Locked (Sock n) (may (scheduler n)) ;; Choose (expire_ack n) client_send)%code :: Do flush_loop :: Do (Locked (Sock n) Skip) :: t));
    [apply goes_step; constructor|].
  apply reaches_seq. pass. destruct Hacts as [[id ->]|[p ->]]; [apply reaches_left|apply reaches_right];
    apply reaches_here, st_action; try constructor; done.
Qed.

Lemma action_reaches worker now a c s s' acts evs rest t :
  action_code a c -> ready a s = true -> run_action now a s = Ok (s', acts, evs) -> stands worker rest t ->
  reaches worker (Do c :: t) (acts ++ rest).
Proof.
  intros Hc Hready Hrun Hst. pose proof (stands_quiet _ _ _ Hst) as Hq. destruct Hc; cbn in Hrun;
    try (injection Hrun as <- <- <-).
  - by eapply method_reaches.
  - by apply reaches_pass; [intros nsps; apply run_right, run_skip|..]; [done|here].
  - pass. here.
  - pass. here.
  - unfold Socket.send_or_buffer in Hrun. apply reaches_seq. pass. apply reaches_here. case_match; injection Hrun as <- <- <-.
    + by apply (stands_send worker false p false).
    + by apply (stands_send worker false p true).
  - unfold register_and_send in Hrun. apply outcome_bind_ok in Hrun as ([id s1] & _ & Hrun). apply outcome_bind_ok in Hrun as (expired & _ & Hrun).
    apply reaches_seq. pass. apply reaches_here. repeat case_match; injection Hrun as <- <- <-.
    + by apply (stands_send worker false p false).
    + by apply (stands_send worker false p false).
    + by apply st_action; [constructor|].
  - apply reaches_seq. by eapply flush_reaches.
  - unfold Socket.expire_ack in Hrun. apply reaches_seq. pass. case_match; injection Hrun as <- <- <-; [apply reaches_left|by pass; here].
    by apply reaches_here, st_invoke.
  - by apply reaches_user.
  - by apply reaches_left, reaches_user.
  - pass. here.
Qed.

(** ** Threads *)

Lemma run_reaches worker now st t a rest s s' acts evs :
  stands worker st t -> st = a :: rest -> ready a s = true -> run_action now a s = Ok (s', acts, evs) -> reaches worker t (acts ++ rest).
Proof.
  intros Hst. revert a rest. induction Hst as [t Hb|rest t Hst _|a c rest t Ha Hst _|rest t Hst _|c rest t Hst _|rest t Hst _|c st t Hc Hst IH];
    intros a' rest' E Hready Hrun; simplify_eq/=; try pose proof (stands_quiet _ _ _ Hst) as Hq.
  - by eapply action_reaches.
  - by eapply flush_reaches.
  - apply reaches_seq. eapply reaches_goes; [apply goes_step; constructor|]. by apply reaches_user, st_finish.
  - eapply reaches_goes; [apply goes_step; constructor|]. pass. here.
  - apply reaches_pass; [done..|]. by eapply IH.
Qed.

Definition thrown_ok (now : Z) (a : action) (s : socket) : Prop :=
  is_send a = true \/ exists e, run_action now a s = Throw e /\ e <> undefined_behaviour.

(** The code of an action that throws can throw. *)
Lemma action_throws now a c s : action_code a c -> thrown_ok now a s -> forall nsps, runs nsps [] c [] true nsps.
Proof.
  intros Hc Ht nsps.
  assert (Hsend : runs nsps [] client_send [] true nsps).
  { unfold client_send, send_packet. apply run_left. silent. apply run_left, silent_library. }
  destruct Hc; [|done|by apply run_left|done|..]; destruct Ht as [?|(e & He & Hne)]; cbn in *; try done.
  - destruct m; cbn in *; try discriminate He.
    + exfalso. unfold Socket.emit_ack, next_id in He. case_match; simplify_eq/=.
    + unfold emit_timed. apply run_seq_throws, run_left, run_raise.
    + exfalso. unfold Socket.dispatch_ack, with_sched in He. repeat case_match; simplify_eq/=. by destruct (sched_remove now id _).
  - apply run_seq_throws, run_locked; [apply not_elem_of_nil|]. apply run_seq_throws. unfold register_timed_ack.
    apply run_seq_throws, run_left, run_raise.
  - exfalso. unfold flush_turn, with_sched in He. repeat case_match; simplify_eq/=.
Qed.

Lemma throw_reaches worker now st t a rest s s' rest' :
  stands worker st t -> st = a :: rest -> thrown_ok now a s -> SocketSystem.unwind s rest = (s', rest') -> reaches worker t rest'.
Proof.
  intros Hst. revert a rest. induction Hst as [t Hb|rest t Hst _|a c rest t Ha Hst _|rest t Hst _|c rest t Hst _|rest t Hst _|c st t Hc Hst IH];
    intros a' rest0 E Ht Hu; simplify_eq/=; try pose proof (stands_quiet _ _ _ Hst) as Hq.
  - by destruct Ht as [?|(e & He & _)].
  - destruct (unwinding _ _ _ _ _ _ Hst Hu) as (t' & Hg & Hst'). exists t'. split; [|by left].
    eapply goes_trans; [|exact Hg]. apply (goes_code c t true); [|done]. by eapply action_throws.
  - exfalso. destruct Ht as [?|(e & He & Hne)]; [done|]. cbn in He. unfold flush_turn, with_sched in He. repeat case_match; simplify_eq/=.
  - by destruct Ht as [?|(e & He & _)].
  - by destruct Ht as [?|(e & He & _)].
  - apply reaches_pass; [done..|]. by eapply IH.
Qed.

(** User code on top, after the end of a call it has made. *)
Lemma user_on_top worker st t rest :
  matches worker st t -> st = AUser :: rest -> exists t', goes t (Do Outside :: t') /\ stands worker rest t'.
Proof.
  intros [Hst|(rest' & t' & -> & -> & Hst)]; [|intros [= <-]; exists t'; split; [apply goes_refl|done]].
  induction Hst as [t Hb|rest' t Hst _|a c rest' t Ha Hst _|rest' t Hst _|c rest' t Hst _|rest' t Hst _|c st t Hc Hst IH]; intros E; simplify_eq/=.
  - exists t. split; [apply goes_step; constructor|done].
  - inversion Ha.
  - destruct (IH eq_refl) as (t' & Hg & Ht'). exists t'. split; [|done]. eapply goes_trans; [|exact Hg].
    apply (goes_code c t false); [done|]. by eapply stands_quiet.
Qed.

(** ** Steps of the system *)

(** Among other threads that hold nothing, in any order. *)
Definition travels (t t' : thread) : Prop := forall nsps l1 l2,
  Forall quiet (l1 ++ l2) -> rtc lock_step (mk_locks nsps (l1 ++ t :: l2)) (mk_locks nsps (l1 ++ t' :: l2)).

Lemma insert_middle (l1 l2 : list thread) t t' : <[length l1 := t']> (l1 ++ t :: l2) = l1 ++ t' :: l2.
Proof. rewrite insert_app_r_alt by lia. by rewrite Nat.sub_diag. Qed.

Lemma goes_travels t t' : goes t t' -> travels t t'.
Proof.
  intros H nsps l1 l2 Hq. specialize (H (l1 ++ t :: l2) (length l1) nsps).
  unfold among in H. rewrite !insert_middle in H. eapply rtc_subrel; [|apply H]; [by constructor|rewrite length_app; cbn; lia|].
  intros j u Hj Hu. apply (proj1 (Forall_forall quiet (l1 ++ l2)) Hq). apply lookup_app_Some in Hu as [Hu|[Hlen Hu]].
  - apply elem_of_app. left. by eapply list_elem_of_lookup_2.
  - apply elem_of_app. right. destruct (j - length l1) as [|k] eqn:E; [lia|]. cbn in Hu. by eapply list_elem_of_lookup_2.
Qed.

Lemma travels_trans t1 t2 t3 : travels t1 t2 -> travels t2 t3 -> travels t1 t3.
Proof. intros H1 H2 nsps l1 l2 Hq. etrans; [by apply H1|by apply H2]. Qed.

Lemma travels_call e t : travels (Do Outside :: t) (Do (entry_code e) :: Caller :: Do Outside :: t).
Proof.
  intros nsps l1 l2 Hq. apply rtc_once. pose proof (lock_call (mk_locks nsps (l1 ++ (Do Outside :: t) :: l2)) (length l1) t e) as H.
  cbn in H. rewrite insert_middle in H. apply H. by rewrite lookup_app_r, Nat.sub_diag by lia.
Qed.

Lemma matches_quiet worker st t : matches worker st t -> quiet t.
Proof. intros [H|(rest & t' & -> & -> & H)]; [by eapply stands_quiet|]. apply quiet_do. by eapply stands_quiet. Qed.

Lemma local_travels worker now s st s' st' evs t :
  local_step now s st s' st' evs -> matches worker st t ->
  (exists a rest, st = a :: rest /\ run_action now a s = Throw undefined_behaviour) \/
  exists t', travels t t' /\ matches worker st' t'.
Proof.
  intros Hstep Hm.
  assert (Hr : forall st' , reaches worker t st' -> exists t', travels t t' /\ matches worker st' t').
  { intros st0 (t' & Hg & Hm'). exists t'. split; [by apply goes_travels|done]. }
  assert (Htop : forall a rest, st = a :: rest -> a <> AUser -> stands worker st t).
  { intros a rest E Ha. destruct Hm as [?|(? & ? & ? & _)]; [done|congruence]. }
  destruct Hstep as [a rest s s' acts evs Hready Hrun|a rest s e s' rest' Hrun Hu|a rest s s' rest' Hs Hu|m rest s|rest s|rest s s' rest' Hu].
  - right. apply Hr. eapply run_reaches; [eapply Htop; [done|by intros ->]|done..].
  - destruct (decide (e = undefined_behaviour)) as [->|Hne]; [left; eauto|right]. apply Hr.
    eapply throw_reaches; [eapply Htop; [done|by intros ->]|done| |done]. right. eauto.
  - right. apply Hr. eapply (throw_reaches worker now); [eapply Htop; [done|by intros ->]|done|by left|done].
  - right. destruct (user_on_top _ _ _ _ Hm eq_refl) as (t' & Hg & Hst). eexists.
    split; [eapply travels_trans; [by apply goes_travels|apply (travels_call (method_entry m))]|].
    left. apply st_action; [constructor|by constructor].
  - right. destruct (user_on_top _ _ _ _ Hm eq_refl) as (t' & Hg & Hst). exists t'. split; [|by left].
    apply goes_travels. eapply goes_trans; [exact Hg|]. apply goes_step. constructor.
  - right. destruct (user_on_top _ _ _ _ Hm eq_refl) as (t' & Hg & Hst). apply Hr.
    destruct (unwinding _ _ _ _ _ _ Hst Hu) as (t2 & Hg2 & Hst2). exists t2. split; [|by left].
    eapply goes_trans; [exact Hg|]. eapply goes_trans; [|exact Hg2]. apply goes_step. constructor.
Qed.

(** The worker and the threads of the system are threads of the client that match. *)
Record simulates (sy : system) (l : locks) : Prop := mk_simulates {
  sim_threads : exists w ts, ClientLocks.threads l = w :: ts /\ matches true (worker sy) w /\ Forall2 (matches false) (SocketSystem.threads sy) ts;
}.

Lemma Forall2_quiet sts ts : Forall2 (matches false) sts ts -> Forall quiet ts.
Proof. induction 1; constructor; [by eapply matches_quiet|done]. Qed.

Definition undefined (sy : system) : Prop := exists a, run_action (clock sy) a (sock sy) = Throw undefined_behaviour.

(** The deadline worker claims an id. *)
Lemma claim_travels id w : matches true [] w -> exists w', travels w w' /\ matches true [AExpire id] w'.
Proof.
  intros [Hst|(? & ? & ? & _)]; [|done]. remember [] as st eqn:E. induction Hst as [t Hb| | | | | |c st t Hc Hst IH]; try done.
  - assert (Hloop : travels worker_loop (Do (expire_ack n) :: worker_loop)).
    { apply goes_travels. eapply goes_trans; [apply goes_step; constructor|]. eapply goes_trans; [apply goes_step; constructor|].
      eapply goes_trans; [apply (goes_code _ (Do (may (expire_ack n)) :: worker_loop) false)|].
      - intros nsps. unfold scheduler. by silent.
      - unfold worker_loop. intros m Hm. repeat (apply elem_of_cons in Hm as [Hm|Hm]; [done|]). by apply elem_of_nil in Hm.
      - apply goes_step. constructor. }
    exists (Do (expire_ack n) :: worker_loop). split; [|left; apply st_action; [constructor|apply st_base; by left]].
    destruct Hb as [-> | ->]; [done|]. eapply travels_trans; [apply goes_travels, goes_step; constructor|].
    eapply travels_trans; [apply (travels_call (TDeadlines n))|done].
  - destruct (IH E) as (w' & Hg & Hw). exists w'. split; [|done]. eapply travels_trans; [|exact Hg].
    apply goes_travels, (goes_code c t false); [done|]. by eapply stands_quiet.
Qed.

Lemma step_simulated sy sy' l :
  step sy sy' -> simulates sy l -> undefined sy \/ exists l', rtc lock_step l l' /\ simulates sy' l'.
Proof.
  intros Hstep [(w & ts & Et & Hw & Hts)]. destruct l as [nsps lts]. cbn in Et. subst lts.
  destruct Hstep as [s wk l1 st l2 c tr s' st' evs Hl|s wk ts0 c tr s' w' evs Hl|s ts0 c tr sc id sc' _ _|s wk ts0 c tr c' _|s wk ts0 c tr]; cbn in *.
  - apply Forall2_app_inv_l in Hts as (k1 & k2 & H1 & H2 & ->). inversion H2 as [|? t ? k3 Ht H3]; subst.
    destruct (local_travels _ _ _ _ _ _ _ _ Hl Ht) as [(a & rest & _ & E)|(t' & Hg & Hm)]; [left; by exists a|right].
    exists (mk_locks nsps (w :: k1 ++ t' :: k3)). split.
    + apply (Hg nsps (w :: k1) k3). cbn. constructor; [by eapply matches_quiet|]. apply Forall_app; split; by eapply Forall2_quiet.
    + constructor. exists w, (k1 ++ t' :: k3). split_and!; [done..|]. apply Forall2_app; [done|by constructor].
  - destruct (local_travels _ _ _ _ _ _ _ _ Hl Hw) as [(a & rest & _ & E)|(t' & Hg & Hm)]; [left; by exists a|right].
    exists (mk_locks nsps (t' :: ts)). split; [|constructor; eauto]. apply (Hg nsps [] ts). by eapply Forall2_quiet.
  - right. destruct (claim_travels id w Hw) as (w' & Hg & Hm). exists (mk_locks nsps (w' :: ts)).
    split; [|constructor; eauto]. apply (Hg nsps [] ts). by eapply Forall2_quiet.
  - right. exists (mk_locks nsps (w :: ts)). split; [constructor|constructor; eauto].
  - right. exists (mk_locks nsps (w :: ts)). split; [constructor|constructor; eauto].
Qed.

(** [k] threads of the application and the deadline worker. *)
Definition started (k : nat) : locks := mk_locks [] (worker_loop :: replicate k [Do Outside]).

Lemma started_reachable k : locks_reachable (started k).
Proof.
  assert (Hspawn : forall j ts, rtc lock_step (mk_locks [] ts) (mk_locks [] (ts ++ replicate j [Do Outside]))).
  { induction j as [|j IH]; intros ts; [rewrite app_nil_r; constructor|]. eapply rtc_l; [apply lock_spawn|]. cbn.
    specialize (IH (ts ++ [[Do Outside]])). by rewrite <- (assoc_L (++)) in IH. }
  eapply rtc_l; [apply lock_spawn|]. etrans; [apply (travels_call (TDeadlines n) [] [] [] [])|apply (Hspawn k [worker_loop])]. constructor.
Qed.

Lemma start_simulated auth k c : simulates (start n auth k c) (started k).
Proof.
  constructor. exists worker_loop, (replicate k [Do Outside]). split_and!; [done|left; apply st_base; by left|].
  cbn. induction k as [|k IH]; constructor; [|done]. right. exists [], []. split_and!; [done..|]. by constructor.
Qed.
End simulation.

(** ** The refinement *)

Lemma effect_ack_id now a s s' acts evs : effect now a s s' acts evs -> (next_ack_id s <= next_ack_id s')%Z.
Proof.
  intros [? ? ? ? ? _ _ H _ _|? ? ? ? _ H| |? ? ? ? ? ? ? ? _ _ ? ? -> _|? ? _ ->|? ? ? ? ? _ _ -> _| | | | | | |]; cbn; try lia.
  - apply sc_next in H. lia.
  - apply sc_next in H. cbn in H. lia.
Qed.

Lemma ack_id_grows sy sy' : step sy sy' -> (next_ack_id (sock sy) <= next_ack_id (sock sy'))%Z.
Proof.
  assert (Hl : forall now st s s' st' evs, local_step now s st s' st' evs -> (next_ack_id s <= next_ack_id s')%Z).
  { intros now st s s' st' evs [a rest s0 s1 acts evs0 _ H|a rest s0 e s1 rest' _ Hu|a rest s0 s1 rest' _ Hu| | |rest s0 s1 rest' Hu];
      [by eapply effect_ack_id, action_effect|apply unwind_active in Hu as [-> _]; cbn; lia|apply unwind_active in Hu as [-> _]; cbn; lia|lia|lia|apply unwind_active in Hu as [-> _]; cbn; lia]. }
  intros [? ? ? ? ? ? ? ? ? ? H|? ? ? ? ? ? ? ? H| | |]; cbn; [by eapply Hl|by eapply Hl|lia..].
Qed.

(** [C7] Every run of a socket in the model of critical sections is a run of its code over
    the mutexes of the client: [k] threads of the application and the deadline worker call the
    methods of the socket named [nsp], and however their sections, their sends, the user
    functions they call and the exceptions of these interleave (until the id counter overflows),
    threads with the code of the methods come to a state where each has left to do what its stack
    has, and where no thread that runs user code or waits between two sections
    holds a mutex. *)
Theorem socket_refines_code (nsp : bstr) (auth : json) (k : nat) (c : Z) (sy : system) :
  rtc step (start nsp auth k c) sy -> (next_ack_id (sock sy) < int_max)%Z ->
  exists l, rtc lock_step (started nsp k) l /\ locks_reachable l /\ simulates nsp sy l /\
    Forall quiet (ClientLocks.threads l).
Proof.
  set (P sy := (next_ack_id (sock sy) < int_max)%Z -> exists l, rtc lock_step (started nsp k) l /\ simulates nsp sy l).
  intros Hr. enough (P sy) as H.
  { intros Hid. destruct (H Hid) as (l & Hl & Hs). exists l. split_and!; [done|by eapply rtc_trans, Hl; apply started_reachable|done|].
    destruct Hs as [(w & ts & -> & Hw & Hts)]. constructor; [by eapply matches_quiet|by eapply Forall2_quiet]. }
  revert sy Hr. apply (rtc_ind_r P); [intros _; exists (started nsp k); split; [constructor|apply start_simulated]|].
  intros sy sy' Hr Hstep IH Hid.
  pose proof (ack_id_grows _ _ Hstep) as Hle. destruct IH as (l & Hl & Hs); [lia|].
  destruct (step_simulated nsp _ _ _ Hstep Hs) as [(a & Ha)|(l' & Hl' & Hs')].
  - apply SocketSpec.no_null_scheduler in Ha; [lia|]. by exists nsp, auth, k, c.
  - exists l'. split; [by etrans|done].
Qed.

(** The session of SocketSpec.v, calls of user functions included. *)
Lemma socket_refines_code_witness :
  exists l, rtc lock_step (started (bs "/") 1) l /\ simulates (bs "/") SocketSpec.demo l.
Proof.
  destruct (socket_refines_code (bs "/") JNull 1 0 SocketSpec.demo) as (l & Hl & _ & Hs & _).
  - pose proof (session_steps 30 0 (new_socket "/" JNull) [] [] SocketSpec.demo_methods ltac:(vm_compute; reflexivity)) as Hr.
    unfold SocketSpec.demo, after. by destruct (session _ _ _ _ _).
  - vm_compute. reflexivity.
  - exists l. by split.
Defined.
