(* ===== verification/Carrier.v ===== *)
(** * What a transport carries

    The other half of the interface of src/transport.hpp: [send] and what becomes of
    the messages.  The class [Carrier] states it of a transport, its implementations
    discharge it, and what a client sends is followed through it to the peer. *)

From S2P Require Import WebsocketClose PollingWrites PollingStrandWrites.
From S2P Require Export ClientSpec.
From stdpp Require Import options.
#[local] Set Default Proof Using "Type*".
Local Open Scope Z_scope.

(** ** The interface *)

(** The messages a transport has accepted from [send], and those that its peer finds in
    what it has sent. *)
Class CarrierSystem (S : Type) : Type := {
  t_accepted : S -> list (bstr * bool);
  t_read : S -> list (bstr * bool);
}.

(** The peer reads what was accepted, in order and unchanged; some may not have left
    yet, or never will. *)
Class Carrier (S : Type) `{TransportSystem S, CarrierSystem S} : Prop :=
  carried_in_order : forall s, t_reachable s -> Forall message_ok (t_accepted s) -> t_read s `prefix_of` t_accepted s.

(** ** Implementations *)

(** A WebSocket frame carries a message and its kind. *)
#[export] Instance websocket_carrier_system : CarrierSystem websocket := {|
  t_accepted := WebsocketWrites.accepted;
  t_read := started;
|}.

#[export] Instance websocket_carrier : Carrier websocket.
Proof. intros s Hs%ws_reachable_writes _. exact (wi_prefix _ Hs). Qed.

#[export] Instance websocket_host_carrier_system : CarrierSystem ws_host := {|
  t_accepted := fun h => WebsocketWrites.accepted (base h);
  t_read := fun h => started (base h);
|}.

#[export] Instance websocket_host_carrier : Carrier ws_host.
Proof.
  intros h Hh%reachable_strand _. destruct Hh as (b & Hb%ws_reachable_writes & Hbase).
  assert (Websocket.history (base h) = Websocket.history b) as E by (by destruct Hbase as [->|[-> _]]).
  destruct (wi_prefix _ Hb) as [rest Hp]. exists rest. cbn. unfold WebsocketWrites.accepted, started in *. by rewrite E.
Qed.

(** The body of a POST, read as the payload format says. *)
Definition read_body (body : bstr) : list (bstr * bool) := omap packet_message (polling_split_payload body).

Lemma read_post_body message : message_ok message -> read_body (post_body message) = [message].
Proof. intros Hm. apply (polling_body_roundtrip [message]). by constructor. Qed.

Lemma read_posted messages : Forall message_ok messages -> (post_body <$> messages) ≫= read_body = messages.
Proof. induction 1 as [|m ms Hm _ IH]; [done|]. by rewrite fmap_cons, bind_cons, read_post_body, IH. Qed.

Section polling.
Context `{JsonLib, Errors, Exceptions}.

#[export] Instance polling_carrier_system : CarrierSystem polling := {|
  t_accepted := fun s => PollingWrites.accepted_of (PollingTransport.history s);
  t_read := fun s => PollingWrites.posted_of (PollingTransport.history s) ≫= read_body;
|}.

#[export] Instance polling_carrier : Carrier polling.
Proof.
  intros s Hs%polling_reachable_queue. cbn. destruct Hs as [(rest & -> & _) Hp]. intros [Hok _]%Forall_app.
  apply (f_equal (mbind read_body)) in Hp. rewrite read_posted, bind_app in Hp by done. rewrite Hp.
  rewrite <- app_assoc. by eexists.
Qed.

#[export] Instance strand_carrier_system : CarrierSystem strand := {|
  t_accepted := fun s => PollingStrandWrites.accepted_of (PollingStrand.history s);
  t_read := fun s => PollingStrandWrites.posted_of (PollingStrand.history s) ≫= read_body;
|}.

#[export] Instance strand_carrier : Carrier strand.
Proof.
  intros s Hs%strand_reachable_queue. cbn. destruct Hs as [[[(rest & -> & _) Hp _] _] _]. intros [Hok _]%Forall_app.
  rewrite Hp, read_posted by done. by eexists.
Qed.
End polling.

(** ** From client to client *)

Section client.
Context {P : Type} `{ParserLaws P} `{JsonLib}.

Lemma for_each_app {A} (f : A -> prog P unit) l1 l2 (s s' : impl P) evs :
  for_each f (l1 ++ l2) s = (s', evs, Ok tt) ->
  exists s1 evs1 evs2, for_each f l1 s = (s1, evs1, Ok tt) /\ evs = evs1 ++ evs2.
Proof using Type.
  revert s evs. induction l1 as [|a l1 IH]; intros s evs.
  - intros _. exists s, [], evs. done.
  - cbn [for_each app]. unfold mbind, prog_bind. destruct (f a s) as [[s1 evs1] [[]|x]]; [|done].
    destruct (for_each f (l1 ++ l2) s1) as [[s2 evs2] r] eqn:E. intros [= <- <- ->].
    destruct (IH s1 evs2 E) as (s3 & evs3 & evs4 & -> & ->). exists s3, (evs1 ++ evs3), evs4. by rewrite <- app_assoc.
Qed.

Lemma handed_over_app now e l1 l2 : exists e', handed_over now e (l1 ++ l2) = handed_over now e l1 ++ handed_over now e' l2.
Proof.
  revert e. induction l1 as [|[payload is_binary] l1 IH]; intros e; [by exists e|]. cbn [handed_over app].
  destruct (handle_transport_message now payload is_binary e) as [[e1 evs] x]. destruct (IH e1) as [e' ->]. exists e'. by rewrite app_assoc.
Qed.

(** [C29] End to end, over any transport: packets one client sends over an open session are
    handed, as frames of its parser and messages of its session, to a transport; what
    the peer finds in what the transport has sent causes, at the client there, an
    initial part of the calls that the packets ask for, each once and in order, and
    nothing else; all of them when everything has been sent, and then the parser is
    ready for the next packet.  (Text must be free of the separator of polling bodies,
    which JSON text is.) *)
Theorem packets_carried {S : Type} `{Carrier S} (t : S) (w_sender w_receiver : world P) (sender receiver : impl P)
    (from to : nat) (e : engine) (now : Z) (ps : list packet) (fss : list (list frame)) :
  well_behaved w_sender -> well_behaved w_receiver ->
  engineio sender = Some from -> engineio receiver = Some to ->
  open_ (session_of w_sender from) = true -> has_transport (session_of w_sender from) = true ->
  Forall encodable ps -> Forall2 (fun p fs => parser_encode (parser sender) p = Ok fs) ps fss ->
  at_rest (parser receiver) -> Forall (fun p => p_nsp (received p) ∈ sockets receiver) ps ->
  t_reachable t -> Forall message_ok (t_accepted t) ->
  exists sender' sent, for_each (send_packet w_sender) ps sender = (sender', sent, Ok tt) /\
    (t_accepted t = written (session_of w_sender from) sent ->
     exists receiver' calls, deliver w_receiver to (handed_over now e (t_read t)) receiver = (receiver', calls, Ok tt) /\
       calls `prefix_of` omap (fun p => delivery (received p)) ps /\
       (t_read t = t_accepted t -> calls = omap (fun p => delivery (received p)) ps /\ at_rest (parser receiver'))).
Proof.
  intros Hs Hr Hfrom Hto Ho Ht Hps Henc Hrest Hns Htr Hok.
  destruct (packets_delivered w_sender w_receiver sender receiver from to e now ps fss) as (sender' & sent & receiver1 & E1 & E2 & Hd); [done..|].
  exists sender', sent. split; [done|]. intros Hacc. rewrite <- Hacc in E2.
  destruct (carried_in_order t Htr Hok) as [rest Hp]. pose proof E2 as E2'. rewrite Hp in E2'.
  destruct (handed_over_app now e (t_read t) rest) as [e' Eh]. rewrite Eh in E2'. unfold deliver in E2'.
  apply for_each_app in E2' as (receiver' & calls1 & calls2 & E3 & E4). exists receiver', calls1. split; [exact E3|].
  split; [by exists calls2|]. intros Hall. rewrite <- Hall in E2. unfold deliver in E2. rewrite E2 in E3. by injection E3 as <- <-.
Qed.
End client.
