(* ===== verification/CarrierDemo.v ===== *)
(** * A conversation over a WebSocket transport *)

From S2P Require Import WebsocketDemo.
From S2P Require Export Carrier.
From stdpp Require Import options.
#[local] Set Default Proof Using "Type*".
Local Open Scope Z_scope.

#[local] Existing Instances Codec.lib Codec.laws.

Module CarrierDemo.
(** The frames of [ClientDemo.conversation], and the messages of the session. *)
Definition frames : list (list Packet.frame) :=
  [[(dq "2/a,7['greet','hello']", false)];
   [(dq "51-/b,['upload',{'_placeholder':true,'num':0}]", false); (bs "abc", true)]].
Definition messages : list (bstr * bool) :=
  [(dq "42/a,7['greet','hello']", false); (dq "451-/b,['upload',{'_placeholder':true,'num':0}]", false); (bs "abc", true)].

(** Connected; all messages are sent before the first write completes. *)
Definition sending : list ws_move :=
  [WebsocketDemo.MConnect WsDemo.url] ++ connection_moves true true ++ ((fun m => WebsocketDemo.MSend m.1 m.2) <$> messages) ++
  [MTask; MTask; MTask; MComplete 1 ROk; MComplete 1 ROk].
End CarrierDemo.

Lemma packets_carried_witness :
  exists t sender' sent receiver',
    ws_run CarrierDemo.sending (new_websocket true WsDemo.proxy) = Some t /\
    for_each (send_packet ClientDemo.calm) ClientDemo.conversation (ClientDemo.connected_client 0) = (sender', sent, Ok tt) /\
    deliver ClientDemo.calm 0 (handed_over 0 ClientDemo.open_engine (t_read t)) (ClientDemo.connected_client 0)
    = (receiver', [CallSocket "/a" (MDispatchEvent "greet" (JArray [JString "hello"]) 7);
                   CallSocket "/b" (MDispatchEvent "upload" (JArray [JBinary (bs "abc") None]) (-1))], Ok tt).
Proof.
  destruct (ws_run CarrierDemo.sending (new_websocket true WsDemo.proxy)) as [t|] eqn:E; [|by vm_compute in E].
  assert (Ht : t_accepted t = CarrierDemo.messages /\ t_read t = CarrierDemo.messages).
  { vm_compute in E. injection E as <-. split; vm_compute; reflexivity. }
  destruct Ht as [Ha Hrd].
  destruct (packets_carried (P := json_parser) t ClientDemo.calm ClientDemo.calm (ClientDemo.connected_client 0)
    (ClientDemo.connected_client 0) 0 0 ClientDemo.open_engine 0 ClientDemo.conversation CarrierDemo.frames)
    as (sender' & sent & E1 & T).
  1-2: exact ClientDemo.calm_well_behaved.
  1-2: vm_compute; reflexivity.
  1-2: reflexivity.
  - exact ClientDemo.conversation_encodable.
  - constructor; [vm_compute; reflexivity|]. constructor; [vm_compute; reflexivity|constructor].
  - vm_compute; reflexivity.
  - apply (bool_decide_unpack _). vm_compute. exact I.
  - by eapply ws_run_reachable.
  - rewrite Ha. repeat apply Forall_cons_2; [..|constructor]; intros Hb; try discriminate Hb;
      (split; [vm_compute; reflexivity|apply (bool_decide_unpack (_ ∉ _)); vm_compute; exact I]).
  - assert (Hsent : t_accepted t = written (session_of ClientDemo.calm 0) sent).
    { rewrite Ha. apply (f_equal (fun r => r.1.2)) in E1. cbn [fst snd] in E1. rewrite <- E1. vm_compute. reflexivity. }
    destruct (T Hsent) as (receiver' & calls & E2 & _ & Hall). destruct (Hall ltac:(by rewrite Ha, Hrd)) as [Hc _].
    exists t, sender', sent, receiver'. split; [done|]. split; [done|]. rewrite E2, Hc. vm_compute. reflexivity.
Defined.
