(* ===== verification/Requests.v ===== *)
(** * What a configured transport sends

    The options of a client on their way to the network: the operations of the
    WebSocket transport (src/websocket_transport.cpp) with their arguments, in the
    vocabulary of HttpRequest.v, its strand (Websocket.v) run against a network, and both
    transports under one configuration. *)

From S2P Require Export TransportConfig WebsocketDemo HttpRequest.
From stdpp Require Import options.
#[local] Set Default Proof Using "Type*".
Local Open Scope Z_scope.

(** The members a request depends on, once [connect] has parsed the URL. *)
Definition settings_of (config : transport_config) (u : url_parts) : settings :=
  mk_settings u (config_proxy config) (config_extra_headers config) (config_verify_tls config).

(** ** The WebSocket transport *)

(** The CONNECT request of [websocket_transport::establish_proxy_tunnel]. *)
Definition ws_proxy_request (u : url_parts) (p : proxy_config) : http_request :=
  let destination := connect_authority u in
  let request := new_request verb_connect destination in
  let request := set_field "Host" destination request in
  let request := set_field "User-Agent" "sioxx-client" request in
  if negb (bool_decide (authorization p = [])) then set_field "Proxy-Authorization" (authorization p) request else request.

(** The decorator of the upgrade request; [version] is [BOOST_BEAST_VERSION_STRING]. *)
Definition decorate (version : bstr) (c : settings) (request : http_request) : http_request :=
  set_fields (extra_headers c) (set_field "User-Agent" (version ++ bs " sioxx-client") request).

(** The arguments of [async_handshake], which become the Host field and the target. *)
Definition ws_handshake_host (c : settings) : bstr := host (url_ c).
Definition ws_handshake_target (c : settings) : bstr := target (url_ c).

(** The call an operation of the strand stands for, up to the upgrade; the TLS context
    has the mode [set_verify_tls] gave it. *)
Definition op_call (c : settings) (op : ws_op) : option io_call :=
  match op with
  | OpResolve => Some (IoResolve (host (peer c)) (port (peer c)))
  | OpConnect => Some IoConnect
  | OpProxyWrite => (fun p => IoProxyWrite (ws_proxy_request (url_ c) p)) <$> HttpRequest.proxy_ c
  | OpProxyRead => Some IoProxyRead
  | OpTlsHandshake => Some (IoTlsHandshake (verify_tls c))
  | OpHandshake | OpRead | OpWrite _ _ => None
  end.

Section strand.
Context `{Errors}.

(** What the operation produces against a network.  The handler of [OpResolve] sets the server
    name, a call that blocks; its failure is part of the result here. *)
Definition op_result (net : network) (c : settings) (op : ws_op) (call : io_call) : ws_result :=
  match HttpRequest.failure net call with
  | Some ec => RError (message ec)
  | None =>
      match op with
      | OpResolve =>
          if tls (url_ c) then
            match HttpRequest.failure net (IoServerName (host (url_ c))) with Some ec => RSniError (message ec) | None => ROk end
          else ROk
      | OpProxyRead => RStatus (status (received net call))
      | _ => ROk
      end
  end.

(** The strand against a network: its operations end one after the other, each completion
    handler of Websocket.v runs, until a handler fails or the upgrade
    request is to be sent.  With the state, the calls that were made. *)
Fixpoint ws_exchange (fuel : nat) (net : network) (c : settings) (s : websocket) : list io_call * websocket :=
  match fuel, pending s, continuation s with
  | S fuel, [op], None =>
      match op_call c op with
      | Some call =>
          let s := Websocket.on_completed op (op_result net c op call) {| s with pending := [] |} in
          let '(calls, s) := ws_exchange fuel net c s in
          (call :: blocking_calls c call (HttpRequest.failure net call) ++ calls, s)
      | None => ([], s)
      end
  | _, _, _ => ([], s)
  end.
End strand.

(** Resolve, connect, the two messages of the tunnel and the TLS handshake. *)
Definition ws_fuel : nat := 6.

(** The strand once [connect] has parsed the URL and the function it posts has run. *)
Definition ws_begun (owned : bool) (c : settings) : websocket :=
  ws_start {| (new_websocket owned (HttpRequest.proxy_ c)) with Websocket.url_ := Some (url_ c); state_ := transport_connecting |}.

Definition ws_connection `{Errors} (net : network) (owned : bool) (c : settings) : list io_call * websocket :=
  ws_exchange ws_fuel net c (ws_begun owned c).

Lemma ws_proxy_request_same u p : ws_proxy_request u p = proxy_request u p.
Proof. unfold ws_proxy_request, proxy_request. by case_bool_decide. Qed.

(** ** What is sent *)

(** Beast's [prepare_payload]: the fields of a message as written, which it has adjusted to the
    body.  The documentation names the two fields it adjusts. *)
Class Beast : Type := prepare_payload : http_request -> list (bstr * bstr).

Definition describes_body (name : bstr) : bool :=
  bool_decide (lower name = lower "Content-Length") || bool_decide (lower name = lower "Transfer-Encoding").

Class BeastLaws `{Beast} : Prop :=
  prepare_payload_others r name : describes_body name = false -> values name (prepare_payload r) = values name (fields r).

Definition written_fields `{Beast} (r : http_request) : list (bstr * bstr) := if prepared r then prepare_payload r else fields r.

(** What a polling request says by itself. *)
Definition own_values (c : settings) (name : bstr) : list bstr :=
  if decide (lower name = lower "Host") then [authority (url_ c)]
  else if decide (lower name = lower "User-Agent") then [bs "sioxx-client"]
  else if decide (lower name = lower "Content-Type") then [bs "text/plain; charset=UTF-8"]
  else if decide (lower name = lower "Proxy-Authorization") then
    match HttpRequest.proxy_ c with
    | Some p => if negb (tls (url_ c)) && negb (bool_decide (authorization p = [])) then [authorization p] else []
    | None => []
    end
  else [].

(** A header wins over what the library sets. *)
Definition overridden (headers : list (bstr * bstr)) (name : bstr) (own : list bstr) : list bstr :=
  match last_value name headers with Some v => [v] | None => own end.

Lemma distinct_names :
  NoDup [lower "Host"; lower "User-Agent"; lower "Content-Type"; lower "Proxy-Authorization"].
Proof. apply (bool_decide_unpack _). by vm_compute. Qed.

Lemma message_values c method target payload name :
  values name (fields (sync_message c method target payload)) = overridden (extra_headers c) name (own_values c name).
Proof.
  unfold sync_message, overridden, own_values. cbn [fields]. rewrite values_set_fields.
  destruct (last_value name (extra_headers c)); [done|].
  pose proof distinct_names as Hd. rewrite !NoDup_cons, !not_elem_of_cons in Hd. destruct Hd as ((?&?&?&_)&(?&?&_)&(?&_)&_).
  destruct (HttpRequest.proxy_ c) as [p|]; [destruct (negb (tls (url_ c)) && negb (bool_decide (authorization p = [])))|];
    rewrite !values_set_field; repeat case_decide; congruence || done.
Qed.

(** ** Properties *)

Section properties.
Context `{errors : Errors}.

(** A call after which an exchange ends early: one that fails, or the refusal of a tunnel. *)
Definition ends (net : network) (call : io_call) : bool :=
  match HttpRequest.failure net call with
  | Some _ => true
  | None => match call with IoProxyRead => negb (success (status (received net IoProxyRead))) | _ => false end
  end.

Fixpoint until_failure (net : network) (calls : list io_call) : list io_call :=
  match calls with
  | [] => []
  | call :: calls' => call :: if ends net call then [] else until_failure net calls'
  end.

Definition succeed (net : network) (calls : list io_call) : bool := forallb (fun call => negb (ends net call)) calls.

Lemma until_failure_app net l k : until_failure net (l ++ k) = until_failure net l ++ if succeed net l then until_failure net k else [].
Proof.
  induction l as [|call l IH]; [done|]. cbn. destruct (ends net call); cbn; [done|]. by rewrite IH.
Qed.

Lemma succeed_app net l k : succeed net (l ++ k) = succeed net l && succeed net k.
Proof. apply forallb_app. Qed.

(** The calls of a connection up to the first request. *)
Definition connection_calls (c : settings) : list io_call :=
  [IoResolve (host (peer c)) (port (peer c))] ++ (if tls (url_ c) then [IoServerName (host (url_ c))] else []) ++ [IoConnect] ++
  match HttpRequest.proxy_ c with Some p => [IoProxyWrite (proxy_request (url_ c) p); IoProxyRead] | None => [] end ++
  (if tls (url_ c) then [IoTlsHandshake (verify_tls c)] else []).

(** What follows. *)
Definition message_calls (message : http_request) : list io_call := [IoWrite message; IoRead; IoShutdown].

(** The calls of a polling request to a plain server behind a proxy. *)
Definition plain_proxy_calls (c : settings) (p : proxy_config) (message : http_request) : list io_call :=
  [IoResolve (host (endpoint p)) (port (endpoint p)); IoConnect] ++ message_calls message.

Ltac call_ends net c := unfold ends at 1; destruct (HttpRequest.failure net c) eqn:?; cbn -[bs ends]; [done|].

Lemma polling_calls (net : network) (c : settings) (method : verb) (target payload : bstr) :
  (sync_request net c method target payload).1 =
  until_failure net
    match HttpRequest.proxy_ c with
    | Some p => if tls (url_ c) then connection_calls c ++ message_calls (sync_message c method target payload)
                else plain_proxy_calls c p (sync_message c method target payload)
    | None => connection_calls c ++ message_calls (sync_message c method target payload)
    end.
Proof.
  unfold sync_request, perform, attempt, read_message, establish_proxy_tunnel, connection_calls, plain_proxy_calls, message_calls, peer.
  set (req := sync_message c method target payload). clearbody req.
  destruct (HttpRequest.proxy_ c) as [p|] eqn:Hp, (tls (url_ c)) eqn:Ht; cbn -[bs ends];
    match goal with |- context [IoResolve ?h ?p] => call_ends net (IoResolve h p) end.
  - call_ends net (IoServerName (host (url_ c))). call_ends net IoConnect.
    call_ends net (IoProxyWrite (proxy_request (url_ c) p)). unfold ends at 1.
    destruct (HttpRequest.failure net IoProxyRead); cbn -[bs ends]; [done|].
    destruct (success (status (received net IoProxyRead))); cbn -[bs ends]; [|done].
    call_ends net (IoTlsHandshake (verify_tls c)). call_ends net (IoWrite req). call_ends net IoRead.
    unfold ends, tls_shutdown. by destruct (HttpRequest.failure net IoShutdown) as [[]|].
  - call_ends net IoConnect. call_ends net (IoWrite req). call_ends net IoRead.
    unfold ends, plain_shutdown. by destruct (HttpRequest.failure net IoShutdown) as [[]|].
  - call_ends net (IoServerName (host (url_ c))). call_ends net IoConnect.
    call_ends net (IoTlsHandshake (verify_tls c)). call_ends net (IoWrite req). call_ends net IoRead.
    unfold ends, tls_shutdown. by destruct (HttpRequest.failure net IoShutdown) as [[]|].
  - call_ends net IoConnect. call_ends net (IoWrite req). call_ends net IoRead.
    unfold ends, plain_shutdown. by destruct (HttpRequest.failure net IoShutdown) as [[]|].
Qed.

(** *** The strand *)

Lemma op_result_possible net c op call : op_call c op = Some call -> possible op (op_result net c op call).
Proof.
  unfold op_result. destruct (HttpRequest.failure net call); [done|]. destruct op; try done; cbn.
  destruct (tls (url_ c)); [|done]. by destruct (HttpRequest.failure net _).
Qed.

(** The exchange is a run of the strand. *)
Lemma ws_exchange_runs fuel net c s : rtc ws_runs s (ws_exchange fuel net c s).2.
Proof.
  revert s. induction fuel as [|fuel IH]; intros s; [done|]. cbn [ws_exchange].
  destruct (pending s) as [|op [|op' ops]] eqn:Hp; [done| |done]. destruct (continuation s) eqn:Hk; [done|].
  destruct (op_call c op) as [call|] eqn:Hc; [|done].
  pose proof (ws_completion_step [] op [] (op_result net c op call) s Hk Hp (op_result_possible _ _ _ _ Hc)) as Hs. rewrite Hk in Hs.
  match goal with |- context [ws_exchange fuel net c ?s1] => pose proof (IH s1) as H end.
  destruct (ws_exchange fuel net c _) as [calls s']. by eapply rtc_l.
Qed.

Lemma ws_begun_runs owned url c :
  parse_ws_url url = Ok (url_ c) -> rtc ws_step (new_websocket owned (HttpRequest.proxy_ c)) (ws_begun owned c).
Proof.
  intros E. eapply rtc_l; [apply (ws_connect_step url); [done|]; unfold ws_connect; cbn; by rewrite E|].
  apply rtc_once, ws_run_step. unfold ws_begun.
  pose proof (ws_task_step TaskStart []) as H. destruct owned; apply H; auto; by right.
Qed.

(** How the connection ends: at the upgrade, or in the error path. *)
Definition upgrading (s : websocket) : bool := match pending s with [OpHandshake] => true | _ => false end.
Definition failing (s : websocket) : Prop := pending s = [] /\ exists what, continuation s = Some (KFail what AfterError).

(** The operation in progress, on a strand where nothing else happens. *)
Record at_op (c : settings) (s : websocket) (op : ws_op) : Prop := mk_at_op {
  ao_pending : pending s = [op];
  ao_continuation : continuation s = None;
  ao_closing : closing s = false;
  ao_url : Websocket.url_ s = Some (url_ c);
  ao_proxy : Websocket.proxy_ s = HttpRequest.proxy_ c;
}.

Definition after_tunnel (c : settings) : ws_op := if tls (url_ c) then OpTlsHandshake else OpHandshake.
Definition next_op (c : settings) (op : ws_op) : ws_op :=
  match op with
  | OpResolve => OpConnect
  | OpConnect => match HttpRequest.proxy_ c with Some _ => OpProxyWrite | None => after_tunnel c end
  | OpProxyWrite => OpProxyRead
  | OpProxyRead => after_tunnel c
  | _ => OpHandshake
  end.

Definition name_calls (c : settings) (op : ws_op) : list io_call :=
  match op with OpResolve => if tls (url_ c) then [IoServerName (host (url_ c))] else [] | _ => [] end.

(** One operation: its completion handler starts the next one, or fails. *)
Lemma completed_next net c s op call :
  at_op c s op -> op_call c op = Some call ->
  let s1 := Websocket.on_completed op (op_result net c op call) {| s with pending := [] |} in
  if succeed net (call :: name_calls c op) then at_op c s1 (next_op c op) else failing s1.
Proof.
  intros [Hp Hk Hc Hu Hx] Hcall. destruct s as [ow px u st cl so strm dl wq wip pe ta co hi]; cbn in Hp, Hk, Hc, Hu, Hx; subst.
  unfold op_result, succeed, ends. destruct op; cbn in Hcall; try done; try (destruct (HttpRequest.proxy_ c) as [p|] eqn:Hx; [|done]; cbn in Hcall);
    injection Hcall as <-; cbn -[bs]; destruct (HttpRequest.failure net _) as [ec|]; cbn -[bs];
    try (split; [done|by eexists]).
  - unfold on_resolved, ws_tls; cbn -[bs]. destruct (tls (url_ c)) eqn:Ht; cbn -[bs]; [|by split].
    destruct (HttpRequest.failure net _); cbn -[bs]; [split; [done|by eexists]|by split].
  - unfold on_connected, connected_stream, start_handshake, after_tunnel, ws_tls; cbn -[bs].
    destruct (tls (url_ c)) eqn:Ht, (HttpRequest.proxy_ c) eqn:Hx; cbn -[bs]; rewrite ?Ht; split; by cbn.
  - by split.
  - unfold on_proxy_read, start_handshake, after_tunnel, ws_tls, success; cbn -[bs]. case_decide as Hs; cbn -[bs].
    + rewrite bool_decide_eq_true_2 by done. cbn. by split.
    + rewrite bool_decide_eq_false_2 by done. cbn. split; [done|by eexists].
  - by split.
Qed.

(** The calls from an operation on. *)
Fixpoint calls_from (fuel : nat) (c : settings) (op : ws_op) : list io_call :=
  match fuel, op_call c op with
  | S fuel, Some call => (call :: name_calls c op) ++ calls_from fuel c (next_op c op)
  | _, _ => []
  end.

Definition ops_left (op : ws_op) : nat :=
  match op with OpResolve => 5 | OpConnect => 4 | OpProxyWrite => 3 | OpProxyRead => 2 | OpTlsHandshake => 1 | _ => 0 end.

Definition connects (net : network) (calls : list io_call) (result : list io_call * websocket) : Prop :=
  result.1 = until_failure net calls /\ upgrading result.2 = succeed net calls /\
  if upgrading result.2 then continuation result.2 = None else failing result.2.

Lemma exchange_failing fuel net c s : failing s -> ws_exchange fuel net c s = ([], s) /\ upgrading s = false.
Proof. intros [Hp (what & Hk)]. unfold upgrading. rewrite Hp. split; [|done]. destruct fuel; cbn; [done|]. by rewrite Hp. Qed.

Lemma exchange_from net c fuel op s :
  at_op c s op -> op_call c op <> None \/ op = OpHandshake -> (ops_left op <= fuel)%nat -> connects net (calls_from fuel c op) (ws_exchange fuel net c s).
Proof.
  revert op s. induction fuel as [|fuel IH]; intros op s Hat Hop Hfuel.
  - assert (op = OpHandshake) as -> by (destruct Hop as [Hop|]; [destruct op; cbn in *; done || lia|done]).
    split_and!; cbn; unfold upgrading; rewrite ?(ao_pending _ _ _ Hat); try done. apply Hat.
  - cbn [ws_exchange calls_from]. rewrite (ao_pending _ _ _ Hat), (ao_continuation _ _ _ Hat).
    destruct (op_call c op) as [call|] eqn:Hcall.
    2: { destruct Hop as [?| ->]; [done|]. split_and!; cbn; unfold upgrading; rewrite ?(ao_pending _ _ _ Hat); try done. apply Hat. }
    pose proof (completed_next net c s op call Hat Hcall) as Hnext. cbv zeta in Hnext.
    rewrite (ao_continuation _ _ _ Hat) in Hnext.
    set (s1 := Websocket.on_completed _ _ _) in *. clearbody s1.
    assert (Hcalls : call :: blocking_calls c call (HttpRequest.failure net call) = until_failure net (call :: name_calls c op)).
    { cbn. unfold ends at 1. destruct (HttpRequest.failure net call) as [ec|] eqn:Hf.
      - by destruct call.
      - destruct op; cbn in Hcall; try done; try (destruct (HttpRequest.proxy_ c); [|done]; cbn in Hcall); injection Hcall as <-; cbn; try done;
          [|by destruct (negb _)]. destruct (tls (url_ c)); [|done]. cbn. by destruct (ends net _). }
    unfold connects. rewrite until_failure_app, succeed_app.
    destruct (succeed net (call :: name_calls c op)).
    + assert (Hn : op_call c (next_op c op) <> None \/ next_op c op = OpHandshake).
      { unfold next_op, after_tunnel. destruct op; cbn in *; auto; destruct (HttpRequest.proxy_ c) eqn:Hx; cbn; rewrite ?Hx; destruct (tls (url_ c)); cbn; auto. }
      assert (Hl : (ops_left (next_op c op) <= fuel)%nat).
      { unfold next_op, after_tunnel. destruct op; cbn in *; try done; repeat case_match; cbn; lia. }
      destruct (IH _ _ Hnext Hn Hl) as (H1 & H2 & H3). destruct (ws_exchange fuel net c s1) as [calls s2]. cbn [fst snd] in *.
      rewrite app_comm_cons, Hcalls, H1. by split_and!.
    + destruct (exchange_failing fuel net c s1 Hnext) as [-> Hup]. cbn [fst snd]. rewrite app_comm_cons, Hcalls, Hup. by split_and!.
Qed.

Lemma ws_connection_calls net owned c : connects net (connection_calls c) (ws_connection net owned c).
Proof.
  assert (connection_calls c = calls_from ws_fuel c OpResolve) as ->.
  { unfold connection_calls, ws_fuel. cbn -[bs]. destruct (HttpRequest.proxy_ c) eqn:Hx; unfold after_tunnel; cbn -[bs];
      rewrite ?Hx; destruct (tls (url_ c)) eqn:Ht; cbn -[bs]; rewrite ?Hx, ?ws_proxy_request_same; unfold after_tunnel; rewrite ?Ht; cbn -[bs]; done. }
  apply exchange_from; [by split|left; cbn; discriminate|unfold ws_fuel; cbn; lia].
Qed.

(** *** Both transports *)

(** URLs of one server; their schemes and targets may differ. *)
Definition same_server (u v : url_parts) : Prop := host u = host v /\ port u = port v /\ tls u = tls v.

Lemma connection_calls_same_server c u : same_server u (url_ c) -> connection_calls {| c with url_ := u |} = connection_calls c.
Proof.
  intros (Eh & Ep & Et). unfold connection_calls, peer, proxy_request, connect_authority. cbn [url_ HttpRequest.proxy_ verify_tls].
  rewrite Eh, Et. destruct (HttpRequest.proxy_ c); by rewrite ?Eh, ?Ep.
Qed.

(** [C24] The WebSocket transport connects as the long-polling transport does, on every
    network and for every URL of the same server.  The completion handlers of its strand, run
    against the network from [connect] on, come either to the upgrade or to the error path,
    nothing else being left to do.  To a TLS server, or without a proxy, they make the calls
    of a polling request: both resolve the same name, set the same server name, send
    the same CONNECT request with the same credentials, and verify the certificate or not; and
    the polling request goes on with its message exactly where the strand comes to
    the upgrade.  To a plain server behind a proxy the two differ after the
    connection: the WebSocket asks for a tunnel, the polling request is sent to the proxy. *)
Theorem websocket_connects_like_polling (owned : bool) (net : network) (c : settings) (url : bstr) (u : url_parts)
    (method : verb) (target payload : bstr) :
  parse_ws_url url = Ok u -> same_server u (url_ c) ->
  let polling := (sync_request net c method target payload).1 in
  let message := sync_message c method target payload in
  let '(calls, s) := ws_connection net owned {| c with url_ := u |} in
  rtc ws_step (new_websocket owned (HttpRequest.proxy_ c)) s /\
  (if upgrading s then continuation s = None else failing s) /\
  calls = until_failure net (connection_calls c) /\
  match HttpRequest.proxy_ c with
  | Some p =>
      if tls (url_ c) then polling = calls ++ if upgrading s then until_failure net (message_calls message) else []
      else polling = until_failure net (plain_proxy_calls c p message)
  | None => polling = calls ++ if upgrading s then until_failure net (message_calls message) else []
  end.
Proof.
  intros Eu Hs. cbv zeta. set (cw := {| c with url_ := u |}).
  destruct (ws_connection_calls net owned cw) as (H1 & H2 & H3).
  assert (Hrun : rtc ws_step (new_websocket owned (HttpRequest.proxy_ c)) (ws_connection net owned cw).2).
  { etrans; [by apply (ws_begun_runs owned url cw)|]. eapply rtc_subrel; [apply ws_run_step|apply ws_exchange_runs]. }
  unfold cw in H1, H2. rewrite (connection_calls_same_server c u Hs) in H1, H2. fold cw in H1, H2.
  destruct (ws_connection net owned cw) as [calls s]. cbn [fst snd] in *. split_and!; [done..|].
  rewrite polling_calls, H1, H2. destruct (HttpRequest.proxy_ c); [destruct (tls (url_ c)); [|done]|]; apply until_failure_app.
Qed.

(** The calls of an exchange are those [c] asks for. *)
Record as_configured (c : settings) (message : http_request) (calls : list io_call) : Prop := mk_as_configured {
  ac_first : head calls = Some (IoResolve (host (peer c)) (port (peer c)));
  ac_tls : forall before verify after, calls = before ++ IoTlsHandshake verify :: after ->
    tls (url_ c) = true /\ verify = verify_tls c /\
    forall p, HttpRequest.proxy_ c = Some p -> IoProxyWrite (proxy_request (url_ c) p) ∈ before;
  ac_tunnel : forall r, IoProxyWrite r ∈ calls -> exists p, HttpRequest.proxy_ c = Some p /\ r = proxy_request (url_ c) p;
  ac_message : forall before r after, calls = before ++ IoWrite r :: after ->
    r = message /\ (tls (url_ c) = true -> exists verify, IoTlsHandshake verify ∈ before);
}.

Lemma as_configured_prefix c message l k : as_configured c message (l ++ k) -> l <> [] -> as_configured c message l.
Proof.
  intros [H1 H2 H3 H4] Hl. split.
  - by destruct l.
  - intros before verify after ->. apply (H2 before verify (after ++ k)). by rewrite <- (assoc_L (++)).
  - intros r Hr. apply H3, elem_of_app. by left.
  - intros before r after ->. apply (H4 before r (after ++ k)). by rewrite <- (assoc_L (++)).
Qed.

Lemma until_failure_prefix net calls : exists rest, calls = until_failure net calls ++ rest.
Proof.
  induction calls as [|call calls [rest IH]]; [by exists []|]. cbn. destruct (ends net call); [by exists calls|].
  exists rest. cbn. by rewrite <- IH.
Qed.

Lemma as_configured_until net c message calls : as_configured c message calls -> as_configured c message (until_failure net calls).
Proof.
  intros H. destruct (until_failure_prefix net calls) as [rest E]. pose proof H as H'. rewrite E in H'. eapply as_configured_prefix; [exact H'|].
  destruct calls as [|call calls]; [by destruct H as [Hf _ _ _]|done].
Qed.

(** An element of a list that is written out. *)
Ltac find_call := intros; repeat match goal with
  | H : _ = ?before ++ _ :: _ |- _ => destruct before; cbn in H; simplify_eq
  | H : _ ∈ _ :: _ |- _ => apply elem_of_cons in H as [H|H]; simplify_eq
  | H : _ ∈ [] |- _ => by apply elem_of_nil in H
  end.

Ltac configured := split; [done|find_call..]; try (by eexists); split_and!; try done;
  try (intros ? [= <-]); intros; cbn in *; try congruence; try eexists; rewrite !elem_of_cons; auto 10.

Lemma connection_configured c message : as_configured c message (connection_calls c ++ message_calls message).
Proof.
  destruct c as [u px headers verify]. unfold connection_calls, message_calls. cbn [url_ HttpRequest.proxy_ verify_tls].
  destruct px as [p|], (tls u) eqn:Ht; cbn [app]; configured.
Qed.

Lemma plain_proxy_configured c p message :
  HttpRequest.proxy_ c = Some p -> tls (url_ c) = false -> as_configured c message (plain_proxy_calls c p message).
Proof.
  destruct c as [u px headers verify]. unfold plain_proxy_calls, message_calls. cbn [url_ HttpRequest.proxy_ verify_tls].
  intros -> Ht. cbn [app]. configured.
Qed.

(** All three: the blocking and the asynchronous request, and the strand. *)
Lemma sync_configured net c method target payload :
  as_configured c (sync_message c method target payload) (sync_request net c method target payload).1.
Proof.
  rewrite polling_calls. apply as_configured_until. destruct (HttpRequest.proxy_ c) as [p|] eqn:Hp; [|apply connection_configured].
  destruct (tls (url_ c)) eqn:Ht; [apply connection_configured|by apply plain_proxy_configured].
Qed.

Lemma async_configured net c method target payload :
  as_configured c (sync_message c method target payload) (async_request net c method target payload).1.
Proof using errors.
  destruct (agree_calls _ _ _ (async_request_agrees net c method target payload)) as [rest E].
  pose proof (sync_configured net c method target payload) as H. rewrite E in H. eapply as_configured_prefix; [exact H|].
  unfold async_request, async_fuel, async_start. cbn [async_run]. match goal with |- context [let (_, _) := ?x in _] => by destruct x end.
Qed.

Lemma ws_configured net owned c message : as_configured c message (ws_connection net owned c).1.
Proof.
  destruct (ws_connection_calls net owned c) as (-> & _). apply as_configured_until.
  eapply as_configured_prefix; [apply (connection_configured c message)|]. by unfold connection_calls.
Qed.

(** The upgrade request after the decorator. *)
Lemma decorate_values version c r name :
  values name (fields (decorate version c r)) =
  overridden (extra_headers c) name (if decide (lower name = lower "User-Agent") then [version ++ bs " sioxx-client"] else values name (fields r)).
Proof.
  unfold decorate, overridden. rewrite values_set_fields, values_set_field. destruct (last_value _ _); [done|].
  repeat case_decide; congruence || done.
Qed.

(** The credentials in a CONNECT request. *)
Lemma proxy_request_values u p :
  values proxy_authorization (fields (proxy_request u p)) = if bool_decide (authorization p = []) then [] else [authorization p].
Proof. unfold proxy_request. by case_bool_decide. Qed.

(** The Host field of the upgrade request names the port never, that of a polling
    request unless it is the default: they agree for default ports alone. *)
Lemma handshake_host_port c :
  ws_handshake_host c = authority (url_ c) <->
  port (url_ c) = (if tls (url_ c) then bs "443" else bs "80").
Proof.
  unfold ws_handshake_host, authority. destruct (tls (url_ c)); cbn -[bs]; rewrite ?orb_false_r; case_bool_decide as Hp; split; try done.
  all: intros E; apply (f_equal length) in E; rewrite !length_app in E; cbn in E; lia.
Qed.
End properties.
