(* ===== verification/Facade.v ===== *)
(** * The public client

    The class [client] of src/client.cpp: construction, destruction and the calls it
    hands to [client_impl] (Client.v); the life of a client from one to the other,
    and the options on their way to the network (Requests.v). *)

From S2P Require Export Requests ClientSpec.
From stdpp Require Import options.
#[local] Set Default Proof Using "Type*".
Local Open Scope Z_scope.

(** ** The class *)

Section client.
Context {P : Type} `{ParserBase P}.

(** The constructors; [make] gives the parser object of each choice. *)
Definition new_client (make : chosen_parser -> P) (o : client_options) : outcome (impl P) :=
  choice ← choose_parser o; Ok (new_impl o (make choice)).

Definition default_client (make : chosen_parser -> P) : outcome (impl P) := new_client make default_options.

(** The destructor: [sync_close], and no exception. *)
Definition destroy (w : world P) : prog P unit := try_catch (sync_close w) (fun _ => mret tt).

(** The methods of the class. *)
Inductive client_call : Type :=
  | ClientConnect (uri : bstr) | ClientClose | ClientSyncClose | ClientSocket (nsp : bstr) (auth : json).

Definition client_method (c : client_call) : client_op :=
  match c with
  | ClientConnect uri => OConnect uri
  | ClientClose => OClose
  | ClientSyncClose => OSyncClose
  | ClientSocket nsp auth => OSocket nsp auth
  end.
End client.

(** ** Construction and destruction *)

Section life.
Context {P : Type} `{ParserBase P}.

Lemma new_client_throws (make : chosen_parser -> P) (o : client_options) (x : exn) :
  new_client make o = Throw x <->
  parser_factory o = Some false /\ x = invalid_argument "client_options::parser_factory returned null".
Proof.
  unfold new_client, choose_parser. destruct (parser_factory o) as [[]|]; [| |destruct (parser_choice o)]; cbn -[bs]; naive_solver.
Qed.

Lemma destroy_runs (w : world P) (s : impl P) :
  settled w -> exists s', destroy w s = (s', sync_close_calls w s, Ok tt).
Proof.
  intros Hw. destruct (sync_close_runs w s Hw) as (s' & E). unfold destroy, try_catch. rewrite E.
  destruct (first_thrown w _) as [[]|x]; cbn; exists s'; by rewrite ?app_nil_r.
Qed.

(** ** Who owns the sessions *)

Definition released (evs : list client_event) : list nat :=
  omap (fun ev => match ev with ReleaseSession id => Some id | _ => None end) evs.
Definition made (evs : list client_event) : list nat :=
  omap (fun ev => match ev with NewSession id _ => Some id | _ => None end) evs.

(** The sessions of the client are those it has made. *)
Definition owns_made (s : impl P) : Prop := forall id, engineio s = Some id -> (id < sessions_made s)%nat.

Definition since (s s' : impl P) (id : nat) : Prop := (sessions_made s <= id < sessions_made s')%nat.

Record owned_since (s : impl P) (evs : list client_event) (s' : impl P) : Prop := mk_owned_since {
  os_count : (sessions_made s <= sessions_made s')%nat;
  os_owns : owns_made s';
  os_current : forall id, engineio s' = Some id -> engineio s = Some id \/ since s s' id;
  os_kept : forall id, engineio s = Some id -> id ∈ released evs \/ engineio s' = Some id;
  os_made : forall id, id ∈ made evs -> since s s' id /\ (id ∈ released evs \/ engineio s' = Some id);
  os_released : forall id, id ∈ released evs -> (engineio s = Some id \/ since s s' id) /\ engineio s' <> Some id;
  os_once : NoDup (released evs);
}.

Definition session_owned (s : impl P) (evs : list client_event) (s' : impl P) : Prop :=
  owns_made s -> owned_since s evs s'.

Lemma owned_quiet s evs s' :
  sessions_made s' = sessions_made s -> engineio s' = engineio s -> released evs = [] -> made evs = [] -> session_owned s evs s'.
Proof.
  intros E1 E2 E3 E4 Hs. split; unfold owns_made; rewrite ?E1, ?E2, ?E3, ?E4; auto; try (by intros id ?%elem_of_nil). constructor.
Qed.

Lemma owned_refl s : session_owned s [] s.
Proof. by apply owned_quiet. Qed.

Lemma owned_app s1 evs1 s2 evs2 s3 :
  session_owned s1 evs1 s2 -> session_owned s2 evs2 s3 -> session_owned s1 (evs1 ++ evs2) s3.
Proof.
  intros H1 H2 Hs. destruct (H1 Hs) as [A1 A2 A3 A4 A5 A6 A7]. destruct (H2 A2) as [B1 B2 B3 B4 B5 B6 B7].
  assert (Hgone : forall id, id ∈ released evs1 -> (id < sessions_made s2)%nat /\ engineio s2 <> Some id).
  { intros id Hin. destruct (A6 id Hin) as [Hor Hn]. split; [|done]. destruct Hor as [Hc|[_ ?]]; [|done]. specialize (Hs id Hc). lia. }
  assert (Hstay : forall id, (id < sessions_made s2)%nat -> engineio s2 <> Some id -> engineio s3 <> Some id).
  { intros id Hlt Hn Hc. destruct (B3 id Hc) as [?|[? _]]; [done|lia]. }
  unfold since in *. split; unfold released, made; rewrite ?omap_app; fold (released evs1) (released evs2) (made evs1) (made evs2).
  - lia.
  - done.
  - intros id Hc. destruct (B3 id Hc) as [Hc'|?]; [|right; unfold since; lia]. destruct (A3 id Hc') as [?|?]; [by left|right; unfold since; lia].
  - intros id Hc. rewrite elem_of_app. destruct (A4 id Hc) as [?|Hc']; [by left; left|]. destruct (B4 id Hc'); auto.
  - intros id [Hin|Hin]%elem_of_app; rewrite elem_of_app; unfold since.
    + destruct (A5 id Hin) as [? [?|Hc]]; (split; [lia|]); [by left; left|]. destruct (B4 id Hc); auto.
    + destruct (B5 id Hin) as [? Hor]. split; [lia|]. destruct Hor; auto.
  - intros id [Hin|Hin]%elem_of_app; unfold since.
    + destruct (Hgone id Hin) as [Hlt Hn]. split; [|by apply Hstay]. destruct (A6 id Hin) as [[?|?] _]; [by left|right; lia].
    + destruct (B6 id Hin) as [Hor Hn]. split; [|done]. destruct Hor as [Hc|?]; [|right; lia].
      destruct (A3 id Hc) as [?|?]; [by left|right; lia].
  - apply NoDup_app. split_and!; [done| |done]. intros id Hin Hin2. destruct (Hgone id Hin) as [Hlt Hn].
    destruct (B6 id Hin2) as [[?|[? _]] _]; [done|lia].
Qed.

(** Code that runs during a call makes no session. *)
Definition makes_no_session (w : world P) : Prop :=
  forall ev s, sessions_made (during w ev s) = sessions_made s /\ engineio (during w ev s) = engineio s.

Section with_world.
Context (w : world P) (Hw : makes_no_session w).

Lemma call_owned ev s : released [ev] = [] -> made [ev] = [] -> session_owned s [ev] (during w ev s).
Proof. intros. destruct (Hw ev s). by apply owned_quiet. Qed.

(** A session that is made and released at once, and one that replaces another. *)
Lemma rejected_owned s s' id transport :
  sessions_made s' = S (sessions_made s) -> engineio s' = engineio s -> id = sessions_made s ->
  session_owned s [NewSession id transport; ReleaseSession id] s'.
Proof.
  intros E1 E2 -> Hs. split; unfold owns_made, since; rewrite ?E1, ?E2; cbn; auto.
  - intros id Hc%Hs. lia.
  - intros id Hin%list_elem_of_singleton. subst id. split; [lia|]. left. by left.
  - intros id Hin%list_elem_of_singleton. subst id. split; [right; lia|]. intros Hc%Hs. lia.
  - apply NoDup_singleton.
Qed.

Lemma replaced_owned s s' id transport :
  sessions_made s' = S (sessions_made s) -> engineio s' = Some id -> id = sessions_made s ->
  session_owned s (NewSession id transport :: match engineio s with Some old => [ReleaseSession old] | None => [] end) s'.
Proof.
  intros E1 E2 -> Hs. split; unfold owns_made, since; rewrite ?E1, ?E2.
  - lia.
  - intros id [= <-]. lia.
  - intros id [= <-]. right. lia.
  - intros id Hc. rewrite Hc. left. by left.
  - intros id Hin. assert (id = sessions_made s) as ->; [|split; [lia|by right]].
    cbn in Hin. destruct (engineio s); by apply list_elem_of_singleton in Hin.
  - intros id Hin. destruct (engineio s) as [old|] eqn:Eo; cbn in Hin; [|by apply elem_of_nil in Hin].
    apply list_elem_of_singleton in Hin as ->. split; [by left|]. intros [= E]. specialize (Hs old Eo). lia.
  - destruct (engineio s); [apply NoDup_singleton|constructor].
Qed.

Lemma ensure_engineio_owned : traced session_owned (ensure_engineio w).
Proof.
  intros s. unfold ensure_engineio, mbind, prog_bind, gets, modify, lift, quietly, mret, prog_ret. cbn.
  set (s1 := {| s with sessions_made := S (sessions_made s) |}).
  destruct (make_configured_transport _ _) as [transport|x]; cbn.
  - set (s2 := during w (NewSession (sessions_made s) transport) s1). destruct (Hw (NewSession (sessions_made s) transport) s1) as [E1 E2].
    fold s2 in E1, E2. cbn in E1, E2. destruct (intentional_close s2); cbn.
    + destruct (Hw (ReleaseSession (sessions_made s)) s2) as [E3 E4]. apply rejected_owned; [lia|congruence|done].
    + rewrite E2. pose proof (fun s' H1 H2 => replaced_owned s s' (sessions_made s) transport H1 H2 eq_refl) as Hr.
      destruct (engineio s) as [old|] eqn:Eo; cbn.
      * destruct (Hw (ReleaseSession old) {| s2 with engineio := Some (sessions_made s) |}) as [E3 E4]. cbn in E3, E4.
        apply Hr; [lia|done].
      * apply Hr; [done|done].
  - intros Hs. split; unfold owns_made, since; cbn; auto; try (by intros id ?%elem_of_nil); [|constructor]. intros id Hc%Hs. lia.
Qed.

Lemma call_owned_other ev s :
  (forall attempt delay, ev <> HandlerReconnect attempt delay) -> ev <> HandlerFail ->
  (forall id transport, ev <> NewSession id transport) -> (forall id, ev <> ReleaseSession id) -> session_owned s [ev] (during w ev s).
Proof. intros _ _ Hn Hr. apply call_owned; destruct ev; try done; [by destruct (Hr session)|by destruct (Hn session transport)]. Qed.

Local Ltac owned :=
  trace_rules; try apply owned_app; try (intros; apply owned_refl); try apply ensure_engineio_owned;
  try (apply traced_act || apply traced_quietly); try (intros ?; by apply call_owned);
  try (apply traced_modify; intros ?; by apply owned_quiet).

Lemma operations_owned ops s : session_owned s (run_ops w ops s).2 (run_ops w ops s).1.
Proof.
  apply traced_operations; try (intros; apply owned_refl); try apply owned_app; try apply ensure_engineio_owned;
    try (by intros; apply owned_quiet); try (by intros; apply call_owned_other).
  - unfold schedule_reconnect. owned.
  - intros uri _. pose proof ensure_engineio_owned. unfold connect, open_session. owned.
Qed.
End with_world.

(** [C31] Who closes which session: of the sessions a client makes, in whatever sequence of
    calls, connection losses, reconnections and fallbacks, each is released exactly once
    by the client itself - when another replaces it or when shutdown has begun - or is
    the current one; and that one the destructor closes and waits for, without letting
    an exception out, after having told every socket. *)
Theorem client_releases_sessions (w : world P) (make : chosen_parser -> P) (o : client_options) (s : impl P) (ops : list client_op) :
  new_client make o = Ok s -> makes_no_session w -> settled w ->
  let '(s', evs) := run_ops w ops s in
  NoDup (released evs) /\
  (forall id, id ∈ made evs -> (id ∈ released evs /\ engineio s' <> Some id) \/ (id ∉ released evs /\ engineio s' = Some id)) /\
  (exists s'', destroy w s' = (s'', sync_close_calls w s', Ok tt)) /\
  (forall id, engineio s' = Some id -> CloseSession id ∈ sync_close_calls w s' /\ SyncCloseSession id ∈ sync_close_calls w s').
Proof.
  intros Hnew Hw Hset. unfold new_client in Hnew. apply outcome_bind_ok in Hnew as (choice & _ & [= <-]).
  pose proof (operations_owned w Hw ops (new_impl o (make choice))) as Hown.
  destruct (run_ops w ops _) as [s' evs]. cbn [fst snd] in Hown. destruct Hown as [A1 A2 A3 A4 A5 A6 A7]; [by intros id Hc|]. split_and!.
  - done.
  - intros id Hin. destruct (A5 id Hin) as [_ [Hr|Hc]]; [left; split; [done|by apply A6]|right]. split; [|done]. intros Hr. by apply A6 in Hr as [_ []].
  - by apply destroy_runs.
  - intros id Hc. unfold sync_close_calls, close_calls, session_calls. rewrite Hc. split.
    + right. apply elem_of_app. left. apply elem_of_app. right. by left.
    + do 2 (apply elem_of_app; right). apply elem_of_app. left. by left.
Qed.
End life.

(** ** The options *)

(** The proxy the options name. *)
Definition options_proxy (o : client_options) : outcome (option proxy_config) :=
  match proxy o with
  | Some p => make_proxy_config (proxy_uri p) (proxy_username p) (proxy_password p)
  | None => Ok None
  end.

Lemma configured (polling : bool) (o : client_options) (t : transport_config) :
  make_configured_transport polling o = Ok t ->
  exists px, options_proxy o = Ok px /\ t = mk_transport_config polling (verify_tls o) (extra_headers o) px.
Proof.
  unfold make_configured_transport, options_proxy.
  assert ((if decide (extra_headers o = []) then set_verify_tls (verify_tls o) (new_transport_config polling)
           else set_extra_headers (extra_headers o) (set_verify_tls (verify_tls o) (new_transport_config polling)))
          = mk_transport_config polling (verify_tls o) (extra_headers o) None) as ->.
  { case_decide as He; [|done]. unfold set_verify_tls; cbn. by rewrite He. }
  destruct (proxy o) as [p|]; [|intros [= <-]; by exists None].
  unfold set_proxy. intros (px & Epx & [= <-])%outcome_bind_ok. by exists px.
Qed.

(** [C40] The options reach the network, whichever transport is made, with the blocking and
    the asynchronous request of the one and the connection of the other, on every network.  The proxy
    is that of the options: its name is resolved and not the server's, a TLS
    handshake comes only after the tunnel was asked for, a tunnel is asked for only if there is a
    proxy, with the credentials of the options.  Certificates are verified in every TLS
    handshake if and only if [verify_tls] says so.  The one other message written is
    the request; it goes to the proxy with an absolute target if the server is plain, and to
    a TLS server after the handshake.  Of every field but those that describe the body the
    request has one value, the last one the extra headers give it, and the library's own only if they give
    none; the credentials for the proxy are the library's own to a plain server alone.  The
    upgrade request of a WebSocket has the extra headers likewise. *)
Theorem options_reach_requests `{Errors, BeastLaws} (polling : bool) (o : client_options) (t : transport_config) (u : url_parts)
    (net : network) (owned : bool) (method : verb) (target payload : bstr) (calls : list io_call) :
  make_configured_transport polling o = Ok t ->
  let message := sync_message (settings_of t u) method target payload in
  calls = (sync_request net (settings_of t u) method target payload).1 \/
    calls = (async_request net (settings_of t u) method target payload).1 \/ calls = (ws_connection net owned (settings_of t u)).1 ->
  exists px, options_proxy o = Ok px /\
    let c := mk_settings u px (extra_headers o) (verify_tls o) in
    as_configured c message calls /\
    request_target message = (if bool_decide (is_Some px) && negb (tls u) then absolute_http_target u target else target) /\
    (forall name, describes_body name = false ->
       values name (written_fields message) = overridden (extra_headers o) name (own_values c name)) /\
    (forall p, px = Some p -> values proxy_authorization (fields (proxy_request u p)) =
       if bool_decide (authorization p = []) then [] else [authorization p]) /\
    (forall version r name, values name (fields (decorate version (settings_of t u) r)) =
       overridden (extra_headers o) name
         (if decide (lower name = lower "User-Agent") then [version ++ bs " sioxx-client"] else values name (fields r))).
Proof.
  intros (px & Epx & ->)%configured message Hcalls. exists px. split; [done|]. cbv zeta. split_and!.
  - destruct Hcalls as [->|[-> | ->]]; [apply sync_configured|apply async_configured|apply ws_configured].
  - unfold message, sync_message, settings_of. cbn [HttpRequest.proxy_ url_ config_proxy]. cbn [request_target].
    rewrite request_target_set_fields. destruct px as [p|], (tls u); cbn -[bs]; try done. by destruct (bool_decide _).
  - intros name Hn. unfold written_fields. change (prepared message) with true. cbv iota. rewrite prepare_payload_others by done. apply message_values.
  - intros p _. apply proxy_request_values.
  - intros. apply decorate_values.
Qed.

(** ** Examples *)

Module FacadeDemo.
Definition options : client_options :=
  let o := default_options in
  {| o with verify_tls := false; extra_headers := [(bs "X-Token", bs "s"); (bs "x-token", bs "t")];
            proxy := Some (mk_proxy_options "http://proxy:3128" "user" "secret") |}.

Definition transport : transport_config :=
  mk_transport_config true false [(bs "X-Token", bs "s"); (bs "x-token", bs "t")] (Some (mk_proxy (mk_url "http" "proxy" "3128" "/" false) "Basic dXNlcjpzZWNyZXQ=")).

(** Content-Length where there is a body. *)
Definition beast : Beast := fun r =>
  if decide (body r = []) then fields r else fields (set_field "Content-Length" (to_string (Z.of_nat (length (body r)))) r).

(** A client that loses its connection once, closes, and connects again. *)
Definition life : list client_op :=
  ClientDemo.two_losses ++ [OClose; OSessionError 1 "late"; OConnect ClientDemo.uri].
End FacadeDemo.

Lemma beast_laws : @BeastLaws FacadeDemo.beast.
Proof.
  intros r name Hn. unfold prepare_payload, FacadeDemo.beast. case_decide; [done|]. rewrite values_set_field.
  case_decide as E; [|done]. apply orb_false_elim in Hn as [Hn _]. by apply bool_decide_eq_false in Hn.
Qed.

(** The header of the options, which are given twice, and the credentials in the CONNECT request. *)
Lemma options_reach_requests_witness :
  let c := settings_of FacadeDemo.transport (mk_url "https" "example.org" "443" "/" true) in
  let calls := (sync_request (H := HttpDemo.messages) HttpDemo.net c verb_get "/" []).1 in
  head calls = Some (IoResolve "proxy" "3128") /\
  values "x-token" (written_fields (H := FacadeDemo.beast) (sync_message c verb_get "/" [])) = [bs "t"] /\
  exists p, options_proxy FacadeDemo.options = Ok (Some p) /\ IoProxyWrite (proxy_request (mk_url "https" "example.org" "443" "/" true) p) ∈ calls /\
    values proxy_authorization (fields (proxy_request (mk_url "https" "example.org" "443" "/" true) p)) = [bs "Basic dXNlcjpzZWNyZXQ="].
Proof.
  cbv zeta.
  destruct (options_reach_requests (H := HttpDemo.messages) (H0 := FacadeDemo.beast) (H1 := beast_laws) true FacadeDemo.options FacadeDemo.transport
    (mk_url "https" "example.org" "443" "/" true) HttpDemo.net false verb_get "/" []
    (sync_request (H := HttpDemo.messages) HttpDemo.net (settings_of FacadeDemo.transport (mk_url "https" "example.org" "443" "/" true)) verb_get "/" []).1
    ltac:(vm_compute; reflexivity) (or_introl eq_refl)) as (px & Epx & Hc & _ & Hv & Hp & _).
  assert (px = Some (mk_proxy (mk_url "http" "proxy" "3128" "/" false) "Basic dXNlcjpzZWNyZXQ=")) as ->.
  { vm_compute in Epx. injection Epx as <-. vm_compute. reflexivity. }
  split; [exact (ac_first _ _ _ Hc)|]. split.
  - rewrite (Hv "x-token") by (vm_compute; reflexivity). vm_compute. reflexivity.
  - eexists. split; [exact Epx|]. split; [|rewrite (Hp _ eq_refl); vm_compute; reflexivity].
    match goal with |- _ ∈ ?l =>
      rewrite <- (take_drop 5 l); apply elem_of_app; left; apply (ac_tls _ _ _ Hc (take 5 l) false (drop 6 l))
    end; vm_compute; reflexivity.
Defined.

#[local] Existing Instances Codec.lib Codec.laws.

(** Session 0 is replaced by 1, 1 by 2, which the destructor closes. *)
Lemma client_releases_sessions_witness :
  let result := run_ops ClientDemo.calm (OConnect ClientDemo.uri :: FacadeDemo.life) (new_impl (ClientDemo.options_with 1) idle_parser) in
  released result.2 = [0; 1]%nat /\ engineio result.1 = Some 2%nat /\ NoDup (released result.2) /\
  SyncCloseSession 2 ∈ sync_close_calls ClientDemo.calm result.1.
Proof.
  cbv zeta.
  pose proof (client_releases_sessions ClientDemo.calm (fun _ => idle_parser) (ClientDemo.options_with 1)
    (new_impl (ClientDemo.options_with 1) idle_parser) (OConnect ClientDemo.uri :: FacadeDemo.life) eq_refl
    (fun _ _ => conj eq_refl eq_refl) (fun _ _ => conj eq_refl (conj eq_refl (fun E => E)))) as T.
  assert (Hr : released (run_ops ClientDemo.calm (OConnect ClientDemo.uri :: FacadeDemo.life)
    (new_impl (ClientDemo.options_with 1) idle_parser)).2 = [0; 1]%nat) by (vm_compute; reflexivity).
  assert (He : engineio (run_ops ClientDemo.calm (OConnect ClientDemo.uri :: FacadeDemo.life)
    (new_impl (ClientDemo.options_with 1) idle_parser)).1 = Some 2%nat) by (vm_compute; reflexivity).
  destruct (run_ops _ _ _) as [s' evs]. destruct T as (T1 & _ & _ & T4). split; [exact Hr|]. split; [exact He|].
  split; [exact T1|]. apply (proj2 (T4 2%nat He)).
Defined.

(** Without a proxy, to a plain server. *)
Lemma websocket_connects_like_polling_witness :
  let c := settings_of (new_transport_config true) (mk_url "http" "localhost" "3000" "/" false) in
  (sync_request (H := HttpDemo.messages) HttpDemo.net c verb_get "/" []).1 =
  [IoResolve "localhost" "3000"; IoConnect; IoWrite (sync_message c verb_get "/" []); IoRead; IoShutdown].
Proof.
  cbv zeta. pose proof (websocket_connects_like_polling (errors := HttpDemo.messages) true HttpDemo.net
    (settings_of (new_transport_config true) (mk_url "http" "localhost" "3000" "/" false)) "ws://localhost:3000/socket.io/"
    (mk_url "ws" "localhost" "3000" "/socket.io/" false) verb_get "/" [] ltac:(vm_compute; reflexivity)
    (conj eq_refl (conj eq_refl eq_refl))) as T. cbv zeta in T.
  match type of T with let (_, _) := ?run in _ => destruct run as [calls s] eqn:E end.
  destruct T as (_ & _ & _ & T). vm_compute in E. injection E as <- <-. cbn [config_proxy settings_of new_transport_config HttpRequest.proxy_] in T.
  rewrite T. vm_compute. reflexivity.
Defined.
