(* ===== verification/Listeners.v ===== *)
(** * The life-cycle listeners of the client

    The [set_..._listener] methods of [client], [set_handler] and [current_handler] of
    src/client_impl.hpp: which function object each report of Client.v calls.  The
    mutex around them is in ClientLocks.v. *)

From S2P Require Export Facade.
From stdpp Require Import options.
#[local] Set Default Proof Using "Type*".

Inductive listener : Type := OpenListener | CloseListener | FailListener | ReconnectingListener | ReconnectListener | ErrorListener.

#[export] Instance listener_eq_dec : EqDecision listener.
Proof. solve_decision. Defined.

(** The listener a report of the client is for. *)
Definition listener_of (ev : client_event) : option listener :=
  match ev with
  | HandlerOpen => Some OpenListener
  | HandlerClose _ => Some CloseListener
  | HandlerFail => Some FailListener
  | HandlerReconnecting => Some ReconnectingListener
  | HandlerReconnect _ _ => Some ReconnectListener
  | HandlerError _ => Some ErrorListener
  | _ => None
  end.

Section listeners.
Context {F : Type}. (* the function objects; an empty one is [None] *)

Record handlers : Type := mk_handlers {
  on_open : option F;
  on_close : option F;
  on_fail : option F;
  on_reconnecting : option F;
  on_reconnect : option F;
  on_error : option F;
}.

Definition no_handlers : handlers := mk_handlers None None None None None None.

Definition set_handler (hs : handlers) (reg : listener * option F) : handlers :=
  match reg.1 with
  | OpenListener => {| hs with on_open := reg.2 |}
  | CloseListener => {| hs with on_close := reg.2 |}
  | FailListener => {| hs with on_fail := reg.2 |}
  | ReconnectingListener => {| hs with on_reconnecting := reg.2 |}
  | ReconnectListener => {| hs with on_reconnect := reg.2 |}
  | ErrorListener => {| hs with on_error := reg.2 |}
  end.

Definition current_handler (hs : handlers) (l : listener) : option F :=
  match l with
  | OpenListener => on_open hs
  | CloseListener => on_close hs
  | FailListener => on_fail hs
  | ReconnectingListener => on_reconnecting hs
  | ReconnectListener => on_reconnect hs
  | ErrorListener => on_error hs
  end.

(** What a listener registers while it runs; it is called through a copy, so that it may replace itself. *)
Context (body : F -> client_event -> list (listener * option F)).

Definition report (hs : handlers) (ev : client_event) : handlers * list (F * client_event) :=
  match listener_of ev ≫= current_handler hs with
  | Some f => (foldl set_handler hs (body f ev), [(f, ev)])
  | None => (hs, [])
  end.

Fixpoint report_all (hs : handlers) (evs : list client_event) : handlers * list (F * client_event) :=
  match evs with
  | [] => (hs, [])
  | ev :: evs =>
      let '(hs, calls) := report hs ev in
      let '(hs, calls') := report_all hs evs in (hs, calls ++ calls')
  end.

(** ** Registration *)

Lemma current_set hs l f l' : current_handler (set_handler hs (l, f)) l' = if decide (l = l') then f else current_handler hs l'.
Proof. by destruct l, l'. Qed.

Lemma handlers_ext hs hs' : (forall l, current_handler hs l = current_handler hs' l) -> hs = hs'.
Proof.
  intros H. pose proof (fun l => H l) as E. destruct hs, hs'. f_equal;
    [exact (E OpenListener)|exact (E CloseListener)|exact (E FailListener)|exact (E ReconnectingListener)|exact (E ReconnectListener)|exact (E ErrorListener)].
Qed.

(** The last registration for a listener. *)
Fixpoint registered (l : listener) (regs : list (listener * option F)) (default : option F) : option F :=
  match regs with
  | [] => default
  | (l', f) :: regs => registered l regs (if decide (l' = l) then f else default)
  end.

Lemma last_registration_counts regs hs l :
  current_handler (foldl set_handler hs regs) l = registered l regs (current_handler hs l).
Proof. revert hs. induction regs as [|[l' f] regs IH]; intros hs; cbn; [done|]. by rewrite IH, current_set. Qed.

(** Registrations for different listeners commute. *)
Lemma registrations_commute hs l f l' f' :
  l <> l' -> set_handler (set_handler hs (l, f)) (l', f') = set_handler (set_handler hs (l', f')) (l, f).
Proof. intros Hl. apply handlers_ext. intros k. rewrite !current_set. repeat case_decide; congruence. Qed.

(** ** What listeners hear *)

Lemma report_all_app hs evs1 evs2 :
  report_all hs (evs1 ++ evs2) =
  let '(hs1, calls1) := report_all hs evs1 in
  let '(hs2, calls2) := report_all hs1 evs2 in (hs2, calls1 ++ calls2).
Proof.
  revert hs. induction evs1 as [|ev evs1 IH]; intros hs; cbn; [by destruct (report_all hs evs2)|].
  destruct (report hs ev) as [h c]. rewrite IH. destruct (report_all h evs1) as [h1 c1]. destruct (report_all h1 evs2) as [h2 c2].
  by rewrite (assoc_L (++)).
Qed.

Lemma report_all_snoc hs evs ev :
  report_all hs (evs ++ [ev]) = let '(hs1, calls) := report_all hs evs in let '(hs2, call) := report hs1 ev in (hs2, calls ++ call).
Proof.
  rewrite report_all_app. destruct (report_all hs evs) as [hs1 calls]. cbn. destruct (report hs1 ev). by rewrite app_nil_r.
Qed.

(** Each call is that of a function object the application has registered for it: at first, or in a
    listener it had been told of before. *)
Lemma heard_was_registered hs evs f ev :
  (f, ev) ∈ (report_all hs evs).2 ->
  exists l, listener_of ev = Some l /\
    (current_handler hs l = Some f \/ exists g ev', (g, ev') ∈ (report_all hs evs).2 /\ (l, Some f) ∈ body g ev').
Proof.
  set (known := fun l f (calls : list (F * client_event)) => current_handler hs l = Some f \/ exists g ev', (g, ev') ∈ calls /\ (l, Some f) ∈ body g ev').
  assert (Hk : forall l f c c', known l f c -> known l f (c ++ c')).
  { intros l f' c c' [?|(g & e & ? & ?)]; [by left|right]. exists g, e. rewrite elem_of_app. auto. }
  assert (Hreg : forall regs default l f', registered l regs default = Some f' -> default = Some f' \/ (l, Some f') ∈ regs).
  { induction regs as [|[l' x] regs IH]; cbn; intros d l f'; [auto|]. intros [E|?]%IH; [|right; by right].
    case_decide; [|by left]. subst. right. left. }
  enough ((forall l f, current_handler (report_all hs evs).1 l = Some f -> known l f (report_all hs evs).2) /\
    forall f ev, (f, ev) ∈ (report_all hs evs).2 -> exists l, listener_of ev = Some l /\ known l f (report_all hs evs).2) as [_ H] by exact (H f ev).
  clear f ev. induction evs as [|ev evs [IH1 IH2]] using rev_ind; [split; [by left|by intros ?? ?%elem_of_nil]|].
  rewrite report_all_snoc. destruct (report_all hs evs) as [hs1 calls]. cbn [fst snd] in *. unfold report.
  destruct (listener_of ev) as [l|] eqn:El; cbn; [destruct (current_handler hs1 l) as [f|] eqn:Ef|]; cbn;
    rewrite ?app_nil_r; [|by split..].
  split.
  - intros l' f'. rewrite last_registration_counts. intros [?|Hin]%Hreg; [by apply Hk, IH1|].
    right. exists f, ev. rewrite elem_of_app, list_elem_of_singleton. auto.
  - intros f' ev' [Hin|[= -> ->]%list_elem_of_singleton]%elem_of_app.
    + destruct (IH2 f' ev' Hin) as (l' & ? & ?). eauto.
    + exists l. split; [done|]. by apply Hk, IH1.
Qed.

(** Events without a listener call nothing and change nothing. *)
Lemma unset_is_silent hs evs :
  Forall (fun ev => listener_of ev ≫= current_handler hs = None) evs -> report_all hs evs = (hs, []).
Proof. induction 1 as [|ev evs E _ IH]; cbn; [done|]. unfold report. by rewrite E, IH. Qed.
End listeners.
Arguments handlers : clear implicits.

(** ** The listeners of a client

    What the application is told in a sequence of calls and registrations. *)
Section told.
Context {P F : Type} `{ParserBase P} (w : world P) (body : F -> client_event -> list (listener * option F)).

Inductive facade_call : Type :=
  | Call (op : client_op)
  | SetListener (l : listener) (f : option F).

Fixpoint told (calls : list facade_call) (s : impl P) (hs : handlers F) : list (F * client_event) :=
  match calls with
  | [] => []
  | Call op :: calls =>
      let '(s, evs, _) := run_op w op s in
      let '(hs, heard) := report_all body hs evs in heard ++ told calls s hs
  | SetListener l f :: calls => told calls s (set_handler hs (l, f))
  end.

(** Without registrations in between the listeners hear what the client reports. *)
Lemma told_operations ops s hs : told (Call <$> ops) s hs = (report_all body hs (run_ops w ops s).2).2.
Proof.
  revert s hs. induction ops as [|op ops IH]; intros s hs; cbn; [done|].
  destruct (run_op w op s) as [[s1 evs] r]. specialize (IH s1). destruct (run_ops w ops s1) as [s2 evs2]. cbn in *.
  rewrite report_all_app. destruct (report_all body hs evs) as [hs1 calls1]. rewrite IH.
  by destruct (report_all body hs1 evs2).
Qed.
End told.

(** ** Example: a listener that replaces itself, and registers another *)
Module ListenersDemo.
#[local] Existing Instances Codec.lib Codec.laws.

Definition first_loss (f : string) (ev : client_event) : list (listener * option string) :=
  match ev with HandlerClose _ => [(FailListener, Some "gave up"%string); (CloseListener, None)] | _ => [] end.

Lemma losses_told :
  told ClientDemo.calm first_loss (SetListener CloseListener (Some "lost"%string) :: (Call <$> ClientDemo.two_losses))
    (ClientDemo.connected_client 1) no_handlers = [("lost"%string, HandlerClose "lost"); ("gave up"%string, HandlerFail)].
Proof. vm_compute. reflexivity. Qed.
End ListenersDemo.
